(* ===== verification/_CoqProject ===== *)
-Q . S2P
Prelude.v
Float.v
Errors.v
Domain.v
Validate.v
Store.v
Fixtures.v
Memory.v
MemoryStore.v
MemoryQueries.v
Fetcher.v
Ranger.v
Syncer.v
SyncerProofs.v
Endpoint.v
SyncerLive.v
Runner.v
RunnerLog.v
Codec.v
Postgres.v
PostgresTx.v
PostgresRows.v
PostgresStore.v
PostgresView.v
PostgresContract.v
PostgresQueries.v
PostgresEval.v
PostgresLive.v
Cursor.v
Text.v
Json.v
Clock.v
Query.v
Service.v
Server.v
Response.v
Router.v
Wire.v
ServerPostgres.v
WirePostgres.v
Config.v
DurationText.v
Client.v
Runtime.v
Main.v
