(* ===== verification/Prelude.v ===== *)
(** * Verification of ethindexer

    ethindexer keeps a window of recent Ethereum blocks, with their transactions
    and event logs, in a store and answers queries over HTTP.  One synchronizer
    polls a JSON-RPC endpoint; each cycle selects a head, finds out which part of
    the stored segment is still canonical, fetches the rest with a pool of workers,
    and replaces it in one atomic update.

    ** Parts of the program and files of the development

    - [Prelude]: Go's machine integers, byte arrays and slices, the unspecified order
      of map iteration and of [sort.Slice] (the class [GoRuntime]; every theorem
      holds for each choice the runtime may make), and the shared list lemmas.
    - [Errors]: the sentinel errors of all packages, [%w] wrapping and [errors.Is];
      the [result] of a call (value, error, panic, or fuel exhausted, which is never
      reached) and [action], the state monad of calls with effects.
    - [Domain]: [internal/domain], the records and limits.
    - [Validate]: [validateReplacement] and [validateCanonicalBundles] of
      [internal/store/memory.go], used by both stores, and what they decide:
      [canonical], one gap-free parent-linked chain of consistent blocks.
    - [Store]: [internal/store/store.go].  The class [IndexStore] is the interface,
      [IndexStoreLaws] the contract the synchronizer relies on, in terms of the
      [view] of a store (a map from block numbers) and of [apply_update], the
      documented effect of a [CanonicalUpdate].
    - [Memory], [MemoryStore], [MemoryQueries]: [internal/store/memory.go].  The
      state is the [Memory] record; every method is one definition (the mutex makes
      it atomic).  [MemoryStore] proves the contract (instance
      [memory_store_laws]) and the invariant of reachable states, [MemoryQueries]
      the queries and pagination.
    - [Fetcher]: [internal/indexer/fetcher.go], [FetchBlock] on the endpoint's
      replies.
    - [Ranger]: [internal/indexer/ranger.go].  The producer, the workers, the job
      channel, the error channel of capacity one and the cancellation are a step
      relation [rstep]; [FetchRange_returns] relates a call to its possible results.
    - [Syncer], [SyncerProofs]: [internal/indexer/syncer.go].  [SyncOnce] is an action
      on the store, through [IndexStore], and on an environment that may change
      between any two calls.  [Endpoint] is a concrete environment on which the
      definitions are evaluated (initial load, reorganization, idle cycle).
    - [SyncerLive]: the class [IndexStoreLive], what a store promises while its calls do
      not fail, its instance for the in-memory store, and the progress of a cycle.
    - [Runner]: [internal/indexer/runner.go], retries, backoff, the wait and the polling
      loop (a step function on the runner's phase, since the loop does not end);
      [RunnerLog]: the log entry of a cycle.
    - [Codec]: the range checks, statement parameters and row decoders of
      [internal/store/postgres_indexer.go] and [postgres_scan.go].
    - [Postgres]: the tables and constraints of [migrations/000001_initial.up.sql], every
      SQL statement as a function on them, and every method of the PostgreSQL store
      ([internal/store/postgres*.go]) as the sequence of its calls.  Each call may fail,
      other sessions may commit between calls, and a commit may be applied although its
      answer is lost.  [PostgresTx] shows what a transaction and its batches compute,
      [PostgresRows] and [PostgresStore] the effect on the rows of an update,
      [PostgresView] the segment the tables hold, [PostgresContract] the store contract
      (instance [postgres_store_laws]), [PostgresQueries] the queries, [PostgresLive]
      the instance of [IndexStoreLive], and [PostgresEval] a concrete session.
    - [Cursor]: the request parsers and the event cursor of
      [internal/server/events.go] and [blocks.go], with base64 and big-endian
      encodings.
    - [Service]: [internal/service], the query and health services over the classes
      [QueryStore] and [ReadinessStore], with the translation of store errors.
    - [Text], [Json], [Clock], [Query]: what the server uses of the standard library.
      Decimal numbers; [encoding/json] with its escapes and a reader of what it writes;
      the calendar and RFC 3339; query strings.
    - [Server]: [internal/server], every handler as a function from the request's
      parameters and a store to a status and a body.
    - [Response]: [internal/server/response.go], the response structs as JSON objects and
      [writeJSON], which makes bytes of them.
    - [Router]: [internal/server/router.go], the routes and middleware [NewServer]
      registers.  The router is known through the class [Chi] and its laws [ChiLaws],
      go-ethereum's hexadecimal texts through [EthText] and [EthTextLaws]; both have
      reference instances.
    - [Wire]: requests as path and query text, replies as bytes, and a client that reads
      them.  [ServerPostgres] and [WirePostgres]: the same over the PostgreSQL store.
    - [Config]: [internal/config/config.go], defaults, environment overrides, validation
      and [Load].  [DurationText]: [UnmarshalYAML] and [MarshalYAML] of its durations, with
      [time.ParseDuration] and [Duration.String]; [Float]: the binary64 arithmetic they
      use, which is exact on small integers.
    - [Client]: [internal/ethereum], the JSON-RPC client with its deadlines, the chain ID
      check and [Dial].
    - [Runtime]: [runServices] of [cmd/indexer/runtime.go].  The three goroutines, the
      group's context and its first error are a step relation [gstep]; the indexer and
      the server are known through [indexerRunner] and [httpRuntime].
    - [Main]: [cmd/indexer/main.go] and [OpenPostgres], with the command line, on a trace
      of opened and closed resources; and the synchronizer of [Runner] as the indexer of
      [Runtime].
    - [Fixtures]: concrete blocks for evaluations.

    ** What the theorems show

    - Stores: validation decides canonicity; an update is all or nothing with exactly
      the documented effect; every reachable in-memory state is canonical; tip, block,
      transaction and event queries return what is stored; following cursors lists
      each matching event once, newest first; no result depends on map order.
    - Fetching: a fetched block holds, field by field, what the endpoint answered, all
      transactions and logs included, and is accepted by the stores; exactly the consistent
      replies are accepted.  For all interleavings, a range
      fetch returns the right chained blocks, or an error with a cause; it never
      deadlocks, ends within a bound, uses no more workers than configured, and agrees
      with sequential fetching.
    - Synchronization: a failed cycle changes nothing; a successful one leaves the
      selected head as tip and at most the window; only the divergent suffix is
      replaced, above the highest common ancestor, by exactly the bundles the cycle's
      range fetch returned; the window has no holes; a second cycle with the same head
      does nothing ([enlarged_window_not_backfilled]: neither when the configured window
      has grown since).  While the endpoint serves one chain and the
      store answers, a cycle succeeds.  Retries follow the configured schedule; after
      startup only the context ends the loop; the store invariant holds however long the
      service runs.  These theorems are about any store with the contract, so about both.
    - PostgreSQL: an update is applied in full to the state at the advisory lock or not at
      all, for every failing call, concurrent session and lost commit answer, and is
      accepted exactly when the contract allows it, provided that no input or log data is
      a nil slice (none of [FetchBlock] is; such an update is refused,
      [postgres_nil_refused]); batching is transparent; every
      reachable database holds one canonical segment described by [sync_state]; queries
      answer as the in-memory store on one committed state.
    - Codecs: rows decode to what was written, numerics exactly; cursors round trip and
      have one spelling; numbers in requests are parsed exactly; JSON values and instants
      are read back from their text; every duration round trips through its YAML text,
      rounding of fractions included.
    - HTTP: errors keep their meaning from the store to the client; each endpoint answers
      with the documented status for every store; a client that reads the JSON of its
      replies and sends the cursors back in query strings receives every event once and
      stops, over either store; every hash a block reply lists can be requested, and its time is exact; an
      error reply is well-formed JSON whatever identifier the client sent; readiness
      reports the highest block; over PostgreSQL the replies are, byte for byte, those
      over the in-memory store, or one constant 500 if a call the request makes fails.
    - Process: validation accepts exactly the usable configurations, and an accepted one
      passes the indexer's own checks; whatever fails at startup, what was opened is
      closed; [runServices] stops when its context is done or a service returns, returns
      nil only for a graceful stop, and always for one, and never swallows a failure; a
      failing cycle after the start does not end the process.

    ** Bounds and fuel

    [commonAncestor] counts down and is given one round more than the distance
    (modulo 2^64) from its start to [retainFrom], which it meets by then;
    [syncWithRetry] gets one round more than [retry_attempts].  Both are proved to
    return.  [TrimSpace], [read_json] and [ParseDuration] get the length of their text, and
    consume a byte per round; a decimal number has no more digits than its binary logarithm
    plus one.
    [uint64], [uint32] and [int64] arithmetic is on [Z] with the wrap-around written out
    where the code can reach it.  Allocation is assumed to succeed, and instants and
    deadlines do not overflow.

    ** Not modelled

    The YAML decoder is a library, and so are the router and its middleware: the model
    has their documented behaviour as laws or their results as parameters.  Log messages
    other than the entry of a cycle and of a failed encoding are left out.  Parameters of
    the model are go-ethereum's signature recovery, header hashing and hexadecimal
    functions, the endpoint's replies, the PostgreSQL engine's representation of numerics
    and order of equal rows, [url.ParseRequestURI] (which texts in brackets it accepts as a
    host depends on the release), [zerolog.ParseLevel], the drivers' connections, the clock
    and the timer.  The laws of the router are for patterns of fixed segments and plain
    parameters and leave open what an empty path parameter does.  [Close]
    methods only pass the call on. *)
From stdpp Require Import prelude gmap sorting list strings.
From Stdlib Require Import ZArith Lia Strings.Byte.

#[export] Set Warnings "-clear-no-such-hyp,-register-all".

Local Open Scope Z_scope.

(** ** Machine integers

    Go's fixed-width integers are kept as [Z]; the arithmetic that can wrap is
    written with [wrap64]. *)

Definition two64 : Z := 2 ^ 64.
Definition max_uint64 : Z := two64 - 1.
Definition max_uint32 : Z := 2 ^ 32 - 1.
Definition max_int64 : Z := 2 ^ 63 - 1.
Definition max_int32 : Z := 2 ^ 31 - 1.

Definition wrap64 (x : Z) : Z := x mod two64.
Definition u64_add (x y : Z) : Z := wrap64 (x + y).
Definition u64_sub (x y : Z) : Z := wrap64 (x - y).

(** Conversion to [uint32] and [int64] keeps the low bits. *)
Definition to_u32 (x : Z) : Z := x mod 2 ^ 32.
Definition to_int64 (x : Z) : Z := (x + 2 ^ 63) mod two64 - 2 ^ 63.

Definition is_u64 (x : Z) : Prop := 0 <= x < two64.
Definition is_u32 (x : Z) : Prop := 0 <= x <= max_uint32.

#[global] Instance is_u64_dec x : Decision (is_u64 x).
Proof. unfold is_u64. apply _. Defined.
#[global] Instance is_u32_dec x : Decision (is_u32 x).
Proof. unfold is_u32. apply _. Defined.

(** [bool_iff] turns the boolean guards of the code into propositions. *)
Ltac bool_iff :=
  rewrite ?orb_false_iff, ?negb_false_iff, ?negb_true_iff, ?andb_true_iff, ?orb_true_iff,
    ?Z.eqb_eq, ?Z.eqb_neq, ?bool_decide_eq_true, ?bool_decide_eq_false, ?Z.ltb_ge, ?Z.ltb_lt,
    ?Z.leb_le, ?Z.leb_gt.
Tactic Notation "bool_iff" "in" hyp(H) :=
  rewrite ?orb_false_iff, ?negb_false_iff, ?negb_true_iff, ?andb_true_iff, ?orb_true_iff,
    ?Z.eqb_eq, ?Z.eqb_neq, ?bool_decide_eq_true, ?bool_decide_eq_false, ?Z.ltb_ge, ?Z.ltb_lt,
    ?Z.leb_le, ?Z.leb_gt in H.

Create HintDb go_int.
#[export] Hint Unfold is_u64 is_u32 two64 max_uint64 max_uint32 max_int64 max_int32 : go_int.

(** [int_lia] closes goals on machine integers: it unfolds the bounds first. *)
Ltac int_lia :=
  unfold is_u64, is_u32, max_uint64, max_uint32, max_int64, max_int32, two64 in *; lia.

Lemma wrap64_small x : is_u64 x -> wrap64 x = x.
Proof. intros H. apply Z.mod_small. exact H. Qed.

Lemma u64_add_small x y : is_u64 (x + y) -> u64_add x y = x + y.
Proof. apply wrap64_small. Qed.

Lemma u64_sub_small x y : is_u64 (x - y) -> u64_sub x y = x - y.
Proof. apply wrap64_small. Qed.

Lemma wrap64_range x : is_u64 (wrap64 x).
Proof. apply Z.mod_pos_bound. reflexivity. Qed.

Lemma to_u32_small x : is_u32 x -> to_u32 x = x.
Proof. intros H. apply Z.mod_small. int_lia. Qed.

Lemma to_u32_range x : is_u32 (to_u32 x).
Proof. unfold to_u32. pose proof (Z.mod_pos_bound x (2 ^ 32)). int_lia. Qed.

Lemma to_int64_small x : - 2 ^ 63 <= x <= max_int64 -> to_int64 x = x.
Proof. intros H. unfold to_int64. rewrite Z.mod_small; int_lia. Qed.

#[export] Hint Resolve wrap64_range to_u32_range : go_int.

(** ** Bytes and fixed-size byte arrays

    [common.Hash] and [common.Address] are Go arrays, [[32]byte] and [[20]byte]:
    values of a fixed length compared by content.  The length proof is a boolean
    equation, so two arrays with the same bytes are equal. *)

#[global] Instance byte_eq_dec : EqDecision byte := Byte.byte_eq_dec.
#[global] Program Instance byte_countable : Countable byte :=
  inj_countable Byte.to_N Byte.of_N _.
Next Obligation. exact Byte.of_to_N. Qed.

Record byte_array (n : nat) := ByteArray {
  array_bytes : list byte;
  array_length : (length array_bytes =? n)%nat = true
}.
Arguments ByteArray {n} _ _.
Arguments array_bytes {n} _.
Arguments array_length {n} _.

Lemma byte_array_eq {n} (a b : byte_array n) : array_bytes a = array_bytes b -> a = b.
Proof.
  destruct a as [x p], b as [y q]; simpl; intros ->.
  f_equal. apply (Eqdep_dec.UIP_dec Bool.bool_dec).
Qed.

#[global] Instance byte_array_eq_dec n : EqDecision (byte_array n).
Proof.
  intros a b. destruct (decide (array_bytes a = array_bytes b)) as [e|ne].
  - left. by apply byte_array_eq.
  - right. by intros ->.
Defined.

(** The array holding [l] when [l] has the right length. *)
Definition array_of_bytes (n : nat) (l : list byte) : option (byte_array n) :=
  (if (length l =? n)%nat as b return (length l =? n)%nat = b -> _
   then fun p => Some (ByteArray l p) else fun _ => None) eq_refl.

Lemma array_of_bytes_eq {n} (a : byte_array n) : array_of_bytes n (array_bytes a) = Some a.
Proof.
  unfold array_of_bytes. generalize (eq_refl (length (array_bytes a) =? n)%nat).
  pose proof (array_length a) as p. revert p.
  generalize (length (array_bytes a) =? n)%nat at 1 3 4 as b. intros b p.
  destruct b; [|congruence].
  intros e. f_equal. by apply byte_array_eq.
Qed.

#[global] Program Instance byte_array_countable n : Countable (byte_array n) :=
  inj_countable array_bytes (array_of_bytes n) _.
Next Obligation. intros n a. apply array_of_bytes_eq. Qed.

Lemma array_bytes_length {n} (a : byte_array n) : length (array_bytes a) = n.
Proof. apply Nat.eqb_eq, array_length. Qed.

(** The zero value of an array type. *)
Lemma zero_bytes_length n : (length (replicate n x00) =? n)%nat = true.
Proof. by rewrite length_replicate, Nat.eqb_refl. Qed.
Definition zero_array (n : nat) : byte_array n := ByteArray (replicate n x00) (zero_bytes_length n).

(** An array whose last byte is [b] and the others zero, for concrete inputs. *)
Lemma low_byte_length n b : (length (replicate n x00 ++ [b]) =? S n)%nat = true.
Proof. rewrite length_app, length_replicate; simpl. apply Nat.eqb_eq. lia. Qed.
Definition low_byte_array (n : nat) (b : byte) : byte_array (S n) :=
  ByteArray (replicate n x00 ++ [b]) (low_byte_length n b).

(** ** Byte slices

    A Go slice distinguishes [nil] from an empty slice.  The difference is
    visible where a slice becomes an SQL parameter, so the byte slices that are
    stored ([Input], [Data]) keep it: [None] is [nil]. *)

Definition byte_slice := option (list byte).

Definition slice_bytes (s : byte_slice) : list byte := default [] s.

(** [append(base, s...)]: appending nothing to [nil] leaves [nil]. *)
Definition slice_append (base s : byte_slice) : byte_slice :=
  match base, slice_bytes s with
  | None, [] => None
  | _, l => Some (slice_bytes base ++ l)
  end.

Arguments slice_append : simpl never.

Lemma slice_bytes_append base s : slice_bytes (slice_append base s) = slice_bytes base ++ slice_bytes s.
Proof. unfold slice_append. by destruct base, (slice_bytes s). Qed.

(** ** Lists *)

Section Lists.
Context {A B : Type}.
Implicit Types (l : list A) (x : A).

Lemma forall_lookup_nil (P : nat -> A -> Prop) : (forall i x, [] !! i = Some x -> P i x) <-> True.
Proof. done. Qed.

Lemma forall_lookup_cons (P : nat -> A -> Prop) a l :
(forall i x, (a :: l) !! i = Some x -> P i x) <->
P 0%nat a /\ forall i x, l !! i = Some x -> P (S i) x.
Proof.
split.
- intros H. split; [by apply H|]. intros i x Hi. by apply H.
- intros [H0 HS] [|i] x Hi; simplify_eq/=; auto.
Qed.

Lemma forall_elem_cons (P : A -> Prop) a l :
(forall x, x ∈ a :: l -> P x) <-> P a /\ forall x, x ∈ l -> P x.
Proof. set_solver. Qed.

Lemma NoDup_fmap_inj_on (f : A -> B) l :
NoDup (f <$> l) -> forall x y, x ∈ l -> y ∈ l -> f x = f y -> x = y.
Proof.
induction l as [|a l IH]; intros Hnd x y Hx Hy Hf; [by apply elem_of_nil in Hx|].
apply NoDup_cons in Hnd as [Ha Hnd].
apply elem_of_cons in Hx as [->|Hx], Hy as [->|Hy]; auto.
- exfalso. apply Ha. rewrite Hf. by apply list_elem_of_fmap_2.
- exfalso. apply Ha. rewrite <- Hf. by apply list_elem_of_fmap_2.
Qed.

Lemma filter_none (P : A -> Prop) `{forall x, Decision (P x)} l :
(forall x, x ∈ l -> ~ P x) -> filter P l = [].
Proof.
induction l as [|a l IH]; [done|]. rewrite forall_elem_cons. intros [Ha Hl].
rewrite filter_cons_False by done. auto.
Qed.

Lemma filter_all (P : A -> Prop) `{forall x, Decision (P x)} l :
(forall x, x ∈ l -> P x) -> filter P l = l.
Proof.
induction l as [|a l IH]; [done|]. rewrite forall_elem_cons. intros [Ha Hl].
rewrite filter_cons_True by done. f_equal. auto.
Qed.

Lemma StronglySorted_impl (R R' : relation A) l :
(forall x y, R x y -> R' x y) -> StronglySorted R l -> StronglySorted R' l.
Proof.
intros HR. induction 1 as [|a l Hs IH Ha]; constructor; [done|].
eapply Forall_impl; [exact Ha|]. auto.
Qed.

Lemma StronglySorted_filter (R : relation A) (P : A -> Prop) `{forall x, Decision (P x)} l :
StronglySorted R l -> StronglySorted R (filter P l).
Proof.
induction 1 as [|a l Hs IH Ha]; [constructor|]. rewrite filter_cons. case_decide; [|done].
constructor; [done|]. rewrite list.Forall_forall in *. intros x [_ Hx]%list_elem_of_filter. auto.
Qed.
End Lists.

(** ** The Go runtime: map iteration and [sort.Slice]

    The order in which [range] visits a map is not specified, and [sort.Slice]
    may permute elements that compare equal.  Both are fields of a class, so the
    theorems hold for every choice the runtime may make. *)

Record StrictWeak {A} (less : A -> A -> bool) : Prop := {
  sw_irrefl x : less x x = false;
  sw_trans x y z : less x y = true -> less y z = true -> less x z = true;
  sw_split x y z : less x z = true -> less x y = true \/ less y z = true
}.

Class GoRuntime := {
  go_range {V : Type} : gmap Z V -> list (Z * V);
  go_range_perm {V : Type} (m : gmap Z V) : go_range m ≡ₚ map_to_list m;
  go_sort {A : Type} : (A -> A -> bool) -> list A -> list A;
  go_sort_perm {A : Type} (less : A -> A -> bool) (l : list A) : go_sort less l ≡ₚ l;
  go_sort_sorted {A : Type} (less : A -> A -> bool) (l : list A) :
    StrictWeak less -> StronglySorted (fun x y => less y x = false) (go_sort less l)
}.

Section Runtime.
Context `{GoRuntime}.

Lemma elem_of_go_range {V} (m : gmap Z V) k v : (k, v) ∈ go_range m <-> m !! k = Some v.
Proof. rewrite go_range_perm. apply elem_of_map_to_list. Qed.

Lemma NoDup_go_range_keys {V} (m : gmap Z V) : NoDup (go_range m).*1.
Proof. rewrite go_range_perm. apply NoDup_fst_map_to_list. Qed.

Lemma elem_of_go_sort {A} (less : A -> A -> bool) l x : x ∈ go_sort less l <-> x ∈ l.
Proof. by rewrite go_sort_perm. Qed.

(** With distinct keys the result of [sort.Slice] does not depend on the
  runtime or on the input order. *)
Lemma go_sort_eq {A} (less : A -> A -> bool) l l' :
StrictWeak less -> l ≡ₚ l' ->
StronglySorted (fun x y => less y x = false) l' ->
(forall x y, x ∈ l -> y ∈ l -> less x y = false -> less y x = false -> x = y) ->
go_sort less l = l'.
Proof.
intros Hsw Hp Hs Hanti. apply (StronglySorted_unique_strong (fun x y => less y x = false)).
- intros x y Hx Hy Hxy Hyx. rewrite elem_of_go_sort in Hx. rewrite <- Hp in Hy. auto.
- by apply go_sort_sorted.
- exact Hs.
- by rewrite go_sort_perm.
Qed.

(** Sorting by an integer key. *)
Lemma key_less_strict_weak {A} (key : A -> Z) : StrictWeak (fun x y => key x <? key y).
Proof. split; intros *; [apply Z.ltb_irrefl|rewrite !Z.ltb_lt; lia..]. Qed.

Lemma go_sort_by_key {A} (key : A -> Z) (l : list A) :
NoDup (key <$> l) ->
StronglySorted (fun x y => key x < key y) (go_sort (fun x y => key x <? key y) l).
Proof.
rewrite <- (go_sort_perm (fun x y => key x <? key y) l) at 1.
pose proof (go_sort_sorted _ l (key_less_strict_weak key)) as Hs.
induction Hs as [|a k Hs IH Ha]; [constructor|].
rewrite fmap_cons. intros [Hna Hnd]%NoDup_cons. constructor; [auto|].
rewrite list.Forall_forall in *. intros x Hx. specialize (Ha x Hx). apply Z.ltb_ge in Ha.
assert (key x <> key a); [|lia].
intros Heq. apply Hna. rewrite <- Heq. by apply list_elem_of_fmap_2.
Qed.
End Runtime.

(** One concrete runtime: the enumeration order of the map trie, merge sort. *)
Section ReferenceRuntime.
Context {A : Type} (less : A -> A -> bool).

Definition sort_le (x y : A) : Prop := less y x = false.
#[local] Instance sort_le_dec : RelDecision sort_le.
Proof. intros x y. unfold sort_le. apply _. Defined.

Definition reference_sort (l : list A) : list A := merge_sort sort_le l.

Lemma reference_sort_sorted l : StrictWeak less -> StronglySorted sort_le (reference_sort l).
Proof.
intros Hsw. apply StronglySorted_merge_sort.
- intros x y z Hxy Hyz. unfold sort_le in *.
  destruct (less z x) eqn:E; [|done].
  destruct (sw_split _ Hsw z y x E); congruence.
- intros x y. unfold sort_le.
  destruct (less y x) eqn:E; [right|by left].
  destruct (less x y) eqn:E'; [|done].
  pose proof (sw_trans _ Hsw _ _ _ E E'). pose proof (sw_irrefl _ Hsw y). congruence.
Qed.
End ReferenceRuntime.

Program Definition reference_runtime : GoRuntime := {|
  go_range V m := map_to_list m;
  go_sort A less l := reference_sort less l
|}.
Next Obligation. done. Qed.
Next Obligation. intros. apply merge_sort_Permutation. Qed.
Next Obligation. intros. by apply reference_sort_sorted. Qed.
