(* ===== verification/Float.v ===== *)
(** * Exact binary64 arithmetic

    Go's [float64] is IEEE 754 binary64; its operations are those of the Standard Library's
    [SpecFloat] with 53 bits of precision.  Integers below 2^53 and products of integers
    that stay below it are exact. *)
From S2P Require Import Prelude.
From stdpp Require Import prelude list.
From Stdlib Require Import ZArith Lia.
From Stdlib Require Import Floats.SpecFloat.

Local Open Scope Z_scope.

(** [float64(n)], [x * y], [x / y] *)
Definition float64 (n : Z) : spec_float := binary_normalize 53 1024 n 0 false.
Definition float_mul : spec_float -> spec_float -> spec_float := SFmul 53 1024.
Definition float_div : spec_float -> spec_float -> spec_float := SFdiv 53 1024.

(** [uint64(x)] of a non-negative number: its integer part. *)
Definition float_trunc (x : spec_float) : Z :=
  match x with
  | S754_finite false m e => if 0 <=? e then Zpos m * 2 ^ e else Zpos m / 2 ^ (- e)
  | _ => 0
  end.

(** A float with the value of a positive integer. *)
Definition represents (x : spec_float) (n : Z) : Prop :=
  exists m e, x = S754_finite false m e /\ e <= 0 /\ Zpos m = n * 2 ^ (- e).

Lemma represents_trunc x n : represents x n -> float_trunc x = n.
Proof.
  intros (m & e & -> & He & Hm). cbn [float_trunc]. destruct (Z.leb_spec 0 e).
  - assert (e = 0) as -> by lia. rewrite Hm. simpl. lia.
  - rewrite Hm. apply Z.div_mul. apply Z.pow_nonzero; lia.
Qed.

(** ** Shifts of even numbers are exact *)

Lemma iter_pos_nat {A} (f : A -> A) p : forall x, iter_pos f p x = Nat.iter (Pos.to_nat p) f x.
Proof.
  induction p as [p IH|p IH|]; intros x; cbn [iter_pos]; [| |done].
  - rewrite !IH, Pos2Nat.inj_xI, <- Nat.iter_add. rewrite <- Nat.iter_succ_r. f_equal. lia.
  - rewrite !IH, Pos2Nat.inj_xO, <- Nat.iter_add. f_equal. lia.
Qed.

Lemma shr_1_even m : 0 < m -> shr_1 (Build_shr_record (m * 2) false false) = Build_shr_record m false false.
Proof. intros Hm. destruct m as [|p|p]; [lia| |lia]. by rewrite Z.mul_comm. Qed.

Lemma shr_exact k : forall m, 0 < m ->
  Nat.iter k shr_1 (Build_shr_record (m * 2 ^ Z.of_nat k) false false) = Build_shr_record m false false.
Proof.
  induction k as [|k IH]; intros m Hm; [simpl; f_equal; lia|].
  rewrite Nat.iter_succ_r, Nat2Z.inj_succ, Z.pow_succ_r by lia.
  replace (m * (2 * 2 ^ Z.of_nat k)) with (m * 2 ^ Z.of_nat k * 2) by ring.
  rewrite shr_1_even by (apply Z.mul_pos_pos; [lia|apply Z.pow_pos_nonneg; lia]). by apply IH.
Qed.

Lemma digits2_log2 m : Zpos (digits2_pos m) = Z.log2 (Zpos m) + 1.
Proof.
  assert (digits2_pos m = Pos.size m) as -> by (induction m; simpl; congruence).
  destruct m as [p|p|]; simpl; try lia.
Qed.

(** The exponent of a number of [d] binary digits. *)
Lemma fexp_small d : 1 <= d <= 53 -> fexp 53 1024 d = d - 53.
Proof. intros Hd. unfold fexp, emin. lia. Qed.

Lemma pos_iter_xO m d : Zpos (Pos.iter xO m d) = Zpos m * 2 ^ Zpos d.
Proof.
  induction d as [|d IH] using Pos.peano_ind; [simpl; lia|].
  rewrite Pos.iter_succ, Pos2Z.inj_succ, Z.pow_succ_r by lia. rewrite Pos2Z.inj_xO, IH. ring.
Qed.

(** ** Rounding an exact value changes nothing *)

Section Exact.
Context (n : Z).
Hypothesis Hn : 0 < n < 2 ^ 53.

Lemma log2_range : 1 <= Z.log2 n + 1 <= 53.
Proof. pose proof (Z.log2_nonneg n). assert (Z.log2 n < 53) by (apply Z.log2_lt_pow2; lia). lia. Qed.

Lemma scaled_digits m e : e <= 0 -> Zpos m = n * 2 ^ (- e) -> Zdigits2 (Zpos m) + e = Z.log2 n + 1.
Proof. intros He Hm. cbn [Zdigits2]. rewrite digits2_log2, Hm, Z.log2_mul_pow2 by lia. lia. Qed.

Lemma shr_fexp_exact m e : e <= 0 -> Zpos m = n * 2 ^ (- e) ->
exists m' e', shr_fexp 53 1024 (Zpos m) e loc_Exact = (Build_shr_record (Zpos m') false false, e') /\
  Z.log2 n + 1 - 53 <= e' <= 0 /\ Zpos m' = n * 2 ^ (- e').
Proof.
intros He Hm. unfold shr_fexp. rewrite (scaled_digits m e He Hm), fexp_small by apply log2_range.
pose proof log2_range as Hd. cbn [shr_record_of_loc]. unfold shr.
destruct (Z.log2 n + 1 - 53 - e) as [|p|p] eqn:Ep.
- exists m, e. split_and!; [done|lia|lia|done].
- rewrite iter_pos_nat. set (k := Z.pos p) in *.
  assert (Hsplit : Zpos m = n * 2 ^ (- (e + k)) * 2 ^ Z.of_nat (Pos.to_nat p)).
  { rewrite positive_nat_Z, <- Z.mul_assoc, <- Z.pow_add_r by lia. rewrite Hm. do 2 f_equal. lia. }
  rewrite Hsplit, shr_exact by (apply Z.mul_pos_pos; [lia|apply Z.pow_pos_nonneg; lia]).
  assert (0 < n * 2 ^ (- (e + k))) by (apply Z.mul_pos_pos; [lia|apply Z.pow_pos_nonneg; lia]).
  destruct (n * 2 ^ (- (e + k))) as [|m'|m'] eqn:Em; [lia| |lia].
  exists m', (e + k). split_and!; [done|lia|lia|done].
- exists m, e. split_and!; [done|lia|lia|done].
Qed.

Lemma round_exact m e : e <= 0 -> Zpos m = n * 2 ^ (- e) ->
represents (binary_round_aux 53 1024 false (Zpos m) e loc_Exact) n.
Proof.
intros He Hm. unfold binary_round_aux. destruct (shr_fexp_exact m e He Hm) as (m1 & e1 & -> & He1 & Hm1).
cbn [shr_m loc_of_shr_record round_nearest_even].
destruct (shr_fexp_exact m1 e1 ltac:(lia) Hm1) as (m2 & e2 & -> & He2 & Hm2). cbn [shr_m].
destruct (Z.leb_spec e2 (1024 - 53)); [|lia]. exists m2, e2. split_and!; [done|lia|done].
Qed.

End Exact.

Lemma float64_exact n : 0 < n < 2 ^ 53 -> represents (float64 n) n.
Proof.
  destruct n as [|p|p]; [lia| |lia]. intros Hn. pose proof (log2_range (Zpos p) Hn) as Hd.
  unfold float64, binary_normalize, binary_round, shl_align. rewrite digits2_log2, Z.add_0_r, fexp_small by done.
  destruct (Z.log2 (Zpos p) + 1 - 53 - 0) as [|k|k] eqn:Ek; [|lia|].
  - apply round_exact; [done|lia|]. simpl. lia.
  - apply round_exact; [done|lia|]. rewrite pos_iter_xO. do 2 f_equal. lia.
Qed.

Lemma float_mul_exact x y a b :
  represents x a -> represents y b -> 0 < a -> 0 < b -> a * b < 2 ^ 53 -> represents (float_mul x y) (a * b).
Proof.
  intros (m1 & e1 & -> & He1 & H1) (m2 & e2 & -> & He2 & H2) Ha Hb Hab. unfold float_mul. cbn [SFmul xorb].
  apply round_exact; [nia|lia|]. rewrite Pos2Z.inj_mul, H1, H2.
  replace (- (e1 + e2)) with (- e1 + - e2) by lia. rewrite Z.pow_add_r by lia. ring.
Qed.
