(* ===== verification/Errors.v ===== *)
(** * Errors and fallible computations

    The sentinel errors the packages declare, Go's wrapping of errors with
    [fmt.Errorf] and [%w], [errors.Is], and the two result types of the model:
    [result] for a Go function that returns a value and an error, and [action]
    for one that also reads and changes the world it runs in. *)
From S2P Require Import Prelude.
From stdpp Require Import prelude gmap list strings.
From Stdlib Require Import ZArith Lia.

Local Open Scope Z_scope.

(** ** Sentinel errors *)

(** [internal/store/errors.go] *)
Inductive store_sentinel :=
| StoreErrNotFound | StoreErrInvalidCanonicalUpdate | StoreErrInvalidQuery
| StoreErrStaleCursor | StoreErrInconsistentData.

(** [internal/indexer/errors.go] *)
Inductive indexer_sentinel :=
| ErrInconsistentBlockData | ErrInvalidLowFetchRange | ErrInvalidLargeFetchRange
| ErrInvalidSyncConfig | ErrInvalidSyncDependency | ErrHeadChanged | ErrSyncRetriesExhausted.

(** [internal/service/errors.go] *)
Inductive service_sentinel :=
| ServiceErrNotFound | ServiceErrInvalidQuery | ServiceErrStaleCursor | ServiceErrNotReady.

(** [internal/server/events.go] and [internal/server/transactions.go] *)
Inductive server_sentinel :=
| errInvalidEventAddress | errInvalidEventLimit | errInvalidEventCursor
| errInvalidTransactionHash | errMissingTransactionValue.

(** Sentinels of the Go standard library and of the drivers that the code
    compares against. *)
Inductive foreign_sentinel :=
| ContextCanceled | ContextDeadlineExceeded | PgxErrNoRows
| StrconvErrSyntax | StrconvErrRange | IoEOF | HttpErrServerClosed | FlagErrHelp.

Inductive sentinel :=
| StoreSentinel (s : store_sentinel)
| IndexerSentinel (s : indexer_sentinel)
| ServiceSentinel (s : service_sentinel)
| ServerSentinel (s : server_sentinel)
| ErrUnexpectedChainID
| ForeignSentinel (s : foreign_sentinel).

#[global] Instance store_sentinel_eq_dec : EqDecision store_sentinel.
Proof. solve_decision. Defined.
#[global] Instance indexer_sentinel_eq_dec : EqDecision indexer_sentinel.
Proof. solve_decision. Defined.
#[global] Instance service_sentinel_eq_dec : EqDecision service_sentinel.
Proof. solve_decision. Defined.
#[global] Instance server_sentinel_eq_dec : EqDecision server_sentinel.
Proof. solve_decision. Defined.
#[global] Instance foreign_sentinel_eq_dec : EqDecision foreign_sentinel.
Proof. solve_decision. Defined.
#[global] Instance sentinel_eq_dec : EqDecision sentinel.
Proof. solve_decision. Defined.

(** ** Error values

    [Sentinel s] is a package variable made with [errors.New]; [Errorf f ws] is
    [fmt.Errorf] with format [f] and the errors [ws] bound to its [%w] verbs (the
    other printed operands only affect the text and are left out);  an anonymous
    [errors.New] or a driver's own error is [Errorf f []]. *)
Inductive error :=
| Sentinel (s : sentinel)
| Errorf (format : string) (wrapped : list error).

(** [errors.Is(err, target)] for a sentinel target: depth-first search of the
    wrapped errors. *)
Fixpoint errors_Is (err : error) (target : sentinel) : bool :=
  match err with
  | Sentinel s => bool_decide (s = target)
  | Errorf _ ws => existsb (fun w => errors_Is w target) ws
  end.

Definition store_err (s : store_sentinel) : error := Sentinel (StoreSentinel s).
Definition indexer_err (s : indexer_sentinel) : error := Sentinel (IndexerSentinel s).
Definition service_err (s : service_sentinel) : error := Sentinel (ServiceSentinel s).
Definition server_err (s : server_sentinel) : error := Sentinel (ServerSentinel s).
Definition foreign_err (s : foreign_sentinel) : error := Sentinel (ForeignSentinel s).

(** [%w] with one operand. *)
Definition wrapf (format : string) (e : error) : error := Errorf format [e].

Lemma errors_Is_wrapf f e t : errors_Is (wrapf f e) t = errors_Is e t.
Proof. simpl. by rewrite orb_false_r. Qed.

Lemma errors_Is_Errorf2 f e1 e2 t : errors_Is (Errorf f [e1; e2]) t = errors_Is e1 t || errors_Is e2 t.
Proof. simpl. by rewrite orb_false_r. Qed.

(** ** Results

    A Go function that returns [(v, nil)] is [Ok v], one that returns an error
    is [Err e] (the other results are then zero values), one that panics is
    [Panic].  [OutOfFuel] is only the model's: a loop that was given too little
    fuel; the theorems show it does not occur. *)
Inductive result (A : Type) :=
| Ok (a : A)
| Err (e : error)
| Panic (msg : string)
| OutOfFuel.
Arguments Ok {A} a.
Arguments Err {A} e.
Arguments Panic {A} msg.
Arguments OutOfFuel {A}.

#[global] Instance result_ret : MRet result := fun A => Ok.
#[global] Instance result_bind : MBind result := fun A B f r =>
  match r with
  | Ok a => f a
  | Err e => Err e
  | Panic m => Panic m
  | OutOfFuel => OutOfFuel
  end.

(** What a call to code outside the repository answers: a value or an error. *)
Definition reply (A : Type) : Type := A + error.
Definition of_reply {A} (r : reply A) : result A :=
  match r with inl a => Ok a | inr e => Err e end.

(** [if err != nil { return fmt.Errorf(...) }] around a call. *)
Definition map_err {A} (f : error -> error) (r : result A) : result A :=
  match r with Err e => Err (f e) | _ => r end.

Definition is_ok {A} (r : result A) : bool := match r with Ok _ => true | _ => false end.

(** The call returns, and if it returns an error, the error satisfies [P]. *)
Definition errs_in {A} (P : error -> Prop) (r : result A) : Prop :=
  match r with Ok _ => True | Err e => P e | Panic _ | OutOfFuel => False end.

(** A call that returns, with a value or with an error. *)
Definition returns {A} (r : result A) : Prop := errs_in (fun _ => True) r.

(** A guard with an early return. *)
Definition reject_if (b : bool) (e : error) : result unit := if b then Err e else Ok tt.

Lemma bind_Ok_iff {A B} (r : result A) (f : A -> result B) b :
  r ≫= f = Ok b <-> exists a, r = Ok a /\ f a = Ok b.
Proof. destruct r; simpl; naive_solver. Qed.

Lemma bind_reject_iff {B} b e (k : result B) v :
  reject_if b e ≫= (fun _ => k) = Ok v <-> b = false /\ k = Ok v.
Proof. destruct b; simpl; intuition congruence. Qed.

Lemma reject_if_Ok b e u : reject_if b e = Ok u <-> b = false.
Proof. destruct b, u; simpl; split; congruence. Qed.

Lemma map_err_Ok {A} f (r : result A) a : map_err f r = Ok a <-> r = Ok a.
Proof. destruct r; simpl; split; congruence. Qed.

Section ErrsIn.
Context (P : error -> Prop).

Lemma errs_in_Ok {A} (a : A) : errs_in P (Ok a).
Proof. done. Qed.
Lemma errs_in_reject_if b e : P e -> errs_in P (reject_if b e).
Proof. by destruct b. Qed.
Lemma errs_in_map_err {A} f (r : result A) :
errs_in (fun e => P (f e)) r -> errs_in P (map_err f r).
Proof. by destruct r. Qed.
Lemma errs_in_bind {A B} (r : result A) (f : A -> result B) :
errs_in P r -> (forall a, r = Ok a -> errs_in P (f a)) -> errs_in P (r ≫= f).
Proof. destruct r; simpl; auto. Qed.
Lemma errs_in_of_reply {A} (r : reply A) : (forall e, r = inr e -> P e) -> errs_in P (of_reply r).
Proof. destruct r; simpl; auto. Qed.
Lemma errs_in_cases {A} (r : result A) :
errs_in P r -> (exists a, r = Ok a) \/ (exists e, r = Err e /\ P e).
Proof. destruct r; simpl; naive_solver. Qed.
Lemma errs_in_mono {A} (Q : error -> Prop) (r : result A) :
errs_in P r -> (forall e, P e -> Q e) -> errs_in Q r.
Proof. destruct r; simpl; auto. Qed.
End ErrsIn.

(** [go_errs] follows a chain of guards and calls to its error values. *)
Create HintDb go_errs.
#[export] Hint Resolve errs_in_Ok errs_in_reject_if errs_in_map_err errs_in_bind : go_errs.
#[export] Hint Extern 1 (errs_in _ (match ?x with _ => _ end)) => destruct x : go_errs.
#[export] Hint Extern 1 (errors_Is _ _ = true) => reflexivity : go_errs.

(** ** Actions: effects on a world *)

Definition action (W A : Type) : Type := W -> result A * W.

Section Action.
Context {W : Type}.

Definition act_ret {A} (a : A) : action W A := fun w => (Ok a, w).
Definition act_err {A} (e : error) : action W A := fun w => (Err e, w).
Definition act_lift {A} (r : result A) : action W A := fun w => (r, w).
Definition act_bind {A B} (m : action W A) (f : A -> action W B) : action W B :=
fun w => match m w with
         | (Ok a, w') => f a w'
         | (Err e, w') => (Err e, w')
         | (Panic msg, w') => (Panic msg, w')
         | (OutOfFuel, w') => (OutOfFuel, w')
         end.
Definition act_map_err {A} (f : error -> error) (m : action W A) : action W A :=
fun w => let '(r, w') := m w in (map_err f r, w').
(** The call with its outcome as a value, for code that inspects [err]. *)
Definition act_try {A} (m : action W A) : action W (result A) :=
fun w => let '(r, w') := m w in (Ok r, w').
End Action.

Declare Scope action_scope.
Delimit Scope action_scope with action.
Bind Scope action_scope with action.
Notation "x <-- m ;; k" := (act_bind m (fun x => k))
  (at level 20, m at level 99, k at level 200, right associativity) : action_scope.
Notation "'do!' m ;; k" := (act_bind m (fun _ => k))
  (at level 20, m at level 99, k at level 200, right associativity) : action_scope.

Section ActionLemmas.
Context {W : Type}.

Lemma act_bind_Ok_inv {A B} (m : action W A) (f : A -> action W B) w b w'' :
act_bind m f w = (Ok b, w'') -> exists a w', m w = (Ok a, w') /\ f a w' = (Ok b, w'').
Proof. unfold act_bind. destruct (m w) as [[] w']; naive_solver. Qed.

Lemma act_map_err_Ok_inv {A} f (m : action W A) w a w' :
act_map_err f m w = (Ok a, w') -> m w = (Ok a, w').
Proof. unfold act_map_err. destruct (m w) as [[] ?]; naive_solver. Qed.

(** Weakest-precondition style rule: a property of every outcome of [m] is
  established by following the sequence of calls. *)
Definition wp {A} (m : action W A) (Q : result A -> W -> Prop) (w : W) : Prop :=
Q (m w).1 (m w).2.

Lemma wp_bind {A B} (m : action W A) (f : A -> action W B) Q w :
wp m (fun r w' =>
  match r with
  | Ok a => wp (f a) Q w'
  | Err e => Q (Err e) w'
  | Panic msg => Q (Panic msg) w'
  | OutOfFuel => Q OutOfFuel w'
  end) w -> wp (act_bind m f) Q w.
Proof. unfold wp, act_bind. destruct (m w) as [[] w']; simpl; auto. Qed.

Lemma wp_mono {A} (m : action W A) (P Q : result A -> W -> Prop) w :
wp m P w -> (forall r w', P r w' -> Q r w') -> wp m Q w.
Proof. unfold wp. auto. Qed.

Lemma wp_map_err {A} f (m : action W A) Q w :
wp m (fun r w' => Q (map_err f r) w') w -> wp (act_map_err f m) Q w.
Proof. unfold wp, act_map_err. by destruct (m w). Qed.

Lemma wp_try {A} (m : action W A) Q w :
wp m (fun r w' => Q (Ok r) w') w -> wp (act_try m) Q w.
Proof. unfold wp, act_try. by destruct (m w). Qed.

Lemma wp_lift {A} (r : result A) (Q : result A -> W -> Prop) w : Q r w -> wp (act_lift r) Q w.
Proof. done. Qed.
End ActionLemmas.
