(* ===== verification/Domain.v ===== *)
(** * The domain records of [internal/domain]

    One record per Go struct, with the same fields; pointers are [option],
    [*big.Int] is [option Z], unsigned integers are [Z] with the width stated by
    the [_typed] predicates (what the Go type system guarantees of a value). *)
From S2P Require Import Prelude Errors.
From stdpp Require Import prelude gmap list strings.
From Stdlib Require Import ZArith Lia.

Local Open Scope Z_scope.

Definition HashLength : nat := 32.
Definition AddressLength : nat := 20.
Definition Hash := byte_array HashLength.
Definition Address := byte_array AddressLength.

#[global] Instance Hash_eq_dec : EqDecision Hash := byte_array_eq_dec _.
#[global] Instance Hash_countable : Countable Hash := byte_array_countable _.
#[global] Instance Address_eq_dec : EqDecision Address := byte_array_eq_dec _.
#[global] Instance Address_countable : Countable Address := byte_array_countable _.

Definition zero_hash : Hash := zero_array HashLength.

(** [time.Time]: an instant, in nanoseconds from the zero time (0001-01-01T00:00:00Z), and the
    location it is displayed in. *)
Inductive Location := LocalTime | UTCTime.
Record Time := mkTime { Time_nanos : Z; Time_loc : Location }.
Definition Time_UTC (t : Time) : Time := mkTime (Time_nanos t) UTCTime.
Definition zero_time : Time := mkTime 0 UTCTime.

(** ** [domain/head.go] and [domain/limits.go] *)
Definition HeadMode := string.
Definition HeadLatest : HeadMode := "latest"%string.
Definition HeadSafe : HeadMode := "safe"%string.
Definition HeadFinalized : HeadMode := "finalized"%string.

Definition MaxBlockWindow : Z := 50.
Definition MaxEventPageSize : Z := 1000.

(** ** [domain/types.go] *)
Record Block := mkBlock {
  Block_Number : Z;
  Block_Hash : Hash;
  Block_ParentHash : Hash;
  Block_Timestamp : Z;
  Block_GasLimit : Z;
  Block_GasUsed : Z;
  Block_BaseFeePerGas : option Z;
  Block_TransactionCount : Z;
  Block_IndexedAt : Time
}.

Record Transaction := mkTransaction {
  Transaction_Hash : Hash;
  Transaction_BlockNumber : Z;
  Transaction_BlockHash : Hash;
  Transaction_Index : Z;
  Transaction_Type : Z;
  Transaction_Nonce : Z;
  Transaction_Sender : Address;
  Transaction_Recipient : option Address;
  Transaction_Value : option Z;
  Transaction_GasLimit : Z;
  Transaction_GasPrice : option Z;
  Transaction_MaxFeePerGas : option Z;
  Transaction_MaxPriorityFeePerGas : option Z;
  Transaction_Input : byte_slice
}.

Record Event := mkEvent {
  Event_BlockNumber : Z;
  Event_BlockHash : Hash;
  Event_TransactionHash : Hash;
  Event_TransactionIndex : Z;
  Event_LogIndex : Z;
  Event_Address : Address;
  Event_Topics : list Hash;
  Event_Data : byte_slice
}.

Record BlockBundle := mkBundle {
  Bundle_Block : Block;
  Bundle_Transactions : list Transaction;
  Bundle_Events : list Event
}.

Record BlockResult := mkBlockResult {
  BlockResult_Block : Block;
  BlockResult_TransactionHashes : list Hash
}.

Record TransactionResult := mkTransactionResult {
  TransactionResult_Transaction : Transaction;
  TransactionResult_Events : list Event
}.

Record EventCursor := mkCursor {
  Cursor_BlockNumber : Z;
  Cursor_BlockHash : Hash;
  Cursor_LogIndex : Z
}.

Record EventQuery := mkQuery {
  Query_Address : Address;
  Query_Limit : Z;
  Query_Before : option EventCursor
}.

Record EventPage := mkPage {
  Page_Events : list Event;
  Page_NextCursor : option EventCursor
}.

Record ChainTip := mkTip {
  Tip_Number : Z;
  Tip_Hash : Hash
}.

Record CanonicalUpdate := mkUpdate {
  Update_ChainID : Z;
  Update_ReplaceFrom : Z;
  Update_RetainFrom : Z;
  Update_Blocks : list BlockBundle;
  Update_SyncedAt : Time
}.

(** The zero value of a [BlockBundle]. *)
Definition zero_block : Block :=
  mkBlock 0 zero_hash zero_hash 0 0 0 None 0 zero_time.
Definition zero_bundle : BlockBundle := mkBundle zero_block [] [].

Abbreviation bundle_number b := (Block_Number (Bundle_Block b)).
Abbreviation bundle_hash b := (Block_Hash (Bundle_Block b)).
Abbreviation bundle_parent b := (Block_ParentHash (Bundle_Block b)).

(** ** Decidable equality *)
#[global] Instance Location_eq_dec : EqDecision Location.
Proof. solve_decision. Defined.
#[global] Instance Time_eq_dec : EqDecision Time.
Proof. solve_decision. Defined.
#[global] Instance Block_eq_dec : EqDecision Block.
Proof. solve_decision. Defined.
#[global] Instance Transaction_eq_dec : EqDecision Transaction.
Proof. solve_decision. Defined.
#[global] Instance Event_eq_dec : EqDecision Event.
Proof. solve_decision. Defined.
#[global] Instance BlockBundle_eq_dec : EqDecision BlockBundle.
Proof. solve_decision. Defined.
#[global] Instance EventCursor_eq_dec : EqDecision EventCursor.
Proof. solve_decision. Defined.
#[global] Instance ChainTip_eq_dec : EqDecision ChainTip.
Proof. solve_decision. Defined.

(** ** Widths of the fields *)
Definition Block_typed (b : Block) : Prop :=
  is_u64 (Block_Number b) /\ is_u64 (Block_Timestamp b) /\ is_u64 (Block_GasLimit b) /\
  is_u64 (Block_GasUsed b).

Definition Transaction_typed (t : Transaction) : Prop :=
  is_u64 (Transaction_BlockNumber t) /\ is_u32 (Transaction_Index t) /\
  0 <= Transaction_Type t < 256 /\ is_u64 (Transaction_Nonce t) /\ is_u64 (Transaction_GasLimit t).

Definition Event_typed (e : Event) : Prop :=
  is_u64 (Event_BlockNumber e) /\ is_u32 (Event_TransactionIndex e) /\ is_u32 (Event_LogIndex e).

Definition Bundle_typed (b : BlockBundle) : Prop :=
  Block_typed (Bundle_Block b) /\ Forall Transaction_typed (Bundle_Transactions b) /\
  Forall Event_typed (Bundle_Events b).

Definition Cursor_typed (c : EventCursor) : Prop :=
  is_u64 (Cursor_BlockNumber c) /\ is_u32 (Cursor_LogIndex c).

Definition Update_typed (u : CanonicalUpdate) : Prop :=
  is_u64 (Update_ChainID u) /\ is_u64 (Update_ReplaceFrom u) /\ is_u64 (Update_RetainFrom u) /\
  Forall Bundle_typed (Update_Blocks u).
