(* ===== verification/Validate.v ===== *)
(** * Validation of canonical updates

    [validateReplacement], [validateCanonicalBundles] and [sortedBlockNumbers]
    of [internal/store/memory.go], used by both store implementations, against a
    declarative description of a canonical chain segment. *)
From S2P Require Import Prelude Errors Domain.
From stdpp Require Import prelude gmap sorting list strings.
From Stdlib Require Import ZArith Lia.

Local Open Scope Z_scope.

Abbreviation bundle_map := (gmap Z BlockBundle).

Definition invalid_update (format : string) : error :=
  wrapf format (store_err StoreErrInvalidCanonicalUpdate).

(** ** [validateReplacement] *)

(** The loop from index 1 on: [previous] is the number of the block before. *)
Fixpoint check_contiguous (previous : Z) (blocks : list BlockBundle) : result unit :=
  match blocks with
  | [] => Ok tt
  | bundle :: rest =>
      let current := bundle_number bundle in
      _ ← reject_if ((previous =? max_uint64) || negb (current =? u64_add previous 1))
            (invalid_update "%w: replacement blocks are not contiguous");
      check_contiguous current rest
  end.

Definition validateReplacement (update : CanonicalUpdate) : result unit :=
  match Update_Blocks update with
  | [] => Ok tt
  | first :: rest =>
      _ ← reject_if (negb (bundle_number first =? Update_ReplaceFrom update))
            (invalid_update "%w: first replacement block is %d, expected %d");
      check_contiguous (bundle_number first) rest
  end.

(** ** [validateCanonicalBundles] *)

(** The loop over the transactions of one block: [index] is the position,
    [seen] the hashes of the whole map so far, [positions] those of this block. *)
Fixpoint check_transactions (number : Z) (hash : Hash) (index : Z) (transactions : list Transaction)
    (seen : gset Hash) (positions : gmap Hash Z) : result (gset Hash * gmap Hash Z) :=
  match transactions with
  | [] => Ok (seen, positions)
  | transaction :: rest =>
      _ ← reject_if (negb (Transaction_BlockNumber transaction =? number) ||
                     negb (bool_decide (Transaction_BlockHash transaction = hash)) ||
                     negb (Transaction_Index transaction =? to_u32 index))
            (invalid_update "%w: transaction %s has inconsistent block metadata");
      _ ← reject_if (bool_decide (Transaction_Hash transaction ∈ seen))
            (invalid_update "%w: duplicate transaction %s");
      check_transactions number hash (index + 1) rest
        ({[Transaction_Hash transaction]} ∪ seen)
        (<[Transaction_Hash transaction := Transaction_Index transaction]> positions)
  end.

(** The loop over the events of one block. *)
Fixpoint check_events (number : Z) (hash : Hash) (positions : gmap Hash Z)
    (events : list Event) (seenLogs : gset Z) : result unit :=
  match events with
  | [] => Ok tt
  | event :: rest =>
      _ ← reject_if (match positions !! Event_TransactionHash event with
                     | None => true
                     | Some transactionIndex => negb (Event_TransactionIndex event =? transactionIndex)
                     end)
            (invalid_update "%w: event references an unknown transaction");
      _ ← reject_if (negb (Event_BlockNumber event =? number) ||
                     negb (bool_decide (Event_BlockHash event = hash)))
            (invalid_update "%w: event has inconsistent block metadata");
      _ ← reject_if (4 <? Z.of_nat (length (Event_Topics event)))
            (invalid_update "%w: event has more than four topics");
      _ ← reject_if (bool_decide (Event_LogIndex event ∈ seenLogs))
            (invalid_update "%w: block %d has duplicate log index %d");
      check_events number hash positions rest ({[Event_LogIndex event]} ∪ seenLogs)
  end.

(** The body of the loop over the sorted block numbers, without the link to the
    previous block: returns the transaction hashes seen so far. *)
Definition check_bundle (number : Z) (bundle : BlockBundle) (seen : gset Hash) : result (gset Hash) :=
  _ ← reject_if (negb (Block_TransactionCount (Bundle_Block bundle) =?
                       Z.of_nat (length (Bundle_Transactions bundle))))
        (invalid_update "%w: block %d transaction count does not match");
  _ ← reject_if (max_uint32 <? Z.of_nat (length (Bundle_Transactions bundle)))
        (invalid_update "%w: block %d has too many transactions");
  '(seen', positions) ← check_transactions number (bundle_hash bundle) 0
                          (Bundle_Transactions bundle) seen ∅;
  _ ← check_events number (bundle_hash bundle) positions (Bundle_Events bundle) ∅;
  Ok seen'.

(** [bundles[numbers[position-1]].Block], checked when [position > 0]. *)
Definition check_link (previous : option Block) (number : Z) (bundle : BlockBundle) : result unit :=
  match previous with
  | None => Ok tt
  | Some p =>
      reject_if (negb (number =? u64_add (Block_Number p) 1) ||
                 negb (bool_decide (bundle_parent bundle = Block_Hash p)))
        (invalid_update "%w: retained blocks do not form one canonical chain")
  end.

Fixpoint check_numbers (bundles : bundle_map) (previous : option Block) (numbers : list Z)
    (seen : gset Hash) : result unit :=
  match numbers with
  | [] => Ok tt
  | number :: rest =>
      let bundle := default zero_bundle (bundles !! number) in
      _ ← reject_if (negb (bundle_number bundle =? number))
            (invalid_update "%w: block map key and block number differ");
      _ ← check_link previous number bundle;
      seen' ← check_bundle number bundle seen;
      check_numbers bundles (Some (Bundle_Block bundle)) rest seen'
  end.

Section Operations.
Context `{GoRuntime}.

Definition sortedBlockNumbers (bundles : bundle_map) : list Z :=
go_sort Z.ltb (go_range bundles).*1.

Definition validateCanonicalBundles (bundles : bundle_map) : result unit :=
check_numbers bundles None (sortedBlockNumbers bundles) ∅.
End Operations.

(** ** What a canonical segment is *)

Definition transaction_in_block (number : Z) (hash : Hash) (i : nat) (t : Transaction) : Prop :=
  Transaction_BlockNumber t = number /\ Transaction_BlockHash t = hash /\
  Transaction_Index t = Z.of_nat i.

Definition event_in_block (number : Z) (hash : Hash) (txs : list Transaction) (e : Event) : Prop :=
  Event_BlockNumber e = number /\ Event_BlockHash e = hash /\ (length (Event_Topics e) <= 4)%nat /\
  exists t, t ∈ txs /\ Transaction_Hash t = Event_TransactionHash e /\
            Transaction_Index t = Event_TransactionIndex e.

(** One block with its transactions and events. *)
Record bundle_valid (b : BlockBundle) : Prop := {
  bv_count : Block_TransactionCount (Bundle_Block b) = Z.of_nat (length (Bundle_Transactions b));
  bv_size : Z.of_nat (length (Bundle_Transactions b)) <= max_uint32;
  bv_tx i t : Bundle_Transactions b !! i = Some t ->
              transaction_in_block (bundle_number b) (bundle_hash b) i t;
  bv_hashes : NoDup (Transaction_Hash <$> Bundle_Transactions b);
  bv_event e : e ∈ Bundle_Events b ->
               event_in_block (bundle_number b) (bundle_hash b) (Bundle_Transactions b) e;
  bv_logs : NoDup (Event_LogIndex <$> Bundle_Events b)
}.

Definition contains_tx (b : BlockBundle) (h : Hash) : Prop :=
  h ∈ Transaction_Hash <$> Bundle_Transactions b.

(** The blocks of the map, keyed by their number, form one parent-linked chain
    without gaps, and no transaction occurs in two of them. *)
Record canonical (m : bundle_map) : Prop := {
  can_key n b : m !! n = Some b -> bundle_number b = n;
  can_valid n b : m !! n = Some b -> bundle_valid b;
  can_next n b k : m !! n = Some b -> n < k -> is_Some (m !! k) ->
                   exists c, m !! (n + 1) = Some c /\ bundle_parent c = bundle_hash b;
  can_tx n b n' b' h : m !! n = Some b -> m !! n' = Some b' ->
                       contains_tx b h -> contains_tx b' h -> n = n'
}.

Definition keys_u64 (m : bundle_map) : Prop := forall n, is_Some (m !! n) -> is_u64 n.

(** ** The checks decide the description *)

Lemma check_contiguous_Ok p bs :
  is_u64 p -> Forall (fun b => is_u64 (bundle_number b)) bs ->
  check_contiguous p bs = Ok tt <->
  forall i b, bs !! i = Some b -> bundle_number b = p + 1 + Z.of_nat i.
Proof.
  intros Hp Hbs. revert p Hp. induction Hbs as [|b bs Hb Hbs IH]; intros p Hp; [done|].
  cbn [check_contiguous]. rewrite bind_reject_iff, (IH _ Hb), forall_lookup_cons. bool_iff.
  split.
  - intros [[Hmax Hb'] Hr]. rewrite u64_add_small in Hb' by int_lia.
    split; [lia|]. intros i c Hi. rewrite (Hr _ _ Hi). lia.
  - intros [H0 Hr]. rewrite u64_add_small by int_lia.
    split; [split; int_lia|]. intros i c Hi. rewrite (Hr _ _ Hi). lia.
Qed.

Definition record_positions (positions : gmap Hash Z) (txs : list Transaction) : gmap Hash Z :=
  foldl (fun m t => <[Transaction_Hash t := Transaction_Index t]> m) positions txs.

Definition tx_metadata (n : Z) (h : Hash) (i : nat) (t : Transaction) : Prop :=
  (Transaction_BlockNumber t = n /\ Transaction_BlockHash t = h) /\
  Transaction_Index t = to_u32 (Z.of_nat i).

Lemma check_transactions_Ok n h i txs seen pos seen' pos' :
  check_transactions n h (Z.of_nat i) txs seen pos = Ok (seen', pos') <->
  (forall j t, txs !! j = Some t -> tx_metadata n h (i + j) t) /\
  NoDup (Transaction_Hash <$> txs) /\
  (forall t, t ∈ txs -> Transaction_Hash t ∉ seen) /\
  seen' = list_to_set (Transaction_Hash <$> txs) ∪ seen /\
  pos' = record_positions pos txs.
Proof.
  revert i seen pos. induction txs as [|t txs IH]; intros i seen pos.
  { simpl. rewrite (left_id_L ∅ (∪)). split.
    - intros [= <- <-]. split_and!; [done|constructor|set_solver|done|done].
    - by intros (_ & _ & _ & -> & ->). }
  cbn [check_transactions]. rewrite !bind_reject_iff.
  replace (Z.of_nat i + 1) with (Z.of_nat (S i)) by lia. rewrite IH. clear IH.
  rewrite fmap_cons, NoDup_cons, forall_lookup_cons, forall_elem_cons, Nat.add_0_r.
  setoid_rewrite Nat.add_succ_r. cbn [list_to_set record_positions foldl].
  rewrite (assoc_L (∪)), (comm_L (∪) {[Transaction_Hash t]}), <- (assoc_L (∪)). bool_iff.
  fold (tx_metadata n h i t). set_solver.
Qed.

Definition event_checked (n : Z) (h : Hash) (pos : gmap Hash Z) (e : Event) : Prop :=
  pos !! Event_TransactionHash e = Some (Event_TransactionIndex e) /\
  (Event_BlockNumber e = n /\ Event_BlockHash e = h) /\ (length (Event_Topics e) <= 4)%nat.

Lemma check_events_Ok n h pos evs seen :
  check_events n h pos evs seen = Ok tt <->
  (forall e, e ∈ evs -> event_checked n h pos e) /\
  NoDup (Event_LogIndex <$> evs) /\ (forall e, e ∈ evs -> Event_LogIndex e ∉ seen).
Proof.
  revert seen. induction evs as [|e evs IH]; intros seen.
  { simpl. split; [|done]. intros _. split_and!; [set_solver|constructor|set_solver]. }
  cbn [check_events]. rewrite !bind_reject_iff, IH, fmap_cons, NoDup_cons, !forall_elem_cons.
  bool_iff. unfold event_checked at 2.
  assert (Hpos : (match pos !! Event_TransactionHash e with
    | Some i => negb (Event_TransactionIndex e =? i) | None => true end) = false <->
    pos !! Event_TransactionHash e = Some (Event_TransactionIndex e)).
  { destruct (pos !! _) as [i|]; [|naive_solver]. bool_iff. split; congruence. }
  rewrite Hpos.
  replace (Z.of_nat (length (Event_Topics e)) <= 4) with
    (Z.of_nat (length (Event_Topics e)) <= Z.of_nat 4) by done.
  rewrite <- Nat2Z.inj_le. set_solver.
Qed.

Lemma record_positions_lookup txs pos h k :
  NoDup (Transaction_Hash <$> txs) ->
  record_positions pos txs !! h = Some k <->
  (exists t, t ∈ txs /\ Transaction_Hash t = h /\ Transaction_Index t = k) \/
  (h ∉ Transaction_Hash <$> txs) /\ pos !! h = Some k.
Proof.
  revert pos. induction txs as [|t txs IH]; intros pos; cbn [record_positions foldl].
  { set_solver. }
  rewrite fmap_cons, NoDup_cons. intros [Hnot Hnd].
  fold (record_positions (<[Transaction_Hash t:=Transaction_Index t]> pos) txs).
  rewrite (IH _ Hnd). destruct (decide (Transaction_Hash t = h)) as [<-|Hne].
  - rewrite lookup_insert_eq. set_solver.
  - rewrite lookup_insert_ne by done. set_solver.
Qed.

Lemma check_bundle_Ok n b seen seen' :
  bundle_number b = n ->
  check_bundle n b seen = Ok seen' <->
  bundle_valid b /\ (forall h, contains_tx b h -> h ∉ seen) /\
  seen' = list_to_set (Transaction_Hash <$> Bundle_Transactions b) ∪ seen.
Proof.
  intros <-. unfold check_bundle. rewrite !bind_reject_iff, bind_Ok_iff. bool_iff.
  split.
  - intros (Hcnt & Hlen & [s pos] & Htx & Hev). apply bind_Ok_iff in Hev as ([] & Hev & [= <-]).
    change 0 with (Z.of_nat 0) in Htx.
    apply check_transactions_Ok in Htx as (Hmeta & Hnd & Hdisj & -> & ->).
    apply check_events_Ok in Hev as (Hevs & Hlogs & _).
    split; [|split; [|done]].
    + split; try done.
      * intros i t Hi. destruct (Hmeta i t Hi) as [[??] Hidx]. split_and!; try done.
        rewrite Hidx. apply to_u32_small. apply lookup_lt_Some in Hi. int_lia.
      * intros e He. destruct (Hevs e He) as (Hpos & [??] & ?). split_and!; try done.
        apply record_positions_lookup in Hpos as [?|[_ ?]]; [set_solver| |done].
        by rewrite lookup_empty in *.
    + intros h (t & -> & Ht)%list_elem_of_fmap. by apply Hdisj.
  - intros (Hv & Hdisj & ->). pose proof Hv as [Hcnt Hlen Htx Hnd Hev Hlogs].
    split_and!; try done.
    eexists (_, _). split.
    { change 0 with (Z.of_nat 0). apply check_transactions_Ok. split_and!; try done.
      - intros j t Hj. destruct (Htx j t Hj) as (? & ? & Hidx). split_and!; try done.
        rewrite Hidx. symmetry. apply to_u32_small. apply lookup_lt_Some in Hj. int_lia.
      - intros t Ht. apply Hdisj. by apply list_elem_of_fmap_2. }
    simpl. apply bind_Ok_iff. exists tt. split; [|done].
    apply check_events_Ok. split_and!; [|done|set_solver].
    intros e He. destruct (Hev e He) as (? & ? & ? & t & Ht & Hh & Hi). split_and!; try done.
    apply record_positions_lookup; [done|]. left. eauto.
Qed.

(** The map read at a key that is present. *)
Definition bundle_at (m : bundle_map) (n : Z) : BlockBundle := default zero_bundle (m !! n).

Definition link_ok (m : bundle_map) (p n : Z) : Prop :=
  n = p + 1 /\ bundle_parent (bundle_at m n) = bundle_hash (bundle_at m p).

(** Consecutive numbers of the list are linked. *)
Fixpoint linked (m : bundle_map) (previous : option Z) (numbers : list Z) : Prop :=
  match numbers with
  | [] => True
  | n :: rest =>
      match previous with None => True | Some p => link_ok m p n end /\ linked m (Some n) rest
  end.

Lemma linked_sorted m numbers :
  StronglySorted Z.lt numbers ->
  forall previous, linked m previous numbers <->
    match previous, numbers with Some p, n :: _ => link_ok m p n | _, _ => True end /\
    forall n k, n ∈ numbers -> k ∈ numbers -> n < k -> n + 1 ∈ numbers /\ link_ok m n (n + 1).
Proof.
  induction 1 as [|a r Hs IH Ha]; intros previous.
  { destruct previous; set_solver. }
  cbn [linked]. rewrite IH. clear IH. rewrite list.Forall_forall in Ha.
  enough (Hcore : (match r with b :: _ => link_ok m a b | [] => True end /\
      forall n k, n ∈ r -> k ∈ r -> n < k -> n + 1 ∈ r /\ link_ok m n (n + 1)) <->
    (forall n k, n ∈ a :: r -> k ∈ a :: r -> n < k -> n + 1 ∈ a :: r /\ link_ok m n (n + 1)))
    by (destruct previous; tauto).
  split.
  - intros [Hlink Hr] n k Hn Hk Hlt.
    apply elem_of_cons in Hn as [->|Hn].
    + destruct r as [|b r]; [set_solver by lia|]. destruct Hlink as [-> ?].
      split; [right; left|done].
    + apply elem_of_cons in Hk as [->|Hk]; [specialize (Ha _ Hn); lia|].
      destruct (Hr n k Hn Hk Hlt) as [? ?]. split; [by right|done].
  - intros Hall. split.
    + destruct r as [|b r]; [done|].
      assert (Hab : a < b) by (apply Ha; left).
      destruct (Hall a b) as [Hin Hl]; [left|right; left|done|].
      assert (b = a + 1) as ->; [|done].
      apply elem_of_cons in Hin as [?|Hin]; [lia|].
      apply elem_of_cons in Hin as [?|Hin]; [done|].
      inversion Hs as [|?? _ Hb]; subst. rewrite list.Forall_forall in Hb.
      specialize (Hb _ Hin). lia.
    + intros n k Hn Hk Hlt. destruct (Hall n k) as [Hin Hl]; [by right|by right|done|].
      split; [|done]. apply elem_of_cons in Hin as [Heq|?]; [|done].
      specialize (Ha _ Hn). lia.
Qed.

Lemma check_link_Ok m (previous : option Z) n :
  is_u64 n ->
  (forall p, previous = Some p -> is_u64 p /\ p < n /\ bundle_number (bundle_at m p) = p) ->
  check_link ((fun p => Bundle_Block (bundle_at m p)) <$> previous) n (bundle_at m n) = Ok tt <->
  match previous with None => True | Some p => link_ok m p n end.
Proof.
  intros Hn Hp. destruct previous as [p|]; [|done]. destruct (Hp p eq_refl) as (? & ? & Hk).
  cbn. rewrite reject_if_Ok. bool_iff. rewrite Hk, u64_add_small by int_lia. done.
Qed.

Lemma check_numbers_Ok m numbers :
  StronglySorted Z.lt numbers -> (forall n, n ∈ numbers -> is_u64 n) ->
  forall previous seen,
  (forall p, previous = Some p ->
     is_u64 p /\ bundle_number (bundle_at m p) = p /\ forall n, n ∈ numbers -> p < n) ->
  check_numbers m ((fun p => Bundle_Block (bundle_at m p)) <$> previous) numbers seen = Ok tt <->
  (forall n, n ∈ numbers -> bundle_number (bundle_at m n) = n /\ bundle_valid (bundle_at m n)) /\
  linked m previous numbers /\
  (forall n h, n ∈ numbers -> contains_tx (bundle_at m n) h -> h ∉ seen) /\
  (forall n n' h, n ∈ numbers -> n' ∈ numbers ->
     contains_tx (bundle_at m n) h -> contains_tx (bundle_at m n') h -> n = n').
Proof.
  induction 1 as [|a r Hs IH Ha]; intros Hu previous seen Hprev.
  { cbn. set_solver. }
  rewrite list.Forall_forall in Ha.
  rewrite forall_elem_cons in Hu. destruct Hu as [Hua Hur].
  assert (Hprev' : forall p, previous = Some p -> is_u64 p /\ p < a /\ bundle_number (bundle_at m p) = p).
  { intros p Hp. destruct (Hprev p Hp) as (? & ? & Hlt). split_and!; try done. apply Hlt. left. }
  cbn [check_numbers linked]. rewrite bind_reject_iff, bind_Ok_iff. bool_iff.
  change (default zero_bundle (m !! a)) with (bundle_at m a).
  rewrite forall_elem_cons. split.
  - intros (Hkey & [] & Hlink & Hrest). apply bind_Ok_iff in Hrest as (seen' & Hb & Hrest).
    apply check_bundle_Ok in Hb as (Hv & Hd & ->); [|done].
    apply check_link_Ok in Hlink; [|done|done].
    apply (IH Hur (Some a)) in Hrest as (Hk & Hl & Hseen & Htx); [|naive_solver].
    assert (Hfresh : forall n h, n ∈ r -> contains_tx (bundle_at m n) h ->
              ~ contains_tx (bundle_at m a) h).
    { intros n h Hn Hc Hc'. apply (Hseen n h Hn Hc). unfold contains_tx in *. set_solver. }
    split_and!; try done.
    + intros n h [->|Hn]%elem_of_cons Hc; [by apply Hd|]. specialize (Hseen n h Hn Hc). set_solver.
    + intros n n' h [->|Hn]%elem_of_cons [->|Hn']%elem_of_cons Hc Hc'; try done.
      * by destruct (Hfresh n' h Hn' Hc').
      * by destruct (Hfresh n h Hn Hc).
      * by eapply Htx.
  - intros ([[Hkey Hv] Hk] & [Hlink Hl] & Hseen & Htx). split; [done|].
    exists tt. split; [by apply check_link_Ok|].
    apply bind_Ok_iff. eexists. split.
    { apply check_bundle_Ok; [done|]. split_and!; try done. intros h Hc. eapply Hseen; [left|done]. }
    apply (IH Hur (Some a)); [naive_solver|]. split_and!; try done.
    + intros n h Hn Hc Hin. apply elem_of_union in Hin as [Hin|Hin].
      * apply elem_of_list_to_set in Hin.
        assert (n = a) by (eapply Htx; [by right|left|done|done]). specialize (Ha n Hn). lia.
      * eapply Hseen; [by right|done|done].
    + intros n n' h Hn Hn'. eapply Htx; by right.
Qed.

Section Decides.
Context `{GoRuntime}.

Lemma elem_of_sortedBlockNumbers m n : n ∈ sortedBlockNumbers m <-> is_Some (m !! n).
Proof.
unfold sortedBlockNumbers. rewrite elem_of_go_sort, list_elem_of_fmap. split.
- intros ([k b] & -> & Hin%elem_of_go_range). eauto.
- intros [b Hb]. exists (n, b). by rewrite elem_of_go_range.
Qed.

Lemma sortedBlockNumbers_sorted m : StronglySorted Z.lt (sortedBlockNumbers m).
Proof.
apply (go_sort_by_key (fun n : Z => n)). rewrite list_fmap_id. apply NoDup_go_range_keys.
Qed.

Lemma bundle_at_Some (m : bundle_map) n b : m !! n = Some b -> bundle_at m n = b.
Proof. unfold bundle_at. by intros ->. Qed.

Lemma validateCanonicalBundles_canonical m :
keys_u64 m -> validateCanonicalBundles m = Ok tt <-> canonical m.
Proof.
intros Hu. unfold validateCanonicalBundles.
change (@None Block) with ((fun p => Bundle_Block (bundle_at m p)) <$> @None Z).
rewrite check_numbers_Ok; [|apply sortedBlockNumbers_sorted| |done].
2: { intros n Hn%elem_of_sortedBlockNumbers. by apply Hu. }
rewrite (linked_sorted m _ (sortedBlockNumbers_sorted m)).
setoid_rewrite elem_of_sortedBlockNumbers. split.
- intros (Hk & [_ Hl] & _ & Htx). split.
  + intros n b Hb. destruct (Hk n); [eauto|]. by erewrite bundle_at_Some in *.
  + intros n b Hb. destruct (Hk n); [eauto|]. by erewrite bundle_at_Some in *.
  + intros n b k Hb Hlt Hs. destruct (Hl n k) as [[c Hc] [_ Hp]]; [eauto|done|done|].
    exists c. split; [done|]. by erewrite !bundle_at_Some in Hp.
  + intros n b n' b' h Hb Hb' Hc Hc'. apply (Htx n n' h); [eauto|eauto| |].
    * by rewrite (bundle_at_Some _ _ _ Hb).
    * by rewrite (bundle_at_Some _ _ _ Hb').
- intros [Hkey Hv Hnext Htx]. split_and!.
  + intros n [b Hb]. erewrite bundle_at_Some by done. eauto.
  + done.
  + intros n k [b Hb] Hs Hlt. destruct (Hnext n b k Hb Hlt Hs) as (c & Hc & Hp).
    split; [eauto|]. split; [done|].
    by rewrite (bundle_at_Some _ _ _ Hb), (bundle_at_Some _ _ _ Hc).
  + intros n h _ _. apply not_elem_of_empty.
  + intros n n' h [b Hb] [b' Hb'].
    rewrite (bundle_at_Some _ _ _ Hb), (bundle_at_Some _ _ _ Hb'). eauto.
Qed.
End Decides.

(** ** Every rejection is [ErrInvalidCanonicalUpdate] *)

Definition is_invalid_update (e : error) : Prop :=
  errors_Is e (StoreSentinel StoreErrInvalidCanonicalUpdate) = true.
#[export] Hint Unfold is_invalid_update : go_errs.

Lemma check_contiguous_errs p bs : errs_in is_invalid_update (check_contiguous p bs).
Proof. revert p. induction bs; intros p; simpl; auto 6 with go_errs. Qed.

Lemma check_transactions_errs n h i txs seen pos :
  errs_in is_invalid_update (check_transactions n h i txs seen pos).
Proof. revert i seen pos. induction txs; intros; simpl; auto 8 with go_errs. Qed.

Lemma check_events_errs n h pos evs seen : errs_in is_invalid_update (check_events n h pos evs seen).
Proof. revert seen. induction evs; intros; simpl; auto 12 with go_errs. Qed.

Lemma check_bundle_errs n b seen : errs_in is_invalid_update (check_bundle n b seen).
Proof.
  unfold check_bundle.
  auto 14 using check_transactions_errs, check_events_errs with go_errs.
Qed.

Lemma check_numbers_errs m prev ns seen : errs_in is_invalid_update (check_numbers m prev ns seen).
Proof.
  revert prev seen. induction ns as [|n ns IH]; intros; simpl; [done|].
  unfold check_link. auto 14 using check_bundle_errs with go_errs.
Qed.

#[export] Hint Resolve check_contiguous_errs check_numbers_errs : go_errs.

Lemma validateReplacement_errs u : errs_in is_invalid_update (validateReplacement u).
Proof. unfold validateReplacement. auto 8 with go_errs. Qed.

Lemma validateCanonicalBundles_errs `{GoRuntime} m :
  errs_in is_invalid_update (validateCanonicalBundles m).
Proof. unfold validateCanonicalBundles. auto with go_errs. Qed.
#[export] Hint Resolve validateReplacement_errs validateCanonicalBundles_errs : go_errs.

(** C15: [validateCanonicalBundles] decides canonicity: it accepts exactly the maps
    whose blocks are keyed by their numbers, form one gap-free parent-linked chain,
    carry consistent transactions and events, and share no transaction; every other
    map is rejected with [ErrInvalidCanonicalUpdate]. *)
Theorem validate_decides_canonical `{GoRuntime} m :
  keys_u64 m ->
  (validateCanonicalBundles m = Ok tt <-> canonical m) /\
  (~ canonical m -> exists e, validateCanonicalBundles m = Err e /\
     errors_Is e (StoreSentinel StoreErrInvalidCanonicalUpdate) = true).
Proof.
  intros Hu. split; [by apply validateCanonicalBundles_canonical|]. intros Hn.
  destruct (errs_in_cases _ _ (validateCanonicalBundles_errs m)) as [[[] Hok]|He]; [|done].
  destruct Hn. by apply validateCanonicalBundles_canonical.
Qed.
