(* ===== verification/Store.v ===== *)
(** * The store interface of [internal/store/store.go]

    [IndexStore] is the write and reconciliation contract the indexer uses; the
    laws say what every implementation promises of the canonical segment it
    holds.  The synchronizer is verified against this interface. *)
From S2P Require Import Prelude Errors Domain Validate.
From stdpp Require Import prelude gmap list strings.
From Stdlib Require Import ZArith Lia.

Local Open Scope Z_scope.

(** ** Abstract content of a store *)

(** [None] for an empty store, else the block with the highest number. *)
Definition is_tip (m : bundle_map) (tip : option ChainTip) : Prop :=
  match tip with
  | None => m = ∅
  | Some t => exists b, m !! Tip_Number t = Some b /\ bundle_hash b = Tip_Hash t /\
                        forall k, is_Some (m !! k) -> k <= Tip_Number t
  end.

(** The blocks an update keeps: at or above [RetainFrom], below [ReplaceFrom]. *)
Definition kept (u : CanonicalUpdate) (n : Z) : Prop :=
  Update_RetainFrom u <= n < Update_ReplaceFrom u.
#[global] Instance kept_dec u n : Decision (kept u n).
Proof. unfold kept. apply _. Defined.

Definition insert_blocks (m : bundle_map) (blocks : list BlockBundle) : bundle_map :=
  foldl (fun acc b => <[bundle_number b := b]> acc) m blocks.

(** The effect documented on [CanonicalUpdate]: remove the blocks at and above
    [ReplaceFrom], insert [Blocks], prune the blocks below [RetainFrom]. *)
Definition apply_update (m : bundle_map) (u : CanonicalUpdate) : bundle_map :=
  insert_blocks (filter (fun kb => kept u kb.1) m) (Update_Blocks u).

Definition normalized (f : BlockBundle -> BlockBundle) (u : CanonicalUpdate) : CanonicalUpdate :=
  mkUpdate (Update_ChainID u) (Update_ReplaceFrom u) (Update_RetainFrom u)
    (f <$> Update_Blocks u) (Update_SyncedAt u).

(** The numbering an update must have: its blocks count up from [ReplaceFrom]. *)
Definition contiguous (u : CanonicalUpdate) : Prop :=
  forall i b, Update_Blocks u !! i = Some b -> bundle_number b = Update_ReplaceFrom u + Z.of_nat i.

(** No two blocks of the segment have the same hash. *)
Definition distinct_hashes (m : bundle_map) : Prop :=
  forall n b n' b', m !! n = Some b -> m !! n' = Some b' -> bundle_hash b = bundle_hash b' -> n = n'.

(** ** The interface *)
Class IndexStore (S : Type) := {
  CanonicalTip : action S (option ChainTip);
  CanonicalHash : Z -> action S Hash;
  ApplyCanonicalUpdate : CanonicalUpdate -> action S unit
}.

(** What a caller may rely on.  [view] is the canonical segment the store holds,
    [stored_as] how a bundle looks after it was stored (a store may normalize
    empty slices or time stamps, never the chain data). *)
Class IndexStoreLaws (S : Type) `{IndexStore S} := {
  view : S -> bundle_map;
  store_ok : S -> Prop;
  stored_as : BlockBundle -> BlockBundle;
  stored_number b : bundle_number (stored_as b) = bundle_number b;
  stored_hash b : bundle_hash (stored_as b) = bundle_hash b;
  stored_parent b : bundle_parent (stored_as b) = bundle_parent b;
  view_canonical s : store_ok s -> canonical (view s) /\ keys_u64 (view s);
  tip_law s : store_ok s ->
    wp CanonicalTip (fun r s' => store_ok s' /\ view s' = view s /\ returns r /\
      forall t, r = Ok t -> is_tip (view s) t) s;
  hash_law n s : store_ok s ->
    wp (CanonicalHash n) (fun r s' => store_ok s' /\ view s' = view s /\ returns r /\
      (forall h, r = Ok h -> exists b, view s !! n = Some b /\ bundle_hash b = h) /\
      (forall e, r = Err e -> errors_Is e (StoreSentinel StoreErrNotFound) = true ->
                 view s !! n = None)) s;
  apply_law u s : store_ok s -> Update_typed u ->
    wp (ApplyCanonicalUpdate u) (fun r s' => store_ok s' /\ returns r /\
      (r = Ok tt -> contiguous u /\ Update_RetainFrom u <= Update_ReplaceFrom u /\
                    view s' = apply_update (view s) (normalized stored_as u)) /\
      (forall e, r = Err e -> view s' = view s)) s
}.

(** ** Lookups in an updated segment *)

Lemma insert_blocks_lookup_ge m blocks from n :
  (forall i b, blocks !! i = Some b -> bundle_number b = from + Z.of_nat i) ->
  insert_blocks m blocks !! n =
    if decide (from <= n < from + Z.of_nat (length blocks))
    then blocks !! Z.to_nat (n - from) else m !! n.
Proof.
  revert m from. induction blocks as [|b blocks IH]; intros m from; cbn [insert_blocks foldl].
  { intros _. simpl. case_decide; [lia|done]. }
  rewrite forall_lookup_cons. intros [Hb Hr]. fold (insert_blocks (<[bundle_number b:=b]> m) blocks).
  rewrite (IH _ (from + 1)); [|intros i c Hi; rewrite (Hr i c Hi); lia].
  cbn [length]. rewrite Nat2Z.inj_succ. rewrite Z.add_0_r in Hb. rewrite Hb.
  destruct (decide (n = from)) as [->|Hne].
  - rewrite decide_False by lia. rewrite decide_True by lia.
    rewrite lookup_insert_eq, Z.sub_diag. done.
  - rewrite lookup_insert_ne by done. case_decide; case_decide; try lia; [|done].
    replace (Z.to_nat (n - from)) with (S (Z.to_nat (n - (from + 1)))) by lia. done.
Qed.

Lemma apply_update_lookup m u n :
  contiguous u ->
  apply_update m u !! n =
    if decide (Update_ReplaceFrom u <= n < Update_ReplaceFrom u + Z.of_nat (length (Update_Blocks u)))
    then Update_Blocks u !! Z.to_nat (n - Update_ReplaceFrom u)
    else if decide (kept u n) then m !! n else None.
Proof.
  intros Hc. unfold apply_update. rewrite (insert_blocks_lookup_ge _ _ (Update_ReplaceFrom u)) by done.
  case_decide; [done|]. case_decide as Hk.
  - destruct (m !! n) eqn:E; [by apply map_lookup_filter_Some|].
    apply map_lookup_filter_None. by left.
  - apply map_lookup_filter_None. right. intros b _. done.
Qed.

Lemma normalized_contiguous f u :
  (forall b, bundle_number (f b) = bundle_number b) -> contiguous u -> contiguous (normalized f u).
Proof.
  intros Hf Hc i b Hi. apply list_lookup_fmap_Some in Hi as (c & -> & Hi).
  rewrite Hf. by apply Hc.
Qed.

Lemma validateReplacement_contiguous u :
  Update_typed u -> validateReplacement u = Ok tt <-> contiguous u.
Proof.
  intros (_ & Hrep & _ & Hbs). unfold validateReplacement, contiguous.
  assert (Hbs' : Forall (fun b => is_u64 (bundle_number b)) (Update_Blocks u)).
  { eapply Forall_impl; [done|]. by intros b [[? _] _]. }
  destruct (Update_Blocks u) as [|b bs]; [done|].
  apply Forall_cons in Hbs' as [Hb Hbs'].
  rewrite bind_reject_iff, check_contiguous_Ok, forall_lookup_cons by done. bool_iff.
  split.
  - intros [-> Hr]. split; [lia|]. intros i c Hi. rewrite (Hr i c Hi). lia.
  - intros [-> Hr]. split; [lia|]. intros i c Hi. rewrite (Hr i c Hi). lia.
Qed.
