(* ===== verification/Fixtures.v ===== *)
(** * Concrete chain data

    Small blocks used to evaluate the definitions on concrete inputs, in the
    manner of the [testBundle] helpers of the Go tests. *)
From S2P Require Import Prelude Errors Domain Validate Store.
From stdpp Require Import prelude gmap list strings.
From Stdlib Require Import ZArith Lia Strings.Byte.

Local Open Scope Z_scope.

(** The hash and the address whose last byte is [n]. *)
Definition hash_of (n : Z) : Hash := low_byte_array 31 (default x00 (Byte.of_N (Z.to_N n))).
Definition address_of (n : Z) : Address := low_byte_array 19 (default x00 (Byte.of_N (Z.to_N n))).

Definition time_of (n : Z) : Time := mkTime n UTCTime.

Definition fixture_tx (number hash tx index : Z) : Transaction :=
  mkTransaction (hash_of tx) number (hash_of hash) index 2 0 (address_of 1) (Some (address_of 2))
    (Some 1000) 21000 None (Some 30) (Some 2) (Some [xde; xad]).

Definition fixture_event (number hash tx log emitter : Z) : Event :=
  mkEvent number (hash_of hash) (hash_of tx) 0 log (address_of emitter) [hash_of 200] (Some []).

(** Block [number] with hash byte [hash] and parent byte [parent], one
    transaction [tx], and two logs of emitter 7 and one of emitter 8. *)
Definition fixture_bundle (number hash parent tx : Z) : BlockBundle :=
  mkBundle
    (mkBlock number (hash_of hash) (hash_of parent) 1700000000 30000000 21000 (Some 7) 1 (time_of 5))
    [fixture_tx number hash tx 0]
    [fixture_event number hash tx 0 7; fixture_event number hash tx 1 8; fixture_event number hash tx 2 7].

(** Blocks 10, 11 and 12 of one chain, and a fork of block 12. *)
Definition block10 : BlockBundle := fixture_bundle 10 10 9 110.
Definition block11 : BlockBundle := fixture_bundle 11 11 10 111.
Definition block12 : BlockBundle := fixture_bundle 12 12 11 112.
Definition fork12 : BlockBundle := fixture_bundle 12 32 11 132.
Definition fork13 : BlockBundle := fixture_bundle 13 33 32 133.

Definition chain_update (replace retain : Z) (blocks : list BlockBundle) : CanonicalUpdate :=
  mkUpdate 1 replace retain blocks (time_of 9).

Lemma fixture_typed number hash parent tx :
  is_u64 number -> Bundle_typed (fixture_bundle number hash parent tx).
Proof.
  intros Hn. split_and!.
  - split_and!; simpl; [done|done|done|done].
  - repeat constructor; simpl; try done; apply Hn.
  - repeat constructor; simpl; try done; apply Hn.
Qed.

Lemma chain_update_typed replace retain blocks :
  is_u64 replace -> is_u64 retain -> Forall Bundle_typed blocks ->
  Update_typed (chain_update replace retain blocks).
Proof. intros. by split_and!. Qed.

(** Types a literal list of fixture bundles. *)
Ltac fixtures_typed :=
  repeat match goal with
  | |- Forall Bundle_typed (_ :: _) => apply Forall_cons_2; [by apply fixture_typed|]
  | |- Forall Bundle_typed [] => apply Forall_nil_2
  end.
