(* ===== verification/Memory.v ===== *)
(** * The in-memory store of [internal/store/memory.go]

    The state is the [Memory] struct; every method is one definition.  The
    mutex makes each method atomic, so a method is a function on the state; the
    context is read once, on entry, and its error is an argument. *)
From S2P Require Import Prelude Errors Domain Validate Store.
From stdpp Require Import prelude gmap sorting list strings.
From Stdlib Require Import ZArith Lia.

Local Open Scope Z_scope.

(** [ctx.Err()] of a context: still open, cancelled, or past its deadline. *)
Inductive ctx_state := CtxOpen | CtxCanceled | CtxDeadline.
Definition ctx_Err (c : ctx_state) : option error :=
  match c with
  | CtxOpen => None
  | CtxCanceled => Some (foreign_err ContextCanceled)
  | CtxDeadline => Some (foreign_err ContextDeadlineExceeded)
  end.
(** [if err := ctx.Err(); err != nil { return err }] *)
Definition check_ctx (c : ctx_state) : result unit :=
  match ctx_Err c with Some e => Err e | None => Ok tt end.

Record Memory := mkMemory {
  mem_chainID : Z;
  mem_bundles : bundle_map;
  mem_lastSyncedAt : Time
}.

Definition NewMemory : Memory := mkMemory 0 ∅ zero_time.

(** ** Copies *)

Definition cloneBigInt (value : option Z) : option Z :=
  match value with None => None | Some v => Some v end.

Definition cloneAddress (value : option Address) : option Address :=
  match value with None => None | Some a => Some a end.

Definition cloneBlock (block : Block) : Block :=
  mkBlock (Block_Number block) (Block_Hash block) (Block_ParentHash block) (Block_Timestamp block)
    (Block_GasLimit block) (Block_GasUsed block) (cloneBigInt (Block_BaseFeePerGas block))
    (Block_TransactionCount block) (Block_IndexedAt block).

Definition cloneTransaction (t : Transaction) : Transaction :=
  mkTransaction (Transaction_Hash t) (Transaction_BlockNumber t) (Transaction_BlockHash t)
    (Transaction_Index t) (Transaction_Type t) (Transaction_Nonce t) (Transaction_Sender t)
    (cloneAddress (Transaction_Recipient t)) (cloneBigInt (Transaction_Value t))
    (Transaction_GasLimit t) (cloneBigInt (Transaction_GasPrice t))
    (cloneBigInt (Transaction_MaxFeePerGas t)) (cloneBigInt (Transaction_MaxPriorityFeePerGas t))
    (slice_append None (Transaction_Input t)).

Definition cloneEvent (e : Event) : Event :=
  mkEvent (Event_BlockNumber e) (Event_BlockHash e) (Event_TransactionHash e)
    (Event_TransactionIndex e) (Event_LogIndex e) (Event_Address e) ([] ++ Event_Topics e)
    (slice_append None (Event_Data e)).

Definition cloneBundle (bundle : BlockBundle) : BlockBundle :=
  mkBundle (cloneBlock (Bundle_Block bundle)) (cloneTransaction <$> Bundle_Transactions bundle)
    (cloneEvent <$> Bundle_Events bundle).

Section Operations.
Context `{GoRuntime}.

Definition cloneBundles (source : bundle_map) : bundle_map :=
foldl (fun cloned kb => <[kb.1 := cloneBundle kb.2]> cloned) ∅ (go_range source).

(** ** [IndexStore] methods *)

(** The scan keeps the best number so far; [None] is [found == false]. *)
Definition highestNumber (bundles : bundle_map) : option Z :=
foldl (fun highest (kb : Z * BlockBundle) =>
  match highest with
  | None => Some kb.1
  | Some h => if h <? kb.1 then Some kb.1 else Some h
  end) None (go_range bundles).

Definition highestBundle (bundles : bundle_map) : option (Z * BlockBundle) :=
match highestNumber bundles with
| None => None
| Some highest => Some (highest, default zero_bundle (bundles !! highest))
end.

Definition Memory_CanonicalTip (c : ctx_state) (m : Memory) : result (option ChainTip) :=
_ ← check_ctx c;
match highestBundle (mem_bundles m) with
| None => Ok None
| Some (number, bundle) => Ok (Some (mkTip number (bundle_hash bundle)))
end.

Definition Memory_CanonicalHash (c : ctx_state) (number : Z) (m : Memory) : result Hash :=
_ ← check_ctx c;
match mem_bundles m !! number with
| None => Err (store_err StoreErrNotFound)
| Some bundle => Ok (bundle_hash bundle)
end.

(** [for number := range candidate { if ... { delete(candidate, number) } }] *)
Definition delete_outside (update : CanonicalUpdate) (candidate : bundle_map) : bundle_map :=
foldl (fun acc (kb : Z * BlockBundle) =>
  if (Update_ReplaceFrom update <=? kb.1) || (kb.1 <? Update_RetainFrom update)
  then delete kb.1 acc else acc) candidate (go_range candidate).

(** The candidate map, before it is validated. *)
Definition update_candidate (update : CanonicalUpdate) (bundles : bundle_map) : bundle_map :=
foldl (fun candidate bundle => <[bundle_number bundle := cloneBundle bundle]> candidate)
  (delete_outside update (cloneBundles bundles)) (Update_Blocks update).

(** The new state when the update is accepted. *)
Definition accept_update (c : ctx_state) (update : CanonicalUpdate) (m : Memory) : result Memory :=
_ ← check_ctx c;
_ ← reject_if (Update_ChainID update =? 0)
      (invalid_update "%w: chain ID must be greater than zero");
_ ← reject_if (Update_ReplaceFrom update <? Update_RetainFrom update)
      (invalid_update "%w: retain-from block cannot exceed replace-from block");
_ ← validateReplacement update;
_ ← reject_if (negb (mem_chainID m =? 0) && negb (mem_chainID m =? Update_ChainID update))
      (invalid_update "%w: store chain ID is %d, update chain ID is %d");
let candidate := update_candidate update (mem_bundles m) in
_ ← validateCanonicalBundles candidate;
Ok (mkMemory (Update_ChainID update) candidate (Update_SyncedAt update)).

Definition Memory_ApplyCanonicalUpdate (c : ctx_state) (update : CanonicalUpdate) (m : Memory)
  : result unit * Memory :=
match accept_update c update m with
| Ok m' => (Ok tt, m')
| Err e => (Err e, m)
| Panic msg => (Panic msg, m)
| OutOfFuel => (OutOfFuel, m)
end.

(** ** [QueryStore] methods *)

Definition Memory_BlockByNumber (c : ctx_state) (number : Z) (m : Memory) : result BlockResult :=
_ ← check_ctx c;
match mem_bundles m !! number with
| None => Err (store_err StoreErrNotFound)
| Some bundle =>
    Ok (mkBlockResult (cloneBlock (Bundle_Block bundle))
          (Transaction_Hash <$> Bundle_Transactions bundle))
end.

Definition log_index_less (left right : Event) : bool := Event_LogIndex left <? Event_LogIndex right.

(** The inner loop over the transactions of one bundle, with its early return. *)
Fixpoint find_transaction (hash : Hash) (bundle : BlockBundle) (txs : list Transaction)
  : option TransactionResult :=
match txs with
| [] => None
| transaction :: rest =>
    if bool_decide (Transaction_Hash transaction <> hash) then find_transaction hash bundle rest
    else
      let events := cloneEvent <$>
        filter (fun e => Event_TransactionHash e = hash) (Bundle_Events bundle) in
      Some (mkTransactionResult (cloneTransaction transaction) (go_sort log_index_less events))
end.

Fixpoint find_in_bundles (hash : Hash) (entries : list (Z * BlockBundle)) : option TransactionResult :=
match entries with
| [] => None
| (_, bundle) :: rest =>
    match find_transaction hash bundle (Bundle_Transactions bundle) with
    | Some r => Some r
    | None => find_in_bundles hash rest
    end
end.

Definition Memory_TransactionByHash (c : ctx_state) (hash : Hash) (m : Memory) : result TransactionResult :=
_ ← check_ctx c;
match find_in_bundles hash (go_range (mem_bundles m)) with
| Some r => Ok r
| None => Err (store_err StoreErrNotFound)
end.

Definition eventBeforeCursor (event : Event) (cursor : option EventCursor) : bool :=
match cursor with
| None => true
| Some c =>
    if negb (Event_BlockNumber event =? Cursor_BlockNumber c)
    then Event_BlockNumber event <? Cursor_BlockNumber c
    else Event_LogIndex event <? Cursor_LogIndex c
end.

(** The comparison of the page sort: newest block first, then highest log. *)
Definition newest_first (left right : Event) : bool :=
if negb (Event_BlockNumber left =? Event_BlockNumber right)
then Event_BlockNumber right <? Event_BlockNumber left
else Event_LogIndex right <? Event_LogIndex left.

(** The events collected before sorting: the emitter matches and the position
  is before the cursor. *)
Definition collect_events (query : EventQuery) (entries : list (Z * BlockBundle)) : list Event :=
'(_, bundle) ← entries;
event ← Bundle_Events bundle;
if negb (bool_decide (Event_Address event = Query_Address query)) ||
   negb (eventBeforeCursor event (Query_Before query))
then [] else [cloneEvent event].

Definition cursor_at (e : Event) : EventCursor :=
mkCursor (Event_BlockNumber e) (Event_BlockHash e) (Event_LogIndex e).

(** The cut of the sorted events into a page. *)
Definition cut_page (limit : Z) (events : list Event) : result EventPage :=
if (limit =? 0) || (Z.of_nat (length events) =? 0) then Ok (mkPage [] None)
else if Z.of_nat (length events) <=? limit then Ok (mkPage events None)
else
  let pageEvents := take (Z.to_nat limit) events in
  match pageEvents !! (length pageEvents - 1)%nat with
  | None => Panic "index out of range"
  | Some lastEvent => Ok (mkPage pageEvents (Some (cursor_at lastEvent)))
  end.

Definition Memory_EventsByAddress (c : ctx_state) (query : EventQuery) (m : Memory) : result EventPage :=
_ ← check_ctx c;
_ ← reject_if (MaxEventPageSize <? Query_Limit query)
      (wrapf "%w: event page limit %d exceeds maximum %d" (store_err StoreErrInvalidQuery));
_ ← match Query_Before query with
    | None => Ok tt
    | Some before =>
        reject_if (match mem_bundles m !! Cursor_BlockNumber before with
                   | None => true
                   | Some bundle => negb (bool_decide (bundle_hash bundle = Cursor_BlockHash before))
                   end) (store_err StoreErrStaleCursor)
    end;
cut_page (Query_Limit query)
  (go_sort newest_first (collect_events query (go_range (mem_bundles m)))).

(** ** [HealthStore] methods *)
Definition Memory_Ping (c : ctx_state) : result unit := check_ctx c.
End Operations.

(** ** Copies are idempotent and keep the chain data *)

Lemma cloneBigInt_id v : cloneBigInt v = v.
Proof. by destruct v. Qed.
Lemma cloneAddress_id v : cloneAddress v = v.
Proof. by destruct v. Qed.
Lemma slice_append_nil_idem s : slice_append None (slice_append None s) = slice_append None s.
Proof. by destruct s as [[|]|]. Qed.
Lemma cloneBlock_id b : cloneBlock b = b.
Proof. unfold cloneBlock. rewrite cloneBigInt_id. by destruct b. Qed.
Lemma cloneTransaction_idem t : cloneTransaction (cloneTransaction t) = cloneTransaction t.
Proof.
  unfold cloneTransaction; simpl. by rewrite !cloneBigInt_id, !cloneAddress_id, slice_append_nil_idem.
Qed.
Lemma cloneEvent_idem e : cloneEvent (cloneEvent e) = cloneEvent e.
Proof. unfold cloneEvent; simpl. by rewrite slice_append_nil_idem. Qed.
Lemma cloneBundle_idem b : cloneBundle (cloneBundle b) = cloneBundle b.
Proof.
  unfold cloneBundle; simpl. rewrite cloneBlock_id. f_equal.
  - rewrite <- list_fmap_compose. apply list_fmap_ext. intros i t _. apply cloneTransaction_idem.
  - rewrite <- list_fmap_compose. apply list_fmap_ext. intros i e _. apply cloneEvent_idem.
Qed.
Lemma cloneBundle_block b : Bundle_Block (cloneBundle b) = Bundle_Block b.
Proof. apply cloneBlock_id. Qed.
Lemma cloneBundle_hashes b :
  Transaction_Hash <$> Bundle_Transactions (cloneBundle b) = Transaction_Hash <$> Bundle_Transactions b.
Proof. simpl. by rewrite <- list_fmap_compose. Qed.

Create Rewrite HintDb clone.
#[export] Hint Rewrite cloneBlock_id cloneBundle_block cloneTransaction_idem cloneEvent_idem
  cloneBundle_idem : clone.

(** ** Loops over a map *)

Section MapLoops.
Context {V : Type}.
Implicit Types (l : list (Z * V)) (m : gmap Z V).

Lemma foldl_insert_lookup {B} (f : V -> B) l (acc : gmap Z B) k :
NoDup l.*1 ->
foldl (fun acc kb => <[kb.1 := f kb.2]> acc) acc l !! k =
  match (list_to_map l : gmap Z V) !! k with Some v => Some (f v) | None => acc !! k end.
Proof.
revert acc. induction l as [|[a v] l IH]; intros acc; simpl; [done|].
intros [Ha Hnd]%NoDup_cons. rewrite (IH _ Hnd).
destruct (decide (a = k)) as [<-|Hne].
- rewrite (not_elem_of_list_to_map_1 l a) by done. by rewrite !lookup_insert_eq.
- by rewrite !lookup_insert_ne.
Qed.

Lemma foldl_delete_lookup (p : Z -> bool) l m k :
foldl (fun acc (kb : Z * V) => if p kb.1 then delete kb.1 acc else acc) m l !! k =
  if bool_decide (k ∈ l.*1) && p k then None else m !! k.
Proof.
revert m. induction l as [|[a v] l IH]; intros m; simpl; [done|]. rewrite IH.
destruct (decide (a = k)) as [<-|Hne].
- case_bool_decide; (case_bool_decide; [|set_solver]);
    destruct (p a); simpl; by rewrite ?lookup_delete_eq.
- case_bool_decide; case_bool_decide; try set_solver;
    destruct (p a); simpl; by rewrite ?lookup_delete_ne.
Qed.

Lemma foldl_max l acc r :
foldl (fun highest (kb : Z * V) =>
  match highest with
  | None => Some kb.1
  | Some h => if h <? kb.1 then Some kb.1 else Some h
  end) acc l = r ->
match r with
| None => acc = None /\ l = []
| Some h => (acc = Some h \/ h ∈ l.*1) /\ (forall a, acc = Some a -> a <= h) /\
            (forall k, k ∈ l.*1 -> k <= h)
end.
Proof.
revert acc. induction l as [|[k v] l IH]; intros acc; simpl.
{ intros <-. destruct acc; [|done]. set_solver by lia. }
intros Hr%IH. clear IH. destruct r as [h|].
2: { destruct Hr as [Hr _]. destruct acc as [a|]; [destruct (a <? k)|]; done. }
setoid_rewrite elem_of_cons. destruct Hr as (Hin & Hacc & Hl).
destruct acc as [a|]; [destruct (Z.ltb_spec a k)|].
- specialize (Hacc k eq_refl). split_and!; [naive_solver| |].
  + intros ? [= <-]. lia.
  + naive_solver.
- specialize (Hacc a eq_refl). split_and!; [naive_solver| |].
  + intros ? [= <-]. lia.
  + intros ? [->|?]; [lia|auto].
- specialize (Hacc k eq_refl). split_and!; [naive_solver|done|naive_solver].
Qed.
End MapLoops.

Section Facts.
Context `{GoRuntime}.

Lemma list_to_map_go_range {V} (m : gmap Z V) : list_to_map (go_range m) = m.
Proof.
rewrite <- (list_to_map_to_list m) at 2. apply list_to_map_proper; [apply NoDup_go_range_keys|].
apply go_range_perm.
Qed.

Lemma elem_of_go_range_keys {V} (m : gmap Z V) k : k ∈ (go_range m).*1 <-> is_Some (m !! k).
Proof.
rewrite list_elem_of_fmap. split.
- intros ([a v] & -> & Hin%elem_of_go_range). eauto.
- intros [v Hv]. exists (k, v). by rewrite elem_of_go_range.
Qed.

Lemma cloneBundles_fmap m : cloneBundles m = cloneBundle <$> m.
Proof.
apply map_eq. intros k. unfold cloneBundles.
rewrite foldl_insert_lookup by apply NoDup_go_range_keys.
rewrite list_to_map_go_range, lookup_fmap. by destruct (m !! k).
Qed.

Lemma delete_outside_filter u m : delete_outside u m = filter (fun kb => kept u kb.1) m.
Proof.
apply map_eq. intros k. unfold delete_outside.
rewrite (foldl_delete_lookup (fun n => (Update_ReplaceFrom u <=? n) || (n <? Update_RetainFrom u))).
destruct (m !! k) as [b|] eqn:Hk.
- rewrite bool_decide_true by (apply elem_of_go_range_keys; eauto). simpl.
  destruct (_ || _) eqn:Hg; symmetry.
  + apply map_lookup_filter_None. right. intros c _. unfold kept; simpl.
    apply orb_true_iff in Hg as [?%Z.leb_le|?%Z.ltb_lt]; lia.
  + apply map_lookup_filter_Some. split; [done|]. unfold kept; simpl.
    apply orb_false_iff in Hg as [?%Z.leb_gt ?%Z.ltb_ge]. lia.
- transitivity (@None BlockBundle); [by destruct (_ && _)|].
  symmetry. apply map_lookup_filter_None. by left.
Qed.

Definition all_cloned (m : bundle_map) : Prop := forall n b, m !! n = Some b -> cloneBundle b = b.

Lemma update_candidate_eq u m :
all_cloned m -> update_candidate u m = apply_update m (normalized cloneBundle u).
Proof.
intros Hm. unfold update_candidate, apply_update, insert_blocks.
rewrite delete_outside_filter, cloneBundles_fmap.
assert (cloneBundle <$> m = m) as ->.
{ apply map_eq. intros k. rewrite lookup_fmap. destruct (m !! k) eqn:E; [|done].
  simpl. f_equal. eauto. }
change (filter (fun kb => kept (normalized cloneBundle u) kb.1) m)
  with (filter (fun kb : Z * BlockBundle => kept u kb.1) m).
generalize (filter (fun kb : Z * BlockBundle => kept u kb.1) m) as acc.
simpl. induction (Update_Blocks u) as [|b bs IH]; intros acc; simpl; [done|].
by rewrite IH.
Qed.

Lemma highestNumber_spec (m : bundle_map) :
match highestNumber m with
| None => m = ∅
| Some h => is_Some (m !! h) /\ forall k, is_Some (m !! k) -> k <= h
end.
Proof.
pose proof (foldl_max (go_range m) None (highestNumber m) eq_refl) as Hmax.
destruct (highestNumber m) as [h|].
- destruct Hmax as ([?|Hin] & _ & Hmax); [done|].
  split; [by apply elem_of_go_range_keys|]. intros k Hk. by apply Hmax, elem_of_go_range_keys.
- destruct Hmax as [_ Hnil]. rewrite <- (list_to_map_go_range m). by rewrite Hnil.
Qed.
End Facts.

(** ** The invariant of the store *)

Record mem_ok (m : Memory) : Prop := {
  mem_canonical : canonical (mem_bundles m);
  mem_keys : keys_u64 (mem_bundles m);
  mem_cloned : all_cloned (mem_bundles m);
  mem_typed n b : mem_bundles m !! n = Some b -> Bundle_typed b
}.

Lemma canonical_empty : canonical ∅.
Proof. split; intros *; by rewrite lookup_empty. Qed.

Lemma NewMemory_ok : mem_ok NewMemory.
Proof.
  split; change (mem_bundles NewMemory) with (∅ : bundle_map); [apply canonical_empty| | |].
  - intros n [b Hb]. by rewrite lookup_empty in Hb.
  - intros n b Hb. by rewrite lookup_empty in Hb.
  - intros n b Hb. by rewrite lookup_empty in Hb.
Qed.

Lemma apply_update_keys m u :
  keys_u64 m -> Update_typed u -> contiguous u -> keys_u64 (apply_update m u).
Proof.
  intros Hm (_ & _ & _ & Hbs) Hc n [b Hb]. rewrite apply_update_lookup in Hb by done.
  case_decide as Hin.
  - pose proof (Hc _ _ Hb) as Hn. rewrite list.Forall_forall in Hbs.
    destruct (Hbs b) as [[Hu _] _]; [by eapply list_elem_of_lookup_2|].
    rewrite Hn in Hu. by replace n with (Update_ReplaceFrom u + Z.of_nat (Z.to_nat (n - Update_ReplaceFrom u))) by lia.
  - case_decide; [|done]. apply Hm. eauto.
Qed.

Lemma apply_update_cloned m u :
  all_cloned m -> contiguous u -> all_cloned (apply_update m (normalized cloneBundle u)).
Proof.
  intros Hm Hc n b Hb.
  rewrite apply_update_lookup in Hb by (apply normalized_contiguous; [done|done]).
  case_decide.
  - apply list_lookup_fmap_Some in Hb as (c & -> & _). apply cloneBundle_idem.
  - case_decide; [eauto|done].
Qed.

Lemma normalized_typed u : Update_typed u -> Update_typed (normalized cloneBundle u).
Proof.
  intros (? & ? & ? & Hbs). split_and!; try done. simpl. rewrite Forall_fmap.
  eapply Forall_impl; [done|]. intros b (Hb & Htx & Hev). split_and!; simpl.
  - by rewrite cloneBlock_id.
  - rewrite Forall_fmap. eapply Forall_impl; [done|]. by intros t.
  - rewrite Forall_fmap. eapply Forall_impl; [done|]. by intros e.
Qed.

Lemma apply_update_typed m u n b :
  (forall k c, m !! k = Some c -> Bundle_typed c) -> Update_typed u -> contiguous u ->
  apply_update m u !! n = Some b -> Bundle_typed b.
Proof.
  intros Hm (_ & _ & _ & Hbs) Hc Hb. rewrite apply_update_lookup in Hb by done.
  rewrite Forall_lookup in Hbs. case_decide; [eauto|]. case_decide; [eauto|done].
Qed.

Section Apply.
Context `{GoRuntime}.

Lemma check_ctx_Ok c u : check_ctx c = Ok u <-> c = CtxOpen.
Proof. destruct c, u; simpl; naive_solver. Qed.

(** The new segment, when the update is accepted. *)
Definition segment_after (u : CanonicalUpdate) (m : Memory) : bundle_map :=
apply_update (mem_bundles m) (normalized cloneBundle u).

Record accepted (u : CanonicalUpdate) (m : Memory) : Prop := {
acc_chain : Update_ChainID u <> 0;
acc_range : Update_RetainFrom u <= Update_ReplaceFrom u;
acc_contiguous : contiguous u;
acc_same_chain : mem_chainID m = 0 \/ mem_chainID m = Update_ChainID u;
acc_canonical : canonical (segment_after u m)
}.

Lemma segment_after_keys u m :
mem_ok m -> Update_typed u -> contiguous u -> keys_u64 (segment_after u m).
Proof.
intros Hm Hu Hc. apply apply_update_keys; [apply Hm|by apply normalized_typed|].
by apply normalized_contiguous.
Qed.

Lemma accept_update_Ok c u m m' :
mem_ok m -> Update_typed u ->
accept_update c u m = Ok m' <->
c = CtxOpen /\ accepted u m /\
m' = mkMemory (Update_ChainID u) (segment_after u m) (Update_SyncedAt u).
Proof.
intros Hm Hu. unfold accept_update.
rewrite update_candidate_eq by apply Hm. fold (segment_after u m).
rewrite bind_Ok_iff. setoid_rewrite check_ctx_Ok. setoid_rewrite bind_reject_iff.
setoid_rewrite bind_reject_iff. setoid_rewrite bind_Ok_iff. setoid_rewrite bind_reject_iff.
setoid_rewrite bind_Ok_iff. setoid_rewrite Z.eqb_neq. setoid_rewrite Z.ltb_ge. split.
- intros ([] & -> & Hid & Hr & [] & Hrep & Hch & [] & Hval & [= <-]).
  apply validateReplacement_contiguous in Hrep; [|done].
  split_and!; [done| |done]. split; try done.
  + apply andb_false_iff in Hch as [Hch|Hch]; bool_iff in Hch; auto.
  + by apply validateCanonicalBundles_canonical, Hval; apply segment_after_keys.
- intros (-> & [Hid Hr Hc Hch Hcan] & ->). exists tt. split_and!; [done..|].
  exists tt. split; [by apply validateReplacement_contiguous|]. split.
  { apply andb_false_iff. bool_iff. tauto. }
  exists tt. split; [|done]. apply validateCanonicalBundles_canonical; [|done].
  by apply segment_after_keys.
Qed.

Lemma accept_update_errs c u m : returns (accept_update c u m).
Proof.
assert (Hr : errs_in (fun e => is_invalid_update e \/ ctx_Err c = Some e) (accept_update c u m)).
{ unfold accept_update. apply errs_in_bind; [destruct c; simpl; auto|intros _ _].
  apply (errs_in_mono is_invalid_update); [|auto]. auto 14 with go_errs. }
eapply errs_in_mono; [exact Hr|done].
Qed.

Lemma accepted_ok u m :
mem_ok m -> Update_typed u -> accepted u m ->
mem_ok (mkMemory (Update_ChainID u) (segment_after u m) (Update_SyncedAt u)).
Proof.
intros Hm Hu Ha. split; simpl.
- apply Ha.
- apply segment_after_keys; [done|done|apply Ha].
- apply apply_update_cloned; [apply Hm|apply Ha].
- intros n b. apply apply_update_typed; [apply Hm|by apply normalized_typed|].
  apply normalized_contiguous; [done|apply Ha].
Qed.
End Apply.
