(* ===== verification/MemoryStore.v ===== *)
(** * The in-memory store implements the store contract

    What [ApplyCanonicalUpdate] does on every branch, the invariant of every
    reachable state, and the instance of the [IndexStore] interface. *)
From S2P Require Import Prelude Errors Domain Validate Store Fixtures Memory.
From stdpp Require Import prelude gmap list strings.
From Stdlib Require Import ZArith Lia.

Local Open Scope Z_scope.

(** ** The store as an [IndexStore]

    The world of the interface is the store together with the states the context
    takes at the successive calls. *)
Record MemoryWorld := mkMemoryWorld {
  mw_store : Memory;
  mw_ctx : nat -> ctx_state;
  mw_calls : nat
}.

Definition mw_now (w : MemoryWorld) : ctx_state := mw_ctx w (mw_calls w).
Definition mw_next (w : MemoryWorld) (m : Memory) : MemoryWorld :=
  mkMemoryWorld m (mw_ctx w) (S (mw_calls w)).

Section Instance.
Context `{GoRuntime}.

#[global] Instance memory_index_store : IndexStore MemoryWorld := {|
CanonicalTip w := (Memory_CanonicalTip (mw_now w) (mw_store w), mw_next w (mw_store w));
CanonicalHash n w := (Memory_CanonicalHash (mw_now w) n (mw_store w), mw_next w (mw_store w));
ApplyCanonicalUpdate u w :=
  let '(r, m') := Memory_ApplyCanonicalUpdate (mw_now w) u (mw_store w) in (r, mw_next w m')
|}.

Lemma Memory_CanonicalTip_spec c m :
returns (Memory_CanonicalTip c m) /\
forall t, Memory_CanonicalTip c m = Ok t -> is_tip (mem_bundles m) t.
Proof.
unfold Memory_CanonicalTip, highestBundle. pose proof (highestNumber_spec (mem_bundles m)) as Hh.
destruct (highestNumber (mem_bundles m)) as [h|]; destruct c; simpl; split; try done.
- intros t [= <-]. destruct Hh as [[b Hb] Hmax]. exists b. simpl. by rewrite Hb.
- by intros t [= <-].
Qed.

Lemma Memory_CanonicalHash_spec c n m :
returns (Memory_CanonicalHash c n m) /\
(forall h, Memory_CanonicalHash c n m = Ok h ->
   exists b, mem_bundles m !! n = Some b /\ bundle_hash b = h) /\
(forall e, Memory_CanonicalHash c n m = Err e ->
   errors_Is e (StoreSentinel StoreErrNotFound) = true -> mem_bundles m !! n = None).
Proof.
unfold Memory_CanonicalHash.
destruct (mem_bundles m !! n) as [b|]; destruct c; simpl; split_and!; try done.
- intros h [= <-]. eauto.
- by intros e [= <-].
- by intros e [= <-].
Qed.

Lemma Memory_ApplyCanonicalUpdate_spec c u m :
mem_ok m -> Update_typed u ->
let '(r, m') := Memory_ApplyCanonicalUpdate c u m in
mem_ok m' /\
((c = CtxOpen /\ accepted u m) /\ r = Ok tt /\
   m' = mkMemory (Update_ChainID u) (segment_after u m) (Update_SyncedAt u) \/
 ~ (c = CtxOpen /\ accepted u m) /\ (exists e, r = Err e) /\ m' = m).
Proof.
intros Hm Hu. unfold Memory_ApplyCanonicalUpdate.
pose proof (accept_update_errs c u m) as Hr.
destruct (accept_update c u m) as [m'|e| |] eqn:E; try done.
- apply accept_update_Ok in E as (-> & Ha & ->); [|done..].
  split; [by apply accepted_ok|]. by left.
- split; [done|]. right. split_and!; [|by eauto|done].
  intros [-> Ha]. assert (Hok : accept_update CtxOpen u m = Ok _)
    by (apply accept_update_Ok; [done|done|split_and!; [done|exact Ha|reflexivity]]).
  congruence.
Qed.

#[global] Program Instance memory_store_laws : IndexStoreLaws MemoryWorld := {|
view w := mem_bundles (mw_store w);
store_ok w := mem_ok (mw_store w);
stored_as := cloneBundle
|}.
Next Obligation. done. Qed.
Next Obligation. done. Qed.
Next Obligation. done. Qed.
Next Obligation. intros s [? ? ? ?]. done. Qed.
Next Obligation.
intros s Hs. destruct (Memory_CanonicalTip_spec (mw_now s) (mw_store s)). by split_and!.
Qed.
Next Obligation.
intros n s Hs. destruct (Memory_CanonicalHash_spec (mw_now s) n (mw_store s)) as (? & ? & ?).
by split_and!.
Qed.
Next Obligation.
intros u s Hs Hu. pose proof (Memory_ApplyCanonicalUpdate_spec (mw_now s) u (mw_store s) Hs Hu) as Ha.
unfold wp; simpl. destruct (Memory_ApplyCanonicalUpdate _ u (mw_store s)) as [r m'].
destruct Ha as [Hok [([_ Ha] & -> & ->)|(_ & [e ->] & ->)]]; simpl in *.
- split_and!; [done|done| |done]. intros _. split_and!; [apply Ha|apply Ha|done].
- by split_and!.
Qed.
End Instance.

(** ** Reachable states *)

Inductive memory_reachable `{GoRuntime} : Memory -> Prop :=
| reach_new : memory_reachable NewMemory
| reach_apply c u m :
    memory_reachable m -> Update_typed u ->
    memory_reachable (Memory_ApplyCanonicalUpdate c u m).2.

Lemma memory_reachable_mem_ok `{GoRuntime} m : memory_reachable m -> mem_ok m.
Proof.
  induction 1 as [|c u m _ IH Hu]; [apply NewMemory_ok|].
  pose proof (Memory_ApplyCanonicalUpdate_spec c u m IH Hu) as Ha.
  destruct (Memory_ApplyCanonicalUpdate c u m). by destruct Ha.
Qed.

(** ** Properties *)

(** A store holding blocks 10 to 12, built by one update. *)
Definition fixture_update : CanonicalUpdate := chain_update 10 10 [block10; block11; block12].
Definition fixture_memory : Memory :=
  (Memory_ApplyCanonicalUpdate (H := reference_runtime) CtxOpen fixture_update NewMemory).2.
(** The fork of blocks 12 and 13, pruning block 10. *)
Definition fork_update : CanonicalUpdate := chain_update 12 11 [fork12; fork13].

Lemma fixture_update_typed : Update_typed fixture_update.
Proof. apply chain_update_typed; [done|done|]. fixtures_typed. Qed.
Lemma fork_update_typed : Update_typed fork_update.
Proof. apply chain_update_typed; [done|done|]. fixtures_typed. Qed.
Lemma fixture_memory_reachable : memory_reachable (H := reference_runtime) fixture_memory.
Proof. apply reach_apply; [apply reach_new|apply fixture_update_typed]. Qed.
Lemma fixture_memory_ok : mem_ok fixture_memory.
Proof. apply (memory_reachable_mem_ok (H := reference_runtime)), fixture_memory_reachable. Qed.

Section Properties.
Context `{GoRuntime}.

(** C9: [ApplyCanonicalUpdate] of the in-memory store, on every branch.  With an
  open context, an update whose chain ID is set and matches the store, whose
  range is ordered, whose blocks count up from [ReplaceFrom] and whose result is
  one canonical chain is accepted: the state becomes exactly that segment, with
  the update's chain ID and time.  Every other update returns an error and
  leaves the state as it was. *)
Theorem memory_apply_correct c u m :
mem_ok m -> Update_typed u ->
let '(r, m') := Memory_ApplyCanonicalUpdate c u m in
mem_ok m' /\
((c = CtxOpen /\ accepted u m) /\ r = Ok tt /\
   m' = mkMemory (Update_ChainID u) (segment_after u m) (Update_SyncedAt u) \/
 ~ (c = CtxOpen /\ accepted u m) /\ (exists e, r = Err e) /\ m' = m).
Proof. apply Memory_ApplyCanonicalUpdate_spec. Qed.

(** After a successful update the block stored at a number is the update's
  block when the number is in the replaced range, the previously stored block
  when the number is retained below it, and nothing otherwise: the old fork and
  the pruned blocks are gone. *)
Theorem memory_apply_lookup c u m m' n :
mem_ok m -> Update_typed u -> Memory_ApplyCanonicalUpdate c u m = (Ok tt, m') ->
mem_bundles m' !! n =
  if decide (Update_ReplaceFrom u <= n < Update_ReplaceFrom u + Z.of_nat (length (Update_Blocks u)))
  then cloneBundle <$> Update_Blocks u !! Z.to_nat (n - Update_ReplaceFrom u)
  else if decide (Update_RetainFrom u <= n < Update_ReplaceFrom u)
  then mem_bundles m !! n else None.
Proof.
intros Hm Hu E. pose proof (Memory_ApplyCanonicalUpdate_spec c u m Hm Hu) as Ha. rewrite E in Ha.
destruct Ha as [_ [([_ Ha] & _ & ->)|(_ & [e ?] & _)]]; [|done].
unfold segment_after. simpl mem_bundles.
rewrite apply_update_lookup by (apply normalized_contiguous; [done|apply Ha]).
simpl. rewrite length_fmap, list_lookup_fmap. done.
Qed.

(** C33: Whatever updates a new in-memory store receives, and whatever the
  contexts do, the blocks it holds always form one parent-linked chain without
  gaps, keyed by block number, with consistent transactions and logs and no
  transaction stored twice. *)
Theorem memory_reachable_canonical m : memory_reachable m -> canonical (mem_bundles m).
Proof. intros Hr%memory_reachable_mem_ok. apply Hr. Qed.

(** [CanonicalTip] returns nothing for an empty store and otherwise the
  highest block with its hash, in whatever order the map is visited. *)
Theorem memory_tip_is_highest m :
match Memory_CanonicalTip CtxOpen m with
| Ok tip => is_tip (mem_bundles m) tip
| _ => False
end.
Proof.
destruct (Memory_CanonicalTip_spec CtxOpen m) as [Hr Ht].
assert (Hok : exists t, Memory_CanonicalTip CtxOpen m = Ok t)
  by (unfold Memory_CanonicalTip; simpl; destruct (highestBundle _) as [[]|]; eauto).
destruct Hok as [t Hok]. rewrite Hok. auto.
Qed.
End Properties.

Lemma memory_apply_correct_witness :
  let '(r, m') := Memory_ApplyCanonicalUpdate (H := reference_runtime) CtxOpen fork_update fixture_memory in
  mem_ok m' /\
  ((CtxOpen = CtxOpen /\ accepted fork_update fixture_memory) /\ r = Ok tt /\
     m' = mkMemory 1 (segment_after fork_update fixture_memory) (time_of 9) \/
   ~ (CtxOpen = CtxOpen /\ accepted fork_update fixture_memory) /\ (exists e, r = Err e) /\ m' = fixture_memory).
Proof.
  apply (memory_apply_correct (H := reference_runtime) CtxOpen fork_update fixture_memory
    fixture_memory_ok fork_update_typed).
Defined.

Lemma memory_apply_lookup_witness :
  mem_bundles (Memory_ApplyCanonicalUpdate (H := reference_runtime) CtxOpen fork_update fixture_memory).2
    !! 12 = Some (cloneBundle fork12).
Proof.
  rewrite (memory_apply_lookup (H := reference_runtime) CtxOpen fork_update fixture_memory
    (Memory_ApplyCanonicalUpdate (H := reference_runtime) CtxOpen fork_update fixture_memory).2 12
    fixture_memory_ok fork_update_typed); [reflexivity|].
  assert (Hr : (Memory_ApplyCanonicalUpdate (H := reference_runtime) CtxOpen fork_update fixture_memory).1
    = Ok tt) by (vm_compute; reflexivity).
  rewrite <- Hr. apply surjective_pairing.
Defined.

Lemma memory_reachable_canonical_witness : canonical (mem_bundles fixture_memory).
Proof.
  apply (memory_reachable_canonical (H := reference_runtime) fixture_memory fixture_memory_reachable).
Defined.

Definition two_blocks : bundle_map := <[11 := block11]> {[ 10 := block10 ]}.

Lemma two_blocks_keys : keys_u64 two_blocks.
Proof.
  unfold two_blocks. intros n [b Hb]. apply lookup_insert_Some in Hb as [[<- _]|[_ [<- _]%lookup_singleton_Some]]; done.
Qed.

Lemma validate_decides_canonical_witness : canonical two_blocks.
Proof.
  apply (validate_decides_canonical (H := reference_runtime) two_blocks two_blocks_keys).
  vm_compute. reflexivity.
Defined.
