(* ===== verification/MemoryQueries.v ===== *)
(** * Queries of the in-memory store

    [BlockByNumber], [TransactionByHash] and [EventsByAddress] against the
    canonical segment: what they return, that they agree with each other, and
    that following the page cursors enumerates every event exactly once. *)
From S2P Require Import Prelude Errors Domain Validate Store Fixtures Memory MemoryStore.
From stdpp Require Import prelude gmap sorting list strings.
From Stdlib Require Import ZArith Lia.

Local Open Scope Z_scope.

(** ** Orders on events *)

(** Position order, as a proposition. *)
Definition newer (x y : Event) : Prop :=
  Event_BlockNumber y < Event_BlockNumber x \/
  Event_BlockNumber y = Event_BlockNumber x /\ Event_LogIndex y < Event_LogIndex x.

Lemma newest_first_newer x y : newest_first x y = true <-> newer x y.
Proof.
  unfold newest_first, newer. destruct (Z.eqb_spec (Event_BlockNumber x) (Event_BlockNumber y)); simpl;
    rewrite Z.ltb_lt; lia.
Qed.

Lemma newest_first_not_newer x y : newest_first x y = false <-> ~ newer x y.
Proof. rewrite <- newest_first_newer. by destruct (newest_first x y). Qed.

Lemma newest_first_strict_weak : StrictWeak newest_first.
Proof.
  split.
  - intros x. rewrite newest_first_not_newer. unfold newer. lia.
  - intros x y z. rewrite !newest_first_newer. unfold newer. lia.
  - intros x y z. rewrite !newest_first_newer. unfold newer. lia.
Qed.

(** ** Events of a segment *)

Definition event_of (m : bundle_map) (e : Event) : Prop :=
  exists n b, m !! n = Some b /\ e ∈ Bundle_Events b.

Section Events.
Context `{GoRuntime} (m : bundle_map).
Hypothesis Hcan : canonical m.
Hypothesis Hcloned : all_cloned m.

Lemma stored_event_cloned n b e : m !! n = Some b -> e ∈ Bundle_Events b -> cloneEvent e = e.
Proof.
intros Hb He. pose proof (Hcloned n b Hb) as Hc.
apply (f_equal Bundle_Events) in Hc. simpl in Hc.
apply list_elem_of_lookup in He as [i Hi].
assert (Hi' : (cloneEvent <$> Bundle_Events b) !! i = Some (cloneEvent e))
  by (rewrite list_lookup_fmap, Hi; done).
rewrite Hc in Hi'. congruence.
Qed.

Lemma stored_transaction_cloned n b t :
m !! n = Some b -> t ∈ Bundle_Transactions b -> cloneTransaction t = t.
Proof.
intros Hb Ht. pose proof (Hcloned n b Hb) as Hc.
apply (f_equal Bundle_Transactions) in Hc. simpl in Hc.
apply list_elem_of_lookup in Ht as [i Hi].
assert (Hi' : (cloneTransaction <$> Bundle_Transactions b) !! i = Some (cloneTransaction t))
  by (rewrite list_lookup_fmap, Hi; done).
rewrite Hc in Hi'. congruence.
Qed.

(** The block an event names is the block that holds it. *)
Lemma event_block n b e :
m !! n = Some b -> e ∈ Bundle_Events b -> Event_BlockNumber e = n /\ Event_BlockHash e = bundle_hash b.
Proof.
intros Hb He. destruct (bv_event _ (can_valid _ Hcan n b Hb) e He) as (Hn & Hh & _).
by rewrite (can_key _ Hcan n b Hb) in Hn.
Qed.

Lemma event_position_inj x y :
event_of m x -> event_of m y ->
Event_BlockNumber x = Event_BlockNumber y -> Event_LogIndex x = Event_LogIndex y -> x = y.
Proof.
intros (n & b & Hb & Hx) (n' & b' & Hb' & Hy) Hn Hl.
destruct (event_block n b x Hb Hx) as [Hxn _], (event_block n' b' y Hb' Hy) as [Hyn _].
assert (n = n') as <- by congruence. rewrite Hb in Hb'. simplify_eq.
eapply (NoDup_fmap_inj_on Event_LogIndex); [|exact Hx|exact Hy|done].
apply bv_logs. by eapply can_valid.
Qed.

Lemma elem_of_collect q e :
e ∈ collect_events q (go_range m) <->
event_of m e /\ Event_Address e = Query_Address q /\ eventBeforeCursor e (Query_Before q) = true.
Proof.
unfold collect_events. rewrite list_elem_of_bind. split.
- intros ([n b] & He & Hin%elem_of_go_range).
  apply list_elem_of_bind in He as (x & He & Hx).
  destruct (_ || _) eqn:Hg; [by apply elem_of_nil in He|].
  apply list_elem_of_singleton in He as ->.
  rewrite (stored_event_cloned n b x Hin Hx). bool_iff in Hg. destruct Hg.
  split_and!; try done. exists n, b. done.
- intros ((n & b & Hb & He) & Ha & Hc). exists (n, b). split; [|by apply elem_of_go_range].
  apply list_elem_of_bind. exists e. split; [|done].
  rewrite Ha, Hc, bool_decide_true by done. simpl.
  rewrite (stored_event_cloned n b e Hb He). by apply list_elem_of_singleton.
Qed.

Lemma NoDup_collect q : NoDup (collect_events q (go_range m)).
Proof.
unfold collect_events. apply NoDup_bind.
- intros [n b] [n' b'] y Hb%elem_of_go_range Hb'%elem_of_go_range Hy Hy'.
  assert (Hev : forall n b, m !! n = Some b ->
    y ∈ (event ← Bundle_Events b;
         if negb (bool_decide (Event_Address event = Query_Address q)) ||
            negb (eventBeforeCursor event (Query_Before q)) then [] else [cloneEvent event]) ->
    Event_BlockNumber y = n).
  { intros k c Hc Hin. apply list_elem_of_bind in Hin as (x & Hx & Hin).
    destruct (_ || _); [by apply elem_of_nil in Hx|]. apply list_elem_of_singleton in Hx as ->.
    by apply (event_block k c x Hc Hin). }
  assert (n = n') by (rewrite <- (Hev n b Hb Hy); by apply Hev with (b := b')). congruence.
- intros [n b] Hb%elem_of_go_range. apply NoDup_bind.
  + intros x y z Hx Hy Hxz Hyz.
    destruct (_ || _) in Hxz; [by apply elem_of_nil in Hxz|].
    destruct (_ || _) in Hyz; [by apply elem_of_nil in Hyz|].
    apply list_elem_of_singleton in Hxz, Hyz.
    rewrite (stored_event_cloned n b x Hb Hx) in Hxz.
    rewrite (stored_event_cloned n b y Hb Hy) in Hyz. congruence.
  + intros x _. destruct (_ || _); [constructor|apply NoDup_singleton].
  + eapply NoDup_fmap_1, bv_logs. by eapply can_valid.
- eapply NoDup_fmap_1, NoDup_go_range_keys.
Qed.
End Events.

(** ** The events of an address, newest first *)

Definition newest_events (m : bundle_map) (addr : Address) (l : list Event) : Prop :=
  StronglySorted newer l /\ forall e, e ∈ l <-> event_of m e /\ Event_Address e = addr.

Lemma newer_sorted_NoDup l : StronglySorted newer l -> NoDup l.
Proof.
  induction 1 as [|a l Hs IH Ha]; constructor; [|done].
  intros Hin. rewrite list.Forall_forall in Ha. specialize (Ha a Hin). unfold newer in Ha. lia.
Qed.

(** The event lies strictly before the cursor's position: in a lower block, or
    in the same block at a lower log index; every event lies before no cursor. *)
Definition before (c : option EventCursor) (e : Event) : Prop :=
  match c with
  | None => True
  | Some c =>
      Event_BlockNumber e < Cursor_BlockNumber c \/
      (Event_BlockNumber e = Cursor_BlockNumber c /\ Event_LogIndex e < Cursor_LogIndex c)
  end.
#[global] Instance before_dec c e : Decision (before c e).
Proof. destruct c; simpl; apply _. Defined.

Lemma eventBeforeCursor_before e c : eventBeforeCursor e c = true <-> before c e.
Proof.
  unfold eventBeforeCursor, before. destruct c as [c|]; [|done].
  destruct (Z.eqb_spec (Event_BlockNumber e) (Cursor_BlockNumber c)); simpl; rewrite Z.ltb_lt; lia.
Qed.

Lemma before_at e x : before (Some (cursor_at x)) e <-> newer x e.
Proof. unfold before, newer, cursor_at. simpl. lia. Qed.

Lemma filter_before_sorted l i x :
  StronglySorted newer l -> l !! i = Some x -> filter (before (Some (cursor_at x))) l = drop (S i) l.
Proof.
  intros Hs Hi. rewrite <- (take_drop_middle l i x Hi) in Hs |- *.
  assert (Hlen : length (take i l) = i) by (rewrite length_take; apply lookup_lt_Some in Hi; lia).
  rewrite drop_app, Hlen, (drop_ge (take i l)) by lia.
  replace (S i - i)%nat with 1%nat by lia. simpl.
  apply StronglySorted_app in Hs as (Hcross & _ & [Hx Hs]%StronglySorted_cons).
  rewrite list.Forall_forall in Hx.
  pose proof (fun e => before_at e x) as Hb.
  rewrite filter_app, filter_cons_False by (rewrite Hb; unfold newer; lia).
  assert (filter (before (Some (cursor_at x))) (take i l) = []) as ->.
  { apply filter_none. intros e He. rewrite Hb.
    specialize (Hcross e x He ltac:(left)). unfold newer in *. lia. }
  simpl. apply filter_all. intros e He. rewrite Hb. by apply Hx.
Qed.

(** ** One page *)

Definition page_of (limit : Z) (l : list Event) : EventPage :=
  if limit =? 0 then mkPage [] None
  else if Z.of_nat (length l) <=? limit then mkPage l None
  else mkPage (take (Z.to_nat limit) l) (cursor_at <$> l !! (Z.to_nat limit - 1)%nat).

Lemma cut_page_page_of limit l : 0 <= limit -> cut_page limit l = Ok (page_of limit l).
Proof.
  intros Hlim. unfold cut_page, page_of.
  destruct (Z.eqb_spec limit 0); [done|]. simpl.
  destruct (Z.eqb_spec (Z.of_nat (length l)) 0) as [Hz|Hz].
  { destruct l; [|done]. rewrite (proj2 (Z.leb_le _ _)) by (simpl; lia). done. }
  destruct (Z.leb_spec (Z.of_nat (length l)) limit) as [|Hlen]; [done|].
  rewrite length_take, Nat.min_l, lookup_take_lt by lia.
  destruct (l !! _) as [x|] eqn:E; [done|]. apply lookup_ge_None in E. lia.
Qed.

Section Pages.
Context `{GoRuntime} (m : Memory).
Hypothesis Hok : mem_ok m.

Lemma sorted_collect q l :
newest_events (mem_bundles m) (Query_Address q) l ->
go_sort newest_first (collect_events q (go_range (mem_bundles m))) = filter (before (Query_Before q)) l.
Proof.
intros [Hs Hl]. pose proof (mem_canonical _ Hok) as Hcan. pose proof (mem_cloned _ Hok) as Hcl.
apply go_sort_eq; [apply newest_first_strict_weak| | |].
- apply NoDup_Permutation; [by apply NoDup_collect|by apply NoDup_filter, newer_sorted_NoDup|].
  intros e. rewrite elem_of_collect, list_elem_of_filter, Hl, eventBeforeCursor_before by done. tauto.
- apply StronglySorted_filter. eapply StronglySorted_impl; [|exact Hs].
  intros x y Hxy. apply newest_first_not_newer. unfold newer in *. lia.
- intros x y Hx Hy. rewrite !newest_first_not_newer. intros Hxy Hyx.
  apply elem_of_collect in Hx as (Hx & _), Hy as (Hy & _); [|done..].
  eapply event_position_inj; [done..| |]; unfold newer in *; lia.
Qed.

(** The list of the specification exists: it is what the first page is cut from. *)
Definition address_events (addr : Address) : list Event :=
go_sort newest_first (collect_events (mkQuery addr 0 None) (go_range (mem_bundles m))).

Lemma address_events_newest addr : newest_events (mem_bundles m) addr (address_events addr).
Proof.
pose proof (mem_canonical _ Hok) as Hcan. pose proof (mem_cloned _ Hok) as Hcl.
assert (Hin : forall e, e ∈ address_events addr <-> event_of (mem_bundles m) e /\ Event_Address e = addr).
{ intros e. unfold address_events. rewrite elem_of_go_sort, elem_of_collect by done.
  simpl. tauto. }
split; [|done]. revert Hin. unfold address_events.
assert (Hnd : NoDup (go_sort newest_first (collect_events (mkQuery addr 0 None) (go_range (mem_bundles m)))))
  by (rewrite go_sort_perm; by apply NoDup_collect).
pose proof (go_sort_sorted newest_first (collect_events (mkQuery addr 0 None) (go_range (mem_bundles m)))
  newest_first_strict_weak) as Hs. intros Hin.
assert (Hev : forall e, e ∈ go_sort newest_first (collect_events (mkQuery addr 0 None) (go_range (mem_bundles m))) ->
  event_of (mem_bundles m) e) by (intros e He; by apply Hin). clear Hin. revert Hnd Hev.
induction Hs as [|a l Hs IH Ha]; [constructor|]. rewrite NoDup_cons, forall_elem_cons.
intros [Hna Hnd] [Hae Hle]. constructor; [auto|]. rewrite list.Forall_forall in *.
intros x Hx. specialize (Ha x Hx). apply newest_first_not_newer in Ha.
assert (Hpos : ~ (Event_BlockNumber x = Event_BlockNumber a /\ Event_LogIndex x = Event_LogIndex a)).
{ intros [? ?]. apply Hna. replace a with x; [done|]. eapply event_position_inj; eauto. }
unfold newer in *. lia.
Qed.

(** The cursor names a stored block with the same hash. *)
Definition fresh_cursor (c : option EventCursor) : Prop :=
match c with
| None => True
| Some c => exists b, mem_bundles m !! Cursor_BlockNumber c = Some b /\ bundle_hash b = Cursor_BlockHash c
end.

Lemma events_page q l :
newest_events (mem_bundles m) (Query_Address q) l ->
0 <= Query_Limit q <= MaxEventPageSize -> fresh_cursor (Query_Before q) ->
Memory_EventsByAddress CtxOpen q m = Ok (page_of (Query_Limit q) (filter (before (Query_Before q)) l)).
Proof.
intros Hl Hlim Hc. unfold Memory_EventsByAddress. simpl.
rewrite (proj2 (Z.ltb_ge _ _)) by lia. simpl.
rewrite (sorted_collect q l Hl). destruct (Query_Before q) as [c|]; simpl.
- destruct Hc as (b & -> & ->). rewrite bool_decide_true by done. simpl.
  apply cut_page_page_of. lia.
- apply cut_page_page_of. lia.
Qed.

Lemma decide_fresh c : fresh_cursor c \/ ~ fresh_cursor c.
Proof.
destruct c as [c|]; [|by left]. simpl.
destruct (mem_bundles m !! Cursor_BlockNumber c) as [b|]; [|right; by intros (? & ? & _)].
destruct (decide (bundle_hash b = Cursor_BlockHash c)); [left; eauto|right; by intros (? & [= <-] & ?)].
Qed.

Lemma stale_page q :
Query_Limit q <= MaxEventPageSize -> ~ fresh_cursor (Query_Before q) ->
Memory_EventsByAddress CtxOpen q m = Err (store_err StoreErrStaleCursor).
Proof.
intros Hlim Hf. unfold Memory_EventsByAddress. simpl. rewrite (proj2 (Z.ltb_ge _ _)) by lia. simpl.
destruct (Query_Before q) as [c|]; [|by destruct Hf]. simpl in Hf.
destruct (mem_bundles m !! Cursor_BlockNumber c) as [b|]; [|done].
rewrite bool_decide_false; [done|]. intros Hh. destruct Hf. eauto.
Qed.

Lemma event_cursor_fresh e : event_of (mem_bundles m) e -> fresh_cursor (Some (cursor_at e)).
Proof.
intros (n & b & Hb & He). destruct (event_block _ (mem_canonical _ Hok) n b e Hb He) as [Hn Hh].
exists b. simpl. by rewrite Hn, Hh.
Qed.

(** A client that follows [NextCursor] until it is absent. *)
Fixpoint paginate (fuel : nat) (addr : Address) (limit : Z) (c : option EventCursor) : result (list Event) :=
match fuel with
| O => OutOfFuel
| S fuel =>
    page ← Memory_EventsByAddress CtxOpen (mkQuery addr limit c) m;
    match Page_NextCursor page with
    | None => Ok (Page_Events page)
    | Some next => rest ← paginate fuel addr limit (Some next); Ok (Page_Events page ++ rest)
    end
end.

Lemma paginate_rest addr l limit :
newest_events (mem_bundles m) addr l -> 0 < limit <= MaxEventPageSize ->
forall fuel c, fresh_cursor c -> (length (filter (before c) l) < fuel)%nat ->
  paginate fuel addr limit c = Ok (filter (before c) l).
Proof.
intros Hl Hlim. induction fuel as [|fuel IH]; intros c Hc Hlen; [lia|].
cbn [paginate]. rewrite (events_page (mkQuery addr limit c) l) by (done || simpl; lia).
simpl. unfold page_of.
destruct (Z.eqb_spec limit 0); [lia|]. destruct (Z.leb_spec (Z.of_nat (length (filter (before c) l))) limit) as [|Hlt]; [done|].
destruct (filter (before c) l !! (Z.to_nat limit - 1)%nat) as [x|] eqn:Hx;
  [|apply lookup_ge_None in Hx; lia].
simpl. destruct Hl as [Hs Hl].
assert (Hxin : x ∈ filter (before c) l) by by eapply list_elem_of_lookup_2.
apply list_elem_of_filter in Hxin as [Hbx [Hxev _]%Hl].
assert (Hrest : filter (before (Some (cursor_at x))) l = drop (Z.to_nat limit) (filter (before c) l)).
{ replace (Z.to_nat limit) with (S (Z.to_nat limit - 1)) by lia.
  rewrite <- (filter_before_sorted (filter (before c) l) _ x); [|by apply StronglySorted_filter|done].
  symmetry. apply list_filter_filter_l. intros e He.
  apply before_at in He. destruct c as [c|]; [|done]. unfold newer in *; simpl in *. lia. }
rewrite IH; [simpl; by rewrite Hrest, take_drop|by apply event_cursor_fresh|].
rewrite Hrest, length_drop. lia.
Qed.
End Pages.

(** ** Transaction lookup *)

Section Transactions.
Context `{GoRuntime}.

Definition transaction_result (hash : Hash) (b : BlockBundle) (t : Transaction) : TransactionResult :=
mkTransactionResult (cloneTransaction t)
  (go_sort log_index_less
     (cloneEvent <$> filter (fun e => Event_TransactionHash e = hash) (Bundle_Events b))).

Lemma find_transaction_spec hash b txs :
match find_transaction hash b txs with
| Some r => exists t, t ∈ txs /\ Transaction_Hash t = hash /\ r = transaction_result hash b t
| None => hash ∉ Transaction_Hash <$> txs
end.
Proof.
induction txs as [|t txs IH]; simpl; [set_solver|]. case_bool_decide as Hne.
- destruct (find_transaction hash b txs) as [r|].
  + destruct IH as (t' & Ht' & ?). exists t'. split; [by right|done].
  + set_solver.
- exists t. split_and!; [left|by destruct (decide (Transaction_Hash t = hash))|done].
Qed.

Lemma find_in_bundles_spec hash entries :
match find_in_bundles hash entries with
| Some r => exists n b t, (n, b) ∈ entries /\ t ∈ Bundle_Transactions b /\
              Transaction_Hash t = hash /\ r = transaction_result hash b t
| None => forall n b, (n, b) ∈ entries -> ~ contains_tx b hash
end.
Proof.
induction entries as [|[n b] entries IH]; simpl; [set_solver|].
pose proof (find_transaction_spec hash b (Bundle_Transactions b)) as Hf.
destruct (find_transaction hash b (Bundle_Transactions b)) as [r|].
- destruct Hf as (t & Ht & Hh & Hr). exists n, b, t. split_and!; [left|done..].
- destruct (find_in_bundles hash entries) as [r|].
  + destruct IH as (n' & b' & t & Hin & ?). exists n', b', t. split; [by right|done].
  + intros n' b' Hin. apply elem_of_cons in Hin as [?|Hin]; [by simplify_eq|by eapply IH].
Qed.

Context (m : Memory).
Hypothesis Hok : mem_ok m.

Lemma event_contains n b e :
mem_bundles m !! n = Some b -> e ∈ Bundle_Events b -> contains_tx b (Event_TransactionHash e).
Proof.
intros Hb He.
destruct (bv_event _ (can_valid _ (mem_canonical _ Hok) n b Hb) e He) as (_ & _ & _ & t & Ht & <- & _).
by apply list_elem_of_fmap_2.
Qed.

Lemma transaction_events n b t hash :
mem_bundles m !! n = Some b -> t ∈ Bundle_Transactions b -> Transaction_Hash t = hash ->
let events := TransactionResult_Events (transaction_result hash b t) in
StronglySorted (fun x y => Event_LogIndex x < Event_LogIndex y) events /\
(forall e, e ∈ events <-> event_of (mem_bundles m) e /\ Event_TransactionHash e = hash).
Proof.
intros Hb Ht Hh. simpl. pose proof (mem_canonical _ Hok) as Hcan.
assert (Hmap : cloneEvent <$> filter (fun e => Event_TransactionHash e = hash) (Bundle_Events b)
               = filter (fun e => Event_TransactionHash e = hash) (Bundle_Events b)).
{ rewrite <- list_fmap_id. apply list_fmap_ext. intros i e Hi.
  apply list_elem_of_lookup_2, list_elem_of_filter in Hi as [_ He].
  by eapply stored_event_cloned, He; [apply Hok|]. }
rewrite Hmap. split.
- apply (go_sort_by_key Event_LogIndex).
  eapply sublist_NoDup; [apply (bv_logs b); by eapply can_valid|].
  apply fmap_sublist, sublist_filter.
- intros e. rewrite elem_of_go_sort, list_elem_of_filter. split.
  + intros [? He]. split; [by exists n, b|done].
  + intros [(n' & b' & Hb' & He) Heh]. split; [done|].
    assert (n' = n) as ->.
    { eapply (can_tx _ Hcan n' b' n b hash); [done|done| |].
      - rewrite <- Heh. by eapply event_contains.
      - rewrite <- Hh. by apply list_elem_of_fmap_2. }
    rewrite Hb in Hb'. by simplify_eq.
Qed.

(** A hash names one transaction of one block. *)
Lemma stored_hash_unique n n' b b' t t' :
mem_bundles m !! n = Some b -> mem_bundles m !! n' = Some b' ->
t ∈ Bundle_Transactions b -> t' ∈ Bundle_Transactions b' -> Transaction_Hash t' = Transaction_Hash t ->
n' = n /\ b' = b /\ t' = t.
Proof.
intros Hb Hb' Ht Ht' Hh. pose proof (mem_canonical _ Hok) as Hcan.
assert (n' = n) as ->.
{ eapply (can_tx _ Hcan n' b' n b (Transaction_Hash t)); [done|done| |by apply list_elem_of_fmap_2].
  rewrite <- Hh. by apply list_elem_of_fmap_2. }
rewrite Hb in Hb'. injection Hb' as <-. split_and!; [done|done|].
eapply (NoDup_fmap_inj_on Transaction_Hash); [|done|done|done]. apply bv_hashes. by eapply can_valid.
Qed.

(** Looking up the hash of a stored transaction finds it. *)
Lemma find_stored n b t :
mem_bundles m !! n = Some b -> t ∈ Bundle_Transactions b ->
find_in_bundles (Transaction_Hash t) (go_range (mem_bundles m)) = Some (transaction_result (Transaction_Hash t) b t).
Proof.
intros Hb Ht. pose proof (find_in_bundles_spec (Transaction_Hash t) (go_range (mem_bundles m))) as Hfind.
destruct (find_in_bundles _ _) as [r|].
- destruct Hfind as (n' & b' & t' & Hb'%elem_of_go_range & Ht' & Hh & ->).
  by destruct (stored_hash_unique n n' b b' t t' Hb Hb' Ht Ht' Hh) as (_ & -> & ->).
- destruct (Hfind n b); [by apply elem_of_go_range|]. by apply list_elem_of_fmap_2.
Qed.
End Transactions.

(** The result for a hash is one value whatever the runtime: the block and the
    transaction are unique and the log indexes order the events. *)
Lemma transaction_result_runtime (R1 R2 : GoRuntime) (m : Memory) (Hok : mem_ok m) n n' b b' t t' h :
  mem_bundles m !! n = Some b -> mem_bundles m !! n' = Some b' ->
  t ∈ Bundle_Transactions b -> Transaction_Hash t = h ->
  t' ∈ Bundle_Transactions b' -> Transaction_Hash t' = h ->
  transaction_result (H := R1) h b t = transaction_result (H := R2) h b' t'.
Proof.
  intros Hb Hb' Ht Hh Ht' Hh'.
  destruct (stored_hash_unique m Hok n n' b b' t t' Hb Hb' Ht Ht') as (-> & -> & ->); [congruence|].
  destruct (transaction_events (H := R1) m Hok n b t h Hb Ht Hh) as [Hs1 He1].
  destruct (transaction_events (H := R2) m Hok n b t h Hb Ht Hh) as [Hs2 He2].
  unfold transaction_result in *. simpl in *. f_equal.
  assert (Hnd : forall l, StronglySorted (fun x y => Event_LogIndex x < Event_LogIndex y) l -> NoDup l).
  { induction 1 as [|a l Hs IH Ha]; constructor; [|done]. rewrite list.Forall_forall in Ha.
    intros Hin. specialize (Ha a Hin). lia. }
  eapply (StronglySorted_unique_strong (fun x y => Event_LogIndex x < Event_LogIndex y));
    [lia|done|done|].
  apply NoDup_Permutation; [auto|auto|]. intros e. by rewrite He1, He2.
Qed.

(** ** Properties *)

Section Properties.
Context `{GoRuntime}.

(** C38: [TransactionByHash] returns the one stored transaction with the hash,
  with exactly the stored logs of that transaction, ordered by log index; when
  no stored block contains the hash it returns [ErrNotFound]. *)
Theorem memory_transaction_by_hash_correct m h :
mem_ok m ->
match Memory_TransactionByHash CtxOpen h m with
| Ok r =>
    (exists n b, mem_bundles m !! n = Some b /\
       TransactionResult_Transaction r ∈ Bundle_Transactions b) /\
    Transaction_Hash (TransactionResult_Transaction r) = h /\
    StronglySorted (fun x y => Event_LogIndex x < Event_LogIndex y) (TransactionResult_Events r) /\
    (forall e, e ∈ TransactionResult_Events r <->
       event_of (mem_bundles m) e /\ Event_TransactionHash e = h)
| Err e =>
    e = store_err StoreErrNotFound /\
    forall n b, mem_bundles m !! n = Some b -> ~ contains_tx b h
| _ => False
end.
Proof.
intros Hok. unfold Memory_TransactionByHash. simpl.
pose proof (find_in_bundles_spec h (go_range (mem_bundles m))) as Hf.
destruct (find_in_bundles h _) as [r|].
- destruct Hf as (n & b & t & Hin%elem_of_go_range & Ht & Hh & ->).
  pose proof (transaction_events m Hok n b t h Hin Ht Hh) as [Hs He].
  assert (Hc : cloneTransaction t = t)
    by (eapply stored_transaction_cloned; [apply Hok|done|done]).
  split_and!; [|done..]. exists n, b. split; [done|]. simpl. by rewrite Hc.
- split; [done|]. intros n b Hb. apply (Hf n). by apply elem_of_go_range.
Qed.

(** Block and transaction lookups agree: the block that a found transaction
  names is stored, has the block hash the transaction carries, lists the hash
  at the transaction's index, and its transaction count is the number of
  hashes returned. *)
Theorem memory_block_and_transaction_agree m h r :
mem_ok m -> Memory_TransactionByHash CtxOpen h m = Ok r ->
exists br, Memory_BlockByNumber CtxOpen (Transaction_BlockNumber (TransactionResult_Transaction r)) m = Ok br /\
  Block_Hash (BlockResult_Block br) = Transaction_BlockHash (TransactionResult_Transaction r) /\
  BlockResult_TransactionHashes br
    !! Z.to_nat (Transaction_Index (TransactionResult_Transaction r)) = Some h /\
  Block_TransactionCount (BlockResult_Block br) = Z.of_nat (length (BlockResult_TransactionHashes br)).
Proof.
intros Hok E. unfold Memory_TransactionByHash in E. simpl in E.
pose proof (find_in_bundles_spec h (go_range (mem_bundles m))) as Hf.
destruct (find_in_bundles h _) as [r'|]; [|done]. simplify_eq.
destruct Hf as (n & b & t & Hb%elem_of_go_range & Ht & Hh & ->).
pose proof (can_valid _ (mem_canonical _ Hok) n b Hb) as Hv.
apply list_elem_of_lookup in Ht as [i Hi]. destruct (bv_tx _ Hv i t Hi) as (Hn & Hbh & Hidx).
unfold Memory_BlockByNumber. simpl.
rewrite Hn, (can_key _ (mem_canonical _ Hok) n b Hb), Hb. eexists. split; [done|]. simpl.
rewrite Hidx, Nat2Z.id, list_lookup_fmap, Hi, length_fmap. simpl. rewrite Hh.
split_and!; [done|done|apply Hv].
Qed.

(** C13: [EventsByAddress] returns, on every branch, what its contract says: a
  context that is done gives its error; otherwise a limit above the maximum is
  [ErrInvalidQuery]; a cursor whose block is not stored with that hash is
  [ErrStaleCursor]; and else the page is the first [Limit] events of the address
  strictly before the cursor (in a lower block, or at a lower log index of the
  same block), newest first, with a next cursor exactly when events remain. *)
Theorem memory_events_by_address_correct c q m l :
mem_ok m -> 0 <= Query_Limit q -> newest_events (mem_bundles m) (Query_Address q) l ->
let answer := Memory_EventsByAddress c q m in
match ctx_Err c with
| Some e => answer = Err e
| None =>
    (MaxEventPageSize < Query_Limit q /\
       exists e, answer = Err e /\ errors_Is e (StoreSentinel StoreErrInvalidQuery) = true) \/
    (Query_Limit q <= MaxEventPageSize /\ ~ fresh_cursor m (Query_Before q) /\
       answer = Err (store_err StoreErrStaleCursor)) \/
    (Query_Limit q <= MaxEventPageSize /\ fresh_cursor m (Query_Before q) /\
       answer = Ok (page_of (Query_Limit q) (filter (before (Query_Before q)) l)))
end.
Proof.
intros Hok Hlim Hl answer. subst answer. destruct c; [simpl|done|done].
destruct (Z.lt_ge_cases MaxEventPageSize (Query_Limit q)) as [Hgt|Hle].
{ left. split; [done|]. unfold Memory_EventsByAddress. simpl.
  rewrite (proj2 (Z.ltb_lt _ _)) by done. eauto. }
right. destruct (decide_fresh m (Query_Before q)) as [Hf|Hf].
- right. split_and!; [done|done|]. by apply events_page.
- left. split_and!; [done|done|]. by apply stale_page.
Qed.

(** Following the next cursors from the first page until there is none
  terminates and enumerates every stored event of the address exactly once,
  newest first, for every page size from 1 to the maximum. *)
Theorem memory_pagination_complete m addr l limit fuel :
mem_ok m -> newest_events (mem_bundles m) addr l -> 0 < limit <= MaxEventPageSize ->
(length l < fuel)%nat -> paginate m fuel addr limit None = Ok l.
Proof.
intros Hok Hl Hlim Hfuel.
assert (Hall : filter (before None) l = l) by by apply filter_all.
rewrite (paginate_rest m Hok addr l limit Hl Hlim fuel None); [by rewrite Hall|done|by rewrite Hall].
Qed.
End Properties.

(** The results of the queries do not depend on the order in which the
    runtime visits the map or arranges equal elements while sorting. *)
Theorem memory_queries_runtime_independent (R1 R2 : GoRuntime) m h q l :
  mem_ok m -> 0 <= Query_Limit q -> newest_events (mem_bundles m) (Query_Address q) l ->
  Memory_TransactionByHash (H := R1) CtxOpen h m = Memory_TransactionByHash (H := R2) CtxOpen h m /\
  (fresh_cursor m (Query_Before q) -> Query_Limit q <= MaxEventPageSize ->
   Memory_EventsByAddress (H := R1) CtxOpen q m = Memory_EventsByAddress (H := R2) CtxOpen q m).
Proof.
  intros Hok Hlim Hl. split.
  - unfold Memory_TransactionByHash. simpl.
    pose proof (find_in_bundles_spec (H := R1) h (@go_range R1 _ (mem_bundles m))) as H1.
    pose proof (find_in_bundles_spec (H := R2) h (@go_range R2 _ (mem_bundles m))) as H2.
    destruct (@find_in_bundles R1 h _) as [r1|], (@find_in_bundles R2 h _) as [r2|]; [| | |done].
    + destruct H1 as (n & b & t & Hin & Ht & Hh & ->), H2 as (n' & b' & t' & Hin' & Ht' & Hh' & ->).
      rewrite elem_of_go_range in Hin. rewrite elem_of_go_range in Hin'. f_equal.
      by apply (transaction_result_runtime R1 R2 m Hok n n').
    + destruct H1 as (n & b & t & Hin & Ht & Hh & ->). rewrite elem_of_go_range in Hin.
      destruct (H2 n b); [by apply elem_of_go_range|]. rewrite <- Hh. by apply list_elem_of_fmap_2.
    + destruct H2 as (n & b & t & Hin & Ht & Hh & ->). rewrite elem_of_go_range in Hin.
      destruct (H1 n b); [by apply elem_of_go_range|]. rewrite <- Hh. by apply list_elem_of_fmap_2.
  - intros Hc Hmax. by rewrite !(events_page m Hok q l).
Qed.

(** ** Evaluation on the fixture store *)

Definition fixture_events : list Event :=
  address_events (H := reference_runtime) fixture_memory (address_of 7).

Lemma fixture_events_newest : newest_events (mem_bundles fixture_memory) (address_of 7) fixture_events.
Proof. apply address_events_newest, fixture_memory_ok. Qed.

Lemma memory_transaction_by_hash_witness :
  exists r, Memory_TransactionByHash (H := reference_runtime) CtxOpen (hash_of 111) fixture_memory = Ok r /\
    (Event_LogIndex <$> TransactionResult_Events r) = [0; 1; 2] /\
    forall e, e ∈ TransactionResult_Events r <->
      event_of (mem_bundles fixture_memory) e /\ Event_TransactionHash e = hash_of 111.
Proof.
  pose proof (memory_transaction_by_hash_correct (H := reference_runtime) fixture_memory (hash_of 111)
    fixture_memory_ok) as Hc.
  destruct (Memory_TransactionByHash _ _ _) as [r|e| |] eqn:E; [|vm_compute in E; discriminate|done|done].
  exists r. destruct Hc as (_ & _ & _ & Hc). split_and!; [done| |done].
  vm_compute in E. injection E as <-. reflexivity.
Defined.

Lemma memory_block_and_transaction_agree_witness :
  exists r br, Memory_TransactionByHash (H := reference_runtime) CtxOpen (hash_of 111) fixture_memory = Ok r /\
    Memory_BlockByNumber CtxOpen (Transaction_BlockNumber (TransactionResult_Transaction r)) fixture_memory = Ok br /\
    BlockResult_TransactionHashes br
      !! Z.to_nat (Transaction_Index (TransactionResult_Transaction r)) = Some (hash_of 111).
Proof.
  destruct (Memory_TransactionByHash (H := reference_runtime) CtxOpen (hash_of 111) fixture_memory)
    as [r|e| |] eqn:E; try (vm_compute in E; discriminate).
  destruct (memory_block_and_transaction_agree (H := reference_runtime) fixture_memory (hash_of 111) r
    fixture_memory_ok E) as (br & Hb & _ & Hi & _).
  exists r, br. done.
Defined.

Lemma memory_events_by_address_witness :
  Memory_EventsByAddress (H := reference_runtime) CtxOpen
    (mkQuery (address_of 7) 2 (Some (mkCursor 12 (hash_of 99) 1))) fixture_memory
  = Err (store_err StoreErrStaleCursor).
Proof.
  destruct (memory_events_by_address_correct (H := reference_runtime) CtxOpen
    (mkQuery (address_of 7) 2 (Some (mkCursor 12 (hash_of 99) 1))) fixture_memory fixture_events
    fixture_memory_ok ltac:(done) fixture_events_newest) as [[Hl _]|[(_ & _ & He)|(_ & Hf & _)]].
  - by vm_compute in Hl.
  - exact He.
  - exfalso. destruct Hf as (b & Hb & Hh). vm_compute in Hb. injection Hb as <-.
    apply (f_equal array_bytes) in Hh. vm_compute in Hh. discriminate.
Defined.

Lemma memory_pagination_complete_witness :
  length fixture_events = 6%nat /\
  paginate (H := reference_runtime) fixture_memory 7 (address_of 7) 2 None = Ok fixture_events.
Proof.
  assert (Hlen : length fixture_events = 6%nat) by (vm_compute; reflexivity).
  split; [exact Hlen|].
  apply (memory_pagination_complete (H := reference_runtime) fixture_memory (address_of 7) fixture_events 2 7
    fixture_memory_ok fixture_events_newest); [done|]. rewrite Hlen. lia.
Defined.

(** A runtime that visits maps in the opposite order. *)
Program Definition reversed_runtime : GoRuntime := {|
  go_range V m := reverse (map_to_list m);
  go_sort A less l := reference_sort less l
|}.
Next Obligation. intros. apply reverse_Permutation. Qed.
Next Obligation. intros. apply merge_sort_Permutation. Qed.
Next Obligation. intros. by apply reference_sort_sorted. Qed.

Lemma memory_queries_runtime_independent_witness :
  Memory_TransactionByHash (H := reference_runtime) CtxOpen (hash_of 111) fixture_memory =
  Memory_TransactionByHash (H := reversed_runtime) CtxOpen (hash_of 111) fixture_memory.
Proof.
  apply (memory_queries_runtime_independent reference_runtime reversed_runtime fixture_memory
    (hash_of 111) (mkQuery (address_of 7) 2 None) fixture_events fixture_memory_ok ltac:(done)
    fixture_events_newest).
Defined.
