(* ===== verification/Fetcher.v ===== *)
(** * Fetching one block: [internal/indexer/fetcher.go]

    [FetchBlock] turns the answers of the JSON-RPC endpoint into a block bundle
    and rejects inconsistent answers.  go-ethereum's values are the results of
    their accessors ([EthBlock], [EthTransaction], [EthLog]); the recovery of a
    sender, [types.Sender], is a parameter. *)
From S2P Require Import Prelude Errors Domain Validate Store Fixtures.
From stdpp Require Import prelude gmap sorting list strings.
From Stdlib Require Import ZArith Lia.

Local Open Scope Z_scope.

(** ** Values of the [ethereum.Reader] interface *)

Record EthTransaction := mkEthTransaction {
  et_Hash : Hash;
  et_Protected : bool;
  et_ChainId : Z;
  et_Type : Z;
  et_Nonce : Z;
  et_To : option Address;
  et_Value : option Z;
  et_Gas : Z;
  et_GasPrice : option Z;
  et_GasFeeCap : option Z;
  et_GasTipCap : option Z;
  et_Data : byte_slice
}.

Record EthBlock := mkEthBlock {
  eb_Number : option Z;
  eb_Hash : Hash;
  eb_ParentHash : Hash;
  eb_Time : Z;
  eb_GasLimit : Z;
  eb_GasUsed : Z;
  eb_BaseFee : option Z;
  eb_Transactions : list (option EthTransaction)
}.

Record EthLog := mkEthLog {
  el_Address : Address;
  el_Topics : list Hash;
  el_Data : byte_slice;
  el_BlockNumber : Z;
  el_TxHash : Hash;
  el_TxIndex : Z;
  el_BlockHash : Hash;
  el_Index : Z;
  el_Removed : bool
}.

(** Transaction types of go-ethereum ([types.LegacyTxType] and so on). *)
Definition LegacyTxType : Z := 0.
Definition AccessListTxType : Z := 1.

Definition inconsistent (format : string) : error :=
  wrapf format (indexer_err ErrInconsistentBlockData).

(** [number != nil && number.IsUint64() && number.Uint64() == requested] *)
Definition validateBlockNumber (block : EthBlock) (requested : Z) : result unit :=
  reject_if (match eb_Number block with
             | None => true
             | Some number => negb (bool_decide (is_u64 number)) || negb (wrap64 number =? requested)
             end) (inconsistent "%w: requested block %d, received block %s").

Section Fetcher.
Context `{GoRuntime}.
(** [types.Sender(f.signer, transaction)] *)
Variable Sender : EthTransaction -> reply Address.
(** [f.chainID], set by [NewFetcher] from a [uint64]. *)
Variable chainID : Z.

Definition mapTransaction (blockNumber : Z) (blockHash : Hash) (position : Z) (sender : Address)
  (t : EthTransaction) : Transaction :=
let legacy := (et_Type t =? LegacyTxType) || (et_Type t =? AccessListTxType) in
mkTransaction (et_Hash t) blockNumber blockHash position (et_Type t) (et_Nonce t) sender (et_To t)
  (et_Value t) (et_Gas t)
  (if legacy then et_GasPrice t else None)
  (if legacy then None else et_GasFeeCap t)
  (if legacy then None else et_GasTipCap t)
  (slice_append (Some []) (et_Data t)).

(** The loop of [mapTransactions]: [index] is the position, [positions] the
  map built so far, and the result lists the mapped transactions in order. *)
Fixpoint mapTransactions_loop (blockNumber : Z) (blockHash : Hash) (index : Z)
  (txs : list (option EthTransaction)) (positions : gmap Hash Z)
  : result (list Transaction * gmap Hash Z) :=
match txs with
| [] => Ok ([], positions)
| None :: _ => Err (inconsistent "%w: block %d contains a nil transaction at index %d")
| Some transaction :: rest =>
    _ ← reject_if (et_Protected transaction && negb (et_ChainId transaction =? chainID))
          (inconsistent "%w: transaction %s has chain ID %s, expected %s");
    sender ← map_err (fun err => Errorf "%w: derive sender for transaction %s: %w"
                                   [indexer_err ErrInconsistentBlockData; err])
               (of_reply (Sender transaction));
    let position := to_u32 index in
    let hash := et_Hash transaction in
    _ ← reject_if (bool_decide (is_Some (positions !! hash)))
          (inconsistent "%w: duplicate transaction %s");
    '(mapped, positions') ← mapTransactions_loop blockNumber blockHash (index + 1) rest
                              (<[hash := position]> positions);
    Ok (mapTransaction blockNumber blockHash position sender transaction :: mapped, positions')
end.

Definition mapTransactions (block : EthBlock) : result (list Transaction * gmap Hash Z) :=
let blockNumber := wrap64 (default 0 (eb_Number block)) in
_ ← reject_if (max_uint32 <? Z.of_nat (length (eb_Transactions block)))
      (inconsistent "%w: block %d has too many transactions");
mapTransactions_loop blockNumber (eb_Hash block) 0 (eb_Transactions block) ∅.

Definition mapEvent (blockNumber : Z) (blockHash : Hash) (transactionIndex : Z) (log : EthLog) : Event :=
mkEvent blockNumber blockHash (el_TxHash log) transactionIndex (to_u32 (el_Index log))
  (el_Address log) ([] ++ el_Topics log) (slice_append (Some []) (el_Data log)).

(** The loop of [mapEvents], before the final sort. *)
Fixpoint mapEvents_loop (blockNumber : Z) (blockHash : Hash) (logs : list EthLog)
  (transactionPositions : gmap Hash Z) (seenLogIndexes : gset Z) : result (list Event) :=
match logs with
| [] => Ok []
| log :: rest =>
    _ ← reject_if (el_Removed log) (inconsistent "%w: block %d contains a removed log");
    _ ← reject_if (negb (bool_decide (el_BlockHash log = blockHash)) ||
                   negb (el_BlockNumber log =? blockNumber))
          (inconsistent "%w: log %d does not belong to block %d (%s)");
    _ ← reject_if ((max_uint32 <? el_Index log) || (max_uint32 <? el_TxIndex log))
          (inconsistent "%w: log or transaction index exceeds uint32");
    _ ← reject_if (4 <? Z.of_nat (length (el_Topics log)))
          (inconsistent "%w: log %d has %d topics, maximum is 4");
    match transactionPositions !! el_TxHash log with
    | None => Err (inconsistent "%w: log %d references unknown transaction %s")
    | Some transactionIndex =>
        _ ← reject_if (negb (to_u32 (el_TxIndex log) =? transactionIndex))
              (inconsistent "%w: log %d transaction index is %d, expected %d");
        let logIndex := to_u32 (el_Index log) in
        _ ← reject_if (bool_decide (logIndex ∈ seenLogIndexes))
              (inconsistent "%w: duplicate log index %d");
        events ← mapEvents_loop blockNumber blockHash rest transactionPositions
                   ({[logIndex]} ∪ seenLogIndexes);
        Ok (mapEvent blockNumber blockHash transactionIndex log :: events)
    end
end.

Definition by_log_index (left right : Event) : bool := Event_LogIndex left <? Event_LogIndex right.

Definition mapEvents (blockNumber : Z) (blockHash : Hash) (logs : list EthLog)
  (transactionPositions : gmap Hash Z) : result (list Event) :=
events ← mapEvents_loop blockNumber blockHash logs transactionPositions ∅;
Ok (go_sort by_log_index events).

(** [FetchBlock]: [blockReply] answers [BlockByNumber(number)], [logsReply]
  answers [LogsByBlockHash] of the received block, [now] is [f.now()]. *)
Definition FetchBlock (number : Z) (blockReply : reply (option EthBlock))
  (logsReply : Hash -> reply (list EthLog)) (now : Time) : result BlockBundle :=
block ← map_err (wrapf "fetch block %d: %w") (of_reply blockReply);
match block with
| None => Err (inconsistent "%w: block %d response is nil")
| Some block =>
    _ ← validateBlockNumber block number;
    let blockHash := eb_Hash block in
    '(transactions, positions) ← mapTransactions block;
    logs ← map_err (wrapf "fetch logs for block %d (%s): %w") (of_reply (logsReply blockHash));
    events ← mapEvents number blockHash logs positions;
    Ok (mkBundle
          (mkBlock number blockHash (eb_ParentHash block) (eb_Time block) (eb_GasLimit block)
             (eb_GasUsed block) (eb_BaseFee block) (Z.of_nat (length transactions)) (Time_UTC now))
          transactions events)
end.
End Fetcher.

(** ** What the loops accept *)

Section Loops.
Context `{GoRuntime} (Sender : EthTransaction -> reply Address) (chainID : Z).
Variables (n : Z) (h : Hash).

(** The loop's own account of a mapped transaction: [t] is what [mapTransaction]
  makes of the RPC transaction at position [i]. *)
Definition tx_mapped (i : nat) (o : option EthTransaction) (t : Transaction) : Prop :=
exists et sender, o = Some et /\ Sender et = inl sender /\
  (et_Protected et = true -> et_ChainId et = chainID) /\
  t = mapTransaction n h (to_u32 (Z.of_nat i)) sender et.

Lemma mapTransactions_loop_Ok txs : forall i pos mapped pos',
mapTransactions_loop Sender chainID n h (Z.of_nat i) txs pos = Ok (mapped, pos') <->
length mapped = length txs /\
(forall j o t, txs !! j = Some o -> mapped !! j = Some t -> tx_mapped (i + j) o t) /\
NoDup (Transaction_Hash <$> mapped) /\
(forall t, t ∈ mapped -> pos !! Transaction_Hash t = None) /\
pos' = record_positions pos mapped.
Proof.
induction txs as [|o txs IH]; intros i pos mapped pos'.
{ simpl. split.
  - intros [= <- <-]. split_and!; [done|done|constructor|set_solver|done].
  - intros (Hlen & _ & _ & _ & ->). apply nil_length_inv in Hlen as ->. done. }
destruct o as [et|].
2: { split; [done|]. intros (Hlen & Hm & _). destruct mapped as [|t mapped]; [done|].
     destruct (Hm 0%nat None t eq_refl eq_refl) as (? & ? & ? & _). done. }
cbn [mapTransactions_loop]. rewrite bind_reject_iff, bind_Ok_iff.
setoid_rewrite map_err_Ok. setoid_rewrite bind_reject_iff. setoid_rewrite bind_Ok_iff.
replace (Z.of_nat i + 1) with (Z.of_nat (S i)) by lia. split.
- intros (Hg & sender & Hs & Hdup & [ms pos''] & Hrest & [= <- <-]).
  apply IH in Hrest as (Hlen & Hm & Hnd & Hpos & ->).
  apply bool_decide_eq_false in Hdup. apply andb_false_iff in Hg. simpl.
  split_and!; [by rewrite Hlen| | | |done].
  + intros [|j] o t Ho Ht; simplify_eq/=; [|rewrite Nat.add_succ_r; by apply Hm].
    rewrite Nat.add_0_r. exists et, sender. split_and!; [done| | |done].
    * by destruct (Sender et); simplify_eq/=.
    * intros Hp. destruct Hg as [Hg|Hg]; [congruence|]. bool_iff in Hg. done.
  + constructor; [|done]. intros (t & Heq & Ht)%list_elem_of_fmap.
    specialize (Hpos t Ht). rewrite <- Heq in Hpos. by rewrite lookup_insert_eq in Hpos.
  + intros t [->|Ht]%elem_of_cons; [by apply eq_None_not_Some|].
    specialize (Hpos t Ht). by apply lookup_insert_None in Hpos as [? _].
- intros (Hlen & Hm & Hnd & Hpos & ->). destruct mapped as [|t mapped]; [done|].
  destruct (Hm 0%nat (Some et) t eq_refl eq_refl) as (et' & sender & [= <-] & Hs & Hp & ->).
  rewrite Nat.add_0_r in *. rewrite fmap_cons in Hnd. apply NoDup_cons in Hnd as [Hnot Hnd].
  split. { destruct (et_Protected et); [|done]. simpl. apply negb_false_iff, Z.eqb_eq. auto. }
  exists sender. split; [by rewrite Hs|]. split.
  { apply bool_decide_eq_false, eq_None_not_Some. apply (Hpos _ (list_elem_of_here _ _)). }
  exists (mapped, record_positions (<[et_Hash et := to_u32 (Z.of_nat i)]> pos) mapped).
  split; [|done]. apply IH. split_and!; [by injection Hlen| |done| |done].
  + intros j o t Ho Ht. replace (S i + j)%nat with (i + S j)%nat by lia. by apply (Hm (S j)).
  + intros t Ht. apply lookup_insert_None. split; [apply Hpos; by right|].
    intros Heq. apply Hnot. change (et_Hash et ∈ Transaction_Hash <$> mapped).
    rewrite Heq. by apply list_elem_of_fmap_2.
Qed.

(** The loop's own account of a mapped log. *)
Definition log_mapped (pos : gmap Hash Z) (l : EthLog) (e : Event) : Prop :=
el_Removed l = false /\ (el_BlockHash l = h /\ el_BlockNumber l = n) /\
(el_Index l <= max_uint32 /\ el_TxIndex l <= max_uint32) /\
Z.of_nat (length (el_Topics l)) <= 4 /\
pos !! el_TxHash l = Some (to_u32 (el_TxIndex l)) /\
e = mapEvent n h (to_u32 (el_TxIndex l)) l.

Lemma mapEvents_loop_Ok pos logs : forall seen evs,
mapEvents_loop n h logs pos seen = Ok evs <->
Forall2 (log_mapped pos) logs evs /\ NoDup (Event_LogIndex <$> evs) /\
(forall e, e ∈ evs -> Event_LogIndex e ∉ seen).
Proof.
induction logs as [|l logs IH]; intros seen evs.
{ simpl. split.
  - intros [= <-]. split_and!; [constructor|constructor|set_solver].
  - by intros (->%Forall2_nil_inv_l & _ & _). }
cbn [mapEvents_loop]. rewrite !bind_reject_iff. bool_iff. split.
- intros (Hrm & Hblk & Hidx & Htop & Hrest).
  destruct (pos !! el_TxHash l) as [ti|] eqn:Hpos; [|done].
  apply bind_reject_iff in Hrest as [Hti [Hdup Hrest]%bind_reject_iff].
  apply bind_Ok_iff in Hrest as (es & Hes & [= <-]).
  apply IH in Hes as (Hf & Hnd & Hseen). bool_iff in Hti. bool_iff in Hdup. subst ti.
  split_and!.
  + constructor; [|done]. destruct Hblk, Hidx. by split_and!.
  + rewrite fmap_cons. constructor; [|done]. intros (e & Heq & He)%list_elem_of_fmap.
    apply (Hseen e He). rewrite <- Heq. set_solver.
  + intros e [->|He]%elem_of_cons; [done|]. specialize (Hseen e He). set_solver.
- intros (Hf & Hnd & Hseen). apply Forall2_cons_inv_l in Hf as (e & es & Hl & Hf & ->).
  destruct Hl as (Hrm & [? ?] & [? ?] & Htop & Hpos & ->). split_and!; try done.
  rewrite Hpos. rewrite fmap_cons in Hnd. apply NoDup_cons in Hnd as [Hnot Hnd].
  rewrite !bind_reject_iff, bind_Ok_iff. bool_iff. split_and!; [done| |].
  + apply (Hseen _ (list_elem_of_here _ _)).
  + exists es. split; [|done]. apply IH. split_and!; [done|done|].
    intros e He [Heq%elem_of_singleton|Hin]%elem_of_union.
    * apply Hnot. simpl. rewrite <- Heq. by apply list_elem_of_fmap_2.
    * by apply (Hseen e (list_elem_of_further _ _ _ He)).
Qed.
End Loops.

(** ** What a fetched bundle is *)

Section Fetched.
Context `{GoRuntime} (Sender : EthTransaction -> reply Address) (chainID : Z).

Record fetched (number : Z) (eb : EthBlock) (logs : list EthLog) (now : Time) (b : BlockBundle) : Prop := {
fe_number : eb_Number eb = Some number;
fe_size : Z.of_nat (length (eb_Transactions eb)) <= max_uint32;
fe_block : Bundle_Block b =
  mkBlock number (eb_Hash eb) (eb_ParentHash eb) (eb_Time eb) (eb_GasLimit eb) (eb_GasUsed eb)
    (eb_BaseFee eb) (Z.of_nat (length (Bundle_Transactions b))) (Time_UTC now);
fe_length : length (Bundle_Transactions b) = length (eb_Transactions eb);
fe_txs i o t : eb_Transactions eb !! i = Some o -> Bundle_Transactions b !! i = Some t ->
  tx_mapped Sender chainID number (eb_Hash eb) i o t;
fe_hashes : NoDup (Transaction_Hash <$> Bundle_Transactions b);
fe_events : exists evs,
  Forall2 (log_mapped number (eb_Hash eb) (record_positions ∅ (Bundle_Transactions b))) logs evs /\
  NoDup (Event_LogIndex <$> evs) /\ Bundle_Events b = go_sort by_log_index evs
}.

Lemma validateBlockNumber_Ok eb number :
is_u64 number -> validateBlockNumber eb number = Ok tt <-> eb_Number eb = Some number.
Proof.
intros Hn. unfold validateBlockNumber. rewrite reject_if_Ok. destruct (eb_Number eb) as [k|]; [|done].
bool_iff. split.
- intros [Hk Hw]. by rewrite wrap64_small in Hw by done; subst.
- intros [= ->]. by rewrite wrap64_small.
Qed.

Lemma FetchBlock_Ok number br lr now b :
is_u64 number ->
FetchBlock Sender chainID number br lr now = Ok b <->
exists eb logs, br = inl (Some eb) /\ lr (eb_Hash eb) = inl logs /\ fetched number eb logs now b.
Proof.
intros Hn. unfold FetchBlock. rewrite bind_Ok_iff. setoid_rewrite map_err_Ok. split.
- intros ([eb|] & Hbr & Hf); [|done]. destruct br as [o|]; simplify_eq/=.
  apply bind_Ok_iff in Hf as ([] & Hv & Hf). apply validateBlockNumber_Ok in Hv; [|done].
  apply bind_Ok_iff in Hf as ([txs pos] & Htx & Hf).
  apply bind_Ok_iff in Hf as (logs & Hl & Hf). apply map_err_Ok in Hl.
  apply bind_Ok_iff in Hf as (evs & Hev & [= <-]).
  unfold mapTransactions in Htx. rewrite Hv in Htx. simpl in Htx.
  rewrite wrap64_small in Htx by done. apply bind_reject_iff in Htx as [Hsz Htx]. bool_iff in Hsz.
  change 0 with (Z.of_nat 0) in Htx.
  apply mapTransactions_loop_Ok in Htx as (Hlen & Hm & Hnd & _ & ->).
  unfold mapEvents in Hev. apply bind_Ok_iff in Hev as (es & Hes & [= <-]).
  apply mapEvents_loop_Ok in Hes as (Hf2 & Hnde & _).
  exists eb, logs. split_and!; [done|by destruct (lr _); simplify_eq/=|].
  split; try done. by exists es.
- intros (eb & logs & -> & Hlr & [Hnum Hsz Hblk Hlen Htxs Hnd (evs & Hf2 & Hnde & Hev)]).
  exists (Some eb). split; [done|]. apply bind_Ok_iff. exists tt.
  split; [by apply validateBlockNumber_Ok|].
  apply bind_Ok_iff. exists (Bundle_Transactions b, record_positions ∅ (Bundle_Transactions b)).
  split.
  { unfold mapTransactions. rewrite Hnum. simpl. rewrite wrap64_small by done.
    apply bind_reject_iff. split; [by apply Z.ltb_ge|].
    change 0 with (Z.of_nat 0). apply mapTransactions_loop_Ok. by split_and!. }
  rewrite Hlr. simpl. unfold mapEvents.
  rewrite (proj2 (mapEvents_loop_Ok _ _ _ _ ∅ evs)); [|split_and!; [done|done|set_solver]].
  simpl. rewrite <- Hev, <- Hblk. by destruct b.
Qed.

Lemma fetched_tx number eb logs now b i t :
fetched number eb logs now b -> Bundle_Transactions b !! i = Some t ->
exists o, eb_Transactions eb !! i = Some o /\ tx_mapped Sender chainID number (eb_Hash eb) i o t.
Proof.
intros Hf Hi. destruct (lookup_lt_is_Some_2 (eb_Transactions eb) i) as [o Ho].
{ rewrite <- (fe_length _ _ _ _ _ Hf). by eapply lookup_lt_Some. }
exists o. split; [done|]. by eapply fe_txs.
Qed.

Lemma fetched_event number eb logs now b e :
fetched number eb logs now b -> e ∈ Bundle_Events b ->
exists l, l ∈ logs /\ log_mapped number (eb_Hash eb) (record_positions ∅ (Bundle_Transactions b)) l e.
Proof.
intros Hf He. destruct (fe_events _ _ _ _ _ Hf) as (evs & Hf2 & _ & Heq).
rewrite Heq, elem_of_go_sort in He. apply list_elem_of_lookup in He as [i Hi].
eapply Forall2_lookup_r in Hf2 as (l & Hl & Hlm); [|exact Hi].
exists l. split; [by eapply list_elem_of_lookup_2|done].
Qed.

(** A fetched bundle passes every check of the store on a single block. *)
Lemma fetched_valid number eb logs now b : fetched number eb logs now b -> bundle_valid b.
Proof.
intros Hf. pose proof (fe_block _ _ _ _ _ Hf) as Hb. split; rewrite ?Hb; simpl.
- done.
- rewrite (fe_length _ _ _ _ _ Hf). apply Hf.
- intros i t Hi. destruct (fetched_tx _ _ _ _ _ _ _ Hf Hi) as (o & Ho & et & s & -> & _ & _ & ->).
  split_and!; [done|done|]. simpl. apply to_u32_small.
  apply lookup_lt_Some in Ho. pose proof (fe_size _ _ _ _ _ Hf). int_lia.
- apply Hf.
- intros e He. destruct (fetched_event _ _ _ _ _ _ Hf He) as (l & _ & _ & _ & _ & Ht & Hpos & ->).
  split_and!; [done|done|simpl; lia|].
  apply record_positions_lookup in Hpos as [(t & ? & ? & ?)|[_ Hp]]; [|by rewrite lookup_empty in Hp|apply Hf].
  by exists t.
- destruct (fe_events _ _ _ _ _ Hf) as (evs & _ & Hnd & ->). by rewrite go_sort_perm.
Qed.

Lemma fetched_events_sorted number eb logs now b :
fetched number eb logs now b ->
StronglySorted (fun x y => Event_LogIndex x < Event_LogIndex y) (Bundle_Events b).
Proof.
intros Hf. destruct (fe_events _ _ _ _ _ Hf) as (evs & _ & Hnd & ->).
by apply (go_sort_by_key Event_LogIndex).
Qed.
End Fetched.

(** ** Consistent replies *)

(** The widths of go-ethereum's accessors. *)
Definition EthTransaction_typed (t : EthTransaction) : Prop :=
  0 <= et_Type t < 256 /\ is_u64 (et_Nonce t) /\ is_u64 (et_Gas t).
Definition EthBlock_typed (eb : EthBlock) : Prop :=
  is_u64 (eb_Time eb) /\ is_u64 (eb_GasLimit eb) /\ is_u64 (eb_GasUsed eb) /\
  forall t, Some t ∈ eb_Transactions eb -> EthTransaction_typed t.
Definition EthLog_typed (l : EthLog) : Prop := 0 <= el_Index l /\ 0 <= el_TxIndex l.

Section Consistent.
Context `{GoRuntime} (Sender : EthTransaction -> reply Address) (chainID : Z).

Definition transaction_consistent (o : option EthTransaction) : Prop :=
exists et sender, o = Some et /\ Sender et = inl sender /\
  (et_Protected et = true -> et_ChainId et = chainID).

Definition log_consistent (number : Z) (eb : EthBlock) (l : EthLog) : Prop :=
el_Removed l = false /\ el_BlockHash l = eb_Hash eb /\ el_BlockNumber l = number /\
el_Index l <= max_uint32 /\ el_TxIndex l <= max_uint32 /\ (length (el_Topics l) <= 4)%nat /\
exists et, eb_Transactions eb !! Z.to_nat (el_TxIndex l) = Some (Some et) /\ et_Hash et = el_TxHash l.

(** The block has the requested number and the answers describe one block: its
  transactions are present, on this chain, with a recoverable sender and
  distinct hashes, and its logs belong to it and to its transactions. *)
Record consistent (number : Z) (eb : EthBlock) (logs : list EthLog) : Prop := {
co_number : eb_Number eb = Some number;
co_size : Z.of_nat (length (eb_Transactions eb)) <= max_uint32;
co_txs o : o ∈ eb_Transactions eb -> transaction_consistent o;
co_hashes : NoDup (option_map et_Hash <$> eb_Transactions eb : list (option Hash));
co_logs l : l ∈ logs -> log_consistent number eb l;
co_indexes : NoDup (el_Index <$> logs : list Z)
}.

(** The transaction the fetcher makes of position [i], when it accepts it. *)
Definition sender_of (et : EthTransaction) : Address :=
match Sender et with inl a => a | inr _ => zero_array AddressLength end.
Definition image (number : Z) (h : Hash) (i : nat) (o : option EthTransaction) : Transaction :=
match o with
| Some et => mapTransaction number h (to_u32 (Z.of_nat i)) (sender_of et) et
| None => mapTransaction number h 0 (zero_array AddressLength)
            (mkEthTransaction zero_hash false 0 0 0 None None 0 None None None None)
end.

Lemma image_mapped number h i o :
transaction_consistent o -> tx_mapped Sender chainID number h i o (image number h i o).
Proof.
intros (et & s & -> & Hs & Hp). exists et, s. split_and!; try done.
simpl. unfold sender_of. by rewrite Hs.
Qed.

Lemma fetched_consistent number eb logs now b :
Forall EthLog_typed logs -> fetched Sender chainID number eb logs now b -> consistent number eb logs.
Proof.
intros Hlt Hf. rewrite list.Forall_forall in Hlt. split; try apply Hf.
- intros o Ho. apply list_elem_of_lookup in Ho as [i Hi].
  destruct (lookup_lt_is_Some_2 (Bundle_Transactions b) i) as [t Ht].
  { rewrite (fe_length _ _ _ _ _ _ _ Hf). by eapply lookup_lt_Some. }
  destruct (fe_txs _ _ _ _ _ _ _ Hf i o t Hi Ht) as (et & s & ? & ? & ? & _). by exists et, s.
- assert (Hmap : option_map et_Hash <$> eb_Transactions eb = Some <$> (Transaction_Hash <$> Bundle_Transactions b)).
  { apply list_eq_same_length with (n := length (eb_Transactions eb)).
    - by rewrite !length_fmap, (fe_length _ _ _ _ _ _ _ Hf).
    - by rewrite length_fmap.
    - intros i x y _. rewrite !list_lookup_fmap.
      destruct (Bundle_Transactions b !! i) as [t|] eqn:Ht; [|by destruct (eb_Transactions eb !! i)].
      destruct (fetched_tx _ _ _ _ _ _ _ _ _ Hf Ht) as (o & Ho & et & s & -> & _ & _ & ->).
      rewrite Ho. simpl. congruence. }
  rewrite Hmap. apply NoDup_fmap_2; [apply _|apply Hf].
- intros l Hl. destruct (fe_events _ _ _ _ _ _ _ Hf) as (evs & Hf2 & _).
  apply list_elem_of_lookup in Hl as [i Hi].
  eapply Forall2_lookup_l in Hf2 as (e & _ & Hrm & [? ?] & [? Hti] & ? & Hpos & _); [|exact Hi].
  split_and!; try done; [lia|].
  apply record_positions_lookup in Hpos as [(t & Ht & Hh & Hidx)|[_ Hp]]; [|by rewrite lookup_empty in Hp|apply Hf].
  apply list_elem_of_lookup in Ht as [j Hj].
  destruct (fetched_tx _ _ _ _ _ _ _ _ _ Hf Hj) as (o & Ho & et & s & -> & _ & _ & ->).
  exists et. split; [|done]. simpl in Hidx.
  destruct (Hlt l) as [_ Hpos]; [by eapply list_elem_of_lookup_2|].
  pose proof (fe_size _ _ _ _ _ _ _ Hf). apply lookup_lt_Some in Ho as Hlt'.
  rewrite !to_u32_small in Hidx by int_lia. by rewrite <- Hidx, Nat2Z.id.
- destruct (fe_events _ _ _ _ _ _ _ Hf) as (evs & Hf2 & Hnd & _).
  assert (Hmap : el_Index <$> logs = Event_LogIndex <$> evs); [|by rewrite Hmap].
  clear Hnd Hf. induction Hf2 as [|l e logs' evs' Hl Hf2 IH]; [done|].
  rewrite !fmap_cons, IH by (intros; apply Hlt; by right). f_equal.
  destruct Hl as (_ & _ & [? _] & _ & _ & ->). simpl. symmetry. apply to_u32_small.
  destruct (Hlt l) as [? _]; [left|]. int_lia.
Qed.

Definition bundle_for (number : Z) (eb : EthBlock) (logs : list EthLog) (now : Time) : BlockBundle :=
let txs := imap (image number (eb_Hash eb)) (eb_Transactions eb) in
mkBundle
  (mkBlock number (eb_Hash eb) (eb_ParentHash eb) (eb_Time eb) (eb_GasLimit eb) (eb_GasUsed eb)
     (eb_BaseFee eb) (Z.of_nat (length txs)) (Time_UTC now))
  txs (go_sort by_log_index ((fun l => mapEvent number (eb_Hash eb) (to_u32 (el_TxIndex l)) l) <$> logs)).

Lemma image_hashes number eb logs :
consistent number eb logs ->
Some <$> (Transaction_Hash <$> imap (image number (eb_Hash eb)) (eb_Transactions eb))
  = option_map et_Hash <$> eb_Transactions eb.
Proof.
intros Hc. apply list_eq. intros i. rewrite !list_lookup_fmap, list_lookup_imap.
destruct (eb_Transactions eb !! i) as [o|] eqn:Ho; [|done].
destruct (co_txs _ _ _ Hc o) as (et & s & -> & _); [by eapply list_elem_of_lookup_2|done].
Qed.

Lemma consistent_fetched number eb logs now :
Forall EthLog_typed logs -> consistent number eb logs ->
fetched Sender chainID number eb logs now (bundle_for number eb logs now).
Proof.
intros Hlt Hc. rewrite list.Forall_forall in Hlt.
assert (Hnd : NoDup (Transaction_Hash <$> imap (image number (eb_Hash eb)) (eb_Transactions eb))).
{ eapply (NoDup_fmap_1 Some). rewrite (image_hashes number eb logs Hc). apply Hc. }
split; simpl; try done; try apply Hc.
- apply length_imap.
- intros i o t Ho Ht. rewrite list_lookup_imap, Ho in Ht. simplify_eq/=.
  apply image_mapped. eapply co_txs; [done|by eapply list_elem_of_lookup_2].
- eexists. split_and!; [| |done].
  + apply Forall2_fmap_r, Forall_Forall2_diag, list.Forall_forall. intros l Hl.
    destruct (co_logs _ _ _ Hc l Hl) as (? & ? & ? & ? & ? & ? & et & Het & Hh).
    destruct (Hlt l Hl) as [_ Hti]. split_and!; try done; [lia|].
    apply record_positions_lookup; [done|]. left. exists (image number (eb_Hash eb) (Z.to_nat (el_TxIndex l)) (Some et)).
    split_and!; [|done|simpl; by rewrite Z2Nat.id].
    eapply list_elem_of_lookup_2. rewrite list_lookup_imap, Het. done.
  + rewrite <- list_fmap_compose.
    assert (Hmap : Event_LogIndex ∘ (fun l => mapEvent number (eb_Hash eb) (to_u32 (el_TxIndex l)) l) <$> logs
                   = el_Index <$> logs); [|rewrite Hmap; apply Hc].
    apply list_fmap_ext. intros i l Hi. simpl. apply to_u32_small.
    assert (Hl : l ∈ logs) by by eapply list_elem_of_lookup_2.
    destruct (co_logs _ _ _ Hc l Hl) as (_ & _ & _ & ? & _). destruct (Hlt l Hl). int_lia.
Qed.

Lemma fetched_typed number eb logs now b :
is_u64 number -> EthBlock_typed eb -> fetched Sender chainID number eb logs now b -> Bundle_typed b.
Proof.
intros Hn (Ht & Hgl & Hgu & Htx) Hf. split_and!.
- rewrite (fe_block _ _ _ _ _ _ _ Hf). by split_and!.
- rewrite list.Forall_forall. intros t Hin. apply list_elem_of_lookup in Hin as [i Hi].
  destruct (fetched_tx _ _ _ _ _ _ _ _ _ Hf Hi) as (o & Ho & et & s & -> & _ & _ & ->).
  destruct (Htx et) as (? & ? & ?); [by eapply list_elem_of_lookup_2|].
  unfold Transaction_typed; simpl. auto using to_u32_range.
- rewrite list.Forall_forall. intros e He.
  destruct (fetched_event _ _ _ _ _ _ _ _ Hf He) as (l & _ & _ & _ & _ & _ & _ & ->).
  unfold Event_typed; simpl. auto using to_u32_range.
Qed.
End Consistent.

(** ** Field by field

    Which reply field each field of the bundle holds, stated without the mapping
    functions. *)

Record block_matches (number : Z) (eb : EthBlock) (now : Time) (b : Block) : Prop := {
  bm_number : Block_Number b = number;
  bm_hash : Block_Hash b = eb_Hash eb;
  bm_parent : Block_ParentHash b = eb_ParentHash eb;
  bm_timestamp : Block_Timestamp b = eb_Time eb;
  bm_gas_limit : Block_GasLimit b = eb_GasLimit eb;
  bm_gas_used : Block_GasUsed b = eb_GasUsed eb;
  bm_base_fee : Block_BaseFeePerGas b = eb_BaseFee eb;
  bm_count : Block_TransactionCount b = Z.of_nat (length (eb_Transactions eb));
  bm_indexed : Block_IndexedAt b = Time_UTC now
}.

(** Legacy (0) and access-list (1) transactions carry a gas price, all others a
    fee cap and a tip cap; the input is never nil. *)
Record transaction_matches (number : Z) (hash : Hash) (i : nat) (sender : Address)
    (et : EthTransaction) (t : Transaction) : Prop := {
  tm_hash : Transaction_Hash t = et_Hash et;
  tm_block : Transaction_BlockNumber t = number /\ Transaction_BlockHash t = hash;
  tm_index : Transaction_Index t = Z.of_nat i;
  tm_type : Transaction_Type t = et_Type et;
  tm_nonce : Transaction_Nonce t = et_Nonce et;
  tm_sender : Transaction_Sender t = sender;
  tm_recipient : Transaction_Recipient t = et_To et;
  tm_value : Transaction_Value t = et_Value et;
  tm_gas_limit : Transaction_GasLimit t = et_Gas et;
  tm_priced : et_Type et = 0 \/ et_Type et = 1 ->
    Transaction_GasPrice t = et_GasPrice et /\ Transaction_MaxFeePerGas t = None /\
    Transaction_MaxPriorityFeePerGas t = None;
  tm_capped : et_Type et <> 0 -> et_Type et <> 1 ->
    Transaction_GasPrice t = None /\ Transaction_MaxFeePerGas t = et_GasFeeCap et /\
    Transaction_MaxPriorityFeePerGas t = et_GasTipCap et;
  tm_input : Transaction_Input t = Some (slice_bytes (et_Data et))
}.

Record event_matches (number : Z) (hash : Hash) (l : EthLog) (e : Event) : Prop := {
  em_block : Event_BlockNumber e = number /\ Event_BlockHash e = hash;
  em_transaction : Event_TransactionHash e = el_TxHash l /\ Event_TransactionIndex e = el_TxIndex l;
  em_index : Event_LogIndex e = el_Index l;
  em_address : Event_Address e = el_Address l;
  em_topics : Event_Topics e = el_Topics l;
  em_data : Event_Data e = Some (slice_bytes (el_Data l))
}.

Lemma mapTransaction_matches number hash i sender et :
  Z.of_nat i <= max_uint32 ->
  transaction_matches number hash i sender et (mapTransaction number hash (to_u32 (Z.of_nat i)) sender et).
Proof.
  intros Hi. unfold mapTransaction, LegacyTxType, AccessListTxType. split; simpl; try done.
  - apply to_u32_small. int_lia.
  - intros [-> | ->]; done.
  - intros H0 H1. by rewrite (proj2 (Z.eqb_neq _ _) H0), (proj2 (Z.eqb_neq _ _) H1).
Qed.

Lemma log_mapped_matches number hash pos l e :
  EthLog_typed l -> log_mapped number hash pos l e -> event_matches number hash l e.
Proof.
  intros [Hi Ht] (_ & _ & [? ?] & _ & _ & ->). split; simpl; try done.
  - split; [done|]. apply to_u32_small. int_lia.
  - apply to_u32_small. int_lia.
Qed.

(** ** Errors *)

Definition is_inconsistent (e : error) : Prop :=
  errors_Is e (IndexerSentinel ErrInconsistentBlockData) = true.
#[export] Hint Unfold is_inconsistent : go_errs.

Section Errors.
Context `{GoRuntime} (Sender : EthTransaction -> reply Address) (chainID : Z).

Lemma mapTransactions_errs eb : errs_in is_inconsistent (mapTransactions Sender chainID eb).
Proof.
assert (Hloop : forall n h txs i pos,
  errs_in is_inconsistent (mapTransactions_loop Sender chainID n h i txs pos)).
{ intros n h txs. induction txs as [|[et|] txs IH]; intros i pos; cbn [mapTransactions_loop]; [done| |done].
  apply errs_in_bind; [auto with go_errs|intros _ _].
  apply errs_in_bind; [apply errs_in_map_err, errs_in_of_reply; done|intros s _].
  apply errs_in_bind; [auto with go_errs|intros _ _].
  apply errs_in_bind; [apply IH|intros [? ?] _; done]. }
unfold mapTransactions. auto 8 with go_errs.
Qed.

Lemma mapEvents_errs n h logs pos : errs_in is_inconsistent (mapEvents n h logs pos).
Proof.
assert (Hloop : forall seen, errs_in is_inconsistent (mapEvents_loop n h logs pos seen)).
{ induction logs as [|l logs' IH]; intros seen; cbn [mapEvents_loop]; [done|].
  do 4 (apply errs_in_bind; [auto with go_errs|intros _ _]).
  destruct (pos !! el_TxHash l); [|done].
  do 2 (apply errs_in_bind; [auto with go_errs|intros _ _]).
  apply errs_in_bind; [apply IH|done]. }
unfold mapEvents. apply errs_in_bind; [apply Hloop|done].
Qed.
End Errors.

(** ** Properties *)

Definition fetch_error (br : reply (option EthBlock)) (lr : Hash -> reply (list EthLog)) (e : error) : Prop :=
  errors_Is e (IndexerSentinel ErrInconsistentBlockData) = true \/
  (exists e', br = inr e' /\ e = wrapf "fetch block %d: %w" e') \/
  (exists h e', lr h = inr e' /\ e = wrapf "fetch logs for block %d (%s): %w" e').

Lemma FetchBlock_errs `{GoRuntime} Sender chainID number br lr now :
  errs_in (fetch_error br lr) (FetchBlock Sender chainID number br lr now).
Proof.
  unfold FetchBlock. apply errs_in_bind; [apply errs_in_map_err, errs_in_of_reply; unfold fetch_error; eauto 6|].
  intros [eb|] _; [|by left].
  apply errs_in_bind; [apply errs_in_reject_if; by left|intros _ _].
  apply errs_in_bind.
  { eapply errs_in_mono; [apply mapTransactions_errs|by left]. }
  intros [txs pos] _. apply errs_in_bind; [apply errs_in_map_err, errs_in_of_reply; unfold fetch_error; eauto 8|].
  intros logs _. apply errs_in_bind; [|done].
  eapply errs_in_mono; [apply mapEvents_errs|by left].
Qed.

Section Properties.
Context `{GoRuntime} (Sender : EthTransaction -> reply Address) (chainID : Z).

(** C20: A bundle returned by [FetchBlock] is what the endpoint answered.  Its block
  has the requested number and the fields of the received block; it carries one
  transaction per received transaction, in order, each with the fields of the
  received one (the fee fields of its type only), its position and its recovered
  sender; its events are the received logs, all of them and no others, each with
  the log's fields, sorted by log index; inputs and data are never nil; and the
  bundle satisfies every consistency check the stores make on a single block. *)
Theorem fetch_block_sound number br lr now b :
is_u64 number -> (forall h logs, lr h = inl logs -> Forall EthLog_typed logs) ->
FetchBlock Sender chainID number br lr now = Ok b ->
exists eb logs, br = inl (Some eb) /\ lr (eb_Hash eb) = inl logs /\
  block_matches number eb now (Bundle_Block b) /\
  length (Bundle_Transactions b) = length (eb_Transactions eb) /\
  (forall i t, Bundle_Transactions b !! i = Some t -> exists et sender,
     eb_Transactions eb !! i = Some (Some et) /\ Sender et = inl sender /\
     (et_Protected et = true -> et_ChainId et = chainID) /\
     transaction_matches number (eb_Hash eb) i sender et t) /\
  (exists events, Forall2 (event_matches number (eb_Hash eb)) logs events /\ Bundle_Events b ≡ₚ events) /\
  StronglySorted (fun x y => Event_LogIndex x < Event_LogIndex y) (Bundle_Events b) /\
  bundle_valid b.
Proof.
intros Hn Hty (eb & logs & Hbr & Hlr & Hf)%FetchBlock_Ok; [|done].
specialize (Hty _ _ Hlr). rewrite list.Forall_forall in Hty.
exists eb, logs. split_and!; try done; try apply Hf.
- rewrite (fe_block _ _ _ _ _ _ _ Hf). split; try done. simpl. by rewrite (fe_length _ _ _ _ _ _ _ Hf).
- intros i t Hi. destruct (fetched_tx _ _ _ _ _ _ _ _ _ Hf Hi) as (o & Ho & et & s & -> & Hs & Hp & ->).
  exists et, s. split_and!; try done. apply mapTransaction_matches.
  apply lookup_lt_Some in Ho. pose proof (fe_size _ _ _ _ _ _ _ Hf). lia.
- destruct (fe_events _ _ _ _ _ _ _ Hf) as (evs & Hf2 & _ & ->). exists evs. split; [|apply go_sort_perm].
  apply Forall2_same_length_lookup. apply Forall2_same_length_lookup in Hf2 as [Hlen Hf2]. split; [done|].
  intros i l e Hl He. eapply log_mapped_matches; [|by eapply Hf2]. apply Hty. by eapply list_elem_of_lookup_2.
- by eapply fetched_events_sorted.
- by eapply fetched_valid.
Qed.

(** C19: [FetchBlock] accepts exactly the consistent replies: it returns a bundle
  if and only if the endpoint answered with a block of the requested number
  whose transactions and logs are consistent with it; when the endpoint
  answered consistently the bundle is the one determined by the replies. *)
Theorem fetch_block_accepts_consistent number br lr now :
is_u64 number -> (forall h logs, lr h = inl logs -> Forall EthLog_typed logs) ->
((exists b, FetchBlock Sender chainID number br lr now = Ok b) <->
 (exists eb logs, br = inl (Some eb) /\ lr (eb_Hash eb) = inl logs /\
    consistent Sender chainID number eb logs)) /\
(forall eb logs, br = inl (Some eb) -> lr (eb_Hash eb) = inl logs ->
   consistent Sender chainID number eb logs ->
   FetchBlock Sender chainID number br lr now = Ok (bundle_for Sender number eb logs now)).
Proof.
intros Hn Hty.
assert (Hacc : forall eb logs, br = inl (Some eb) -> lr (eb_Hash eb) = inl logs ->
   consistent Sender chainID number eb logs ->
   FetchBlock Sender chainID number br lr now = Ok (bundle_for Sender number eb logs now)).
{ intros eb logs Hbr Hlr Hc. apply FetchBlock_Ok; [done|].
  exists eb, logs. split_and!; try done. apply consistent_fetched; eauto. }
split; [|done]. split.
- intros [b (eb & logs & Hbr & Hlr & Hf)%FetchBlock_Ok]; [|done].
  exists eb, logs. split_and!; try done. eapply fetched_consistent; eauto.
- intros (eb & logs & Hbr & Hlr & Hc). eauto.
Qed.

(** [FetchBlock] never panics; every error it returns is either an RPC error
  of the endpoint, wrapped, or [ErrInconsistentBlockData]. *)
Theorem fetch_block_errors number br lr now :
match FetchBlock Sender chainID number br lr now with
| Ok _ => True
| Err e => fetch_error br lr e
| _ => False
end.
Proof. apply FetchBlock_errs. Qed.
End Properties.

(** ** Evaluation on a concrete reply *)

(** Block 11 with one dynamic-fee transaction and two logs answered out of order. *)
Definition eth_tx : EthTransaction :=
  mkEthTransaction (hash_of 111) true 1 2 0 (Some (address_of 2)) (Some 1000) 21000 (Some 30)
    (Some 30) (Some 2) None.
Definition eth_block : EthBlock :=
  mkEthBlock (Some 11) (hash_of 11) (hash_of 10) 1700000000 30000000 21000 (Some 7) [Some eth_tx].
Definition eth_log (index : Z) : EthLog :=
  mkEthLog (address_of 7) [hash_of 200] None 11 (hash_of 111) 0 (hash_of 11) index false.
Definition eth_sender (_ : EthTransaction) : reply Address := inl (address_of 1).
Definition eth_logs (h : Hash) : reply (list EthLog) :=
  if bool_decide (h = hash_of 11) then inl [eth_log 5; eth_log 3] else inr (Errorf "unknown block" []).

Definition eth_fetched : result BlockBundle :=
  FetchBlock (H := reference_runtime) eth_sender 1 11 (inl (Some eth_block)) eth_logs (time_of 5).

Lemma eth_logs_typed h logs : eth_logs h = inl logs -> Forall EthLog_typed logs.
Proof.
  unfold eth_logs. case_bool_decide; [|done]. intros [= <-].
  repeat constructor; by compute.
Qed.

(** Both logs are in the bundle, in order, with the data of the replies. *)
Lemma fetch_block_sound_witness :
  exists b, eth_fetched = Ok b /\ bundle_number b = 11 /\ (Event_LogIndex <$> Bundle_Events b) = [3; 5] /\
            bundle_valid b /\
            exists events, Forall2 (event_matches 11 (hash_of 11)) [eth_log 5; eth_log 3] events /\
                           Bundle_Events b ≡ₚ events.
Proof.
  destruct eth_fetched as [b|e|msg|] eqn:E; try (vm_compute in E; discriminate).
  exists b. split; [done|].
  destruct (fetch_block_sound (H := reference_runtime) eth_sender 1 11 (inl (Some eth_block)) eth_logs
    (time_of 5) b ltac:(done) eth_logs_typed E) as (eb & logs & [= <-] & Hl & [Hn _ _ _ _ _ _ _ _] & _ & _ & Hev & _ & Hv).
  injection Hl as <-. split_and!; [done| |done|done].
  vm_compute in E. injection E as <-. reflexivity.
Defined.

Lemma fetch_block_accepts_consistent_witness :
  exists eb logs, eth_logs (eb_Hash eb) = inl logs /\ consistent eth_sender 1 11 eb logs.
Proof.
  destruct (fetch_block_accepts_consistent (H := reference_runtime) eth_sender 1 11
    (inl (Some eth_block)) eth_logs (time_of 5) ltac:(done) eth_logs_typed) as [[Hl _] _].
  destruct Hl as (eb & logs & _ & ? & ?); [|by exists eb, logs].
  destruct eth_fetched as [b|e|msg|] eqn:E; try (vm_compute in E; discriminate).
  exists b. exact E.
Defined.
