(* ===== verification/Ranger.v ===== *)
(** * Fetching a range with a worker pool: [internal/indexer/ranger.go]

    [FetchRange] starts one producer and a bounded number of workers that share
    a job channel, an error channel of capacity one and a cancellable context.
    Their interleavings are a step relation; what the function returns is read
    off a final state, after both wait groups are done. *)
From S2P Require Import Prelude Errors Domain Validate Store Fixtures Memory Fetcher.
From stdpp Require Import prelude gmap list strings relations.
From Stdlib Require Import ZArith Lia.

Local Open Scope Z_scope.

(** ** [validateFetchedBundles] *)

Fixpoint check_fetched (from : Z) (i : nat) (previous : option BlockBundle) (bundles : list BlockBundle)
    : result unit :=
  match bundles with
  | [] => Ok tt
  | bundle :: rest =>
      let expectedBlockNum := u64_add from (Z.of_nat i) in
      _ ← reject_if (negb (bundle_number bundle =? expectedBlockNum))
            (inconsistent "indexer: %w: range position %d contains block %d, expected %d");
      _ ← reject_if (match previous with
                     | Some p => negb (bool_decide (bundle_parent bundle = bundle_hash p))
                     | None => false
                     end) (inconsistent "%w: block %d parent %s does not match block %d hash %s");
      check_fetched from (S i) (Some bundle) rest
  end.

Definition validateFetchedBundles (bundles : list BlockBundle) (from : Z) : result unit :=
  check_fetched from 0 None bundles.

(** Consecutive numbers from [from], each block the child of the one before. *)
Definition chained (from : Z) (bundles : list BlockBundle) : Prop :=
  (forall i b, bundles !! i = Some b -> bundle_number b = u64_add from (Z.of_nat i)) /\
  (forall i a b, bundles !! i = Some a -> bundles !! S i = Some b -> bundle_parent b = bundle_hash a).

Lemma check_fetched_Ok from bundles : forall i previous,
  check_fetched from i previous bundles = Ok tt <->
  (forall k b, bundles !! k = Some b -> bundle_number b = u64_add from (Z.of_nat (i + k))) /\
  (forall k a b, bundles !! k = Some a -> bundles !! S k = Some b -> bundle_parent b = bundle_hash a) /\
  (forall p b, previous = Some p -> bundles !! 0%nat = Some b -> bundle_parent b = bundle_hash p).
Proof.
  induction bundles as [|a rest IH]; intros i previous; cbn [check_fetched]; [by split|].
  rewrite !bind_reject_iff, IH, !forall_lookup_cons, Nat.add_0_r. bool_iff.
  setoid_rewrite Nat.add_succ_r. setoid_rewrite Nat.add_succ_l. split.
  - intros (? & Hprev & ? & Hl & Hhd). split_and!; auto.
    + intros [|k] x y; simpl; [intros [= <-] Hy; by apply (Hhd a)|apply Hl].
    + intros p b -> [= <-]. bool_iff in Hprev. done.
  - intros ([? ?] & Hl & Hprev). split_and!; auto.
    + destruct previous as [p|]; [|done]. bool_iff. by apply Hprev.
    + intros k. apply (Hl (S k)).
    + intros p b [= <-] Hb. by apply (Hl 0%nat).
Qed.

Lemma validateFetchedBundles_chained bundles from :
  validateFetchedBundles bundles from = Ok tt <-> chained from bundles.
Proof. unfold validateFetchedBundles, chained. rewrite check_fetched_Ok. naive_solver. Qed.

Lemma check_fetched_errs from bundles : forall i previous,
  errs_in is_inconsistent (check_fetched from i previous bundles).
Proof. induction bundles; intros; cbn [check_fetched]; eauto 8 with go_errs. Qed.

(** ** The state shared by the goroutines *)

(** The producer: about to send job [i], or returned with the channel closed. *)
Inductive producer_state := Sending (i : nat) | Closed.

(** A worker: in its [select], fetching job [i], past the error send and about
    to call [cancel()], or returned. *)
Inductive worker_state := Idle | Fetching (i : nat) | Cancelling | Stopped.
#[global] Instance worker_state_eq_dec : EqDecision worker_state.
Proof. solve_decision. Defined.

Record rstate := mkRState {
  rs_producer : producer_state;
  rs_workers : list worker_state;
  rs_bundles : list BlockBundle;
  rs_errCh : option error;
  rs_cancelled : bool;
  rs_ctx : ctx_state
}.

(** [workerCtx.Done()] is closed: by [cancel()] or through the parent context. *)
Definition worker_done (s : rstate) : bool :=
  rs_cancelled s || match rs_ctx s with CtxOpen => false | _ => true end.

Definition set_producer p s :=
  mkRState p (rs_workers s) (rs_bundles s) (rs_errCh s) (rs_cancelled s) (rs_ctx s).
Definition set_worker w st s :=
  mkRState (rs_producer s) (<[w := st]> (rs_workers s)) (rs_bundles s) (rs_errCh s) (rs_cancelled s) (rs_ctx s).
Definition set_bundle i b s :=
  mkRState (rs_producer s) (rs_workers s) (<[i := b]> (rs_bundles s)) (rs_errCh s) (rs_cancelled s) (rs_ctx s).
(** [select { case errCh <- err: default: }] on a channel of capacity one *)
Definition offer_err (e : error) s :=
  mkRState (rs_producer s) (rs_workers s) (rs_bundles s)
    (match rs_errCh s with None => Some e | Some e0 => Some e0 end) (rs_cancelled s) (rs_ctx s).
Definition set_cancelled s :=
  mkRState (rs_producer s) (rs_workers s) (rs_bundles s) (rs_errCh s) true (rs_ctx s).
Definition set_ctx c s :=
  mkRState (rs_producer s) (rs_workers s) (rs_bundles s) (rs_errCh s) (rs_cancelled s) c.

Section Steps.
(** [fetch n r]: a call [FetchBlock(workerCtx, n)] may return [r]. *)
Variable fetch : Z -> result BlockBundle -> Prop.
Variables (from : Z) (blockCount : nat).

Inductive rstep : rstate -> rstate -> Prop :=
(** [jobs <- job] meets [job, open = <-jobs] of an idle worker. *)
| step_deliver s i w :
  rs_producer s = Sending i -> (i < blockCount)%nat -> rs_workers s !! w = Some Idle ->
  rstep s (set_worker w (Fetching i) (set_producer (Sending (S i)) s))
(** The producer's loop ends and [close(jobs)] runs. *)
| step_close s :
  rs_producer s = Sending blockCount -> rstep s (set_producer Closed s)
(** The producer sees the cancelled context. *)
| step_producer_cancel s i :
  rs_producer s = Sending i -> (i < blockCount)%nat -> worker_done s = true ->
  rstep s (set_producer Closed s)
(** An idle worker sees the cancelled context, or the closed channel. *)
| step_worker_cancel s w :
  rs_workers s !! w = Some Idle -> worker_done s = true -> rstep s (set_worker w Stopped s)
| step_worker_closed s w :
  rs_workers s !! w = Some Idle -> rs_producer s = Closed -> rstep s (set_worker w Stopped s)
(** [FetchBlock] returns. *)
| step_fetch_ok s w i b :
  rs_workers s !! w = Some (Fetching i) -> fetch (u64_add from (Z.of_nat i)) (Ok b) ->
  rstep s (set_worker w Idle (set_bundle i b s))
| step_fetch_err s w i e :
  rs_workers s !! w = Some (Fetching i) -> fetch (u64_add from (Z.of_nat i)) (Err e) ->
  rstep s (set_worker w Cancelling (offer_err (wrapf "failed to fetch block %d: %w" e) s))
| step_cancel s w :
  rs_workers s !! w = Some Cancelling -> rstep s (set_worker w Stopped (set_cancelled s))
(** The caller's context is cancelled or expires. *)
| step_ctx s c :
  rs_ctx s = CtxOpen -> c <> CtxOpen -> rstep s (set_ctx c s).

Definition final (s : rstate) : Prop :=
rs_producer s = Closed /\ Forall (fun w => w = Stopped) (rs_workers s).

(** What [FetchRange] returns once [pWg] and [cWg] are done. *)
Definition finish (s : rstate) : result (list BlockBundle) :=
match rs_errCh s with
| Some e => Err e
| None =>
    _ ← check_ctx (rs_ctx s);
    _ ← validateFetchedBundles (rs_bundles s) from;
    Ok (rs_bundles s)
end.
End Steps.

(** ** [FetchRange] *)

(** The number of workers: at least one, at most one per block. *)
Definition worker_count (concurrency : Z) (blockCount : Z) : Z :=
  let c := if concurrency <? 1 then 1 else concurrency in
  if blockCount <? c then blockCount else c.

Definition block_count (from to : Z) : Z := to_int64 (u64_sub to from) + 1.

Definition range_guard (from to : Z) : result unit :=
  _ ← reject_if (to <? from)
        (wrapf "%w: from block %d exceeds to block %d" (indexer_err ErrInvalidLowFetchRange));
  reject_if (max_int64 <=? u64_sub to from)
    (wrapf "%w: block range is too large" (indexer_err ErrInvalidLargeFetchRange)).

Definition range_init (ctx : ctx_state) (from to concurrency : Z) : rstate :=
  let n := Z.to_nat (block_count from to) in
  mkRState (Sending 0) (replicate (Z.to_nat (worker_count concurrency (block_count from to))) Idle)
    (replicate n zero_bundle) None false ctx.

(** [FetchRange(ctx, from, to, concurrency)] may return [r]. *)
Inductive FetchRange_returns (fetch : Z -> result BlockBundle -> Prop) (ctx : ctx_state)
    (from to concurrency : Z) : result (list BlockBundle) -> Prop :=
| range_rejected e :
    range_guard from to = Err e -> FetchRange_returns fetch ctx from to concurrency (Err e)
| range_finished s :
    range_guard from to = Ok tt ->
    rtc (rstep fetch from (Z.to_nat (block_count from to))) (range_init ctx from to concurrency) s ->
    final s -> FetchRange_returns fetch ctx from to concurrency (finish from s).

(** ** A deterministic scheduler

    One schedule of the pool, for evaluating [FetchRange] on concrete replies:
    the producer closes when it can, otherwise the first worker that can move
    moves. *)
Section Scheduler.
Variable fetch : Z -> result BlockBundle.
Variables (from : Z) (blockCount : nat).

Definition worker_turn (s : rstate) (w : nat) (st : worker_state) : option rstate :=
match st with
| Stopped => None
| Cancelling => Some (set_worker w Stopped (set_cancelled s))
| Fetching i =>
    match fetch (u64_add from (Z.of_nat i)) with
    | Ok b => Some (set_worker w Idle (set_bundle i b s))
    | Err e => Some (set_worker w Cancelling (offer_err (wrapf "failed to fetch block %d: %w" e) s))
    | _ => None
    end
| Idle =>
    if worker_done s then Some (set_worker w Stopped s)
    else match rs_producer s with
         | Closed => Some (set_worker w Stopped s)
         | Sending i =>
             if (i <? blockCount)%nat
             then Some (set_worker w (Fetching i) (set_producer (Sending (S i)) s)) else None
         end
end.

Fixpoint workers_turn (s : rstate) (w : nat) (ws : list worker_state) : option rstate :=
match ws with
| [] => None
| st :: rest =>
    match worker_turn s w st with Some s' => Some s' | None => workers_turn s (S w) rest end
end.

Definition turn (s : rstate) : option rstate :=
match rs_producer s with
| Sending i =>
    if (i =? blockCount)%nat then Some (set_producer Closed s)
    else if (i <? blockCount)%nat && worker_done s then Some (set_producer Closed s)
    else workers_turn s 0 (rs_workers s)
| Closed => workers_turn s 0 (rs_workers s)
end.

Fixpoint run (fuel : nat) (s : rstate) : rstate :=
match fuel with
| O => s
| S fuel' => match turn s with Some s' => run fuel' s' | None => s end
end.
End Scheduler.

(** ** Every run ends *)

Definition producer_weight (blockCount : nat) (p : producer_state) : nat :=
  match p with Sending i => 2 * (blockCount - i) + 1 | Closed => 0 end.
Definition worker_weight (w : worker_state) : nat :=
  match w with Fetching _ => 2 | Idle | Cancelling => 1 | Stopped => 0 end.
Definition ctx_weight (c : ctx_state) : nat := match c with CtxOpen => 1 | _ => 0 end.
Definition weight (blockCount : nat) (s : rstate) : nat :=
  producer_weight blockCount (rs_producer s) + sum_list_with worker_weight (rs_workers s) +
  ctx_weight (rs_ctx s).

Lemma sum_list_with_insert {A} (f : A -> nat) (l : list A) i x y :
  l !! i = Some x -> (sum_list_with f (<[i := y]> l) + f x = sum_list_with f l + f y)%nat.
Proof.
  revert i. induction l as [|a l IH]; intros [|i] Hi; simplify_eq/=; [lia|].
  specialize (IH i Hi). lia.
Qed.

Lemma idle_weight n : sum_list_with worker_weight (replicate n Idle) = n.
Proof. induction n as [|n IH]; simpl; [done|by rewrite IH]. Qed.

Section Runs.
Variable fetch : Z -> result BlockBundle -> Prop.
Variables (from : Z) (blockCount : nat).
Abbreviation step := (rstep fetch from blockCount).

Lemma rstep_weight s s' : step s s' -> (weight blockCount s' < weight blockCount s)%nat.
Proof.
unfold weight. destruct 1 as [s i w Hp Hi Hw|s Hp|s i Hp Hi Hd|s w Hw Hd|s w Hw Hp|s w i b Hw Hf
  |s w i e Hw Hf|s w Hw|s c Hc Hne]; simpl;
  try pose proof (fun y => sum_list_with_insert worker_weight _ _ _ y Hw) as Hsum;
  try rewrite Hp; simpl.
- specialize (Hsum (Fetching i)). simpl in Hsum. lia.
- lia.
- lia.
- specialize (Hsum Stopped). simpl in Hsum. lia.
- specialize (Hsum Stopped). simpl in Hsum. lia.
- specialize (Hsum Idle). simpl in Hsum. lia.
- specialize (Hsum Cancelling). simpl in Hsum. lia.
- specialize (Hsum Stopped). simpl in Hsum. lia.
- rewrite Hc. destruct c; simpl; [done|lia|lia].
Qed.

Lemma nsteps_weight n s s' : nsteps step n s s' -> (n + weight blockCount s' <= weight blockCount s)%nat.
Proof.
induction 1 as [s|n s s1 s2 Hs _ IH]; [lia|]. apply rstep_weight in Hs. lia.
Qed.
End Runs.

(** ** The invariant of the pool *)

(** Some worker is in state [st]. *)
Definition has (ws : list worker_state) (st : worker_state) : Prop := exists w, ws !! w = Some st.

Lemma has_insert_inv ws w st st' : has (<[w := st']> ws) st -> st = st' \/ has ws st.
Proof.
  intros [v Hv]. apply list_lookup_insert_Some in Hv as [(_ & <- & _)|[_ Hv]]; [by left|].
  right. by exists v.
Qed.

Lemma has_insert_new ws w st st0 : ws !! w = Some st0 -> has (<[w := st]> ws) st.
Proof. intros Hw%lookup_lt_Some. exists w. by apply list_lookup_insert_eq. Qed.

Lemma has_insert_old ws w st st' st0 :
  ws !! w = Some st0 -> has ws st -> st = st0 \/ has (<[w := st']> ws) st.
Proof.
  intros Hw [v Hv]. destruct (decide (v = w)) as [->|Hne]; [left; congruence|].
  right. exists v. by rewrite list_lookup_insert_ne.
Qed.

Section Invariant.
Variable fetch : Z -> result BlockBundle -> Prop.
Variables (from : Z) (blockCount : nat).
Abbreviation step := (rstep fetch from blockCount).
Abbreviation fetches i r := (fetch (u64_add from (Z.of_nat i)) r).

Definition slot_done (s : rstate) (i : nat) : Prop :=
exists b, rs_bundles s !! i = Some b /\ fetches i (Ok b).
(** Job [i] has been handed to a worker. *)
Definition sent (p : producer_state) (i : nat) : Prop :=
match p with Sending j => (i < j)%nat | Closed => (i < blockCount)%nat end.

Record pool_inv (workers : nat) (s : rstate) : Prop := {
inv_workers : length (rs_workers s) = workers;
inv_bundles : length (rs_bundles s) = blockCount;
inv_next i : rs_producer s = Sending i -> (i <= blockCount)%nat;
inv_flight i : has (rs_workers s) (Fetching i) -> sent (rs_producer s) i /\ (i < blockCount)%nat;
inv_unique w1 w2 i : rs_workers s !! w1 = Some (Fetching i) ->
  rs_workers s !! w2 = Some (Fetching i) -> w1 = w2;
inv_sent i : sent (rs_producer s) i ->
  slot_done s i \/ has (rs_workers s) (Fetching i) \/ rs_errCh s <> None \/
  (rs_producer s = Closed /\ rs_ctx s <> CtxOpen);
inv_cancelled : rs_cancelled s = true \/ has (rs_workers s) Cancelling -> rs_errCh s <> None;
inv_stopped : has (rs_workers s) Stopped -> worker_done s = true \/ rs_producer s = Closed;
inv_error e : rs_errCh s = Some e -> exists i e', (i < blockCount)%nat /\ fetches i (Err e') /\
  e = wrapf "failed to fetch block %d: %w" e'
}.


Lemma done_insert w st s i : slot_done (set_worker w st s) i <-> slot_done s i.
Proof. done. Qed.

(** Writing a fetched bundle fills its slot and leaves the others. *)
Lemma set_bundle_done s i j b :
length (rs_bundles s) = blockCount -> (i < blockCount)%nat -> fetches i (Ok b) ->
i = j \/ slot_done s j -> slot_done (set_bundle i b s) j.
Proof.
intros Hlen Hi Hf Hj. unfold slot_done. simpl. destruct (decide (i = j)) as [->|Hne].
- exists b. rewrite list_lookup_insert_eq by lia. done.
- rewrite list_lookup_insert_ne by done. by destruct Hj.
Qed.

Lemma sent_step s s' workers i :
pool_inv workers s -> step s s' -> sent (rs_producer s') i ->
slot_done s' i \/ has (rs_workers s') (Fetching i) \/ rs_errCh s' <> None \/
(rs_producer s' = Closed /\ rs_ctx s' <> CtxOpen).
Proof.
intros Hinv Hs. pose proof (inv_sent _ _ Hinv i) as Hsent.
destruct Hs as [s j w Hp Hj Hw|s Hp|s j Hp Hj Hd|s w Hw Hd|s w Hw Hp|s w j b Hw Hf
  |s w j e Hw Hf|s w Hw|s c Hc Hne]; cbn [sent rs_producer rs_workers rs_bundles rs_errCh rs_ctx
    set_producer set_worker set_bundle offer_err set_cancelled set_ctx]; intros Hi.
- rewrite Hp in Hsent. destruct (decide (i = j)) as [->|Hne].
  { right; left. by eapply has_insert_new. }
  destruct (Hsent ltac:(simpl in *; lia)) as [?|[Hfl|[?|[? _]]]]; [by left| |by right; right; left|done].
  destruct (has_insert_old _ w _ (Fetching j) _ Hw Hfl) as [?|?]; [done|by right; left].
- rewrite Hp in Hsent. destruct (Hsent Hi) as [?|[?|[?|[? _]]]]; auto; done.
- destruct (rs_errCh s) eqn:He; [by right; right; left|]. right; right; right. split; [done|].
  intros Hc. unfold worker_done in Hd. rewrite Hc, orb_false_r in Hd.
  apply (inv_cancelled _ _ Hinv); auto.
- destruct (Hsent Hi) as [?|[Hfl|[?|?]]]; auto.
  destruct (has_insert_old _ w _ Stopped _ Hw Hfl) as [?|?]; [done|auto].
- destruct (Hsent Hi) as [?|[Hfl|[?|?]]]; auto.
  destruct (has_insert_old _ w _ Stopped _ Hw Hfl) as [?|?]; [done|auto].
- assert (Hj : (j < blockCount)%nat) by (eapply (inv_flight _ _ Hinv); by exists w).
  pose proof (inv_bundles _ _ Hinv) as Hlen.
  destruct (Hsent Hi) as [?|[Hfl|[?|?]]]; auto.
  { left. rewrite done_insert. apply set_bundle_done; auto. }
  destruct (has_insert_old _ w _ Idle _ Hw Hfl) as [[= ->]|?]; [|by auto].
  left. rewrite done_insert. apply set_bundle_done; auto.
- right; right; left. by destruct (rs_errCh s).
- right; right; left. apply (inv_cancelled _ _ Hinv). right. by exists w.
- destruct (Hsent Hi) as [?|[Hfl|[?|[? ?]]]]; auto.
Qed.

Ltac pool_cases Hs :=
destruct Hs as [s j w Hp Hj Hw|s Hp|s j Hp Hj Hd|s w Hw Hd|s w Hw Hp|s w j b Hw Hf
  |s w j e Hw Hf|s w Hw|s c Hc Hne];
cbn [sent rs_producer rs_workers rs_bundles rs_errCh rs_ctx rs_cancelled
    set_producer set_worker set_bundle offer_err set_cancelled set_ctx] in *.

Lemma flight_step s s' workers i :
pool_inv workers s -> step s s' -> has (rs_workers s') (Fetching i) ->
sent (rs_producer s') i /\ (i < blockCount)%nat.
Proof.
intros Hinv Hs. pose proof (inv_flight _ _ Hinv i) as Hfl. pool_cases Hs; intros Hi;
  try (apply has_insert_inv in Hi as [Hi|Hi]; [simplify_eq|]); try (by auto).
- destruct (Hfl Hi) as [Hs ?]. rewrite Hp in Hs. simpl in *. lia.
- destruct (Hfl Hi). done.
- destruct (Hfl Hi). done.
Qed.

Lemma unique_step s s' workers w1 w2 i :
pool_inv workers s -> step s s' -> rs_workers s' !! w1 = Some (Fetching i) ->
rs_workers s' !! w2 = Some (Fetching i) -> w1 = w2.
Proof.
intros Hinv Hs. pose proof (inv_unique _ _ Hinv w1 w2 i) as Hu. pool_cases Hs; intros H1 H2;
  try (apply list_lookup_insert_Some in H1 as [(? & ? & ?)|[? H1]]);
  try (apply list_lookup_insert_Some in H2 as [(? & ? & ?)|[? H2]]); simplify_eq; try (by auto).
- destruct (inv_flight _ _ Hinv i) as [Hs _]; [by exists w2|]. rewrite Hp in Hs. simpl in Hs. lia.
- destruct (inv_flight _ _ Hinv i) as [Hs _]; [by exists w1|]. rewrite Hp in Hs. simpl in Hs. lia.
Qed.

Lemma cancelled_step s s' workers :
pool_inv workers s -> step s s' ->
rs_cancelled s' = true \/ has (rs_workers s') Cancelling -> rs_errCh s' <> None.
Proof.
intros Hinv Hs. pose proof (inv_cancelled _ _ Hinv) as Hc'. pool_cases Hs; intros Hi; auto;
  try (destruct Hi as [Hi|Hi]; [by auto|apply has_insert_inv in Hi as [Hi|Hi]; by auto]).
- by destruct (rs_errCh s).
- apply Hc'. right. by exists w.
Qed.

Lemma stopped_step s s' workers :
pool_inv workers s -> step s s' -> has (rs_workers s') Stopped ->
worker_done s' = true \/ rs_producer s' = Closed.
Proof.
intros Hinv Hs. pose proof (inv_stopped _ _ Hinv) as Hst. unfold worker_done in *.
pool_cases Hs; intros Hi; auto;
  try (apply has_insert_inv in Hi as [Hi|Hi]; [by auto|]); auto.
- destruct (Hst Hi) as [?|?]; [by left|congruence].
- left. by destruct c; [done|rewrite orb_true_r..].
Qed.

Lemma error_step s s' workers err :
pool_inv workers s -> step s s' -> rs_errCh s' = Some err ->
exists i e', (i < blockCount)%nat /\ fetches i (Err e') /\ err = wrapf "failed to fetch block %d: %w" e'.
Proof.
intros Hinv Hs. pose proof (inv_error _ _ Hinv err) as He. pool_cases Hs; auto.
destruct (rs_errCh s); [by auto|]. intros [= <-]. exists j, e. split_and!; [|done|done].
eapply (inv_flight _ _ Hinv). by exists w.
Qed.

Lemma pool_inv_step workers s s' : pool_inv workers s -> step s s' -> pool_inv workers s'.
Proof.
intros Hinv Hs. split.
- pose proof (inv_workers _ _ Hinv). pool_cases Hs; by rewrite ?length_insert.
- pose proof (inv_bundles _ _ Hinv). pool_cases Hs; by rewrite ?length_insert.
- intros i. pose proof (inv_next _ _ Hinv i). pool_cases Hs; intros; simplify_eq; auto; lia.
- intros i. by apply (flight_step s s' workers i).
- intros w1 w2 i. by apply (unique_step s s' workers w1 w2 i).
- intros i. by apply (sent_step s s' workers i).
- by apply (cancelled_step s s' workers).
- by apply (stopped_step s s' workers).
- intros e. by apply (error_step s s' workers e).
Qed.

Lemma pool_inv_init ctx workers :
pool_inv workers (mkRState (Sending 0) (replicate workers Idle) (replicate blockCount zero_bundle)
                    None false ctx).
Proof.
assert (Hw : forall st, has (replicate workers Idle) st -> st = Idle).
{ intros st [w Hw]. by apply lookup_replicate in Hw as [? _]. }
split; simpl; try (by auto); try (by intros; simplify_eq; lia).
- by rewrite length_replicate.
- by rewrite length_replicate.
- intros i Hi%Hw. done.
- intros w1 w2 i [? _]%lookup_replicate. done.
- intros [?|Hi%Hw]; done.
- intros Hi%Hw. done.
Qed.

Lemma pool_inv_rtc workers s s' : rtc step s s' -> pool_inv workers s -> pool_inv workers s'.
Proof. induction 1; eauto using pool_inv_step. Qed.

(** When the pool is done without an error and the context is open, every slot
  holds the block fetched for it. *)
Lemma final_done workers s i :
pool_inv workers s -> final s -> rs_errCh s = None -> rs_ctx s = CtxOpen ->
(i < blockCount)%nat -> slot_done s i.
Proof.
intros Hinv [Hp Hw] He Hc Hi. destruct (inv_sent _ _ Hinv i) as [?|[Hfl|[?|[_ ?]]]]; try done.
- by rewrite Hp.
- destruct Hfl as [w Hfl]. rewrite Forall_lookup in Hw. by specialize (Hw _ _ Hfl).
Qed.

(** The pool cannot get stuck before it is done, whatever the caller's context
  does: some goroutine can move. *)
Lemma pool_progress workers s :
(0 < workers)%nat -> (forall i, (i < blockCount)%nat -> exists r, fetches i r /\ returns r) ->
pool_inv workers s -> final s \/ exists s', step s s' /\ rs_ctx s' = rs_ctx s.
Proof.
intros Hpos Htot Hinv. destruct (decide (Forall (fun w => w = Stopped) (rs_workers s))) as [Hall|Hsome].
- destruct (rs_producer s) as [i|] eqn:Hp; [right|by left].
  assert (Hst : has (rs_workers s) Stopped).
  { destruct (lookup_lt_is_Some_2 (rs_workers s) 0%nat) as [w Hw]; [by rewrite (inv_workers _ _ Hinv)|].
    exists 0%nat. rewrite Hw. f_equal. exact (Forall_lookup_1 _ _ _ _ Hall Hw). }
  destruct (inv_stopped _ _ Hinv Hst) as [Hd|?]; [|congruence].
  destruct (decide (i = blockCount)) as [->|Hne]; [by eexists; split; [by apply step_close|]|].
  pose proof (inv_next _ _ Hinv i Hp).
  eexists; split; [eapply step_producer_cancel; eauto; lia|done].
- right. apply not_Forall_Exists in Hsome; [|apply _].
  apply Exists_exists in Hsome as (st & [w Hw]%list_elem_of_lookup & Hne). destruct st; [| | |by destruct Hne].
  + destruct (rs_producer s) as [i|] eqn:Hp; [|by eexists; split; [eapply step_worker_closed; eauto|]].
    destruct (decide (i = blockCount)) as [->|Hi]; [by eexists; split; [by apply step_close|]|].
    pose proof (inv_next _ _ Hinv i Hp).
    eexists; split; [eapply step_deliver; eauto; lia|done].
  + destruct (Htot i) as (r & Hr & Hret); [apply (inv_flight _ _ Hinv); by exists w|].
    destruct r; try done; eexists; split;
      [eapply step_fetch_ok; eauto|done|eapply step_fetch_err; eauto|done].
  + eexists; split; [eapply step_cancel; eauto|done].
Qed.

End Invariant.

(** ** The whole call *)

Lemma range_guard_Ok from to :
  is_u64 from -> is_u64 to ->
  range_guard from to = Ok tt <-> from <= to /\ to - from < max_int64.
Proof.
  intros Hf Ht. unfold range_guard. rewrite bind_reject_iff, reject_if_Ok. bool_iff.
  split; intros [Hle Hlt]; (split; [done|]).
  - rewrite u64_sub_small in Hlt; int_lia.
  - rewrite u64_sub_small; int_lia.
Qed.

Lemma block_count_eq from to :
  is_u64 from -> is_u64 to -> range_guard from to = Ok tt -> block_count from to = to - from + 1.
Proof.
  intros Hf Ht [Hle Hlt]%range_guard_Ok; [|done..]. unfold block_count.
  rewrite u64_sub_small, to_int64_small; int_lia.
Qed.

Lemma worker_count_bounds concurrency blockCount :
  1 <= blockCount ->
  1 <= worker_count concurrency blockCount <= blockCount /\
  worker_count concurrency blockCount <= Z.max 1 concurrency.
Proof.
  unfold worker_count. intros. destruct (Z.ltb_spec concurrency 1), (Z.ltb_spec blockCount 1) as [?|?];
    repeat match goal with |- context [?x <? ?y] => destruct (Z.ltb_spec x y) end; lia.
Qed.

Lemma finish_Ok from s bs :
  finish from s = Ok bs <->
  rs_errCh s = None /\ rs_ctx s = CtxOpen /\ chained from (rs_bundles s) /\ bs = rs_bundles s.
Proof.
  unfold finish, check_ctx. rewrite <- validateFetchedBundles_chained.
  destruct (rs_errCh s), (rs_ctx s); simpl; try (split; [done|by intros (? & ? & _)]).
  destruct (validateFetchedBundles (rs_bundles s) from) as [[]|e|m|]; simpl; naive_solver.
Qed.

Section Range.
Variable fetch : Z -> result BlockBundle -> Prop.
Variables (from to concurrency : Z).
Hypotheses (Hfrom : is_u64 from) (Hto : is_u64 to).
Let blockCount := Z.to_nat (block_count from to).
Abbreviation step := (rstep fetch from blockCount).
Abbreviation pool_workers := (Z.to_nat (worker_count concurrency (block_count from to))).

Lemma range_inv ctx s :
rtc step (range_init ctx from to concurrency) s -> pool_inv fetch from blockCount pool_workers s.
Proof. intros Hr. eapply pool_inv_rtc; [exact Hr|]. apply pool_inv_init. Qed.

Hypothesis Hguard : range_guard from to = Ok tt.

Lemma index_number i : (i < blockCount)%nat -> u64_add from (Z.of_nat i) = from + Z.of_nat i.
Proof.
unfold blockCount. rewrite block_count_eq by done. intros Hi.
apply range_guard_Ok in Hguard; [|done..]. apply u64_add_small. int_lia.
Qed.

Lemma pool_workers_pos : (0 < pool_workers)%nat.
Proof.
pose proof (block_count_eq from to Hfrom Hto Hguard). apply range_guard_Ok in Hguard; [|done..].
destruct (worker_count_bounds concurrency (block_count from to)); lia.
Qed.

(** From every reachable state the pool can finish with the context as it is. *)
Lemma range_finishes s :
(forall n, from <= n <= to -> exists r, fetch n r /\ returns r) ->
pool_inv fetch from blockCount pool_workers s ->
exists s', rtc step s s' /\ final s' /\ rs_ctx s' = rs_ctx s.
Proof.
intros Htot. induction s as [s IH] using (well_founded_induction (well_founded_ltof _ (weight blockCount))).
intros Hinv. destruct (pool_progress fetch from blockCount pool_workers s pool_workers_pos)
  as [Hfin|(s1 & Hs & Hc)]; [|done|by exists s|].
- intros i Hi. rewrite index_number by done. apply Htot. revert Hi. unfold blockCount.
  rewrite block_count_eq by done. lia.
- destruct (IH s1) as (s2 & Hr & Hfin & Hc'); [by eapply rstep_weight|by eapply pool_inv_step|].
  exists s2. split_and!; [by eapply rtc_l|done|congruence].
Qed.
End Range.

(** One block after the other, then the same validation. *)
Fixpoint fetch_each (fetch : Z -> result BlockBundle) (from : Z) (i n : nat) : result (list BlockBundle) :=
  match n with
  | O => Ok []
  | S n' =>
      bundle ← fetch (u64_add from (Z.of_nat i));
      rest ← fetch_each fetch from (S i) n';
      Ok (bundle :: rest)
  end.

Definition sequential_range (fetch : Z -> result BlockBundle) (from to : Z) : result (list BlockBundle) :=
  _ ← range_guard from to;
  bundles ← fetch_each fetch from 0 (Z.to_nat (block_count from to));
  _ ← validateFetchedBundles bundles from;
  Ok bundles.

Lemma fetch_each_Ok fetch from n : forall i bs,
  fetch_each fetch from i n = Ok bs <->
  length bs = n /\ forall k b, bs !! k = Some b -> fetch (u64_add from (Z.of_nat (i + k))) = Ok b.
Proof.
  induction n as [|n IH]; intros i bs; cbn [fetch_each].
  { destruct bs; simpl; naive_solver. }
  rewrite bind_Ok_iff. setoid_rewrite bind_Ok_iff. setoid_rewrite IH. split.
  - intros (b & Hb & rest & [Hlen Hr] & [= <-]). simpl. split; [lia|].
    intros [|k] c Hc; simplify_eq/=; [by rewrite Nat.add_0_r|]. rewrite Nat.add_succ_r. by apply (Hr k).
  - intros [Hlen Hr]. destruct bs as [|b rest]; [done|]. exists b.
    split; [by rewrite <- (Nat.add_0_r i); apply (Hr 0%nat)|]. exists rest. split_and!; [by simpl in *; lia| |done].
    intros k c Hc. rewrite Nat.add_succ_l, <- Nat.add_succ_r. by apply (Hr (S k)).
Qed.

Lemma FetchRange_Ok fetch ctx from to concurrency bs :
  is_u64 from -> is_u64 to -> FetchRange_returns fetch ctx from to concurrency (Ok bs) ->
  range_guard from to = Ok tt /\ length bs = Z.to_nat (block_count from to) /\ chained from bs /\
  forall i b, bs !! i = Some b -> fetch (u64_add from (Z.of_nat i)) (Ok b).
Proof.
  intros Hf Ht Hr. remember (Ok bs) as r eqn:E. destruct Hr as [e _|s Hg Hr Hfin]; [done|].
  apply finish_Ok in E as (He & Hc & Hch & ->).
  pose proof (range_inv _ _ _ _ _ _ Hr) as Hinv. pose proof (inv_bundles _ _ _ _ _ Hinv) as Hlen.
  split_and!; try done. intros i b Hb.
  destruct (final_done _ _ _ _ _ i Hinv Hfin He Hc) as (b' & Hb' & ?); [by apply lookup_lt_Some in Hb; lia|].
  congruence.
Qed.

(** The errors of a call, besides those of the guards: the first error of a worker,
    then the caller's context, then the check of the complete range. *)
Lemma finish_errs fetch ctx from to concurrency s :
  rtc (rstep fetch from (Z.to_nat (block_count from to))) (range_init ctx from to concurrency) s ->
  errs_in (fun e =>
    (exists i e', (i < Z.to_nat (block_count from to))%nat /\
       fetch (u64_add from (Z.of_nat i)) (Err e') /\ e = wrapf "failed to fetch block %d: %w" e') \/
    ctx_Err (rs_ctx s) = Some e \/
    is_inconsistent e /\ rs_errCh s = None /\ rs_ctx s = CtxOpen /\ ~ chained from (rs_bundles s))
    (finish from s).
Proof.
  intros Hr. pose proof (range_inv _ _ _ _ _ _ Hr) as Hinv. unfold finish.
  destruct (rs_errCh s) as [e|] eqn:He; [left; by eapply inv_error|].
  unfold check_ctx. destruct (rs_ctx s) eqn:Hc; simpl; [|by right; left..].
  pose proof (check_fetched_errs from (rs_bundles s) 0 None) as Hv.
  fold (validateFetchedBundles (rs_bundles s) from) in Hv.
  pose proof (proj2 (validateFetchedBundles_chained (rs_bundles s) from)) as Hch.
  destruct (validateFetchedBundles (rs_bundles s) from) as [[]|e|m|]; try done.
  right; right. split_and!; try done. by intros ?%Hch.
Qed.

Section Properties.
Variable fetch : Z -> result BlockBundle -> Prop.
Variables (from to concurrency : Z).
Hypotheses (Hfrom : is_u64 from) (Hto : is_u64 to).

Lemma FetchRange_range ctx bs :
FetchRange_returns fetch ctx from to concurrency (Ok bs) ->
from <= to /\ Z.of_nat (length bs) = to - from + 1 /\
(forall i b, bs !! i = Some b ->
   fetch (from + Z.of_nat i) (Ok b) /\ bundle_number b = from + Z.of_nat i) /\
(forall i a b, bs !! i = Some a -> bs !! S i = Some b -> bundle_parent b = bundle_hash a).
Proof.
intros (Hg & Hlen & [Hnum Hpar] & Hf)%FetchRange_Ok; [|done..].
assert (Hi : forall i b, bs !! i = Some b -> u64_add from (Z.of_nat i) = from + Z.of_nat i).
{ intros i b Hb%lookup_lt_Some. apply index_number with (to := to); [done..|lia]. }
rewrite block_count_eq in Hlen by done. apply range_guard_Ok in Hg as [Hle Hlt]; [|done..].
split_and!; [done|lia| |done].
intros i b Hb. rewrite <- (Hi i b Hb). auto.
Qed.

Lemma FetchRange_returns_value ctx r : FetchRange_returns fetch ctx from to concurrency r -> returns r.
Proof.
destruct 1 as [e Hg|s Hg Hr Hfin]; [done|].
eapply errs_in_mono; [by eapply finish_errs|done].
Qed.

(** C6: Whatever the interleaving of the producer, the workers and a
  cancellation, if [FetchRange] returns bundles then they are exactly the
  blocks [from] to [to] in order: the bundle at position [i] is one that
  [FetchBlock] returned for block [from + i], it carries that number, and its
  parent hash is the hash of the bundle before it. *)
Theorem fetch_range_sound ctx bs :
FetchRange_returns fetch ctx from to concurrency (Ok bs) ->
from <= to /\ Z.of_nat (length bs) = to - from + 1 /\
(forall i b, bs !! i = Some b ->
   fetch (from + Z.of_nat i) (Ok b) /\ bundle_number b = from + Z.of_nat i) /\
(forall i a b, bs !! i = Some a -> bs !! S i = Some b -> bundle_parent b = bundle_hash a).
Proof. apply FetchRange_range. Qed.

(** C37: Every error of [FetchRange] has a cause.  A range is refused up front exactly
  when it is empty or too large.  Otherwise, in every execution that ends, an error
  is one that [FetchBlock] returned for a block of the range (wrapped), or the error
  of the caller's context, which is done then, or [ErrInconsistentBlockData]; the
  last only when all blocks of the range were fetched, the context is open, and the
  blocks do not have consecutive numbers or one is not the child of the one before.
  The call never panics, and it succeeds only while the caller's context is open. *)
Theorem fetch_range_errors ctx :
match range_guard from to with
| Ok _ =>
    from <= to < from + max_int64 /\
    forall s, rtc (rstep fetch from (Z.to_nat (block_count from to))) (range_init ctx from to concurrency) s ->
      final s ->
      match finish from s with
      | Ok _ => ctx_Err (rs_ctx s) = None
      | Err e =>
          (exists n e', from <= n <= to /\ fetch n (Err e') /\ e = wrapf "failed to fetch block %d: %w" e') \/
          ctx_Err (rs_ctx s) = Some e \/
          (errors_Is e (IndexerSentinel ErrInconsistentBlockData) = true /\ ctx_Err (rs_ctx s) = None /\
           Z.of_nat (length (rs_bundles s)) = to - from + 1 /\
           (forall i b, rs_bundles s !! i = Some b -> fetch (from + Z.of_nat i) (Ok b)) /\
           ~ ((forall i b, rs_bundles s !! i = Some b -> bundle_number b = from + Z.of_nat i) /\
              (forall i a b, rs_bundles s !! i = Some a -> rs_bundles s !! S i = Some b ->
                 bundle_parent b = bundle_hash a)))
      | _ => False
      end
| Err e =>
    (to < from /\ errors_Is e (IndexerSentinel ErrInvalidLowFetchRange) = true) \/
    (from + max_int64 <= to /\ errors_Is e (IndexerSentinel ErrInvalidLargeFetchRange) = true)
| _ => False
end.
Proof.
destruct (range_guard from to) as [[]|e|m|] eqn:Hg.
- split; [apply range_guard_Ok in Hg; [lia|done..]|].
  intros s Hr Hfin. pose proof (range_inv _ _ _ _ _ _ Hr) as Hinv.
  pose proof (fun i => index_number from to Hfrom Hto Hg i) as Hnum.
  pose proof (block_count_eq from to Hfrom Hto Hg) as Hcount.
  pose proof (finish_errs _ _ _ _ _ _ Hr) as He. pose proof (finish_Ok from s) as Hok.
  destruct (finish from s) as [bs|e|msg|]; try done.
  { destruct (proj1 (Hok bs) eq_refl) as (_ & -> & _). done. }
  destruct He as [(i & e' & Hi & Hf & ->)|[Hc|(Hinc & Hno & Hc & Hch)]]; [|by auto|].
  { left. rewrite Hnum in Hf by done. exists (from + Z.of_nat i), e'. split_and!; try done; lia. }
  right; right. pose proof (inv_bundles _ _ _ _ _ Hinv) as Hlen. rewrite Hc.
  assert (from <= to) by (apply range_guard_Ok in Hg; [lia|done..]).
  assert (Hix : forall i b, rs_bundles s !! i = Some b -> u64_add from (Z.of_nat i) = from + Z.of_nat i).
  { intros i b Hb%lookup_lt_Some. apply Hnum. lia. }
  split_and!; [done|done|lia| |].
  + intros i b Hb. destruct (final_done _ _ _ _ _ i Hinv Hfin Hno Hc) as (b' & Hb' & Hf).
    { apply lookup_lt_Some in Hb. lia. }
    rewrite (Hix i b Hb) in Hf. congruence.
  + intros [Hn Hp]. apply Hch. split; [|done]. intros i b Hb. rewrite (Hix i b Hb). auto.
- revert Hg. unfold range_guard. destruct (Z.ltb_spec to from); simpl.
  { intros [= <-]. by left. }
  rewrite u64_sub_small by int_lia. destruct (Z.leb_spec max_int64 (to - from)); [|done].
  intros [= <-]. right. split; [lia|done].
- revert Hg. unfold range_guard, reject_if. by repeat case_match.
- revert Hg. unfold range_guard, reject_if. by repeat case_match.
Qed.

(** C7: No execution of the pool deadlocks or runs forever.  If [FetchBlock]
  always returns, then in every reachable state either all goroutines are done
  or one of them can move (without help from the caller's context), and no
  execution has more than two steps per block, one per worker and two more.
  So every call of [FetchRange] returns. *)
Theorem fetch_range_terminates ctx :
(forall n, from <= n <= to -> exists r, fetch n r /\ returns r) ->
range_guard from to = Ok tt ->
let step := rstep fetch from (Z.to_nat (block_count from to)) in
let init := range_init ctx from to concurrency in
(forall s, rtc step init s -> final s \/ exists s', step s s' /\ rs_ctx s' = rs_ctx s) /\
(forall n s, nsteps step n init s ->
   Z.of_nat n <= 2 * (to - from + 1) + worker_count concurrency (to - from + 1) + 2) /\
(forall s, rtc step init s -> exists s', rtc step s s' /\ final s').
Proof.
intros Htot Hg. cbn zeta. split_and!.
- intros s Hr. apply (pool_progress _ _ _ _ s (pool_workers_pos from to concurrency Hfrom Hto Hg));
    [intros i Hi|by eapply range_inv].
  pose proof (index_number from to Hfrom Hto Hg i Hi) as Heq. rewrite Heq. apply Htot.
  rewrite block_count_eq in Hi by done. lia.
- intros n s Hn%nsteps_weight. unfold weight at 2, range_init in Hn. simpl in Hn.
  rewrite block_count_eq in Hn by done. apply range_guard_Ok in Hg; [|done..].
  pose proof (worker_count_bounds concurrency (to - from + 1)).
  rewrite idle_weight in Hn. destruct ctx; simpl in Hn; lia.
- intros s Hr. destruct (range_finishes fetch from to concurrency Hfrom Hto Hg s) as (s' & ? & ? & _);
    [done|by eapply range_inv|eauto].
Qed.

(** C36: At most [concurrency] blocks are fetched at a time (one if [concurrency]
  is below one), never more than the range holds, no two workers fetch the same
  block, and every block being fetched lies in the range. *)
Theorem fetch_range_bounded ctx s :
range_guard from to = Ok tt ->
rtc (rstep fetch from (Z.to_nat (block_count from to))) (range_init ctx from to concurrency) s ->
Z.of_nat (length (rs_workers s)) <= Z.max 1 concurrency /\
Z.of_nat (length (rs_workers s)) <= to - from + 1 /\
(forall w1 w2 i, rs_workers s !! w1 = Some (Fetching i) -> rs_workers s !! w2 = Some (Fetching i) ->
   w1 = w2) /\
(forall w i, rs_workers s !! w = Some (Fetching i) -> from + Z.of_nat i <= to).
Proof.
intros Hg Hr. pose proof (range_inv _ _ _ _ _ _ Hr) as Hinv.
rewrite (inv_workers _ _ _ _ _ Hinv), block_count_eq by done.
assert (1 <= to - from + 1) by (apply range_guard_Ok in Hg; [lia|done..]).
pose proof (worker_count_bounds concurrency (to - from + 1)).
split_and!; [lia|lia|by apply (inv_unique _ _ _ _ _ Hinv)|].
intros w i Hw. destruct (inv_flight _ _ _ _ _ Hinv i) as [_ Hi]; [by exists w|].
rewrite block_count_eq in Hi by done. lia.
Qed.
End Properties.

Section Sequential.
Variable f : Z -> result BlockBundle.
Variables (from to concurrency : Z).
Abbreviation fetch := (fun n r => r = f n).

Lemma sequential_range_Ok bs :
sequential_range f from to = Ok bs <->
range_guard from to = Ok tt /\ length bs = Z.to_nat (block_count from to) /\ chained from bs /\
forall i b, bs !! i = Some b -> f (u64_add from (Z.of_nat i)) = Ok b.
Proof.
unfold sequential_range. rewrite bind_Ok_iff. setoid_rewrite bind_Ok_iff.
setoid_rewrite bind_Ok_iff. setoid_rewrite fetch_each_Ok. split.
- intros ([] & Hg & bs' & [Hlen Hb] & [] & Hv & [= ->]).
  split_and!; try done. by apply validateFetchedBundles_chained.
- intros (Hg & Hlen & Hv & Hb). exists tt. split; [done|]. exists bs. split; [done|].
  exists tt. split; [by apply validateFetchedBundles_chained|done].
Qed.

(** A finished pool holds the sequential result, unless the context ended. *)
Lemma final_sequential ctx bs s :
sequential_range f from to = Ok bs ->
rtc (rstep fetch from (Z.to_nat (block_count from to))) (range_init ctx from to concurrency) s ->
final s ->
match ctx_Err (rs_ctx s) with None => finish from s = Ok bs | Some e => finish from s = Err e end.
Proof.
intros (Hg & Hlen & Hch & Hb)%sequential_range_Ok Hr Hfin.
pose proof (range_inv _ _ _ _ _ _ Hr) as Hinv.
assert (He : rs_errCh s = None).
{ destruct (rs_errCh s) as [e|] eqn:E; [exfalso|done].
  destruct (inv_error _ _ _ _ _ Hinv e E) as (i & e' & Hi & Hfe & _).
  destruct (lookup_lt_is_Some_2 bs i) as [b Hbi]; [lia|]. specialize (Hb i b Hbi). congruence. }
destruct (rs_ctx s) eqn:Hc; simpl; [|unfold finish, check_ctx; by rewrite He, Hc..].
assert (Heq : rs_bundles s = bs); [|apply finish_Ok; by rewrite Heq].
apply (list_eq_same_length _ _ (length bs)); [done|by rewrite Hlen; apply (inv_bundles _ _ _ _ _ Hinv)|].
intros i b b' Hi Hbi Hbi'.
destruct (final_done _ _ _ _ _ i Hinv Hfin He Hc) as (b'' & ? & Hf'); [lia|].
specialize (Hb i b' Hbi'). congruence.
Qed.
End Sequential.

(** C8: The concurrent [FetchRange] computes what fetching the blocks one after the
    other computes.  For an endpoint that answers each block deterministically and
    always answers, the call with an open context may return bundles exactly when
    the sequential loop returns them; and when the sequential loop succeeds, every
    execution returns its result unless the caller's context ends. *)
Theorem fetch_range_sequential f from to concurrency :
  is_u64 from -> is_u64 to -> (forall n, returns (f n)) ->
  let fetch := fun n r => r = f n in
  (forall bs, FetchRange_returns fetch CtxOpen from to concurrency (Ok bs) <->
              sequential_range f from to = Ok bs) /\
  (forall ctx bs r, sequential_range f from to = Ok bs ->
     FetchRange_returns fetch ctx from to concurrency r ->
     r = Ok bs \/ exists c e, ctx_Err c = Some e /\ r = Err e).
Proof.
  intros Hf Ht Htot fetch. split.
  - intros bs. split.
    + intros Hr%FetchRange_Ok; [|done..]. apply sequential_range_Ok.
      destruct Hr as (Hg & Hlen & Hch & Hb). split_and!; try done.
      intros i b Hi. by rewrite <- (Hb i b Hi).
    + intros Hseq. pose proof (proj1 (proj1 (sequential_range_Ok f from to bs) Hseq)) as Hg.
      destruct (range_finishes fetch from to concurrency Hf Ht Hg (range_init CtxOpen from to concurrency))
        as (s & Hr & Hfin & Hc); [intros n _; by exists (f n)|by eapply range_inv|].
      pose proof (final_sequential _ _ _ _ _ _ _ Hseq Hr Hfin) as H. rewrite Hc in H. simpl in H.
      rewrite <- H. by constructor.
  - intros ctx bs r Hseq. destruct 1 as [e Hg|s Hg Hr Hfin].
    + apply sequential_range_Ok in Hseq as [Hg' _]. congruence.
    + pose proof (final_sequential _ _ _ _ _ _ _ Hseq Hr Hfin) as H.
      destruct (ctx_Err (rs_ctx s)) eqn:E; eauto.
Qed.

(** ** Evaluation of one schedule *)

Section SchedulerSound.
Variable f : Z -> result BlockBundle.
Variables (from : Z) (blockCount : nat).
Abbreviation step := (rstep (fun n r => r = f n) from blockCount).

Lemma worker_turn_sound s w st s' :
rs_workers s !! w = Some st -> worker_turn f from blockCount s w st = Some s' -> step s s'.
Proof.
intros Hw. destruct st as [|i| |]; simpl; [| | |done].
- destruct (worker_done s) eqn:Hd; [intros [= <-]; by apply step_worker_cancel|].
  destruct (rs_producer s) as [i|] eqn:Hp; [|intros [= <-]; by apply step_worker_closed].
  destruct (Nat.ltb_spec i blockCount); [|done]. intros [= <-]. by apply step_deliver.
- destruct (f (u64_add from (Z.of_nat i))) as [b|e|m|] eqn:Hf; try done; intros [= <-].
  + by apply step_fetch_ok.
  + by apply (step_fetch_err _ _ _ s w i e).
- intros [= <-]. by apply step_cancel.
Qed.

Lemma workers_turn_sound s s' ws : forall w,
(forall k st, ws !! k = Some st -> rs_workers s !! (w + k)%nat = Some st) ->
workers_turn f from blockCount s w ws = Some s' -> step s s'.
Proof.
induction ws as [|st ws IH]; intros w; simpl; [done|]. rewrite forall_lookup_cons.
rewrite Nat.add_0_r. intros [Hst Hws].
destruct (worker_turn f from blockCount s w st) eqn:E.
- intros [= <-]. by eapply worker_turn_sound.
- apply IH. intros k x Hk. rewrite Nat.add_succ_comm. auto.
Qed.

Lemma turn_sound s s' : turn f from blockCount s = Some s' -> step s s'.
Proof.
unfold turn. destruct (rs_producer s) as [i|] eqn:Hp; [|by apply workers_turn_sound].
destruct (Nat.eqb_spec i blockCount) as [->|_]; [intros [= <-]; by apply step_close|].
destruct (Nat.ltb_spec i blockCount); [|by apply workers_turn_sound].
destruct (worker_done s) eqn:Hd; [intros [= <-]; by eapply step_producer_cancel|].
by apply workers_turn_sound.
Qed.

Lemma run_sound fuel s : rtc step s (run f from blockCount fuel s).
Proof.
revert s. induction fuel as [|fuel IH]; intros s; simpl; [done|].
destruct (turn f from blockCount s) eqn:E; [|done]. eapply rtc_l; [by apply turn_sound|done].
Qed.

Lemma workers_turn_None s ws : forall w,
workers_turn f from blockCount s w ws = None ->
forall k st, ws !! k = Some st -> worker_turn f from blockCount s (w + k) st = None.
Proof.
induction ws as [|st ws IH]; intros w; simpl; [done|]. rewrite forall_lookup_cons, Nat.add_0_r.
destruct (worker_turn f from blockCount s w st) eqn:E; [done|]. intros Hw. split; [done|].
intros k x Hk. rewrite <- Nat.add_succ_comm. eauto.
Qed.

Hypothesis f_returns : forall n, returns (f n).

Lemma turn_None workers s :
(0 < workers)%nat -> pool_inv (fun n r => r = f n) from blockCount workers s ->
turn f from blockCount s = None -> final s.
Proof.
intros Hpos Hinv Hturn.
assert (Hwt : workers_turn f from blockCount s 0 (rs_workers s) = None /\
  forall i, rs_producer s = Sending i -> (i < blockCount)%nat /\ worker_done s = false).
{ revert Hturn. unfold turn. destruct (rs_producer s) as [i|] eqn:Hp; [|done].
  destruct (Nat.eqb_spec i blockCount); [done|].
  pose proof (inv_next _ _ _ _ _ Hinv i Hp). destruct (Nat.ltb_spec i blockCount); [|lia].
  destruct (worker_done s) eqn:Hd; [done|]. intros Ht. split; [done|]. by intros ? [= <-]. }
destruct Hwt as [Hwt Hp]. assert (Hall : Forall (fun w => w = Stopped) (rs_workers s)).
{ apply Forall_lookup. intros w st Hw. pose proof (workers_turn_None _ _ _ Hwt _ _ Hw) as Ht.
  destruct st as [|i| |]; simpl in Ht; [| |done|done].
  - destruct (worker_done s); [done|]. destruct (rs_producer s) as [i|]; [|done].
    destruct (Hp i eq_refl) as [Hi%Nat.ltb_lt _]. by rewrite Hi in Ht.
  - pose proof (f_returns (u64_add from (Z.of_nat i))) as Hr. by destruct (f _). }
split; [|done]. destruct (rs_producer s) as [i|] eqn:Hpr; [|done].
destruct (lookup_lt_is_Some_2 (rs_workers s) 0%nat) as [st Hst]; [by rewrite (inv_workers _ _ _ _ _ Hinv)|].
pose proof (Forall_lookup_1 _ _ _ _ Hall Hst) as ->.
destruct (Hp i eq_refl) as [_ Hd].
destruct (inv_stopped _ _ _ _ _ Hinv) as [?|?]; [by exists 0%nat|congruence..].
Qed.

Lemma run_final workers fuel s :
(0 < workers)%nat -> pool_inv (fun n r => r = f n) from blockCount workers s ->
(weight blockCount s <= fuel)%nat -> final (run f from blockCount fuel s).
Proof.
intros Hpos. revert s. induction fuel as [|fuel IH]; intros s Hinv Hw; cbn [run];
  destruct (turn f from blockCount s) as [s'|] eqn:Ht; try by eapply turn_None.
- apply turn_sound, rstep_weight in Ht. lia.
- apply IH; [by eapply pool_inv_step, turn_sound|]. apply turn_sound, rstep_weight in Ht. lia.
Qed.
End SchedulerSound.

(** [FetchRange] under that schedule. *)
Definition run_range (f : Z -> result BlockBundle) (ctx : ctx_state) (from to concurrency : Z)
    : result (list BlockBundle) :=
  _ ← range_guard from to;
  let n := Z.to_nat (block_count from to) in
  let init := range_init ctx from to concurrency in
  finish from (run f from n (weight n init) init).

Lemma run_range_returns f ctx from to concurrency :
  is_u64 from -> is_u64 to -> (forall n, returns (f n)) ->
  FetchRange_returns (fun n r => r = f n) ctx from to concurrency (run_range f ctx from to concurrency).
Proof.
  intros Hf Ht Hr. unfold run_range. destruct (range_guard from to) as [[]|e|m|] eqn:Hg; simpl.
  - apply range_finished; [done|apply run_sound|].
    eapply run_final; [done|by apply (pool_workers_pos from to concurrency)|apply pool_inv_init|done].
  - by apply range_rejected.
  - exfalso. revert Hg. unfold range_guard, reject_if. by repeat case_match.
  - exfalso. revert Hg. unfold range_guard, reject_if. by repeat case_match.
Qed.

Lemma FetchRange_returns_mono (fetch fetch' : Z -> result BlockBundle -> Prop) ctx from to concurrency r :
  (forall n x, fetch n x -> fetch' n x) -> FetchRange_returns fetch ctx from to concurrency r ->
  FetchRange_returns fetch' ctx from to concurrency r.
Proof.
  intros Himp. destruct 1 as [e Hg|s Hg Hr Hfin]; [by apply range_rejected|].
  apply range_finished; [done| |done]. clear Hg Hfin. induction Hr as [|s1 s2 s3 Hs _ IH]; [done|].
  eapply rtc_l; [|exact IH]. destruct Hs;
    [eapply step_deliver|eapply step_close|eapply step_producer_cancel|eapply step_worker_cancel
    |eapply step_worker_closed|eapply step_fetch_ok|eapply step_fetch_err|eapply step_cancel|eapply step_ctx]; eauto.
Qed.

(** An endpoint that knows blocks 10 to 12. *)
Definition fixture_fetch (n : Z) : result BlockBundle :=
  if n =? 10 then Ok block10 else if n =? 11 then Ok block11 else if n =? 12 then Ok block12
  else Err (Errorf "not found" []).
Abbreviation fixture_fetches := (fun n r => r = fixture_fetch n).

Definition fixture_run (to fuel : Z) : rstate :=
  run fixture_fetch 10 (Z.to_nat (block_count 10 to)) (Z.to_nat fuel) (range_init CtxOpen 10 to 2).

Lemma fixture_run_reachable to fuel :
  rtc (rstep fixture_fetches 10 (Z.to_nat (block_count 10 to))) (range_init CtxOpen 10 to 2)
    (fixture_run to fuel).
Proof. apply run_sound. Qed.

Lemma fixture_run_final : final (fixture_run 12 40).
Proof. vm_compute. split; [done|]. repeat constructor. Qed.

Lemma fixture_returns :
  FetchRange_returns fixture_fetches CtxOpen 10 12 2 (Ok [block10; block11; block12]).
Proof.
  replace (Ok [block10; block11; block12]) with (finish 10 (fixture_run 12 40)) by reflexivity.
  apply range_finished; [done|apply fixture_run_reachable|apply fixture_run_final].
Qed.

Lemma fixture_fetch_returns n : returns (fixture_fetch n).
Proof. unfold fixture_fetch. by repeat case_match. Qed.

Lemma fetch_range_sound_witness :
  bundle_number block12 = 10 + 2 /\ bundle_parent block11 = bundle_hash block10.
Proof.
  destruct (fetch_range_sound fixture_fetches 10 12 2 ltac:(done) ltac:(done) CtxOpen
    [block10; block11; block12] fixture_returns) as (_ & _ & Hn & Hp).
  split; [by apply (Hn 2%nat)|by apply (Hp 0%nat)].
Defined.

(** Block 13 is unknown: the error of the finished pool is that of a fetch. *)
Lemma fetch_range_errors_witness :
  exists n e', 10 <= n <= 13 /\ fixture_fetch n = Err e'.
Proof.
  destruct (fetch_range_errors fixture_fetches 10 13 2 ltac:(done) ltac:(done) CtxOpen) as [_ Hrun].
  specialize (Hrun (fixture_run 13 40) (fixture_run_reachable 13 40)).
  destruct Hrun as [(n & e' & ? & ? & _)|[Hc|[Hi _]]].
  - vm_compute. split; [done|]. repeat constructor.
  - by exists n, e'.
  - discriminate Hc.
  - discriminate Hi.
Defined.

Lemma fetch_range_terminates_witness :
  exists s, final s /\ rtc (rstep fixture_fetches 10 3) (range_init CtxOpen 10 12 2) s.
Proof.
  destruct (fetch_range_terminates fixture_fetches 10 12 2 ltac:(done) ltac:(done) CtxOpen)
    as (_ & _ & Hfin).
  - intros n _. exists (fixture_fetch n). split; [done|apply fixture_fetch_returns].
  - reflexivity.
  - destruct (Hfin (range_init CtxOpen 10 12 2)) as (s & Hr & Hs); [done|]. by exists s.
Defined.

Lemma fetch_range_bounded_witness : Z.of_nat (length (rs_workers (fixture_run 12 3))) <= 2.
Proof.
  apply (fetch_range_bounded fixture_fetches 10 12 2 ltac:(done) ltac:(done) CtxOpen (fixture_run 12 3)).
  - reflexivity.
  - apply fixture_run_reachable.
Defined.

Lemma fetch_range_sequential_witness :
  FetchRange_returns fixture_fetches CtxOpen 10 12 2 (Ok [block10; block11; block12]).
Proof.
  apply (fetch_range_sequential fixture_fetch 10 12 2); [done|done|apply fixture_fetch_returns|].
  vm_compute. reflexivity.
Defined.
