(* ===== verification/Syncer.v ===== *)
(** * One synchronization cycle: [internal/indexer/syncer.go]

    [SyncOnce] selects a head, decides from the stored tip which suffix of the
    stored segment to replace, fetches it and applies one canonical update.  It
    is an [action] on the pair of the store, known through [IndexStore], and the
    environment, which answers header requests and range fetches and may change
    between any two of them. *)
From S2P Require Import Prelude Errors Domain Validate Store Fixtures Memory Fetcher Ranger.
From stdpp Require Import prelude gmap list strings.
From Stdlib Require Import ZArith Lia.

Local Open Scope Z_scope.

(** ** Configuration and results *)

Record Config := mkConfig {
  Config_ChainID : Z;
  Config_PollInterval : Z;
  Config_BlockWindow : Z;
  Config_HeadMode : HeadMode;
  Config_RPCTimeout : Z;
  Config_RPCConcurrency : Z;
  Config_RetryAttempts : Z;
  Config_RetryMinBackoff : Z;
  Config_RetryMaxBackoff : Z
}.

Definition Config_typed (c : Config) : Prop :=
  is_u64 (Config_ChainID c) /\ is_u64 (Config_BlockWindow c).

(** The dependencies of a [Syncer] that its validation looks at: the fetcher (a
    pointer, with its big-integer chain ID), and whether the chain reader and the
    store are present. *)
Record Syncer := mkSyncer {
  sy_fetcher : option (option Z);
  sy_chain : bool;
  sy_store : bool;
  sy_config : Config
}.

Inductive SyncMode :=
| SyncModeInitialLoad | SyncModeCurrent | SyncModeAppend | SyncModeFullReload | SyncModeReorg.
#[global] Instance SyncMode_eq_dec : EqDecision SyncMode.
Proof. solve_decision. Defined.

Record ReorgResult := mkReorg {
  Reorg_CommonAncestor : option ChainTip;
  Reorg_ReplacedFrom : Z;
  Reorg_ReplacedTo : Z;
  Reorg_ReplacedBlockCount : Z
}.

Record replacementPlan := mkPlan {
  Plan_From : Z;
  Plan_Mode : SyncMode;
  Plan_Reorg : option ReorgResult
}.

Record SyncResult := mkSyncResult {
  Result_Head : ChainTip;
  Result_StoredTip : option ChainTip;
  Result_Mode : SyncMode;
  Result_FromBlock : Z;
  Result_ReplaceFrom : Z;
  Result_BlockCount : Z;
  Result_TransactionCount : Z;
  Result_EventCount : Z;
  Result_SyncedAt : Time;
  Result_Reorg : option ReorgResult
}.

Definition sync_err (s : indexer_sentinel) (format : string) : error := wrapf format (indexer_err s).

(** ** Pure helpers *)

(** [*types.Header] as the syncer reads it: [Number] and [Hash()]. *)
Record Header := mkHeader {
  Header_Number : option Z;
  Header_Hash : Hash
}.

Definition validHeaderNumber (header : Header) : result Z :=
  match Header_Number header with
  | Some number =>
      if (0 <=? number) && (number <=? max_uint64) then Ok number
      else Err (inconsistent "%w: selected head has invalid block number %s")
  | None => Err (inconsistent "%w: selected head has invalid block number %s")
  end.

Definition windowStart (head blockWindow : Z) : Z :=
  if head <? u64_sub blockWindow 1 then 0 else u64_sub head (u64_sub blockWindow 1).

Definition cloneChainTip (tip : option ChainTip) : option ChainTip :=
  match tip with None => None | Some t => Some (mkTip (Tip_Number t) (Tip_Hash t)) end.

(** [chainID == nil || !chainID.IsUint64() || chainID.Uint64() != id] *)
Definition chain_id_mismatch (chainID : option Z) (id : Z) : bool :=
  match chainID with
  | None => true
  | Some c => negb ((0 <=? c) && (c <=? max_uint64)) || negb (c =? id)
  end.

Definition validateSyncOnceConfig (s : Syncer) : result unit :=
  let config := sy_config s in
  match sy_fetcher s with
  | None => Err (sync_err ErrInvalidSyncDependency "%w: fetcher is required")
  | Some chainID =>
      _ ← reject_if (negb (sy_chain s)) (sync_err ErrInvalidSyncDependency "%w: chain reader is required");
      _ ← reject_if (negb (sy_store s)) (sync_err ErrInvalidSyncDependency "%w: index store is required");
      _ ← reject_if (Config_ChainID config =? 0)
            (sync_err ErrInvalidSyncConfig "%w: chain ID must be greater than zero");
      _ ← reject_if (chain_id_mismatch chainID (Config_ChainID config))
            (sync_err ErrInvalidSyncDependency "%w: fetcher chain ID does not match sync config");
      _ ← reject_if ((Config_BlockWindow config =? 0) || (MaxBlockWindow <? Config_BlockWindow config))
            (sync_err ErrInvalidSyncConfig "%w: block window must be between 1 and %d");
      _ ← reject_if (Config_RPCConcurrency config <? 1)
            (sync_err ErrInvalidSyncConfig "%w: RPC concurrency must be greater than zero");
      let mode := Config_HeadMode config in
      reject_if (negb (bool_decide (mode = HeadLatest) || bool_decide (mode = HeadSafe)
                       || bool_decide (mode = HeadFinalized)))
        (sync_err ErrInvalidSyncConfig "%w: unsupported head mode %q")
  end.

(** ** The environment of a cycle *)

(** [HeaderByNumber] is the chain reader's method ([None] is a nil selector, the
    inner [None] a nil header); [fetchRange] is a call of [FetchRange] with the
    interleaving the run takes; [clock] is [s.now()]. *)
Class ChainEnv (E : Type) := {
  HeaderByNumber : option Z -> E -> reply (option Header) * E;
  fetchRange : Z -> Z -> Z -> action E (list BlockBundle);
  clock : E -> Time
}.

(** The results [FetchBlock] may have for block [n], whatever the endpoint replies to
    this call, its replies being of go-ethereum's types.  This is all that is assumed of
    the environment's range fetches; what a given reply becomes is in [Fetcher]. *)
Definition block_fetch `{GoRuntime} (Sender : EthTransaction -> reply Address) (chainID n : Z)
    (r : result BlockBundle) : Prop :=
  exists br lr now, r = FetchBlock Sender chainID n br lr now /\
    (forall eb, br = inl (Some eb) -> EthBlock_typed eb).

(** [fetchRange] behaves as [FetchRange] with the fetcher's [FetchBlock]. *)
Class ChainEnvLaws (E : Type) `{GoRuntime, ChainEnv E} := {
  env_sender : EthTransaction -> reply Address;
  env_chainID : Z;
  range_law from to concurrency e : is_u64 from -> is_u64 to -> exists ctx,
    FetchRange_returns (block_fetch env_sender env_chainID) ctx from to concurrency
      (fetchRange from to concurrency e).1
}.

Section Sync.
Context {St E : Type} `{IndexStore St, ChainEnv E}.
(** [rpc.SafeBlockNumber] and [rpc.FinalizedBlockNumber] of go-ethereum. *)
Variables (SafeBlockNumber FinalizedBlockNumber : Z).
Variable s : Syncer.

Definition world : Type := St * E.
Definition on_store {A} (m : action St A) : action world A :=
fun w => let '(r, st) := m w.1 in (r, (st, w.2)).
Definition on_env {A} (m : action E A) : action world A :=
fun w => let '(r, e) := m w.2 in (r, (w.1, e)).
Definition header_by_number (selector : option Z) : action world (option Header) :=
on_env (fun e => let '(r, e') := HeaderByNumber selector e in (of_reply r, e')).

Definition selector : option Z :=
let mode := Config_HeadMode (sy_config s) in
if bool_decide (mode = HeadSafe) then Some SafeBlockNumber
else if bool_decide (mode = HeadFinalized) then Some FinalizedBlockNumber
else None.

Definition selectedHead : action world Header := (
header <-- act_map_err (wrapf "read %s head: %w") (header_by_number selector) ;;
match header with
| None => act_err (inconsistent "%w: %s head is nil")
| Some h => act_ret h
end)%action.

Definition storedHash (storedTip : ChainTip) (number : Z) : action world Hash :=
if number =? Tip_Number storedTip then act_ret (Tip_Hash storedTip)
else on_store (CanonicalHash number).

Definition chainHash (number headNumber : Z) (headHash : Hash) : action world Hash :=
if number =? headNumber then act_ret headHash
else (
  header <-- act_map_err (wrapf "read canonical header %d: %w") (header_by_number (Some number)) ;;
  match header with
  | None => act_err (inconsistent "%w: canonical header %d is nil")
  | Some h =>
      actualNumber <-- act_lift (validHeaderNumber h) ;;
      do! act_lift (reject_if (negb (actualNumber =? number))
                      (inconsistent "%w: requested header %d, received header %d")) ;;
      act_ret (Header_Hash h)
  end)%action.

(** [for number := start; ; number--]; [None] is [found == false]. *)
Fixpoint ancestor_loop (fuel : nat) (storedTip : ChainTip) (headNumber : Z) (headHash : Hash)
  (retainFrom number : Z) : action world (option ChainTip) :=
match fuel with
| O => act_lift OutOfFuel
| S fuel' => (
    stored <-- act_try (storedHash storedTip number) ;;
    match stored with
    | Err e =>
        if errors_Is e (StoreSentinel StoreErrNotFound) then act_ret None
        else act_err (wrapf "read stored canonical hash for block %d: %w" e)
    | Ok storedHash =>
        chainHash <-- chainHash number headNumber headHash ;;
        if bool_decide (storedHash = chainHash) then act_ret (Some (mkTip number storedHash))
        else if number =? retainFrom then act_ret None
        else ancestor_loop fuel' storedTip headNumber headHash retainFrom (u64_sub number 1)
    | Panic msg => act_lift (Panic msg)
    | OutOfFuel => act_lift OutOfFuel
    end)%action
end.

(** Counting down from [start], even through zero, meets [retainFrom] after this
  many rounds. *)
Definition ancestor_fuel (start retainFrom : Z) : nat := S (Z.to_nat (u64_sub start retainFrom)).

Definition commonAncestor (storedTip : ChainTip) (headNumber : Z) (headHash : Hash) (retainFrom : Z)
  : action world (option ChainTip) :=
let start := Z.min (Tip_Number storedTip) headNumber in
ancestor_loop (ancestor_fuel start retainFrom) storedTip headNumber headHash retainFrom start.

Definition past_maximum : error := inconsistent "%w: cannot advance past maximum block number".

Definition replacementStart (storedTip : option ChainTip) (headNumber : Z) (headHash : Hash)
  (retainFrom : Z) : action world replacementPlan :=
match storedTip with
| None => act_ret (mkPlan retainFrom SyncModeInitialLoad None)
| Some tip =>
    if (headNumber <? Tip_Number tip) || (Tip_Number tip <? retainFrom)
    then act_ret (mkPlan retainFrom SyncModeFullReload None)
    else if (Tip_Number tip =? headNumber) && bool_decide (Tip_Hash tip = headHash)
    then if headNumber =? max_uint64 then act_err past_maximum
         else act_ret (mkPlan (u64_add headNumber 1) SyncModeCurrent None)
    else (
      ancestor <-- commonAncestor tip headNumber headHash retainFrom ;;
      match ancestor with
      | None =>
          act_ret (mkPlan retainFrom SyncModeReorg
            (Some (mkReorg None retainFrom (Tip_Number tip)
                     (u64_add (u64_sub (Tip_Number tip) retainFrom) 1))))
      | Some a =>
          if Tip_Number a =? max_uint64 then act_err past_maximum
          else if Tip_Number a =? Tip_Number tip
          then act_ret (mkPlan (u64_add (Tip_Number a) 1) SyncModeAppend None)
          else let replaceFrom := u64_add (Tip_Number a) 1 in
               act_ret (mkPlan replaceFrom SyncModeReorg
                 (Some (mkReorg (cloneChainTip (Some a)) replaceFrom (Tip_Number tip)
                          (u64_add (u64_sub (Tip_Number tip) replaceFrom) 1))))
      end)%action
end.

(** The bundles of the replaced suffix, ending in the selected head. *)
Definition fetch_suffix (replaceFrom headNumber : Z) (selectedHash : Hash)
  : action world (list BlockBundle) :=
if headNumber <? replaceFrom then act_ret []
else (
  bundles <-- act_map_err (wrapf "fetch canonical range [%d,%d]: %w")
                (on_env (fetchRange replaceFrom headNumber (Config_RPCConcurrency (sy_config s)))) ;;
  match last bundles with
  | None => act_lift (Panic "index out of range")
  | Some b =>
      if bool_decide (bundle_hash b = selectedHash) then act_ret bundles
      else act_err (sync_err ErrHeadChanged "%w: block %d was %s and became %s")
  end)%action.

Definition SyncOnce : action world SyncResult := (
do! act_lift (validateSyncOnceConfig s) ;;
head <-- selectedHead ;;
headNumber <-- act_lift (validHeaderNumber head) ;;
let retainFrom := windowStart headNumber (Config_BlockWindow (sy_config s)) in
let selectedHash := Header_Hash head in
storedTip <-- act_map_err (wrapf "read stored canonical tip: %w") (on_store CanonicalTip) ;;
plan <-- replacementStart storedTip headNumber selectedHash retainFrom ;;
let replaceFrom := Plan_From plan in
bundles <-- fetch_suffix replaceFrom headNumber selectedHash ;;
syncedAt <-- (fun w => (Ok (Time_UTC (clock w.2)), w)) ;;
do! act_map_err (wrapf "apply canonical update from block %d: %w")
      (on_store (ApplyCanonicalUpdate
         (mkUpdate (Config_ChainID (sy_config s)) replaceFrom retainFrom bundles syncedAt))) ;;
act_ret (mkSyncResult (mkTip headNumber selectedHash) (cloneChainTip storedTip) (Plan_Mode plan)
  retainFrom replaceFrom (Z.of_nat (length bundles))
  (Z.of_nat (sum_list_with (fun b => length (Bundle_Transactions b)) bundles))
  (Z.of_nat (sum_list_with (fun b => length (Bundle_Events b)) bundles))
  syncedAt (Plan_Reorg plan)))%action.
End Sync.

(** ** Facts about the pure helpers *)

Lemma windowStart_eq head w :
  is_u64 head -> 1 <= w <= MaxBlockWindow -> windowStart head w = Z.max 0 (head - (w - 1)).
Proof.
  unfold MaxBlockWindow. intros Hh Hw. unfold windowStart.
  rewrite (u64_sub_small w) by int_lia. destruct (Z.ltb_spec head (w - 1)); [lia|].
  rewrite u64_sub_small; int_lia.
Qed.

Lemma validHeaderNumber_Ok h n :
  validHeaderNumber h = Ok n <-> Header_Number h = Some n /\ is_u64 n.
Proof.
  unfold validHeaderNumber. destruct (Header_Number h) as [m|]; [|by split; [|intros [? _]]].
  destruct (Z.leb_spec 0 m), (Z.leb_spec m max_uint64); simpl; split; try done;
    try (intros [= ->]; split; [done|int_lia]); intros [[= ->] ?]; [done|int_lia..].
Qed.

Lemma validHeaderNumber_errs h : errs_in is_inconsistent (validHeaderNumber h).
Proof. unfold validHeaderNumber. repeat case_match; done. Qed.

(** What [validateSyncOnceConfig] requires. *)
Record sync_config_valid (s : Syncer) : Prop := {
  cv_fetcher : sy_fetcher s = Some (Some (Config_ChainID (sy_config s)));
  cv_chain : sy_chain s = true;
  cv_store : sy_store s = true;
  cv_chainID : 1 <= Config_ChainID (sy_config s) <= max_uint64;
  cv_window : 1 <= Config_BlockWindow (sy_config s) <= MaxBlockWindow;
  cv_concurrency : 1 <= Config_RPCConcurrency (sy_config s);
  cv_mode : Config_HeadMode (sy_config s) ∈ [HeadLatest; HeadSafe; HeadFinalized]
}.

Lemma chain_id_mismatch_false c id : is_u64 id -> chain_id_mismatch c id = false <-> c = Some id.
Proof.
  intros Hid. destruct c as [c|]; simpl; [|by split].
  rewrite orb_false_iff, !negb_false_iff, andb_true_iff, Z.eqb_eq, !Z.leb_le.
  split; [by intros [_ ->]|intros [= ->]; int_lia].
Qed.

Lemma validateSyncOnceConfig_Ok s :
  Config_typed (sy_config s) -> validateSyncOnceConfig s = Ok tt <-> sync_config_valid s.
Proof.
  intros [Hid Hw]. unfold validateSyncOnceConfig. destruct (sy_fetcher s) as [c|] eqn:Hf.
  - rewrite !bind_reject_iff, reject_if_Ok, !negb_false_iff, !orb_true_iff, !bool_decide_eq_true,
      chain_id_mismatch_false, orb_false_iff, !Z.eqb_neq, !Z.ltb_ge by done.
    split.
    + intros (? & ? & ? & -> & [? ?] & ? & Hm). split; try done; [int_lia..|set_solver].
    + intros [Hf' ? ? ? ? ? Hm]. rewrite Hf in Hf'. injection Hf' as ->. split_and!; try done; try int_lia. set_solver.
  - split; [done|]. intros []. congruence.
Qed.

Definition is_config_error (e : error) : Prop :=
  errors_Is e (IndexerSentinel ErrInvalidSyncConfig) = true \/
  errors_Is e (IndexerSentinel ErrInvalidSyncDependency) = true.

Lemma validateSyncOnceConfig_errs s : errs_in is_config_error (validateSyncOnceConfig s).
Proof.
  unfold validateSyncOnceConfig. destruct (sy_fetcher s); [|by right].
  repeat (apply errs_in_bind; [apply errs_in_reject_if; by (left + right)|intros _ _]).
  apply errs_in_reject_if. by left.
Qed.
