(* ===== verification/SyncerProofs.v ===== *)
(** * Correctness of a synchronization cycle

    [SyncOnce] against the store interface: for every store that satisfies
    [IndexStoreLaws] and every environment whose range fetches are those of
    [FetchRange]. *)
From S2P Require Import Prelude Errors Domain Validate Store Fixtures Memory MemoryStore Fetcher Ranger Syncer.
From stdpp Require Import prelude gmap list strings relations.
From Stdlib Require Import ZArith Lia.

Local Open Scope Z_scope.

(** A map whose keys lie in an interval is no larger than the interval. *)
Lemma size_interval {A} (m : gmap Z A) lo hi :
  (forall n, is_Some (m !! n) -> lo <= n <= hi) -> lo <= hi + 1 -> Z.of_nat (size m) <= hi - lo + 1.
Proof.
  intros Hk Hle. rewrite <- length_map_to_list, <- (length_fmap fst).
  assert (Hsub : (map_to_list m).*1 ⊆+ seqZ lo (hi - lo + 1)).
  { apply NoDup_submseteq; [apply NoDup_fst_map_to_list|].
    intros n ([k a] & -> & Hka)%list_elem_of_fmap. apply elem_of_map_to_list in Hka.
    apply elem_of_seqZ. simpl. specialize (Hk k). rewrite Hka in Hk. destruct Hk; [done|lia]. }
  apply submseteq_length in Hsub. rewrite length_seqZ in Hsub. lia.
Qed.

Lemma is_tip_unique m t t' : is_tip m (Some t) -> is_tip m t' -> t' = Some t.
Proof.
  intros (b & Hb & Hh & Hmax). destruct t' as [t'|]; simpl; [|by intros ->].
  intros (b' & Hb' & Hh' & Hmax').
  assert (Hn : Tip_Number t' = Tip_Number t).
  { apply Z.le_antisymm; [apply Hmax|apply Hmax']; eauto. }
  rewrite Hn in Hb'. destruct t, t'; simpl in *. congruence.
Qed.

(** Every block of the window that ends in the tip is stored. *)
Definition window_full (window : Z) (m : bundle_map) : Prop :=
  forall t, is_tip m (Some t) ->
  forall n, Z.max 0 (Tip_Number t - (window - 1)) <= n <= Tip_Number t -> is_Some (m !! n).

(** ** What the environment answered *)
Section Specs.
Context {E : Type} `{ChainEnv E}.
Variables (m : bundle_map) (headNumber : Z) (headHash : Hash).

(** The hash the cycle takes as canonical for block [n]: the selected head's, or
  the one of a header the endpoint answered for [n]. *)
Definition chain_answer (n : Z) (h : Hash) : Prop :=
if decide (n = headNumber) then h = headHash
else exists e hd, (HeaderByNumber (Some n) e).1 = inl (Some hd) /\
       Header_Number hd = Some n /\ Header_Hash hd = h.

Definition hash_stored (n : Z) (h : Hash) : Prop := exists b, m !! n = Some b /\ bundle_hash b = h.

(** The stored block [n] is not the canonical one. *)
Definition diverged (n : Z) : Prop :=
exists h h', hash_stored n h /\ chain_answer n h' /\ h <> h'.

(** The outcome of the search for a common ancestor down from [start]. *)
Definition ancestor_found (retainFrom start : Z) (a : option ChainTip) : Prop :=
match a with
| Some t =>
    retainFrom <= Tip_Number t <= start /\ hash_stored (Tip_Number t) (Tip_Hash t) /\
    chain_answer (Tip_Number t) (Tip_Hash t) /\
    forall n, Tip_Number t < n <= start -> diverged n
| None =>
    exists g, retainFrom - 1 <= g <= start /\ (g = retainFrom - 1 \/ m !! g = None) /\
      forall n, g < n <= start -> diverged n
end.

(** What the modes of a cycle mean. *)
Definition plan_spec (storedTip : option ChainTip) (retainFrom : Z) (plan : replacementPlan) : Prop :=
match Plan_Mode plan with
| SyncModeInitialLoad => storedTip = None /\ Plan_From plan = retainFrom /\ Plan_Reorg plan = None
| SyncModeFullReload => exists t, storedTip = Some t /\
    (headNumber < Tip_Number t \/ Tip_Number t < retainFrom) /\
    Plan_From plan = retainFrom /\ Plan_Reorg plan = None
| SyncModeCurrent => storedTip = Some (mkTip headNumber headHash) /\ headNumber < max_uint64 /\
    Plan_From plan = headNumber + 1 /\ Plan_Reorg plan = None
| SyncModeAppend => exists t, storedTip = Some t /\ retainFrom <= Tip_Number t < headNumber /\
    chain_answer (Tip_Number t) (Tip_Hash t) /\
    Plan_From plan = Tip_Number t + 1 /\ Plan_Reorg plan = None
| SyncModeReorg => exists t a, storedTip = Some t /\ retainFrom <= Tip_Number t <= headNumber /\
    Plan_Reorg plan = Some (mkReorg a (Plan_From plan) (Tip_Number t) (Tip_Number t - Plan_From plan + 1)) /\
    ancestor_found retainFrom (Tip_Number t) a /\
    match a with
    | Some t' => Tip_Number t' < Tip_Number t /\ Plan_From plan = Tip_Number t' + 1
    | None => Plan_From plan = retainFrom
    end
end.

Lemma plan_spec_bounds tip retainFrom plan :
retainFrom <= headNumber <= max_uint64 -> plan_spec tip retainFrom plan ->
retainFrom <= Plan_From plan <= headNumber + 1 /\ Plan_From plan <= max_uint64.
Proof.
intros Hr. unfold plan_spec. destruct (Plan_Mode plan).
- intros (_ & -> & _). lia.
- intros (_ & ? & -> & _). lia.
- intros (t & _ & ? & _ & -> & _). lia.
- intros (t & _ & _ & -> & _). lia.
- intros (t & [t'|] & _ & ? & _ & Ha & Hp); [simpl in Ha|]; lia.
Qed.
End Specs.

(** ** Rules for the world of a cycle *)
Section Rules.
Context {St E : Type}.

Lemma wp_on_store {A} (m : action St A) (Q : result A -> St * E -> Prop) st e :
wp m (fun r st' => Q r (st', e)) st -> wp (on_store m) Q (st, e).
Proof. unfold wp, on_store. simpl. by destruct (m st). Qed.

Lemma wp_on_env {A} (m : action E A) (Q : result A -> St * E -> Prop) st e :
wp m (fun r e' => Q r (st, e')) e -> wp (on_env m) Q (st, e).
Proof. unfold wp, on_env. simpl. by destruct (m e). Qed.

Lemma wp_ret {W A} (a : A) (Q : result A -> W -> Prop) w : Q (Ok a) w -> wp (act_ret a) Q w.
Proof. done. Qed.

Lemma wp_err {W A} err (Q : result A -> W -> Prop) w : Q (Err err) w -> wp (act_err err) Q w.
Proof. done. Qed.
End Rules.

Section Cycle.
Context {St E : Type} `{GoRuntime} `{IndexStore St} `{!IndexStoreLaws St} `{ChainEnv E} `{!ChainEnvLaws E}.
Variables (SafeBlockNumber FinalizedBlockNumber : Z) (sy : Syncer).
Implicit Types (w : St * E).

(** The environment after one header request. *)
Definition header_call (e e' : E) : Prop := exists sel, e' = (HeaderByNumber sel e).2.

Section Reading.
(** The environment the cycle starts in. *)
Variable e0 : E.

(** The store holds the segment [m], and so far the cycle only asked for headers. *)
Definition holds (m : bundle_map) w : Prop := store_ok w.1 /\ view w.1 = m /\ rtc header_call e0 w.2.

(** The call returned, the store still holds [m], and a value satisfies [Q]. *)
Definition reads {A} (m : bundle_map) (Q : A -> Prop) (r : result A) w : Prop :=
holds m w /\ returns r /\ forall a, r = Ok a -> Q a.

Lemma reads_ret {A} m (Q : A -> Prop) a w : holds m w -> Q a -> wp (act_ret a) (reads m Q) w.
Proof. intros. split_and!; [done|done|]. by intros ? [= <-]. Qed.

Lemma reads_err {A} m (Q : A -> Prop) e w : holds m w -> wp (act_err e) (reads m Q) w.
Proof. done. Qed.

Lemma reads_lift {A} m (Q : A -> Prop) (r : result A) w :
holds m w -> returns r -> (forall a, r = Ok a -> Q a) -> wp (act_lift r) (reads m Q) w.
Proof. done. Qed.

Lemma reads_map_err {A} m (Q : A -> Prop) f (c : action (St * E) A) w :
wp c (reads m Q) w -> wp (act_map_err f c) (reads m Q) w.
Proof.
intros Hc. apply wp_map_err. eapply wp_mono; [exact Hc|]. intros r w' (Hh & Hr & HQ).
split_and!; [done|by destruct r|]. intros a Ha%map_err_Ok. auto.
Qed.

Lemma reads_bind {A B} m (c : action (St * E) A) (f : A -> action (St * E) B) (P : A -> Prop) (Q : B -> Prop) w :
wp c (reads m P) w -> (forall a w', P a -> holds m w' -> wp (f a) (reads m Q) w') ->
wp (act_bind c f) (reads m Q) w.
Proof.
intros Hc Hf. apply wp_bind. eapply wp_mono; [exact Hc|].
intros r w' (Hh & Hr & HP). destruct r as [a|e|msg|]; [by apply Hf; auto|done..].
Qed.

Lemma reads_header m sel w :
holds m w -> wp (header_by_number sel) (reads m (fun o => (HeaderByNumber sel w.2).1 = inl o)) w.
Proof.
destruct w as [st e]. intros (Hok & Hv & He0). apply wp_on_env. unfold wp.
destruct (HeaderByNumber sel e) as [r e'] eqn:He. simpl. split_and!; [|by destruct r|].
- split_and!; [done|done|]. eapply rtc_r; [done|]. exists sel. simpl. by rewrite He.
- intros o Ho. simpl. rewrite He. simpl. by destruct r; simplify_eq/=.
Qed.

Lemma reads_tip m w :
holds m w -> wp (on_store (E := E) CanonicalTip) (reads m (is_tip m)) w.
Proof.
destruct w as [st e]. intros (Hok & <- & He). apply wp_on_store.
eapply wp_mono; [by apply tip_law|]. intros r st' (? & ? & ? & ?). by split_and!.
Qed.

(** [storedHash] answers for the segment: a hash, or [ErrNotFound] for a gap. *)
Lemma storedHash_spec m tip number w :
holds m w -> is_tip m (Some tip) ->
wp (storedHash tip number) (fun r w' => holds m w' /\ returns r /\
  (forall h, r = Ok h -> hash_stored m number h) /\
  (forall e, r = Err e -> errors_Is e (StoreSentinel StoreErrNotFound) = true -> m !! number = None)) w.
Proof.
intros Hh (b & Hb & Hbh & _). unfold storedHash. destruct (Z.eqb_spec number (Tip_Number tip)) as [->|_].
{ apply wp_ret. split_and!; [done|done| |done]. intros h [= <-]. by exists b. }
destruct w as [st e], Hh as (Hok & <- & He). apply wp_on_store.
eapply wp_mono; [by apply hash_law|]. intros r st' (? & ? & ? & ? & ?). by split_and!.
Qed.

Lemma chainHash_spec m number headNumber headHash w :
holds m w ->
wp (chainHash number headNumber headHash) (reads m (chain_answer (E := E) headNumber headHash number)) w.
Proof.
intros Hh. unfold chainHash.
destruct (Z.eqb_spec number headNumber) as [->|Hne].
{ apply reads_ret; [done|]. unfold chain_answer. by rewrite decide_True. }
eapply reads_bind; [by apply reads_map_err, reads_header|]. intros [hd|] w1 He Hh1; [|done].
eapply reads_bind.
{ apply (reads_lift _ (fun n => Header_Number hd = Some n)); [done| |].
  - eapply errs_in_mono; [apply validHeaderNumber_errs|done].
  - intros n Hn%validHeaderNumber_Ok. apply Hn. }
intros n w2 Hn Hh2. eapply (reads_bind _ _ _ (fun _ => n = number)).
{ apply reads_lift; [done|by apply errs_in_reject_if|]. intros [] Hr%reject_if_Ok.
  by apply negb_false_iff, Z.eqb_eq in Hr. }
intros _ w3 -> Hh3. apply reads_ret; [done|].
unfold chain_answer. rewrite decide_False by done. by exists w.2, hd.
Qed.

Lemma ancestor_loop_spec m tip headNumber headHash retainFrom fuel : forall number w,
holds m w -> is_tip m (Some tip) -> 0 <= retainFrom <= number -> is_u64 number ->
number - retainFrom < Z.of_nat fuel ->
wp (ancestor_loop fuel tip headNumber headHash retainFrom number)
  (reads m (ancestor_found (E := E) m headNumber headHash retainFrom number)) w.
Proof.
induction fuel as [|fuel IH]; intros number w Hh Htip Hr Hn Hfuel; [lia|]. cbn [ancestor_loop].
apply wp_bind, wp_try. eapply wp_mono; [by apply storedHash_spec|].
intros stored w1 (Hh1 & Hret & Hok & Herr). destruct stored as [sh|e|msg|]; try done.
- eapply reads_bind; [by apply chainHash_spec|]. intros ch w2 Hch Hh2.
  specialize (Hok sh eq_refl). case_bool_decide as Heq.
  { subst ch. apply reads_ret; [done|]. simpl. split_and!; try done; lia. }
  assert (Hdiv : diverged (E := E) m headNumber headHash number) by (by exists sh, ch).
  destruct (Z.eqb_spec number retainFrom) as [->|Hne].
  { apply reads_ret; [done|]. exists (retainFrom - 1). split_and!; [lia|lia|by left|].
    intros n ?. by replace n with retainFrom by lia. }
  rewrite u64_sub_small by int_lia.
  eapply wp_mono; [apply IH; [done|done|lia|int_lia|lia]|].
  intros r w3 (Hh3 & Hret3 & Ha). split_and!; [done|done|]. intros a Hra. specialize (Ha a Hra).
  assert (Hext : forall g, (forall n, g < n <= number - 1 -> diverged (E := E) m headNumber headHash n) ->
    forall n, g < n <= number -> diverged (E := E) m headNumber headHash n).
  { intros g Hg n Hgn. destruct (decide (n = number)) as [->|]; [done|]. apply Hg. lia. }
  destruct a as [t|]; simpl in *.
  + destruct Ha as (? & ? & ? & Hd). split_and!; try done; [lia|lia|by apply Hext].
  + destruct Ha as (g & ? & ? & Hd). exists g. split_and!; try done; [lia|lia|by apply Hext].
- destruct (errors_Is e _) eqn:Hnf; [|done]. apply reads_ret; [done|].
  exists number. split_and!; [lia|lia|right; by eapply Herr|]. lia.
Qed.

Lemma commonAncestor_spec m tip headNumber headHash retainFrom w :
holds m w -> is_tip m (Some tip) -> is_u64 headNumber ->
0 <= retainFrom <= Tip_Number tip -> Tip_Number tip <= headNumber ->
wp (commonAncestor tip headNumber headHash retainFrom)
  (reads m (ancestor_found (E := E) m headNumber headHash retainFrom (Tip_Number tip))) w.
Proof.
intros Hh Htip Hhd Hr Hle. unfold commonAncestor. rewrite Z.min_l by done.
apply ancestor_loop_spec; try done; [int_lia|].
unfold ancestor_fuel. rewrite u64_sub_small by int_lia. lia.
Qed.

(** A tip that survived the search is strictly below the head. *)
Lemma append_below_head m tip a headNumber headHash :
is_tip m (Some tip) -> Tip_Number tip <= headNumber ->
~ (Tip_Number tip = headNumber /\ Tip_Hash tip = headHash) -> Tip_Number a = Tip_Number tip ->
hash_stored m (Tip_Number a) (Tip_Hash a) ->
chain_answer (E := E) headNumber headHash (Tip_Number a) (Tip_Hash a) ->
Tip_Number tip < headNumber /\ chain_answer (E := E) headNumber headHash (Tip_Number tip) (Tip_Hash tip).
Proof.
intros (b & Hb & Hbh & _) Hle Hne Heq (b' & Hb' & Hbh') Hch. rewrite Heq in *.
assert (Hh : Tip_Hash a = Tip_Hash tip) by congruence. rewrite Hh in Hch. split; [|done].
destruct (decide (Tip_Number tip = headNumber)) as [Heq'|]; [|lia].
destruct Hne. split; [done|]. unfold chain_answer in Hch. by rewrite decide_True in Hch.
Qed.

Lemma replacementStart_spec m storedTip headNumber headHash retainFrom w :
holds m w -> is_tip m storedTip -> is_u64 headNumber -> 0 <= retainFrom <= headNumber ->
headNumber - retainFrom < MaxBlockWindow ->
wp (replacementStart storedTip headNumber headHash retainFrom)
  (reads m (plan_spec (E := E) m headNumber headHash storedTip retainFrom)) w.
Proof.
unfold MaxBlockWindow. intros Hh Htip Hhd Hr Hw. unfold replacementStart. destruct storedTip as [tip|]; [|by apply reads_ret].
destruct (Z.ltb_spec headNumber (Tip_Number tip)); [apply reads_ret; [done|]; exists tip; by auto|].
destruct (Z.ltb_spec (Tip_Number tip) retainFrom); [apply reads_ret; [done|]; exists tip; by auto|].
simpl orb. cbn iota. destruct (_ && _) eqn:Hcur.
{ apply andb_true_iff in Hcur as [Hn%Z.eqb_eq Hhash%bool_decide_eq_true].
  destruct (Z.eqb_spec headNumber max_uint64); [done|]. apply reads_ret; [done|].
  split_and!; simpl; [|int_lia|rewrite u64_add_small; int_lia|done].
  destruct tip; simpl in *; congruence. }
assert (Hne : ~ (Tip_Number tip = headNumber /\ Tip_Hash tip = headHash)).
{ intros [Hn Hhash]. apply andb_false_iff in Hcur as [?%Z.eqb_neq|?%bool_decide_eq_false]; done. }
eapply reads_bind; [apply commonAncestor_spec; try done; lia|].
intros [a|] w1 Ha Hh1.
- pose proof Ha as ([? ?] & Hst & Hch & Hdiv).
  destruct (Z.eqb_spec (Tip_Number a) max_uint64); [done|].
  rewrite u64_add_small by int_lia.
  destruct (Z.eqb_spec (Tip_Number a) (Tip_Number tip)) as [Heq|Hna]; apply reads_ret; try done.
  + destruct (append_below_head m tip a headNumber headHash) as [? ?]; try done.
    exists tip. split_and!; simpl; try done; lia.
  + exists tip, (Some a). split_and!; simpl; try done; try lia.
    rewrite u64_sub_small, u64_add_small by int_lia. by destruct a.
- apply reads_ret; [done|]. exists tip, None. split_and!; simpl; try done.
  rewrite u64_sub_small, u64_add_small by int_lia. done.
Qed.

End Reading.

(** The bundles of the replaced suffix are what this cycle's call of [FetchRange]
  returned: the call was made after the cycle's header requests and left the
  environment [e'].  There is no call when nothing is above the stored tip. *)
Definition fetched_in (e0 : E) (replaceFrom headNumber : Z) (bs : list BlockBundle) (e' : E) : Prop :=
if decide (replaceFrom <= headNumber)
then exists e, rtc header_call e0 e /\
       fetchRange replaceFrom headNumber (Config_RPCConcurrency (sy_config sy)) e = (Ok bs, e')
else bs = [] /\ rtc header_call e0 e'.

(** The fetched suffix: the blocks from [replaceFrom] to the head, the last one
  with the selected hash. *)
Definition suffix_of (replaceFrom headNumber : Z) (selectedHash : Hash) (bs : list BlockBundle) : Prop :=
Z.of_nat (length bs) = headNumber - replaceFrom + 1 /\ Forall Bundle_typed bs /\
(forall i b, bs !! i = Some b -> bundle_number b = replaceFrom + Z.of_nat i /\
   block_fetch env_sender env_chainID (replaceFrom + Z.of_nat i) (Ok b)) /\
(replaceFrom <= headNumber -> exists b, last bs = Some b /\ bundle_hash b = selectedHash).

Lemma block_fetch_typed n b :
is_u64 n -> block_fetch env_sender env_chainID n (Ok b) -> Bundle_typed b.
Proof.
intros Hn (br & lr & now & Hb & Hty). symmetry in Hb.
apply FetchBlock_Ok in Hb as (eb & logs & Hbr & _ & Hf); [|done].
eapply fetched_typed; eauto.
Qed.

Lemma fetchRange_spec replaceFrom headNumber c e bs :
is_u64 replaceFrom -> is_u64 headNumber -> (fetchRange replaceFrom headNumber c e).1 = Ok bs ->
Z.of_nat (length bs) = headNumber - replaceFrom + 1 /\
forall i b, bs !! i = Some b -> bundle_number b = replaceFrom + Z.of_nat i /\
  block_fetch env_sender env_chainID (replaceFrom + Z.of_nat i) (Ok b).
Proof.
intros Hr Hhd Hbs. destruct (range_law replaceFrom headNumber c e Hr Hhd) as [ctx Hret]. rewrite Hbs in Hret.
destruct (FetchRange_range _ _ _ _ Hr Hhd _ _ Hret) as (_ & ? & Hb & _). split; [done|].
intros i b Hi. by destruct (Hb i b Hi).
Qed.

Lemma fetch_suffix_spec e0 m replaceFrom headNumber selectedHash w :
holds e0 m w -> is_u64 replaceFrom -> is_u64 headNumber -> replaceFrom <= headNumber + 1 ->
wp (fetch_suffix sy replaceFrom headNumber selectedHash) (fun r w' =>
  (store_ok w'.1 /\ view w'.1 = m) /\ returns r /\
  forall bs, r = Ok bs -> suffix_of replaceFrom headNumber selectedHash bs /\
    fetched_in e0 replaceFrom headNumber bs w'.2) w.
Proof.
destruct w as [st e]. intros (Hok & Hv & He) Hr Hhd Hle. unfold fetch_suffix, fetched_in.
destruct (Z.ltb_spec headNumber replaceFrom).
{ apply wp_ret. split_and!; [done|done|done|]. intros bs [= <-]. rewrite decide_False by lia.
  split; [|done]. split_and!; [simpl; lia|done|done|lia]. }
destruct (decide (replaceFrom <= headNumber)); [|lia]. set (c := Config_RPCConcurrency (sy_config sy)).
apply wp_bind, wp_map_err, wp_on_env. unfold wp.
pose proof (fetchRange_spec replaceFrom headNumber c e) as Hspec.
assert (Hret : returns (fetchRange replaceFrom headNumber c e).1).
{ destruct (range_law replaceFrom headNumber c e Hr Hhd) as [ctx Hret].
  by apply (FetchRange_returns_value _ _ _ _ _ _ Hret). }
destruct (fetchRange replaceFrom headNumber c e) as [[bs|e'|msg|] e1] eqn:Hcall; simpl in *; try done.
destruct (Hspec bs Hr Hhd eq_refl) as [Hlen Hb]. destruct (last bs) as [b|] eqn:Hlast.
2: { apply last_None in Hlast. subst. simpl in Hlen. lia. }
case_bool_decide; [|done]. split_and!; [done|done|done|]. intros ? [= <-].
split; [split_and!; [done| |done|by eauto]|by exists e].
apply Forall_lookup. intros i x Hx. eapply block_fetch_typed; [|by eapply Hb].
apply lookup_lt_Some in Hx. int_lia.
Qed.

(** ** The whole cycle *)

Record synced w (m m' : bundle_map) (res : SyncResult) (bs : list BlockBundle) : Prop := {
sd_config : sync_config_valid sy;
sd_head_u64 : is_u64 (Tip_Number (Result_Head res));
sd_head : exists hd, (HeaderByNumber (selector SafeBlockNumber FinalizedBlockNumber sy) w.2).1 = inl (Some hd) /\
  Header_Number hd = Some (Tip_Number (Result_Head res)) /\ Header_Hash hd = Tip_Hash (Result_Head res);
sd_window : Result_FromBlock res =
  Z.max 0 (Tip_Number (Result_Head res) - (Config_BlockWindow (sy_config sy) - 1));
sd_tip : is_tip m (Result_StoredTip res);
sd_plan : plan_spec (E := E) m (Tip_Number (Result_Head res)) (Tip_Hash (Result_Head res))
  (Result_StoredTip res) (Result_FromBlock res)
  (mkPlan (Result_ReplaceFrom res) (Result_Mode res) (Result_Reorg res));
sd_suffix : suffix_of (Result_ReplaceFrom res) (Tip_Number (Result_Head res)) (Tip_Hash (Result_Head res)) bs;
sd_blocks : Result_BlockCount res = Z.of_nat (length bs);
sd_txs : Result_TransactionCount res = Z.of_nat (sum_list_with (fun b => length (Bundle_Transactions b)) bs);
sd_events : Result_EventCount res = Z.of_nat (sum_list_with (fun b => length (Bundle_Events b)) bs);
sd_update : m' = apply_update m (normalized stored_as
  (mkUpdate (Config_ChainID (sy_config sy)) (Result_ReplaceFrom res) (Result_FromBlock res) bs
     (Result_SyncedAt res)))
}.

(** After the store was read the cycle either fails without effect, or applies
  exactly one update, with the bundles it fetched. *)
Definition cycle_post w (m : bundle_map) (r : result SyncResult) w' : Prop :=
store_ok w'.1 /\ returns r /\ (forall e, r = Err e -> view w'.1 = m) /\
forall res, r = Ok res -> exists bs, synced w m (view w'.1) res bs /\
  fetched_in w.2 (Result_ReplaceFrom res) (Tip_Number (Result_Head res)) bs w'.2.

Lemma cycle_bind {A} w m (c : action (St * E) A) (f : A -> action (St * E) SyncResult) (P : A -> Prop) w1 :
wp c (reads w.2 m P) w1 -> (forall a w', P a -> holds w.2 m w' -> wp (f a) (cycle_post w m) w') ->
wp (act_bind c f) (cycle_post w m) w1.
Proof.
intros Hc Hf. apply wp_bind. eapply wp_mono; [exact Hc|].
intros r w' (Hh & Hr & HP). destruct r as [a|e|msg|]; [by apply Hf; auto| |done..].
destruct Hh as (Hok & Hv & _). split_and!; done.
Qed.

Lemma selectedHead_spec e0 m w :
holds e0 m w -> wp (selectedHead SafeBlockNumber FinalizedBlockNumber sy) (reads e0 m (fun hd =>
  (HeaderByNumber (selector SafeBlockNumber FinalizedBlockNumber sy) w.2).1 = inl (Some hd))) w.
Proof.
intros Hh. unfold selectedHead. eapply reads_bind; [by apply reads_map_err, reads_header|].
intros [hd|] w1 He Hh1; [|done]. by apply reads_ret.
Qed.

Lemma SyncOnce_spec w :
store_ok w.1 -> Config_typed (sy_config sy) ->
wp (SyncOnce SafeBlockNumber FinalizedBlockNumber sy) (cycle_post w (view w.1)) w.
Proof.
intros Hok Hty. assert (Hh : holds w.2 (view w.1) w) by done. unfold SyncOnce.
apply wp_bind, wp_lift. pose proof (validateSyncOnceConfig_errs sy) as Herrs.
destruct (validateSyncOnceConfig sy) as [[]|e|msg|] eqn:Hcfg; try done.
apply validateSyncOnceConfig_Ok in Hcfg; [|done].
eapply cycle_bind; [by apply selectedHead_spec|]. intros hd w1 Hhd Hh1.
apply (cycle_bind _ _ _ _ (fun n => Header_Number hd = Some n /\ is_u64 n)).
{ apply reads_lift; [done| |intros n Hn; by apply validHeaderNumber_Ok].
  eapply errs_in_mono; [apply validHeaderNumber_errs|done]. }
intros head w2 [Hnum Hu] Hh2. pose proof (cv_window _ Hcfg) as Hw.
rewrite windowStart_eq by done.
set (from := Z.max 0 (head - (Config_BlockWindow (sy_config sy) - 1))).
assert (Hfrom : 0 <= from <= head /\ head - from < MaxBlockWindow)
  by (unfold from, MaxBlockWindow in *; int_lia).
eapply cycle_bind; [by apply reads_map_err, reads_tip|]. intros tip w3 Htip Hh3.
eapply cycle_bind; [apply (replacementStart_spec _ _ tip head (Header_Hash hd) from); tauto|]. intros plan w4 Hplan Hh4.
assert (Hbounds : from <= Plan_From plan <= head + 1 /\ Plan_From plan <= max_uint64)
  by (eapply plan_spec_bounds; [|exact Hplan]; int_lia).
assert (Hru : is_u64 (Plan_From plan)) by int_lia.
apply wp_bind. eapply wp_mono; [apply (fetch_suffix_spec w.2 (view w.1)); [done|done|done|lia]|].
intros [bs|e|msg|] w5 ([Hok5 Hv5] & Hret5 & Hbs5); try done. destruct (Hbs5 bs eq_refl) as [Hbs Hin].
apply wp_bind. unfold wp at 1. cbn [fst snd]. set (syncedAt := Time_UTC (clock w5.2)).
apply wp_bind, wp_map_err. destruct w5 as [st5 e5]. simpl in Hok5, Hv5.
apply wp_on_store. eapply wp_mono.
{ apply apply_law; [done|]. pose proof (cv_chainID _ Hcfg).
  split_and!; simpl; [int_lia|done|int_lia|apply Hbs]. }
intros r st' (Hok' & Hret & Happ & Herr). rewrite Hv5 in *. destruct r as [[]|e|msg|]; simpl; try done.
- destruct (Happ eq_refl) as (_ & _ & Hview). split_and!; [done|done|done|].
  intros res [= <-]. exists bs. split; [|done]. split; simpl; try done.
  + by exists hd.
  + by destruct tip.
  + destruct plan, tip as [[]|]; done.
- split_and!; try done. intros ? _. by eapply Herr.
Qed.

Section Synced.
Context {w : St * E} {m m' : bundle_map} {res : SyncResult} {bs : list BlockBundle}.
Hypothesis Hs : synced w m m' res bs.
Abbreviation head := (Tip_Number (Result_Head res)).

Lemma synced_bounds :
0 <= Result_FromBlock res <= head /\ Result_FromBlock res <= Result_ReplaceFrom res <= head + 1 /\
head - Result_FromBlock res + 1 <= Config_BlockWindow (sy_config sy) /\ head <= max_uint64 /\
Z.of_nat (length bs) = head - Result_ReplaceFrom res + 1.
Proof.
pose proof (cv_window _ (sd_config _ _ _ _ _ Hs)) as Hw. pose proof (sd_window _ _ _ _ _ Hs) as Hf.
pose proof (sd_head_u64 _ _ _ _ _ Hs) as Hu. destruct (sd_suffix _ _ _ _ _ Hs) as [Hlen _].
assert (Hle : Result_FromBlock res <= head <= max_uint64) by int_lia.
destruct (plan_spec_bounds _ _ _ _ _ _ Hle (sd_plan _ _ _ _ _ Hs)) as [? ?]. simpl in *. int_lia.
Qed.

Lemma synced_lookup n :
m' !! n = if decide (Result_ReplaceFrom res <= n <= head)
        then stored_as <$> bs !! Z.to_nat (n - Result_ReplaceFrom res)
        else if decide (Result_FromBlock res <= n < Result_ReplaceFrom res) then m !! n else None.
Proof.
destruct synced_bounds as (? & ? & ? & ? & Hlen). destruct (sd_suffix _ _ _ _ _ Hs) as (_ & _ & Hb & _).
rewrite (sd_update _ _ _ _ _ Hs), apply_update_lookup.
- unfold kept. simpl. rewrite length_fmap, list_lookup_fmap.
repeat case_decide; try lia; done.
- apply normalized_contiguous; [apply stored_number|]. intros i b Hi. by apply Hb.
Qed.

Lemma synced_new n :
Result_ReplaceFrom res <= n <= head ->
exists b, m' !! n = Some (stored_as b) /\ block_fetch env_sender env_chainID n (Ok b) /\ bs !! Z.to_nat (n - Result_ReplaceFrom res) = Some b.
Proof.
intros Hn. destruct synced_bounds as (? & ? & ? & ? & Hlen). rewrite synced_lookup, decide_True by done.
destruct (lookup_lt_is_Some_2 bs (Z.to_nat (n - Result_ReplaceFrom res))) as [b Hb]; [lia|].
rewrite Hb. exists b. split_and!; [done| |done].
destruct (sd_suffix _ _ _ _ _ Hs) as (_ & _ & Hbs & _). destruct (Hbs _ _ Hb) as [_ Hf].
by replace (Result_ReplaceFrom res + _) with n in Hf by lia.
Qed.

Lemma synced_kept n :
Result_FromBlock res <= n < Result_ReplaceFrom res -> n <= head -> m' !! n = m !! n.
Proof. intros. rewrite synced_lookup, decide_False, decide_True by lia. done. Qed.

Lemma synced_range n : is_Some (m' !! n) -> Result_FromBlock res <= n <= head.
Proof.
destruct synced_bounds as (? & ? & ? & ? & _). rewrite synced_lookup.
repeat case_decide; [lia|lia|by intros []].
Qed.

Lemma synced_tip : is_tip m' (Some (Result_Head res)).
Proof.
destruct synced_bounds as (? & ? & ? & ? & Hlen).
assert (Hmax : forall k, is_Some (m' !! k) -> k <= head) by (intros k Hk%synced_range; lia).
destruct (decide (Result_ReplaceFrom res <= head)) as [Hle|Hgt].
- destruct (synced_new head) as (b & Hb & _ & Hi); [lia|]. exists (stored_as b). split_and!; [done| |done].
rewrite stored_hash. destruct (sd_suffix _ _ _ _ _ Hs) as (_ & _ & _ & Hlast).
destruct (Hlast Hle) as (b' & Hb' & Hh). rewrite last_lookup in Hb'.
replace (pred (length bs)) with (Z.to_nat (head - Result_ReplaceFrom res)) in Hb' by lia. congruence.
- pose proof (sd_plan _ _ _ _ _ Hs) as Hp. unfold plan_spec in Hp. simpl in Hp.
assert (Hc : Result_StoredTip res = Some (Result_Head res)).
{ destruct (Result_Mode res); [lia| | | |].
  - destruct Hp as (Hp & _). by destruct (Result_Head res).
  - destruct Hp as (t & _ & ? & _ & ? & _). lia.
  - destruct Hp as (t & _ & _ & ? & _). lia.
  - destruct Hp as (t & [t'|] & _ & ? & _ & ? & ?); lia. }
pose proof (sd_tip _ _ _ _ _ Hs) as Htip. rewrite Hc in Htip. destruct Htip as (b & Hb & Hh & _).
exists b. split_and!; [|done|done]. rewrite synced_kept; [done|lia|lia].
Qed.

Lemma synced_size : Z.of_nat (size m') <= Config_BlockWindow (sy_config sy).
Proof.
destruct synced_bounds as (? & ? & ? & ? & _).
pose proof (size_interval m' (Result_FromBlock res) head synced_range). lia.
Qed.
End Synced.

(** ** Properties *)

Abbreviation sync := (SyncOnce SafeBlockNumber FinalizedBlockNumber sy).

(** C1: A cycle returns, and it is all or nothing.  When [SyncOnce] fails the
  stored segment is unchanged.  When it succeeds, the store's tip is the head the
  endpoint answered for the configured head mode, every stored block lies in the
  window of [block_window] blocks that ends in that head (cut off at zero), so no
  more than [block_window], and never more than 50, blocks are stored. *)
Theorem sync_once_correct w :
store_ok w.1 -> Config_typed (sy_config sy) ->
let '(r, w') := sync w in
store_ok w'.1 /\
match r with
| Ok res =>
    let head := Tip_Number (Result_Head res) in
    let window := Config_BlockWindow (sy_config sy) in
    (exists hd, (HeaderByNumber (selector SafeBlockNumber FinalizedBlockNumber sy) w.2).1 = inl (Some hd) /\
       Header_Number hd = Some head /\ Header_Hash hd = Tip_Hash (Result_Head res)) /\
    is_tip (view w'.1) (Some (Result_Head res)) /\
    Result_FromBlock res = Z.max 0 (head - (window - 1)) /\
    (forall n, is_Some (view w'.1 !! n) -> Result_FromBlock res <= n <= head) /\
    Z.of_nat (size (view w'.1)) <= window <= MaxBlockWindow
| Err _ => view w'.1 = view w.1
| _ => False
end.
Proof.
intros Hok Hty. pose proof (SyncOnce_spec w Hok Hty) as Hspec. unfold wp, cycle_post in Hspec.
destruct (sync w) as [r w']. simpl in Hspec. destruct Hspec as (Hok' & Hret & Herr & Hres).
split; [done|]. destruct r as [res|e|msg|]; [|by eapply Herr|done..].
destruct (Hres res eq_refl) as [bs [Hs _]]. pose proof (synced_bounds Hs).
split_and!; try apply Hs.
- apply (synced_tip Hs).
- apply (synced_range Hs).
- apply (synced_size Hs).
Qed.

(** C2: A successful cycle replaces a suffix with what it fetched.  Stored blocks of
  the window below [ReplaceFrom] stay as they were.  Above it, up to the head, the
  store holds exactly the bundles that this cycle's one call of [FetchRange], for
  the blocks from [ReplaceFrom] to the head, returned: the call was made after header
  requests only, and its environment is the one the cycle ends in; each bundle is
  stored whole, under its own number.  [BlockCount], [TransactionCount] and
  [EventCount] count these bundles, their transactions and their logs.  When nothing
  is above [ReplaceFrom] nothing is fetched. *)
Theorem sync_once_replaces w res w' :
store_ok w.1 -> Config_typed (sy_config sy) -> sync w = (Ok res, w') ->
let head := Tip_Number (Result_Head res) in
let from := Result_ReplaceFrom res in
Result_FromBlock res <= from <= head + 1 /\
(forall n, Result_FromBlock res <= n < from -> view w'.1 !! n = view w.1 !! n) /\
exists bs,
  (if decide (from <= head)
   then exists e, rtc header_call w.2 e /\
          fetchRange from head (Config_RPCConcurrency (sy_config sy)) e = (Ok bs, w'.2)
   else bs = [] /\ rtc header_call w.2 w'.2) /\
  (forall n, from <= n <= head -> exists b,
     bs !! Z.to_nat (n - from) = Some b /\ bundle_number b = n /\ view w'.1 !! n = Some (stored_as b)) /\
  Result_BlockCount res = head - from + 1 /\
  Result_BlockCount res = Z.of_nat (length bs) /\
  Result_TransactionCount res = Z.of_nat (sum_list_with (fun b => length (Bundle_Transactions b)) bs) /\
  Result_EventCount res = Z.of_nat (sum_list_with (fun b => length (Bundle_Events b)) bs).
Proof.
intros Hok Hty Hrun. pose proof (SyncOnce_spec w Hok Hty) as Hspec. unfold wp, cycle_post in Hspec.
rewrite Hrun in Hspec. destruct Hspec as (_ & _ & _ & Hres).
destruct (Hres res eq_refl) as [bs [Hs Hin]]. destruct (synced_bounds Hs) as (? & ? & ? & ? & ?).
split_and!; try lia; [intros n Hn; apply (synced_kept Hs); lia|].
exists bs. split; [exact Hin|]. split_and!; try apply Hs.
- intros n Hn. destruct (synced_new Hs n Hn) as (b & ? & ? & Hb). exists b. split_and!; try done.
  destruct (sd_suffix _ _ _ _ _ Hs) as (_ & _ & Hnum & _). destruct (Hnum _ _ Hb) as [-> _]. lia.
- rewrite (sd_blocks _ _ _ _ _ Hs). done.
Qed.

(** C3: The reported mode of a successful cycle is what happened.  An initial load
  found an empty store; a full reload a stored tip outside the new window; a
  current cycle found the head already stored and fetched nothing; an append kept
  a stored tip that the endpoint confirmed and added the blocks above it; a reorg
  kept the stored blocks up to the highest common ancestor, every stored block
  above it being different on the endpoint's chain, and the reported ancestor and
  the replaced range and count are exact. *)
Theorem sync_once_modes w res w' :
store_ok w.1 -> Config_typed (sy_config sy) -> sync w = (Ok res, w') ->
is_tip (view w.1) (Result_StoredTip res) /\
plan_spec (E := E) (view w.1) (Tip_Number (Result_Head res)) (Tip_Hash (Result_Head res))
  (Result_StoredTip res) (Result_FromBlock res)
  (mkPlan (Result_ReplaceFrom res) (Result_Mode res) (Result_Reorg res)) /\
(Result_Mode res = SyncModeCurrent <-> Result_BlockCount res = 0).
Proof.
intros Hok Hty Hrun. pose proof (SyncOnce_spec w Hok Hty) as Hspec. unfold wp, cycle_post in Hspec.
rewrite Hrun in Hspec. destruct Hspec as (_ & _ & _ & Hres).
destruct (Hres res eq_refl) as [bs [Hs _]]. destruct (synced_bounds Hs) as (? & ? & ? & ? & ?).
pose proof (sd_plan _ _ _ _ _ Hs) as Hp. split_and!; [apply Hs|done|].
rewrite (sd_blocks _ _ _ _ _ Hs). unfold plan_spec in Hp. simpl in Hp.
destruct (Result_Mode res).
- split; [done|]. lia.
- split; [|done]. lia.
- destruct Hp as (t & _ & ? & _ & ? & _). split; [done|]. lia.
- destruct Hp as (t & _ & _ & ? & _). split; [done|]. lia.
- destruct Hp as (t & [t'|] & _ & ? & _ & ? & ?); (split; [done|]); lia.
Qed.

(** A stored tip that is the selected head leaves nothing to do. *)
Lemma plan_spec_current m head from plan :
is_tip m (Some head) -> from <= Tip_Number head ->
plan_spec (E := E) m (Tip_Number head) (Tip_Hash head) (Some head) from plan ->
Plan_Mode plan = SyncModeCurrent.
Proof.
intros (b & Hb & Hh & _) Hf. unfold plan_spec.
assert (Hnd : ~ diverged (E := E) m (Tip_Number head) (Tip_Hash head) (Tip_Number head)).
{ intros (h & h' & (b' & Hb' & <-) & Hc & Hne). unfold chain_answer in Hc.
  rewrite decide_True in Hc by done. congruence. }
destruct (Plan_Mode plan); [by intros [? _]|done| | |].
- intros (t & [= <-] & ? & _). lia.
- intros (t & [= <-] & ? & _). lia.
- intros (t & [t'|] & [= <-] & _ & _ & Ha & Hp).
  + destruct Ha as (_ & _ & _ & Hd). destruct Hnd. apply Hd. lia.
  + destruct Ha as (g & ? & Hg & Hd). destruct (decide (g = Tip_Number head)) as [->|].
    { destruct Hg; [lia|congruence]. }
    destruct Hnd. apply Hd. lia.
Qed.

Lemma SyncOnce_window_full w :
store_ok w.1 -> Config_typed (sy_config sy) ->
window_full (Config_BlockWindow (sy_config sy)) (view w.1) ->
window_full (Config_BlockWindow (sy_config sy)) (view (sync w).2.1).
Proof.
intros Hok Hty Hfull. pose proof (SyncOnce_spec w Hok Hty) as Hspec. unfold wp, cycle_post in Hspec.
destruct (sync w) as [r w']. simpl in *. destruct Hspec as (_ & Hret & Herr & Hres).
destruct r as [res|e|msg|]; [|by rewrite (Herr e eq_refl)|done..].
destruct (Hres res eq_refl) as [bs [Hs _]]. destruct (synced_bounds Hs) as (? & ? & ? & ? & _).
intros t Ht. apply (is_tip_unique _ _ _ (synced_tip Hs)) in Ht as [= ->].
rewrite <- (sd_window _ _ _ _ _ Hs). intros n Hn.
destruct (decide (Result_ReplaceFrom res <= n)) as [Hge|Hlt].
{ destruct (synced_new Hs n) as (b & Hb & _); [lia|]. by rewrite Hb. }
rewrite (synced_kept Hs) by lia. pose proof (sd_window _ _ _ _ _ Hs) as Hf.
pose proof (sd_plan _ _ _ _ _ Hs) as Hp. pose proof (sd_tip _ _ _ _ _ Hs) as Htip.
unfold plan_spec in Hp. simpl in Hp. destruct (Result_Mode res).
- lia.
- destruct Hp as (Hst & _). rewrite Hst in Htip. apply (Hfull _ Htip). simpl. lia.
- destruct Hp as (t & Hst & ? & _ & ? & _). rewrite Hst in Htip. apply (Hfull _ Htip). lia.
- destruct Hp as (t & _ & _ & ? & _). lia.
- destruct Hp as (t & [a|] & Hst & ? & _ & Ha & ?); [|lia].
  rewrite Hst in Htip. apply (Hfull _ Htip). lia.
Qed.

(** C4: With a fixed [block_window], the store never misses a block of the window:
  if every block of the window ending in the stored tip is stored (trivially so
  for an empty store), this still holds after [SyncOnce], whatever its outcome,
  and after a success it is the window that ends in the selected head. *)
Theorem sync_keeps_window_full w :
store_ok w.1 -> Config_typed (sy_config sy) ->
window_full (Config_BlockWindow (sy_config sy)) (view w.1) ->
window_full (Config_BlockWindow (sy_config sy)) (view (sync w).2.1).
Proof. apply SyncOnce_window_full. Qed.

(** C34: Synchronizing again with an unchanged head does nothing: when two cycles in
  a row succeed with the same head, the second one reports [current], fetches no
  block and leaves the stored segment as it is. *)
Theorem sync_once_idempotent w res w1 res2 w2 :
store_ok w.1 -> Config_typed (sy_config sy) -> sync w = (Ok res, w1) -> sync w1 = (Ok res2, w2) ->
Result_Head res2 = Result_Head res ->
Result_Mode res2 = SyncModeCurrent /\ Result_BlockCount res2 = 0 /\
Result_StoredTip res2 = Some (Result_Head res) /\ view w2.1 = view w1.1.
Proof.
intros Hok Hty Hr1 Hr2 Hhead. pose proof (SyncOnce_spec w Hok Hty) as Hc1. unfold wp, cycle_post in Hc1.
rewrite Hr1 in Hc1. destruct Hc1 as (Hok1 & _ & _ & Hc1). destruct (Hc1 res eq_refl) as [bs [Hs1 _]].
pose proof (SyncOnce_spec w1 Hok1 Hty) as Hc2. unfold wp, cycle_post in Hc2.
rewrite Hr2 in Hc2. destruct Hc2 as (_ & _ & _ & Hc2). destruct (Hc2 res2 eq_refl) as [bs2 [Hs2 _]]. simpl in *.
pose proof (is_tip_unique _ _ _ (synced_tip Hs1) (sd_tip _ _ _ _ _ Hs2)) as Htip.
destruct (synced_bounds Hs2) as (? & ? & ? & ? & Hlen).
pose proof (sd_plan _ _ _ _ _ Hs2) as Hp. rewrite Htip, Hhead in Hp.
assert (Hm : Result_Mode res2 = SyncModeCurrent).
{ apply (plan_spec_current _ _ _ _ (synced_tip Hs1)) in Hp; [done|]. rewrite <- Hhead. lia. }
unfold plan_spec in Hp. simpl in Hp. rewrite Hm in Hp. destruct Hp as (_ & _ & Hrf & _).
rewrite Hhead in Hlen. split_and!; [done|rewrite (sd_blocks _ _ _ _ _ Hs2); lia|done|].
apply map_eq. intros n. rewrite (synced_lookup Hs2), Hhead, decide_False by lia.
case_decide; [done|]. destruct (view w1.1 !! n) eqn:En; [|done].
destruct (synced_range Hs1 n) as [? ?]; [by rewrite En|].
pose proof (sd_window _ _ _ _ _ Hs1). pose proof (sd_window _ _ _ _ _ Hs2) as Hw2.
rewrite Hhead in Hw2. lia.
Qed.
End Cycle.
