(* ===== verification/Endpoint.v ===== *)
(** * A concrete endpoint

    An environment for [SyncOnce] whose replies are given by functions, with
    [FetchRange] run under the deterministic schedule, and its evaluation on a
    small chain with a fork. *)
From S2P Require Import Prelude Errors Domain Validate Store Fixtures Memory MemoryStore Fetcher Ranger Syncer SyncerProofs.
From stdpp Require Import prelude gmap list strings relations.
From Stdlib Require Import ZArith Lia.

Local Open Scope Z_scope.

Record Endpoint := mkEndpoint {
  ep_headers : option Z -> reply (option Header);
  ep_blocks : Z -> reply (option EthBlock);
  ep_logs : Hash -> reply (list EthLog);
  ep_now : Time;
  ep_typed : forall n eb, ep_blocks n = inl (Some eb) -> EthBlock_typed eb
}.

Definition ep_fetch `{GoRuntime} (e : Endpoint) (n : Z) : result BlockBundle :=
  FetchBlock eth_sender 1 n (ep_blocks e n) (ep_logs e) (ep_now e).

#[global] Instance endpoint_env `{GoRuntime} : ChainEnv Endpoint := {|
  HeaderByNumber sel e := (ep_headers e sel, e);
  fetchRange from to concurrency e := (run_range (ep_fetch e) CtxOpen from to concurrency, e);
  clock := ep_now
|}.

#[global] Program Instance endpoint_laws `{GoRuntime} : ChainEnvLaws Endpoint := {|
  env_sender := eth_sender;
  env_chainID := 1
|}.
Next Obligation.
  intros ? from to concurrency e Hf Ht. exists CtxOpen.
  apply (FetchRange_returns_mono (fun n r => r = ep_fetch e n)).
  - intros n r ->. exists (ep_blocks e n), (ep_logs e), (ep_now e). split; [done|]. apply ep_typed.
  - apply run_range_returns; [done|done|]. intros n. eapply errs_in_mono; [apply FetchBlock_errs|done].
Qed.

(** ** A chain and a fork of it *)

(** Block [number] with hash byte [hash] and parent byte [parent], with no
    transactions. *)
Definition plain_block (number hash parent : Z) : EthBlock :=
  mkEthBlock (Some number) (hash_of hash) (hash_of parent) 1700000000 30000000 21000 (Some 7) [].

Fixpoint block_at (chain : list (Z * Z * Z)) (n : Z) : option EthBlock :=
  match chain with
  | [] => None
  | (number, hash, parent) :: rest =>
      if n =? number then Some (plain_block number hash parent) else block_at rest n
  end.

Lemma block_at_typed chain n eb : block_at chain n = Some eb -> EthBlock_typed eb.
Proof.
  induction chain as [|[[number hash] parent] rest IH]; simpl; [done|].
  case_match; [|done]. intros [= <-]. split_and!; [done..|]. by intros t Ht%elem_of_nil.
Qed.

Definition header_of (eb : EthBlock) : Header := mkHeader (eb_Number eb) (eb_Hash eb).

(** An endpoint that serves [chain], with block [head] as its latest block. *)
Program Definition serve (chain : list (Z * Z * Z)) (head : Z) : Endpoint :=
  mkEndpoint (fun sel => inl (header_of <$> block_at chain (default head sel)))
    (fun n => inl (block_at chain n)) (fun _ => inl []) (time_of 9) _.
Next Obligation. intros chain head n eb [= Hb]. by eapply block_at_typed. Qed.

Definition main_chain : list (Z * Z * Z) := [(10, 10, 9); (11, 11, 10); (12, 12, 11)].
Definition fork_chain : list (Z * Z * Z) := [(10, 10, 9); (11, 11, 10); (12, 32, 11); (13, 33, 32)].

(** ** Cycles over the in-memory store *)

Definition test_config (window : Z) : Config := mkConfig 1 1 window HeadLatest 1 2 3 1 8.
Definition test_syncer (window : Z) : Syncer := mkSyncer (Some (Some 1)) true true (test_config window).

Lemma test_config_typed window : is_u64 window -> Config_typed (test_config window).
Proof. by split. Qed.

Definition new_store : MemoryWorld := mkMemoryWorld NewMemory (fun _ => CtxOpen) 0.

Lemma new_store_ok : store_ok (IndexStoreLaws := memory_store_laws (H := reference_runtime)) new_store.
Proof. apply NewMemory_ok. Qed.

Section Runs.
#[local] Existing Instance reference_runtime.

Definition cycle (window : Z) : action (MemoryWorld * Endpoint) SyncResult :=
SyncOnce (-4) (-3) (test_syncer window).

(** A first cycle on the main chain, then one after the endpoint has switched to
  the fork, then one with nothing new. *)
Definition start : MemoryWorld * Endpoint := (new_store, serve main_chain 12).
Definition first_cycle := cycle 3 start.
Definition after_first : MemoryWorld * Endpoint := (first_cycle.2.1, serve fork_chain 13).
Definition fork_cycle := cycle 3 after_first.
Definition third_cycle := cycle 3 fork_cycle.2.

Definition summary (r : result SyncResult) : option (SyncMode * Z * Z * Z) :=
match r with
| Ok res => Some (Result_Mode res, Result_FromBlock res, Result_ReplaceFrom res, Result_BlockCount res)
| _ => None
end.

Example first_cycle_loads : summary first_cycle.1 = Some (SyncModeInitialLoad, 10, 10, 3).
Proof. vm_compute. reflexivity. Qed.
Example fork_cycle_reorgs : summary fork_cycle.1 = Some (SyncModeReorg, 11, 12, 2).
Proof. vm_compute. reflexivity. Qed.
Example third_cycle_idles : summary third_cycle.1 = Some (SyncModeCurrent, 11, 14, 0).
Proof. vm_compute. reflexivity. Qed.

Definition ok_or_zero (r : result SyncResult) : SyncResult :=
match r with
| Ok res => res
| _ => mkSyncResult (mkTip 0 zero_hash) None SyncModeCurrent 0 0 0 0 0 zero_time None
end.

Lemma summary_Ok {W} (x : result SyncResult * W) : summary x.1 <> None -> x = (Ok (ok_or_zero x.1), x.2).
Proof. by destruct x as [[] ?]. Qed.

Lemma first_cycle_Ok : first_cycle = (Ok (ok_or_zero first_cycle.1), first_cycle.2).
Proof. apply summary_Ok. by rewrite first_cycle_loads. Qed.
Lemma fork_cycle_Ok : fork_cycle = (Ok (ok_or_zero fork_cycle.1), fork_cycle.2).
Proof. apply summary_Ok. by rewrite fork_cycle_reorgs. Qed.
Lemma third_cycle_Ok : third_cycle = (Ok (ok_or_zero third_cycle.1), third_cycle.2).
Proof. apply summary_Ok. by rewrite third_cycle_idles. Qed.

Lemma config3 : Config_typed (sy_config (test_syncer 3)).
Proof. by apply test_config_typed. Qed.

Lemma after_first_ok : store_ok after_first.1.
Proof.
pose proof (SyncOnce_spec (-4) (-3) (test_syncer 3) start new_store_ok config3) as Hs.
unfold wp, cycle_post in Hs. destruct Hs as [Hs _]. unfold after_first, first_cycle, cycle. exact Hs.
Qed.

Lemma sync_once_correct_witness : store_ok first_cycle.2.1.
Proof.
pose proof (sync_once_correct (-4) (-3) (test_syncer 3) start new_store_ok config3) as Hs.
unfold first_cycle, cycle. destruct (SyncOnce (-4) (-3) (test_syncer 3) start). apply Hs.
Defined.

Lemma sync_once_replaces_witness :
view fork_cycle.2.1 !! 11 = view after_first.1 !! 11.
Proof.
destruct (sync_once_replaces (-4) (-3) (test_syncer 3) after_first _ _ after_first_ok config3
  fork_cycle_Ok) as (_ & Hkept & _).
apply Hkept. vm_compute. split; congruence.
Defined.

(** The reorg found block 11 as the common ancestor and replaced block 12. *)
Lemma sync_once_modes_witness :
is_tip (view after_first.1) (Result_StoredTip (ok_or_zero fork_cycle.1)) /\
Result_Reorg (ok_or_zero fork_cycle.1) = Some (mkReorg (Some (mkTip 11 (hash_of 11))) 12 12 1).
Proof.
destruct (sync_once_modes (-4) (-3) (test_syncer 3) after_first _ _ after_first_ok config3
  fork_cycle_Ok) as (Htip & _ & _).
split; [exact Htip|]. vm_compute. reflexivity.
Defined.

Lemma sync_keeps_window_full_witness : window_full 3 (view first_cycle.2.1).
Proof.
apply (sync_keeps_window_full (-4) (-3) (test_syncer 3) start new_store_ok config3).
intros t (b & Hb & _). done.
Defined.

Lemma sync_once_idempotent_witness : view third_cycle.2.1 = view fork_cycle.2.1.
Proof.
apply (sync_once_idempotent (-4) (-3) (test_syncer 3) after_first _ _ _ _ after_first_ok config3
  fork_cycle_Ok third_cycle_Ok).
vm_compute. reflexivity.
Defined.

(** A window that was enlarged between two runs is not filled from below: the
  store held only block 12 (window 1), and with window 3 and the same head the
  cycle reports [current] and blocks 10 and 11 stay missing. *)
Theorem enlarged_window_not_backfilled :
let small := cycle 1 start in
let large := cycle 3 small.2 in
summary large.1 = Some (SyncModeCurrent, 10, 13, 0) /\
view large.2.1 !! 10 = None /\ view large.2.1 !! 11 = None.
Proof. vm_compute. done. Qed.
End Runs.
