(* ===== verification/SyncerLive.v ===== *)
(** * A synchronization cycle succeeds

    The other direction of [SyncerProofs]: when the store answers its calls and the
    endpoint serves one chain without failures while the cycle runs, [SyncOnce] does not
    fail: the update it builds is one the store accepts. *)
From S2P Require Import Prelude Errors Domain Validate Store Fixtures Memory MemoryStore Fetcher Ranger Syncer SyncerProofs Endpoint.
From stdpp Require Import prelude gmap list strings relations.
From Stdlib Require Import ZArith Lia.

Local Open Scope Z_scope.

(** ** What is asked of the store *)

(** The store requires the parent of the first new block unless it replaces everything. *)
Definition parent_stored (m : bundle_map) (u : CanonicalUpdate) : Prop :=
  forall first rest, Update_Blocks u = first :: rest -> Update_ReplaceFrom u <> Update_RetainFrom u ->
  exists b, m !! (Update_ReplaceFrom u - 1) = Some b /\ bundle_hash b = bundle_parent first.

(** [store_up id s]: from [s] on no call fails, and the store holds chain [id] or none.  A
    store may be unable to hold a block ([keepable]) or a number ([block_limit]), and may
    want block hashes to be distinct. *)
Class IndexStoreLive (St : Type) `{IndexStoreLaws St} := {
  store_up : Z -> St -> Prop;
  keepable : BlockBundle -> Prop;
  block_limit : Z;
  limit_u64 : block_limit <= max_uint64;
  up_ok id s : store_up id s -> store_ok s;
  stored_valid b : bundle_valid b -> bundle_valid (stored_as b);
  stored_tx b h : contains_tx (stored_as b) h <-> contains_tx b h;
  tip_live id s : store_up id s ->
    wp CanonicalTip (fun r s' => store_up id s' /\ view s' = view s /\ exists t, r = Ok t) s;
  hash_live id n s : store_up id s -> is_u64 n ->
    wp (CanonicalHash n) (fun r s' => store_up id s' /\ view s' = view s /\
      match view s !! n with
      | Some b => r = Ok (bundle_hash b)
      | None => exists e, r = Err e /\ errors_Is e (StoreSentinel StoreErrNotFound) = true
      end) s;
  apply_live id u s : store_up id s -> Update_typed u -> Update_ChainID u = id -> id <> 0 ->
    Update_RetainFrom u <= Update_ReplaceFrom u <= block_limit -> contiguous u ->
    Forall (fun b => bundle_valid b /\ keepable b) (Update_Blocks u) ->
    parent_stored (view s) u ->
    canonical (apply_update (view s) (normalized stored_as u)) ->
    distinct_hashes (apply_update (view s) (normalized stored_as u)) ->
    (ApplyCanonicalUpdate u s).1 = Ok tt
}.

Section Live.
Context {St E : Type} `{IndexStoreLive St} `{ChainEnv E}.
Variables (SafeBlockNumber FinalizedBlockNumber : Z) (sy : Syncer).
Implicit Types (w : St * E).

(** The chain the endpoint serves, its selected head, and the endpoint while it serves it. *)
Variables (chain : Z -> BlockBundle) (head : Z) (serves : E -> Prop).
Abbreviation chain_hash n := (bundle_hash (chain n)).
Abbreviation id := (Config_ChainID (sy_config sy)).
Abbreviation window := (Config_BlockWindow (sy_config sy)).
Abbreviation from := (Z.max 0 (head - (window - 1))).

(** The blocks of the window form one chain. *)
Record chain_ok : Prop := {
  ch_typed n : from <= n <= head -> Bundle_typed (chain n);
  ch_number n : from <= n <= head -> bundle_number (chain n) = n;
  ch_valid n : from <= n <= head -> bundle_valid (chain n) /\ keepable (chain n);
  ch_link n : from <= n < head -> bundle_parent (chain (n + 1)) = chain_hash n;
  ch_tx n n' h : from <= n <= head -> from <= n' <= head ->
    contains_tx (chain n) h -> contains_tx (chain n') h -> n = n';
  ch_distinct n n' : from <= n <= head -> from <= n' <= head -> chain_hash n = chain_hash n' -> n = n'
}.

(** The endpoint answers every request of the cycle from that chain. *)
Record endpoint_ok : Prop := {
  ep_head e : serves e -> exists hd e',
    HeaderByNumber (selector SafeBlockNumber FinalizedBlockNumber sy) e = (inl (Some hd), e') /\ serves e' /\
    Header_Number hd = Some head /\ Header_Hash hd = chain_hash head;
  ep_header e n : serves e -> from <= n <= head -> exists hd e',
    HeaderByNumber (Some n) e = (inl (Some hd), e') /\ serves e' /\
    Header_Number hd = Some n /\ Header_Hash hd = chain_hash n;
  ep_range e a : serves e -> from <= a <= head -> exists e',
    fetchRange a head (Config_RPCConcurrency (sy_config sy)) e = (Ok (chain <$> seqZ a (head - a + 1)), e') /\ serves e'
}.

(** A block's hash stands for its parent and its transactions. *)
Definition hashes_identify (m : bundle_map) : Prop :=
  forall n b, from <= n <= head -> m !! n = Some b -> bundle_hash b = chain_hash n ->
    bundle_parent b = bundle_parent (chain n) /\ forall h, contains_tx b h <-> contains_tx (chain n) h.

Hypothesis config_valid : sync_config_valid sy.
Hypothesis head_range : 0 <= head < block_limit.
Lemma head_u64 : 0 <= head < max_uint64.
Proof. pose proof limit_u64. lia. Qed.
Ltac head_lia := pose proof head_u64; int_lia.
Hypothesis Hchain : chain_ok.
Hypothesis Hendpoint : endpoint_ok.

(** ** Calls that succeed *)

Definition up (m : bundle_map) w : Prop := store_up id w.1 /\ view w.1 = m /\ serves w.2.

Definition succeeds {A} (m : bundle_map) (c : action (St * E) A) (P : A -> Prop) w : Prop :=
  wp c (fun r w' => up m w' /\ exists a, r = Ok a /\ P a) w.

Lemma succeeds_ret {A} m (a : A) (P : A -> Prop) w : up m w -> P a -> succeeds m (act_ret a) P w.
Proof. intros. split; [done|]. by exists a. Qed.

Lemma succeeds_lift {A} m (r : result A) a (P : A -> Prop) w : up m w -> r = Ok a -> P a -> succeeds m (act_lift r) P w.
Proof. intros ? -> ?. split; [done|]. by exists a. Qed.

Lemma succeeds_bind {A B} m (c : action (St * E) A) (f : A -> action (St * E) B) (P : A -> Prop) (Q : B -> Prop) w :
  succeeds m c P w -> (forall a w', P a -> up m w' -> succeeds m (f a) Q w') -> succeeds m (act_bind c f) Q w.
Proof.
  intros Hc Hf. apply wp_bind. unfold succeeds in Hc. eapply wp_mono; [exact Hc|].
  intros r w' (Hup & a & -> & HP). by apply Hf.
Qed.

Lemma succeeds_map_err {A} m f (c : action (St * E) A) (P : A -> Prop) w :
  succeeds m c P w -> succeeds m (act_map_err f c) P w.
Proof.
  intros Hc. apply wp_map_err. unfold succeeds in Hc. eapply wp_mono; [exact Hc|].
  intros r w' (? & a & -> & ?). split; [done|]. by exists a.
Qed.

Lemma succeeds_header m sel n h w :
  up m w ->
  (exists hd e', HeaderByNumber sel w.2 = (inl (Some hd), e') /\ serves e' /\
     Header_Number hd = Some n /\ Header_Hash hd = h) ->
  succeeds m (header_by_number sel)
    (fun o => exists hd, o = Some hd /\ Header_Number hd = Some n /\ Header_Hash hd = h) w.
Proof.
  destruct w as [st e]. intros (? & ? & _) (hd & e' & He & ? & ? & ?). simpl in He.
  unfold succeeds, wp, header_by_number, on_env. simpl. rewrite He. simpl. split; [done|].
  exists (Some hd). split; [done|]. by exists hd.
Qed.

Lemma succeeds_tip m w : up m w -> succeeds m (on_store (E := E) CanonicalTip) (is_tip m) w.
Proof.
  destruct w as [st e]. intros (Hup & Hv & Hs). simpl in *. apply wp_on_store.
  pose proof (tip_live id st Hup) as Hl. pose proof (tip_law st (up_ok id st Hup)) as Ht. unfold wp in *.
  destruct (CanonicalTip st) as [r st']. simpl in *. destruct Hl as (? & Hv' & t & ->).
  destruct Ht as (_ & _ & _ & Ht). split; [split_and!; simpl; [done|congruence|done]|].
  exists t. split; [done|]. rewrite <- Hv. by apply Ht.
Qed.

(** [storedHash] answers, or reports a gap. *)
Lemma storedHash_up m tip number w :
  up m w -> is_tip m (Some tip) -> is_u64 number ->
  wp (storedHash tip number) (fun r w' => up m w' /\
    match m !! number with
    | Some b => r = Ok (bundle_hash b)
    | None => exists e, r = Err e /\ errors_Is e (StoreSentinel StoreErrNotFound) = true
    end) w.
Proof.
  intros Hup (b & Hb & Hbh & _) Hn. unfold storedHash. destruct (Z.eqb_spec number (Tip_Number tip)) as [->|_].
  { apply wp_ret. split; [done|]. by rewrite Hb, Hbh. }
  destruct w as [st e], Hup as (Hup & <- & Hs). simpl in *. apply wp_on_store.
  eapply wp_mono; [by apply hash_live|]. intros r st' (? & Hv & Hr). split; [by split_and!|exact Hr].
Qed.

Lemma chainHash_up m number w :
  up m w -> from <= number <= head ->
  succeeds m (chainHash number head (chain_hash head)) (fun h => h = chain_hash number) w.
Proof.
  intros Hup Hn. unfold chainHash. destruct (Z.eqb_spec number head) as [->|Hne]; [by apply succeeds_ret|].
  pose proof Hup as (_ & _ & Hs).
  eapply succeeds_bind; [apply succeeds_map_err; eapply succeeds_header; [done|by apply Hendpoint]|].
  intros o w1 (hd & -> & Hnum & Hh) Hup1. eapply succeeds_bind.
  { eapply (succeeds_lift _ _ number (fun n => n = number)); [done| |done]. apply validHeaderNumber_Ok.
    split; [done|head_lia]. }
  intros ? w2 -> Hup2. eapply succeeds_bind.
  { eapply (succeeds_lift _ _ tt (fun _ => True)); [done| |done]. apply reject_if_Ok. by rewrite Z.eqb_refl. }
  intros _ w3 _ Hup3. by apply succeeds_ret.
Qed.

(** A stored block the chain has too. *)
Definition shared (m : bundle_map) (n : Z) : Prop := exists b, m !! n = Some b /\ bundle_hash b = chain_hash n.

Lemma ancestor_loop_up m tip fuel : forall number w,
  up m w -> is_tip m (Some tip) -> from <= number <= head -> number - from < Z.of_nat fuel ->
  succeeds m (ancestor_loop fuel tip head (chain_hash head) from number)
    (fun a => forall t, a = Some t -> from <= Tip_Number t <= number /\ shared m (Tip_Number t)) w.
Proof.
  induction fuel as [|fuel IH]; intros number w Hup Htip Hn Hfuel; [lia|]. cbn [ancestor_loop].
  apply wp_bind, wp_try. eapply wp_mono; [apply storedHash_up; [done|done|head_lia]|].
  intros stored w1 [Hup1 Hst]. destruct (m !! number) as [b|] eqn:Hb.
  - subst stored. eapply succeeds_bind; [by apply chainHash_up|]. intros h w2 -> Hup2.
    case_bool_decide as Heq.
    { apply succeeds_ret; [done|]. intros t [= <-]. simpl. split; [lia|]. by exists b. }
    destruct (Z.eqb_spec number from) as [->|Hne]; [by apply succeeds_ret|].
    rewrite u64_sub_small by head_lia. eapply wp_mono; [apply (IH (number - 1)); [done|done|lia|lia]|].
    intros r w3 (? & a & -> & Ha). split; [done|]. exists a. split; [done|].
    intros t Ht. destruct (Ha t Ht). split; [lia|done].
  - destruct Hst as (e & -> & ->). by apply succeeds_ret.
Qed.

(** Where the replaced suffix may start. *)
Definition start_ok (m : bundle_map) (n : Z) : Prop := n = from \/ from < n <= head + 1 /\ shared m (n - 1).

Lemma replacementStart_up m storedTip w :
  up m w -> is_tip m storedTip ->
  succeeds m (replacementStart storedTip head (chain_hash head) from) (fun plan => start_ok m (Plan_From plan)) w.
Proof.
  intros Hup Htip. assert (0 <= from <= head) as Hf.
  { pose proof (cv_window _ config_valid). lia. }
  unfold replacementStart. destruct storedTip as [tip|]; [|apply succeeds_ret; [done|by left]].
  destruct (Z.ltb_spec head (Tip_Number tip)); [apply succeeds_ret; [done|by left]|].
  destruct (Z.ltb_spec (Tip_Number tip) from); [apply succeeds_ret; [done|by left]|].
  simpl orb. cbn iota. destruct (_ && _) eqn:Hcur.
  { apply andb_true_iff in Hcur as [Hn%Z.eqb_eq Hhash%bool_decide_eq_true].
    destruct (Z.eqb_spec head max_uint64); [head_lia|]. apply succeeds_ret; [done|]. right. simpl.
    rewrite u64_add_small by head_lia. split; [lia|]. replace (head + 1 - 1) with head by lia.
    destruct Htip as (b & Hb & Hbh & _). exists b. rewrite <- Hn at 1. split; [done|congruence]. }
  eapply (succeeds_bind _ _ _ (fun a => forall t, a = Some t -> from <= Tip_Number t <= Tip_Number tip /\ shared m (Tip_Number t))).
  { unfold commonAncestor. rewrite Z.min_l by done. apply ancestor_loop_up; [done|done|lia|].
    unfold ancestor_fuel. rewrite u64_sub_small by head_lia. lia. }
  intros [a|] w1 Ha Hup1; [|apply succeeds_ret; [done|by left]]. destruct (Ha a eq_refl) as [Hr Hsh].
  destruct (Z.eqb_spec (Tip_Number a) max_uint64); [head_lia|]. rewrite u64_add_small by head_lia.
  assert (start_ok m (Tip_Number a + 1)) as Hok.
  { right. split; [lia|]. by replace (Tip_Number a + 1 - 1) with (Tip_Number a) by lia. }
  destruct (Z.eqb_spec (Tip_Number a) (Tip_Number tip)); by apply succeeds_ret.
Qed.

(** The fetched blocks. *)
Definition suffix (a : Z) : list BlockBundle := if head <? a then [] else chain <$> seqZ a (head - a + 1).

Lemma suffix_lookup a i b :
  a <= head + 1 -> suffix a !! i = Some b <-> a + Z.of_nat i <= head /\ b = chain (a + Z.of_nat i).
Proof.
  intros Ha. unfold suffix. destruct (Z.ltb_spec head a).
  { rewrite lookup_nil. split; [done|lia]. }
  rewrite list_lookup_fmap_Some. split.
  - intros (n & -> & Hn). apply lookup_seqZ in Hn as [-> ?]. split; [lia|done].
  - intros [Hi ->]. exists (a + Z.of_nat i). split; [done|]. apply lookup_seqZ. lia.
Qed.

Lemma length_suffix a : a <= head + 1 -> Z.of_nat (length (suffix a)) = head - a + 1.
Proof.
  intros Ha. unfold suffix. destruct (Z.ltb_spec head a); [simpl; lia|]. rewrite length_fmap, length_seqZ. lia.
Qed.

Lemma last_suffix a : a <= head -> last (suffix a) = Some (chain head).
Proof.
  intros Ha. rewrite last_lookup. apply suffix_lookup; [lia|]. pose proof (length_suffix a).
  split; [lia|]. f_equal. lia.
Qed.

Lemma fetch_suffix_up m a w :
  up m w -> from <= a <= head + 1 ->
  succeeds m (fetch_suffix sy a head (chain_hash head)) (fun bs => bs = suffix a) w.
Proof.
  intros Hup Ha. unfold fetch_suffix. destruct (Z.ltb_spec head a) as [Hlt|Hge].
  { apply succeeds_ret; [done|]. unfold suffix. by rewrite (proj2 (Z.ltb_lt _ _) Hlt). }
  eapply (succeeds_bind _ _ _ (fun bs => bs = suffix a)).
  - apply succeeds_map_err. destruct w as [st e], Hup as (? & ? & Hs). simpl in *.
    destruct (ep_range Hendpoint e a Hs) as (e' & He & ?); [lia|].
    unfold succeeds, wp, on_env. simpl. rewrite He. simpl. split; [done|]. eexists. split; [done|].
    unfold suffix. by rewrite (proj2 (Z.ltb_ge _ _) Hge).
  - intros bs w1 -> Hup1. rewrite last_suffix by done. rewrite bool_decide_true by done. by apply succeeds_ret.
Qed.

(** ** The update the cycle builds *)
Section Update.
Variables (m : bundle_map) (a : Z) (t : Time).
Hypothesis Hcanonical : canonical m.
Hypothesis Hidentify : hashes_identify m.
Hypothesis Hstart : start_ok m a.

Abbreviation update := (mkUpdate id a from (suffix a) t).
Abbreviation after := (apply_update m (normalized stored_as update)).

Lemma start_bounds : 0 <= from <= a /\ a <= head + 1.
Proof. pose proof (cv_window _ config_valid). destruct Hstart as [->|[? _]]; lia. Qed.

Lemma update_contiguous : contiguous update.
Proof.
  pose proof start_bounds. intros i b Hi. apply suffix_lookup in Hi as [? ->]; [|lia]. apply Hchain. simpl in *. lia.
Qed.

Lemma after_lookup n :
  after !! n = if decide (a <= n <= head) then Some (stored_as (chain n))
               else if decide (from <= n < a) then m !! n else None.
Proof.
  pose proof start_bounds. pose proof (length_suffix a). rewrite apply_update_lookup.
  2: { apply normalized_contiguous; [apply stored_number|apply update_contiguous]. }
  unfold kept. simpl. rewrite length_fmap, list_lookup_fmap. repeat case_decide; try lia; [|done..].
  rewrite (proj2 (suffix_lookup a (Z.to_nat (n - a)) (chain n) ltac:(lia))); [done|]. split; [lia|]. f_equal. lia.
Qed.

(** Below a shared block every stored block is shared. *)
Lemma kept_shared n b : from <= n < a -> m !! n = Some b -> bundle_hash b = chain_hash n.
Proof.
  intros Hn. destruct Hstart as [->|[Hlt Hsh]]; [lia|]. revert b. remember (Z.to_nat (a - 1 - n)) as k eqn:Hk.
  revert n Hn Hk. induction k as [|k IH]; intros n Hn Hk b Hb.
  - assert (n = a - 1) as -> by lia. destruct Hsh as (b' & Hb' & <-). congruence.
  - destruct Hsh as (b1 & Hb1 & Hh1). destruct (can_next _ Hcanonical n b (a - 1) Hb) as (c & Hc & Hp); [lia|by eauto|].
    pose proof (IH (n + 1) ltac:(lia) ltac:(lia) c Hc) as Hhc.
    destruct (Hidentify (n + 1) c ltac:(lia) Hc Hhc) as [Hpar _].
    rewrite <- Hp, Hpar. apply Hchain. lia.
Qed.

Lemma after_tx n b h :
  after !! n = Some b -> contains_tx b h -> from <= n <= head /\ contains_tx (chain n) h.
Proof.
  pose proof start_bounds. rewrite after_lookup. repeat case_decide; [| |done].
  - intros [= <-]. rewrite stored_tx. intros Hh. split; [lia|done].
  - intros Hb Hh. split; [lia|]. by apply (Hidentify n b ltac:(lia) Hb (kept_shared n b ltac:(lia) Hb)).
Qed.

Lemma after_next n b k :
  after !! n = Some b -> n < k -> is_Some (after !! k) ->
  exists c, after !! (n + 1) = Some c /\ bundle_parent c = bundle_hash b.
Proof.
  pose proof start_bounds. rewrite !after_lookup. intros Hb Hlt Hk.
  assert (k <= head) as Hkh by (repeat case_decide; (lia || by destruct Hk)).
  destruct (decide (a <= n <= head)).
  { injection Hb as <-. rewrite decide_True by lia. eexists. split; [done|].
    rewrite stored_parent, stored_hash. apply Hchain. lia. }
  destruct (decide (from <= n < a)); [|done].
  destruct (decide (n = a - 1)) as [->|].
  { replace (a - 1 + 1) with a by lia. destruct (decide (a <= a <= head)) as [|Hgt].
    - eexists. split; [done|]. rewrite stored_parent, (kept_shared (a - 1) b) by (done || lia).
      rewrite <- (ch_link Hchain (a - 1)) by lia. by replace (a - 1 + 1) with a by lia.
    - exfalso. repeat case_decide; (lia || by destruct Hk). }
  rewrite decide_False, decide_True by lia. destruct Hstart as [->|[_ (b' & Hb' & _)]]; [lia|].
  apply (can_next _ Hcanonical n b (a - 1)); [done|lia|by eauto].
Qed.

Lemma after_canonical : canonical after.
Proof.
  pose proof start_bounds. split.
  - intros n b. rewrite after_lookup. repeat case_decide; [| |done].
    + intros [= <-]. rewrite stored_number. apply Hchain. lia.
    + by apply Hcanonical.
  - intros n b. rewrite after_lookup. repeat case_decide; [| |done].
    + intros [= <-]. apply stored_valid, (ch_valid Hchain). lia.
    + by apply Hcanonical.
  - apply after_next.
  - intros n b n' b' h Hb Hb' Hh Hh'. destruct (after_tx n b h Hb Hh), (after_tx n' b' h Hb' Hh').
    by eapply (ch_tx Hchain).
Qed.

Lemma update_typed : Update_typed update.
Proof.
  pose proof start_bounds. pose proof (cv_chainID _ config_valid). split_and!; simpl; [head_lia|head_lia|head_lia|].
  apply Forall_lookup. intros i b Hi. apply suffix_lookup in Hi as [? ->]; [|lia]. apply Hchain. lia.
Qed.

Lemma after_distinct : distinct_hashes after.
Proof.
  assert (forall n b, after !! n = Some b -> from <= n <= head /\ bundle_hash b = chain_hash n) as Hh.
  { pose proof start_bounds. intros n b. rewrite after_lookup. repeat case_decide; [| |done].
    - intros [= <-]. split; [lia|apply stored_hash].
    - intros Hb. split; [lia|]. by apply kept_shared. }
  intros n b n' b' Hb Hb' Heq. destruct (Hh n b Hb) as [? Hn], (Hh n' b' Hb') as [? Hn'].
  apply (ch_distinct Hchain); [done|done|congruence].
Qed.

Lemma update_valid : Forall (fun b => bundle_valid b /\ keepable b) (suffix a).
Proof.
  pose proof start_bounds. apply Forall_lookup. intros i b Hi. apply suffix_lookup in Hi as [? ->]; [|lia].
  apply Hchain. lia.
Qed.

Lemma update_parent : parent_stored m update.
Proof.
  pose proof start_bounds. intros first rest Hbs Hne. simpl in *.
  assert (suffix a !! 0%nat = Some first) as Hf by (by rewrite Hbs).
  apply suffix_lookup in Hf as [Hle ->]; [|lia]. rewrite Z.add_0_r in *.
  destruct Hstart as [->|[? (b & Hb & Hh)]]; [done|]. exists b. split; [done|].
  rewrite Hh, <- (ch_link Hchain (a - 1)) by lia. by replace (a - 1 + 1) with a by lia.
Qed.
End Update.

Lemma selectedHead_up m w :
  up m w -> succeeds m (selectedHead SafeBlockNumber FinalizedBlockNumber sy)
    (fun hd => Header_Number hd = Some head /\ Header_Hash hd = chain_hash head) w.
Proof.
  intros Hup. unfold selectedHead.
  eapply succeeds_bind; [apply succeeds_map_err; eapply succeeds_header; [done|apply Hendpoint, Hup]|].
  intros o w1 (hd & -> & ? & ?) Hup1. by apply succeeds_ret.
Qed.

Lemma live_bind {A B} m (c : action (St * E) A) (f : A -> action (St * E) B) (P : A -> Prop) (Q : result B -> St * E -> Prop) w :
  succeeds m c P w -> (forall a w', P a -> up m w' -> wp (f a) Q w') -> wp (act_bind c f) Q w.
Proof.
  intros Hc Hf. apply wp_bind. unfold succeeds in Hc. eapply wp_mono; [exact Hc|].
  intros r w' (Hup & a & -> & HP). by apply Hf.
Qed.

(** C5: Synchronization makes progress.  While the endpoint serves one chain without
    failures (its head below the largest block number, its blocks consistent and linked,
    of sizes the store can hold)
    and the store answers, a cycle succeeds, whatever the store held before: an older
    part of the chain, another fork, blocks outside the window, or nothing.  The cycle
    returns a result with the served head, so the store's tip is then that head.  Block
    hashes are assumed to identify a block's parent and transactions. *)
Theorem sync_once_succeeds w :
  store_up id w.1 -> serves w.2 -> hashes_identify (view w.1) ->
  exists res w', SyncOnce SafeBlockNumber FinalizedBlockNumber sy w = (Ok res, w') /\
    Result_Head res = mkTip head (chain_hash head).
Proof.
  intros Hup Hs Hid. set (m := view w.1) in *. assert (up m w) as Hw by done.
  assert (canonical m) as Hcan by (apply view_canonical; by eapply up_ok).
  enough (wp (SyncOnce SafeBlockNumber FinalizedBlockNumber sy)
    (fun r _ => exists res, r = Ok res /\ Result_Head res = mkTip head (chain_hash head)) w) as Hwp.
  { unfold wp in Hwp. destruct (SyncOnce _ _ sy w) as [r w']. destruct Hwp as (res & Hr & ?). simpl in Hr. subst r. by eauto. }
  pose proof (cv_window _ config_valid) as Hwin. pose proof (cv_chainID _ config_valid).
  unfold MaxBlockWindow in Hwin.
  unfold SyncOnce. apply wp_bind, wp_lift.
  rewrite (proj2 (validateSyncOnceConfig_Ok sy ltac:(split; head_lia)) config_valid).
  eapply live_bind; [by apply selectedHead_up|]. intros hd w1 [Hnum Hhash] Hw1.
  eapply (live_bind _ _ _ (fun n => n = head)); [eapply succeeds_lift; [done|apply validHeaderNumber_Ok; split; [done|head_lia]|done]|].
  intros ? w2 -> Hw2. rewrite windowStart_eq by (apply config_valid || head_lia). rewrite Hhash.
  eapply live_bind; [by apply succeeds_map_err, succeeds_tip|]. intros tip w3 Htip Hw3.
  eapply live_bind; [by apply replacementStart_up|]. intros plan w4 Hstart Hw4.
  pose proof (start_bounds m (Plan_From plan) Hstart).
  eapply live_bind; [apply fetch_suffix_up; [done|lia]|]. intros bs w5 -> Hw5.
  apply wp_bind. unfold wp at 1. cbn [fst snd]. set (t := Time_UTC (clock w5.2)).
  apply wp_bind, wp_map_err. destruct w5 as [st e], Hw5 as (Hup5 & Hv5 & _). simpl in *.
  apply wp_on_store. unfold wp.
  assert ((ApplyCanonicalUpdate (mkUpdate id (Plan_From plan) from (suffix (Plan_From plan)) t) st).1 = Ok tt) as ->;
    [|simpl; by eauto].
  apply (apply_live id); rewrite ?Hv5; simpl;
    eauto using update_typed, update_contiguous, update_valid, update_parent, after_canonical, after_distinct; lia.
Qed.
End Live.

(** ** The in-memory store *)

Lemma cloneBundle_valid b : bundle_valid b -> bundle_valid (cloneBundle b).
Proof.
  intros [Hc Hs Ht Hh He Hl]. split; simpl in *; rewrite ?length_fmap; try done.
  - intros i t. rewrite list_lookup_fmap_Some. intros (t0 & -> & Hi). by apply (Ht i t0).
  - by rewrite <- list_fmap_compose.
  - intros e (e0 & -> & Hin)%list_elem_of_fmap. destruct (He e0 Hin) as (? & ? & ? & t & Hin' & ? & ?).
    split_and!; try done. exists (cloneTransaction t). split_and!; [by apply list_elem_of_fmap_2|done..].
  - by rewrite <- list_fmap_compose.
Qed.

#[global] Program Instance memory_store_live `{GoRuntime} : IndexStoreLive MemoryWorld := {|
  store_up id w := mem_ok (mw_store w) /\ (forall n, mw_ctx w n = CtxOpen) /\
                   (mem_chainID (mw_store w) = 0 \/ mem_chainID (mw_store w) = id);
  keepable _ := True;
  block_limit := max_uint64
|}.
Next Obligation. done. Qed.
Next Obligation. by intros ? id s (? & _). Qed.
Next Obligation. intros ? b. apply cloneBundle_valid. Qed.
Next Obligation. intros ? b h. unfold contains_tx. change (stored_as b) with (cloneBundle b). by rewrite cloneBundle_hashes. Qed.
Next Obligation.
  intros ? id s (Hok & Hctx & Hid). unfold wp. simpl. split_and!; try done.
  unfold Memory_CanonicalTip, mw_now. rewrite Hctx. simpl. destruct (highestBundle _) as [[]|]; eauto.
Qed.
Next Obligation.
  intros ? id n s (Hok & Hctx & Hid) _. unfold wp. simpl. split_and!; try done.
  unfold Memory_CanonicalHash, mw_now. rewrite Hctx. simpl. destruct (_ !! n); [done|]. by eexists.
Qed.
Next Obligation.
  intros ? id u s (Hok & Hctx & Hid) Hu Huid Hid0 [Hr _] Hc _ _ Hcan _.
  pose proof (Memory_ApplyCanonicalUpdate_spec (mw_now s) u (mw_store s) Hok Hu) as Ha. simpl.
  destruct (Memory_ApplyCanonicalUpdate _ u _) as [r m']. destruct Ha as [_ [(_ & -> & _)|(Hno & _)]]; [done|].
  destruct Hno. split; [apply Hctx|]. split; try done; by rewrite Huid.
Qed.

(** ** Evaluation: the fork of [Endpoint] over a store that holds the main chain *)
Section Evaluation.
#[local] Existing Instance reference_runtime.

Definition fork_endpoint : Endpoint := serve fork_chain 13.
Definition fork_block (n : Z) : BlockBundle :=
  match ep_fetch fork_endpoint n with Ok b => b | _ => zero_bundle end.

Lemma window_cases (P : Z -> Prop) : P 11 -> P 12 -> P 13 -> forall n, 11 <= n <= 13 -> P n.
Proof. intros ? ? ? n Hn. assert (n = 11 \/ n = 12 \/ n = 13) as [->|[->| ->]] by lia; done. Qed.

Lemma empty_block_valid b :
  Bundle_Transactions b = [] -> Bundle_Events b = [] -> Block_TransactionCount (Bundle_Block b) = 0 -> bundle_valid b.
Proof.
  intros Ht He Hc. split; rewrite ?Ht, ?He, ?Hc; try done; try apply NoDup_nil_2.
  by intros e ?%elem_of_nil.
Qed.

Lemma fork_chain_ok : chain_ok (test_syncer 3) fork_block 13.
Proof.
  split; simpl.
  - apply (window_cases (fun n => Bundle_typed (fork_block n))); (split; [by vm_compute|]); split; by apply Forall_nil_2.
  - apply (window_cases (fun n => bundle_number (fork_block n) = n)); reflexivity.
  - apply (window_cases (fun n => bundle_valid (fork_block n) /\ True)); (split; [by apply empty_block_valid|done]).
  - intros n Hn. assert (n = 11 \/ n = 12) as [->| ->] by lia; reflexivity.
  - intros n n' h Hn Hn' Hh. exfalso. revert n Hn Hh.
    apply (window_cases (fun n => contains_tx (fork_block n) h -> False)); by apply not_elem_of_nil.
  - intros n n' Hn Hn'. revert n Hn n' Hn'.
    apply (window_cases (fun n => forall n', 11 <= n' <= 13 -> _ -> n = n'));
      apply (window_cases (fun n' => bundle_hash _ = bundle_hash (fork_block n') -> _ = n')); vm_compute; done.
Qed.

Lemma fork_endpoint_ok : endpoint_ok (-4) (-3) (test_syncer 3) fork_block 13 (fun e => e = fork_endpoint).
Proof.
  split; simpl.
  - intros e ->. eexists _, fork_endpoint. split_and!; reflexivity.
  - intros e n -> Hn. revert n Hn. apply (window_cases (fun n => exists hd e', (_, _) = (_, e') /\ _ /\ _ /\ _));
      eexists _, fork_endpoint; split_and!; reflexivity.
  - intros e a -> Ha. exists fork_endpoint. split; [|done]. revert a Ha.
    apply (window_cases (fun a => (_, _) = (Ok (fork_block <$> seqZ a (13 - a + 1)), _))); vm_compute; reflexivity.
Qed.

Lemma after_first_identify : hashes_identify (test_syncer 3) fork_block 13 (view after_first.1).
Proof.
  intros n b Hn Hb Hh. revert n Hn b Hb Hh.
  apply (window_cases (fun n => forall b, view after_first.1 !! n = Some b -> bundle_hash b = bundle_hash (fork_block n) ->
    bundle_parent b = bundle_parent (fork_block n) /\ forall h, contains_tx b h <-> contains_tx (fork_block n) h));
    intros b Hb Hh; vm_compute in Hb; try done; injection Hb as <-; vm_compute in Hh |- *; done.
Qed.

Lemma config3_valid : sync_config_valid (test_syncer 3).
Proof. apply validateSyncOnceConfig_Ok; [apply config3|reflexivity]. Qed.

Lemma after_first_up : store_up 1 after_first.1.
Proof.
  split; [apply after_first_ok|]. split; [intros n; by vm_compute|right; by vm_compute].
Qed.

Lemma sync_once_succeeds_witness :
  exists res w', cycle 3 after_first = (Ok res, w') /\ Result_Head res = mkTip 13 (hash_of 33).
Proof.
  exact (sync_once_succeeds (-4) (-3) (test_syncer 3) fork_block 13 (fun e => e = fork_endpoint)
    config3_valid (conj (Zle_bool_imp_le 0 13 eq_refl) (eq_refl : (13 ?= max_uint64) = Lt))
    fork_chain_ok fork_endpoint_ok after_first after_first_up eq_refl after_first_identify).
Defined.
End Evaluation.
