(* ===== verification/Runner.v ===== *)
(** * The polling loop: [internal/indexer/runner.go]

    [syncWithRetry] and [run] over an arbitrary world: the cycle, the wait and the
    context are parameters, as they are in the code ([syncFunc], [s.wait] and
    [ctx]).  The endless loop is a step function on the phase of the runner. *)
From S2P Require Import Prelude Errors Domain Validate Store Fixtures Memory MemoryStore Fetcher Ranger Syncer SyncerProofs Endpoint.
From stdpp Require Import prelude gmap list strings relations.
From Stdlib Require Import ZArith Lia.

Local Open Scope Z_scope.

Definition isPermanentSyncError (err : error) : bool :=
  errors_Is err (IndexerSentinel ErrInvalidSyncConfig) ||
  errors_Is err (IndexerSentinel ErrInvalidSyncDependency) ||
  errors_Is err (StoreSentinel StoreErrInvalidCanonicalUpdate) ||
  errors_Is err (StoreSentinel StoreErrInconsistentData).

(** [time.Duration] is an [int64] of nanoseconds. *)
Definition nextRetryBackoff (current maximum : Z) : Z :=
  if (maximum <=? current) || (to_int64 (maximum - current) <? current) then maximum
  else to_int64 (current * 2).

Definition validateRunConfig (s : Syncer) : result unit :=
  let config := sy_config s in
  _ ← validateSyncOnceConfig s;
  _ ← reject_if (Config_PollInterval config <=? 0)
        (sync_err ErrInvalidSyncConfig "%w: poll interval must be greater than zero");
  _ ← reject_if (Config_RetryAttempts config <? 0)
        (sync_err ErrInvalidSyncConfig "%w: retry attempts cannot be negative");
  _ ← reject_if (Config_RetryMinBackoff config <=? 0)
        (sync_err ErrInvalidSyncConfig "%w: retry minimum backoff must be greater than zero");
  _ ← reject_if (Config_RetryMaxBackoff config <=? 0)
        (sync_err ErrInvalidSyncConfig "%w: retry maximum backoff must be greater than zero");
  reject_if (Config_RetryMaxBackoff config <? Config_RetryMinBackoff config)
    (sync_err ErrInvalidSyncConfig "%w: retry minimum backoff cannot exceed maximum backoff").

Section Run.
Context {W : Type}.
Variable s : Syncer.
(** The cycle, [s.wait(ctx, d)], and [ctx] as it is at a moment. *)
Variable sync : action W SyncResult.
Variable wait : Z -> action W unit.
Variable ctx : W -> ctx_state.

Abbreviation config := (sy_config s).

Definition retries_exhausted (err : error) : error :=
Errorf "%w after %d attempts: %w" [indexer_err ErrSyncRetriesExhausted; err].

(** [for retry := 0; ; retry++]; the loop is left at the latest when [retry]
  reaches [RetryAttempts]. *)
Fixpoint retry_loop (fuel : nat) (retry backoff : Z) : action W SyncResult :=
fun w =>
match fuel with
| O => (OutOfFuel, w)
| S fuel' =>
    match sync w with
    | (Err err, w1) =>
        match ctx_Err (ctx w1) with
        | Some e => (Err e, w1)
        | None =>
            if isPermanentSyncError err then (Err err, w1)
            else if Config_RetryAttempts config <=? retry then (Err (retries_exhausted err), w1)
            else match wait backoff w1 with
                 | (Ok _, w2) =>
                     retry_loop fuel' (retry + 1)
                       (nextRetryBackoff backoff (Config_RetryMaxBackoff config)) w2
                 | (Err err, w2) =>
                     match ctx_Err (ctx w2) with
                     | Some e => (Err e, w2)
                     | None => (Err (wrapf "wait before synchronization retry: %w" err), w2)
                     end
                 | (Panic msg, w2) => (Panic msg, w2)
                 | (OutOfFuel, w2) => (OutOfFuel, w2)
                 end
        end
    | (r, w1) => (r, w1)
    end
end.

Definition syncWithRetry : action W SyncResult :=
retry_loop (S (Z.to_nat (Config_RetryAttempts config))) 0 (Config_RetryMinBackoff config).

(** Where [run] is: before the first cycle, in the endless loop, or returned. *)
Inductive phase := Starting | Polling | Exited (e : error) | Crashed.

Definition exit_with (w : W) (err : error) : phase :=
match ctx_Err (ctx w) with Some e => Exited e | None => Exited err end.

(** One step of [run]: the start, or one round of the loop. *)
Definition run_step (p : phase) (w : W) : phase * W :=
match p with
| Starting =>
    match validateRunConfig s with
    | Err e => (Exited e, w)
    | Ok _ =>
        match syncWithRetry w with
        | (Ok _, w1) => (Polling, w1)
        | (Err err, w1) => (exit_with w1 (wrapf "initial synchronization: %w" err), w1)
        | (_, w1) => (Crashed, w1)
        end
    | _ => (Crashed, w)
    end
| Polling =>
    match wait (Config_PollInterval config) w with
    | (Err err, w1) => (exit_with w1 (wrapf "wait for next synchronization: %w" err), w1)
    | (Ok _, w1) =>
        match syncWithRetry w1 with
        | (Ok _, w2) => (Polling, w2)
        | (Err _, w2) =>
            match ctx_Err (ctx w2) with Some e => (Exited e, w2) | None => (Polling, w2) end
        | (_, w2) => (Crashed, w2)
        end
    | (_, w1) => (Crashed, w1)
    end
| _ => (p, w)
end.

(** [waitFor]: while the world moves on, the timer fires or the context is done; when both
  have happened the [select] may take either. *)
Variables (elapse : Z -> W -> W) (timer_chosen : W -> bool).
Definition waitFor (duration : Z) : action W unit := fun w =>
let w' := elapse duration w in
match ctx_Err (ctx w') with
| Some e => if timer_chosen w' then (Ok tt, w') else (Err e, w')
| None => (Ok tt, w')
end.

(** The runner after [n] steps. *)
Fixpoint Syncer_run (n : nat) (w : W) : phase * W :=
match n with
| O => (Starting, w)
| S n' => let '(p, w') := Syncer_run n' w in run_step p w'
end.
End Run.

Lemma waitFor_returns {W} (ctx : W -> ctx_state) elapse chosen d w : returns (waitFor ctx elapse chosen d w).1.
Proof. unfold waitFor. destruct (ctx_Err _); [|done]. by destruct (chosen _). Qed.

Lemma waitFor_ctx {W} (ctx : W -> ctx_state) elapse chosen d w e w' :
  waitFor ctx elapse chosen d w = (Err e, w') -> ctx_Err (ctx w') = Some e.
Proof. unfold waitFor. destruct (ctx_Err _) eqn:?; [|done]. destruct (chosen _); [done|]. by intros [= <- <-]. Qed.

(** ** Backoff *)

Lemma nextRetryBackoff_eq current maximum :
  0 < current <= maximum -> maximum <= max_int64 ->
  nextRetryBackoff current maximum = Z.min (current * 2) maximum.
Proof.
  intros Hc Hm. unfold nextRetryBackoff. rewrite (to_int64_small (maximum - current)) by int_lia.
  destruct (Z.leb_spec maximum current); simpl; [lia|].
  destruct (Z.ltb_spec (maximum - current) current); [lia|]. rewrite to_int64_small; int_lia.
Qed.

(** The delay before retry [k]: doubled each time, capped. *)
Definition backoff_at (c : Config) (k : Z) : Z :=
  Z.min (Config_RetryMinBackoff c * 2 ^ k) (Config_RetryMaxBackoff c).

(** What [validateRunConfig] requires beyond [validateSyncOnceConfig]. *)
Record run_config_valid (s : Syncer) : Prop := {
  rv_sync : sync_config_valid s;
  rv_poll : 0 < Config_PollInterval (sy_config s);
  rv_attempts : 0 <= Config_RetryAttempts (sy_config s);
  rv_backoff : 0 < Config_RetryMinBackoff (sy_config s) <= Config_RetryMaxBackoff (sy_config s)
}.

Lemma validateRunConfig_Ok s :
  Config_typed (sy_config s) -> validateRunConfig s = Ok tt <-> run_config_valid s.
Proof.
  intros Hty. unfold validateRunConfig. rewrite bind_Ok_iff. repeat setoid_rewrite bind_reject_iff.
  setoid_rewrite reject_if_Ok. repeat setoid_rewrite Z.ltb_ge. repeat setoid_rewrite Z.leb_gt. split.
  - intros ([] & Hs & ? & ? & ? & ? & ?). apply validateSyncOnceConfig_Ok in Hs; [|done]. split; [done|lia..].
  - intros [Hs ? ? ?]. exists tt. split; [by apply validateSyncOnceConfig_Ok|]. lia.
Qed.

Lemma validateRunConfig_errs s : errs_in is_config_error (validateRunConfig s).
Proof.
  unfold validateRunConfig. apply errs_in_bind; [apply validateSyncOnceConfig_errs|intros _ _].
  repeat (apply errs_in_bind; [apply errs_in_reject_if; by left|intros _ _]).
  apply errs_in_reject_if. by left.
Qed.

Lemma backoff_at_step c k :
  0 <= k -> 0 < Config_RetryMinBackoff c <= Config_RetryMaxBackoff c -> Config_RetryMaxBackoff c <= max_int64 ->
  nextRetryBackoff (backoff_at c k) (Config_RetryMaxBackoff c) = backoff_at c (k + 1).
Proof.
  intros Hk Hb Hm. assert (0 < 2 ^ k) by (apply Z.pow_pos_nonneg; lia). unfold backoff_at.
  rewrite nextRetryBackoff_eq by nia. rewrite Z.pow_add_r by lia. nia.
Qed.

(** ** What a cycle with retries calls *)
Inductive call := CallSync | CallWait (d : Z).

Section Retry.
Context {W : Type} (s : Syncer) (sync : action W SyncResult) (wait : Z -> action W unit) (ctx : W -> ctx_state).
Abbreviation config := (sy_config s).

(** [n] failed attempts from retry [k] on, each followed by its delay, then one
  more attempt. *)
Fixpoint attempts (k : Z) (n : nat) : list call :=
match n with
| O => [CallSync]
| S n' => CallSync :: CallWait (backoff_at config k) :: attempts (k + 1) n'
end.

Section Preserve.
Variable I : W -> Prop.
Hypothesis sync_I : forall w, I w -> I (sync w).2.
Hypothesis wait_I : forall d w, I w -> I (wait d w).2.

Lemma retry_loop_preserves fuel : forall retry backoff w,
I w -> I (retry_loop s sync wait ctx fuel retry backoff w).2.
Proof.
induction fuel as [|fuel IH]; intros retry backoff w Hw; cbn [retry_loop]; [done|].
specialize (sync_I w Hw). destruct (sync w) as [[res|err|msg|] w1]; try done. simpl in sync_I.
destruct (ctx_Err (ctx w1)); [done|]. destruct (isPermanentSyncError err); [done|].
destruct (_ <=? _); [done|]. specialize (wait_I backoff w1 sync_I).
destruct (wait backoff w1) as [[[]|err'|msg|] w2]; try done; simpl in wait_I.
- by apply IH.
- by destruct (ctx_Err (ctx w2)).
Qed.

(** A success is the success of the last attempt. *)
Lemma retry_loop_Ok fuel : forall retry backoff w res w',
I w -> retry_loop s sync wait ctx fuel retry backoff w = (Ok res, w') ->
exists w0, I w0 /\ sync w0 = (Ok res, w').
Proof.
induction fuel as [|fuel IH]; intros retry backoff w res w' Hw; cbn [retry_loop]; [done|].
pose proof (sync_I w Hw) as Hw1.
destruct (sync w) as [[res1|err|msg|] w1] eqn:Es; try done; [intros [= -> ->]; eauto|].
destruct (ctx_Err (ctx w1)); [done|]. destruct (isPermanentSyncError err); [done|].
destruct (_ <=? _); [done|]. pose proof (wait_I backoff w1 Hw1) as Hw2.
destruct (wait backoff w1) as [[[]|err'|msg|] w2]; try done; [by apply IH|].
by destruct (ctx_Err (ctx w2)).
Qed.
End Preserve.

(** The calls a world records. *)
Variable log : W -> list call.
Hypothesis sync_log : forall w, log (sync w).2 = log w ++ [CallSync].
Hypothesis wait_log : forall d w, log (wait d w).2 = log w ++ [CallWait d].
Hypothesis sync_returns : forall w, returns (sync w).1.
Hypothesis wait_returns : forall d w, returns (wait d w).1.
Hypothesis config_valid : run_config_valid s.
Hypothesis backoff_fits : Config_RetryMaxBackoff config <= max_int64.

(** How the retries from retry [k] on may end, from the calls recorded in [l0]. *)
Definition retry_outcome (k : Z) (l0 : list call) (r : result SyncResult) (w' : W) : Prop :=
exists n, k + Z.of_nat n <= Config_RetryAttempts config /\
match r with
| Ok _ => log w' = l0 ++ attempts k n
| Err e =>
    (log w' = l0 ++ attempts k n /\
       (ctx_Err (ctx w') = Some e \/ isPermanentSyncError e = true \/
        (k + Z.of_nat n = Config_RetryAttempts config /\
         exists err, e = retries_exhausted err /\ isPermanentSyncError err = false))) \/
    (k + Z.of_nat n < Config_RetryAttempts config /\
     log w' = l0 ++ attempts k n ++ [CallWait (backoff_at config (k + Z.of_nat n))] /\
       (ctx_Err (ctx w') = Some e \/ exists err, e = wrapf "wait before synchronization retry: %w" err))
| _ => False
end.

Lemma retry_outcome_step k l0 r w' :
0 <= k < Config_RetryAttempts config ->
retry_outcome (k + 1) (l0 ++ [CallSync; CallWait (backoff_at config k)]) r w' ->
retry_outcome k l0 r w'.
Proof.
intros Hk (n & Hn & Hr). exists (S n). rewrite Nat2Z.inj_succ. split; [lia|].
replace (k + Z.succ (Z.of_nat n)) with (k + 1 + Z.of_nat n) by lia. cbn [attempts].
destruct r; try done; rewrite <- !app_assoc in Hr; exact Hr.
Qed.

Lemma retry_loop_outcome fuel : forall k w,
0 <= k -> Config_RetryAttempts config - k < Z.of_nat fuel -> k <= Config_RetryAttempts config ->
let '(r, w') := retry_loop s sync wait ctx fuel k (backoff_at config k) w in
retry_outcome k (log w) r w'.
Proof.
induction fuel as [|fuel IH]; intros k w Hk Hfuel Hle; [lia|]. cbn [retry_loop].
pose proof (sync_log w) as Hl1. pose proof (sync_returns w) as Hret.
destruct (sync w) as [[res|err|msg|] w1]; simpl in *; try done.
{ exists 0%nat. split; [lia|]. done. }
destruct (ctx_Err (ctx w1)) as [e|] eqn:Hc; [exists 0%nat; split; [lia|left; auto]|].
destruct (isPermanentSyncError err) eqn:Hperm; [exists 0%nat; split; [lia|left; auto]|].
destruct (Z.leb_spec (Config_RetryAttempts config) k).
{ exists 0%nat. split; [lia|]. left. split; [done|]. right; right. split; [lia|by eauto]. }
pose proof (wait_log (backoff_at config k) w1) as Hl2. pose proof (wait_returns (backoff_at config k) w1) as Hret2.
destruct (wait (backoff_at config k) w1) as [[[]|err'|msg|] w2]; simpl in *; try done.
- rewrite backoff_at_step; [|lia|apply config_valid|done].
  specialize (IH (k + 1) w2). destruct (retry_loop _ _ _ _ fuel _ _ w2) as [r w'].
  apply retry_outcome_step; [lia|]. rewrite Hl1, <- app_assoc in Hl2.
  simpl in Hl2. rewrite <- Hl2. apply IH; lia.
- destruct (ctx_Err (ctx w2)) as [e|] eqn:Hc2; exists 0%nat; (split; [lia|]); right;
    (split; [lia|]); rewrite Z.add_0_r, Hl2, Hl1, <- app_assoc; eauto.
Qed.

End Retry.

(** ** The loop *)
Section Loop.
Context {W : Type} (s : Syncer) (sync : action W SyncResult) (wait : Z -> action W unit) (ctx : W -> ctx_state).
Abbreviation runs := (Syncer_run s sync wait ctx).
Abbreviation step := (run_step s sync wait ctx).

Lemma retry_loop_returns fuel :
(forall w, returns (sync w).1) -> (forall d w, returns (wait d w).1) ->
forall k backoff w, Config_RetryAttempts (sy_config s) - k < Z.of_nat fuel -> k <= Config_RetryAttempts (sy_config s) ->
returns (retry_loop s sync wait ctx fuel k backoff w).1.
Proof.
intros Hs Hw. induction fuel as [|fuel IH]; intros k backoff w Hf Hk; [lia|]. cbn [retry_loop].
specialize (Hs w). destruct (sync w) as [[res|err|msg|] w1]; simpl in *; try done.
destruct (ctx_Err (ctx w1)); [done|]. destruct (isPermanentSyncError err); [done|].
destruct (Z.leb_spec (Config_RetryAttempts (sy_config s)) k); [done|].
specialize (Hw backoff w1). destruct (wait backoff w1) as [[[]|err'|msg|] w2]; simpl in *; try done.
- apply IH; lia.
- by destruct (ctx_Err (ctx w2)).
Qed.

Lemma syncWithRetry_returns w :
(forall w, returns (sync w).1) -> (forall d w, returns (wait d w).1) ->
0 <= Config_RetryAttempts (sy_config s) -> returns (syncWithRetry s sync wait ctx w).1.
Proof. intros. apply retry_loop_returns; auto; lia. Qed.

Lemma syncWithRetry_preserves (I : W -> Prop) w r w' :
syncWithRetry s sync wait ctx w = (r, w') ->
(forall w, I w -> I (sync w).2) -> (forall d w, I w -> I (wait d w).2) -> I w -> I w'.
Proof.
intros Hr Hs Hw HI. replace w' with (syncWithRetry s sync wait ctx w).2 by (by rewrite Hr).
by apply (retry_loop_preserves s sync wait ctx I Hs Hw).
Qed.

Lemma run_preserves (I : W -> Prop) :
(forall w, I w -> I (sync w).2) -> (forall d w, I w -> I (wait d w).2) ->
forall n w, I w -> I (runs n w).2.
Proof.
intros Hs Hw n w HI. induction n as [|n IH]; [done|]. simpl. destruct (runs n w) as [p w1]. simpl in IH.
assert (Hsr : forall w, I w -> I (syncWithRetry s sync wait ctx w).2)
  by (intros x Hx; by apply (retry_loop_preserves s sync wait ctx I Hs Hw)).
destruct p; simpl; try done.
- destruct (validateRunConfig s); simpl; try done. specialize (Hsr w1 IH).
  by destruct (syncWithRetry _ _ _ _ w1) as [[] ?].
- specialize (Hw (Config_PollInterval (sy_config s)) w1 IH).
  destruct (wait _ w1) as [[[]|err|msg|] w2]; simpl in *; try done. specialize (Hsr w2 Hw).
  destruct (syncWithRetry _ _ _ _ w2) as [[] w3]; simpl in *; try done. by destruct (ctx_Err (ctx w3)).
Qed.

(** The loop is entered, and stays entered, only after a successful cycle: any
  fact [J] that successes establish and calls preserve holds while polling. *)
Lemma run_polling (I J : W -> Prop) :
(forall w, I w -> I (sync w).2) -> (forall d w, I w -> I (wait d w).2) ->
(forall w res w', I w -> sync w = (Ok res, w') -> J w') ->
(forall w, I w -> J w -> J (sync w).2) -> (forall d w, J w -> J (wait d w).2) ->
forall n w, I w -> (runs n w).1 = Polling -> J (runs n w).2.
Proof.
intros Hs Hw Hest HsJ HwJ n w HI. induction n as [|n IH]; [done|].
pose proof (run_preserves I Hs Hw n w HI) as HIn. simpl. destruct (runs n w) as [p w1]. simpl in *.
assert (Hok : forall w2 res w', I w2 -> syncWithRetry s sync wait ctx w2 = (Ok res, w') -> J w').
{ intros w2 res w' HI2 Hr. apply (retry_loop_Ok s sync wait ctx I Hs Hw) in Hr as (w0 & ? & ?); eauto. }
destruct p; simpl; try done.
- destruct (validateRunConfig s); simpl; try done.
  destruct (syncWithRetry s sync wait ctx w1) as [[res|err|msg|] w2] eqn:E; simpl; try done; [eauto|].
  unfold exit_with. by destruct (ctx_Err (ctx w2)).
- specialize (IH eq_refl). pose proof (Hw (Config_PollInterval (sy_config s)) w1 HIn) as HI2.
  pose proof (HwJ (Config_PollInterval (sy_config s)) w1 IH) as HJ2.
  destruct (wait _ w1) as [[[]|err|msg|] w2]; simpl in *; try done.
  destruct (syncWithRetry s sync wait ctx w2) as [[res|err|msg|] w3] eqn:E; simpl; try done; [eauto|].
  destruct (ctx_Err (ctx w3)); [done|]. intros _.
  apply (syncWithRetry_preserves (fun w => I w /\ J w) w2 _ w3) in E; [apply E| | |done].
  + intros x [? ?]. auto.
  + intros d x [? ?]. auto.
Qed.

Hypothesis sync_returns : forall w, returns (sync w).1.
Hypothesis wait_returns : forall d w, returns (wait d w).1.
Hypothesis wait_ctx : forall d w e w', wait d w = (Err e, w') -> ctx_Err (ctx w') = Some e.

Hypothesis attempts_nonneg : 0 <= Config_RetryAttempts (sy_config s).

(** Why a step of the loop ends it. *)
Definition exit_cause (p : phase) (w1 w2 : W) (e : error) : Prop :=
match p with
| Starting =>
    (validateRunConfig s = Err e /\ w2 = w1) \/ ctx_Err (ctx w2) = Some e \/
    exists err, syncWithRetry s sync wait ctx w1 = (Err err, w2) /\
      e = wrapf "initial synchronization: %w" err
| Polling => ctx_Err (ctx w2) = Some e
| _ => p = Exited e
end.

Lemma step_exits p w1 :
p <> Crashed -> let '(p', w2) := step p w1 in
p' <> Crashed /\ forall e, p' = Exited e -> exit_cause p w1 w2 e.
Proof.
intros Hp. pose proof (fun w => syncWithRetry_returns w sync_returns wait_returns attempts_nonneg) as Hret.
destruct p; simpl; try done.
- pose proof (validateRunConfig_errs s) as Hcfg.
  destruct (validateRunConfig s) as [[]|e|msg|] eqn:Hv; try done.
  2: { split; [done|]. intros e' [= <-]. by left. }
  specialize (Hret w1). destruct (syncWithRetry s sync wait ctx w1) as [[res|err|msg|] w2]; simpl in *; try done.
  unfold exit_with. destruct (ctx_Err (ctx w2)) eqn:Hc; (split; [done|]); intros e1 [= <-]; [by right; left|].
  right; right. by eauto.
- pose proof (wait_returns (Config_PollInterval (sy_config s)) w1) as Hw.
  pose proof (wait_ctx (Config_PollInterval (sy_config s)) w1) as Hwc.
  destruct (wait _ w1) as [[[]|err|msg|] w2]; simpl in *; try done.
  2: { unfold exit_with. rewrite (Hwc err w2 eq_refl). split; [done|]. intros e [= <-]. eauto. }
  specialize (Hret w2). destruct (syncWithRetry s sync wait ctx w2) as [[res|err|msg|] w3]; simpl in *; try done.
  destruct (ctx_Err (ctx w3)) eqn:Hc; split; try done. by intros e1 [= <-].
Qed.

(** C25: How [Run] can end.  It never crashes.  It returns a configuration error
  before any cycle ran; or, when the initial synchronization fails, that failure,
  or the context's error if the context is done; once it polls it returns only
  because the context is done, with the context's error: a failing cycle never
  ends it. *)
Theorem run_exits n w :
let '(p, w1) := runs n w in
let '(p', w2) := step p w1 in
p <> Crashed /\ p' <> Crashed /\ forall e, p' = Exited e -> exit_cause p w1 w2 e.
Proof.
assert (Hnc : (runs n w).1 <> Crashed).
{ induction n as [|n IH]; [done|]. simpl. destruct (runs n w) as [p w1].
  pose proof (step_exits p w1 IH) as Hs. destruct (step p w1). apply Hs. }
destruct (runs n w) as [p w1]. pose proof (step_exits p w1 Hnc) as Hs. by destruct (step p w1).
Qed.
End Loop.

(** ** The service on its store *)
Section Service.
Context {St E : Type} `{GoRuntime} `{IndexStore St} `{!IndexStoreLaws St} `{ChainEnv E} `{!ChainEnvLaws E}.
Variables (SafeBlockNumber FinalizedBlockNumber : Z) (sy : Syncer).
Variable wait : Z -> action (St * E) unit.
Variable ctx : St * E -> ctx_state.
(** Waiting does not touch the store. *)
Hypothesis wait_store : forall d w, (wait d w).2.1 = w.1.
Hypothesis config_typed : Config_typed (sy_config sy).
Abbreviation window := (Config_BlockWindow (sy_config sy)).
Abbreviation sync := (SyncOnce SafeBlockNumber FinalizedBlockNumber sy).

(** The stored segment is canonical, complete for its window and within it. *)
Definition service_inv (w : St * E) : Prop :=
store_ok w.1 /\ window_full window (view w.1) /\ Z.of_nat (size (view w.1)) <= window.

Lemma sync_service_inv w : service_inv w -> service_inv (sync w).2.
Proof.
intros (Hok & Hfull & Hsize).
pose proof (SyncOnce_spec SafeBlockNumber FinalizedBlockNumber sy w Hok config_typed) as Hspec.
split_and!; [apply Hspec|by apply SyncOnce_window_full|].
unfold wp, cycle_post in Hspec. destruct (sync w) as [r w']. simpl in *.
destruct Hspec as (_ & Hret & Herr & Hres). destruct r as [res|e|msg|]; [|by rewrite (Herr e eq_refl)|done..].
destruct (Hres res eq_refl) as [bs [Hs _]]. apply (synced_size _ _ _ Hs).
Qed.

Lemma sync_Ok_nonempty w res w' : service_inv w -> sync w = (Ok res, w') -> view w'.1 <> ∅.
Proof.
intros (Hok & _) Hr.
pose proof (SyncOnce_spec SafeBlockNumber FinalizedBlockNumber sy w Hok config_typed) as Hspec.
unfold wp, cycle_post in Hspec. rewrite Hr in Hspec. destruct Hspec as (_ & _ & _ & Hres).
destruct (Hres res eq_refl) as [bs [Hs _]]. destruct (synced_tip _ _ _ Hs) as (b & Hb & _).
simpl in Hb. intros He. by rewrite He in Hb.
Qed.

Lemma sync_keeps_nonempty w : service_inv w -> view w.1 <> ∅ -> view (sync w).2.1 <> ∅.
Proof.
intros Hi Hne. destruct (sync w) as [[res|e|msg|] w'] eqn:Hr; [by eapply sync_Ok_nonempty| |exfalso..];
  destruct Hi as (Hok & _);
  pose proof (SyncOnce_spec SafeBlockNumber FinalizedBlockNumber sy w Hok config_typed) as Hspec;
  unfold wp, cycle_post in Hspec; rewrite Hr in Hspec; destruct Hspec as (_ & Hret & Herr & _); try done.
simpl in *. by rewrite (Herr e eq_refl).
Qed.

(** C11: However long the service runs and whatever fails, its store holds a
  canonical segment with every block of the window that ends in its tip and no
  more blocks than the window; and as soon as it polls, that is after the
  initial synchronization, the segment is not empty. *)
Theorem run_store_invariant n w :
store_ok w.1 -> window_full window (view w.1) -> Z.of_nat (size (view w.1)) <= window ->
let '(p, w') := Syncer_run sy sync wait ctx n w in
canonical (view w'.1) /\ window_full window (view w'.1) /\ Z.of_nat (size (view w'.1)) <= window /\
(p = Polling -> view w'.1 <> ∅).
Proof.
intros Hok Hfull Hsize. assert (Hi : service_inv w) by done.
assert (Hw : forall d w, service_inv w -> service_inv (wait d w).2).
{ intros d x (? & ? & ?). unfold service_inv. by rewrite wait_store. }
assert (HwJ : forall d (w : St * E), view w.1 <> ∅ -> view (wait d w).2.1 <> ∅)
  by (intros d x; by rewrite wait_store).
pose proof (run_preserves sy sync wait ctx service_inv sync_service_inv Hw n w Hi) as (Hok' & ? & ?).
pose proof (run_polling sy sync wait ctx service_inv (fun w => view w.1 <> ∅) sync_service_inv Hw
  sync_Ok_nonempty sync_keeps_nonempty HwJ n w Hi) as Hpoll.
destruct (Syncer_run sy sync wait ctx n w) as [p w']. simpl in *.
split_and!; [by apply view_canonical|done|done|done].
Qed.
End Service.

(** ** Evaluation *)

(** A world that is its own log: the first two cycles fail, and the context is
    cancelled with the sixth call. *)
Definition script_ctx (l : list call) : ctx_state := if (length l <? 6)%nat then CtxOpen else CtxCanceled.
Definition script_sync : action (list call) SyncResult := fun l =>
  (if (length l <? 3)%nat then Err (Errorf "connection refused" [])
   else Ok (mkSyncResult (mkTip 0 zero_hash) None SyncModeCurrent 0 0 0 0 0 zero_time None), l ++ [CallSync]).
Definition script_wait (d : Z) : action (list call) unit := fun l =>
  let l' := l ++ [CallWait d] in
  (match ctx_Err (script_ctx l') with Some e => Err e | None => Ok tt end, l').

Lemma script_sync_returns l : returns (script_sync l).1.
Proof. unfold script_sync. by case_match. Qed.
Lemma script_wait_returns d l : returns (script_wait d l).1.
Proof. unfold script_wait. simpl. by case_match. Qed.
Lemma script_wait_ctx d l e l' : script_wait d l = (Err e, l') -> ctx_Err (script_ctx l') = Some e.
Proof. unfold script_wait. case_match eqn:Hc; intros [= <- <-]. done. Qed.
Lemma test_syncer_valid : run_config_valid (test_syncer 3).
Proof. apply validateRunConfig_Ok; [by apply test_config_typed|]. reflexivity. Qed.


Lemma run_exits_witness :
  let '(p, w1) := Syncer_run (test_syncer 3) script_sync script_wait script_ctx 1 [] in
  p = Polling /\
  exit_cause (test_syncer 3) script_sync script_wait script_ctx Polling w1
    (w1 ++ [CallWait 1]) (foreign_err ContextCanceled).
Proof.
  pose proof (run_exits (test_syncer 3) script_sync script_wait script_ctx script_sync_returns
    script_wait_returns script_wait_ctx ltac:(by compute) 1 []) as He.
  vm_compute in He. vm_compute. destruct He as (_ & _ & He). split; [done|]. by apply He.
Defined.

Section ServiceRun.
#[local] Existing Instance reference_runtime.

Definition no_wait (d : Z) : action (MemoryWorld * Endpoint) unit := fun w => (Ok tt, w).

Lemma run_store_invariant_witness :
let '(p, w') := Syncer_run (test_syncer 3) (cycle 3) no_wait (fun _ => CtxOpen) 2 start in
canonical (view w'.1) /\ window_full 3 (view w'.1).
Proof.
pose proof (run_store_invariant (-4) (-3) (test_syncer 3) no_wait (fun _ => CtxOpen) (fun _ _ => eq_refl)
  config3 2 start new_store_ok) as Hr.
unfold cycle. destruct (Syncer_run _ _ _ _ _ _) as [p w'].
destruct Hr as (? & ? & _); [|done|done]. intros t (b & Hb & _). done.
Defined.
End ServiceRun.
