(* ===== verification/RunnerLog.v ===== *)
(** * The log entry of a cycle: [logSyncResult] of [internal/indexer/runner.go]

    The level and the fields of the entry, in the order they are added, and what they say
    of a cycle that succeeded. *)
From S2P Require Import Prelude Errors Domain Validate Store Fixtures Memory MemoryStore Fetcher Ranger Syncer SyncerProofs Endpoint.
From stdpp Require Import prelude gmap list strings.
From Stdlib Require Import ZArith Lia.

Local Open Scope Z_scope.

Inductive LogLevel := DebugLevel | InfoLevel | WarnLevel.
#[global] Instance LogLevel_eq_dec : EqDecision LogLevel.
Proof. solve_decision. Defined.

(** The typed fields of a [zerolog.Event]; a hash is logged as its hexadecimal text. *)
Inductive log_value :=
| LogUint64 (v : Z)
| LogInt (v : Z)
| LogBool (v : bool)
| LogHead (v : HeadMode)
| LogMode (v : SyncMode)
| LogHash (v : Hash)
| LogTime (v : Time).

Record log_entry := mkLogEntry { Log_level : LogLevel; Log_fields : list (string * log_value) }.

Definition is_some {A} (o : option A) : bool := match o with Some _ => true | None => false end.

Definition log_level (result : SyncResult) : LogLevel :=
  if is_some (Result_Reorg result) then WarnLevel
  else if Result_BlockCount result =? 0 then DebugLevel else InfoLevel.

Definition logSyncResult (s : Syncer) (result : SyncResult) : log_entry :=
  let head := Result_Head result in
  mkLogEntry (log_level result)
    ([("chain_id", LogUint64 (Config_ChainID (sy_config s)));
      ("head_mode", LogHead (Config_HeadMode (sy_config s)));
      ("sync_mode", LogMode (Result_Mode result));
      ("stored_tip_present", LogBool (is_some (Result_StoredTip result)));
      ("selected_head_number", LogUint64 (Tip_Number head));
      ("selected_head_hash", LogHash (Tip_Hash head));
      ("retained_from_block", LogUint64 (Result_FromBlock result));
      ("retained_to_block", LogUint64 (Tip_Number head));
      ("retained_blocks", LogUint64 (u64_add (u64_sub (Tip_Number head) (Result_FromBlock result)) 1));
      ("fetched_blocks", LogInt (Result_BlockCount result));
      ("fetched_transactions", LogInt (Result_TransactionCount result));
      ("fetched_events", LogInt (Result_EventCount result));
      ("reorg_detected", LogBool (is_some (Result_Reorg result)));
      ("synced_at", LogTime (Result_SyncedAt result))]%string ++
     match Result_StoredTip result with
     | Some tip => [("stored_tip_number", LogUint64 (Tip_Number tip)); ("stored_tip_hash", LogHash (Tip_Hash tip))]%string
     | None => []
     end ++
     (if 0 <? Result_BlockCount result
      then [("fetched_from_block", LogUint64 (Result_ReplaceFrom result));
            ("fetched_to_block", LogUint64 (Tip_Number head))]%string
      else []) ++
     match Result_Reorg result with
     | Some reorg =>
         [("reorg_replaced_from_block", LogUint64 (Reorg_ReplacedFrom reorg));
          ("reorg_replaced_to_block", LogUint64 (Reorg_ReplacedTo reorg));
          ("reorg_replaced_blocks", LogUint64 (Reorg_ReplacedBlockCount reorg));
          ("common_ancestor_found", LogBool (is_some (Reorg_CommonAncestor reorg)))]%string ++
         match Reorg_CommonAncestor reorg with
         | Some a => [("common_ancestor_number", LogUint64 (Tip_Number a)); ("common_ancestor_hash", LogHash (Tip_Hash a))]%string
         | None => []
         end
     | None => []
     end).

Section Log.
Context {St E : Type} `{GoRuntime} `{IndexStore St} `{!IndexStoreLaws St} `{ChainEnv E} `{!ChainEnvLaws E}.
Variables (SafeBlockNumber FinalizedBlockNumber : Z) (sy : Syncer).

(** The entry of a successful cycle: a warning exactly for a reorg, a debug message exactly
    when nothing was fetched; the number of retained blocks does not wrap around and lies
    between one and the window. *)
Lemma log_entry_of_cycle (w : St * E) m m' res bs :
  synced SafeBlockNumber FinalizedBlockNumber sy w m m' res bs ->
  (Log_level (logSyncResult sy res) = WarnLevel <-> Result_Mode res = SyncModeReorg) /\
  (Log_level (logSyncResult sy res) = DebugLevel <-> Result_Mode res = SyncModeCurrent) /\
  exists retained, ("retained_blocks"%string, LogUint64 retained) ∈ Log_fields (logSyncResult sy res) /\
    retained = Tip_Number (Result_Head res) - Result_FromBlock res + 1 /\
    1 <= retained <= Config_BlockWindow (sy_config sy).
Proof.
  intros Hs. destruct (synced_bounds SafeBlockNumber FinalizedBlockNumber sy Hs) as (? & ? & ? & ? & Hlen).
  pose proof (sd_plan _ _ _ _ _ _ _ _ Hs) as Hp. pose proof (sd_blocks _ _ _ _ _ _ _ _ Hs) as Hb.
  pose proof (cv_window _ (sd_config _ _ _ _ _ _ _ _ Hs)) as Hw. unfold MaxBlockWindow in Hw.
  unfold plan_spec in Hp. simpl in Hp. unfold logSyncResult, log_level. cbn [Log_level Log_fields].
  assert (Result_BlockCount res = 0 <-> Result_ReplaceFrom res = Tip_Number (Result_Head res) + 1) as Hz by lia.
  split_and!.
  1,2: destruct (Result_Mode res); destruct (Result_Reorg res) as [r|]; simpl;
    destruct (Z.eqb_spec (Result_BlockCount res) 0); try (split; congruence); naive_solver lia.
  exists (u64_add (u64_sub (Tip_Number (Result_Head res)) (Result_FromBlock res)) 1).
  rewrite u64_sub_small, u64_add_small by int_lia. split_and!; [|done|lia|lia].
  apply elem_of_app. left. rewrite !elem_of_cons. tauto.
Qed.
End Log.

(** The entry of the reorganization of [Endpoint]. *)
Example fork_cycle_entry :
  let entry := logSyncResult (test_syncer 3) (ok_or_zero fork_cycle.1) in
  Log_level entry = WarnLevel /\
  Log_fields entry !! 20%nat = Some ("reorg_replaced_blocks"%string, LogUint64 1) /\
  Log_fields entry !! 22%nat = Some ("common_ancestor_number"%string, LogUint64 11).
Proof. vm_compute. done. Qed.
