(* ===== verification/Codec.v ===== *)
(** * PostgreSQL parameters and rows: [internal/store/postgres_scan.go] and the
    range checks and conversions of [internal/store/postgres_indexer.go]

    A bundle is checked, turned into the parameters of the insert statements, and
    read back from rows.  What the driver and the database do in between is a
    relation between parameters and rows; the theorems show that a bundle that
    passes the checks comes back as it was written. *)
From S2P Require Import Prelude Errors Domain Validate Store Fixtures Memory.
From stdpp Require Import prelude gmap list strings.
From Stdlib Require Import ZArith Lia Strings.Byte.

Local Open Scope Z_scope.

Definition inconsistent_data (format : string) : error := wrapf format (store_err StoreErrInconsistentData).

(** ** Decoding columns *)

Definition decodePostgresUint64 (value : Z) : result Z :=
  if value <? 0 then Err (inconsistent_data "%w: PostgreSQL bigint is negative") else Ok value.

Definition decodePostgresUint32 (value : Z) : result Z :=
  if value <? 0 then Err (inconsistent_data "%w: PostgreSQL integer is negative") else Ok (to_u32 value).

Definition decodePostgresUint8 (value : Z) : result Z :=
  if (value <? 0) || (255 <? value)
  then Err (inconsistent_data "%w: PostgreSQL smallint is outside uint8") else Ok (value mod 256).

(** [common.BytesToHash] and [common.BytesToAddress] of a slice of the right length. *)
Definition decodeHash (value : byte_slice) : result Hash :=
  match array_of_bytes HashLength (slice_bytes value) with
  | Some h => Ok h
  | None => Err (inconsistent_data "%w: hash has %d bytes")
  end.

Definition decodeAddress (value : byte_slice) : result Address :=
  match array_of_bytes AddressLength (slice_bytes value) with
  | Some a => Ok a
  | None => Err (inconsistent_data "%w: address has %d bytes")
  end.

Definition decodeOptionalAddress (value : byte_slice) : result (option Address) :=
  match value with
  | None => Ok None
  | Some _ => address ← decodeAddress value; Ok (Some address)
  end.

Fixpoint decode_topics_loop (values : list byte_slice) : result (list Hash) :=
  match values with
  | [] => Ok []
  | value :: rest =>
      topic ← map_err (wrapf "decode event topic %d: %w") (decodeHash value);
      topics ← decode_topics_loop rest;
      Ok (topic :: topics)
  end.

Definition decodeTopics (values : list byte_slice) : result (list Hash) :=
  if 4 <? Z.of_nat (length values) then Err (inconsistent_data "%w: event has %d topics")
  else decode_topics_loop values.

(** [pgtype.Numeric]: [Int * 10^Exp], or null, NaN, or infinite. *)
Record Numeric := mkNumeric {
  Numeric_Int : option Z;
  Numeric_Exp : Z;
  Numeric_NaN : bool;
  Numeric_Finite : bool;
  Numeric_Valid : bool
}.

(** [integer.Sign() < 0 || integer.BitLen() > 256] *)
Definition outside_uint256 (v : Z) : bool := (v <? 0) || (2 ^ 256 <=? v).

Definition decodePostgresNumeric (value : Numeric) (required : bool) : result (option Z) :=
  if negb (Numeric_Valid value)
  then if required then Err (inconsistent_data "%w: %s is null") else Ok None
  else
    _ ← reject_if (Numeric_NaN value || negb (Numeric_Finite value))
          (inconsistent_data "%w: %s is not finite");
    _ ← reject_if ((Numeric_Exp value <? -78) || (78 <? Numeric_Exp value))
          (inconsistent_data "%w: %s has unsupported exponent %d");
    let integer := default 0 (Numeric_Int value) in
    let power := 10 ^ Z.abs (Numeric_Exp value) in
    integer' ← (if 0 <? Numeric_Exp value then Ok (integer * power)
                else if Numeric_Exp value <? 0
                then _ ← reject_if (negb (Z.rem integer power =? 0))
                           (inconsistent_data "%w: %s is not an integer");
                     Ok (Z.quot integer power)
                else Ok integer);
    _ ← reject_if (outside_uint256 integer') (inconsistent_data "%w: %s is outside uint256");
    Ok (Some integer').

(** ** Rows *)

Record postgresBlockRow := mkBlockRow {
  brow_number : Z;
  brow_hash : byte_slice;
  brow_parentHash : byte_slice;
  brow_timestamp : Z;
  brow_gasLimit : Z;
  brow_gasUsed : Z;
  brow_baseFeePerGas : Numeric;
  brow_transactionCount : Z;
  brow_indexedAt : Time
}.

Definition postgresBlockRow_decode (row : postgresBlockRow) : result Block :=
  number ← map_err (wrapf "decode block number: %w") (decodePostgresUint64 (brow_number row));
  hash ← map_err (wrapf "decode block hash: %w") (decodeHash (brow_hash row));
  parentHash ← map_err (wrapf "decode block parent hash: %w") (decodeHash (brow_parentHash row));
  timestamp ← map_err (wrapf "decode block timestamp: %w") (decodePostgresUint64 (brow_timestamp row));
  gasLimit ← map_err (wrapf "decode block gas limit: %w") (decodePostgresUint64 (brow_gasLimit row));
  gasUsed ← map_err (wrapf "decode block gas used: %w") (decodePostgresUint64 (brow_gasUsed row));
  baseFee ← decodePostgresNumeric (brow_baseFeePerGas row) false;
  _ ← reject_if (brow_transactionCount row <? 0)
        (inconsistent_data "%w: block transaction count is negative");
  Ok (mkBlock number hash parentHash timestamp gasLimit gasUsed baseFee (brow_transactionCount row)
        (brow_indexedAt row)).

Record postgresTransactionRow := mkTransactionRow {
  trow_hash : byte_slice;
  trow_blockNumber : Z;
  trow_blockHash : byte_slice;
  trow_index : Z;
  trow_typeID : Z;
  trow_nonce : Z;
  trow_sender : byte_slice;
  trow_recipient : byte_slice;
  trow_value : Numeric;
  trow_gasLimit : Z;
  trow_gasPrice : Numeric;
  trow_maxFeePerGas : Numeric;
  trow_maxPriorityFeePerGas : Numeric;
  trow_input : byte_slice
}.

Definition postgresTransactionRow_decode (row : postgresTransactionRow) : result Transaction :=
  hash ← map_err (wrapf "decode transaction hash: %w") (decodeHash (trow_hash row));
  blockNumber ← map_err (wrapf "decode transaction block number: %w")
                  (decodePostgresUint64 (trow_blockNumber row));
  blockHash ← map_err (wrapf "decode transaction block hash: %w") (decodeHash (trow_blockHash row));
  index ← map_err (wrapf "decode transaction index: %w") (decodePostgresUint32 (trow_index row));
  typeID ← map_err (wrapf "decode transaction type: %w") (decodePostgresUint8 (trow_typeID row));
  nonce ← map_err (wrapf "decode transaction nonce: %w") (decodePostgresUint64 (trow_nonce row));
  sender ← map_err (wrapf "decode transaction sender: %w") (decodeAddress (trow_sender row));
  recipient ← map_err (wrapf "decode transaction recipient: %w") (decodeOptionalAddress (trow_recipient row));
  value ← decodePostgresNumeric (trow_value row) true;
  gasLimit ← map_err (wrapf "decode transaction gas limit: %w") (decodePostgresUint64 (trow_gasLimit row));
  gasPrice ← decodePostgresNumeric (trow_gasPrice row) false;
  maxFee ← decodePostgresNumeric (trow_maxFeePerGas row) false;
  maxPriorityFee ← decodePostgresNumeric (trow_maxPriorityFeePerGas row) false;
  Ok (mkTransaction hash blockNumber blockHash index typeID nonce sender recipient value gasLimit gasPrice
        maxFee maxPriorityFee (slice_append None (trow_input row))).

Record postgresEventRow := mkEventRow {
  erow_blockNumber : Z;
  erow_blockHash : byte_slice;
  erow_transactionHash : byte_slice;
  erow_transactionIndex : Z;
  erow_logIndex : Z;
  erow_address : byte_slice;
  erow_topics : list byte_slice;
  erow_data : byte_slice
}.

Definition postgresEventRow_decode (row : postgresEventRow) : result Event :=
  blockNumber ← map_err (wrapf "decode event block number: %w") (decodePostgresUint64 (erow_blockNumber row));
  blockHash ← map_err (wrapf "decode event block hash: %w") (decodeHash (erow_blockHash row));
  transactionHash ← map_err (wrapf "decode event transaction hash: %w") (decodeHash (erow_transactionHash row));
  transactionIndex ← map_err (wrapf "decode event transaction index: %w")
                       (decodePostgresUint32 (erow_transactionIndex row));
  logIndex ← map_err (wrapf "decode event log index: %w") (decodePostgresUint32 (erow_logIndex row));
  address ← map_err (wrapf "decode event address: %w") (decodeAddress (erow_address row));
  topics ← decodeTopics (erow_topics row);
  Ok (mkEvent blockNumber blockHash transactionHash transactionIndex logIndex address topics
        (slice_append None (erow_data row))).

(** ** Range checks before writing *)

Definition validateUint256 (value : option Z) (required : bool) : result unit :=
  match value with
  | None => reject_if required (invalid_update "%w: %s is required")
  | Some v => reject_if (outside_uint256 v) (invalid_update "%w: %s is outside uint256")
  end.

Definition validatePostgresBlock (block : Block) : result unit :=
  _ ← reject_if ((max_int64 <? Block_Number block) || (max_int64 <? Block_Timestamp block) ||
                 (max_int64 <? Block_GasLimit block) || (max_int64 <? Block_GasUsed block))
        (invalid_update "%w: block %d contains a value exceeding PostgreSQL bigint");
  _ ← reject_if (max_int32 <? Block_TransactionCount block)
        (invalid_update "%w: block %d transaction count exceeds PostgreSQL integer");
  validateUint256 (Block_BaseFeePerGas block) false.

Definition validatePostgresTransaction (t : Transaction) : result unit :=
  _ ← reject_if ((max_int64 <? Transaction_BlockNumber t) || (max_int64 <? Transaction_Nonce t) ||
                 (max_int64 <? Transaction_GasLimit t))
        (invalid_update "%w: transaction %s contains a value exceeding PostgreSQL bigint");
  _ ← reject_if (max_int32 <? Transaction_Index t)
        (invalid_update "%w: transaction %s index exceeds PostgreSQL integer");
  _ ← validateUint256 (Transaction_Value t) true;
  _ ← validateUint256 (Transaction_GasPrice t) false;
  _ ← validateUint256 (Transaction_MaxFeePerGas t) false;
  validateUint256 (Transaction_MaxPriorityFeePerGas t) false.

Definition validatePostgresEvent (e : Event) : result unit :=
  reject_if ((max_int32 <? Event_TransactionIndex e) || (max_int32 <? Event_LogIndex e))
    (invalid_update "%w: event position exceeds PostgreSQL integer").

Fixpoint check_each {A} (f : A -> result unit) (l : list A) : result unit :=
  match l with
  | [] => Ok tt
  | x :: rest => _ ← f x; check_each f rest
  end.

Definition validatePostgresBundle (bundle : BlockBundle) : result unit :=
  _ ← validatePostgresBlock (Bundle_Block bundle);
  _ ← check_each validatePostgresTransaction (Bundle_Transactions bundle);
  check_each validatePostgresEvent (Bundle_Events bundle).

Definition validatePostgresUpdate `{GoRuntime} (update : CanonicalUpdate) : result unit :=
  _ ← reject_if (Update_ChainID update =? 0) (invalid_update "%w: chain ID must be greater than zero");
  _ ← reject_if (max_int64 <? Update_ChainID update)
        (invalid_update "%w: chain ID exceeds PostgreSQL bigint");
  _ ← reject_if (Update_ReplaceFrom update <? Update_RetainFrom update)
        (invalid_update "%w: retain-from block cannot exceed replace-from block");
  _ ← reject_if ((max_int64 <? Update_RetainFrom update) || (max_int64 <? Update_ReplaceFrom update))
        (invalid_update "%w: canonical range exceeds PostgreSQL bigint");
  _ ← validateReplacement update;
  _ ← validateCanonicalBundles (insert_blocks ∅ (Update_Blocks update));
  check_each validatePostgresBundle (Update_Blocks update).

(** ** Parameters of the insert statements *)

Definition postgresInt64 (value : Z) : result Z :=
  if max_int64 <? value then Panic "store: uint64 exceeds PostgreSQL bigint" else Ok value.
Definition postgresInt32 (value : Z) : result Z :=
  if max_int32 <? value then Panic "store: uint32 exceeds PostgreSQL integer" else Ok value.
Definition postgresCount (value : Z) : result Z :=
  if (value <? 0) || (max_int32 <? value)
  then Panic "store: int exceeds non-negative PostgreSQL integer" else Ok value.

(** [None] is the untyped nil, an SQL NULL. *)
Definition postgresNumeric (value : option Z) : option Numeric :=
  match value with
  | None => None
  | Some v => Some (mkNumeric (Some v) 0 false true true)
  end.
Definition postgresAddress (address : option Address) : byte_slice :=
  match address with None => None | Some a => Some (array_bytes a) end.

Record block_args := mkBlockArgs {
  barg_number : Z; barg_hash : byte_slice; barg_parentHash : byte_slice; barg_timestamp : Z;
  barg_gasLimit : Z; barg_gasUsed : Z; barg_baseFee : option Numeric; barg_count : Z; barg_indexedAt : Time
}.

Definition queueBlock (block : Block) : result block_args :=
  number ← postgresInt64 (Block_Number block);
  timestamp ← postgresInt64 (Block_Timestamp block);
  gasLimit ← postgresInt64 (Block_GasLimit block);
  gasUsed ← postgresInt64 (Block_GasUsed block);
  count ← postgresCount (Block_TransactionCount block);
  Ok (mkBlockArgs number (Some (array_bytes (Block_Hash block))) (Some (array_bytes (Block_ParentHash block)))
        timestamp gasLimit gasUsed (postgresNumeric (Block_BaseFeePerGas block)) count (Block_IndexedAt block)).

Record transaction_args := mkTransactionArgs {
  targ_hash : byte_slice; targ_blockNumber : Z; targ_index : Z; targ_type : Z; targ_nonce : Z;
  targ_sender : byte_slice; targ_recipient : byte_slice; targ_value : option Numeric; targ_gasLimit : Z;
  targ_gasPrice : option Numeric; targ_maxFee : option Numeric; targ_maxPriorityFee : option Numeric;
  targ_input : byte_slice
}.

Definition queueTransaction (t : Transaction) : result transaction_args :=
  blockNumber ← postgresInt64 (Transaction_BlockNumber t);
  index ← postgresInt32 (Transaction_Index t);
  nonce ← postgresInt64 (Transaction_Nonce t);
  gasLimit ← postgresInt64 (Transaction_GasLimit t);
  Ok (mkTransactionArgs (Some (array_bytes (Transaction_Hash t))) blockNumber index (Transaction_Type t) nonce
        (Some (array_bytes (Transaction_Sender t))) (postgresAddress (Transaction_Recipient t))
        (postgresNumeric (Transaction_Value t)) gasLimit (postgresNumeric (Transaction_GasPrice t))
        (postgresNumeric (Transaction_MaxFeePerGas t)) (postgresNumeric (Transaction_MaxPriorityFeePerGas t))
        (Transaction_Input t)).

Record event_args := mkEventArgs {
  earg_blockNumber : Z; earg_transactionHash : byte_slice; earg_transactionIndex : Z; earg_logIndex : Z;
  earg_address : byte_slice; earg_topics : list byte_slice; earg_data : byte_slice
}.

Definition queueEvent (e : Event) : result event_args :=
  blockNumber ← postgresInt64 (Event_BlockNumber e);
  transactionIndex ← postgresInt32 (Event_TransactionIndex e);
  logIndex ← postgresInt32 (Event_LogIndex e);
  Ok (mkEventArgs blockNumber (Some (array_bytes (Event_TransactionHash e))) transactionIndex logIndex
        (Some (array_bytes (Event_Address e))) ((fun t => Some (array_bytes t)) <$> Event_Topics e)
        (Event_Data e)).

(** ** What the database keeps

    A row read back holds the values of the parameters it was inserted with:
    integers, byte strings and nulls are the same, a numeric is some representation
    of the same number, a time stamp is kept to the column's precision
    ([db_time]).  The row of a transaction or an event carries the hash of its
    block, joined from the block's row. *)

(** [n] is a finite [Int * 10^Exp] equal to the integer [v]. *)
Definition represents (n : Numeric) (v : Z) : Prop :=
  Numeric_Valid n = true /\ Numeric_NaN n = false /\ Numeric_Finite n = true /\ -78 <= Numeric_Exp n <= 78 /\
  default 0 (Numeric_Int n) * 10 ^ (Numeric_Exp n + 78) = v * 10 ^ 78.

Definition numeric_column (arg : option Numeric) (n : Numeric) : Prop :=
  match arg with
  | None => Numeric_Valid n = false
  | Some a => forall v, represents a v -> represents n v
  end.

Record block_stored (db_time : Time -> Time) (a : block_args) (r : postgresBlockRow) : Prop := {
  bs_number : brow_number r = barg_number a;
  bs_hash : brow_hash r = barg_hash a;
  bs_parentHash : brow_parentHash r = barg_parentHash a;
  bs_timestamp : brow_timestamp r = barg_timestamp a;
  bs_gasLimit : brow_gasLimit r = barg_gasLimit a;
  bs_gasUsed : brow_gasUsed r = barg_gasUsed a;
  bs_baseFee : numeric_column (barg_baseFee a) (brow_baseFeePerGas r);
  bs_count : brow_transactionCount r = barg_count a;
  bs_indexedAt : brow_indexedAt r = db_time (barg_indexedAt a)
}.

Record transaction_stored (blockHash : byte_slice) (a : transaction_args) (r : postgresTransactionRow) : Prop := {
  ts_hash : trow_hash r = targ_hash a;
  ts_blockNumber : trow_blockNumber r = targ_blockNumber a;
  ts_blockHash : trow_blockHash r = blockHash;
  ts_index : trow_index r = targ_index a;
  ts_type : trow_typeID r = targ_type a;
  ts_nonce : trow_nonce r = targ_nonce a;
  ts_sender : trow_sender r = targ_sender a;
  ts_recipient : trow_recipient r = targ_recipient a;
  ts_value : numeric_column (targ_value a) (trow_value r);
  ts_gasLimit : trow_gasLimit r = targ_gasLimit a;
  ts_gasPrice : numeric_column (targ_gasPrice a) (trow_gasPrice r);
  ts_maxFee : numeric_column (targ_maxFee a) (trow_maxFeePerGas r);
  ts_maxPriorityFee : numeric_column (targ_maxPriorityFee a) (trow_maxPriorityFeePerGas r);
  ts_input : trow_input r = targ_input a
}.

Record event_stored (blockHash : byte_slice) (a : event_args) (r : postgresEventRow) : Prop := {
  es_blockNumber : erow_blockNumber r = earg_blockNumber a;
  es_blockHash : erow_blockHash r = blockHash;
  es_transactionHash : erow_transactionHash r = earg_transactionHash a;
  es_transactionIndex : erow_transactionIndex r = earg_transactionIndex a;
  es_logIndex : erow_logIndex r = earg_logIndex a;
  es_address : erow_address r = earg_address a;
  es_topics : erow_topics r = earg_topics a;
  es_data : erow_data r = earg_data a
}.

(** ** Numerics *)

Lemma outside_uint256_false v : outside_uint256 v = false <-> 0 <= v < 2 ^ 256.
Proof. unfold outside_uint256. rewrite orb_false_iff, Z.ltb_ge, Z.leb_gt. lia. Qed.

Lemma represents_nonneg_exp n v :
  0 <= Numeric_Exp n ->
  default 0 (Numeric_Int n) * 10 ^ (Numeric_Exp n + 78) = v * 10 ^ 78 <->
  default 0 (Numeric_Int n) * 10 ^ Numeric_Exp n = v.
Proof.
  intros He. rewrite Z.pow_add_r, Z.mul_assoc by lia. split; [|by intros ->].
  apply Z.mul_reg_r. apply Z.pow_nonzero; lia.
Qed.

Lemma represents_neg_exp n v :
  -78 <= Numeric_Exp n < 0 ->
  default 0 (Numeric_Int n) * 10 ^ (Numeric_Exp n + 78) = v * 10 ^ 78 <->
  default 0 (Numeric_Int n) = v * 10 ^ (- Numeric_Exp n).
Proof.
  intros He. replace (10 ^ 78) with (10 ^ (- Numeric_Exp n) * 10 ^ (Numeric_Exp n + 78))
    by (rewrite <- Z.pow_add_r by lia; f_equal; lia).
  rewrite Z.mul_assoc. split; [|by intros ->]. apply Z.mul_reg_r. apply Z.pow_nonzero; lia.
Qed.

Lemma quot_exact x p v : 0 < p -> (Z.rem x p = 0 /\ Z.quot x p = v) <-> x = v * p.
Proof.
  intros Hp. split.
  - intros [Hr <-]. pose proof (Z.quot_rem' x p). lia.
  - intros ->. rewrite Z.rem_mul, Z.quot_mul; lia.
Qed.

Lemma decodePostgresNumeric_Ok n required o :
  decodePostgresNumeric n required = Ok o <->
  match o with
  | None => Numeric_Valid n = false /\ required = false
  | Some v => represents n v /\ 0 <= v < 2 ^ 256
  end.
Proof.
  unfold decodePostgresNumeric, represents. destruct (Numeric_Valid n); simpl negb; cbn iota.
  2: { destruct required, o; try (split; [done|intuition congruence]). }
  rewrite !bind_reject_iff, bind_Ok_iff, !orb_false_iff, negb_false_iff, !Z.ltb_ge.
  setoid_rewrite bind_reject_iff. setoid_rewrite outside_uint256_false.
  destruct o as [v|]; [|split; [naive_solver|by intros [? _]]].
  destruct (Z.ltb_spec 0 (Numeric_Exp n)) as [Hpos|Hnpos].
  - rewrite represents_nonneg_exp, Z.abs_eq by lia. naive_solver lia.
  - destruct (Z.ltb_spec (Numeric_Exp n) 0) as [Hneg|Hzero].
    + rewrite Z.abs_neq by lia. setoid_rewrite bind_reject_iff.
      setoid_rewrite negb_false_iff. setoid_rewrite Z.eqb_eq.
      assert (Hp : 0 < 10 ^ (- Numeric_Exp n)) by (apply Z.pow_pos_nonneg; lia).
      pose proof (quot_exact (default 0 (Numeric_Int n)) (10 ^ (- Numeric_Exp n)) v Hp) as Hq.
      split.
      * intros ([? ?] & [? ?] & w & [Hr [= <-]] & ? & [= <-]). split; [|done].
        split_and!; try done. apply represents_neg_exp; [lia|]. by apply Hq.
      * intros [(_ & ? & ? & ? & Hrep) ?]. apply represents_neg_exp in Hrep; [|lia].
        apply Hq in Hrep as [? ?]. split_and!; [done..|lia|lia|]. exists v. split_and!; [done|by f_equal|lia|lia|done].
    + rewrite represents_nonneg_exp by lia. replace (Numeric_Exp n) with 0 by lia.
      rewrite Z.mul_1_r. naive_solver lia.
Qed.

(** ** Round trips *)

Lemma decodeHash_bytes (h : Hash) : decodeHash (Some (array_bytes h)) = Ok h.
Proof. unfold decodeHash. simpl. by rewrite array_of_bytes_eq. Qed.

Lemma decodeAddress_bytes (a : Address) : decodeAddress (Some (array_bytes a)) = Ok a.
Proof. unfold decodeAddress. simpl. by rewrite array_of_bytes_eq. Qed.

Lemma decodeOptionalAddress_bytes o : decodeOptionalAddress (postgresAddress o) = Ok o.
Proof. destruct o as [a|]; [|done]. cbn [decodeOptionalAddress postgresAddress]. by rewrite decodeAddress_bytes. Qed.

Lemma decodeTopics_bytes (topics : list Hash) :
  (length topics <= 4)%nat -> decodeTopics ((fun t => Some (array_bytes t)) <$> topics) = Ok topics.
Proof.
  unfold Hash. intros Hlen. unfold decodeTopics. rewrite length_fmap, (proj2 (Z.ltb_ge _ _)) by lia.
  clear. induction topics as [|t topics IH]; [done|]. rewrite fmap_cons. cbn [decode_topics_loop].
  by rewrite decodeHash_bytes, IH.
Qed.

Lemma numeric_roundtrip o required n :
  validateUint256 o required = Ok tt -> numeric_column (postgresNumeric o) n ->
  decodePostgresNumeric n required = Ok o.
Proof.
  intros Hv Hn. apply decodePostgresNumeric_Ok. destruct o as [v|]; simpl in *.
  - apply reject_if_Ok, outside_uint256_false in Hv. split; [|done]. apply Hn. by split_and!.
  - apply reject_if_Ok in Hv. done.
Qed.

Lemma postgresInt64_small v : v <= max_int64 -> postgresInt64 v = Ok v.
Proof. intros. unfold postgresInt64. destruct (Z.ltb_spec max_int64 v); [lia|done]. Qed.
Lemma postgresInt32_small v : v <= max_int32 -> postgresInt32 v = Ok v.
Proof. intros. unfold postgresInt32. destruct (Z.ltb_spec max_int32 v); [lia|done]. Qed.
Lemma postgresCount_small v : 0 <= v <= max_int32 -> postgresCount v = Ok v.
Proof.
  intros. unfold postgresCount. destruct (Z.ltb_spec v 0), (Z.ltb_spec max_int32 v); simpl; [lia..|done].
Qed.
Lemma decodePostgresUint64_nonneg v : 0 <= v -> decodePostgresUint64 v = Ok v.
Proof. intros. unfold decodePostgresUint64. destruct (Z.ltb_spec v 0); [lia|done]. Qed.
Lemma decodePostgresUint32_nonneg v : is_u32 v -> decodePostgresUint32 v = Ok v.
Proof.
  intros Hv. unfold decodePostgresUint32. destruct (Z.ltb_spec v 0); [int_lia|]. by rewrite to_u32_small.
Qed.
Lemma decodePostgresUint8_byte v : 0 <= v < 256 -> decodePostgresUint8 v = Ok v.
Proof.
  intros. unfold decodePostgresUint8. destruct (Z.ltb_spec v 0), (Z.ltb_spec 255 v); simpl; [lia..|].
  by rewrite Z.mod_small.
Qed.

Lemma map_err_Ok_eq {A} f (a : A) : map_err f (Ok a) = Ok a.
Proof. done. Qed.
Lemma bind_Ok_eq {A B} (a : A) (f : A -> result B) : Ok a ≫= f = f a.
Proof. done. Qed.

(** [codec] evaluates an encoding or decoding whose fields are in range. *)
Create Rewrite HintDb codec.
Hint Rewrite decodeHash_bytes decodeAddress_bytes decodeOptionalAddress_bytes @map_err_Ok_eq @bind_Ok_eq : codec.
Ltac in_range := first [done | unfold is_u64, is_u32, two64 in *; lia].
Hint Rewrite postgresInt64_small postgresInt32_small postgresCount_small decodePostgresUint64_nonneg
  decodePostgresUint32_nonneg decodePostgresUint8_byte using in_range : codec.

Definition with_indexedAt (b : Block) (t : Time) : Block :=
  mkBlock (Block_Number b) (Block_Hash b) (Block_ParentHash b) (Block_Timestamp b) (Block_GasLimit b)
    (Block_GasUsed b) (Block_BaseFeePerGas b) (Block_TransactionCount b) t.

Lemma block_roundtrip db_time b :
  Block_typed b -> 0 <= Block_TransactionCount b -> validatePostgresBlock b = Ok tt ->
  exists a, queueBlock b = Ok a /\
    forall r, block_stored db_time a r ->
      postgresBlockRow_decode r = Ok (with_indexedAt b (db_time (Block_IndexedAt b))).
Proof.
  intros (Hn & Ht & Hgl & Hgu) Hc. unfold validatePostgresBlock.
  rewrite !bind_reject_iff, !orb_false_iff, !Z.ltb_ge. intros ((((? & ?) & ?) & ?) & ? & Hfee).
  unfold queueBlock. autorewrite with codec. eexists. split; [reflexivity|].
  intros [] []; simpl in *; subst. unfold postgresBlockRow_decode; simpl. autorewrite with codec.
  rewrite (numeric_roundtrip (Block_BaseFeePerGas b)) by done. simpl.
  destruct (Z.ltb_spec (Block_TransactionCount b) 0); [lia|done].
Qed.

Lemma transaction_roundtrip t :
  Transaction_typed t -> validatePostgresTransaction t = Ok tt ->
  exists a, queueTransaction t = Ok a /\
    forall r, transaction_stored (Some (array_bytes (Transaction_BlockHash t))) a r ->
      postgresTransactionRow_decode r = Ok (cloneTransaction t).
Proof.
  intros (Hn & Hi & Hty & Hno & Hg). unfold validatePostgresTransaction.
  rewrite !bind_reject_iff, !orb_false_iff, !Z.ltb_ge, !bind_Ok_iff.
  intros (((? & ?) & ?) & ? & [] & Hval & Hrest).
  apply bind_Ok_iff in Hrest as ([] & Hgp & Hrest). apply bind_Ok_iff in Hrest as ([] & Hmf & Hmp).
  unfold queueTransaction. autorewrite with codec. eexists. split; [reflexivity|].
  intros r Hs.
  pose proof (numeric_roundtrip _ _ _ Hval (ts_value _ _ _ Hs)) as Eval.
  pose proof (numeric_roundtrip _ _ _ Hgp (ts_gasPrice _ _ _ Hs)) as Egp.
  pose proof (numeric_roundtrip _ _ _ Hmf (ts_maxFee _ _ _ Hs)) as Emf.
  pose proof (numeric_roundtrip _ _ _ Hmp (ts_maxPriorityFee _ _ _ Hs)) as Emp.
  destruct r, Hs; simpl in *; subst. unfold postgresTransactionRow_decode; simpl. autorewrite with codec.
  rewrite Eval, !bind_Ok_eq, Egp, bind_Ok_eq, Emf, bind_Ok_eq, Emp, bind_Ok_eq.
  unfold cloneTransaction. by rewrite !cloneBigInt_id, cloneAddress_id.
Qed.

Lemma event_roundtrip e :
  Event_typed e -> Event_BlockNumber e <= max_int64 -> (length (Event_Topics e) <= 4)%nat ->
  validatePostgresEvent e = Ok tt ->
  exists a, queueEvent e = Ok a /\
    forall r, event_stored (Some (array_bytes (Event_BlockHash e))) a r ->
      postgresEventRow_decode r = Ok (cloneEvent e).
Proof.
  intros (Hn & Hti & Hli) Hmax Htop. unfold validatePostgresEvent.
  rewrite reject_if_Ok, orb_false_iff, !Z.ltb_ge. intros [? ?].
  unfold queueEvent. autorewrite with codec. eexists. split; [reflexivity|].
  intros [] []; simpl in *; subst. unfold postgresEventRow_decode; simpl. autorewrite with codec.
  by rewrite decodeTopics_bytes.
Qed.

Lemma check_each_Ok {A} (f : A -> result unit) l : check_each f l = Ok tt <-> forall x, x ∈ l -> f x = Ok tt.
Proof.
  induction l as [|a l IH]; simpl; [split; [by intros _ x Hx%elem_of_nil|done]|].
  rewrite bind_Ok_iff, forall_elem_cons, <- IH. split.
  - intros ([] & ? & ?). done.
  - intros [? ?]. by exists tt.
Qed.

Lemma check_each_errs {A} (P : error -> Prop) (f : A -> result unit) l :
  (forall x, errs_in P (f x)) -> errs_in P (check_each f l).
Proof. intros Hf. induction l; simpl; [done|]. apply errs_in_bind; auto. Qed.

Section Update.
Context `{GoRuntime}.

(** The blocks of an accepted update, read off the map the validation builds. *)
Lemma update_bundle_valid u b :
Update_typed u -> validateReplacement u = Ok tt ->
validateCanonicalBundles (insert_blocks ∅ (Update_Blocks u)) = Ok tt -> b ∈ Update_Blocks u -> bundle_valid b.
Proof.
intros Hty Hrep Hcan Hb. apply (validateReplacement_contiguous u Hty) in Hrep.
assert (Hl : forall n, insert_blocks ∅ (Update_Blocks u) !! n =
  if decide (Update_ReplaceFrom u <= n < Update_ReplaceFrom u + Z.of_nat (length (Update_Blocks u)))
  then Update_Blocks u !! Z.to_nat (n - Update_ReplaceFrom u) else None).
{ intros n. rewrite (insert_blocks_lookup_ge _ _ (Update_ReplaceFrom u)) by done. by case_decide. }
apply validateCanonicalBundles_canonical in Hcan.
- apply list_elem_of_lookup in Hb as [i Hi]. pose proof (lookup_lt_Some _ _ _ Hi).
  apply (can_valid _ Hcan (Update_ReplaceFrom u + Z.of_nat i)). rewrite Hl, decide_True by lia.
  by replace (Z.to_nat _) with i by lia.
- intros n [c Hc]. rewrite Hl in Hc. case_decide; [|done]. pose proof (Hrep _ _ Hc) as Hn.
  destruct Hty as (_ & _ & _ & Hbs). rewrite Forall_lookup in Hbs.
  destruct (Hbs _ _ Hc) as [[Hnum _] _]. by replace n with (bundle_number c) by lia.
Qed.

Lemma validatePostgresUpdate_Ok u :
Update_typed u -> validatePostgresUpdate u = Ok tt ->
forall b, b ∈ Update_Blocks u -> bundle_valid b /\ validatePostgresBlock (Bundle_Block b) = Ok tt /\
  (forall t, t ∈ Bundle_Transactions b -> validatePostgresTransaction t = Ok tt) /\
  (forall e, e ∈ Bundle_Events b -> validatePostgresEvent e = Ok tt).
Proof.
intros Hty. unfold validatePostgresUpdate. rewrite !bind_reject_iff. intros (_ & _ & _ & _ & Hrest) b Hb.
apply bind_Ok_iff in Hrest as ([] & Hrep & Hrest). apply bind_Ok_iff in Hrest as ([] & Hcan & Heach).
rewrite check_each_Ok in Heach. specialize (Heach b Hb). unfold validatePostgresBundle in Heach.
apply bind_Ok_iff in Heach as ([] & Hblk & Hrest). apply bind_Ok_iff in Hrest as ([] & Htx & Hev).
rewrite check_each_Ok in Htx. rewrite check_each_Ok in Hev. split_and!; try done. by eapply update_bundle_valid.
Qed.

(** C22: An update that passes [validatePostgresUpdate] is written without a panic
  and read back as it was.  For every block, transaction and event of the update
  the conversion to statement parameters succeeds (no value exceeds its column),
  and every row that holds those parameters decodes to the same record: up to the
  column precision of [IndexedAt], and with an empty input or data as nil, exactly
  as the in-memory store copies it. *)
Theorem postgres_roundtrip db_time u b :
Update_typed u -> validatePostgresUpdate u = Ok tt -> b ∈ Update_Blocks u ->
(exists a, queueBlock (Bundle_Block b) = Ok a /\
   forall r, block_stored db_time a r ->
     postgresBlockRow_decode r =
       Ok (with_indexedAt (Bundle_Block b) (db_time (Block_IndexedAt (Bundle_Block b))))) /\
(forall t, t ∈ Bundle_Transactions b -> exists a, queueTransaction t = Ok a /\
   forall r, transaction_stored (Some (array_bytes (bundle_hash b))) a r ->
     postgresTransactionRow_decode r = Ok (cloneTransaction t)) /\
(forall e, e ∈ Bundle_Events b -> exists a, queueEvent e = Ok a /\
   forall r, event_stored (Some (array_bytes (bundle_hash b))) a r ->
     postgresEventRow_decode r = Ok (cloneEvent e)).
Proof.
intros Hty Hv Hb. destruct (validatePostgresUpdate_Ok u Hty Hv b Hb) as (Hbv & Hblk & Htx & Hev).
destruct Hty as (_ & _ & _ & Hbs). rewrite list.Forall_forall in Hbs.
destruct (Hbs b Hb) as (Hbt & Htt & Het). rewrite list.Forall_forall in Htt. rewrite list.Forall_forall in Het.
split_and!.
- apply block_roundtrip; [done| |done]. rewrite (bv_count _ Hbv). lia.
- intros t Ht. pose proof Ht as [i Hi]%list_elem_of_lookup.
  destruct (bv_tx _ Hbv i t Hi) as (_ & <- & _). auto using transaction_roundtrip.
- intros e He. destruct (bv_event _ Hbv e He) as (Hn & <- & Htop & _).
  apply event_roundtrip; auto. rewrite Hn. unfold validatePostgresBlock in Hblk.
  rewrite bind_reject_iff, !orb_false_iff, !Z.ltb_ge in Hblk. tauto.
Qed.
End Update.

(** C35: [decodePostgresNumeric] is exact: it returns [v] if and only if the column is
    a finite number equal to [v], with an exponent the code supports, and [v] is a
    256-bit unsigned integer; it returns nil only for a NULL in an optional column; every
    other value is [ErrInconsistentData]. *)
Theorem decode_numeric_exact n required :
  (forall v, decodePostgresNumeric n required = Ok (Some v) <-> represents n v /\ 0 <= v < 2 ^ 256) /\
  (decodePostgresNumeric n required = Ok None <-> Numeric_Valid n = false /\ required = false) /\
  errs_in (fun e => errors_Is e (StoreSentinel StoreErrInconsistentData) = true)
    (decodePostgresNumeric n required).
Proof.
  split_and!; [intros v; apply decodePostgresNumeric_Ok|apply decodePostgresNumeric_Ok|].
  unfold decodePostgresNumeric. destruct (negb (Numeric_Valid n)); [by destruct required|].
  do 2 (apply errs_in_bind; [by apply errs_in_reject_if|intros _ _]).
  apply errs_in_bind; [|intros v _; apply errs_in_bind; [by apply errs_in_reject_if|done]].
  destruct (0 <? Numeric_Exp n); [done|]. destruct (Numeric_Exp n <? 0); [|done].
  apply errs_in_bind; [by apply errs_in_reject_if|done].
Qed.

(** ** Evaluation *)

Definition codec_update : CanonicalUpdate := chain_update 10 10 [block10].

Lemma codec_update_typed : Update_typed codec_update.
Proof. apply chain_update_typed; [done|done|fixtures_typed]. Qed.

Lemma postgres_roundtrip_witness :
  exists a, queueBlock (Bundle_Block block10) = Ok a.
Proof.
  destruct (postgres_roundtrip (H := reference_runtime) (fun t => t) codec_update block10 codec_update_typed)
    as ((a & Ha & _) & _ & _).
  - vm_compute. reflexivity.
  - apply list_elem_of_singleton. reflexivity.
  - by exists a.
Defined.

(** One ether, stored as [1 * 10^18]. *)
Example numeric_ether :
  decodePostgresNumeric (mkNumeric (Some 1) 18 false true true) true = Ok (Some (10 ^ 18)).
Proof. vm_compute. reflexivity. Qed.
