(* ===== verification/Postgres.v ===== *)
(** * The PostgreSQL store: [internal/store/postgres_*.go] on the tables of
    [migrations/000001_initial.up.sql]

    The database is the four tables with their constraints; each SQL statement of the
    code is a function on them, and each store method the same sequence of calls as in
    the code.  Any call may fail (the connection, the context), other sessions may
    commit between two calls, and a commit that reports an error may or may not have
    been applied.  A transaction that took the advisory lock runs without commits of
    other indexers; a repeatable-read transaction reads one snapshot.  The connection
    pool and the wire format belong to the driver. *)
From S2P Require Import Prelude Errors Domain Validate Store Memory Codec.
From stdpp Require Import prelude gmap sorting list strings.
From Stdlib Require Import ZArith Lia.

Local Open Scope Z_scope.

(** ** Tables *)

Record sync_row := mkSyncRow {
  sync_chain_id : Z;
  sync_number : option Z;
  sync_hash : byte_slice;
  sync_at : Time
}.

(** A row is the parameters it was inserted with. *)
Record Tables := mkTables {
  blocks : list block_args;
  transactions : list transaction_args;
  event_logs : list event_args;
  sync_state : list sync_row
}.

Definition empty_tables : Tables := mkTables [] [] [] [].

(** What the queries observe of the engine: a numeric comes back in some representation of
    the same number, a time stamp in the column's precision, and [ORDER BY] leaves the
    order of equal rows open. *)
Class PostgresEngine := {
  db_numeric : option Numeric -> Numeric;
  db_numeric_column a : numeric_column a (db_numeric a);
  db_time : Time -> Time;
  order_by {A} : (A -> A -> bool) -> list A -> list A;
  order_by_perm {A} (less : A -> A -> bool) l : order_by less l ≡ₚ l;
  order_by_sorted {A} (less : A -> A -> bool) l :
    StrictWeak less -> StronglySorted (fun x y => less y x = false) (order_by less l)
}.

(** ** Constraints *)

(** [octet_length(column) = n]; NULL passes a CHECK, [NOT NULL] is separate. *)
Definition octets (n : nat) (column : byte_slice) : bool :=
  match column with None => true | Some l => (length l =? n)%nat end.
Definition not_null {A} (column : option A) : bool := bool_decide (is_Some column).

(** A [numeric(78, 0)] column with [CHECK (column >= 0)]; the code only sends integers
    (exponent 0), so no rounding to the scale takes place. *)
Definition numeric_78 (column : option Numeric) : bool :=
  match column with
  | None => true
  | Some n =>
      let v := default 0 (Numeric_Int n) * 10 ^ Numeric_Exp n in
      negb (Numeric_NaN n) && Numeric_Finite n && (0 <=? v) && (v <? 10 ^ 78)
  end.

Definition block_constraints (db : Tables) (a : block_args) : bool :=
  (0 <=? barg_number a) && not_null (barg_hash a) && octets 32 (barg_hash a) &&
  not_null (barg_parentHash a) && octets 32 (barg_parentHash a) && (0 <=? barg_timestamp a) &&
  (0 <=? barg_gasLimit a) && (0 <=? barg_gasUsed a) && numeric_78 (barg_baseFee a) && (0 <=? barg_count a) &&
  bool_decide (barg_number a ∉ barg_number <$> blocks db) &&
  bool_decide (barg_hash a ∉ barg_hash <$> blocks db).

Definition tx_position (a : transaction_args) : Z * Z := (targ_blockNumber a, targ_index a).

Definition transaction_constraints (db : Tables) (a : transaction_args) : bool :=
  not_null (targ_hash a) && octets 32 (targ_hash a) && (0 <=? targ_index a) &&
  (0 <=? targ_type a) && (targ_type a <=? 255) && (0 <=? targ_nonce a) &&
  not_null (targ_sender a) && octets 20 (targ_sender a) && octets 20 (targ_recipient a) &&
  not_null (targ_value a) && numeric_78 (targ_value a) && (0 <=? targ_gasLimit a) &&
  numeric_78 (targ_gasPrice a) && numeric_78 (targ_maxFee a) && numeric_78 (targ_maxPriorityFee a) &&
  not_null (targ_input a) &&
  bool_decide (targ_hash a ∉ targ_hash <$> transactions db) &&
  bool_decide (targ_blockNumber a ∈ barg_number <$> blocks db) &&
  bool_decide (tx_position a ∉ tx_position <$> transactions db).

Definition event_position (a : event_args) : Z * Z := (earg_blockNumber a, earg_logIndex a).

Definition event_constraints (db : Tables) (a : event_args) : bool :=
  not_null (earg_transactionHash a) && (0 <=? earg_transactionIndex a) && (0 <=? earg_logIndex a) &&
  not_null (earg_address a) && octets 20 (earg_address a) && (length (earg_topics a) <=? 4)%nat &&
  not_null (earg_data a) &&
  bool_decide (earg_blockNumber a ∈ barg_number <$> blocks db) &&
  bool_decide (earg_transactionHash a ∈ targ_hash <$> transactions db) &&
  bool_decide (event_position a ∉ event_position <$> event_logs db).

Definition sync_constraints (r : sync_row) : bool :=
  (0 <? sync_chain_id r) && (match sync_number r with None => true | Some n => 0 <=? n end) &&
  octets 32 (sync_hash r) && Bool.eqb (not_null (sync_number r)) (not_null (sync_hash r)).

(** ** Statements that write *)

(** The SQLSTATE error of a violated constraint. *)
Definition constraint_violation : error := Errorf "constraint violation" [].

Inductive statement :=
| InsertBlock (a : block_args)
| InsertTransaction (a : transaction_args)
| InsertEvent (a : event_args).

(** [insertBlockQuery], [insertTransactionQuery] and [insertEventQuery] *)
Definition exec_insert (s : statement) (db : Tables) : result Tables :=
  match s with
  | InsertBlock a =>
      if block_constraints db a
      then Ok (mkTables (blocks db ++ [a]) (transactions db) (event_logs db) (sync_state db))
      else Err constraint_violation
  | InsertTransaction a =>
      if transaction_constraints db a
      then Ok (mkTables (blocks db) (transactions db ++ [a]) (event_logs db) (sync_state db))
      else Err constraint_violation
  | InsertEvent a =>
      if event_constraints db a
      then Ok (mkTables (blocks db) (transactions db) (event_logs db ++ [a]) (sync_state db))
      else Err constraint_violation
  end.

(** The statements of a batch run in order up to the first error. *)
Fixpoint exec_batch (batch : list statement) (db : Tables) : result Tables :=
  match batch with
  | [] => Ok db
  | s :: rest => db' ← exec_insert s db; exec_batch rest db'
  end.

(** [deleteCanonicalRangeQuery], with [ON DELETE CASCADE] to transactions by block and to
    events by block and by transaction. *)
Definition deleteCanonicalRangeQuery (replaceFrom retainFrom : Z) (db : Tables) : Tables :=
  let gone n := (replaceFrom <=? n) || (n <? retainFrom) in
  let deleted := barg_number <$> filter (fun a => gone (barg_number a) = true) (blocks db) in
  let deleted_txs := targ_hash <$> filter (fun a => targ_blockNumber a ∈ deleted) (transactions db) in
  mkTables
    (filter (fun a => gone (barg_number a) = false) (blocks db))
    (filter (fun a => targ_blockNumber a ∉ deleted) (transactions db))
    (filter (fun a => (earg_blockNumber a ∉ deleted) /\ (earg_transactionHash a ∉ deleted_txs)) (event_logs db))
    (sync_state db).

(** [upsertSyncStateQuery] *)
Definition upsertSyncStateQuery (r : sync_row) (db : Tables) : result Tables :=
  if sync_constraints r then
    Ok (mkTables (blocks db) (transactions db) (event_logs db)
          (if bool_decide (sync_chain_id r ∈ sync_chain_id <$> sync_state db)
           then (fun old => if sync_chain_id old =? sync_chain_id r then r else old) <$> sync_state db
           else sync_state db ++ [r]))
  else Err constraint_violation.

(** ** Statements that read *)
Section Reads.
Context `{PostgresEngine}.

Definition canonicalTipQuery (db : Tables) : option (Z * byte_slice) :=
  (fun a => (barg_number a, barg_hash a)) <$>
    head (order_by (fun x y => barg_number y <? barg_number x) (blocks db)).

Definition canonicalHashQuery (number : Z) (db : Tables) : option byte_slice :=
  barg_hash <$> head (filter (fun a => barg_number a = number) (blocks db)).

(** [SELECT chain_id FROM sync_state WHERE chain_id <> $1 LIMIT 1] *)
Definition differentChainQuery (chainID : Z) (db : Tables) : option Z :=
  head (filter (fun id => id <> chainID) (sync_chain_id <$> sync_state db)).

Definition read_block (a : block_args) : postgresBlockRow :=
  mkBlockRow (barg_number a) (barg_hash a) (barg_parentHash a) (barg_timestamp a) (barg_gasLimit a)
    (barg_gasUsed a) (db_numeric (barg_baseFee a)) (barg_count a) (db_time (barg_indexedAt a)).

Definition read_transaction (blockHash : byte_slice) (a : transaction_args) : postgresTransactionRow :=
  mkTransactionRow (targ_hash a) (targ_blockNumber a) blockHash (targ_index a) (targ_type a) (targ_nonce a)
    (targ_sender a) (targ_recipient a) (db_numeric (targ_value a)) (targ_gasLimit a)
    (db_numeric (targ_gasPrice a)) (db_numeric (targ_maxFee a)) (db_numeric (targ_maxPriorityFee a))
    (targ_input a).

Definition read_event (blockHash : byte_slice) (a : event_args) : postgresEventRow :=
  mkEventRow (earg_blockNumber a) blockHash (earg_transactionHash a) (earg_transactionIndex a)
    (earg_logIndex a) (earg_address a) (earg_topics a) (earg_data a).

(** The transactions of a block in the order of their index. *)
Definition transactions_of (number : Z) (db : Tables) : list transaction_args :=
  order_by (fun x y => targ_index x <? targ_index y)
    (filter (fun a => targ_blockNumber a = number) (transactions db)).

Definition blockByNumberQuery (number : Z) (db : Tables) : option (postgresBlockRow * list byte_slice) :=
  (fun b => (read_block b, targ_hash <$> transactions_of (barg_number b) db)) <$>
    head (filter (fun a => barg_number a = number) (blocks db)).

(** [transactions JOIN blocks ON b.number = tx_row.block_number WHERE tx_row.hash = $1] *)
Definition transactionByHashQuery (hash : byte_slice) (db : Tables) : option postgresTransactionRow :=
  head (a ← filter (fun a => targ_hash a = hash) (transactions db);
        b ← filter (fun b => barg_number b = targ_blockNumber a) (blocks db);
        [read_transaction (barg_hash b) a]).

(** [event_logs JOIN blocks ON b.number = e.block_number] *)
Definition joined_events (db : Tables) (l : list event_args) : list postgresEventRow :=
  a ← l;
  b ← filter (fun b => barg_number b = earg_blockNumber a) (blocks db);
  [read_event (barg_hash b) a].

Definition eventsForTransactionQuery (hash : byte_slice) (db : Tables) : list postgresEventRow :=
  order_by (fun x y => erow_logIndex x <? erow_logIndex y)
    (joined_events db (filter (fun a => earg_transactionHash a = hash) (event_logs db))).

(** [ORDER BY e.block_number DESC, e.log_index DESC] *)
Definition row_newest_first (x y : postgresEventRow) : bool :=
  if negb (erow_blockNumber x =? erow_blockNumber y)
  then erow_blockNumber y <? erow_blockNumber x
  else erow_logIndex y <? erow_logIndex x.

Definition eventsByAddressQuery (address : byte_slice) (limit : Z) (db : Tables) : list postgresEventRow :=
  take (Z.to_nat limit)
    (order_by row_newest_first
       (joined_events db (filter (fun a => earg_address a = address) (event_logs db)))).

Definition eventsByAddressBeforeQuery (address : byte_slice) (number logIndex limit : Z) (db : Tables)
    : list postgresEventRow :=
  take (Z.to_nat limit)
    (order_by row_newest_first
       (joined_events db
          (filter (fun a => earg_address a = address /\
                     (earg_blockNumber a < number \/ earg_blockNumber a = number /\ earg_logIndex a < logIndex))
             (event_logs db)))).

Definition cursorExistsQuery (number : Z) (hash : byte_slice) (db : Tables) : bool :=
  bool_decide (Exists (fun a => barg_number a = number /\ barg_hash a = hash) (blocks db)).
End Reads.

(** ** Sessions *)

Record PgEnv := mkPgEnv {
  (** What other sessions commit before the n-th call of this one. *)
  env_others : nat -> Tables -> Tables;
  (** The error of the n-th call, if it fails. *)
  env_fault : nat -> option error;
  (** The context when the n-th call is made. *)
  env_ctx : nat -> ctx_state;
  (** Whether the server applied a commit whose answer was lost. *)
  env_commit_kept : nat -> bool
}.

Record PgWorld := mkPg { pg_env : PgEnv; pg_db : Tables; pg_calls : nat }.

Definition pg_set (db : Tables) (w : PgWorld) : PgWorld := mkPg (pg_env w) db (S (pg_calls w)).
Definition pg_tick (w : PgWorld) : PgWorld := pg_set (pg_db w) w.
(** The committed state when the next call is made. *)
Definition pg_now (w : PgWorld) : Tables := env_others (pg_env w) (pg_calls w) (pg_db w).
Definition pg_fault (w : PgWorld) : option error := env_fault (pg_env w) (pg_calls w).

Definition answer {A} (fault : option error) (r : result A) : result A :=
  match fault with Some e => Err e | None => r end.

(** A call outside a transaction that wrote: other sessions may have committed. *)
Definition call : action PgWorld unit := fun w => (answer (pg_fault w) (Ok tt), pg_set (pg_now w) w).

(** [Querier.Query] and [QueryRow]: what a statement sees. *)
Definition Querier : Type := forall A, (Tables -> A) -> action PgWorld A.
Definition pool_query : Querier := fun A f w =>
  (answer (pg_fault w) (Ok (f (pg_now w))), pg_set (pg_now w) w).
Definition snapshot_query (snapshot : Tables) : Querier := fun A f w =>
  (answer (pg_fault w) (Ok (f snapshot)), pg_set (pg_now w) w).
(** In the transaction that holds the advisory lock: its own working copy. *)
Definition tx_query : Querier := fun A f w => (answer (pg_fault w) (Ok (f (pg_db w))), pg_tick w).

(** [Row.Scan] of a query without a row. *)
Definition query_row {A} (q : Querier) (f : Tables -> option A) : action PgWorld A :=
  (row <-- q _ f;;
   act_lift (match row with Some a => Ok a | None => Err (foreign_err PgxErrNoRows) end))%action.

(** [tx.Exec] *)
Definition tx_exec (f : Tables -> result Tables) : action PgWorld unit := fun w =>
  match pg_fault w with
  | Some e => (Err e, pg_tick w)
  | None =>
      match f (pg_db w) with
      | Ok db => (Ok tt, pg_set db w)
      | Err e => (Err e, pg_tick w)
      | Panic msg => (Panic msg, pg_tick w)
      | OutOfFuel => (OutOfFuel, pg_tick w)
      end
  end.

(** From the lock to [tx.Commit], with the deferred [tx.Rollback] on every other exit. *)
Definition transaction {A} (commit : error -> error) (body : action PgWorld A) : action PgWorld A := fun w =>
  match body w with
  | (Ok a, w') =>
      match pg_fault w' with
      | None => (Ok a, pg_tick w')
      | Some e =>
          (Err (commit e), pg_set (if env_commit_kept (pg_env w') (pg_calls w') then pg_db w' else pg_db w) w')
      end
  | (r, w') => (r, mkPg (pg_env w') (pg_db w) (pg_calls w'))
  end.

(** [BeginTx] with [RepeatableRead] and [ReadOnly]: the first statement takes the snapshot. *)
Definition read_transaction_of {A} (begin commit : error -> error) (body : Querier -> action PgWorld A)
    : action PgWorld A :=
  (do! act_map_err begin call;;
   fun w => (a <-- body (snapshot_query (pg_now w));; do! act_map_err commit call;; act_ret a)%action w)%action.

(** [if errors.Is(err, pgx.ErrNoRows) { ... } else if err != nil { wrap }] *)
Definition on_error {A} (m : action PgWorld A) (handle : error -> result A) : action PgWorld A :=
  fun w => match m w with (Err e, w') => (handle e, w') | out => out end.
Definition no_rows (e : error) : bool := errors_Is e (ForeignSentinel PgxErrNoRows).

(** ** [IndexStore] methods *)
Section Methods.
Context `{GoRuntime} `{PostgresEngine}.
Local Open Scope action_scope.

Definition some_row {A} (m : action PgWorld A) : action PgWorld (option A) :=
  a <-- m;; act_ret (Some a).

(** The shared part of [CanonicalTip] and [canonicalTipInTransaction]. *)
Definition read_tip (q : Querier) (query_failed decode_failed : error -> error)
    : action PgWorld (option ChainTip) :=
  row <-- on_error (some_row (query_row q canonicalTipQuery))
            (fun e => if no_rows e then Ok None else Err (query_failed e));;
  match row with
  | None => act_ret None
  | Some (number, hash) =>
      act_lift (decodedHash ← map_err decode_failed (decodeHash hash);
                decodedNumber ← map_err decode_failed (decodePostgresUint64 number);
                Ok (Some (mkTip decodedNumber decodedHash)))
  end.

Definition Postgres_CanonicalTip : action PgWorld (option ChainTip) :=
  read_tip pool_query (wrapf "query canonical tip: %w") (wrapf "decode canonical tip: %w").

Definition canonicalTipInTransaction : action PgWorld (option ChainTip) :=
  read_tip tx_query (wrapf "read updated canonical tip: %w") (wrapf "decode updated canonical tip: %w").

Definition Postgres_CanonicalHash (number : Z) : action PgWorld Hash :=
  if max_int64 <? number then act_err (store_err StoreErrNotFound)
  else
    n <-- act_lift (postgresInt64 number);;
    hash <-- on_error (query_row pool_query (canonicalHashQuery n))
               (fun e => if no_rows e then Err (store_err StoreErrNotFound)
                         else Err (wrapf "query canonical hash for block %d: %w" e));;
    act_lift (map_err (wrapf "decode canonical hash for block %d: %w") (decodeHash hash)).

Definition rejectDifferentChain (chainID : Z) : action PgWorld unit :=
  id <-- act_lift (postgresInt64 chainID);;
  existing <-- on_error (some_row (query_row tx_query (differentChainQuery id)))
                 (fun e => if no_rows e then Ok None else Err (wrapf "read stored chain ID: %w" e));;
  act_lift (match existing with
            | None => Ok tt
            | Some _ => Err (invalid_update "%w: store chain ID is %d, update chain ID is %d")
            end).

Definition validateRetainedParent (update : CanonicalUpdate) : action PgWorld unit :=
  match Update_Blocks update with
  | [] => act_ret tt
  | first :: _ =>
      if Update_ReplaceFrom update =? Update_RetainFrom update then act_ret tt
      else
        let previousNumber := u64_sub (Update_ReplaceFrom update) 1 in
        n <-- act_lift (postgresInt64 previousNumber);;
        previousHash <-- on_error (query_row tx_query (canonicalHashQuery n))
          (fun e => if no_rows e then Err (invalid_update "%w: retained parent block %d is missing")
                    else Err (wrapf "read retained parent block %d: %w" e));;
        decodedHash <-- act_lift (map_err (wrapf "decode retained parent block %d: %w") (decodeHash previousHash));;
        act_lift (reject_if (negb (bool_decide (bundle_parent first = decodedHash)))
                    (invalid_update "%w: replacement block %d does not extend retained block %d"))
  end.

Definition canonicalBatchQueryLimit : nat := 1000.

Definition sendCanonicalBatch (batch : list statement) : action PgWorld unit :=
  match batch with
  | [] => act_ret tt
  | _ => act_map_err (wrapf "insert canonical bundles: %w") (tx_exec (exec_batch batch))
  end.

(** [batch.Queue(...)] and the flush of a full batch. *)
Definition enqueue (batch : list statement) (s : statement) : action PgWorld (list statement) :=
  let batch' := batch ++ [s] in
  if (canonicalBatchQueryLimit <=? length batch')%nat
  then do! sendCanonicalBatch batch';; act_ret []
  else act_ret batch'.

Fixpoint enqueue_all {A} (prepare : A -> result statement) (l : list A) (batch : list statement)
    : action PgWorld (list statement) :=
  match l with
  | [] => act_ret batch
  | x :: rest =>
      s <-- act_lift (prepare x);;
      batch' <-- enqueue batch s;;
      enqueue_all prepare rest batch'
  end.

Definition block_statement (b : Block) : result statement := a ← queueBlock b; Ok (InsertBlock a).
Definition transaction_statement (t : Transaction) : result statement :=
  a ← queueTransaction t; Ok (InsertTransaction a).
Definition event_statement (e : Event) : result statement := a ← queueEvent e; Ok (InsertEvent a).

Fixpoint insert_bundles (bundles : list BlockBundle) (batch : list statement) : action PgWorld (list statement) :=
  match bundles with
  | [] => act_ret batch
  | bundle :: rest =>
      batch1 <-- enqueue_all block_statement [Bundle_Block bundle] batch;;
      batch2 <-- enqueue_all transaction_statement (Bundle_Transactions bundle) batch1;;
      batch3 <-- enqueue_all event_statement (Bundle_Events bundle) batch2;;
      insert_bundles rest batch3
  end.

Definition insertCanonicalBundles (bundles : list BlockBundle) : action PgWorld unit :=
  match bundles with
  | [] => act_ret tt
  | _ => batch <-- insert_bundles bundles [];; sendCanonicalBatch batch
  end.

Definition writeSyncState (update : CanonicalUpdate) (tip : option ChainTip) : action PgWorld unit :=
  numbers <-- act_lift (match tip with
                        | None => Ok None
                        | Some t => number ← postgresInt64 (Tip_Number t); Ok (Some number)
                        end);;
  id <-- act_lift (postgresInt64 (Update_ChainID update));;
  act_map_err (wrapf "write canonical sync state: %w")
    (tx_exec (upsertSyncStateQuery
       (mkSyncRow id numbers ((fun t => array_bytes (Tip_Hash t)) <$> tip) (Update_SyncedAt update)))).

(** The statements of the transaction after the lock. *)
Definition update_statements (update : CanonicalUpdate) : action PgWorld unit :=
  do! rejectDifferentChain (Update_ChainID update);;
  replaceFrom <-- act_lift (postgresInt64 (Update_ReplaceFrom update));;
  retainFrom <-- act_lift (postgresInt64 (Update_RetainFrom update));;
  do! act_map_err (wrapf "delete replaced canonical range: %w")
        (tx_exec (fun db => Ok (deleteCanonicalRangeQuery replaceFrom retainFrom db)));;
  do! validateRetainedParent update;;
  do! insertCanonicalBundles (Update_Blocks update);;
  tip <-- canonicalTipInTransaction;;
  writeSyncState update tip.

Definition Postgres_ApplyCanonicalUpdate (update : CanonicalUpdate) : action PgWorld unit :=
  do! act_lift (validatePostgresUpdate update);;
  do! act_map_err (wrapf "begin canonical update: %w") call;;
  do! act_map_err (wrapf "acquire canonical writer lock: %w") call;;
  transaction (wrapf "commit canonical update: %w") (update_statements update).

(** ** [QueryStore] and [HealthStore] methods *)

Definition decode_hashes (values : list byte_slice) : result (list Hash) :=
  foldr (fun value rest => hash ← map_err (wrapf "decode block %d transaction %d hash: %w") (decodeHash value);
                           hashes ← rest; Ok (hash :: hashes)) (Ok []) values.

Definition Postgres_BlockByNumber (number : Z) : action PgWorld BlockResult :=
  if max_int64 <? number then act_err (store_err StoreErrNotFound)
  else
    n <-- act_lift (postgresInt64 number);;
    row <-- on_error (query_row pool_query (blockByNumberQuery n))
              (fun e => if no_rows e then Err (store_err StoreErrNotFound) else Err (wrapf "query block %d: %w" e));;
    act_lift (block ← map_err (wrapf "decode block %d: %w") (postgresBlockRow_decode row.1);
              hashes ← decode_hashes row.2;
              _ ← reject_if (negb (Z.of_nat (length hashes) =? Block_TransactionCount block))
                    (inconsistent_data "%w: block %d contains %d transaction hashes, expected %d");
              Ok (mkBlockResult block hashes)).

Fixpoint decode_events (rows : list postgresEventRow) : result (list Event) :=
  match rows with
  | [] => Ok []
  | row :: rest => event ← postgresEventRow_decode row; events ← decode_events rest; Ok (event :: events)
  end.

(** The rows are decoded one by one; [rows.Err()] reports a connection that broke. *)
Definition scanPostgresEvents (rows : list postgresEventRow) : action PgWorld (list Event) :=
  events <-- act_lift (decode_events rows);;
  do! call;;
  act_ret events.

Definition queryEventsForTransaction (q : Querier) (hash : Hash) : action PgWorld (list Event) :=
  rows <-- act_map_err (wrapf "query events for transaction %s: %w")
             (q _ (eventsForTransactionQuery (Some (array_bytes hash))));;
  act_map_err (wrapf "scan events for transaction %s: %w") (scanPostgresEvents rows).

Definition Postgres_TransactionByHash (hash : Hash) : action PgWorld TransactionResult :=
  read_transaction_of (wrapf "begin transaction lookup: %w") (wrapf "commit transaction lookup: %w") (fun tx =>
    row <-- on_error (query_row tx (transactionByHashQuery (Some (array_bytes hash))))
              (fun e => if no_rows e then Err (store_err StoreErrNotFound)
                        else Err (wrapf "query transaction %s: %w" e));;
    t <-- act_lift (map_err (wrapf "decode transaction %s: %w") (postgresTransactionRow_decode row));;
    events <-- queryEventsForTransaction tx hash;;
    act_ret (mkTransactionResult t events)).

Definition queryAddressEventPage (q : Querier) (query : EventQuery) : action PgWorld EventPage :=
  if Query_Limit query =? 0 then act_ret (mkPage [] None)
  else
    queryLimit <-- act_lift (postgresInt64 (Query_Limit query + 1));;
    let address := Some (array_bytes (Query_Address query)) in
    rows <-- match Query_Before query with
             | None => act_map_err (wrapf "query events for address %s: %w") (q _ (eventsByAddressQuery address queryLimit))
             | Some before =>
                 number <-- act_lift (postgresInt64 (Cursor_BlockNumber before));;
                 logIndex <-- act_lift (postgresInt64 (Cursor_LogIndex before));;
                 act_map_err (wrapf "query events for address %s: %w")
                   (q _ (eventsByAddressBeforeQuery address number logIndex queryLimit))
             end;;
    events <-- act_map_err (wrapf "scan events for address %s: %w") (scanPostgresEvents rows);;
    act_lift (if Z.of_nat (length events) <=? Query_Limit query then Ok (mkPage events None)
              else
                let pageEvents := take (length events - 1) events in
                match pageEvents !! (length pageEvents - 1)%nat with
                | None => Panic "index out of range"
                | Some lastEvent => Ok (mkPage pageEvents (Some (cursor_at lastEvent)))
                end).

Definition canonicalCursorExists (q : Querier) (cursor : EventCursor) : action PgWorld bool :=
  if max_int64 <? Cursor_BlockNumber cursor then act_ret false
  else
    number <-- act_lift (postgresInt64 (Cursor_BlockNumber cursor));;
    act_map_err (wrapf "validate event cursor: %w")
      (q _ (cursorExistsQuery number (Some (array_bytes (Cursor_BlockHash cursor))))).

Definition pg_check_ctx : action PgWorld unit := fun w => (check_ctx (env_ctx (pg_env w) (pg_calls w)), w).

Definition Postgres_EventsByAddress (query : EventQuery) : action PgWorld EventPage :=
  do! pg_check_ctx;;
  do! act_lift (reject_if (MaxEventPageSize <? Query_Limit query)
                  (wrapf "%w: event page limit %d exceeds maximum %d" (store_err StoreErrInvalidQuery)));;
  match Query_Before query with
  | None => queryAddressEventPage pool_query query
  | Some before =>
      read_transaction_of (wrapf "begin event cursor lookup: %w") (wrapf "commit event cursor lookup: %w") (fun tx =>
        valid <-- canonicalCursorExists tx before;;
        do! act_lift (reject_if (negb valid) (store_err StoreErrStaleCursor));;
        queryAddressEventPage tx query)
  end.

Definition Postgres_Ping : action PgWorld unit := call.
End Methods.
