(* ===== verification/PostgresTx.v ===== *)
(** * Sessions of the PostgreSQL store as functions on the tables

    Unless a call fails, the statements of a transaction compute a function on the
    tables; batching does not change it.  [refines] states this for every action, and
    [update_refines] for the whole of [ApplyCanonicalUpdate]. *)
From S2P Require Import Prelude Errors Domain Validate Store Memory Codec Postgres.
From stdpp Require Import prelude gmap sorting list strings.
From Stdlib Require Import ZArith Lia.

Local Open Scope Z_scope.

(** An error of the driver or of the context carries none of the sentinels the code
    looks for. *)
Definition driver_error (e : error) : Prop :=
  (forall s, errors_Is e (StoreSentinel s) = false) /\ (forall s, errors_Is e (ServiceSentinel s) = false) /\
  errors_Is e (ForeignSentinel PgxErrNoRows) = false.

Definition env_ok (env : PgEnv) : Prop := forall n e, env_fault env n = Some e -> driver_error e.

(** The error of a failed call, possibly wrapped. *)
Definition from_fault (env : PgEnv) (e : error) : Prop :=
  exists n e0, env_fault env n = Some e0 /\ forall s, errors_Is e s = errors_Is e0 s.

(** The action computes [f] on the working copy, or a call failed. *)
Definition refines {A} (m : action PgWorld A) (f : Tables -> result (A * Tables)) : Prop :=
  forall w, env_ok (pg_env w) ->
    let '(r, w') := m w in
    pg_env w' = pg_env w /\
    ((exists e, r = Err e /\ from_fault (pg_env w) e) \/
     match f (pg_db w) with
     | Ok (a, db) => r = Ok a /\ pg_db w' = db
     | Err e => r = Err e
     | Panic msg => r = Panic msg
     | OutOfFuel => r = OutOfFuel
     end).

(** A result that does not change the tables. *)
Definition keep {A} (r : result A) (db : Tables) : result (A * Tables) := a ← r; Ok (a, db).

Section Rules.

Lemma from_fault_wrapf env s e : from_fault env e -> from_fault env (wrapf s e).
Proof. intros (n & e0 & Hn & He). exists n, e0. split; [done|]. intros t. by rewrite errors_Is_wrapf. Qed.

Lemma refines_lift {A} (r : result A) : refines (act_lift r) (keep r).
Proof. intros w _. simpl. split; [done|]. right. unfold keep. by destruct r. Qed.

Lemma refines_ret {A} (a : A) : refines (act_ret a) (fun db => Ok (a, db)).
Proof. intros w _. simpl. split; [done|]. by right. Qed.

Lemma refines_bind {A B} (m : action PgWorld A) (k : A -> action PgWorld B) f g :
  refines m f -> (forall a, refines (k a) (g a)) ->
  refines (act_bind m k) (fun db => '(a, db') ← f db; g a db').
Proof.
  intros Hm Hk w Hw. specialize (Hm w Hw). unfold act_bind. destruct (m w) as [r w1].
  destruct Hm as [He Hm]. destruct r as [a|e|msg|].
  - assert (Hf : f (pg_db w) = Ok (a, pg_db w1)).
    { destruct Hm as [(? & ? & _)|Hm]; [done|]. destruct (f (pg_db w)) as [[a' db]| | |]; try done.
      by destruct Hm as [[= ->] ->]. }
    rewrite Hf. simpl. specialize (Hk a w1). rewrite He in Hk. by apply Hk.
  - split; [done|]. destruct Hm as [(? & [= <-] & ?)|Hm]; [left; by eauto|]. right.
    destruct (f (pg_db w)) as [[]| | |]; simpl; naive_solver.
  - split; [done|]. destruct Hm as [(? & ? & _)|Hm]; [done|]. right.
    destruct (f (pg_db w)) as [[]| | |]; simpl; naive_solver.
  - split; [done|]. destruct Hm as [(? & ? & _)|Hm]; [done|]. right.
    destruct (f (pg_db w)) as [[]| | |]; simpl; naive_solver.
Qed.

Lemma refines_ext {A} (m : action PgWorld A) f g :
  (forall db, f db = g db) -> refines m f -> refines m g.
Proof. intros Hfg Hm w Hw. specialize (Hm w Hw). by rewrite <- Hfg. Qed.

Lemma refines_map_err {A} (m : action PgWorld A) s f :
  refines m f -> refines (act_map_err (wrapf s) m) (fun db => map_err (wrapf s) (f db)).
Proof.
  intros Hm w Hw. specialize (Hm w Hw). unfold act_map_err. destruct (m w) as [r w1].
  destruct Hm as [He [(e & -> & Hf)|Hm]]; (split; [done|]).
  - left. eexists. split; [done|]. by apply from_fault_wrapf.
  - right. destruct (f (pg_db w)) as [[]| | |]; simpl; [destruct Hm as [-> ?]; done|by rewrite Hm..].
Qed.

Lemma refines_exec f : refines (tx_exec f) (fun db => db' ← f db; Ok (tt, db')).
Proof.
  intros w Hw. unfold tx_exec. destruct (pg_fault w) as [e|] eqn:Hf.
  - split; [done|]. left. exists e. split; [done|]. exists (pg_calls w), e. done.
  - destruct (f (pg_db w)); (split; [done|]); by right.
Qed.

(** A row lookup: a missing row is [none], any other error is wrapped. *)
Lemma refines_row {A B} (f : Tables -> option A) (some : A -> B) (none : result B) s :
  refines (on_error (act_bind (query_row tx_query f) (fun a => act_ret (some a)))
             (fun e => if no_rows e then none else Err (wrapf s e)))
    (fun db => keep (match f db with Some a => Ok (some a) | None => none end) db).
Proof.
  intros w Hw. unfold on_error, query_row, act_bind, tx_query, answer.
  destruct (pg_fault w) as [e|] eqn:Hf.
  - destruct (Hw _ _ Hf) as (_ & _ & Hn). unfold no_rows. rewrite Hn. split; [done|]. left.
    eexists. split; [done|]. apply from_fault_wrapf. by exists (pg_calls w), e.
  - simpl. destruct (f (pg_db w)); simpl; (split; [done|]); right; unfold keep; [done|]. by destruct none.
Qed.

Lemma refines_row_value {A} (f : Tables -> option A) (none : result A) s :
  refines (on_error (query_row tx_query f) (fun e => if no_rows e then none else Err (wrapf s e)))
    (fun db => keep (match f db with Some a => Ok a | None => none end) db).
Proof.
  intros w Hw. pose proof (refines_row f (fun a => a) none s w Hw) as Hr.
  unfold on_error, act_bind in *. destruct (query_row tx_query f w) as [[] w1]; exact Hr.
Qed.

(** A step that reads. *)
Lemma refines_read {A B} (m : action PgWorld A) (k : A -> action PgWorld B) r g :
  refines m (fun db => keep (r db) db) -> (forall a, refines (k a) (g a)) ->
  refines (act_bind m k) (fun db => a ← r db; g a db).
Proof.
  intros Hm Hk. eapply refines_ext; [|by apply refines_bind].
  intros db. unfold keep. by destruct (r db).
Qed.

(** A step that writes. *)
Lemma refines_write {B} (m : action PgWorld unit) (k : unit -> action PgWorld B) r g :
  refines m (fun db => db' ← r db; Ok (tt, db')) -> (forall u, refines (k u) g) ->
  refines (act_bind m k) (fun db => db' ← r db; g db').
Proof.
  intros Hm Hk. eapply refines_ext; [|exact (refines_bind m k _ (fun _ => g) Hm Hk)].
  intros db. simpl. by destruct (r db).
Qed.

(** A step that computes. *)
Lemma refines_pure {A B} (r : result A) (k : A -> action PgWorld B) g :
  (forall a, refines (k a) (g a)) -> refines (act_bind (act_lift r) k) (fun db => a ← r; g a db).
Proof. intros Hk. apply refines_read; [apply refines_lift|done]. Qed.

Lemma refines_value {A B} (a : A) (k : A -> action PgWorld B) g :
  refines (k a) g -> refines (act_bind (act_lift (Ok a)) k) g.
Proof. done. Qed.
End Rules.

(** ** Batching *)

(** What was sent and what is still pending after queueing [sts] behind [batch]. *)
Fixpoint flush (batch sts : list statement) : list statement * list statement :=
  match sts with
  | [] => ([], batch)
  | s :: rest =>
      let batch' := batch ++ [s] in
      if (canonicalBatchQueryLimit <=? length batch')%nat
      then let '(sent, pending) := flush [] rest in (batch' ++ sent, pending)
      else flush batch' rest
  end.

Lemma flush_concat batch sts : (flush batch sts).1 ++ (flush batch sts).2 = batch ++ sts.
Proof.
  revert batch. induction sts as [|s sts IH]; intros batch; cbn [flush]; [by rewrite app_nil_r|].
  destruct (_ <=? _)%nat; [|by rewrite IH, <- app_assoc].
  specialize (IH []). destruct (flush [] sts) as [sent pending]. simpl in *. by rewrite <- app_assoc, IH, <- app_assoc.
Qed.

Lemma flush_app batch sts1 sts2 :
  flush batch (sts1 ++ sts2) =
    ((flush batch sts1).1 ++ (flush (flush batch sts1).2 sts2).1, (flush (flush batch sts1).2 sts2).2).
Proof.
  revert batch. induction sts1 as [|s sts IH]; intros batch; cbn [flush app]; [apply surjective_pairing|].
  destruct (_ <=? _)%nat; [|apply IH]. rewrite IH.
  destruct (flush [] sts) as [sent pending]. cbn [fst snd]. by rewrite (app_assoc (batch ++ [s])).
Qed.

Lemma exec_batch_app a b db : exec_batch (a ++ b) db = exec_batch a db ≫= exec_batch b.
Proof.
  revert db. induction a as [|s a IH]; intros db; simpl; [done|]. destruct (exec_insert s db); simpl; auto.
Qed.

Lemma map_err_bind_Ok {A B} g (r : result A) (f : A -> B) :
  map_err g (x ← r; Ok (f x)) = (x ← map_err g r; Ok (f x)).
Proof. by destruct r. Qed.

Definition insert_failed : error -> error := wrapf "insert canonical bundles: %w".

(** Run the statements that were sent, keep the pending ones. *)
Definition run_flush (fl : list statement * list statement) (db : Tables) : result (list statement * Tables) :=
  db' ← map_err insert_failed (exec_batch fl.1 db); Ok (fl.2, db').

Lemma run_flush_app batch sts1 sts2 db :
  ('(pending, db') ← run_flush (flush batch sts1) db; run_flush (flush pending sts2) db') =
  run_flush (flush batch (sts1 ++ sts2)) db.
Proof.
  rewrite flush_app. unfold run_flush. simpl. rewrite exec_batch_app.
  destruct (exec_batch (flush batch sts1).1 db); simpl; done.
Qed.

Lemma refines_send batch :
  refines (sendCanonicalBatch batch) (fun db => db' ← map_err insert_failed (exec_batch batch db); Ok (tt, db')).
Proof.
  destruct batch as [|s batch]; [apply refines_ret|]. unfold sendCanonicalBatch.
  eapply refines_ext; [|apply refines_map_err, refines_exec].
  intros db. apply (map_err_bind_Ok insert_failed (exec_batch (s :: batch) db) (fun db' => (tt, db'))).
Qed.

Lemma refines_enqueue batch s : refines (enqueue batch s) (run_flush (flush batch [s])).
Proof.
  unfold enqueue. cbn [flush]. destruct (_ <=? _)%nat; [|apply refines_ret].
  eapply refines_ext; [|apply refines_bind; [apply refines_send|intros ?; apply refines_ret]].
  intros db. unfold run_flush. simpl. rewrite app_nil_r. by destruct (exec_batch (batch ++ [s]) db).
Qed.

Lemma refines_enqueue_all {A} (prepare : A -> result statement) (st : A -> statement) l batch :
  (forall x, x ∈ l -> prepare x = Ok (st x)) ->
  refines (enqueue_all prepare l batch) (run_flush (flush batch (st <$> l))).
Proof.
  revert batch. induction l as [|x l IH]; intros batch Hl; cbn [enqueue_all fmap list_fmap]; [apply refines_ret|].
  rewrite forall_elem_cons in Hl. destruct Hl as [Hx Hl]. rewrite Hx.
  apply (refines_ext _ (fun db => '(s, db1) ← keep (Ok (st x)) db;
    '(b, db2) ← run_flush (flush batch [s]) db1; run_flush (flush b (st <$> l)) db2)).
  2: { apply (refines_bind _ _ _ (fun s db1 => '(b, db2) ← run_flush (flush batch [s]) db1;
         run_flush (flush b (st <$> l)) db2)); [apply refines_lift|intros s].
       apply refines_bind; [apply refines_enqueue|intros b; by apply IH]. }
  intros db. apply (run_flush_app batch [st x] (st <$> l) db).
Qed.

(** ** Rows of a bundle *)

Definition enc_block (b : Block) : block_args :=
  mkBlockArgs (Block_Number b) (Some (array_bytes (Block_Hash b))) (Some (array_bytes (Block_ParentHash b)))
    (Block_Timestamp b) (Block_GasLimit b) (Block_GasUsed b) (postgresNumeric (Block_BaseFeePerGas b))
    (Block_TransactionCount b) (Block_IndexedAt b).

Definition enc_tx (t : Transaction) : transaction_args :=
  mkTransactionArgs (Some (array_bytes (Transaction_Hash t))) (Transaction_BlockNumber t) (Transaction_Index t)
    (Transaction_Type t) (Transaction_Nonce t) (Some (array_bytes (Transaction_Sender t)))
    (postgresAddress (Transaction_Recipient t)) (postgresNumeric (Transaction_Value t)) (Transaction_GasLimit t)
    (postgresNumeric (Transaction_GasPrice t)) (postgresNumeric (Transaction_MaxFeePerGas t))
    (postgresNumeric (Transaction_MaxPriorityFeePerGas t)) (Transaction_Input t).

Definition enc_event (e : Event) : event_args :=
  mkEventArgs (Event_BlockNumber e) (Some (array_bytes (Event_TransactionHash e))) (Event_TransactionIndex e)
    (Event_LogIndex e) (Some (array_bytes (Event_Address e))) ((fun t => Some (array_bytes t)) <$> Event_Topics e)
    (Event_Data e).

Lemma postgresInt64_inv v x : postgresInt64 v = Ok x -> x = v.
Proof. unfold postgresInt64. case_match; congruence. Qed.
Lemma postgresInt32_inv v x : postgresInt32 v = Ok x -> x = v.
Proof. unfold postgresInt32. case_match; congruence. Qed.
Lemma postgresCount_inv v x : postgresCount v = Ok x -> x = v.
Proof. unfold postgresCount. case_match; congruence. Qed.

(** [invert_args H] reads the arguments off a conversion that succeeded. *)
Ltac invert_args H :=
  repeat (let x := fresh "x" in let Hx := fresh "Hx" in
    apply bind_Ok_iff in H as (x & Hx & H);
    first [apply postgresInt64_inv in Hx | apply postgresInt32_inv in Hx | apply postgresCount_inv in Hx]; subst x);
  injection H as <-.

Lemma queueBlock_enc b a : queueBlock b = Ok a -> a = enc_block b.
Proof. intros Hq. unfold queueBlock in Hq. by invert_args Hq. Qed.
Lemma queueTransaction_enc t a : queueTransaction t = Ok a -> a = enc_tx t.
Proof. intros Hq. unfold queueTransaction in Hq. by invert_args Hq. Qed.
Lemma queueEvent_enc e a : queueEvent e = Ok a -> a = enc_event e.
Proof. intros Hq. unfold queueEvent in Hq. by invert_args Hq. Qed.

Definition bundle_statements (b : BlockBundle) : list statement :=
  InsertBlock (enc_block (Bundle_Block b)) ::
  ((fun t => InsertTransaction (enc_tx t)) <$> Bundle_Transactions b) ++
  ((fun e => InsertEvent (enc_event e)) <$> Bundle_Events b).

(** No conversion of the bundle panics. *)
Definition prepared (b : BlockBundle) : Prop :=
  block_statement (Bundle_Block b) = Ok (InsertBlock (enc_block (Bundle_Block b))) /\
  (forall t, t ∈ Bundle_Transactions b -> transaction_statement t = Ok (InsertTransaction (enc_tx t))) /\
  (forall e, e ∈ Bundle_Events b -> event_statement e = Ok (InsertEvent (enc_event e))).

Lemma refines_insert_bundles bundles batch :
  (forall b, b ∈ bundles -> prepared b) ->
  refines (insert_bundles bundles batch) (run_flush (flush batch (bundles ≫= bundle_statements))).
Proof.
  revert batch. induction bundles as [|b bundles IH]; intros batch Hp; cbn [insert_bundles]; [apply refines_ret|].
  rewrite forall_elem_cons in Hp. destruct Hp as [(Hb & Ht & He) Hp].
  assert (Hb' : forall x, x ∈ [Bundle_Block b] -> block_statement x = Ok (InsertBlock (enc_block x)))
    by (by intros x ->%list_elem_of_singleton).
  set (R := fun batch sts => run_flush (flush batch sts)).
  apply (refines_ext _ (fun db =>
    '(b1, db1) ← R batch [InsertBlock (enc_block (Bundle_Block b))] db;
    '(b2, db2) ← R b1 ((fun t => InsertTransaction (enc_tx t)) <$> Bundle_Transactions b) db1;
    '(b3, db3) ← R b2 ((fun e => InsertEvent (enc_event e)) <$> Bundle_Events b) db2;
    R b3 (bundles ≫= bundle_statements) db3)).
  2: { apply (refines_bind _ _ _ (fun b1 db1 =>
         '(b2, db2) ← R b1 ((fun t => InsertTransaction (enc_tx t)) <$> Bundle_Transactions b) db1;
         '(b3, db3) ← R b2 ((fun e => InsertEvent (enc_event e)) <$> Bundle_Events b) db2;
         R b3 (bundles ≫= bundle_statements) db3)); [apply (refines_enqueue_all _ _ _ _ Hb')|intros b1].
       apply (refines_bind _ _ _ (fun b2 db2 =>
         '(b3, db3) ← R b2 ((fun e => InsertEvent (enc_event e)) <$> Bundle_Events b) db2;
         R b3 (bundles ≫= bundle_statements) db3)); [apply (refines_enqueue_all _ _ _ _ Ht)|intros b2].
       apply refines_bind; [apply (refines_enqueue_all _ _ _ _ He)|intros b3; apply (IH b3 Hp)]. }
  intros db. unfold R. rewrite bind_cons. change (bundle_statements b) with
    ([InsertBlock (enc_block (Bundle_Block b))] ++
     ((fun t => InsertTransaction (enc_tx t)) <$> Bundle_Transactions b) ++
     ((fun e => InsertEvent (enc_event e)) <$> Bundle_Events b)).
  rewrite <- !app_assoc, <- run_flush_app.
  destruct (run_flush (flush batch _) db) as [[p1 d1]| | |]; cbn [mbind result_bind]; try done.
  rewrite <- run_flush_app. destruct (run_flush (flush p1 _) d1) as [[p2 d2]| | |];
    cbn [mbind result_bind]; try done. by rewrite <- run_flush_app.
Qed.

Lemma insert_bundles_refines bundles :
  (forall b, b ∈ bundles -> prepared b) ->
  refines (insertCanonicalBundles bundles)
    (fun db => db' ← map_err insert_failed (exec_batch (bundles ≫= bundle_statements) db); Ok (tt, db')).
Proof.
  intros Hp. destruct bundles as [|b bundles]; [apply refines_ret|]. unfold insertCanonicalBundles.
  eapply refines_ext; [|apply refines_bind; [apply (refines_insert_bundles _ [] Hp)|intros batch; apply refines_send]].
  intros db. set (sts := (b :: bundles) ≫= bundle_statements).
  assert (E : exec_batch sts db = exec_batch (flush [] sts).1 db ≫= exec_batch (flush [] sts).2)
    by (rewrite <- exec_batch_app, flush_concat; done).
  rewrite E. unfold run_flush. by destruct (exec_batch (flush [] sts).1 db).
Qed.

(** C21: Batching is transparent: whatever the number of rows, sending the inserts in
    batches of at most [canonicalBatchQueryLimit] statements has the effect of running
    all of them in order, unless a call fails; an error is that of the first violated
    constraint, and no conversion panics. *)
Theorem insert_bundles_unbatched bundles :
  (forall b, b ∈ bundles -> prepared b) ->
  refines (insertCanonicalBundles bundles)
    (fun db => db' ← map_err insert_failed (exec_batch (bundles ≫= bundle_statements) db); Ok (tt, db')).
Proof. apply insert_bundles_refines. Qed.

(** ** The whole update *)
Section Update.
Context `{GoRuntime} `{PostgresEngine}.

Definition different_chain (update : CanonicalUpdate) (db : Tables) : result unit :=
  match differentChainQuery (Update_ChainID update) db with
  | None => Ok tt
  | Some _ => Err (invalid_update "%w: store chain ID is %d, update chain ID is %d")
  end.

Definition parent_check (update : CanonicalUpdate) (db : Tables) : result unit :=
  match Update_Blocks update with
  | [] => Ok tt
  | first :: _ =>
      if Update_ReplaceFrom update =? Update_RetainFrom update then Ok tt
      else
        previousHash ← match canonicalHashQuery (Update_ReplaceFrom update - 1) db with
                       | Some h => Ok h
                       | None => Err (invalid_update "%w: retained parent block %d is missing")
                       end;
        decodedHash ← map_err (wrapf "decode retained parent block %d: %w") (decodeHash previousHash);
        reject_if (negb (bool_decide (bundle_parent first = decodedHash)))
          (invalid_update "%w: replacement block %d does not extend retained block %d")
  end.

Definition table_tip (decode_failed : error -> error) (db : Tables) : result (option ChainTip) :=
  match canonicalTipQuery db with
  | None => Ok None
  | Some (number, hash) =>
      decodedHash ← map_err decode_failed (decodeHash hash);
      decodedNumber ← map_err decode_failed (decodePostgresUint64 number);
      Ok (Some (mkTip decodedNumber decodedHash))
  end.

Definition sync_row_of (update : CanonicalUpdate) (tip : option ChainTip) : result sync_row :=
  number ← match tip with
           | None => Ok None
           | Some t => number ← postgresInt64 (Tip_Number t); Ok (Some number)
           end;
  Ok (mkSyncRow (Update_ChainID update) number ((fun t => array_bytes (Tip_Hash t)) <$> tip)
        (Update_SyncedAt update)).

(** The tables after the transaction, as a function of the tables before it. *)
Definition update_tables (update : CanonicalUpdate) (db : Tables) : result Tables :=
  _ ← different_chain update db;
  let db1 := deleteCanonicalRangeQuery (Update_ReplaceFrom update) (Update_RetainFrom update) db in
  _ ← parent_check update db1;
  db2 ← map_err insert_failed (exec_batch (Update_Blocks update ≫= bundle_statements) db1);
  tip ← table_tip (wrapf "decode updated canonical tip: %w") db2;
  row ← sync_row_of update tip;
  map_err (wrapf "write canonical sync state: %w") (upsertSyncStateQuery row db2).

Lemma refines_different_chain u :
  Update_ChainID u <= max_int64 ->
  refines (rejectDifferentChain (Update_ChainID u)) (fun db => keep (different_chain u db) db).
Proof.
  intros Hid. unfold rejectDifferentChain. rewrite postgresInt64_small by done. apply refines_value.
  eapply refines_ext; [|apply refines_read; [apply refines_row|intros existing; apply refines_lift]].
  intros db. unfold different_chain. simpl. by destruct (differentChainQuery _ db).
Qed.

Lemma refines_parent u :
  is_u64 (Update_RetainFrom u) -> Update_RetainFrom u <= Update_ReplaceFrom u <= max_int64 ->
  refines (validateRetainedParent u) (fun db => keep (parent_check u db) db).
Proof.
  intros Hret Hrep. unfold validateRetainedParent, parent_check.
  destruct (Update_Blocks u) as [|first rest]; [apply refines_ret|].
  destruct (Z.eqb_spec (Update_ReplaceFrom u) (Update_RetainFrom u)) as [|Hne]; [apply refines_ret|].
  rewrite u64_sub_small by int_lia. rewrite postgresInt64_small by lia. apply refines_value.
  eapply refines_ext; [|apply refines_read; [apply refines_row_value|intros h; apply refines_pure; intros d; apply refines_lift]].
  intros db. simpl. destruct (canonicalHashQuery _ db) as [h|]; [|done].
  cbn [mbind result_bind]. unfold keep. by destruct (map_err _ (decodeHash h)).
Qed.

Lemma refines_tip query_failed decode_failed :
  refines (read_tip tx_query (wrapf query_failed) decode_failed) (fun db => keep (table_tip decode_failed db) db).
Proof.
  unfold read_tip, table_tip.
  eapply refines_ext; [|eapply (refines_read _ _ _ (fun row => keep (match row with
    | None => Ok None
    | Some (number, hash) =>
        decodedHash ← map_err decode_failed (decodeHash hash);
        decodedNumber ← map_err decode_failed (decodePostgresUint64 number);
        Ok (Some (mkTip decodedNumber decodedHash)) end))); [apply refines_row|]].
  - intros db. simpl. by destruct (canonicalTipQuery db) as [[]|].
  - intros [[number hash]|]; [apply refines_lift|apply refines_ret].
Qed.

Lemma refines_sync_state u tip :
  Update_ChainID u <= max_int64 ->
  refines (writeSyncState u tip) (fun db => row ← sync_row_of u tip;
    db' ← map_err (wrapf "write canonical sync state: %w") (upsertSyncStateQuery row db); Ok (tt, db')).
Proof.
  intros Hid. unfold writeSyncState, sync_row_of. rewrite postgresInt64_small by done.
  eapply refines_ext; [|apply refines_pure; intros n; apply refines_value; apply refines_map_err, refines_exec].
  intros db. simpl. destruct (match tip with None => Ok None | Some t => _ end) as [n| | |]; try done.
  apply (map_err_bind_Ok _ (upsertSyncStateQuery _ db) (fun db' => (tt, db'))).
Qed.

Lemma update_refines u :
  Update_ChainID u <= max_int64 -> is_u64 (Update_RetainFrom u) ->
  Update_RetainFrom u <= Update_ReplaceFrom u <= max_int64 -> (forall b, b ∈ Update_Blocks u -> prepared b) ->
  refines (update_statements u) (fun db => db' ← update_tables u db; Ok (tt, db')).
Proof.
  intros Hid Hret Hrep Hp. unfold update_statements. rewrite !postgresInt64_small by lia.
  set (rest := fun db1 => _ ← parent_check u db1;
    db2 ← map_err insert_failed (exec_batch (Update_Blocks u ≫= bundle_statements) db1);
    tip ← table_tip (wrapf "decode updated canonical tip: %w") db2;
    row ← sync_row_of u tip;
    db' ← map_err (wrapf "write canonical sync state: %w") (upsertSyncStateQuery row db2); Ok (tt, db')).
  apply (refines_ext _ (fun db => _ ← different_chain u db;
    db1 ← Ok (deleteCanonicalRangeQuery (Update_ReplaceFrom u) (Update_RetainFrom u) db); rest db1)).
  { intros db. unfold update_tables, rest. destruct (different_chain u db); simpl; try done.
    destruct (parent_check _ _); simpl; try done. destruct (map_err insert_failed _); simpl; try done.
    destruct (table_tip _ _); simpl; try done. by destruct (sync_row_of _ _). }
  apply (refines_read _ _ _ (fun _ db => db1 ← Ok (deleteCanonicalRangeQuery (Update_ReplaceFrom u)
    (Update_RetainFrom u) db); rest db1)); [by apply refines_different_chain|intros _].
  do 2 apply refines_value. apply refines_write.
  { eapply refines_ext; [|apply refines_map_err, refines_exec]. done. }
  intros _. unfold rest. apply (refines_read _ _ _ (fun _ db1 => db2 ← map_err insert_failed _; _));
    [by apply refines_parent|intros _].
  apply refines_write; [by apply insert_bundles_refines|intros _].
  apply refines_read; [apply refines_tip|intros tip]. by apply refines_sync_state.
Qed.
End Update.
