(* ===== verification/PostgresRows.v ===== *)
(** * What the tables of the PostgreSQL store hold

    [table_rows db m]: the tables hold exactly the rows of the blocks of [m], in any
    order.  Deleting a range (with its cascades) and running the inserts of an update
    keep this for the updated segment. *)
From S2P Require Import Prelude Errors Domain Validate Store Memory Codec Postgres PostgresTx.
From stdpp Require Import prelude gmap sorting list strings.
From Stdlib Require Import ZArith Lia.

Local Open Scope Z_scope.

(** ** Rows of a segment *)

Definition rows_of {A} (f : BlockBundle -> list A) (m : bundle_map) : list A := (map_to_list m).*2 ≫= f.

Definition block_rows (b : BlockBundle) : list block_args := [enc_block (Bundle_Block b)].
Definition tx_rows (b : BlockBundle) : list transaction_args := enc_tx <$> Bundle_Transactions b.
Definition event_rows (b : BlockBundle) : list event_args := enc_event <$> Bundle_Events b.

Record table_rows (db : Tables) (m : bundle_map) : Prop := {
  tr_blocks : blocks db ≡ₚ rows_of block_rows m;
  tr_txs : transactions db ≡ₚ rows_of tx_rows m;
  tr_events : event_logs db ≡ₚ rows_of event_rows m
}.

Section Rows.
Context {A : Type} (f : BlockBundle -> list A).

Lemma rows_of_insert m n b : m !! n = None -> rows_of f (<[n := b]> m) ≡ₚ f b ++ rows_of f m.
Proof. intros Hn. unfold rows_of. by rewrite (map_to_list_insert m n b Hn). Qed.

Lemma elem_of_rows m a : a ∈ rows_of f m <-> exists n b, m !! n = Some b /\ a ∈ f b.
Proof.
  unfold rows_of. rewrite list_elem_of_bind. setoid_rewrite list_elem_of_fmap. split.
  - intros (b & Ha & [n b'] & -> & Hin%elem_of_map_to_list). eauto.
  - intros (n & b & Hb & Ha). exists b. split; [done|]. exists (n, b). by rewrite elem_of_map_to_list.
Qed.

Lemma filter_rows (P : Z * BlockBundle -> Prop) (Q : A -> Prop)
    `{forall x, Decision (P x)} `{forall a, Decision (Q a)} m :
  (forall n b a, m !! n = Some b -> a ∈ f b -> Q a <-> P (n, b)) ->
  filter Q (rows_of f m) ≡ₚ rows_of f (filter P m).
Proof.
  induction m as [|n b m Hn IH] using map_ind; intros HQ.
  { by rewrite map_filter_empty. }
  rewrite rows_of_insert, filter_app by done.
  assert (Hm : forall n' b' a, m !! n' = Some b' -> a ∈ f b' -> Q a <-> P (n', b')).
  { intros n' b' a Hb'. apply HQ. rewrite lookup_insert_ne; [done|]. intros <-. congruence. }
  assert (Hb : forall a, a ∈ f b -> Q a <-> P (n, b)) by (intros a; apply HQ, lookup_insert_eq).
  destruct (decide (P (n, b))) as [HP|HP].
  - rewrite map_filter_insert_True by done.
    rewrite rows_of_insert by (apply map_lookup_filter_None; by left).
    rewrite (filter_all _ (f b)) by (intros a Ha; by apply Hb). by rewrite IH.
  - rewrite (filter_none _ (f b)) by (intros a Ha; by rewrite Hb).
    rewrite map_filter_insert_False, delete_id by done. by apply IH.
Qed.

Lemma rows_of_insert_blocks m bs :
  NoDup ((fun b => bundle_number b) <$> bs) -> (forall b, b ∈ bs -> m !! bundle_number b = None) ->
  rows_of f (insert_blocks m bs) ≡ₚ rows_of f m ++ (bs ≫= f).
Proof.
  revert m. induction bs as [|b bs IH]; intros m; cbn [insert_blocks foldl].
  { intros _ _. by rewrite app_nil_r. }
  rewrite fmap_cons, NoDup_cons, forall_elem_cons. intros [Hnot Hnd] [Hb Hbs].
  fold (insert_blocks (<[bundle_number b := b]> m) bs). rewrite IH; [|done|].
  - rewrite rows_of_insert by done. rewrite bind_cons, (Permutation_app_comm (f b)), <- app_assoc. done.
  - intros c Hc. rewrite lookup_insert_ne; [by apply Hbs|]. intros Heq. apply Hnot. rewrite Heq.
    by apply (list_elem_of_fmap_2 (fun b => bundle_number b)).
Qed.
End Rows.

(** ** Inserting *)

Definition stmt_block (s : statement) : option block_args := match s with InsertBlock a => Some a | _ => None end.
Definition stmt_tx (s : statement) : option transaction_args :=
  match s with InsertTransaction a => Some a | _ => None end.
Definition stmt_event (s : statement) : option event_args := match s with InsertEvent a => Some a | _ => None end.

(** The tables with the rows of the statements appended. *)
Definition appended (sts : list statement) (db : Tables) : Tables :=
  mkTables (blocks db ++ omap stmt_block sts) (transactions db ++ omap stmt_tx sts)
    (event_logs db ++ omap stmt_event sts) (sync_state db).

Definition constraint_holds (s : statement) (db : Tables) : bool :=
  match s with
  | InsertBlock a => block_constraints db a
  | InsertTransaction a => transaction_constraints db a
  | InsertEvent a => event_constraints db a
  end.

Lemma exec_insert_eq s db :
  exec_insert s db = if constraint_holds s db then Ok (appended [s] db) else Err constraint_violation.
Proof.
  destruct s; unfold appended; simpl; rewrite ?app_nil_r; done.
Qed.

Lemma appended_app s1 s2 db : appended (s1 ++ s2) db = appended s2 (appended s1 db).
Proof. unfold appended. simpl. by rewrite !omap_app, !app_assoc. Qed.

Lemma appended_cons s sts db : appended (s :: sts) db = appended sts (appended [s] db).
Proof. exact (appended_app [s] sts db). Qed.

Lemma appended_nil db : appended [] db = db.
Proof. unfold appended. simpl. rewrite !app_nil_r. by destruct db. Qed.

(** A batch succeeds exactly when every constraint holds at its turn, and then appends. *)
Lemma exec_batch_Ok sts db db' :
  exec_batch sts db = Ok db' <->
  (forall i s, sts !! i = Some s -> constraint_holds s (appended (take i sts) db) = true) /\
  db' = appended sts db.
Proof.
  revert db. induction sts as [|s sts IH]; intros db; cbn [exec_batch].
  { rewrite appended_nil. naive_solver. }
  rewrite exec_insert_eq, forall_lookup_cons. cbn [take]. rewrite appended_nil.
  destruct (constraint_holds s db) eqn:Hs; [|split; [done|by intros [[? _] _]]].
  cbn [mbind result_bind]. rewrite IH. change (s :: sts) with ([s] ++ sts). rewrite appended_app.
  split; intros [H1 ->]; (split; [|done]); [split; [done|]|apply proj2 in H1].
  all: intros i x Hi; specialize (H1 i x Hi); change (s :: take i sts) with ([s] ++ take i sts) in *;
    by rewrite appended_app in *.
Qed.

Lemma omap_block_statements bs : omap stmt_block (bs ≫= bundle_statements) = bs ≫= block_rows.
Proof.
  induction bs as [|b bs IH]; [done|]. rewrite !bind_cons, omap_app, IH. f_equal.
  unfold bundle_statements. simpl. f_equal. rewrite omap_app.
  assert (Hn : forall {B} (g : B -> statement) l, (forall x, stmt_block (g x) = None) -> omap stmt_block (g <$> l) = []).
  { intros B g l Hg. induction l; [done|]. simpl. by rewrite Hg. }
  by rewrite !Hn.
Qed.

Lemma omap_tx_statements bs : omap stmt_tx (bs ≫= bundle_statements) = bs ≫= tx_rows.
Proof.
  induction bs as [|b bs IH]; [done|]. rewrite !bind_cons, omap_app, IH. f_equal.
  unfold bundle_statements, tx_rows. simpl. rewrite omap_app.
  assert (Ht : omap stmt_tx ((fun t => InsertTransaction (enc_tx t)) <$> Bundle_Transactions b) =
               enc_tx <$> Bundle_Transactions b).
  { induction (Bundle_Transactions b); [done|]. simpl. by f_equal. }
  assert (He : omap stmt_tx ((fun e => InsertEvent (enc_event e)) <$> Bundle_Events b) = []).
  { induction (Bundle_Events b); [done|]. simpl. done. }
  by rewrite Ht, He, app_nil_r.
Qed.

Lemma omap_event_statements bs : omap stmt_event (bs ≫= bundle_statements) = bs ≫= event_rows.
Proof.
  induction bs as [|b bs IH]; [done|]. rewrite !bind_cons, omap_app, IH. f_equal.
  unfold bundle_statements, event_rows. simpl. rewrite omap_app.
  assert (Ht : omap stmt_event ((fun t => InsertTransaction (enc_tx t)) <$> Bundle_Transactions b) = []).
  { induction (Bundle_Transactions b); [done|]. simpl. done. }
  assert (He : omap stmt_event ((fun e => InsertEvent (enc_event e)) <$> Bundle_Events b) =
               enc_event <$> Bundle_Events b).
  { induction (Bundle_Events b); [done|]. simpl. by f_equal. }
  by rewrite Ht, He.
Qed.

Lemma contiguous_numbers u :
  contiguous u -> NoDup ((fun b => bundle_number b) <$> Update_Blocks u) /\
  forall b, b ∈ Update_Blocks u -> Update_ReplaceFrom u <= bundle_number b.
Proof.
  intros Hc. split.
  - apply NoDup_fmap_2_strong.
    + intros x y Hx Hy Hxy. apply list_elem_of_lookup in Hx as [i Hi], Hy as [j Hj].
      pose proof (Hc _ _ Hi). pose proof (Hc _ _ Hj). assert (i = j) by lia. congruence.
    + apply NoDup_alt. intros i j x Hi Hj. pose proof (Hc _ _ Hi). pose proof (Hc _ _ Hj). lia.
  - intros b [i Hi]%list_elem_of_lookup. rewrite (Hc _ _ Hi). lia.
Qed.

Lemma insert_rows u db m db' :
  contiguous u -> table_rows db m -> (forall n, is_Some (m !! n) -> n < Update_ReplaceFrom u) ->
  exec_batch (Update_Blocks u ≫= bundle_statements) db = Ok db' ->
  table_rows db' (insert_blocks m (Update_Blocks u)) /\ sync_state db' = sync_state db.
Proof.
  intros Hc [Hb Ht He] Hlow [_ ->]%exec_batch_Ok. destruct (contiguous_numbers u Hc) as [Hnd Hge].
  assert (Hfresh : forall b, b ∈ Update_Blocks u -> m !! bundle_number b = None).
  { intros b Hin. destruct (m !! bundle_number b) eqn:E; [|done].
    specialize (Hge b Hin). specialize (Hlow (bundle_number b) ltac:(eauto)). lia. }
  split; [|done]. split; simpl; rewrite rows_of_insert_blocks by done.
  - by rewrite Hb, omap_block_statements.
  - by rewrite Ht, omap_tx_statements.
  - by rewrite He, omap_event_statements.
Qed.

(** ** Deleting *)

Definition gone (u : CanonicalUpdate) (n : Z) : bool :=
  (Update_ReplaceFrom u <=? n) || (n <? Update_RetainFrom u).

Lemma gone_kept u n : gone u n = false <-> kept u n.
Proof. unfold gone, kept. rewrite orb_false_iff, Z.leb_gt, Z.ltb_ge. lia. Qed.

Section Delete.
Context (db : Tables) (m : bundle_map) (u : CanonicalUpdate).
Hypothesis Hrows : table_rows db m.
Hypothesis Hcan : canonical m.

Lemma elem_of_block_numbers n : n ∈ barg_number <$> blocks db <-> is_Some (m !! n).
Proof.
  rewrite (tr_blocks _ _ Hrows), list_elem_of_fmap. setoid_rewrite elem_of_rows.
  setoid_rewrite list_elem_of_singleton. split.
  - intros (a & -> & k & b & Hb & ->). simpl. rewrite (can_key _ Hcan k b Hb). eauto.
  - intros [b Hb]. exists (enc_block (Bundle_Block b)). simpl. rewrite (can_key _ Hcan n b Hb). naive_solver.
Qed.

Abbreviation deleted := (barg_number <$> filter (fun a => gone u (barg_number a) = true) (blocks db)).

Lemma elem_of_deleted n : n ∈ deleted <-> gone u n = true /\ is_Some (m !! n).
Proof.
  rewrite <- elem_of_block_numbers, !list_elem_of_fmap. setoid_rewrite list_elem_of_filter. naive_solver.
Qed.

Lemma tx_row_number n b a : m !! n = Some b -> a ∈ tx_rows b -> targ_blockNumber a = n.
Proof.
  intros Hb (t & -> & [i Hi]%list_elem_of_lookup)%list_elem_of_fmap. simpl.
  destruct (bv_tx _ (can_valid _ Hcan n b Hb) i t Hi) as (-> & _). by apply can_key with m.
Qed.

Lemma event_row_number n b a : m !! n = Some b -> a ∈ event_rows b -> earg_blockNumber a = n.
Proof.
  intros Hb (e & -> & He)%list_elem_of_fmap. simpl.
  destruct (bv_event _ (can_valid _ Hcan n b Hb) e He) as (-> & _). by apply can_key with m.
Qed.

(** The transaction row an event row refers to is a row of the same block. *)
Lemma event_row_tx n b a :
  m !! n = Some b -> a ∈ event_rows b -> exists h, earg_transactionHash a = Some (array_bytes h) /\ contains_tx b h.
Proof.
  intros Hb (e & -> & He)%list_elem_of_fmap. simpl.
  destruct (bv_event _ (can_valid _ Hcan n b Hb) e He) as (_ & _ & _ & t & Ht & Hh & _).
  exists (Event_TransactionHash e). split; [done|]. rewrite <- Hh. by apply list_elem_of_fmap_2.
Qed.

Lemma delete_rows :
  table_rows (deleteCanonicalRangeQuery (Update_ReplaceFrom u) (Update_RetainFrom u) db)
    (filter (fun kb => kept u kb.1) m).
Proof.
  split; simpl.
  - rewrite (tr_blocks _ _ Hrows). apply filter_rows. intros n b a Hb ->%list_elem_of_singleton. simpl.
    rewrite (can_key _ Hcan n b Hb). apply gone_kept.
  - rewrite (tr_txs _ _ Hrows). apply filter_rows. intros n b a Hb Ha.
    rewrite (tx_row_number n b a Hb Ha). fold (gone u). rewrite elem_of_deleted. simpl. rewrite <- gone_kept.
    destruct (gone u n); naive_solver.
  - rewrite (tr_events _ _ Hrows). apply filter_rows. intros n b a Hb Ha.
    rewrite (event_row_number n b a Hb Ha). fold (gone u). rewrite elem_of_deleted. simpl. rewrite <- gone_kept.
    split; [intros [Hg _]; destruct (gone u n); naive_solver|]. intros Hg. split; [rewrite Hg; by intros [? _]|].
    intros (x & Hx & Hin)%list_elem_of_fmap. apply list_elem_of_filter in Hin as [Hdel Hin].
    rewrite (tr_txs _ _ Hrows) in Hin. apply elem_of_rows in Hin as (n' & b' & Hb' & Hin).
    rewrite (tx_row_number n' b' x Hb' Hin) in Hdel. apply elem_of_deleted in Hdel as [Hg' _].
    destruct (event_row_tx n b a Hb Ha) as (h & Hh & Hc). apply list_elem_of_fmap in Hin as (t & -> & Ht).
    rewrite Hh in Hx. simpl in Hx. injection Hx as Hx%byte_array_eq.
    assert (n = n'); [|congruence]. eapply (can_tx _ Hcan); [done|done|done|]. rewrite Hx.
    by apply list_elem_of_fmap_2.
Qed.
End Delete.

(** ** The chain after an update *)

(** What [validateRetainedParent] ensures. *)
Definition parent_linked (u : CanonicalUpdate) (m : bundle_map) : Prop :=
  Update_Blocks u = [] \/ Update_ReplaceFrom u = Update_RetainFrom u \/
  exists first p, head (Update_Blocks u) = Some first /\ m !! (Update_ReplaceFrom u - 1) = Some p /\
                  bundle_parent first = bundle_hash p.

Lemma canonical_update u m :
  canonical m -> contiguous u -> Update_RetainFrom u <= Update_ReplaceFrom u ->
  canonical (insert_blocks ∅ (Update_Blocks u)) -> parent_linked u m ->
  (forall n b n' b' h, apply_update m u !! n = Some b -> apply_update m u !! n' = Some b' ->
     contains_tx b h -> contains_tx b' h -> n = n') ->
  canonical (apply_update m u).
Proof.
  intros Hm Hc Hr Hnew Hlink Htx.
  set (isnew := fun n => Update_ReplaceFrom u <= n < Update_ReplaceFrom u + Z.of_nat (length (Update_Blocks u))).
  assert (Hl : forall n, insert_blocks ∅ (Update_Blocks u) !! n =
    if decide (isnew n) then Update_Blocks u !! Z.to_nat (n - Update_ReplaceFrom u) else None).
  { intros n. by rewrite (insert_blocks_lookup_ge _ _ (Update_ReplaceFrom u)) by done. }
  assert (Hcase : forall n b, apply_update m u !! n = Some b <->
    insert_blocks ∅ (Update_Blocks u) !! n = Some b \/ kept u n /\ m !! n = Some b).
  { intros n b. rewrite apply_update_lookup, Hl by done. unfold isnew, kept.
    case_decide; [naive_solver lia|]. case_decide; naive_solver. }
  assert (Hnewlow : forall n b, insert_blocks ∅ (Update_Blocks u) !! n = Some b -> isnew n).
  { intros n b. rewrite Hl. case_decide; [done|done]. }
  split; [| | |exact Htx].
  - intros n b [Hb|[_ Hb]]%Hcase; eauto using can_key.
  - intros n b [Hb|[_ Hb]]%Hcase; eauto using can_valid.
  - intros n b k Hb Hk [c Hck]. setoid_rewrite Hcase.
    apply Hcase in Hb as [Hb|[Hkn Hb]], Hck as [Hck|[Hkk Hck]].
    + destruct (can_next _ Hnew n b k Hb Hk ltac:(eauto)) as (d & Hd & ?). eauto.
    + apply Hnewlow in Hb. unfold isnew, kept in *. lia.
    + apply Hnewlow in Hck. destruct Hlink as [He|[He|(first & p & Hfirst & Hp & Hpar)]];
        [unfold isnew in Hck; rewrite He in Hck; simpl in Hck; lia|unfold kept in Hkn; lia|].
      destruct (decide (n = Update_ReplaceFrom u - 1)) as [->|Hne].
      * exists first. rewrite Hb in Hp. injection Hp as ->. split; [|done]. left.
        replace (Update_ReplaceFrom u - 1 + 1) with (Update_ReplaceFrom u) by lia.
        rewrite Hl. destruct (Update_Blocks u) as [|f0 fs]; [done|]. simpl in Hfirst. injection Hfirst as ->.
        rewrite decide_True by (unfold isnew; simpl; lia). by rewrite Z.sub_diag.
      * destruct (can_next _ Hm n b (Update_ReplaceFrom u - 1) Hb) as (d & Hd & ?);
          [unfold kept in Hkn; lia|by eauto|]. exists d. split; [|done]. right. split; [unfold kept in *; lia|done].
    + destruct (can_next _ Hm n b k Hb Hk ltac:(eauto)) as (d & Hd & ?). exists d. split; [|done]. right.
      split; [unfold kept in *; lia|done].
Qed.
