(* ===== verification/PostgresStore.v ===== *)
(** * The PostgreSQL store implements the store contract

    The tables always hold the rows of one canonical segment ([db_state]); an update
    that is applied changes them to those of the updated segment, one that is not
    leaves them alone. *)
From S2P Require Import Prelude Errors Domain Validate Store Fixtures Memory Codec Postgres PostgresTx PostgresRows.
From stdpp Require Import prelude gmap sorting list strings.
From Stdlib Require Import ZArith Lia.

Local Open Scope Z_scope.

(** ** The invariant *)

(** A bundle the range checks accept. *)
Definition storable (b : BlockBundle) : Prop := Bundle_typed b /\ validatePostgresBundle b = Ok tt.

(** [sync_state] has one row once an update was applied: the tip of the segment. *)
Definition sync_matches (rows : list sync_row) (m : bundle_map) : Prop :=
  match rows with
  | [] => m = ∅
  | [r] => 0 < sync_chain_id r /\
           exists tip, is_tip m tip /\ sync_number r = Tip_Number <$> tip /\
                       sync_hash r = (fun t => array_bytes (Tip_Hash t)) <$> tip
  | _ => False
  end.

Record db_state (db : Tables) (m : bundle_map) : Prop := {
  ds_rows : table_rows db m;
  ds_canonical : canonical m;
  ds_storable n b : m !! n = Some b -> storable b;
  ds_primary : NoDup (targ_hash <$> transactions db) /\ NoDup (barg_hash <$> blocks db);
  ds_sync : sync_matches (sync_state db) m
}.

Lemma empty_state : db_state empty_tables ∅.
Proof.
  split; [split; done|apply canonical_empty| |split; constructor|done].
  intros n b. by rewrite lookup_empty.
Qed.

Lemma storable_number b : storable b -> 0 <= bundle_number b <= max_int64.
Proof.
  intros [[[Hn _] _] Hv]. unfold validatePostgresBundle, validatePostgresBlock in Hv.
  apply bind_Ok_iff in Hv as ([] & Hb & _). rewrite bind_reject_iff, !orb_false_iff, !Z.ltb_ge in Hb. int_lia.
Qed.

Lemma storable_prepared b : storable b -> bundle_valid b -> prepared b.
Proof.
  intros Hs Hbv. pose proof (storable_number b Hs) as Hn. destruct Hs as [(Hbt & Htt & Het) Hv].
  rewrite list.Forall_forall in Htt. rewrite list.Forall_forall in Het.
  unfold validatePostgresBundle in Hv. apply bind_Ok_iff in Hv as ([] & Hb & Hv).
  apply bind_Ok_iff in Hv as ([] & Htx & Hev). rewrite check_each_Ok in Htx. rewrite check_each_Ok in Hev.
  split_and!.
  - destruct (block_roundtrip (fun t => t) _ Hbt ltac:(rewrite (bv_count _ Hbv); lia) Hb) as (a & Ha & _).
    unfold block_statement. rewrite Ha. by rewrite (queueBlock_enc _ _ Ha).
  - intros t Ht. destruct (transaction_roundtrip t (Htt t Ht) (Htx t Ht)) as (a & Ha & _).
    unfold transaction_statement. rewrite Ha. by rewrite (queueTransaction_enc _ _ Ha).
  - intros e He. destruct (bv_event _ Hbv e He) as (Hnum & _ & Htop & _).
    destruct (event_roundtrip e (Het e He) ltac:(lia) Htop (Hev e He)) as (a & Ha & _).
    unfold event_statement. rewrite Ha. by rewrite (queueEvent_enc _ _ Ha).
Qed.

(** ** What an accepted update looks like *)

Record checked (u : CanonicalUpdate) : Prop := {
  ck_chain : 0 < Update_ChainID u <= max_int64;
  ck_range : 0 <= Update_RetainFrom u <= Update_ReplaceFrom u;
  ck_bound : Update_ReplaceFrom u <= max_int64;
  ck_contiguous : contiguous u;
  ck_canonical : canonical (insert_blocks ∅ (Update_Blocks u));
  ck_storable b : b ∈ Update_Blocks u -> storable b
}.

Section Store.
Context `{GoRuntime} `{PostgresEngine}.

Lemma insert_blocks_keys u : Update_typed u -> contiguous u -> keys_u64 (insert_blocks ∅ (Update_Blocks u)).
Proof.
  intros (_ & _ & _ & Hbs) Hc n [b Hb].
  rewrite (insert_blocks_lookup_ge _ _ (Update_ReplaceFrom u)) in Hb by done. case_decide as Hin; [|done].
  rewrite Forall_lookup in Hbs. destruct (Hbs _ _ Hb) as [[Hn _] _]. rewrite (Hc _ _ Hb) in Hn.
  by replace n with (Update_ReplaceFrom u + Z.of_nat (Z.to_nat (n - Update_ReplaceFrom u))) by lia.
Qed.

Lemma validatePostgresUpdate_checked u : Update_typed u -> validatePostgresUpdate u = Ok tt <-> checked u.
Proof.
  intros Hty. unfold validatePostgresUpdate. rewrite !bind_reject_iff, bind_Ok_iff. setoid_rewrite bind_Ok_iff.
  rewrite orb_false_iff, !Z.ltb_ge, Z.eqb_neq. pose proof Hty as (Hid & Hrep & Hret & Hbs).
  rewrite list.Forall_forall in Hbs. split.
  - intros (? & ? & ? & [? ?] & [] & Hr & [] & Hcan & Heach). apply validateReplacement_contiguous in Hr; [|done].
    rewrite check_each_Ok in Heach. split; [int_lia|int_lia|done|done| |].
    + by apply validateCanonicalBundles_canonical, Hcan; apply insert_blocks_keys.
    + intros b Hb. split; auto.
  - intros [? ? ? Hc Hcan Hst]. split_and!; [lia..|]. exists tt. split; [by apply validateReplacement_contiguous|].
    exists tt. split; [|apply check_each_Ok; intros b Hb; by apply Hst].
    apply validateCanonicalBundles_canonical; [by apply insert_blocks_keys|done].
Qed.

Lemma validatePostgresUpdate_errs u : errs_in is_invalid_update (validatePostgresUpdate u).
Proof.
  assert (Hu : forall o r, errs_in is_invalid_update (validateUint256 o r)) by (intros [|] ?; by apply errs_in_reject_if).
  unfold validatePostgresUpdate. do 4 (apply errs_in_bind; [by auto with go_errs|intros _ _]).
  apply errs_in_bind; [by auto with go_errs|intros _ _]. apply errs_in_bind; [by auto with go_errs|intros _ _].
  apply check_each_errs. intros b. unfold validatePostgresBundle.
  apply errs_in_bind; [|intros _ _; apply errs_in_bind; [|intros _ _]].
  - unfold validatePostgresBlock. auto with go_errs.
  - apply check_each_errs. intros t. unfold validatePostgresTransaction. auto 10 with go_errs.
  - apply check_each_errs. intros e. unfold validatePostgresEvent. auto with go_errs.
Qed.

(** ** Effect of the statements *)

Lemma canonicalHashQuery_rows db m n :
  table_rows db m -> canonical m ->
  canonicalHashQuery n db = (fun b => Some (array_bytes (bundle_hash b))) <$> m !! n.
Proof.
  intros Hr Hcan. unfold canonicalHashQuery.
  destruct (filter (fun a => barg_number a = n) (blocks db)) as [|a l] eqn:Hf; simpl.
  - destruct (m !! n) as [b|] eqn:Hb; [|done]. exfalso.
    assert (Hin : enc_block (Bundle_Block b) ∈ filter (fun a => barg_number a = n) (blocks db)).
    { apply list_elem_of_filter. split; [by apply (can_key _ Hcan)|]. rewrite (tr_blocks _ _ Hr).
      apply elem_of_rows. exists n, b. split; [done|]. by apply list_elem_of_singleton. }
    rewrite Hf in Hin. by apply elem_of_nil in Hin.
  - assert (Hin : a ∈ filter (fun a => barg_number a = n) (blocks db)) by (rewrite Hf; left).
    apply list_elem_of_filter in Hin as [Ha Hin]. rewrite (tr_blocks _ _ Hr) in Hin.
    apply elem_of_rows in Hin as (k & b & Hb & ->%list_elem_of_singleton). simpl in *.
    rewrite (can_key _ Hcan k b Hb) in Ha. subst k. by rewrite Hb.
Qed.

Lemma canonicalTipQuery_rows db m :
  table_rows db m -> canonical m ->
  exists tip, is_tip m tip /\ canonicalTipQuery db = (fun t => (Tip_Number t, Some (array_bytes (Tip_Hash t)))) <$> tip.
Proof.
  intros Hr Hcan. unfold canonicalTipQuery. set (less := fun x y => barg_number y <? barg_number x).
  assert (Hsw : StrictWeak less) by (split; intros *; unfold less; rewrite ?Z.ltb_irrefl, ?Z.ltb_lt; [done|lia..]).
  pose proof (order_by_sorted less (blocks db) Hsw) as Hs. 
  assert (Hp : order_by less (blocks db) ≡ₚ rows_of block_rows m) by (rewrite order_by_perm; apply Hr).
  destruct (order_by less (blocks db)) as [|a l]; simpl.
  - exists None. split; [|done]. simpl. apply map_empty. intros n. destruct (m !! n) as [b|] eqn:Hb; [|done].
    assert (Hin : enc_block (Bundle_Block b) ∈ []) by (rewrite Hp; apply elem_of_rows; exists n, b;
      split; [done|by apply list_elem_of_singleton]). by apply elem_of_nil in Hin.
  - assert (Hin : a ∈ rows_of block_rows m) by (rewrite <- Hp; left).
    apply elem_of_rows in Hin as (k & b & Hb & ->%list_elem_of_singleton).
    exists (Some (mkTip k (bundle_hash b))). simpl. rewrite (can_key _ Hcan k b Hb). split; [|done].
    exists b. split_and!; [done|done|]. intros n [c Hc].
    assert (Hin : enc_block (Bundle_Block c) ∈ rows_of block_rows m)
      by (apply elem_of_rows; exists n, c; split; [done|by apply list_elem_of_singleton]).
    rewrite <- Hp in Hin. apply elem_of_cons in Hin as [Heq|Hin].
    + apply (f_equal barg_number) in Heq. simpl in Heq.
      rewrite (can_key _ Hcan k b Hb), (can_key _ Hcan n c Hc) in Heq. lia.
    + apply StronglySorted_cons in Hs as [Ha _]. rewrite list.Forall_forall in Ha. specialize (Ha _ Hin).
      unfold less in Ha. apply Z.ltb_ge in Ha. simpl in Ha.
      by rewrite (can_key _ Hcan k b Hb), (can_key _ Hcan n c Hc) in Ha.
Qed.

Lemma table_tip_rows db m failed :
  table_rows db m -> canonical m -> (forall n b, m !! n = Some b -> storable b) ->
  exists tip, table_tip failed db = Ok tip /\ is_tip m tip /\
              (forall t, tip = Some t -> 0 <= Tip_Number t <= max_int64).
Proof.
  intros Hr Hcan Hst. destruct (canonicalTipQuery_rows db m Hr Hcan) as ([t|] & Ht & Hq).
  - exists (Some t). assert (Hb : 0 <= Tip_Number t <= max_int64).
    { destruct Ht as (b & Hb & _ & _). rewrite <- (can_key _ Hcan _ _ Hb). apply storable_number. eauto. }
    split_and!; [|done|by intros ? [= <-]]. unfold table_tip. rewrite Hq. simpl fmap. cbn iota beta.
    rewrite decodeHash_bytes, decodePostgresUint64_nonneg by lia. simpl. by destruct t.
  - exists None. split_and!; [|done|done]. unfold table_tip. by rewrite Hq.
Qed.

Lemma parent_check_rows u db m :
  checked u -> table_rows db (filter (fun kb => kept u kb.1) m) -> canonical (filter (fun kb => kept u kb.1) m) ->
  parent_check u db = Ok tt <-> parent_linked u m.
Proof.
  intros Hu Hr Hcan. unfold parent_check, parent_linked. destruct (Update_Blocks u) as [|first rest]; [naive_solver|].
  destruct (Z.eqb_spec (Update_ReplaceFrom u) (Update_RetainFrom u)) as [|Hne]; [naive_solver|].
  rewrite (canonicalHashQuery_rows _ _ _ Hr Hcan).
  assert (Hk : filter (fun kb => kept u kb.1) m !! (Update_ReplaceFrom u - 1) = m !! (Update_ReplaceFrom u - 1)).
  { destruct (m !! (Update_ReplaceFrom u - 1)) eqn:E.
    - apply map_lookup_filter_Some. split; [done|]. unfold kept. simpl. pose proof (ck_range _ Hu). lia.
    - apply map_lookup_filter_None. by left. }
  rewrite Hk. destruct (m !! (Update_ReplaceFrom u - 1)) as [p|]; simpl fmap; cbn iota beta.
  - cbn [mbind result_bind]. rewrite decodeHash_bytes. cbn [map_err mbind result_bind].
    rewrite reject_if_Ok, negb_false_iff, bool_decide_eq_true. simpl. naive_solver.
  - cbn [mbind result_bind]. split; [done|]. intros [?|[?|(? & ? & _ & ? & _)]]; done.
Qed.

(** ** The update on the tables *)

Lemma kept_canonical u m : canonical m -> canonical (filter (fun kb => kept u kb.1) m).
Proof.
  intros Hm. split.
  - intros n b [Hb _]%map_lookup_filter_Some. eauto using can_key.
  - intros n b [Hb _]%map_lookup_filter_Some. eauto using can_valid.
  - intros n b k [Hb Hn]%map_lookup_filter_Some Hk [c [Hc Hkk]%map_lookup_filter_Some].
    destruct (can_next _ Hm n b k Hb Hk ltac:(eauto)) as (d & Hd & ?). exists d. split; [|done].
    apply map_lookup_filter_Some. split; [done|]. unfold kept in *. simpl in *. lia.
  - intros n b n' b' h [Hb _]%map_lookup_filter_Some [Hb' _]%map_lookup_filter_Some. by apply (can_tx _ Hm).
Qed.

(** The unique columns stay unique. *)
Definition unique_keys (db : Tables) : Prop :=
  NoDup (targ_hash <$> transactions db) /\ NoDup (barg_hash <$> blocks db).

Lemma NoDup_snoc {A} (l : list A) x : NoDup l -> x ∉ l -> NoDup (l ++ [x]).
Proof.
  intros Hl Hx. apply NoDup_app. split_and!; [done| |apply NoDup_singleton].
  by intros y Hy ->%list_elem_of_singleton.
Qed.

Lemma exec_batch_unique sts db db' : exec_batch sts db = Ok db' -> unique_keys db -> unique_keys db'.
Proof.
  revert db. induction sts as [|s sts IH]; intros db; cbn [exec_batch]; [by intros [= <-]|].
  rewrite exec_insert_eq. destruct (constraint_holds s db) eqn:Hs; [|done]. cbn [mbind result_bind].
  intros He [Ht Hb]. apply (IH _ He). unfold unique_keys.
  destruct s as [a|a|a]; simpl in *; rewrite ?app_nil_r; [split; [done|]|split; [|done]|done];
    rewrite fmap_app; (apply NoDup_snoc; [done|]);
    unfold block_constraints, transaction_constraints in Hs; rewrite !andb_true_iff, !bool_decide_eq_true in Hs; tauto.
Qed.

Lemma exec_batch_returns sts db : returns (exec_batch sts db).
Proof.
  revert db. induction sts as [|s sts IH]; intros db; cbn [exec_batch]; [done|].
  rewrite exec_insert_eq. destruct (constraint_holds s db); [apply IH|done].
Qed.

Lemma rows_distinct {A B} (f : BlockBundle -> list A) (g : A -> B) m n b n' b' x y :
  NoDup (g <$> rows_of f m) -> m !! n = Some b -> m !! n' = Some b' -> x ∈ f b -> y ∈ f b' -> g x = g y -> n = n'.
Proof.
  intros Hnd Hb Hb' Hx Hy Hxy. destruct (decide (n = n')) as [|Hne]; [done|]. exfalso.
  rewrite <- (insert_delete_id m n b Hb), rows_of_insert in Hnd by apply lookup_delete_eq.
  rewrite fmap_app, NoDup_app in Hnd. destruct Hnd as (_ & Hdisj & _).
  apply (Hdisj (g x)); [by apply list_elem_of_fmap_2|]. rewrite Hxy. apply list_elem_of_fmap_2, elem_of_rows.
  exists n', b'. by rewrite lookup_delete_ne.
Qed.

Lemma different_chain_Ok u db :
  different_chain u db = Ok tt <-> forall r, r ∈ sync_state db -> sync_chain_id r = Update_ChainID u.
Proof.
  unfold different_chain, differentChainQuery. split.
  - destruct (filter _ _) as [|id l] eqn:Hf; [|done]. intros _ r Hr.
    destruct (decide (sync_chain_id r = Update_ChainID u)) as [|Hne]; [done|].
    assert (Hin : sync_chain_id r ∈ filter (fun id => id <> Update_ChainID u) (sync_chain_id <$> sync_state db))
      by (apply list_elem_of_filter; split; [done|by apply list_elem_of_fmap_2]).
    rewrite Hf in Hin. by apply elem_of_nil in Hin.
  - intros Hall. rewrite filter_none; [done|]. intros id (r & -> & Hr)%list_elem_of_fmap Hne. auto.
Qed.

Lemma upsert_sync u db m m' tip :
  checked u -> sync_matches (sync_state db) m -> different_chain u db = Ok tt -> is_tip m' tip ->
  (forall t, tip = Some t -> 0 <= Tip_Number t <= max_int64) ->
  exists row db', (sync_row_of u tip = Ok row) /\ upsertSyncStateQuery row db = Ok db' /\
    blocks db' = blocks db /\ transactions db' = transactions db /\ event_logs db' = event_logs db /\
    sync_state db' = [row] /\ sync_chain_id row = Update_ChainID u /\ sync_matches [row] m'.
Proof.
  intros Hu Hs Hd Htip Hb. rewrite different_chain_Ok in Hd. pose proof (ck_chain _ Hu) as Hid.
  set (row := mkSyncRow (Update_ChainID u) (Tip_Number <$> tip) ((fun t => array_bytes (Tip_Hash t)) <$> tip)
                (Update_SyncedAt u)). exists row.
  assert (Hrow : sync_row_of u tip = Ok row).
  { unfold sync_row_of, row. destruct tip as [t|]; [|done]. rewrite postgresInt64_small by naive_solver. done. }
  assert (Hcon : sync_constraints row = true).
  { unfold sync_constraints, row. simpl. rewrite (proj2 (Z.ltb_lt _ _)) by lia. destruct tip as [t|]; [|done].
    simpl. rewrite (proj2 (Z.leb_le _ _)) by naive_solver. simpl. by rewrite array_bytes_length. }
  unfold upsertSyncStateQuery. rewrite Hcon. eexists. split_and!; [done..| |done|by split; [simpl; lia|exists tip]].
  simpl. unfold sync_matches in Hs. destruct (sync_state db) as [|r0 [|]]; [done| |done].
  assert (sync_chain_id r0 = Update_ChainID u) as Hr0 by (apply Hd; left).
  rewrite bool_decide_true by (simpl; rewrite Hr0; left). simpl. by rewrite Hr0, Z.eqb_refl.
Qed.

(** The tables after the deletion and the inserts. *)
Lemma update_rows u db m db2 :
  db_state db m -> checked u ->
  parent_check u (deleteCanonicalRangeQuery (Update_ReplaceFrom u) (Update_RetainFrom u) db) = Ok tt ->
  exec_batch (Update_Blocks u ≫= bundle_statements)
    (deleteCanonicalRangeQuery (Update_ReplaceFrom u) (Update_RetainFrom u) db) = Ok db2 ->
  table_rows db2 (apply_update m u) /\ canonical (apply_update m u) /\ sync_state db2 = sync_state db /\
  (forall n b, apply_update m u !! n = Some b -> storable b) /\ unique_keys db2.
Proof.
  intros [Hr Hcan Hst Hpk Hsync] Hu Hpar Hex. pose proof (delete_rows db m u Hr Hcan) as Hdel.
  apply (parent_check_rows u _ m Hu Hdel (kept_canonical u m Hcan)) in Hpar.
  assert (Hnd : unique_keys db2).
  { apply (exec_batch_unique _ _ _ Hex). destruct Hpk as [Hpt Hpb]. split; simpl.
    - eapply sublist_NoDup; [exact Hpt|]. apply fmap_sublist, sublist_filter.
    - eapply sublist_NoDup; [exact Hpb|]. apply fmap_sublist, sublist_filter. }
  destruct (insert_rows u _ _ db2 (ck_contiguous _ Hu) Hdel) as [Hrows Hsy]; [|exact Hex|].
  { intros n [b [_ Hk]%map_lookup_filter_Some]. unfold kept in Hk. simpl in Hk. lia. }
  fold (apply_update m u) in Hrows. split_and!; [done| |done| |done].
  - apply canonical_update; [done|apply Hu|apply Hu|apply Hu|done|].
    intros n b n' b' h Hb Hb' (t & -> & Ht)%list_elem_of_fmap (t' & Heq & Ht')%list_elem_of_fmap.
    destruct Hnd as [Hnd _]. rewrite (tr_txs _ _ Hrows) in Hnd.
    eapply (rows_distinct tx_rows targ_hash _ n b n' b' (enc_tx t) (enc_tx t') Hnd Hb Hb');
      [by apply list_elem_of_fmap_2|by apply list_elem_of_fmap_2|]. simpl. by rewrite Heq.
  - intros n b Hb. rewrite apply_update_lookup in Hb by apply Hu. case_decide; [|case_decide; [eauto|done]].
    apply (ck_storable _ Hu). by eapply list_elem_of_lookup_2.
Qed.

Lemma update_tables_state u db m :
  db_state db m -> checked u ->
  match update_tables u db with
  | Ok db' => db_state db' (apply_update m u) /\
              (forall r, r ∈ sync_state db -> sync_chain_id r = Update_ChainID u) /\
              sync_chain_id <$> sync_state db' = [Update_ChainID u]
  | Err _ => True
  | _ => False
  end.
Proof.
  intros Hdb Hu. unfold update_tables. destruct (different_chain u db) as [[]| | |] eqn:Hd; simpl; try done;
    [|unfold different_chain in Hd; case_match; done..].
  destruct (parent_check u _) as [[]| | |] eqn:Hp; simpl; try done.
  2,3: unfold parent_check in Hp; repeat case_match; simpl in Hp; try done;
    unfold decodeHash in Hp; case_match; simpl in Hp; try done; by destruct (bool_decide _).
  destruct (exec_batch _ _) as [db2| | |] eqn:Hex; simpl; try done.
  2,3: by pose proof (exec_batch_returns (Update_Blocks u ≫= bundle_statements)
    (deleteCanonicalRangeQuery (Update_ReplaceFrom u) (Update_RetainFrom u) db)) as Hret; rewrite Hex in Hret.
  destruct (update_rows u db m db2 Hdb Hu Hp Hex) as (Hrows & Hcan & Hsy & Hst & Hnd).
  destruct (table_tip_rows db2 _ (wrapf "decode updated canonical tip: %w") Hrows Hcan Hst) as (tip & -> & Htip & Hb).
  simpl. assert (Hd2 : different_chain u db2 = Ok tt) by (rewrite different_chain_Ok, Hsy; by apply different_chain_Ok).
  destruct (upsert_sync u db2 m (apply_update m u) tip Hu) as (row & db' & -> & Hup & Hb1 & Ht1 & He1 & Hs1 & Hid & Hm1);
    [rewrite Hsy; apply Hdb|done..|]. simpl. rewrite Hup. simpl.
  split_and!; [|by apply different_chain_Ok|by rewrite Hs1; simpl; rewrite Hid].
  destruct Hrows. split; [split; by rewrite ?Hb1, ?Ht1, ?He1|done|done|by rewrite Ht1, Hb1|by rewrite Hs1].
Qed.

(** ** Updates that are accepted *)

Lemma numeric_78_ok o required : validateUint256 o required = Ok tt -> numeric_78 (postgresNumeric o) = true.
Proof.
  destruct o as [v|]; [|done]. simpl. rewrite reject_if_Ok, outside_uint256_false. intros Hv.
  assert (2 ^ 256 < 10 ^ 78) by done. rewrite Z.mul_1_r, (proj2 (Z.leb_le _ _)), (proj2 (Z.ltb_lt _ _)) by lia. done.
Qed.

(** [constraints] discharges a conjunction of column constraints. *)
Ltac constraints :=
  rewrite ?andb_true_iff, ?Z.leb_le, ?bool_decide_eq_true; split_and!; first [done | by eauto | int_lia].

Definition fresh_tx_row (db : Tables) (t : Transaction) : Prop :=
  (Some (array_bytes (Transaction_Hash t)) ∉ targ_hash <$> transactions db) /\
  ((Transaction_BlockNumber t, Transaction_Index t) ∉ tx_position <$> transactions db).

Lemma transaction_accepted db t :
  Transaction_typed t -> validatePostgresTransaction t = Ok tt -> is_Some (Transaction_Input t) ->
  Transaction_BlockNumber t ∈ barg_number <$> blocks db -> fresh_tx_row db t ->
  transaction_constraints db (enc_tx t) = true.
Proof.
  intros (_ & Hi & Hty & Hno & Hg) Hv Hin Hblk [Hh Hpos].
  unfold validatePostgresTransaction in Hv. rewrite !bind_reject_iff, !bind_Ok_iff in Hv.
  destruct Hv as (_ & _ & [] & Hval & Hrest). apply bind_Ok_iff in Hrest as ([] & Hgp & Hrest).
  apply bind_Ok_iff in Hrest as ([] & Hmf & Hmp). unfold transaction_constraints. simpl.
  rewrite (numeric_78_ok _ _ Hval), (numeric_78_ok _ _ Hgp), (numeric_78_ok _ _ Hmf), (numeric_78_ok _ _ Hmp).
  rewrite !array_bytes_length. unfold not_null.
  assert (Hrec : octets 20 (postgresAddress (Transaction_Recipient t)) = true)
    by (destruct (Transaction_Recipient t); simpl; [by rewrite array_bytes_length|done]).
  assert (Hvn : bool_decide (is_Some (postgresNumeric (Transaction_Value t))) = true)
    by (destruct (Transaction_Value t); [done|simpl in Hval; done]).
  rewrite Hrec, Hvn. constraints.
Qed.

Lemma exec_transactions n txs db :
  n ∈ barg_number <$> blocks db ->
  (forall t, t ∈ txs -> Transaction_typed t /\ validatePostgresTransaction t = Ok tt /\
     is_Some (Transaction_Input t) /\ Transaction_BlockNumber t = n /\ fresh_tx_row db t) ->
  NoDup (Transaction_Hash <$> txs) -> NoDup (Transaction_Index <$> txs) ->
  exec_batch ((fun t => InsertTransaction (enc_tx t)) <$> txs) db =
    Ok (appended ((fun t => InsertTransaction (enc_tx t)) <$> txs) db).
Proof.
  revert db. induction txs as [|t txs IH]; intros db Hn Htx; [by rewrite appended_nil|].
  rewrite !fmap_cons, !NoDup_cons. intros [Hh Hhs] [Hi His]. rewrite forall_elem_cons in Htx.
  destruct Htx as [(Hty & Hv & Hin & Hnum & Hfr) Htx]. cbn [exec_batch]. rewrite exec_insert_eq. cbn [constraint_holds].
  rewrite transaction_accepted by (done || by rewrite Hnum). cbn [mbind result_bind].
  rewrite (appended_cons _ (_ <$> txs)).
  apply IH; [simpl; by rewrite app_nil_r| |done|done].
  intros x Hx. destruct (Htx x Hx) as (? & ? & ? & Hxn & Hx1 & Hx2). split_and!; try done. split; simpl.
  - rewrite fmap_app, elem_of_app. intros [?|Heq%list_elem_of_singleton]; [done|]. simpl in Heq.
    injection Heq as Heq%byte_array_eq. apply Hh. rewrite <- Heq. by apply list_elem_of_fmap_2.
  - rewrite fmap_app, elem_of_app. intros [?|Heq%list_elem_of_singleton]; [done|]. unfold tx_position in Heq. simpl in Heq.
    injection Heq as _ Heq. apply Hi. rewrite <- Heq. by apply list_elem_of_fmap_2.
Qed.

Lemma exec_events n evs db :
  n ∈ barg_number <$> blocks db ->
  (forall e, e ∈ evs -> Event_typed e /\ is_Some (Event_Data e) /\ Event_BlockNumber e = n /\
     (length (Event_Topics e) <= 4)%nat /\ (Some (array_bytes (Event_TransactionHash e)) ∈ targ_hash <$> transactions db) /\
     ((n, Event_LogIndex e) ∉ event_position <$> event_logs db)) ->
  NoDup (Event_LogIndex <$> evs) ->
  exec_batch ((fun e => InsertEvent (enc_event e)) <$> evs) db =
    Ok (appended ((fun e => InsertEvent (enc_event e)) <$> evs) db).
Proof.
  revert db. induction evs as [|e evs IH]; intros db Hn Hev; [by rewrite appended_nil|].
  rewrite !fmap_cons, NoDup_cons. intros [Hl Hls]. rewrite forall_elem_cons in Hev.
  destruct Hev as [((_ & Hti & Hli) & Hdata & Hnum & Htop & Htx & Hpos) Hev]. cbn [exec_batch].
  rewrite exec_insert_eq. cbn [constraint_holds]. assert (Hok : event_constraints db (enc_event e) = true).
  { unfold event_constraints, event_position, not_null. simpl. rewrite Hnum, array_bytes_length, length_fmap.
    rewrite (proj2 (Nat.leb_le _ _)) by done. constraints. }
  rewrite Hok. cbn [mbind result_bind].
  rewrite (appended_cons _ (_ <$> evs)).
  apply IH; [simpl; by rewrite app_nil_r| |done].
  intros x Hx. destruct (Hev x Hx) as (? & ? & ? & ? & ? & Hxp). split_and!; try done; simpl; [by rewrite app_nil_r|].
  rewrite fmap_app, elem_of_app. intros [?|Heq%list_elem_of_singleton]; [done|]. unfold event_position in Heq. simpl in Heq.
  injection Heq as _ Heq. apply Hl. rewrite <- Heq. by apply list_elem_of_fmap_2.
Qed.

(** Input and data are not nil, as [FetchBlock] leaves them. *)
Definition non_nil (b : BlockBundle) : Prop :=
  (forall t, t ∈ Bundle_Transactions b -> is_Some (Transaction_Input t)) /\
  (forall e, e ∈ Bundle_Events b -> is_Some (Event_Data e)).

(** Every block of the map is stored under its number. *)
Definition well_keyed (m : bundle_map) : Prop := forall n b, m !! n = Some b -> bundle_number b = n /\ bundle_valid b.

Lemma rows_numbers m n :
  well_keyed m -> m !! n = None ->
  (n ∉ barg_number <$> rows_of block_rows m) /\
  (forall a, a ∈ rows_of tx_rows m -> targ_blockNumber a <> n) /\
  (forall a, a ∈ rows_of event_rows m -> earg_blockNumber a <> n).
Proof.
  intros Hk Hn. split_and!.
  - intros (a & -> & (k & b & Hb & ->%list_elem_of_singleton)%elem_of_rows)%list_elem_of_fmap. simpl in Hn.
    rewrite (proj1 (Hk k b Hb)) in Hn. congruence.
  - intros a (k & b & Hb & (t & -> & [i Hi]%list_elem_of_lookup)%list_elem_of_fmap)%elem_of_rows. simpl.
    destruct (Hk k b Hb) as [Hkb Hv]. destruct (bv_tx _ Hv i t Hi) as (-> & _). congruence.
  - intros a (k & b & Hb & (e & -> & He)%list_elem_of_fmap)%elem_of_rows. simpl.
    destruct (Hk k b Hb) as [Hkb Hv]. destruct (bv_event _ Hv e He) as (-> & _). congruence.
Qed.

Lemma block_accepted db b :
  storable b -> bundle_valid b -> bundle_number b ∉ barg_number <$> blocks db ->
  Some (array_bytes (bundle_hash b)) ∉ barg_hash <$> blocks db ->
  block_constraints db (enc_block (Bundle_Block b)) = true.
Proof.
  intros [((Hn & Ht & Hgl & Hgu) & _) Hv] Hbv Hnum Hhash. unfold validatePostgresBundle, validatePostgresBlock in Hv.
  apply bind_Ok_iff in Hv as ([] & Hb & _). rewrite !bind_reject_iff in Hb. destruct Hb as (_ & _ & Hfee).
  pose proof (bv_count _ Hbv) as Hc. unfold block_constraints, not_null. simpl.
  rewrite !array_bytes_length, (numeric_78_ok _ _ Hfee). constraints.
Qed.

Lemma exec_bundle b db m :
  table_rows db m -> well_keyed m -> m !! bundle_number b = None ->
  storable b -> bundle_valid b -> non_nil b ->
  (forall n c, m !! n = Some c -> bundle_hash c <> bundle_hash b) ->
  (forall n c h, m !! n = Some c -> contains_tx b h -> ~ contains_tx c h) ->
  exec_batch (bundle_statements b) db = Ok (appended (bundle_statements b) db).
Proof.
  intros Hr Hk Hn Hst Hbv [Hnt Hne] Hhash Htx. destruct (rows_numbers m _ Hk Hn) as (Hbn & Htn & Hen).
  pose proof Hst as [(_ & Htt & Het) Hv]. rewrite list.Forall_forall in Htt. rewrite list.Forall_forall in Het.
  unfold validatePostgresBundle in Hv. apply bind_Ok_iff in Hv as ([] & _ & Hv).
  apply bind_Ok_iff in Hv as ([] & Hvt & _). rewrite check_each_Ok in Hvt.
  assert (Hblk : block_constraints db (enc_block (Bundle_Block b)) = true).
  { apply block_accepted; [done|done|by rewrite (tr_blocks _ _ Hr)|]. rewrite (tr_blocks _ _ Hr).
    intros (a & Ha & (k & c & Hc & ->%list_elem_of_singleton)%elem_of_rows)%list_elem_of_fmap. simpl in Ha.
    injection Ha as Ha%byte_array_eq. by apply (Hhash k c Hc). }
  unfold bundle_statements. cbn [exec_batch]. rewrite exec_insert_eq. cbn [constraint_holds]. rewrite Hblk.
  cbn [mbind result_bind]. rewrite exec_batch_app.
  rewrite (appended_cons _ (_ ++ _)), appended_app.
  rewrite (exec_transactions (bundle_number b)).
  - cbn [mbind result_bind]. apply (exec_events (bundle_number b)); [| |apply Hbv].
    + simpl. rewrite !fmap_app, !elem_of_app. left. right. by apply list_elem_of_singleton.
    + intros e He. destruct (bv_event _ Hbv e He) as (Hen' & _ & Htop & t & Ht & Hth & _).
      split_and!; [auto..| |].
      * simpl. rewrite fmap_app, elem_of_app. right. rewrite <- Hth.
        apply list_elem_of_fmap. exists (enc_tx t). split; [done|]. apply list_elem_of_omap.
        exists (InsertTransaction (enc_tx t)). split; [|done]. by apply (list_elem_of_fmap_2 (fun t => InsertTransaction (enc_tx t))).
      * simpl. rewrite fmap_app, elem_of_app. intros [(a & Ha & Hin)%list_elem_of_fmap|Hin].
        -- rewrite app_nil_r, (tr_events _ _ Hr) in Hin. injection Ha as Ha _. by apply (Hen a Hin).
        -- apply list_elem_of_fmap in Hin as (a & _ & (s & Hs & Ha)%list_elem_of_omap).
           apply list_elem_of_fmap in Hs as (t' & -> & _). done.
  - simpl. rewrite fmap_app, elem_of_app. right. by apply list_elem_of_singleton.
  - intros t Ht. pose proof Ht as [i Hi]%list_elem_of_lookup. destruct (bv_tx _ Hbv i t Hi) as (Htb & _ & _).
    split_and!; [auto..|]. split; simpl; rewrite app_nil_r, (tr_txs _ _ Hr).
    + intros (a & Ha & (k & c & Hc & (t' & -> & Ht')%list_elem_of_fmap)%elem_of_rows)%list_elem_of_fmap. simpl in Ha.
      injection Ha as Ha%byte_array_eq. apply (Htx k c (Transaction_Hash t) Hc); [by apply list_elem_of_fmap_2|].
      rewrite Ha. by apply list_elem_of_fmap_2.
    + intros (a & Ha & Hin)%list_elem_of_fmap. injection Ha as Ha _. apply (Htn a Hin); congruence.
  - apply Hbv.
  - apply NoDup_fmap_2_strong; [|eapply NoDup_fmap_1, Hbv].
    intros x y [i Hi]%list_elem_of_lookup [j Hj]%list_elem_of_lookup Hxy.
    destruct (bv_tx _ Hbv i x Hi) as (_ & _ & Hxi), (bv_tx _ Hbv j y Hj) as (_ & _ & Hyj).
    assert (i = j) by lia. congruence.
Qed.

Lemma bundle_rows b db m :
  table_rows db m -> m !! bundle_number b = None ->
  table_rows (appended (bundle_statements b) db) (<[bundle_number b := b]> m).
Proof.
  intros [Hb Ht He] Hn. pose proof (omap_block_statements [b]) as H1. pose proof (omap_tx_statements [b]) as H2.
  pose proof (omap_event_statements [b]) as H3.
  assert (Hone : [b] ≫= bundle_statements = bundle_statements b) by apply app_nil_r.
  rewrite Hone in H1, H2, H3. split; unfold appended; cbn [blocks transactions event_logs].
  - rewrite H1, rows_of_insert, Hb, Permutation_app_comm by done. done.
  - rewrite H2, rows_of_insert, Ht, Permutation_app_comm by done. by rewrite bind_cons, app_nil_r.
  - rewrite H3, rows_of_insert, He, Permutation_app_comm by done. by rewrite bind_cons, app_nil_r.
Qed.

Definition distinct_txs (m : bundle_map) : Prop :=
  forall n b n' b' h, m !! n = Some b -> m !! n' = Some b' -> contains_tx b h -> contains_tx b' h -> n = n'.

Lemma insert_blocks_subset bs m :
  NoDup ((fun b => bundle_number b) <$> bs) -> (forall b, b ∈ bs -> m !! bundle_number b = None) ->
  m ⊆ insert_blocks m bs.
Proof.
  revert m. induction bs as [|b bs IH]; intros m; [done|]. rewrite fmap_cons, NoDup_cons, forall_elem_cons.
  intros [Hnot Hnd] [Hb Hbs]. cbn [insert_blocks foldl]. fold (insert_blocks (<[bundle_number b := b]> m) bs).
  etransitivity; [by apply (insert_subseteq m (bundle_number b) b)|]. apply IH; [done|].
  intros c Hc. rewrite lookup_insert_ne; [by apply Hbs|]. intros Heq. apply Hnot. rewrite Heq.
  by apply (list_elem_of_fmap_2 (fun b => bundle_number b)).
Qed.

Lemma exec_bundles bs db m :
  table_rows db m -> well_keyed m ->
  NoDup ((fun b => bundle_number b) <$> bs) -> (forall b, b ∈ bs -> m !! bundle_number b = None) ->
  (forall b, b ∈ bs -> storable b /\ bundle_valid b /\ non_nil b) ->
  distinct_hashes (insert_blocks m bs) -> distinct_txs (insert_blocks m bs) ->
  exec_batch (bs ≫= bundle_statements) db = Ok (appended (bs ≫= bundle_statements) db).
Proof.
  revert db m. induction bs as [|b bs IH]; intros db m Hr Hk; [by rewrite appended_nil|].
  intros Hall Hfr. pose proof (insert_blocks_subset (b :: bs) m Hall Hfr) as Hsub. revert Hall Hfr.
  rewrite fmap_cons, NoDup_cons, !forall_elem_cons.
  intros [Hnot Hnd] [Hb Hbs] [(Hst & Hbv & Hnn) Hall] Hh Ht. cbn [insert_blocks foldl] in Hh, Ht, Hsub.
  fold (insert_blocks (<[bundle_number b := b]> m) bs) in Hh, Ht, Hsub.
  assert (Hbs' : forall c, c ∈ bs -> <[bundle_number b := b]> m !! bundle_number c = None).
  { intros c Hc. rewrite lookup_insert_ne; [by apply Hbs|]. intros Heq. apply Hnot. rewrite Heq.
    by apply (list_elem_of_fmap_2 (fun b => bundle_number b)). }
  assert (Hin : insert_blocks (<[bundle_number b := b]> m) bs !! bundle_number b = Some b).
  { eapply lookup_weaken; [|by apply insert_blocks_subset]. apply lookup_insert_eq. }
  rewrite bind_cons, exec_batch_app, (exec_bundle b db m); try done.
  - cbn [mbind result_bind]. rewrite appended_app. apply (IH _ (<[bundle_number b := b]> m)); try done.
    + by apply bundle_rows.
    + intros n c [[<- <-]|[_ Hc]]%lookup_insert_Some; [done|]. by apply Hk.
  - intros n c Hc Heq. assert (n = bundle_number b); [|congruence].
    eapply Hh; [by eapply lookup_weaken|exact Hin|done].
  - intros n c h Hc Hbh Hch. assert (n = bundle_number b); [|congruence].
    eapply Ht; [by eapply lookup_weaken|exact Hin|done|done].
Qed.

(** What the contract asks of an update: the chain matches, the retained parent is
    stored, and the updated segment is one chain with distinct blocks. *)
Record acceptable (u : CanonicalUpdate) (db : Tables) (m : bundle_map) : Prop := {
  ac_chain r : r ∈ sync_state db -> sync_chain_id r = Update_ChainID u;
  ac_parent : Update_Blocks u = [] \/ Update_ReplaceFrom u = Update_RetainFrom u \/
              is_Some (m !! (Update_ReplaceFrom u - 1));
  ac_canonical : canonical (apply_update m u);
  ac_hashes : distinct_hashes (apply_update m u)
}.

Lemma acceptable_parent u db m : checked u -> acceptable u db m -> parent_linked u m.
Proof.
  intros Hu Ha. destruct (ac_parent _ _ _ Ha) as [?|[?|[p Hp]]]; [by left|by right; left|]. unfold parent_linked.
  destruct (Update_Blocks u) as [|first rest] eqn:Hbs; [by left|]. right.
  destruct (decide (Update_ReplaceFrom u = Update_RetainFrom u)); [by left|]. right. exists first, p.
  split_and!; [done|done|]. pose proof (ck_range _ Hu) as Hr. pose proof (ck_contiguous _ Hu) as Hc.
  assert (Hlow : apply_update m u !! (Update_ReplaceFrom u - 1) = Some p).
  { rewrite apply_update_lookup by done. rewrite decide_False by lia. rewrite decide_True by (unfold kept; lia). done. }
  assert (Hfirst : apply_update m u !! Update_ReplaceFrom u = Some first).
  { rewrite apply_update_lookup by done. rewrite Hbs, decide_True by (simpl; lia). by rewrite Z.sub_diag. }
  destruct (can_next _ (ac_canonical _ _ _ Ha) _ _ (Update_ReplaceFrom u) Hlow ltac:(lia) ltac:(eauto)) as (c & Hc' & Hpar).
  replace (Update_ReplaceFrom u - 1 + 1) with (Update_ReplaceFrom u) in Hc' by lia. congruence.
Qed.

Lemma update_tables_accepts u db m :
  db_state db m -> checked u -> acceptable u db m -> (forall b, b ∈ Update_Blocks u -> non_nil b) ->
  exists db', update_tables u db = Ok db'.
Proof.
  intros Hdb Hu Ha Hnn. pose proof (acceptable_parent u db m Hu Ha) as Hlink. pose proof Hdb as [Hr Hcan Hst Hpk Hsync].
  pose proof (delete_rows db m u Hr Hcan) as Hdel. pose proof (kept_canonical u m Hcan) as Hkc.
  assert (Hd : different_chain u db = Ok tt) by (apply different_chain_Ok, Ha).
  assert (Hp : parent_check u (deleteCanonicalRangeQuery (Update_ReplaceFrom u) (Update_RetainFrom u) db) = Ok tt)
    by by apply (parent_check_rows u _ m Hu Hdel Hkc).
  destruct (contiguous_numbers u (ck_contiguous _ Hu)) as [Hnd Hge].
  assert (Hfresh : forall b, b ∈ Update_Blocks u -> filter (fun kb => kept u kb.1) m !! bundle_number b = None).
  { intros b Hb. apply map_lookup_filter_None. right. intros c _ Hk. unfold kept in Hk. simpl in Hk.
    specialize (Hge b Hb). lia. }
  assert (Hex := exec_bundles (Update_Blocks u) _ _ Hdel).
  assert (Hnew : forall b, b ∈ Update_Blocks u -> apply_update m u !! bundle_number b = Some b).
  { intros b [i Hi]%list_elem_of_lookup. pose proof (lookup_lt_Some _ _ _ Hi).
    rewrite apply_update_lookup, (ck_contiguous _ Hu _ _ Hi) by apply Hu. rewrite decide_True by lia.
    by replace (Z.to_nat _) with i by lia. }
  specialize (Hex ltac:(intros n b Hb; split; [by apply (can_key _ Hkc)|by apply (can_valid _ Hkc n)]) Hnd Hfresh).
  specialize (Hex ltac:(intros b Hb; split_and!; [by apply Hu|by eapply can_valid, Hnew; [apply Ha|]|by apply Hnn])
                (ac_hashes _ _ _ Ha) (can_tx _ (ac_canonical _ _ _ Ha))).
  destruct (update_rows u db m _ Hdb Hu Hp Hex) as (Hrows & Hcan2 & Hsy & Hst2 & _).
  unfold update_tables. rewrite Hd. cbn [mbind result_bind]. rewrite Hp. cbn [mbind result_bind].
  rewrite Hex. cbn [mbind result_bind map_err].
  destruct (table_tip_rows _ _ (wrapf "decode updated canonical tip: %w") Hrows Hcan2 Hst2) as (tip & -> & Htip & Hbnd).
  cbn [mbind result_bind]. destruct (upsert_sync u (appended (Update_Blocks u ≫= bundle_statements)
    (deleteCanonicalRangeQuery (Update_ReplaceFrom u) (Update_RetainFrom u) db)) m (apply_update m u) tip Hu)
    as (row & db' & -> & Hup & _); [done|done|done|done|]. cbn [mbind result_bind]. rewrite Hup. by eexists.
Qed.

Lemma distinct_hashes_rows db m : table_rows db m -> unique_keys db -> distinct_hashes m.
Proof.
  intros Hr [_ Hnd] n b n' b' Hb Hb' Hh. rewrite (tr_blocks _ _ Hr) in Hnd.
  eapply (rows_distinct block_rows barg_hash _ n b n' b' _ _ Hnd Hb Hb'); [by apply list_elem_of_singleton..|].
  simpl. by rewrite Hh.
Qed.

Lemma exec_non_nil bs db db' b :
  exec_batch (bs ≫= bundle_statements) db = Ok db' -> b ∈ bs -> non_nil b.
Proof.
  intros [Hc _]%exec_batch_Ok Hb.
  assert (Hin : forall s, s ∈ bundle_statements b -> exists db0, constraint_holds s db0 = true).
  { intros s Hs. assert (Hs' : s ∈ bs ≫= bundle_statements) by (apply list_elem_of_bind; eauto).
    apply list_elem_of_lookup in Hs' as [i Hi]. eauto. }
  split.
  - intros t Ht. destruct (Hin (InsertTransaction (enc_tx t))) as [db0 H0'].
    + unfold bundle_statements. right. apply elem_of_app. left.
      by apply (list_elem_of_fmap_2 (fun t => InsertTransaction (enc_tx t))).
    + simpl in H0'. unfold transaction_constraints, not_null in H0'.
      rewrite !andb_true_iff, !bool_decide_eq_true in H0'. tauto.
  - intros e He. destruct (Hin (InsertEvent (enc_event e))) as [db0 H0'].
    + unfold bundle_statements. right. apply elem_of_app. right.
      by apply (list_elem_of_fmap_2 (fun e => InsertEvent (enc_event e))).
    + simpl in H0'. unfold event_constraints, not_null in H0'.
      rewrite !andb_true_iff, !bool_decide_eq_true in H0'. tauto.
Qed.

Lemma update_tables_acceptable u db m db' :
  db_state db m -> checked u -> update_tables u db = Ok db' -> acceptable u db m.
Proof.
  intros Hdb Hu Hup. pose proof (update_tables_state u db m Hdb Hu) as Hst. rewrite Hup in Hst.
  destruct Hst as (Hdb' & Hch & _). unfold update_tables in Hup.
  apply bind_Ok_iff in Hup as ([] & _ & Hup). apply bind_Ok_iff in Hup as ([] & Hp & Hup).
  clear Hup. split.
  - exact Hch.
  - apply (parent_check_rows u _ m Hu) in Hp;
      [|by apply delete_rows; apply Hdb|by apply kept_canonical, Hdb]. unfold parent_linked in Hp. naive_solver.
  - apply Hdb'.
  - eapply distinct_hashes_rows; apply Hdb'.
Qed.

Lemma update_tables_non_nil u db db' b : update_tables u db = Ok db' -> b ∈ Update_Blocks u -> non_nil b.
Proof.
  unfold update_tables. intros Hup. apply bind_Ok_iff in Hup as ([] & _ & Hup).
  apply bind_Ok_iff in Hup as ([] & _ & Hup). apply bind_Ok_iff in Hup as (db2 & Hex%map_err_Ok & _).
  by apply (exec_non_nil _ _ _ _ Hex).
Qed.
End Store.
