(* ===== verification/PostgresView.v ===== *)
(** * The segment a database holds

    [pg_view] reads the blocks back from the tables, as the queries do; for tables in
    the invariant it is the stored segment with time stamps in the column's precision,
    empty byte strings as nil and events by log index ([pg_stored]). *)
From S2P Require Import Prelude Errors Domain Validate Store Memory MemoryQueries Codec Postgres PostgresTx PostgresRows PostgresStore.
From stdpp Require Import prelude gmap sorting list strings.
From Stdlib Require Import ZArith Lia.

Local Open Scope Z_scope.

Definition value_of {A} (r : result A) : option A := match r with Ok a => Some a | _ => None end.

Section Order.
Context `{PostgresEngine}.

(** With distinct keys the engine has no choice. *)
Lemma order_by_eq {A} (less : A -> A -> bool) l l' :
  StrictWeak less -> l ≡ₚ l' -> StronglySorted (fun x y => less y x = false) l' ->
  (forall x y, x ∈ l' -> y ∈ l' -> less x y = false -> less y x = false -> x = y) ->
  order_by less l = l'.
Proof.
  intros Hsw Hp Hs Hanti. apply (StronglySorted_unique_strong (fun x y => less y x = false)).
  - intros x y Hx Hy Hxy Hyx. rewrite order_by_perm, Hp in Hx. auto.
  - by apply order_by_sorted.
  - exact Hs.
  - by rewrite order_by_perm.
Qed.

Lemma order_by_key {A} (key : A -> Z) l l' :
  l ≡ₚ l' -> StronglySorted (fun x y => key x < key y) l' -> order_by (fun x y => key x <? key y) l = l'.
Proof.
  intros Hp Hs. apply order_by_eq; [apply key_less_strict_weak|done| |].
  - eapply StronglySorted_impl; [|exact Hs]. intros x y Hxy. simpl in Hxy. apply Z.ltb_ge. lia.
  - intros x y Hx Hy Hxy Hyx. apply Z.ltb_ge in Hxy, Hyx.
    assert (Hnd : NoDup (key <$> l')).
    { clear -Hs. induction Hs as [|a l Hs IH Ha]; [constructor|]. rewrite fmap_cons. constructor; [|done].
      intros (x & Hx & Hin)%list_elem_of_fmap. rewrite list.Forall_forall in Ha. specialize (Ha x Hin). simpl in Ha. lia. }
    eapply (NoDup_fmap_inj_on key); [exact Hnd|done|done|lia].
Qed.

Lemma order_by_strict {A} (key : A -> Z) l :
  NoDup (key <$> l) -> StronglySorted (fun x y => key x < key y) (order_by (fun x y => key x <? key y) l).
Proof.
  rewrite <- (order_by_perm (fun x y => key x <? key y) l) at 1.
  pose proof (order_by_sorted _ l (key_less_strict_weak key)) as Hs.
  induction Hs as [|a k Hs IH Ha]; [constructor|]. rewrite fmap_cons. intros [Hna Hnd]%NoDup_cons.
  constructor; [auto|]. rewrite list.Forall_forall in *. intros x Hx. specialize (Ha x Hx). apply Z.ltb_ge in Ha.
  assert (key x <> key a); [|lia]. intros Heq. apply Hna. rewrite <- Heq. by apply list_elem_of_fmap_2.
Qed.

(** Sorting commutes with a map that keeps the key. *)
Lemma order_by_fmap {A B} (f : A -> B) (ka : A -> Z) (kb : B -> Z) l :
  (forall x, kb (f x) = ka x) -> NoDup (ka <$> l) ->
  order_by (fun x y => kb x <? kb y) (f <$> l) = f <$> order_by (fun x y => ka x <? ka y) l.
Proof.
  intros Hk Hnd. apply order_by_key; [by rewrite order_by_perm|].
  pose proof (order_by_strict ka l Hnd) as Hs. induction Hs as [|a k Hs IH Ha]; [constructor|].
  rewrite fmap_cons. constructor; [done|]. rewrite Forall_fmap. eapply Forall_impl; [exact Ha|].
  intros x Hx. simpl. by rewrite !Hk.
Qed.
End Order.

(** ** The view *)
Section View.
Context `{PostgresEngine}.

Definition events_of (number : Z) (db : Tables) : list event_args :=
  order_by (fun x y => earg_logIndex x <? earg_logIndex y)
    (filter (fun a => earg_blockNumber a = number) (event_logs db)).

Definition bundle_of (db : Tables) (a : block_args) : BlockBundle :=
  mkBundle (default zero_block (value_of (postgresBlockRow_decode (read_block a))))
    (omap (fun t => value_of (postgresTransactionRow_decode (read_transaction (barg_hash a) t)))
       (transactions_of (barg_number a) db))
    (omap (fun e => value_of (postgresEventRow_decode (read_event (barg_hash a) e)))
       (events_of (barg_number a) db)).

Definition pg_view (db : Tables) : bundle_map :=
  list_to_map ((fun a => (barg_number a, bundle_of db a)) <$> blocks db).

(** How a bundle looks after it was stored. *)
Definition pg_stored (b : BlockBundle) : BlockBundle :=
  mkBundle (with_indexedAt (Bundle_Block b) (db_time (Block_IndexedAt (Bundle_Block b))))
    (cloneTransaction <$> Bundle_Transactions b)
    (cloneEvent <$> order_by log_index_less (Bundle_Events b)).

(** ** Rows of one block *)

Lemma rows_of_block {A} (f : BlockBundle -> list A) (number : A -> Z) m n b :
  (forall k c a, m !! k = Some c -> a ∈ f c -> number a = k) -> m !! n = Some b ->
  filter (fun a => number a = n) (rows_of f m) ≡ₚ f b.
Proof.
  intros Hf Hb. rewrite (filter_rows f (fun kb => kb.1 = n)).
  - replace (filter (fun kb => kb.1 = n) m) with ({[n := b]} : bundle_map).
    + unfold rows_of. rewrite map_to_list_singleton. simpl. by rewrite app_nil_r.
    + apply map_eq. intros k. destruct (decide (k = n)) as [->|Hne].
      * rewrite lookup_singleton_eq. symmetry. by apply map_lookup_filter_Some.
      * rewrite lookup_singleton_ne by done. symmetry. apply map_lookup_filter_None. right. by intros c _.
  - intros k c a Hc Ha. simpl. by rewrite (Hf k c a Hc Ha).
Qed.

Context (db : Tables) (m : bundle_map).
Hypothesis Hdb : db_state db m.

Lemma transactions_of_rows n b : m !! n = Some b -> transactions_of n db = tx_rows b.
Proof.
  intros Hb. pose proof Hdb as [Hr Hcan _ _ _]. unfold transactions_of.
  apply order_by_key.
  - rewrite (tr_txs _ _ Hr). apply (rows_of_block tx_rows targ_blockNumber); [|done].
    intros k c a. by apply tx_row_number.
  - pose proof (bv_tx _ (can_valid _ Hcan n b Hb)) as Htx. unfold tx_rows.
    assert (Hgen : forall i l, (forall j t, l !! j = Some t -> Transaction_Index t = Z.of_nat (i + j)) ->
      StronglySorted (fun x y => targ_index x < targ_index y) (enc_tx <$> l)).
    { intros i l. revert i. induction l as [|t l IH]; intros i Hl; [constructor|]. rewrite fmap_cons. constructor.
      - apply (IH (S i)). intros j t' Hj. rewrite (Hl (S j) t' Hj). lia.
      - rewrite Forall_fmap, list.Forall_forall. intros t' [j Hj]%list_elem_of_lookup. simpl.
        rewrite (Hl 0%nat t eq_refl), (Hl (S j) t' Hj). lia. }
    apply (Hgen 0%nat). intros j t Hj. by destruct (Htx j t Hj) as (_ & _ & ->).
Qed.

Lemma events_of_rows n b : m !! n = Some b -> events_of n db = enc_event <$> order_by log_index_less (Bundle_Events b).
Proof.
  intros Hb. pose proof Hdb as [Hr Hcan _ _ _]. unfold events_of.
  pose proof (bv_logs _ (can_valid _ Hcan n b Hb)) as Hnd.
  rewrite <- (order_by_fmap enc_event Event_LogIndex earg_logIndex (Bundle_Events b)) by done.
  assert (Hp : filter (fun a => earg_blockNumber a = n) (event_logs db) ≡ₚ event_rows b).
  { rewrite (tr_events _ _ Hr). apply (rows_of_block event_rows earg_blockNumber); [|done].
    intros k c a. by apply event_row_number. }
  apply order_by_key; [by rewrite Hp, order_by_perm|]. apply order_by_strict. unfold event_rows.
  by rewrite <- list_fmap_compose.
Qed.

(** ** Decoding *)

Lemma storable_fields b :
  storable b -> bundle_valid b ->
  postgresBlockRow_decode (read_block (enc_block (Bundle_Block b))) = Ok (Bundle_Block (pg_stored b)) /\
  (forall t, t ∈ Bundle_Transactions b ->
     postgresTransactionRow_decode (read_transaction (Some (array_bytes (bundle_hash b))) (enc_tx t)) =
       Ok (cloneTransaction t)) /\
  (forall e, e ∈ Bundle_Events b ->
     postgresEventRow_decode (read_event (Some (array_bytes (bundle_hash b))) (enc_event e)) = Ok (cloneEvent e)).
Proof.
  intros Hs Hbv. pose proof (storable_number b Hs) as Hn. destruct Hs as [(Hbt & Htt & Het) Hv].
  rewrite list.Forall_forall in Htt. rewrite list.Forall_forall in Het.
  unfold validatePostgresBundle in Hv. apply bind_Ok_iff in Hv as ([] & Hb & Hv).
  apply bind_Ok_iff in Hv as ([] & Htx & Hev). rewrite check_each_Ok in Htx. rewrite check_each_Ok in Hev.
  split_and!.
  - destruct (block_roundtrip db_time _ Hbt ltac:(rewrite (bv_count _ Hbv); lia) Hb) as (a & Ha & Hdec).
    rewrite <- (queueBlock_enc _ _ Ha). apply Hdec. split; try done. apply db_numeric_column.
  - intros t Ht. destruct (transaction_roundtrip t (Htt t Ht) (Htx t Ht)) as (a & Ha & Hdec).
    rewrite <- (queueTransaction_enc _ _ Ha). apply Hdec. pose proof Ht as [i Hi]%list_elem_of_lookup.
    destruct (bv_tx _ Hbv i t Hi) as (_ & -> & _). split; try done; apply db_numeric_column.
  - intros e He. destruct (bv_event _ Hbv e He) as (Hnum & Hh & Htop & _).
    destruct (event_roundtrip e (Het e He) ltac:(lia) Htop (Hev e He)) as (a & Ha & Hdec).
    rewrite <- (queueEvent_enc _ _ Ha). apply Hdec. rewrite Hh. done.
Qed.

Lemma omap_all {A B C} (f : A -> B) (g : A -> C) (h : B -> option C) (l : list A) :
  (forall x, x ∈ l -> h (f x) = Some (g x)) -> omap h (f <$> l) = g <$> l.
Proof.
  induction l as [|x l IH]; [done|]. rewrite forall_elem_cons. intros [Hx Hl]. simpl. rewrite Hx. f_equal. auto.
Qed.

Lemma bundle_of_rows n b : m !! n = Some b -> bundle_of db (enc_block (Bundle_Block b)) = pg_stored b.
Proof.
  intros Hb. pose proof Hdb as [Hr Hcan Hst _ _]. pose proof (can_key _ Hcan n b Hb) as Hn.
  destruct (storable_fields b (Hst n b Hb) (can_valid _ Hcan n b Hb)) as (Hblk & Htx & Hev).
  unfold bundle_of. rewrite Hblk. cbn [barg_number enc_block barg_hash]. rewrite Hn, (transactions_of_rows n b Hb), (events_of_rows n b Hb).
  unfold pg_stored at 2. f_equal.
  - apply omap_all. intros t Ht. by rewrite Htx.
  - apply omap_all. intros e He. rewrite order_by_perm in He. by rewrite Hev.
Qed.

Lemma pg_view_stored : pg_view db = pg_stored <$> m.
Proof.
  pose proof Hdb as [Hr Hcan _ _ _]. apply map_eq. intros n. unfold pg_view. rewrite lookup_fmap.
  assert (Hnd : NoDup (((fun a => (barg_number a, bundle_of db a)) <$> blocks db).*1)).
  { rewrite <- list_fmap_compose. simpl.
    enough (NoDup (barg_number <$> blocks db)) by done.
    rewrite (tr_blocks _ _ Hr). unfold rows_of.
    assert (Heq : forall l : list (Z * BlockBundle), (forall k c, (k, c) ∈ l -> bundle_number c = k) ->
      barg_number <$> (l.*2 ≫= block_rows) = l.*1).
    { intros l. induction l as [|[k c] l IH]; [done|]. intros Hl. simpl. f_equal; [apply (Hl k c); left|].
      apply IH. intros k' c' Hin. apply Hl. by right. }
    rewrite Heq; [apply NoDup_fst_map_to_list|]. intros k c Hin%elem_of_map_to_list. by apply (can_key _ Hcan). }
  destruct (m !! n) as [b|] eqn:Hb; simpl.
  - apply elem_of_list_to_map; [done|]. apply list_elem_of_fmap. exists (enc_block (Bundle_Block b)).
    rewrite (bundle_of_rows n b Hb). simpl. rewrite (can_key _ Hcan n b Hb). split; [done|].
    rewrite (tr_blocks _ _ Hr). apply elem_of_rows. exists n, b. split; [done|]. by apply list_elem_of_singleton.
  - apply not_elem_of_list_to_map. rewrite <- list_fmap_compose. simpl.
    intros (a & -> & Ha)%list_elem_of_fmap. simpl in Hb.
    assert (Hin : barg_number a ∈ barg_number <$> blocks db) by by apply list_elem_of_fmap_2.
    apply (elem_of_block_numbers db m Hr Hcan) in Hin as [? ?]. congruence.
Qed.
End View.

(** ** Stored segments are canonical *)
Section Stored.
Context `{PostgresEngine}.

Lemma pg_stored_hashes b :
  Transaction_Hash <$> Bundle_Transactions (pg_stored b) = Transaction_Hash <$> Bundle_Transactions b.
Proof. simpl. by rewrite <- list_fmap_compose. Qed.

Lemma pg_stored_events b e :
  e ∈ Bundle_Events (pg_stored b) <-> exists x, e = cloneEvent x /\ x ∈ Bundle_Events b.
Proof. simpl. rewrite list_elem_of_fmap. setoid_rewrite order_by_perm. done. Qed.

Lemma pg_stored_valid b : bundle_valid b -> bundle_valid (pg_stored b).
Proof.
  intros Hv. split.
  - simpl. rewrite length_fmap. apply Hv.
  - simpl. rewrite length_fmap. apply Hv.
  - intros i t (t' & -> & Hi)%list_lookup_fmap_Some. apply (bv_tx _ Hv i t' Hi).
  - rewrite pg_stored_hashes. apply Hv.
  - intros e (x & -> & Hx)%pg_stored_events. destruct (bv_event _ Hv x Hx) as (? & ? & ? & t & Ht & ? & ?).
    split_and!; try done. exists (cloneTransaction t). split_and!; [|done|done]. simpl.
    by apply list_elem_of_fmap_2.
  - simpl. rewrite <- list_fmap_compose. change (Event_LogIndex ∘ cloneEvent) with Event_LogIndex.
    rewrite order_by_perm. apply Hv.
Qed.

Lemma pg_stored_canonical m : canonical m -> canonical (pg_stored <$> m).
Proof.
  intros Hm. split.
  - intros n b (c & <- & Hc)%lookup_fmap_Some. exact (can_key _ Hm n c Hc).
  - intros n b (c & <- & Hc)%lookup_fmap_Some. apply pg_stored_valid. by eapply can_valid.
  - intros n b k (c & <- & Hc)%lookup_fmap_Some Hk Hs. rewrite lookup_fmap, fmap_is_Some in Hs.
    destruct (can_next _ Hm n c k Hc Hk Hs) as (d & Hd & ?). exists (pg_stored d). by rewrite lookup_fmap, Hd.
  - intros n b n' b' h (c & <- & Hc)%lookup_fmap_Some (c' & <- & Hc')%lookup_fmap_Some.
    unfold contains_tx. rewrite !pg_stored_hashes. by apply (can_tx _ Hm).
Qed.

Lemma pg_stored_cloned b : cloneBundle (pg_stored b) = pg_stored b.
Proof.
  unfold cloneBundle, pg_stored. simpl. rewrite cloneBlock_id. f_equal.
  - rewrite <- list_fmap_compose. apply list_fmap_ext. intros i t _. apply cloneTransaction_idem.
  - rewrite <- list_fmap_compose. apply list_fmap_ext. intros i e _. apply cloneEvent_idem.
Qed.

Lemma pg_stored_typed b : Bundle_typed b -> Bundle_typed (pg_stored b).
Proof.
  intros (Hb & Ht & He). rewrite list.Forall_forall in He. split_and!; [done| |].
  - simpl. rewrite Forall_fmap. eapply Forall_impl; [exact Ht|]. done.
  - apply list.Forall_forall. intros e (x & -> & Hx)%pg_stored_events. by apply (He x).
Qed.

(** The in-memory store that holds the same blocks. *)
Definition memory_of (db : Tables) : Memory := mkMemory 0 (pg_view db) zero_time.

Lemma memory_of_ok db m : db_state db m -> mem_ok (memory_of db).
Proof.
  intros Hdb. pose proof Hdb as [_ Hcan Hst _ _]. split; simpl; rewrite (pg_view_stored db m Hdb).
  - by apply pg_stored_canonical.
  - intros n Hn. rewrite lookup_fmap, fmap_is_Some in Hn. destruct Hn as [b Hb].
    rewrite <- (can_key _ Hcan n b Hb). pose proof (storable_number b (Hst n b Hb)). int_lia.
  - intros n b (c & <- & _)%lookup_fmap_Some. apply pg_stored_cloned.
  - intros n b (c & <- & Hc)%lookup_fmap_Some. apply pg_stored_typed. by apply (Hst n c Hc).
Qed.

Lemma fmap_apply_update f m u :
  (forall b, bundle_number (f b) = bundle_number b) -> contiguous u ->
  f <$> apply_update m u = apply_update (f <$> m) (normalized f u).
Proof.
  intros Hf Hc. apply map_eq. intros n. rewrite lookup_fmap.
  rewrite !apply_update_lookup by (try apply normalized_contiguous; done).
  change (Update_ReplaceFrom (normalized f u)) with (Update_ReplaceFrom u).
  change (Update_Blocks (normalized f u)) with (f <$> Update_Blocks u). rewrite length_fmap.
  destruct (decide (Update_ReplaceFrom u <= n < _)); [by rewrite list_lookup_fmap|].
  destruct (decide (kept u n)), (decide (kept (normalized f u) n)); try done. by rewrite lookup_fmap.
Qed.
End Stored.
