(* ===== verification/PostgresContract.v ===== *)
(** * The PostgreSQL store meets the contract of the synchronizer

    [ApplyCanonicalUpdate] on every branch, with failing calls, other sessions and lost
    commit answers, and the instance of [IndexStoreLaws] under which the theorems on
    the synchronizer hold for the PostgreSQL store. *)
From S2P Require Import Prelude Errors Domain Validate Store Fixtures Memory Codec Postgres PostgresTx PostgresRows PostgresStore PostgresView.
From stdpp Require Import prelude gmap sorting list strings.
From Stdlib Require Import ZArith Lia.

Local Open Scope Z_scope.

(** ** Calls that read *)

(** The error, possibly wrapped, of a call made between [w] and [w']. *)
Definition call_failed (w w' : PgWorld) (e : error) : Prop :=
  exists n e0, (pg_calls w <= n < pg_calls w')%nat /\ env_fault (pg_env w) n = Some e0 /\
    forall s, errors_Is e s = errors_Is e0 s.

Lemma call_failed_fault w w' e : call_failed w w' e -> from_fault (pg_env w) e.
Proof. intros (n & e0 & _ & ? & ?). by exists n, e0. Qed.

Lemma call_failed_wrapf w w' s e : call_failed w w' e -> call_failed w w' (wrapf s e).
Proof. intros (n & e0 & Hn & Hf & He). exists n, e0. split; [done|]. split; [done|]. intros t. by rewrite errors_Is_wrapf. Qed.

Lemma call_failed_here w db e : pg_fault w = Some e -> call_failed w (pg_set db w) e.
Proof. intros Hf. exists (pg_calls w), e. split_and!; [simpl; lia..|done|done]. Qed.

Lemma call_failed_later w w1 w2 e :
  pg_env w1 = pg_env w -> (pg_calls w <= pg_calls w1)%nat -> call_failed w1 w2 e -> call_failed w w2 e.
Proof. intros He Hc (n & e0 & ? & Hn & ?). rewrite He in Hn. exists n, e0. split_and!; (done || lia). Qed.

(** The action answers [r], or a call it made failed; it changes nothing itself. *)
Definition answers {A} (m : action PgWorld A) (w : PgWorld) (r : result A) : Prop :=
  let '(r', w') := m w in
  pg_env w' = pg_env w /\ (pg_calls w <= pg_calls w')%nat /\
  ((forall n db, env_others (pg_env w) n db = db) -> pg_db w' = pg_db w) /\
  ((exists e, r' = Err e /\ call_failed w w' e) \/ r' = r).

Lemma from_fault_here w e : pg_fault w = Some e -> from_fault (pg_env w) e.
Proof. intros Hf. by exists (pg_calls w), e. Qed.

Lemma answers_one {A} (r : result A) w :
  answers (fun w => (answer (pg_fault w) r, pg_set (pg_now w) w)) w r.
Proof.
  unfold answers, answer. split_and!; [done|simpl; lia|intros Ho; apply Ho|].
  destruct (pg_fault w) eqn:Hf; [|by right]. left. eauto using call_failed_here.
Qed.

Lemma answers_pool {A} (f : Tables -> A) w : answers (pool_query A f) w (Ok (f (pg_now w))).
Proof. apply (answers_one (Ok (f (pg_now w))) w). Qed.

Lemma answers_snapshot {A} s (f : Tables -> A) w : answers (snapshot_query s A f) w (Ok (f s)).
Proof. apply answers_one. Qed.

Lemma answers_call w : answers call w (Ok tt).
Proof. apply answers_one. Qed.

Lemma answers_lift {A} (r : result A) w : answers (act_lift r) w r.
Proof. split_and!; [done|done|done|by right]. Qed.

Lemma answers_ret {A} (a : A) w : answers (act_ret a) w (Ok a).
Proof. apply (answers_lift (Ok a)). Qed.

Lemma answers_bind {A B} (m : action PgWorld A) (k : A -> action PgWorld B) w r g :
  answers m w r -> (forall a w', r = Ok a -> pg_env w' = pg_env w -> answers (k a) w' (g a)) ->
  answers (act_bind m k) w (a ← r; g a).
Proof.
  unfold answers, act_bind. destruct (m w) as [r' w1]. intros (He & Hc & Ho & Hr) Hk. destruct Hr as [(e & -> & Hf)| ->].
  { split_and!; [done|done|done|]. left. eauto. }
  destruct r as [a| | |]; simpl; try (split_and!; [done|done|done|by right]).
  specialize (Hk a w1 eq_refl He). rewrite He in Hk. destruct (k a w1) as [r2 w2]. destruct Hk as (He2 & Hc2 & Ho2 & Hr2).
  split_and!; [done|lia| |].
  - intros Hid. rewrite Ho2, Ho; done.
  - destruct Hr2 as [(e & -> & Hf)| ->]; [|by right]. left. eauto using call_failed_later.
Qed.

Lemma answers_map_err {A} (m : action PgWorld A) s w r :
  answers m w r -> answers (act_map_err (wrapf s) m) w (map_err (wrapf s) r).
Proof.
  unfold answers, act_map_err. destruct (m w) as [r' w1]. intros (He & Hc & Ho & Hr). split_and!; [done|done|done|].
  destruct Hr as [(e & -> & Hf)| ->]; [|by right]. left. eexists. split; [done|]. by apply call_failed_wrapf.
Qed.

Lemma answers_on_error {A} (m : action PgWorld A) (k : error -> result A) s w r :
  env_ok (pg_env w) -> answers m w r -> (forall e, no_rows e = false -> k e = Err (wrapf s e)) ->
  answers (on_error m k) w (match r with Err e => k e | _ => r end).
Proof.
  intros Hw Hm Hk. unfold answers, on_error in *. destruct (m w) as [r' w1]. destruct Hm as (He & Hc & Ho & Hr).
  destruct Hr as [(e & -> & Hf)| ->]; [|by destruct r; split_and!; try done; right].
  split_and!; [done|done|done|]. left. eexists. split; [|by apply call_failed_wrapf]. apply Hk.
  destruct Hf as (n & e0 & _ & Hn & Hs). unfold no_rows. rewrite Hs. by apply (Hw n e0 Hn).
Qed.

Lemma answers_query_row {A} (q : Querier) (f : Tables -> option A) w db :
  answers (q _ f) w (Ok (f db)) ->
  answers (query_row q f) w (match f db with Some a => Ok a | None => Err (foreign_err PgxErrNoRows) end).
Proof.
  intros Hq. apply (answers_bind _ _ w (Ok (f db)) (fun row => match row with Some a => Ok a | None => _ end) Hq).
  intros row w' _ _. apply answers_lift.
Qed.

Lemma answers_row {A} (q : Querier) (f : Tables -> option A) (none : result A) s w db :
  env_ok (pg_env w) -> answers (q _ f) w (Ok (f db)) ->
  answers (on_error (query_row q f) (fun e => if no_rows e then none else Err (wrapf s e))) w
    (match f db with Some a => Ok a | None => none end).
Proof.
  intros Hw Hq%answers_query_row.
  pose proof (answers_on_error _ (fun e => if no_rows e then none else Err (wrapf s e)) s w _ Hw Hq) as Ha.
  destruct (f db); apply Ha; by intros e ->.
Qed.

Lemma answers_row_some {A} (q : Querier) (f : Tables -> option A) s w db :
  env_ok (pg_env w) -> answers (q _ f) w (Ok (f db)) ->
  answers (on_error (some_row (query_row q f)) (fun e => if no_rows e then Ok None else Err (wrapf s e))) w
    (Ok (f db)).
Proof.
  intros Hw Hq%answers_query_row.
  assert (Hrow := answers_bind _ (fun a => act_ret (Some a)) w _ (fun a => Ok (Some a)) Hq (fun a w' _ _ => answers_ret _ w')).
  pose proof (answers_on_error _ (fun e => if no_rows e then Ok None else Err (wrapf s e)) s w _ Hw Hrow) as Ha.
  destruct (f db); apply Ha; by intros e ->.
Qed.

Section Contract.
Context `{GoRuntime} `{PostgresEngine}.

Definition pg_ok (db : Tables) : Prop := exists m, db_state db m.

Lemma tip_answers w :
  env_ok (pg_env w) ->
  answers Postgres_CanonicalTip w (table_tip (wrapf "decode canonical tip: %w") (pg_now w)).
Proof.
  intros Hw. unfold Postgres_CanonicalTip, read_tip, table_tip.
  pose proof (answers_bind _ (fun row => match row with
    | None => act_ret None
    | Some (number, hash) => act_lift (decodedHash ← map_err (wrapf "decode canonical tip: %w") (decodeHash hash);
        decodedNumber ← map_err (wrapf "decode canonical tip: %w") (decodePostgresUint64 number);
        Ok (Some (mkTip decodedNumber decodedHash))) end) w _ (fun row => match row with
    | None => Ok None
    | Some (number, hash) => decodedHash ← map_err (wrapf "decode canonical tip: %w") (decodeHash hash);
        decodedNumber ← map_err (wrapf "decode canonical tip: %w") (decodePostgresUint64 number);
        Ok (Some (mkTip decodedNumber decodedHash)) end)
    (answers_row_some pool_query canonicalTipQuery "query canonical tip: %w" w _ Hw (answers_pool _ w))) as Hb.
  apply Hb. intros [[number hash]|] w' _ _; [apply answers_lift|apply answers_ret].
Qed.

Definition table_hash (number : Z) (db : Tables) : result Hash :=
  if max_int64 <? number then Err (store_err StoreErrNotFound)
  else
    hash ← match canonicalHashQuery number db with
           | Some h => Ok h | None => Err (store_err StoreErrNotFound) end;
    map_err (wrapf "decode canonical hash for block %d: %w") (decodeHash hash).

Lemma hash_answers n w : env_ok (pg_env w) -> answers (Postgres_CanonicalHash n) w (table_hash n (pg_now w)).
Proof.
  intros Hw. unfold Postgres_CanonicalHash, table_hash.
  destruct (Z.ltb_spec max_int64 n); [apply (answers_lift (Err _))|]. rewrite postgresInt64_small by done.
  apply (answers_bind _ _ w _ (fun hash => map_err (wrapf "decode canonical hash for block %d: %w") (decodeHash hash))).
  - by apply answers_row; [|apply answers_pool].
  - intros a w' _ _. apply answers_lift.
Qed.

Lemma table_tip_ok db m : db_state db m -> exists tip, table_tip (wrapf "decode canonical tip: %w") db = Ok tip /\ is_tip m tip.
Proof.
  intros [Hr Hcan Hst _ _]. destruct (table_tip_rows db m (wrapf "decode canonical tip: %w") Hr Hcan Hst)
    as (tip & ? & ? & _). eauto.
Qed.

Lemma table_hash_ok db m n :
  db_state db m ->
  table_hash n db = match m !! n with Some b => Ok (bundle_hash b) | None => Err (store_err StoreErrNotFound) end.
Proof.
  intros [Hr Hcan Hst _ _]. unfold table_hash. rewrite (canonicalHashQuery_rows db m n Hr Hcan).
  destruct (m !! n) as [b|] eqn:Hb; simpl fmap; cbn iota.
  - pose proof (storable_number b (Hst n b Hb)) as Hn. rewrite (can_key _ Hcan n b Hb) in Hn.
    rewrite (proj2 (Z.ltb_ge _ _)) by lia. cbn [mbind result_bind]. by rewrite decodeHash_bytes.
  - by destruct (max_int64 <? n).
Qed.

(** ** The transaction *)

Lemma transaction_refines s (body : action PgWorld unit) f w :
  refines body (fun db => db' ← f db; Ok (tt, db')) -> env_ok (pg_env w) ->
  let '(r, w') := transaction (wrapf s) body w in
  pg_env w' = pg_env w /\
  ((exists e, r = Err e /\ from_fault (pg_env w) e /\
      (pg_db w' = pg_db w \/
       (exists n, env_commit_kept (pg_env w) n = true) /\ f (pg_db w) = Ok (pg_db w'))) \/
   match f (pg_db w) with
   | Ok db' => r = Ok tt /\ pg_db w' = db'
   | Err e => r = Err e /\ pg_db w' = pg_db w
   | Panic msg => r = Panic msg
   | OutOfFuel => r = OutOfFuel
   end).
Proof.
  intros Hb Hw. specialize (Hb w Hw). unfold transaction. destruct (body w) as [r w1]. destruct Hb as [He Hb].
  destruct Hb as [(e & -> & Hf)|Hb].
  { split; [done|]. left. exists e. auto. }
  destruct (f (pg_db w)) as [db'|e|msg|] eqn:Hfd; simpl in Hb.
  - destruct Hb as [-> Hdb]. destruct (pg_fault w1) as [e|] eqn:Hft.
    + split; [done|]. left. eexists. split; [done|]. split.
      { apply from_fault_wrapf. rewrite <- He. by apply from_fault_here. }
      simpl. destruct (env_commit_kept (pg_env w1) (pg_calls w1)) eqn:Hk; [right|by left].
      rewrite He in Hk. split; [by eauto|]. by rewrite Hdb.
    + split; [done|]. right. by rewrite <- Hdb.
  - subst r. split; [done|]. by right.
  - subst r. split; [done|]. by right.
  - subst r. split; [done|]. by right.
Qed.

(** The committed state before the n-th further call. *)
Fixpoint after_calls (n : nat) (w : PgWorld) : PgWorld :=
  match n with O => w | S n => after_calls n (pg_set (pg_now w) w) end.
(** The committed state when the advisory lock is granted, after [BEGIN]. *)
Definition lock_state (w : PgWorld) : Tables := pg_db (after_calls 2 w).

(** The outcome of an update. *)
Record apply_outcome (u : CanonicalUpdate) (w : PgWorld) (r : result unit) (w' : PgWorld) : Prop := {
  ao_env : pg_env w' = pg_env w;
  ao_returns : returns r;
  (** Applied to the segment that was committed when the lock was granted. *)
  ao_ok : r = Ok tt -> exists m, db_state (lock_state w) m /\ checked u /\ acceptable u (lock_state w) m /\
            db_state (pg_db w') (apply_update m u);
  (** Not applied: the tables are what the other sessions left; or the commit was kept
      although its answer was lost, and the update is applied in full. *)
  ao_err e : r = Err e ->
    (exists n, (n <= 2)%nat /\ pg_db w' = pg_db (after_calls n w)) \/
    ((exists n, env_commit_kept (pg_env w) n = true) /\ from_fault (pg_env w) e /\
     exists m, db_state (lock_state w) m /\ db_state (pg_db w') (apply_update m u));
  (** Without failing calls, and with nothing nil in the update, exactly the acceptable
      updates are applied. *)
  ao_accepts : (forall n, env_fault (pg_env w) n = None) -> (forall b, b ∈ Update_Blocks u -> non_nil b) ->
    forall m, db_state (lock_state w) m -> r = Ok tt <-> checked u /\ acceptable u (lock_state w) m
}.

Lemma after_calls_ok n w :
  (forall k db, pg_ok db -> pg_ok (env_others (pg_env w) k db)) -> pg_ok (pg_db w) ->
  pg_ok (pg_db (after_calls n w)) /\ pg_env (after_calls n w) = pg_env w.
Proof.
  revert w. induction n as [|n IH]; intros w Ho Hdb; [done|]. simpl.
  apply (IH (pg_set (pg_now w) w)); simpl; [done|]. by apply Ho.
Qed.

(** A rejected update, before the transaction starts. *)
Lemma outcome_before u w e n :
  (n <= 2)%nat -> ((forall k, env_fault (pg_env w) k = None) -> ~ checked u) -> pg_env (after_calls n w) = pg_env w ->
  apply_outcome u w (Err e) (after_calls n w).
Proof.
  intros Hn Hno He. split; try done.
  - intros e' _. left. eauto.
  - intros Hf _ m _. split; [done|]. intros [? _]. by destruct (Hno Hf).
Qed.

(** An update is rejected before the transaction starts, or its statements run as
    [update_tables] on the segment that is committed when the lock is granted. *)
Definition apply_runs (u : CanonicalUpdate) (w : PgWorld) (r : result unit) (w' : PgWorld) : Prop :=
  (exists n e, (n <= 2)%nat /\ r = Err e /\ w' = after_calls n w /\
     ((forall k, env_fault (pg_env w) k = None) -> ~ checked u)) \/
  (checked u /\ pg_env w' = pg_env w /\
   ((exists e, r = Err e /\ from_fault (pg_env w) e /\
       (pg_db w' = lock_state w \/
        (exists n, env_commit_kept (pg_env w) n = true) /\ update_tables u (lock_state w) = Ok (pg_db w'))) \/
    match update_tables u (lock_state w) with
    | Ok db' => r = Ok tt /\ pg_db w' = db'
    | Err e => r = Err e /\ pg_db w' = lock_state w
    | Panic msg => r = Panic msg
    | OutOfFuel => r = OutOfFuel
    end)).

Lemma checked_refines u :
  checked u -> refines (update_statements u) (fun db => db' ← update_tables u db; Ok (tt, db')).
Proof.
  intros Hu. pose proof (ck_range _ Hu). pose proof (ck_bound _ Hu).
  apply update_refines; [apply Hu|split; int_lia|lia|].
  intros b Hb. apply storable_prepared; [by apply Hu|]. pose proof Hb as [i Hi]%list_elem_of_lookup.
  apply (can_valid _ (ck_canonical _ Hu) (bundle_number b)).
  rewrite (insert_blocks_lookup_ge _ _ (Update_ReplaceFrom u)), (ck_contiguous _ Hu _ _ Hi) by apply Hu.
  pose proof (lookup_lt_Some _ _ _ Hi). rewrite decide_True by lia. by replace (Z.to_nat _) with i by lia.
Qed.

Lemma apply_runs_holds u w :
  env_ok (pg_env w) -> (forall k db, pg_ok db -> pg_ok (env_others (pg_env w) k db)) -> pg_ok (pg_db w) ->
  Update_typed u ->
  let '(r, w') := Postgres_ApplyCanonicalUpdate u w in apply_runs u w r w'.
Proof.
  intros Hw Ho Hdb Hty. unfold Postgres_ApplyCanonicalUpdate. unfold act_bind at 1. cbn [act_lift].
  pose proof (validatePostgresUpdate_errs u) as Hverr. pose proof (validatePostgresUpdate_checked u Hty) as Hck.
  destruct (validatePostgresUpdate u) as [[]|e| |]; try done.
  2: { left. exists 0%nat, e. split_and!; [lia|done|done|]. intros _ Hc%Hck. done. }
  assert (Hu : checked u) by by apply Hck.
  destruct (after_calls_ok 2 w Ho Hdb) as [_ He2].
  unfold act_bind at 1, act_map_err at 1, call at 1, answer.
  destruct (pg_fault w) as [e|] eqn:Hf1; cbn [map_err].
  { left. eexists 1%nat, _. split_and!; [lia|done|done|]. intros Hno. unfold pg_fault in Hf1. by rewrite Hno in Hf1. }
  unfold act_bind at 1, act_map_err at 1, call at 1, answer.
  destruct (pg_fault (pg_set (pg_now w) w)) as [e|] eqn:Hf2; cbn [map_err].
  { left. eexists 2%nat, _. split_and!; [lia|done|done|]. intros Hno. unfold pg_fault in Hf2. simpl in Hf2. by rewrite Hno in Hf2. }
  change (pg_set (pg_now (pg_set (pg_now w) w)) (pg_set (pg_now w) w)) with (after_calls 2 w).
  pose proof (transaction_refines "commit canonical update: %w" _ _ (after_calls 2 w) (checked_refines u Hu)) as Ht.
  rewrite He2 in Ht. specialize (Ht Hw). destruct (transaction _ _ _) as [r w']. right. split; [done|exact Ht].
Qed.

Lemma apply_outcome_holds u w :
  env_ok (pg_env w) -> (forall k db, pg_ok db -> pg_ok (env_others (pg_env w) k db)) -> pg_ok (pg_db w) ->
  Update_typed u ->
  let '(r, w') := Postgres_ApplyCanonicalUpdate u w in apply_outcome u w r w'.
Proof.
  intros Hw Ho Hdb Hty. pose proof (apply_runs_holds u w Hw Ho Hdb Hty) as Hrun.
  destruct (Postgres_ApplyCanonicalUpdate u w) as [r w'].
  destruct Hrun as [(n & e & Hn & -> & -> & Hno)|(Hu & He & Ht)].
  { apply outcome_before; [done|done|]. by apply after_calls_ok. }
  destruct (after_calls_ok 2 w Ho Hdb) as [[m Hm] _]. fold (lock_state w) in Hm.
  pose proof (update_tables_state u _ m Hm Hu) as Hst.
  destruct Ht as [(e & -> & Hff & Hcase)|Ht].
  { split; [done|done|done| |].
    - intros e' [= <-]. destruct Hcase as [Hd|[Hk Hd]]; [left; exists 2%nat; split; [lia|done]|right].
      rewrite Hd in Hst. split_and!; [done|done|]. exists m. split; [done|]. apply Hst.
    - intros Hno. destruct Hff as (n & e0 & Hn & _). by rewrite Hno in Hn. }
  destruct (update_tables u (lock_state w)) as [db'|e| |] eqn:Hup; try done.
  - destruct Ht as [-> Hd]. assert (Hacc : forall m', db_state (lock_state w) m' -> acceptable u (lock_state w) m')
      by (intros m' Hm'; by eapply update_tables_acceptable).
    split; [done|done| |done|].
    + intros _. exists m. rewrite Hd. split_and!; [done|done|by apply Hacc|apply Hst].
    + intros _ _ m' Hm'. split; [|done]. intros _. auto.
  - destruct Ht as [-> Hd]. split; [done|done|done| |].
    + intros e' [= <-]. left. exists 2%nat. split; [lia|done].
    + intros _ Hnn m' Hm'. split; [done|]. intros [_ Ha].
      destruct (update_tables_accepts u _ m' Hm' Hu Ha Hnn) as [? ?]. congruence.
Qed.

Lemma outcome_ok u w r w' :
  (forall k db, pg_ok db -> pg_ok (env_others (pg_env w) k db)) -> pg_ok (pg_db w) ->
  apply_outcome u w r w' -> pg_ok (pg_db w').
Proof.
  intros Ho Hdb [_ Hr Hok Herr _]. destruct r as [[]|e| |]; try done.
  - destruct (Hok eq_refl) as (m & _ & _ & _ & ?). by eexists.
  - destruct (Herr e eq_refl) as [(n & _ & ->)|(_ & _ & m & _ & ?)]; [by apply after_calls_ok|by eexists].
Qed.

(** ** The store as an [IndexStore] *)

#[global] Instance postgres_index_store : IndexStore PgWorld := {|
  CanonicalTip := Postgres_CanonicalTip;
  CanonicalHash := Postgres_CanonicalHash;
  ApplyCanonicalUpdate := Postgres_ApplyCanonicalUpdate
|}.

(** The synchronizer's view of the store: no other indexer writes, calls may fail, and a
    commit that reports an error was not applied. *)
Record session_ok (w : PgWorld) : Prop := {
  so_env : env_ok (pg_env w);
  so_alone n db : env_others (pg_env w) n db = db;
  so_commit n : env_commit_kept (pg_env w) n = false;
  so_db : pg_ok (pg_db w)
}.

Lemma session_now w : session_ok w -> pg_now w = pg_db w.
Proof. intros Hs. apply (so_alone _ Hs). Qed.

Lemma after_calls_alone n w : (forall k db, env_others (pg_env w) k db = db) -> pg_db (after_calls n w) = pg_db w.
Proof.
  revert w. induction n as [|n IH]; intros w Ho; [done|]. simpl. rewrite IH by done. simpl. apply Ho.
Qed.

Lemma answers_session {A} (m : action PgWorld A) w r :
  session_ok w -> answers m w r ->
  session_ok (m w).2 /\ pg_db (m w).2 = pg_db w /\
  ((exists e, (m w).1 = Err e /\ from_fault (pg_env w) e) \/ (m w).1 = r).
Proof.
  intros Hs Ha. unfold answers in Ha. destruct (m w) as [r' w']. destruct Ha as (He & _ & Ho & Hr). simpl.
  specialize (Ho (so_alone _ Hs)). destruct Hs. split_and!; [split; by rewrite ?He, ?Ho|done|].
  destruct Hr as [(e & -> & Hf)| ->]; [left; eauto using call_failed_fault|by right].
Qed.

Lemma from_fault_driver env e : env_ok env -> from_fault env e -> driver_error e.
Proof.
  intros Hw (n & e0 & Hn & He). destruct (Hw n e0 Hn) as (H1 & H2 & H3).
  split_and!; intros; by rewrite He.
Qed.

Lemma is_tip_stored m tip : is_tip m tip -> is_tip (pg_stored <$> m) tip.
Proof.
  destruct tip as [t|]; simpl.
  - intros (b & Hb & Hh & Hmax). exists (pg_stored b). rewrite lookup_fmap, Hb. split_and!; [done|done|].
    intros k. rewrite lookup_fmap, fmap_is_Some. apply Hmax.
  - intros ->. apply fmap_empty.
Qed.

#[global] Program Instance postgres_store_laws : IndexStoreLaws PgWorld := {|
  view w := pg_view (pg_db w);
  store_ok := session_ok;
  stored_as := pg_stored
|}.
Next Obligation. done. Qed.
Next Obligation. done. Qed.
Next Obligation. done. Qed.
Next Obligation.
  intros w Hs. destruct (so_db _ Hs) as [m Hm]. pose proof (memory_of_ok _ _ Hm) as Hok. split; apply Hok.
Qed.
Next Obligation.
  intros w Hs. destruct (answers_session _ _ _ Hs (tip_answers w (so_env _ Hs))) as (Hs' & Hd & Hr).
  unfold wp. simpl. rewrite Hd. destruct (so_db _ Hs) as [m Hm]. rewrite (session_now w Hs) in Hr.
  destruct (table_tip_ok _ m Hm) as (tip & Htip & Hist). rewrite Htip in Hr.
  destruct Hr as [(e & -> & _)| ->]; split_and!; try done.
  intros t [= <-]. rewrite (pg_view_stored _ m Hm). by apply is_tip_stored.
Qed.
Next Obligation.
  intros n w Hs. destruct (answers_session _ _ _ Hs (hash_answers n w (so_env _ Hs))) as (Hs' & Hd & Hr).
  unfold wp. simpl. rewrite Hd. destruct (so_db _ Hs) as [m Hm].
  rewrite (session_now w Hs), (table_hash_ok _ m n Hm) in Hr. rewrite (pg_view_stored _ m Hm), lookup_fmap.
  destruct Hr as [(e & -> & Hf)| ->].
  - split_and!; try done. intros e' [= <-] Hnf. pose proof (from_fault_driver _ _ (so_env _ Hs) Hf) as (Hd' & _).
    by rewrite Hd' in Hnf.
  - destruct (m !! n) as [b|]; split_and!; try done. intros h [= <-]. by exists (pg_stored b).
Qed.
Next Obligation.
  intros u w Hs Hu. unfold wp. simpl.
  assert (Ho : forall k db, pg_ok db -> pg_ok (env_others (pg_env w) k db)) by (intros k db; by rewrite (so_alone _ Hs)).
  pose proof (apply_outcome_holds u w (so_env _ Hs) Ho (so_db _ Hs) Hu) as Ha.
  destruct (Postgres_ApplyCanonicalUpdate u w) as [r w']. simpl. pose proof (outcome_ok u w r w' Ho (so_db _ Hs) Ha) as Hok'.
  destruct Ha as [He Hr Hok Herr _]. assert (Hs' : session_ok w').
  { destruct Hs. split; rewrite ?He; done. }
  assert (Hlock : lock_state w = pg_db w) by apply after_calls_alone, Hs.
  split_and!; [done|done| |].
  - intros ->. destruct (Hok eq_refl) as (m & Hm & Hck & _ & Hm'). rewrite Hlock in Hm.
    split_and!; [apply Hck|apply Hck|]. rewrite (pg_view_stored _ _ Hm'), (pg_view_stored _ _ Hm).
    apply fmap_apply_update; [done|apply Hck].
  - intros e ->. destruct (Herr e eq_refl) as [(n & _ & ->)|([n Hk] & _)].
    + by rewrite after_calls_alone by apply Hs.
    + by rewrite (so_commit _ Hs) in Hk.
Qed.

(** ** Properties *)

(** C10: [ApplyCanonicalUpdate] of the PostgreSQL store, on every branch and whatever calls
    fail or other sessions do.  It returns; if it reports success the tables hold
    exactly the update applied to the segment that was committed when the advisory lock
    was granted; if it reports an error the tables are as the other sessions left them,
    unless the commit was applied and only its answer was lost, in which case the update
    is applied in full.  When no call fails it succeeds exactly for the updates that the
    contract allows: they pass the checks, belong to the stored chain, extend a retained
    parent, and keep one chain of distinct blocks and transactions.  The last part is for
    updates in which no input and no log data is a nil slice, as in every bundle that
    [FetchBlock] makes. *)
Theorem postgres_apply_correct u w :
  env_ok (pg_env w) -> (forall k db, pg_ok db -> pg_ok (env_others (pg_env w) k db)) -> pg_ok (pg_db w) ->
  Update_typed u ->
  apply_outcome u w (Postgres_ApplyCanonicalUpdate u w).1 (Postgres_ApplyCanonicalUpdate u w).2.
Proof.
  intros Hw Ho Hdb Hu. pose proof (apply_outcome_holds u w Hw Ho Hdb Hu) as Ha.
  by destruct (Postgres_ApplyCanonicalUpdate u w).
Qed.

(** A nil input or nil log data makes the update fail: the slices are passed to the
    statements as they are, nil is NULL, and the columns are NOT NULL. *)
Theorem postgres_nil_refused u w b :
  env_ok (pg_env w) -> (forall k db, pg_ok db -> pg_ok (env_others (pg_env w) k db)) -> pg_ok (pg_db w) ->
  Update_typed u -> b ∈ Update_Blocks u -> ~ non_nil b -> (Postgres_ApplyCanonicalUpdate u w).1 <> Ok tt.
Proof.
  intros Hw Ho Hdb Hu Hb Hnil Hr. pose proof (apply_runs_holds u w Hw Ho Hdb Hu) as Hrun.
  destruct (Postgres_ApplyCanonicalUpdate u w) as [r w']. simpl in Hr. subst r.
  destruct Hrun as [(n & e & _ & [=] & _)|(_ & _ & [(e & [=] & _)|Ht])].
  destruct (update_tables u (lock_state w)) as [db'| | |] eqn:Hup; try naive_solver.
  apply Hnil. by eapply update_tables_non_nil.
Qed.

(** The states of a database that only indexers write: the advisory lock makes any
    interleaving of their updates a sequence. *)
Inductive pg_reachable : Tables -> Prop :=
| reach_empty : pg_reachable empty_tables
| reach_update u w :
    pg_reachable (pg_db w) -> Update_typed u -> env_ok (pg_env w) ->
    (forall k db, env_others (pg_env w) k db = db) ->
    pg_reachable (pg_db (Postgres_ApplyCanonicalUpdate u w).2).

Lemma pg_reachable_ok db : pg_reachable db -> pg_ok db.
Proof.
  induction 1 as [|u w _ IH Hu Hw Ho]; [exists ∅; apply empty_state|].
  assert (Ho' : forall k db, pg_ok db -> pg_ok (env_others (pg_env w) k db)) by (intros k db; by rewrite Ho).
  pose proof (apply_outcome_holds u w Hw Ho' IH Hu) as Ha.
  destruct (Postgres_ApplyCanonicalUpdate u w) as [r w']. by apply (outcome_ok u w r w').
Qed.

(** C12: In every state the store can reach from an empty database, through any updates
    of any number of indexers, with any calls failing and any commit answers lost, the
    tables hold one canonical segment, and [sync_state] is empty (and so is the
    segment) or has one row, with the number and the hash of the segment's tip. *)
Theorem postgres_reachable_canonical db :
  pg_reachable db -> canonical (pg_view db) /\ sync_matches (sync_state db) (pg_view db).
Proof.
  intros [m Hm]%pg_reachable_ok. rewrite (pg_view_stored db m Hm). split; [by apply pg_stored_canonical, Hm|].
  pose proof (ds_sync _ _ Hm) as Hs. unfold sync_matches in *.
  destruct (sync_state db) as [|r [|]]; [by rewrite Hs, fmap_empty| |done].
  destruct Hs as (Hid & tip & Htip & ?). split; [done|]. exists tip. split; [by apply is_tip_stored|done].
Qed.
End Contract.
