(* ===== verification/PostgresQueries.v ===== *)
(** * Queries of the PostgreSQL store

    Every query answers from one committed snapshot, and answers what the in-memory
    store holding the same blocks answers ([memory_of]), unless a call fails. *)
From S2P Require Import Prelude Errors Domain Validate Store Fixtures Memory MemoryStore MemoryQueries Codec Postgres PostgresTx PostgresRows PostgresStore PostgresView PostgresContract.
From stdpp Require Import prelude gmap sorting list strings.
From Stdlib Require Import ZArith Lia.

Local Open Scope Z_scope.

(** ** Rows *)
Section Rows.
Context `{PostgresEngine} (db : Tables) (m : bundle_map).
Hypothesis Hdb : db_state db m.

Lemma block_filter n :
  filter (fun a => barg_number a = n) (blocks db) =
    match m !! n with Some b => [enc_block (Bundle_Block b)] | None => [] end.
Proof.
  pose proof Hdb as [Hr Hcan _ _ _]. destruct (m !! n) as [b|] eqn:Hb.
  - apply Permutation_singleton_r. rewrite (tr_blocks _ _ Hr). apply (rows_of_block block_rows barg_number); [|done].
    intros k c a Hc ->%list_elem_of_singleton. by apply (can_key _ Hcan).
  - apply filter_none. intros a Ha Hn.
    assert (Hin : n ∈ barg_number <$> blocks db) by (rewrite <- Hn; by apply list_elem_of_fmap_2).
    apply (elem_of_block_numbers db m Hr Hcan) in Hin as [? ?]. congruence.
Qed.

Lemma tx_filter (h : Hash) :
  filter (fun a => targ_hash a = Some (array_bytes h)) (transactions db) =
    match filter (fun a => targ_hash a = Some (array_bytes h)) (transactions db) with a :: _ => [a] | [] => [] end.
Proof.
  pose proof (proj1 (ds_primary _ _ Hdb)) as Hnd. induction (transactions db) as [|a l IH]; [done|].
  rewrite fmap_cons, NoDup_cons in Hnd. destruct Hnd as [Ha Hnd]. rewrite filter_cons. case_decide as Hh; [|by apply IH].
  rewrite filter_none; [done|]. intros x Hx Hxh. apply Ha. rewrite Hh, <- Hxh. by apply list_elem_of_fmap_2.
Qed.

(** The row of an event of the segment, joined with its block. *)
Definition row_of (e : Event) : postgresEventRow :=
  read_event (Some (array_bytes (Event_BlockHash e))) (enc_event e).

Definition raw_events : list Event := rows_of Bundle_Events m.

Lemma elem_of_raw e : e ∈ raw_events <-> event_of m e.
Proof. apply elem_of_rows. Qed.

Lemma event_rows_raw : rows_of event_rows m = enc_event <$> raw_events.
Proof.
  unfold raw_events, rows_of. induction (map_to_list m).*2 as [|b l IH]; [done|].
  rewrite !bind_cons, fmap_app, IH. done.
Qed.

Lemma filter_fmap {A B} (f : A -> B) (P : B -> Prop) `{forall x, Decision (P x)} (l : list A) :
  filter P (f <$> l) = f <$> filter (fun x => P (f x)) l.
Proof.
  induction l as [|x l IH]; [done|]. rewrite fmap_cons, !filter_cons. case_decide; [rewrite fmap_cons|]; by rewrite IH.
Qed.

Lemma joined_rows (Q : event_args -> Prop) `{forall a, Decision (Q a)} `{forall e, Decision (Q (enc_event e))} :
  joined_events db (filter Q (event_logs db)) ≡ₚ row_of <$> filter (fun e => Q (enc_event e)) raw_events.
Proof.
  pose proof Hdb as [Hr Hcan _ _ _]. unfold joined_events. rewrite (tr_events _ _ Hr), event_rows_raw, filter_fmap.
  rewrite (list_filter_iff (fun e => Q (enc_event e)) (fun e => Q (enc_event e)) raw_events) by done.
  assert (Hin : forall e, e ∈ filter (fun e => Q (enc_event e)) raw_events -> event_of m e).
  { intros e [_ He]%list_elem_of_filter. by apply elem_of_raw. }
  apply reflexive_eq. induction (filter (fun e => Q (enc_event e)) raw_events) as [|e l IH]; [done|].
  rewrite forall_elem_cons in Hin. destruct Hin as [(n & b & Hb & He) Hl].
  rewrite !fmap_cons, bind_cons, IH by done. cbn [earg_blockNumber enc_event].
  destruct (event_block m Hcan n b e Hb He) as [Hn Hh]. rewrite Hn, block_filter, Hb. unfold row_of. by rewrite Hh.
Qed.

Lemma row_of_decode e : event_of m e -> postgresEventRow_decode (row_of e) = Ok (cloneEvent e).
Proof.
  intros (n & b & Hb & He). pose proof Hdb as [_ Hcan Hst _ _].
  destruct (storable_fields b (Hst n b Hb) (can_valid _ Hcan n b Hb)) as (_ & _ & Hev).
  destruct (event_block m Hcan n b e Hb He) as [_ Hh]. unfold row_of. rewrite Hh. by apply Hev.
Qed.

Lemma decode_rows l : (forall e, e ∈ l -> event_of m e) -> decode_events (row_of <$> l) = Ok (cloneEvent <$> l).
Proof.
  induction l as [|e l IH]; [done|]. rewrite forall_elem_cons. intros [He Hl]. rewrite !fmap_cons. cbn [decode_events].
  rewrite (row_of_decode e He). cbn [mbind result_bind]. by rewrite IH.
Qed.

(** Events of the view are those of the segment, copied. *)
Lemma event_of_view e : event_of (pg_view db) e <-> exists x, e = cloneEvent x /\ event_of m x.
Proof.
  rewrite (pg_view_stored db m Hdb). unfold event_of. setoid_rewrite lookup_fmap_Some. split.
  - intros (n & b & (c & <- & Hc) & (x & -> & Hx)%pg_stored_events). eauto 8.
  - intros (x & -> & n & b & Hb & Hx). exists n, (pg_stored b). split; [eauto|]. apply pg_stored_events. eauto.
Qed.

Lemma raw_event_inj x y :
  event_of m x -> event_of m y -> Event_BlockNumber x = Event_BlockNumber y -> Event_LogIndex x = Event_LogIndex y -> x = y.
Proof. apply event_position_inj, Hdb. Qed.

Lemma NoDup_raw : NoDup raw_events.
Proof.
  pose proof (ds_canonical _ _ Hdb) as Hcan. unfold raw_events, rows_of. apply NoDup_bind.
  - intros b b' e (p & -> & Hp)%list_elem_of_fmap (p' & -> & Hp')%list_elem_of_fmap He He'. destruct p as [n b], p' as [n' b'].
    apply elem_of_map_to_list in Hp, Hp'. simpl in *.
    destruct (event_block m Hcan n b e Hp He) as [Hn _], (event_block m Hcan n' b' e Hp' He') as [Hn' _]. congruence.
  - intros b (p & -> & Hp)%list_elem_of_fmap. destruct p as [n b]. apply elem_of_map_to_list in Hp.
    eapply NoDup_fmap_1, bv_logs. by eapply can_valid.
  - apply NoDup_fmap_2_strong; [|apply NoDup_map_to_list]. intros [n b] [n' b'] Hp Hp' Heq. simpl in Heq. subst b'.
    apply elem_of_map_to_list in Hp, Hp'. f_equal. by rewrite <- (can_key _ Hcan n b Hp), <- (can_key _ Hcan n' b Hp').
Qed.

(** ** Pages *)

Lemma row_newest_first_strict_weak : StrictWeak row_newest_first.
Proof.
  split; intros *; unfold row_newest_first;
    repeat match goal with |- context [?a =? ?b] => destruct (Z.eqb_spec a b) end; simpl;
    rewrite ?Z.ltb_irrefl, ?Z.ltb_lt; lia || done.
Qed.

(** Rows of events at distinct positions, newest first. *)
Lemma sorted_rows (E : list Event) rows :
  (forall e, e ∈ E -> event_of m e) -> NoDup E -> rows ≡ₚ row_of <$> E ->
  order_by row_newest_first rows = row_of <$> order_by newest_first E /\
  StronglySorted newer (cloneEvent <$> order_by newest_first E).
Proof.
  intros HE Hnd Hrows.
  assert (Hin : forall e, e ∈ order_by newest_first E -> event_of m e) by (intros e; rewrite order_by_perm; auto).
  assert (Hs : StronglySorted newer (order_by newest_first E)).
  { pose proof (order_by_sorted newest_first E newest_first_strict_weak) as Hs.
    assert (Hnd' : NoDup (order_by newest_first E)) by by rewrite order_by_perm. revert Hin Hnd'.
    induction Hs as [|a l Hs IH Ha]; [constructor|]. rewrite forall_elem_cons, NoDup_cons. intros [Hae Hl] [Hna Hnd'].
    constructor; [auto|]. rewrite list.Forall_forall in *. intros x Hx. specialize (Ha x Hx). simpl in Ha.
    apply newest_first_not_newer in Ha.
    assert (Hpos : ~ (Event_BlockNumber x = Event_BlockNumber a /\ Event_LogIndex x = Event_LogIndex a)).
    { intros [? ?]. apply Hna. replace a with x; [done|]. apply raw_event_inj; auto. }
    unfold newer in *. lia. }
  split.
  - apply order_by_eq.
    + apply row_newest_first_strict_weak.
    + by rewrite Hrows, order_by_perm.
    + clear -Hs. induction Hs as [|a l Hs IH Ha]; [constructor|]. rewrite fmap_cons. constructor; [done|].
      rewrite Forall_fmap. eapply Forall_impl; [exact Ha|]. intros x Hx. simpl.
      change (newest_first x a = false). apply newest_first_not_newer. unfold newer in *. lia.
    + intros ? ? (x & -> & Hx)%list_elem_of_fmap (y & -> & Hy)%list_elem_of_fmap Hxy Hyx.
      change (newest_first x y = false) in Hxy. change (newest_first y x = false) in Hyx.
      apply newest_first_not_newer in Hxy, Hyx. f_equal. apply raw_event_inj; [by auto|by auto| |]; unfold newer in *; lia.
  - clear -Hs. induction Hs as [|a l Hs IH Ha]; [constructor|]. rewrite fmap_cons. constructor; [done|].
    rewrite Forall_fmap. eapply Forall_impl; [exact Ha|]. intros x Hx. exact Hx.
Qed.

Lemma newer_unique l l' : StronglySorted newer l -> StronglySorted newer l' -> (forall e, e ∈ l <-> e ∈ l') -> l = l'.
Proof.
  intros Hs Hs' Hin. apply (StronglySorted_unique_strong newer); [|done|done|].
  - intros x y _ _ Hxy Hyx. unfold newer in *. lia.
  - apply NoDup_Permutation; [by apply newer_sorted_NoDup..|done].
Qed.

Definition row_before (c : option EventCursor) (a : event_args) : Prop :=
  match c with
  | None => True
  | Some c => earg_blockNumber a < Cursor_BlockNumber c \/
              earg_blockNumber a = Cursor_BlockNumber c /\ earg_logIndex a < Cursor_LogIndex c
  end.
#[local] Instance row_before_dec c a : Decision (row_before c a).
Proof. destruct c; simpl; apply _. Defined.

Lemma row_before_event c e : row_before c (enc_event e) <-> before c e.
Proof.
  by destruct c.
Qed.

Lemma page_rows addr c limit l :
  newest_events (pg_view db) addr l ->
  decode_events (take limit (order_by row_newest_first (joined_events db
    (filter (fun a => earg_address a = Some (array_bytes addr) /\ row_before c a) (event_logs db))))) =
  Ok (take limit (filter (before c) l)).
Proof.
  intros [Hs Hl]. set (Q := fun a => earg_address a = Some (array_bytes addr) /\ row_before c a).
  set (E := filter (fun e => Q (enc_event e)) raw_events).
  assert (HE : forall e, e ∈ E <-> event_of m e /\ Event_Address e = addr /\ before c e).
  { intros e. unfold E. rewrite list_elem_of_filter, elem_of_raw. unfold Q. rewrite row_before_event. simpl.
    split; [|naive_solver]. intros [[Ha ?] ?]. injection Ha as Ha%byte_array_eq. done. }
  destruct (sorted_rows E (joined_events db (filter Q (event_logs db)))) as [Hjoin Hsort];
    [intros e He; by apply HE|apply NoDup_filter, NoDup_raw|apply (joined_rows Q)|].
  rewrite Hjoin, <- fmap_take, decode_rows.
  - rewrite fmap_take. f_equal. f_equal. apply newer_unique; [done|by apply StronglySorted_filter|].
    intros e. rewrite list_elem_of_fmap, list_elem_of_filter, Hl, event_of_view. setoid_rewrite order_by_perm.
    setoid_rewrite HE. split.
    + intros (x & -> & Hx & Ha & Hb). split_and!; [done|eauto|done].
    + intros (Hb & (x & -> & Hx) & Ha). exists x. done.
  - intros e He. apply HE. rewrite <- (order_by_perm newest_first). by eapply elem_of_take in He as (? & ?%list_elem_of_lookup_2 & _).
Qed.
End Rows.

(** ** Answers *)
Section Answers.
Context `{GoRuntime} `{PostgresEngine}.

Lemma decode_hashes_rows txs :
  decode_hashes (targ_hash <$> (enc_tx <$> txs)) = Ok (Transaction_Hash <$> txs).
Proof.
  induction txs as [|t txs IH]; [done|]. rewrite !fmap_cons. unfold decode_hashes in *. cbn [foldr targ_hash enc_tx].
  rewrite decodeHash_bytes. cbn [map_err mbind result_bind]. by rewrite IH.
Qed.

Lemma view_lookup db m n : db_state db m -> pg_view db !! n = pg_stored <$> m !! n.
Proof. intros Hdb. by rewrite (pg_view_stored db m Hdb), lookup_fmap. Qed.

Lemma block_answers n w :
  env_ok (pg_env w) -> pg_ok (pg_now w) ->
  answers (Postgres_BlockByNumber n) w (Memory_BlockByNumber CtxOpen n (memory_of (pg_now w))).
Proof.
  intros Hw [m Hm]. unfold Postgres_BlockByNumber, Memory_BlockByNumber. cbn [check_ctx ctx_Err mbind result_bind].
  cbn [mem_bundles memory_of]. rewrite (view_lookup _ m n Hm). pose proof Hm as [_ Hcan Hst _ _].
  destruct (Z.ltb_spec max_int64 n) as [Hgt|Hle].
  { destruct (m !! n) as [b|] eqn:Hb; [|apply (answers_lift (Err _))].
    pose proof (storable_number b (Hst n b Hb)) as Hn. rewrite (can_key _ Hcan n b Hb) in Hn. lia. }
  rewrite postgresInt64_small by done.
  pose proof (answers_row pool_query (blockByNumberQuery n) (Err (store_err StoreErrNotFound)) "query block %d: %w" w
    _ Hw (answers_pool _ w)) as Hrow. unfold blockByNumberQuery in Hrow at 2. rewrite (block_filter _ m Hm) in Hrow.
  destruct (m !! n) as [b|] eqn:Hb; cbn [head fmap option_fmap option_map] in Hrow |- *.
  2: { apply (answers_bind _ _ w _ (fun _ => Err (store_err StoreErrNotFound)) Hrow). done. }
  destruct (storable_fields b (Hst n b Hb) (can_valid _ Hcan n b Hb)) as (Hblk & _ & _).
  eapply (answers_bind _ _ w _ (fun _ => Ok (mkBlockResult (cloneBlock (Bundle_Block (pg_stored b)))
    (Transaction_Hash <$> Bundle_Transactions (pg_stored b)))) Hrow).
  intros row w' [= <-] _. cbn [fst snd].
  match goal with |- answers (act_lift ?x) _ ?y => enough (Heq : x = y) by (rewrite Heq; apply answers_lift) end.
  rewrite Hblk. cbn [map_err mbind result_bind barg_number enc_block]. rewrite (can_key _ Hcan n b Hb).
  rewrite (transactions_of_rows _ m Hm n b Hb). unfold tx_rows. rewrite decode_hashes_rows. cbn [mbind result_bind].
  rewrite length_fmap. change (Block_TransactionCount (Bundle_Block (pg_stored b))) with (Block_TransactionCount (Bundle_Block b)).
  rewrite (bv_count _ (can_valid _ Hcan n b Hb)), Z.eqb_refl. cbn [negb reject_if mbind result_bind].
  by rewrite cloneBlock_id, pg_stored_hashes.
Qed.

(** ** Transactions *)

(** The snapshot a repeatable-read transaction sees: the state its first statement finds. *)
Definition snapshot_of (w : PgWorld) : Tables := pg_now (after_calls 1 w).

Lemma answers_read_tx {A} b c (body : Querier -> action PgWorld A) w r :
  (forall w', pg_env w' = pg_env w -> answers (body (snapshot_query (snapshot_of w))) w' r) ->
  answers (read_transaction_of (wrapf b) (wrapf c) body) w r.
Proof.
  intros Hb. unfold read_transaction_of. unfold answers, act_bind at 1, act_map_err at 1, call at 1, answer.
  destruct (pg_fault w) as [e|] eqn:Hf; cbn [map_err].
  { split_and!; [done|simpl; lia|intros Ho; apply Ho|]. left. eexists. split; [done|].
    by apply call_failed_wrapf, call_failed_here. }
  specialize (Hb (after_calls 1 w) eq_refl). change (pg_set (pg_now w) w) with (after_calls 1 w).
  assert (Hr : answers (act_bind (body (snapshot_query (snapshot_of w)))
    (fun a => do! act_map_err (wrapf c) call;; act_ret a)%action) (after_calls 1 w) (a ← r; Ok a)).
  { apply (answers_bind _ _ _ _ _ Hb). intros a w' _ _.
    apply (answers_bind _ _ _ (Ok tt) (fun _ => Ok a)); [|intros; apply answers_ret].
    apply (answers_map_err call c w' (Ok tt)), answers_call. }
  unfold answers in Hr. unfold snapshot_of in Hr. destruct (act_bind _ _ _) as [r' w']. destruct Hr as (He & Hc & Ho & Hr).
  split_and!; [done|simpl in Hc; lia| |].
  - intros Hid. rewrite Ho by done. simpl. apply Hid.
  - destruct Hr as [(e & -> & Hfail)| ->]; [left|right; by destruct r]. exists e. split; [done|].
    apply (call_failed_later w (after_calls 1 w)); [done|simpl; lia|done].
Qed.

(** The events of one transaction have distinct log indexes. *)
Lemma transaction_logs m h E :
  canonical m -> NoDup E -> (forall e, e ∈ E -> event_of m e /\ Event_TransactionHash e = h) -> NoDup (Event_LogIndex <$> E).
Proof.
  intros Hcan Hnd HE. apply NoDup_fmap_2_strong; [|done]. intros x y Hx Hy Hxy.
  destruct (HE x Hx) as [Hxe Hxh], (HE y Hy) as [Hye Hyh]. apply (event_position_inj m Hcan); try done.
  destruct Hxe as (n & b & Hb & Hxb), Hye as (n' & b' & Hb' & Hyb).
  destruct (event_block m Hcan n b x Hb Hxb) as [-> _], (event_block m Hcan n' b' y Hb' Hyb) as [-> _].
  eapply (can_tx _ Hcan n b n' b' h Hb Hb').
  - rewrite <- Hxh. destruct (bv_event _ (can_valid _ Hcan n b Hb) x Hxb) as (_ & _ & _ & t & Ht & <- & _).
    by apply list_elem_of_fmap_2.
  - rewrite <- Hyh. destruct (bv_event _ (can_valid _ Hcan n' b' Hb') y Hyb) as (_ & _ & _ & t & Ht & <- & _).
    by apply list_elem_of_fmap_2.
Qed.

Lemma log_sorted_unique l l' :
  StronglySorted (fun x y => Event_LogIndex x < Event_LogIndex y) l ->
  StronglySorted (fun x y => Event_LogIndex x < Event_LogIndex y) l' -> (forall e, e ∈ l <-> e ∈ l') -> l = l'.
Proof.
  assert (Hnd : forall l, StronglySorted (fun x y => Event_LogIndex x < Event_LogIndex y) l -> NoDup l).
  { induction 1 as [|a k Hs IH Ha]; constructor; [|done]. intros Hin. rewrite list.Forall_forall in Ha.
    specialize (Ha a Hin). simpl in Ha. lia. }
  intros Hs Hs' Hin. apply (StronglySorted_unique_strong (fun x y => Event_LogIndex x < Event_LogIndex y)); [|done|done|].
  - intros x y _ _ Hxy Hyx. simpl in *. lia.
  - by apply NoDup_Permutation; [apply Hnd..|].
Qed.

(** The stored events of a transaction, by log index. *)
Definition tx_events (m : bundle_map) (h : Hash) : list Event :=
  cloneEvent <$> order_by log_index_less (filter (fun e => Event_TransactionHash e = h) (raw_events m)).

Lemma tx_events_sorted db m h :
  db_state db m ->
  StronglySorted (fun x y => Event_LogIndex x < Event_LogIndex y) (tx_events m h) /\
  forall e, e ∈ tx_events m h <-> event_of (pg_view db) e /\ Event_TransactionHash e = h.
Proof.
  intros Hm. set (E := filter (fun e => Event_TransactionHash e = h) (raw_events m)).
  assert (HE : forall e, e ∈ E <-> event_of m e /\ Event_TransactionHash e = h).
  { intros e. unfold E. rewrite list_elem_of_filter, elem_of_raw. tauto. }
  assert (Hnd : NoDup (Event_LogIndex <$> E)).
  { apply (transaction_logs m h); [apply Hm|by apply NoDup_filter, (NoDup_raw db)|]. intros e. apply HE. }
  split.
  - unfold tx_events. fold E. pose proof (order_by_strict Event_LogIndex E Hnd) as Hs.
    change (fun x y => Event_LogIndex x <? Event_LogIndex y) with log_index_less in Hs.
    induction Hs as [|a k Hs IH Ha]; [constructor|]. rewrite fmap_cons. constructor; [done|].
    rewrite Forall_fmap. eapply Forall_impl; [exact Ha|]. done.
  - intros e. unfold tx_events. fold E. rewrite list_elem_of_fmap, (event_of_view db m Hm). setoid_rewrite order_by_perm.
    setoid_rewrite HE. naive_solver.
Qed.

Lemma events_answers (q : Querier) (h : Hash) w S m :
  db_state S m -> answers (q _ (eventsForTransactionQuery (Some (array_bytes h)))) w
                    (Ok (eventsForTransactionQuery (Some (array_bytes h)) S)) ->
  answers (queryEventsForTransaction q h) w (Ok (tx_events m h)).
Proof.
  intros Hm Hq. unfold queryEventsForTransaction. set (E := filter (fun e => Event_TransactionHash e = h) (raw_events m)).
  assert (HE : forall e, e ∈ E <-> event_of m e /\ Event_TransactionHash e = h).
  { intros e. unfold E. rewrite list_elem_of_filter, elem_of_raw. tauto. }
  assert (Hnd : NoDup (Event_LogIndex <$> E)).
  { apply (transaction_logs m h); [apply Hm|by apply NoDup_filter, (NoDup_raw S)|]. intros e. apply HE. }
  assert (Hrows : eventsForTransactionQuery (Some (array_bytes h)) S = row_of <$> order_by log_index_less E).
  { unfold eventsForTransactionQuery. rewrite <- (order_by_fmap row_of Event_LogIndex erow_logIndex E) by done.
    assert (Hp : joined_events S (filter (fun a => earg_transactionHash a = Some (array_bytes h)) (event_logs S)) ≡ₚ row_of <$> E).
    { rewrite (joined_rows S m Hm (fun a => earg_transactionHash a = Some (array_bytes h))). unfold E. apply reflexive_eq. f_equal. apply list_filter_iff. intros e. simpl.
      split; [by intros [= ?%byte_array_eq]|by intros ->]. }
    apply order_by_key; [by rewrite Hp, order_by_perm|]. apply order_by_strict. by rewrite <- list_fmap_compose. }
  apply (answers_map_err _ "query events for transaction %s: %w") in Hq. rewrite Hrows in Hq. cbn [map_err] in Hq.
  apply (answers_bind _ _ w _ (fun _ => Ok (tx_events m h)) Hq). intros rows w' [= <-] _.
  apply (answers_map_err _ _ w' (Ok (tx_events m h))). unfold scanPostgresEvents.
  rewrite (decode_rows S m Hm) by (intros e; rewrite order_by_perm; intros He; by apply HE).
  apply (answers_bind _ _ w' (Ok tt) (fun _ => Ok (tx_events m h)) (answers_call w')). intros; apply answers_ret.
Qed.

Lemma transaction_row db m (h : Hash) :
  db_state db m ->
  match transactionByHashQuery (Some (array_bytes h)) db with
  | Some row => exists n b t, m !! n = Some b /\ t ∈ Bundle_Transactions b /\ Transaction_Hash t = h /\
                  row = read_transaction (Some (array_bytes (bundle_hash b))) (enc_tx t)
  | None => forall n b, m !! n = Some b -> ~ contains_tx b h
  end.
Proof.
  intros Hm. pose proof Hm as [Hr Hcan _ _ _]. unfold transactionByHashQuery. rewrite (tx_filter db m Hm h).
  destruct (filter _ (transactions db)) as [|a l] eqn:Hf.
  - intros n b Hb (t & Hh & Ht)%list_elem_of_fmap. subst h.
    assert (Hin : enc_tx t ∈ filter (fun a => targ_hash a = Some (array_bytes (Transaction_Hash t))) (transactions db)).
    { apply list_elem_of_filter. split; [done|]. rewrite (tr_txs _ _ Hr). apply elem_of_rows. exists n, b.
      split; [done|]. by apply list_elem_of_fmap_2. }
    rewrite Hf in Hin. by apply elem_of_nil in Hin.
  - assert (Hin : a ∈ filter (fun a => targ_hash a = Some (array_bytes h)) (transactions db)) by (rewrite Hf; left).
    apply list_elem_of_filter in Hin as [Ha Hin]. rewrite (tr_txs _ _ Hr) in Hin.
    apply elem_of_rows in Hin as (n & b & Hb & (t & -> & Ht)%list_elem_of_fmap). rewrite bind_cons.
    rewrite (tx_row_number m Hcan n b (enc_tx t) Hb) by by apply list_elem_of_fmap_2.
    rewrite (block_filter db m Hm), Hb. simpl. exists n, b, t. split_and!; try done.
    simpl in Ha. by injection Ha as Ha%byte_array_eq.
Qed.

(** The memory store finds, in the blocks the tables stand for, the stored transaction the row names, with the
    events the second query reads. *)
Lemma stored_transaction_found S m h n b t :
  db_state S m -> m !! n = Some b -> t ∈ Bundle_Transactions b -> Transaction_Hash t = h ->
  find_in_bundles h (go_range (mem_bundles (memory_of S))) = Some (mkTransactionResult (cloneTransaction t) (tx_events m h)).
Proof.
  intros Hm Hb Ht Hth. pose proof (memory_of_ok S m Hm) as Hmem.
  assert (Hvb : pg_view S !! n = Some (pg_stored b)) by (rewrite (view_lookup S m n Hm), Hb; done).
  set (t' := cloneTransaction t). assert (Ht' : t' ∈ Bundle_Transactions (pg_stored b)) by by apply list_elem_of_fmap_2.
  assert (Hh' : Transaction_Hash t' = h) by done.
  pose proof (find_stored (memory_of S) Hmem n (pg_stored b) t' Hvb Ht') as Hfind. rewrite Hh' in Hfind. rewrite Hfind.
  assert (Hev : TransactionResult_Events (transaction_result h (pg_stored b) t') = tx_events m h).
  { destruct (transaction_events (memory_of S) Hmem n (pg_stored b) t' h Hvb Ht' Hh') as [Hs He].
    destruct (tx_events_sorted S m h Hm) as [Hs2 He2]. apply log_sorted_unique; [done|done|].
    intros e. rewrite He2. apply He. }
  rewrite <- Hev. unfold transaction_result, t'. cbn [TransactionResult_Events]. by rewrite cloneTransaction_idem.
Qed.

Lemma transaction_answers h w :
  env_ok (pg_env w) -> pg_ok (snapshot_of w) ->
  answers (Postgres_TransactionByHash h) w (Memory_TransactionByHash CtxOpen h (memory_of (snapshot_of w))).
Proof.
  intros Hw [m Hm]. set (S := snapshot_of w) in *. pose proof Hm as [_ Hcan Hst _ _].
  unfold Memory_TransactionByHash. cbn [check_ctx ctx_Err mbind result_bind].
  apply answers_read_tx. fold S. intros w' Hw'. pose proof (transaction_row S m h Hm) as Hrow.
  assert (Hq : answers (on_error (query_row (snapshot_query S) (transactionByHashQuery (Some (array_bytes h))))
     (fun e => if no_rows e then Err (store_err StoreErrNotFound) else Err (wrapf "query transaction %s: %w" e))) w'
     (match transactionByHashQuery (Some (array_bytes h)) S with Some a => Ok a | None => Err (store_err StoreErrNotFound) end)).
  { apply answers_row; [by rewrite Hw'|apply answers_snapshot]. }
  destruct (transactionByHashQuery (Some (array_bytes h)) S) as [row|].
  - destruct Hrow as (n & b & t & Hb & Ht & Hth & ->). rewrite (stored_transaction_found S m h n b t Hm Hb Ht Hth).
    destruct (storable_fields b (Hst n b Hb) (can_valid _ Hcan n b Hb)) as (_ & Htx & _).
    set (res := mkTransactionResult (cloneTransaction t) (tx_events m h)).
    apply (answers_bind _ _ w' _ (fun _ => Ok res) Hq). intros row w1 [= <-] He1. rewrite (Htx t Ht). cbn [map_err].
    apply (answers_bind _ _ w1 _ (fun _ => Ok res) (answers_lift (Ok (cloneTransaction t)) w1)). intros t0 w2 [= <-] He2.
    apply (answers_bind _ _ w2 _ (fun _ => Ok res) (events_answers _ h w2 S m Hm (answers_snapshot S _ w2))).
    intros evs w3 [= <-] He3. apply answers_ret.
  - pose proof (find_in_bundles_spec h (go_range (mem_bundles (memory_of S)))) as Hfind.
    destruct (find_in_bundles h _) as [r|]; [|by apply (answers_bind _ _ w' _ (fun _ => Err (store_err StoreErrNotFound)) Hq)].
    destruct Hfind as (n & b & t & Hb%elem_of_go_range & Ht & Hh & _). simpl in Hb. rewrite (view_lookup S m n Hm) in Hb.
    destruct (m !! n) as [c|] eqn:Hc; [|done]. injection Hb as <-. destruct (Hrow n c Hc). unfold contains_tx.
    rewrite <- pg_stored_hashes, <- Hh. by apply list_elem_of_fmap_2.
Qed.

(** ** Pages *)

Lemma answers_value {A B} (a : A) (k : A -> action PgWorld B) w r :
  answers (k a) w r -> answers (act_bind (act_lift (Ok a)) k) w r.
Proof. done. Qed.

(** The look-ahead of one row cuts the same page as the full list. *)
Lemma cut_lookahead limit (l : list Event) :
  0 < limit ->
  (let events := take (Z.to_nat (limit + 1)) l in
   if Z.of_nat (length events) <=? limit then Ok (mkPage events None)
   else
     let pageEvents := take (length events - 1) events in
     match pageEvents !! (length pageEvents - 1)%nat with
     | None => Panic "index out of range"
     | Some lastEvent => Ok (mkPage pageEvents (Some (cursor_at lastEvent)))
     end) = Ok (page_of limit l).
Proof.
  intros Hl. unfold page_of. rewrite (proj2 (Z.eqb_neq _ _)) by lia. cbn zeta. rewrite length_take.
  destruct (Z.leb_spec (Z.of_nat (length l)) limit) as [Hle|Hgt].
  - rewrite (proj2 (Z.leb_le _ _)) by lia. by rewrite take_ge by lia.
  - rewrite (proj2 (Z.leb_gt _ _)) by lia. replace (Z.to_nat (limit + 1) `min` length l - 1)%nat with (Z.to_nat limit) by lia.
    rewrite take_take, Nat.min_l, length_take, Nat.min_l, lookup_take_lt by lia.
    destruct (l !! (Z.to_nat limit - 1)%nat) as [x|] eqn:E; [done|]. apply lookup_ge_None in E. lia.
Qed.

Lemma page_answers (q : Querier) query w S m l :
  db_state S m -> newest_events (pg_view S) (Query_Address query) l -> 0 <= Query_Limit query <= MaxEventPageSize ->
  (forall c, Query_Before query = Some c -> Cursor_BlockNumber c <= max_int64 /\ Cursor_LogIndex c <= max_int64) ->
  (forall A (f : Tables -> A), answers (q A f) w (Ok (f S))) ->
  answers (queryAddressEventPage q query) w
    (Ok (page_of (Query_Limit query) (filter (before (Query_Before query)) l))).
Proof.
  intros Hm Hl Hlim Hc Hq. unfold queryAddressEventPage. unfold MaxEventPageSize in Hlim.
  destruct (Z.eqb_spec (Query_Limit query) 0) as [H0'|Hne].
  { rewrite H0'. apply answers_ret. }
  set (limit := Query_Limit query) in *. set (L := filter (before (Query_Before query)) l) in *.
  rewrite postgresInt64_small by (unfold max_int64; lia).
  apply answers_value. set (address := Some (array_bytes (Query_Address query))).
  assert (Hrows : exists rows, decode_events rows = Ok (take (Z.to_nat (limit + 1)) L) /\
    answers (match Query_Before query with
      | None => act_map_err (wrapf "query events for address %s: %w") (q _ (eventsByAddressQuery address (limit + 1)))
      | Some before =>
          number <-- act_lift (postgresInt64 (Cursor_BlockNumber before));;
          logIndex <-- act_lift (postgresInt64 (Cursor_LogIndex before));;
          act_map_err (wrapf "query events for address %s: %w")
            (q _ (eventsByAddressBeforeQuery address number logIndex (limit + 1)))
      end)%action w (Ok rows)).
  { unfold L. destruct (Query_Before query) as [c|].
    - destruct (Hc c eq_refl) as [Hn Hi].
      exists (eventsByAddressBeforeQuery address (Cursor_BlockNumber c) (Cursor_LogIndex c) (limit + 1) S). split.
      + by apply (page_rows S m Hm (Query_Address query) (Some c)).
      + rewrite !postgresInt64_small by done. do 2 apply answers_value. apply (answers_map_err _ _ w (Ok _)), Hq.
    - exists (eventsByAddressQuery address (limit + 1) S). split; [|apply (answers_map_err _ _ w (Ok _)), Hq].
      rewrite <- (page_rows S m Hm (Query_Address query) None _ l Hl). unfold eventsByAddressQuery.
      do 4 f_equal. apply list_filter_iff. intros a. simpl. tauto. }
  destruct Hrows as (rows & Hdec & Hrows).
  apply (answers_bind _ _ w _ (fun _ => Ok (page_of limit L)) Hrows). intros rows' w1 [= <-] _.
  apply (answers_bind _ _ w1 (Ok (take (Z.to_nat (limit + 1)) L)) (fun _ => Ok (page_of limit L))).
  - apply (answers_map_err _ _ w1 (Ok _)). unfold scanPostgresEvents. rewrite Hdec. apply answers_value.
    apply (answers_bind _ _ w1 (Ok tt) (fun _ => Ok _) (answers_call w1)). intros; apply answers_ret.
  - intros events w2 [= <-] _. rewrite <- (cut_lookahead limit L) by lia. apply answers_lift.
Qed.

Definition cursor_stored (S : Tables) (c : EventCursor) : bool :=
  match pg_view S !! Cursor_BlockNumber c with
  | Some b => bool_decide (bundle_hash b = Cursor_BlockHash c)
  | None => false
  end.

Lemma cursor_stored_fresh S c : cursor_stored S c = true <-> fresh_cursor (memory_of S) (Some c).
Proof.
  unfold cursor_stored, fresh_cursor. simpl. destruct (pg_view S !! _) as [b|]; [|naive_solver].
  rewrite bool_decide_eq_true. naive_solver.
Qed.

Lemma cursor_answers S m c w :
  db_state S m -> answers (canonicalCursorExists (snapshot_query S) c) w (Ok (cursor_stored S c)).
Proof.
  intros Hm. pose proof Hm as [Hr Hcan Hst _ _]. unfold canonicalCursorExists, cursor_stored. rewrite (view_lookup S m _ Hm).
  destruct (Z.ltb_spec max_int64 (Cursor_BlockNumber c)) as [Hgt|Hle].
  { destruct (m !! Cursor_BlockNumber c) as [b|] eqn:Hb; [|apply answers_ret].
    pose proof (storable_number b (Hst _ b Hb)) as Hn. rewrite (can_key _ Hcan _ b Hb) in Hn. lia. }
  rewrite postgresInt64_small by done. apply answers_value.
  enough (Heq : cursorExistsQuery (Cursor_BlockNumber c) (Some (array_bytes (Cursor_BlockHash c))) S =
    match pg_stored <$> m !! Cursor_BlockNumber c with
    | Some b => bool_decide (bundle_hash b = Cursor_BlockHash c) | None => false end).
  { rewrite <- Heq. apply (answers_map_err _ _ w (Ok _)), answers_snapshot. }
  assert (Hex : Exists (fun a => barg_number a = Cursor_BlockNumber c /\
      barg_hash a = Some (array_bytes (Cursor_BlockHash c))) (blocks S) <->
    exists b, m !! Cursor_BlockNumber c = Some b /\ bundle_hash b = Cursor_BlockHash c).
  { rewrite Exists_exists. setoid_rewrite (tr_blocks _ _ Hr). setoid_rewrite elem_of_rows. split.
    - intros (a & (n & b & Hb & ->%list_elem_of_singleton) & Hn & Hh). simpl in *.
      rewrite (can_key _ Hcan n b Hb) in Hn. subst n. injection Hh as Hh%byte_array_eq. eauto.
    - intros (b & Hb & Hh). exists (enc_block (Bundle_Block b)). simpl. rewrite Hh, (can_key _ Hcan _ b Hb).
      split_and!; [|done|done]. exists (Cursor_BlockNumber c), b. split; [done|]. by apply list_elem_of_singleton. }
  unfold cursorExistsQuery. destruct (m !! Cursor_BlockNumber c) as [b|]; simpl.
  - apply bool_decide_ext. rewrite Hex. naive_solver.
  - apply bool_decide_eq_false. rewrite Hex. naive_solver.
Qed.

(** The committed state a page is read from. *)
Definition page_snapshot (query : EventQuery) (w : PgWorld) : Tables :=
  match Query_Before query with None => pg_now w | Some _ => snapshot_of w end.

Lemma address_answers query w :
  env_ok (pg_env w) -> pg_ok (page_snapshot query w) -> 0 <= Query_Limit query ->
  (forall c, Query_Before query = Some c -> Cursor_typed c) ->
  answers (Postgres_EventsByAddress query) w
    (Memory_EventsByAddress (env_ctx (pg_env w) (pg_calls w)) query (memory_of (page_snapshot query w))).
Proof.
  intros Hw [m Hm] Hlim Hty. unfold Postgres_EventsByAddress, page_snapshot in *.
  destruct (env_ctx (pg_env w) (pg_calls w)) eqn:Hctx;
    [|unfold answers, act_bind, pg_check_ctx; rewrite Hctx; split_and!; [done|done|done|by right]..].
  assert (Hskip : forall k r, answers (k tt) w r -> answers (@act_bind PgWorld unit EventPage pg_check_ctx k) w r).
  { intros k r Hk. unfold answers, act_bind, pg_check_ctx. by rewrite Hctx. }
  apply Hskip. clear Hskip. destruct (Z.ltb_spec MaxEventPageSize (Query_Limit query)) as [Hgt|Hle].
  { unfold Memory_EventsByAddress. rewrite (proj2 (Z.ltb_lt _ _)) by done. apply (answers_lift (Err _)). }
  apply answers_value. set (S := match Query_Before query with None => pg_now w | Some _ => snapshot_of w end) in *.
  pose proof (memory_of_ok S m Hm) as Hmem. pose proof (address_events_newest (memory_of S) Hmem (Query_Address query)) as Hl.
  set (l := address_events (memory_of S) (Query_Address query)) in *.
  destruct (Query_Before query) as [c|] eqn:Hb.
  - apply answers_read_tx. fold S. intros w' _.
    apply (answers_bind _ _ w' _ (fun _ => Memory_EventsByAddress CtxOpen query (memory_of S)) (cursor_answers S m c w' Hm)). intros v w1 [= <-] _.
    pose proof (cursor_stored_fresh S c) as Hcs. destruct (cursor_stored S c) eqn:Hstored.
    + rewrite (events_page (memory_of S) Hmem query l) by (done || (rewrite Hb; by apply Hcs)). apply answers_value.
      apply (page_answers _ query w1 S m l); [done|done|done| |intros A f; apply answers_snapshot].
      intros c' Hc'. rewrite Hb in Hc'. injection Hc' as <-. destruct (Hty c eq_refl) as [_ Hli]. split; [|int_lia].
      destruct (proj1 Hcs eq_refl) as (b & Hb' & _). simpl in Hb'. rewrite (view_lookup S m _ Hm) in Hb'.
      pose proof Hm as [_ Hcan Hst _ _]. destruct (m !! Cursor_BlockNumber c) as [b0|] eqn:Hb0; [|done].
      pose proof (storable_number b0 (Hst _ b0 Hb0)) as Hn. rewrite (can_key _ Hcan _ b0 Hb0) in Hn. lia.
    + unfold Memory_EventsByAddress. rewrite (proj2 (Z.ltb_ge _ _)) by done. rewrite Hb. unfold cursor_stored in Hstored.
      change (mem_bundles (memory_of S)) with (pg_view S). cbn [check_ctx ctx_Err mbind result_bind reject_if].
      destruct (pg_view S !! Cursor_BlockNumber c) as [b|]; [rewrite Hstored|]; apply (answers_lift (Err _)).
  - rewrite (events_page (memory_of S) Hmem query l) by (done || by rewrite Hb).
    apply (page_answers _ query w S m l); [done|done|done|by rewrite Hb|intros A f; apply answers_pool].
Qed.

Lemma pg_now_ok w :
  (forall k db, pg_ok db -> pg_ok (env_others (pg_env w) k db)) -> pg_ok (pg_db w) ->
  pg_ok (pg_now w) /\ pg_ok (snapshot_of w).
Proof.
  intros Ho Hdb. split; [by apply Ho|]. unfold snapshot_of, pg_now. destruct (after_calls_ok 1 w Ho Hdb) as [? ->].
  by apply Ho.
Qed.

(** C14: The PostgreSQL store answers queries as the in-memory store does.  Whatever other
    sessions commit meanwhile, unless a call fails each of [BlockByNumber],
    [TransactionByHash] and [EventsByAddress] returns exactly what the in-memory store
    returns on the blocks of one committed state: the same data, the same page and next
    cursor, the same not-found, invalid-query, stale-cursor and context errors.  A
    failed call is reported as an error that wraps the driver's. *)
Theorem postgres_queries_as_memory w n h query :
  env_ok (pg_env w) -> (forall k db, pg_ok db -> pg_ok (env_others (pg_env w) k db)) -> pg_ok (pg_db w) ->
  0 <= Query_Limit query -> (forall c, Query_Before query = Some c -> Cursor_typed c) ->
  answers (Postgres_BlockByNumber n) w (Memory_BlockByNumber CtxOpen n (memory_of (pg_now w))) /\
  answers (Postgres_TransactionByHash h) w (Memory_TransactionByHash CtxOpen h (memory_of (snapshot_of w))) /\
  answers (Postgres_EventsByAddress query) w
    (Memory_EventsByAddress (env_ctx (pg_env w) (pg_calls w)) query (memory_of (page_snapshot query w))).
Proof.
  intros Hw Ho Hdb Hlim Hty. destruct (pg_now_ok w Ho Hdb) as [Hnow Hsnap].
  split_and!; [by apply block_answers|by apply transaction_answers|apply address_answers; try done].
  unfold page_snapshot. by destruct (Query_Before query).
Qed.
End Answers.
