(* ===== verification/PostgresEval.v ===== *)
(** * A concrete database session

    One engine and one session on which the definitions of the PostgreSQL store are
    evaluated: an initial load, a reorganization, failing calls and a lost commit. *)
From S2P Require Import Prelude Errors Domain Validate Store Fixtures Memory MemoryStore MemoryQueries Codec Postgres PostgresTx PostgresRows PostgresStore PostgresView PostgresContract PostgresQueries.
From stdpp Require Import prelude gmap sorting list strings.
From Stdlib Require Import ZArith Lia.

Local Open Scope Z_scope.

Definition null_numeric : Numeric := mkNumeric None 0 false true false.

Lemma default_numeric_column a : numeric_column a (default null_numeric a).
Proof. destruct a; simpl; auto. Qed.

Definition reference_engine : PostgresEngine := {|
  db_numeric := default null_numeric;
  db_numeric_column := default_numeric_column;
  db_time t := t;
  order_by A less l := reference_sort less l;
  order_by_perm A less l := @go_sort_perm reference_runtime A less l;
  order_by_sorted A less l := @go_sort_sorted reference_runtime A less l
|}.

#[local] Existing Instances reference_runtime reference_engine.

(** Calls that fail with the given errors; nobody else writes. *)
Definition env_with (fault : nat -> option error) (kept : bool) : PgEnv :=
  mkPgEnv (fun _ db => db) fault (fun _ => CtxOpen) (fun _ => kept).
Definition quiet_env : PgEnv := env_with (fun _ => None) false.
Definition start_session : PgWorld := mkPg quiet_env empty_tables 0.

Definition loaded : result unit * PgWorld := Postgres_ApplyCanonicalUpdate fixture_update start_session.
Definition forked : result unit * PgWorld := Postgres_ApplyCanonicalUpdate fork_update loaded.2.

Example load_succeeds : loaded.1 = Ok tt /\ sync_number <$> sync_state (pg_db loaded.2) = [Some 12].
Proof. vm_compute. done. Qed.

Example fork_succeeds : forked.1 = Ok tt /\ barg_number <$> blocks (pg_db forked.2) = [11; 12; 13].
Proof. vm_compute. done. Qed.

Lemma quiet_env_ok : env_ok quiet_env.
Proof. by intros n e. Qed.

Lemma empty_ok : pg_ok empty_tables.
Proof. exists ∅. apply empty_state. Qed.

Lemma loaded_reachable : pg_reachable (pg_db loaded.2).
Proof. apply reach_update; [apply reach_empty|apply fixture_update_typed|apply quiet_env_ok|done]. Qed.

Lemma loaded_ok : pg_ok (pg_db loaded.2).
Proof. apply pg_reachable_ok, loaded_reachable. Qed.

Lemma loaded_env : pg_env loaded.2 = quiet_env.
Proof. vm_compute. reflexivity. Qed.

Lemma postgres_apply_correct_witness :
  exists m, db_state (lock_state loaded.2) m /\ db_state (pg_db forked.2) (apply_update m fork_update).
Proof.
  pose proof (postgres_apply_correct fork_update loaded.2) as Ha. rewrite loaded_env in Ha.
  destruct (Ha quiet_env_ok (fun _ _ H => H) loaded_ok fork_update_typed) as [_ _ Hok _ _].
  destruct (Hok (proj1 fork_succeeds)) as (m & Hm & _ & _ & Hm'). exists m. split; [exact Hm|exact Hm'].
Defined.

Lemma postgres_reachable_canonical_witness : canonical (pg_view (pg_db loaded.2)).
Proof. exact (proj1 (postgres_reachable_canonical (pg_db loaded.2) loaded_reachable)). Defined.

Lemma insert_bundles_unbatched_witness :
  refines (insertCanonicalBundles [block10])
    (fun db => db' ← map_err insert_failed (exec_batch ([block10] ≫= bundle_statements) db); Ok (tt, db')).
Proof.
  apply (insert_bundles_unbatched [block10]). intros b ->%list_elem_of_singleton. split_and!.
  - vm_compute. reflexivity.
  - intros t ->%list_elem_of_singleton. vm_compute. reflexivity.
  - intros e He. repeat (apply elem_of_cons in He as [->|He]; [vm_compute; reflexivity|]). by apply elem_of_nil in He.
Defined.

Lemma postgres_queries_as_memory_witness :
  answers (Postgres_BlockByNumber 11) loaded.2 (Memory_BlockByNumber CtxOpen 11 (memory_of (pg_now loaded.2))).
Proof.
  refine (proj1 (postgres_queries_as_memory loaded.2 11 (hash_of 111) (mkQuery (address_of 7) 2 None) _ _ _ _ _)).
  - rewrite loaded_env. apply quiet_env_ok.
  - rewrite loaded_env. exact (fun _ _ H => H).
  - apply loaded_ok.
  - done.
  - done.
Defined.

(** A batch that fails rolls the deletions back; a commit whose answer is lost may have
    been applied. *)
Definition broken : error := Errorf "connection reset" [].
Definition fail_at (n : nat) (kept : bool) : PgWorld :=
  mkPg (env_with (fun k => if (k =? n)%nat then Some broken else None) kept) (pg_db loaded.2) 0.

Example batch_failure_rolls_back :
  pg_db (Postgres_ApplyCanonicalUpdate fork_update (fail_at 5 false)).2 = pg_db loaded.2.
Proof. vm_compute. reflexivity. Qed.

Example lost_commit_kept :
  (Postgres_ApplyCanonicalUpdate fork_update (fail_at 8 true)).1 = Err (wrapf "commit canonical update: %w" broken) /\
  pg_db (Postgres_ApplyCanonicalUpdate fork_update (fail_at 8 true)).2 = pg_db forked.2.
Proof. vm_compute. done. Qed.
