(* ===== verification/PostgresLive.v ===== *)
(** * Synchronization over the PostgreSQL store makes progress

    The PostgreSQL store, alone on its database and without failing calls, accepts the
    updates of a cycle, so the synchronizer's progress theorem applies to it. *)
From S2P Require Import Prelude Errors Domain Validate Store Memory MemoryStore Syncer SyncerProofs Endpoint SyncerLive Codec Postgres PostgresTx PostgresRows PostgresStore PostgresView PostgresContract PostgresQueries PostgresEval.
From stdpp Require Import prelude gmap sorting list strings.
From Stdlib Require Import ZArith Lia.

Local Open Scope Z_scope.

(** The new blocks of a canonical update are canonical by themselves. *)
Lemma new_blocks_canonical m u :
  contiguous u -> Forall bundle_valid (Update_Blocks u) -> canonical (apply_update m u) ->
  canonical (insert_blocks ∅ (Update_Blocks u)).
Proof.
  intros Hc Hv Hcan.
  assert (forall n b, insert_blocks ∅ (Update_Blocks u) !! n = Some b <->
    Update_ReplaceFrom u <= n < Update_ReplaceFrom u + Z.of_nat (length (Update_Blocks u)) /\
    apply_update m u !! n = Some b) as Hl.
  { intros n b. rewrite (insert_blocks_lookup_ge _ _ (Update_ReplaceFrom u)), apply_update_lookup by done.
    case_decide; [naive_solver|]. rewrite lookup_empty. naive_solver. }
  split.
  - intros n b [_ Hb]%Hl. by apply (can_key _ Hcan).
  - intros n b [_ Hb]%Hl. by eapply (can_valid _ Hcan).
  - intros n b k [Hn Hb]%Hl Hlt [c [Hk Hck]%Hl]. destruct (can_next _ Hcan n b k Hb Hlt ltac:(by eauto)) as (d & Hd & Hp).
    exists d. split; [apply Hl; split; [lia|done]|done].
  - intros n b n' b' h [_ Hb]%Hl [_ Hb']%Hl. by apply (can_tx _ Hcan).
Qed.

Section Live.
Context `{GoRuntime} `{PostgresEngine}.

(** The canonicity of a segment does not depend on how its blocks are stored. *)
Lemma pg_stored_canonical_inv m :
  (forall n b, m !! n = Some b -> bundle_valid b) -> canonical (pg_stored <$> m) -> canonical m.
Proof.
  intros Hv Hcan. assert (forall n b, m !! n = Some b -> (pg_stored <$> m) !! n = Some (pg_stored b)) as Hl
    by (intros n b Hb; by rewrite lookup_fmap, Hb).
  split.
  - intros n b Hb. exact (can_key _ Hcan n _ (Hl n b Hb)).
  - done.
  - intros n b k Hb Hlt Hk. destruct (can_next _ Hcan n _ k (Hl n b Hb) Hlt) as (c & Hc & Hp).
    { by rewrite lookup_fmap, fmap_is_Some. }
    apply lookup_fmap_Some in Hc as (d & <- & Hd). by exists d.
  - intros n b n' b' h Hb Hb' Hh Hh'. apply (can_tx _ Hcan n _ n' _ h (Hl n b Hb) (Hl n' b' Hb')).
    + unfold contains_tx. by rewrite pg_stored_hashes.
    + unfold contains_tx. by rewrite pg_stored_hashes.
Qed.

Lemma pg_stored_distinct_inv m : distinct_hashes (pg_stored <$> m) -> distinct_hashes m.
Proof.
  intros Hd n b n' b' Hb Hb' Hh. apply (Hd n (pg_stored b) n' (pg_stored b')); rewrite ?lookup_fmap, ?Hb, ?Hb'; done.
Qed.

Lemma no_fault env e : (forall n, env_fault env n = None) -> ~ from_fault env e.
Proof. intros Hf (n & e0 & He & _). by rewrite Hf in He. Qed.

Lemma answers_env {A} (m : action PgWorld A) w r : answers m w r -> pg_env (m w).2 = pg_env w.
Proof. unfold answers. destruct (m w). by intros [? _]. Qed.

#[global] Program Instance postgres_store_live : IndexStoreLive PgWorld := {|
  store_up id w := session_ok w /\ (forall n, env_fault (pg_env w) n = None) /\ id <= max_int64 /\
                   forall r, r ∈ sync_state (pg_db w) -> sync_chain_id r = id;
  keepable b := storable b /\ non_nil b;
  block_limit := max_int64
|}.
Next Obligation. done. Qed.
Next Obligation. by intros id w (? & _). Qed.
Next Obligation. intros b. apply pg_stored_valid. Qed.
Next Obligation. intros b h. unfold contains_tx. change (stored_as b) with (pg_stored b). by rewrite pg_stored_hashes. Qed.
Next Obligation.
  intros id w (Hs & Hf & Hid & Hsync). unfold wp. simpl.
  destruct (answers_session _ _ _ Hs (tip_answers w (so_env _ Hs))) as (Hs' & Hd & Hr).
  pose proof (answers_env _ _ _ (tip_answers w (so_env _ Hs))) as He.
  rewrite Hd, He. split_and!; try done.
  destruct Hr as [(e & _ & Hfault)|Hr]; [by apply no_fault in Hfault|].
  destruct (so_db _ Hs) as [m Hm]. rewrite (session_now w Hs) in Hr.
  destruct (table_tip_ok _ m Hm) as (tip & Htip & _). rewrite Htip in Hr. eauto.
Qed.
Next Obligation.
  intros id n w (Hs & Hf & Hid & Hsync) _. unfold wp. simpl.
  destruct (answers_session _ _ _ Hs (hash_answers n w (so_env _ Hs))) as (Hs' & Hd & Hr).
  pose proof (answers_env _ _ _ (hash_answers n w (so_env _ Hs))) as He.
  rewrite Hd, He. split_and!; try done.
  destruct Hr as [(e & _ & Hfault)|Hr]; [by apply no_fault in Hfault|].
  destruct (so_db _ Hs) as [m Hm]. rewrite (session_now w Hs), (table_hash_ok _ m n Hm) in Hr.
  rewrite (pg_view_stored _ m Hm), lookup_fmap. destruct (m !! n) as [b|]; simpl; [done|]. by eexists.
Qed.
Next Obligation.
  intros id u w (Hs & Hf & Hid & Hsync) Hu Huid Hid0 [Hr Hlim] Hc Hv Hp Hcan Hdist. simpl.
  destruct (so_db _ Hs) as [m Hm]. simpl in *. rewrite (pg_view_stored _ m Hm) in *.
  rewrite <- fmap_apply_update in Hcan, Hdist by done.
  rewrite Forall_forall in Hv.
  assert (Hcan' : canonical (apply_update m u)).
  { apply pg_stored_canonical_inv; [|done]. intros n b. rewrite apply_update_lookup by done.
    case_decide; [intros Hb; apply Hv; by eapply list_elem_of_lookup_2|].
    case_decide; [|done]. by apply (can_valid _ (ds_canonical _ _ Hm)). }
  assert (Ho : forall k db, pg_ok db -> pg_ok (env_others (pg_env w) k db)) by (intros k db; by rewrite (so_alone _ Hs)).
  pose proof (apply_outcome_holds u w (so_env _ Hs) Ho (so_db _ Hs) Hu) as Ha.
  destruct (Postgres_ApplyCanonicalUpdate u w) as [r w']. simpl.
  assert (Hlock : lock_state w = pg_db w) by apply after_calls_alone, Hs.
  apply (ao_accepts _ _ _ _ Ha Hf) with (m := m); [intros b Hb; by apply Hv|by rewrite Hlock|]. rewrite Hlock.
  pose proof Hu as (? & ? & ? & _). split; split; try done.
  - int_lia.
  - int_lia.
  - eapply new_blocks_canonical; [done| |done]. apply Forall_forall. intros b Hb. by apply Hv.
  - intros b Hb. by apply Hv.
  - intros r0 Hr0. rewrite Huid. by apply Hsync.
  - unfold parent_stored in Hp. destruct (Update_Blocks u) as [|first rest]; [by left|]. right.
    destruct (decide (Update_ReplaceFrom u = Update_RetainFrom u)); [by left|]. right.
    destruct (Hp first rest eq_refl ltac:(done)) as (b & Hb & _). rewrite lookup_fmap in Hb.
    by destruct (m !! _).
  - by apply pg_stored_distinct_inv.
Qed.
End Live.

(** ** Evaluation: cycles over an empty database, then over a fork *)
Section Evaluation.
#[local] Existing Instances reference_runtime reference_engine.

Definition pg_cycle : action (PgWorld * Endpoint) SyncResult := SyncOnce (-4) (-3) (test_syncer 3).
Definition pg_first := pg_cycle (start_session, serve main_chain 12).
Definition pg_fork := pg_cycle (pg_first.2.1, serve fork_chain 13).

Example pg_cycles :
  summary pg_first.1 = Some (SyncModeInitialLoad, 10, 10, 3) /\
  summary pg_fork.1 = Some (SyncModeReorg, 11, 12, 2) /\
  barg_number <$> blocks (pg_db pg_fork.2.1) = [11; 12; 13].
Proof. vm_compute. done. Qed.
End Evaluation.
