(* ===== verification/Cursor.v ===== *)
(** * Request parameters and event cursors: [internal/server/events.go] and
    [parseBlockNumber] of [internal/server/blocks.go]

    A Go string is a sequence of bytes.  [encoding/base64]'s raw URL encoding,
    [encoding/binary]'s big-endian integers and [strconv.ParseUint] are modelled as
    the standard library defines them. *)
From S2P Require Import Prelude Errors Domain Validate Store Fixtures.
From stdpp Require Import prelude gmap list strings.
From Stdlib Require Import ZArith Lia Strings.Byte.

Local Open Scope Z_scope.

Definition go_string := list byte.
Definition str (s : String.string) : go_string := String.list_byte_of_string s.

(** ** Bytes as integers *)

Definition byte_Z (b : byte) : Z := Z.of_N (Byte.to_N b).
Definition Z_byte (z : Z) : byte := default x00 (Byte.of_N (Z.to_N (z mod 256))).

Lemma byte_Z_range b : 0 <= byte_Z b < 256.
Proof. unfold byte_Z. pose proof (Byte.to_N_bounded b). lia. Qed.

Lemma Z_byte_Z b : Z_byte (byte_Z b) = b.
Proof.
  unfold Z_byte. rewrite Z.mod_small by apply byte_Z_range. unfold byte_Z.
  by rewrite N2Z.id, Byte.of_to_N.
Qed.

Lemma byte_Z_byte z : byte_Z (Z_byte z) = z mod 256.
Proof.
  unfold Z_byte, byte_Z. pose proof (Z.mod_pos_bound z 256).
  destruct (Byte.of_N (Z.to_N (z mod 256))) as [b|] eqn:Hb; simpl.
  - apply Byte.to_of_N in Hb. rewrite Hb. lia.
  - apply Byte.of_N_None_iff in Hb. lia.
Qed.

(** [binary.BigEndian.PutUint64] and [Uint64], for any width. *)
Fixpoint be_bytes (n : nat) (v : Z) : list byte :=
  match n with O => [] | S n' => Z_byte (v / 256 ^ Z.of_nat n') :: be_bytes n' v end.

Fixpoint be_value (l : list byte) : Z :=
  match l with [] => 0 | b :: rest => byte_Z b * 256 ^ Z.of_nat (length rest) + be_value rest end.

Lemma length_be_bytes n v : length (be_bytes n v) = n.
Proof. induction n; simpl; congruence. Qed.

Lemma be_value_range l : 0 <= be_value l < 256 ^ Z.of_nat (length l).
Proof.
  induction l as [|b l IH]; cbn [be_value length]; [done|].
  rewrite Nat2Z.inj_succ, Z.pow_succ_r by lia. pose proof (byte_Z_range b). nia.
Qed.

Lemma be_value_bytes n v : be_value (be_bytes n v) = v mod 256 ^ Z.of_nat n.
Proof.
  induction n as [|n IH]; cbn [be_bytes be_value]; [by rewrite Z.mod_1_r|].
  rewrite IH, length_be_bytes, byte_Z_byte, Nat2Z.inj_succ, Z.pow_succ_r by lia.
  assert (0 < 256 ^ Z.of_nat n) by (apply Z.pow_pos_nonneg; lia).
  rewrite (Z.mul_comm 256), Z.rem_mul_r by lia. lia.
Qed.

Lemma be_bytes_value_add n l v :
  n = length l -> be_bytes n (be_value l + v * 256 ^ Z.of_nat n) = l.
Proof.
  revert n v. induction l as [|b l IH]; intros n v ->; [done|]. cbn [length be_bytes be_value].
  assert (0 < 256 ^ Z.of_nat (length l)) by (apply Z.pow_pos_nonneg; lia).
  rewrite Nat2Z.inj_succ, Z.pow_succ_r by lia. set (p := 256 ^ Z.of_nat (length l)) in *.
  replace (byte_Z b * p + be_value l + v * (256 * p)) with (be_value l + (byte_Z b + v * 256) * p) by lia.
  f_equal; [|by apply IH].
  rewrite Z.div_add, Z.div_small by (lia || apply be_value_range).
  rewrite <- (Z_byte_Z b) at 2. unfold Z_byte. do 3 f_equal. rewrite Z.add_0_l, Z.mod_add by lia. done.
Qed.

Lemma be_bytes_value n l : length l = n -> be_bytes n (be_value l) = l.
Proof. intros <-. rewrite <- (be_bytes_value_add (length l) l 0) at 3 by done. f_equal. lia. Qed.

(** ** [base64.RawURLEncoding] *)

Definition alphabet : list byte :=
  str "ABCDEFGHIJKLMNOPQRSTUVWXYZabcdefghijklmnopqrstuvwxyz0123456789-_".
Definition b64_char (i : Z) : byte := default x00 (alphabet !! Z.to_nat i).
Definition b64_digit (c : byte) : option Z := (fun p => Z.of_nat p.1) <$> list_find (fun x => x = c) alphabet.

(** The 24 bits of a group, and its four characters. *)
Definition group (a b c : Z) : Z := a * 65536 + b * 256 + c.
Definition sextet (v k : Z) : byte := b64_char (v / 64 ^ k mod 64).

Fixpoint EncodeToString (src : list byte) : go_string :=
  match src with
  | a :: b :: c :: rest =>
      let v := group (byte_Z a) (byte_Z b) (byte_Z c) in
      sextet v 3 :: sextet v 2 :: sextet v 1 :: sextet v 0 :: EncodeToString rest
  | [a; b] => let v := group (byte_Z a) (byte_Z b) 0 in [sextet v 3; sextet v 2; sextet v 1]
  | [a] => let v := group (byte_Z a) 0 0 in [sextet v 3; sextet v 2]
  | [] => []
  end.

(** The bits of a group past its last byte are ignored: the encoding is not strict. *)
Fixpoint decode_groups (src : go_string) : option (list byte) :=
  match src with
  | c0 :: c1 :: c2 :: c3 :: rest =>
      d0 ← b64_digit c0; d1 ← b64_digit c1; d2 ← b64_digit c2; d3 ← b64_digit c3;
      let v := ((d0 * 64 + d1) * 64 + d2) * 64 + d3 in
      bytes ← decode_groups rest;
      Some (Z_byte (v / 65536) :: Z_byte (v / 256) :: Z_byte v :: bytes)
  | [c0; c1; c2] =>
      d0 ← b64_digit c0; d1 ← b64_digit c1; d2 ← b64_digit c2;
      let v := ((d0 * 64 + d1) * 64 + d2) * 64 in
      Some [Z_byte (v / 65536); Z_byte (v / 256)]
  | [c0; c1] =>
      d0 ← b64_digit c0; d1 ← b64_digit c1;
      let v := (d0 * 64 + d1) * 64 * 64 in
      Some [Z_byte (v / 65536)]
  | [_] => None
  | [] => Some []
  end.

(** Line breaks are skipped anywhere in the input. *)
Definition is_newline (c : byte) : Prop := c = x0a \/ c = x0d.
#[global] Instance is_newline_dec c : Decision (is_newline c).
Proof. unfold is_newline. apply _. Defined.

Definition DecodeString (src : go_string) : option (list byte) :=
  decode_groups (filter (fun c => ~ is_newline c) src).

Lemma b64_char_table :
  forallb (fun i => bool_decide (b64_digit (b64_char i) = Some i /\ ~ is_newline (b64_char i))) (seqZ 0 64) = true.
Proof. vm_compute. reflexivity. Qed.

Lemma b64_char_spec i : 0 <= i < 64 -> b64_digit (b64_char i) = Some i /\ ~ is_newline (b64_char i).
Proof.
  intros Hi. pose proof b64_char_table as Ht. rewrite forallb_forall in Ht.
  specialize (Ht i). rewrite bool_decide_eq_true in Ht. apply Ht.
  apply list_elem_of_In, elem_of_seqZ. lia.
Qed.

Lemma sextet_digit v k : b64_digit (sextet v k) = Some (v / 64 ^ k mod 64).
Proof. apply b64_char_spec. apply Z.mod_pos_bound. lia. Qed.

Lemma sextet_printable v k : ~ is_newline (sextet v k).
Proof. apply b64_char_spec. apply Z.mod_pos_bound. lia. Qed.

(** Induction by groups of three bytes. *)
Lemma triple_ind (P : list byte -> Prop) :
  P [] -> (forall a, P [a]) -> (forall a b, P [a; b]) ->
  (forall a b c rest, P rest -> P (a :: b :: c :: rest)) -> forall l, P l.
Proof.
  intros H0 H1 H2 H3 l. remember (length l) as n eqn:Hn.
  revert l Hn. induction (lt_wf n) as [n _ IH]. intros l ->.
  destruct l as [|a [|b [|c rest]]]; auto. apply H3. eapply IH; [|reflexivity]. simpl. lia.
Qed.

(** The four sextets of a 24-bit group make it up again. *)
Lemma sextets_group v :
  0 <= v < 2 ^ 24 ->
  ((v / 64 ^ 3 mod 64 * 64 + v / 64 ^ 2 mod 64) * 64 + v / 64 ^ 1 mod 64) * 64 + v / 64 ^ 0 mod 64 = v.
Proof.
  intros Hv. change (64 ^ 3) with 262144. change (64 ^ 2) with 4096. change (64 ^ 1) with 64.
  change (64 ^ 0) with 1. Z.to_euclidean_division_equations. lia.
Qed.

Lemma group_bytes a b c :
  [Z_byte (group (byte_Z a) (byte_Z b) (byte_Z c) / 65536);
   Z_byte (group (byte_Z a) (byte_Z b) (byte_Z c) / 256);
   Z_byte (group (byte_Z a) (byte_Z b) (byte_Z c))] = [a; b; c].
Proof.
  unfold group. pose proof (byte_Z_range a). pose proof (byte_Z_range b). pose proof (byte_Z_range c).
  assert (Hz : forall x y, x mod 256 = byte_Z y -> Z_byte x = y).
  { intros x y Hx. rewrite <- (Z_byte_Z y), <- Hx. unfold Z_byte. by rewrite Z.mod_mod by lia. }
  repeat f_equal; apply Hz; Z.to_euclidean_division_equations; lia.
Qed.

Lemma group_range a b c : 0 <= group (byte_Z a) (byte_Z b) (byte_Z c) < 2 ^ 24.
Proof.
  unfold group. pose proof (byte_Z_range a). pose proof (byte_Z_range b). pose proof (byte_Z_range c). lia.
Qed.

Lemma encoded_printable l : filter (fun c => ~ is_newline c) (EncodeToString l) = EncodeToString l.
Proof.
  apply filter_all. induction l as [|a|a b|a b c rest IH] using triple_ind; cbn [EncodeToString];
    rewrite ?forall_elem_cons; split_and?; auto using sextet_printable;
    intros x Hx; by apply elem_of_nil in Hx.
Qed.

(** The groups of one and two bytes: the missing sextets are zero. *)
Lemma sextets_group1 a :
  let v := group (byte_Z a) (byte_Z x00) (byte_Z x00) in
  (v / 64 ^ 3 mod 64 * 64 + v / 64 ^ 2 mod 64) * 64 * 64 = v.
Proof.
  cbv zeta. unfold group. pose proof (byte_Z_range a). change (byte_Z x00) with 0.
  change (64 ^ 3) with 262144. change (64 ^ 2) with 4096. Z.to_euclidean_division_equations. lia.
Qed.

Lemma sextets_group2 a b :
  let v := group (byte_Z a) (byte_Z b) (byte_Z x00) in
  ((v / 64 ^ 3 mod 64 * 64 + v / 64 ^ 2 mod 64) * 64 + v / 64 ^ 1 mod 64) * 64 = v.
Proof.
  cbv zeta. unfold group. pose proof (byte_Z_range a). pose proof (byte_Z_range b). change (byte_Z x00) with 0.
  change (64 ^ 3) with 262144. change (64 ^ 2) with 4096. change (64 ^ 1) with 64.
  Z.to_euclidean_division_equations. lia.
Qed.

Lemma decode_groups_encode l : decode_groups (EncodeToString l) = Some l.
Proof.
  induction l as [|a|a b|a b c rest IH] using triple_ind; cbn [EncodeToString decode_groups]; [done|..];
    rewrite !sextet_digit; simpl mbind; cbv zeta.
  - change (group (byte_Z a) 0 0) with (group (byte_Z a) (byte_Z x00) (byte_Z x00)).
    rewrite sextets_group1. pose proof (group_bytes a x00 x00). congruence.
  - change (group (byte_Z a) (byte_Z b) 0) with (group (byte_Z a) (byte_Z b) (byte_Z x00)).
    rewrite sextets_group2. pose proof (group_bytes a b x00). congruence.
  - rewrite sextets_group by apply group_range. rewrite IH. simpl.
    pose proof (group_bytes a b c). congruence.
Qed.

Lemma DecodeString_EncodeToString l : DecodeString (EncodeToString l) = Some l.
Proof. unfold DecodeString. by rewrite encoded_printable, decode_groups_encode. Qed.

(** ** Event cursors *)

(** [url.Values]: the values of each parameter that is present. *)
Abbreviation Values := (gmap String.string (list go_string)).

Definition defaultEventPageSize : Z := 100.
Definition eventCursorEncodedSize : nat := 8 + HashLength + 4.

Definition encodeEventCursor (cursor : EventCursor) : go_string :=
  EncodeToString (be_bytes 8 (Cursor_BlockNumber cursor) ++ array_bytes (Cursor_BlockHash cursor) ++
                  be_bytes 4 (Cursor_LogIndex cursor)).

(** The three fields of the decoded bytes. *)
Definition cursor_of_bytes (decoded : list byte) : EventCursor :=
  mkCursor (be_value (take 8 decoded))
    (default zero_hash (array_of_bytes HashLength (take HashLength (drop 8 decoded))))
    (be_value (drop (8 + HashLength) decoded)).

Definition parseEventCursor (parameters : Values) : result (option EventCursor) :=
  match parameters !! "cursor"%string with
  | None => Ok None
  | Some [value] =>
      if bool_decide (value = []) then Err (server_err errInvalidEventCursor)
      else match DecodeString value with
           | None => Err (server_err errInvalidEventCursor)
           | Some decoded =>
               if negb (length decoded =? eventCursorEncodedSize)%nat ||
                  negb (bool_decide (EncodeToString decoded = value))
               then Err (server_err errInvalidEventCursor)
               else Ok (Some (cursor_of_bytes decoded))
           end
  | Some _ => Err (server_err errInvalidEventCursor)
  end.

Lemma array_of_bytes_Some n (l : list byte) :
  length l = n -> exists a, array_of_bytes n l = Some a /\ array_bytes a = l.
Proof.
  intros Hl. assert (Hb : (length l =? n)%nat = true) by by apply Nat.eqb_eq.
  exists (ByteArray l Hb). split; [|done]. apply (array_of_bytes_eq (ByteArray l Hb)).
Qed.

Definition cursor_bytes (c : EventCursor) : list byte :=
  be_bytes 8 (Cursor_BlockNumber c) ++ array_bytes (Cursor_BlockHash c) ++ be_bytes 4 (Cursor_LogIndex c).

Lemma length_cursor_bytes c : length (cursor_bytes c) = eventCursorEncodedSize.
Proof. unfold cursor_bytes. by rewrite !length_app, !length_be_bytes, array_bytes_length. Qed.

Lemma cursor_of_cursor_bytes c : Cursor_typed c -> cursor_of_bytes (cursor_bytes c) = c.
Proof.
  intros [Hn Hl]. unfold cursor_of_bytes, cursor_bytes.
  rewrite take_app_length', drop_app_length' by (by rewrite length_be_bytes).
  rewrite take_app_length' by (by rewrite array_bytes_length). rewrite array_of_bytes_eq.
  rewrite app_assoc, drop_app_length' by (by rewrite length_app, length_be_bytes, array_bytes_length).
  rewrite !be_value_bytes, !Z.mod_small by (unfold is_u64, is_u32, two64, max_uint32 in *; simpl; lia).
  by destruct c.
Qed.

Lemma cursor_bytes_of_bytes l :
  length l = eventCursorEncodedSize -> cursor_bytes (cursor_of_bytes l) = l /\ Cursor_typed (cursor_of_bytes l).
Proof.
  intros Hl. change eventCursorEncodedSize with 44%nat in Hl.
  assert (H8 : length (take 8 l) = 8%nat) by (rewrite length_take; lia).
  assert (H32 : length (take HashLength (drop 8 l)) = HashLength)
    by (rewrite length_take, length_drop; change HashLength with 32%nat; lia).
  assert (H4 : length (drop (8 + HashLength) l) = 4%nat)
    by (rewrite length_drop; change HashLength with 32%nat; lia).
  destruct (array_of_bytes_Some _ _ H32) as (h & Hh & Hb). unfold cursor_bytes, cursor_of_bytes.
  cbn [Cursor_BlockNumber Cursor_BlockHash Cursor_LogIndex]. rewrite Hh. cbn [default from_option id]. rewrite Hb. split.
  - rewrite !be_bytes_value by done.
    rewrite <- (drop_drop l HashLength 8), take_drop. apply take_drop.
  - split; simpl; [pose proof (be_value_range (take 8 l)) as Hr; rewrite H8 in Hr
                  |pose proof (be_value_range (drop (8 + HashLength) l)) as Hr; rewrite H4 in Hr];
      unfold is_u64, is_u32, two64, max_uint32; simpl in *; lia.
Qed.

Lemma EncodeToString_nil l : EncodeToString l = [] -> l = [].
Proof. destruct l as [|a [|b [|c rest]]]; simpl; congruence. Qed.

Lemma parseEventCursor_iff parameters :
  (forall c, parseEventCursor parameters = Ok (Some c) <->
     Cursor_typed c /\ parameters !! "cursor"%string = Some [encodeEventCursor c]) /\
  (parseEventCursor parameters = Ok None <-> parameters !! "cursor"%string = None) /\
  errs_in (fun e => e = server_err errInvalidEventCursor) (parseEventCursor parameters).
Proof.
  unfold parseEventCursor.
  destruct (parameters !! "cursor"%string) as [[|value [|v2 vs]]|] eqn:Hp.
  1, 3, 4: split_and!; [intros c; split; [done|by intros [_ ?]]|done|done].
  case_bool_decide as Hnil.
  { split_and!; [|naive_solver|done]. intros c. split; [done|]. intros [_ [= Hv]].
    rewrite Hnil in Hv. symmetry in Hv. apply EncodeToString_nil in Hv.
    pose proof (length_cursor_bytes c) as Hl. unfold cursor_bytes in Hl. by rewrite Hv in Hl. }
  assert (Hiff : forall decoded c, DecodeString value = Some decoded ->
    (length decoded = eventCursorEncodedSize /\ EncodeToString decoded = value /\ cursor_of_bytes decoded = c) <->
    Cursor_typed c /\ Some [value] = Some [encodeEventCursor c]).
  { intros decoded c Hd. split.
    - intros (Hl & He & <-). destruct (cursor_bytes_of_bytes decoded Hl) as [Hb Ht]. split; [done|].
      unfold encodeEventCursor. fold (cursor_bytes (cursor_of_bytes decoded)). by rewrite Hb, He.
    - intros [Ht [= ->]]. unfold encodeEventCursor in Hd. fold (cursor_bytes c) in Hd.
      rewrite DecodeString_EncodeToString in Hd. injection Hd as <-.
      split_and!; [apply length_cursor_bytes|done|by apply cursor_of_cursor_bytes]. }
  destruct (DecodeString value) as [decoded|] eqn:Hd.
  - specialize (fun c => Hiff decoded c eq_refl).
    destruct (Nat.eqb_spec (length decoded) eventCursorEncodedSize) as [Hl|Hl];
      [case_bool_decide as He|]; simpl; (split_and!; [intros c|naive_solver|done]);
      rewrite <- Hiff; naive_solver.
  - split_and!; [|naive_solver|done]. intros c. split; [done|]. intros [_ [= ->]].
    unfold encodeEventCursor in Hd. by rewrite DecodeString_EncodeToString in Hd.
Qed.

(** C23: Cursors round trip, and only in one spelling.  [parseEventCursor] returns a
    cursor if and only if the request has exactly one [cursor] value and it is the text
    [encodeEventCursor] prints for that cursor, so every printed cursor is parsed back
    to itself, no two texts name the same cursor, and line breaks, padding or stray
    bits that base64 would tolerate are rejected.  Without the parameter there is no
    cursor; anything else is [errInvalidEventCursor]. *)
Theorem cursor_roundtrip parameters :
  (forall c, parseEventCursor parameters = Ok (Some c) <->
     Cursor_typed c /\ parameters !! "cursor"%string = Some [encodeEventCursor c]) /\
  (parseEventCursor parameters = Ok None <-> parameters !! "cursor"%string = None) /\
  errs_in (fun e => e = server_err errInvalidEventCursor) (parseEventCursor parameters).
Proof. apply parseEventCursor_iff. Qed.

(** ** Numbers in requests *)

Definition is_digit (c : byte) : bool := (48 <=? byte_Z c) && (byte_Z c <=? 57).

(** The loop of [strconv.ParseUint(s, 10, 64)] on digits, with its overflow tests. *)
Fixpoint parse_uint_loop (n : Z) (s : go_string) : result Z :=
  match s with
  | [] => Ok n
  | c :: rest =>
      let d := byte_Z c - 48 in
      if max_uint64 / 10 + 1 <=? n then Err (foreign_err StrconvErrRange)
      else let n10 := wrap64 (n * 10) in
           let n1 := u64_add n10 d in
           if (n1 <? n10) || (max_uint64 <? n1) then Err (foreign_err StrconvErrRange)
           else parse_uint_loop n1 rest
  end.

Definition parseBlockNumber (value : go_string) : result Z :=
  if bool_decide (value = []) then Err (foreign_err StrconvErrSyntax)
  else if negb (forallb is_digit value) then Err (foreign_err StrconvErrSyntax)
  else parse_uint_loop 0 value.

Definition parseEventLimit (parameters : Values) : result Z :=
  match parameters !! "limit"%string with
  | None => Ok defaultEventPageSize
  | Some [value] =>
      match parseBlockNumber value with
      | Ok limit =>
          if (limit =? 0) || (MaxEventPageSize <? limit) then Err (server_err errInvalidEventLimit)
          else Ok (to_u32 limit)
      | _ => Err (server_err errInvalidEventLimit)
      end
  | Some _ => Err (server_err errInvalidEventLimit)
  end.

(** The number a digit string denotes. *)
Definition digits_value (acc : Z) (s : go_string) : Z := foldl (fun n c => n * 10 + (byte_Z c - 48)) acc s.

Lemma digits_value_ge s acc :
  0 <= acc -> Forall (fun c => is_digit c = true) s -> acc <= digits_value acc s.
Proof.
  intros Ha Hs. revert acc Ha. induction Hs as [|c s Hc _ IH]; intros acc Ha; [done|].
  apply andb_true_iff in Hc as [?%Z.leb_le ?%Z.leb_le]. cbn [digits_value foldl].
  fold (digits_value (acc * 10 + (byte_Z c - 48)) s). specialize (IH (acc * 10 + (byte_Z c - 48))). lia.
Qed.

Lemma parse_uint_loop_spec s : forall n,
  is_u64 n -> Forall (fun c => is_digit c = true) s ->
  parse_uint_loop n s =
    if digits_value n s <? two64 then Ok (digits_value n s) else Err (foreign_err StrconvErrRange).
Proof.
  induction s as [|c s IH]; intros n Hn Hs.
  { simpl. destruct (Z.ltb_spec n two64); [done|int_lia]. }
  apply Forall_cons in Hs as [Hc Hs]. pose proof Hc as Hc'.
  apply andb_true_iff in Hc' as [?%Z.leb_le ?%Z.leb_le]. cbn [parse_uint_loop digits_value foldl].
  fold (digits_value (n * 10 + (byte_Z c - 48)) s).
  assert (Hge : n * 10 + (byte_Z c - 48) <= digits_value (n * 10 + (byte_Z c - 48)) s)
    by (apply digits_value_ge; [int_lia|done]).
  change (max_uint64 / 10 + 1) with 1844674407370955162. cbv zeta.
  destruct (Z.leb_spec 1844674407370955162 n).
  { destruct (Z.ltb_spec (digits_value (n * 10 + (byte_Z c - 48)) s) two64); [int_lia|done]. }
  rewrite (wrap64_small (n * 10)) by int_lia.
  destruct (decide (n * 10 + (byte_Z c - 48) < two64)) as [Hlt|Hge'].
  - rewrite u64_add_small by int_lia.
    destruct (Z.ltb_spec (n * 10 + (byte_Z c - 48)) (n * 10)); [lia|].
    destruct (Z.ltb_spec max_uint64 (n * 10 + (byte_Z c - 48))); [int_lia|]. simpl.
    apply IH; [int_lia|done].
  - assert (Hw : u64_add (n * 10) (byte_Z c - 48) = n * 10 + (byte_Z c - 48) - two64).
    { unfold u64_add, wrap64. symmetry. apply Z.mod_unique with 1; int_lia. }
    rewrite Hw. destruct (Z.ltb_spec (n * 10 + (byte_Z c - 48) - two64) (n * 10)); [|int_lia]. simpl.
    destruct (Z.ltb_spec (digits_value (n * 10 + (byte_Z c - 48)) s) two64); [int_lia|done].
Qed.

Lemma parseBlockNumber_eq value :
  parseBlockNumber value =
    if bool_decide (value <> [] /\ Forall (fun c => is_digit c = true) value)
    then if digits_value 0 value <? two64 then Ok (digits_value 0 value) else Err (foreign_err StrconvErrRange)
    else Err (foreign_err StrconvErrSyntax).
Proof.
  unfold parseBlockNumber. case_bool_decide as Hnil.
  { rewrite bool_decide_false; [done|]. by intros [? _]. }
  assert (Hf : forallb is_digit value = true <-> Forall (fun c => is_digit c = true) value)
    by (rewrite forallb_forall, list.Forall_forall; by setoid_rewrite list_elem_of_In).
  destruct (forallb is_digit value) eqn:Hd; simpl.
  - rewrite bool_decide_true by (split; [done|by apply Hf]). apply parse_uint_loop_spec; [done|by apply Hf].
  - rewrite bool_decide_false; [done|]. intros [_ Hs%Hf]. done.
Qed.

(** [parseBlockNumber] accepts exactly the non-empty strings of decimal digits that
    denote a number below 2^64, and returns that number; a string that is empty or has
    another character is a syntax error, a number that does not fit a range error. *)
Theorem parse_block_number_exact value :
  parseBlockNumber value =
    if bool_decide (value <> [] /\ Forall (fun c => is_digit c = true) value)
    then if digits_value 0 value <? two64 then Ok (digits_value 0 value) else Err (foreign_err StrconvErrRange)
    else Err (foreign_err StrconvErrSyntax).
Proof. apply parseBlockNumber_eq. Qed.

Lemma parseEventLimit_iff parameters :
  (forall limit, parseEventLimit parameters = Ok limit <->
     (parameters !! "limit"%string = None /\ limit = defaultEventPageSize) \/
     (exists value, parameters !! "limit"%string = Some [value] /\ parseBlockNumber value = Ok limit /\
        1 <= limit <= MaxEventPageSize)) /\
  errs_in (fun e => e = server_err errInvalidEventLimit) (parseEventLimit parameters).
Proof.
  unfold parseEventLimit. destruct (parameters !! "limit"%string) as [[|value [|v2 vs]]|].
  1, 3: split; [intros limit; split; [done|intros [[? _]|(v & ? & _)]; done]|done].
  2: { split; [|done]. intros limit. split; [intros [= <-]; by left|]. intros [[_ ->]|(v & ? & _)]; done. }
  assert (Hpos : forall l, parseBlockNumber value = Ok l -> 0 <= l).
  { intros l Hl. rewrite parseBlockNumber_eq in Hl. case_bool_decide as Hd; [|done].
    destruct (_ <? _); [|done]. injection Hl as <-. apply digits_value_ge; [done|apply Hd]. }
  destruct (parseBlockNumber value) as [l|e|msg|] eqn:Hv.
  2, 3, 4: split; [|done]; intros limit; split; [done|];
    intros [[? _]|(v & [= <-] & Hl & _)]; [done|congruence].
  specialize (Hpos l eq_refl).
  destruct (Z.eqb_spec l 0), (Z.ltb_spec MaxEventPageSize l); simpl; (split; [|done]); intros limit; split;
    try done; try (intros [[? _]|(v & [= <-] & Hl & ?)]; [done|]; rewrite Hv in Hl; injection Hl as <-; try lia).
  - intros [= <-]. right. exists value. unfold MaxEventPageSize in *. rewrite to_u32_small by int_lia.
    split_and!; [done|done|lia|lia].
  - unfold MaxEventPageSize in *. rewrite to_u32_small by int_lia. done.
Qed.

(** [parseEventLimit] returns 100 when the parameter is absent and otherwise accepts
    exactly one decimal value between 1 and 1000, so a limit that reaches the store is
    positive and never above the store's maximum page size. *)
Theorem parse_event_limit_exact parameters :
  (forall limit, parseEventLimit parameters = Ok limit <->
     (parameters !! "limit"%string = None /\ limit = defaultEventPageSize) \/
     (exists value, parameters !! "limit"%string = Some [value] /\ parseBlockNumber value = Ok limit /\
        1 <= limit <= MaxEventPageSize)) /\
  errs_in (fun e => e = server_err errInvalidEventLimit) (parseEventLimit parameters).
Proof. apply parseEventLimit_iff. Qed.

(** ** Evaluation *)

Definition sample_cursor : EventCursor := mkCursor 19000000 (hash_of 10) 7.

Example sample_cursor_parses :
  match parseEventCursor {[ "cursor"%string := [encodeEventCursor sample_cursor] ]} with
  | Ok (Some c) => (Cursor_BlockNumber c, Cursor_LogIndex c) = (19000000, 7)
  | _ => False
  end.
Proof. vm_compute. reflexivity. Qed.

(** The same bytes with a line break appended decode in base64 but are refused. *)
Example newline_refused :
  DecodeString (encodeEventCursor sample_cursor ++ [x0a]) = Some (cursor_bytes sample_cursor) /\
  parseEventCursor {[ "cursor"%string := [encodeEventCursor sample_cursor ++ [x0a]] ]}
    = Err (server_err errInvalidEventCursor).
Proof. vm_compute. done. Qed.

Example largest_number : parseBlockNumber (str "18446744073709551615") = Ok max_uint64.
Proof. vm_compute. reflexivity. Qed.
Example too_large_number : parseBlockNumber (str "18446744073709551616") = Err (foreign_err StrconvErrRange).
Proof. vm_compute. reflexivity. Qed.
