(* ===== verification/Text.v ===== *)
(** * Decimal text

    Printing of integers as [strconv], [fmt] and [time] do it, from the last digit to the
    first, and the digit runs their readers consume. *)
From S2P Require Import Prelude Errors Domain Validate Store Fixtures Cursor.
From stdpp Require Import prelude gmap list strings.
From Stdlib Require Import ZArith Lia Strings.Byte.

Local Open Scope Z_scope.

(** [byte(d) + '0'] *)
Definition digit (d : Z) : byte := Z_byte (48 + d).

(** The digits of [v] in front of [buf]: [for v > 0 { w--; buf[w] = byte(v%10) + '0'; v /= 10 }]. *)
Fixpoint put_digits (fuel : nat) (v : Z) (buf : go_string) : go_string :=
  match fuel with
  | O => buf
  | S fuel' => if v =? 0 then buf else put_digits fuel' (v / 10) (digit (v mod 10) :: buf)
  end.

(** A number has no more decimal digits than binary ones. *)
Definition digit_fuel (v : Z) : nat := S (Z.to_nat (Z.log2 v)).

Definition fmtInt (v : Z) (buf : go_string) : go_string :=
  if v =? 0 then digit 0 :: buf else put_digits (digit_fuel v) v buf.

Definition decimal (v : Z) : go_string := fmtInt v [].

(** [strconv.FormatInt(v, 10)] and [big.Int.String()] *)
Definition signed_decimal (v : Z) : go_string :=
  if v <? 0 then str "-" ++ decimal (- v) else decimal v.

(** [fmtFrac] of package [time]: the last [prec] digits of [v] in front of [buf] as a
    decimal fraction without trailing zeros (nothing when they are all zero), and the
    number before the point. *)
Fixpoint frac_loop (n : nat) (print : bool) (v : Z) (buf : go_string) : bool * Z * go_string :=
  match n with
  | O => (print, v, buf)
  | S n' =>
      let d := v mod 10 in
      let print := print || negb (d =? 0) in
      frac_loop n' print (v / 10) (if print then digit d :: buf else buf)
  end.
Definition fmtFrac (buf : go_string) (v : Z) (prec : nat) : go_string * Z :=
  match frac_loop prec false v buf with
  | (true, v', buf') => (x2e :: buf', v')
  | (false, v', buf') => (buf', v')
  end.

(** A number padded with zeros to a width it does not exceed. *)
Fixpoint pad (n : nat) (v : Z) : go_string :=
  match n with O => [] | S n' => pad n' (v / 10) ++ [digit (v mod 10)] end.

(** The longest prefix of digits, and the rest. *)
Fixpoint span_digits (s : go_string) : go_string * go_string :=
  match s with
  | c :: rest => if is_digit c then (let p := span_digits rest in (c :: p.1, p.2)) else ([], s)
  | [] => ([], [])
  end.

Definition digits (s : go_string) : Prop := Forall (fun c => is_digit c = true) s.

(** ** Digits *)

Lemma digit_value d : 0 <= d < 10 -> byte_Z (digit d) = 48 + d.
Proof. intros Hd. unfold digit. rewrite byte_Z_byte, Z.mod_small; lia. Qed.

Lemma digit_is_digit d : 0 <= d < 10 -> is_digit (digit d) = true.
Proof. intros Hd. unfold is_digit. rewrite digit_value by done. apply andb_true_iff. lia. Qed.

Lemma is_digit_range c : is_digit c = true -> 0 <= byte_Z c - 48 < 10.
Proof. unfold is_digit. intros [?%Z.leb_le ?%Z.leb_le]%andb_true_iff. lia. Qed.

Lemma digit_inj d d' : 0 <= d < 10 -> 0 <= d' < 10 -> digit d = digit d' -> d = d'.
Proof. intros Hd Hd' H%(f_equal byte_Z). rewrite !digit_value in H by done. lia. Qed.

Lemma digits_value_app acc s t : digits_value acc (s ++ t) = digits_value (digits_value acc s) t.
Proof. apply foldl_app. Qed.

Lemma digits_value_cons acc d s : 0 <= d < 10 -> digits_value acc (digit d :: s) = digits_value (acc * 10 + d) s.
Proof. intros Hd. unfold digits_value. cbn [foldl]. rewrite digit_value by done. do 2 f_equal. lia. Qed.

Lemma digits_value_shift s : forall acc, digits_value acc s = acc * 10 ^ Z.of_nat (length s) + digits_value 0 s.
Proof.
  induction s as [|c s IH]; intros acc; cbn [digits_value foldl length]; [lia|].
  fold (digits_value (acc * 10 + (byte_Z c - 48)) s) (digits_value (0 * 10 + (byte_Z c - 48)) s).
  rewrite IH, (IH (0 * 10 + _)), Nat2Z.inj_succ, Z.pow_succ_r by lia. ring.
Qed.

Lemma digits_value_bound s : digits s -> 0 <= digits_value 0 s < 10 ^ Z.of_nat (length s).
Proof.
  induction 1 as [|c s Hc%is_digit_range _ IH]; [done|]. cbn [digits_value foldl length].
  fold (digits_value (0 * 10 + (byte_Z c - 48)) s). rewrite digits_value_shift.
  rewrite Nat2Z.inj_succ, Z.pow_succ_r by lia. nia.
Qed.

(** Text of bytes below 0x80. *)
Definition ascii_text (s : go_string) : Prop := Forall (fun c => byte_Z c < 128) s.
#[global] Instance ascii_text_dec s : Decision (ascii_text s).
Proof. unfold ascii_text. apply _. Defined.

Lemma digits_ascii s : digits s -> ascii_text s.
Proof. intros Hs. eapply Forall_impl; [exact Hs|]. intros c Hc%is_digit_range. simpl. lia. Qed.

Lemma ascii_app s t : ascii_text s -> ascii_text t -> ascii_text (s ++ t).
Proof. by apply Forall_app_2. Qed.

(** ** Printing *)

Lemma digit_fuel_enough v : 0 <= v -> v < 2 ^ Z.of_nat (digit_fuel v).
Proof.
  intros Hv. unfold digit_fuel. rewrite Nat2Z.inj_succ, Z2Nat.id by apply Z.log2_nonneg.
  destruct (decide (v = 0)) as [->|]; [done|]. apply Z.log2_spec. lia.
Qed.

Lemma div10_fuel fuel v : 0 <= v < 2 ^ Z.of_nat (S fuel) -> 0 <= v / 10 < 2 ^ Z.of_nat fuel.
Proof. rewrite Nat2Z.inj_succ, Z.pow_succ_r by lia. intros. split; [apply Z.div_pos; lia|]. apply Z.div_lt_upper_bound; lia. Qed.

Lemma put_digits_value fuel : forall v buf,
  0 <= v < 2 ^ Z.of_nat fuel -> digits_value 0 (put_digits fuel v buf) = digits_value v buf.
Proof.
  induction fuel as [|fuel IH]; intros v buf Hv; cbn [put_digits].
  { assert (v = 0) as -> by lia. done. }
  destruct (Z.eqb_spec v 0) as [->|Hz]; [done|]. rewrite IH by by apply div10_fuel.
  rewrite digits_value_cons by (apply Z.mod_pos_bound; lia). f_equal. pose proof (Z.div_mod v 10). lia.
Qed.

Lemma put_digits_app fuel : forall v buf, put_digits fuel v buf = put_digits fuel v [] ++ buf.
Proof.
  induction fuel as [|fuel IH]; intros v buf; cbn [put_digits]; [done|]. destruct (v =? 0); [done|].
  rewrite IH, (IH _ [_]), <- (assoc app). done.
Qed.

Lemma put_digits_digits fuel : forall v buf, digits buf -> digits (put_digits fuel v buf).
Proof.
  induction fuel as [|fuel IH]; intros v buf Hb; cbn [put_digits]; [done|]. destruct (v =? 0); [done|].
  apply IH. constructor; [|done]. apply digit_is_digit, Z.mod_pos_bound. lia.
Qed.

(** No leading zero. *)
Lemma put_digits_head fuel : forall v buf, 0 < v < 2 ^ Z.of_nat fuel ->
  exists d rest, 1 <= d <= 9 /\ put_digits fuel v buf = digit d :: rest.
Proof.
  induction fuel as [|fuel IH]; intros v buf Hv; [simpl in Hv; lia|]. cbn [put_digits].
  destruct (Z.eqb_spec v 0); [lia|]. pose proof (Z.div_mod v 10). pose proof (Z.mod_pos_bound v 10).
  destruct (decide (v / 10 = 0)) as [E|].
  - rewrite E. exists (v mod 10), buf. split; [lia|]. by destruct fuel.
  - apply IH. pose proof (div10_fuel fuel v). lia.
Qed.

Lemma fmtInt_app v buf : fmtInt v buf = decimal v ++ buf.
Proof. unfold decimal, fmtInt. destruct (v =? 0); [done|]. apply put_digits_app. Qed.

Lemma decimal_digits v : digits (decimal v).
Proof.
  unfold decimal, fmtInt. destruct (v =? 0); [|by apply put_digits_digits, Forall_nil]. by repeat constructor.
Qed.

Lemma signed_decimal_ascii v : ascii_text (signed_decimal v).
Proof.
  unfold signed_decimal. destruct (v <? 0); [apply ascii_app; [by apply (bool_decide_unpack _)|]|];
    apply digits_ascii, decimal_digits.
Qed.

Lemma decimal_value v : 0 <= v -> digits_value 0 (decimal v) = v.
Proof.
  intros Hv. unfold decimal, fmtInt. destruct (Z.eqb_spec v 0) as [->|]; [done|].
  rewrite put_digits_value; [done|]. split; [done|]. by apply digit_fuel_enough.
Qed.

Lemma decimal_head v : 0 <= v ->
  exists d rest, 0 <= d <= 9 /\ decimal v = digit d :: rest /\ (d = 0 -> rest = []).
Proof.
  intros Hv. unfold decimal, fmtInt. destruct (Z.eqb_spec v 0) as [->|]; [by exists 0, []|].
  destruct (put_digits_head (digit_fuel v) v []) as (d & rest & Hd & ->).
  { split; [lia|]. by apply digit_fuel_enough. }
  exists d, rest. split_and!; [lia|lia|done|lia].
Qed.

Lemma decimal_length v k : 0 <= v < 10 ^ Z.of_nat k -> (1 <= k)%nat -> (length (decimal v) <= k)%nat.
Proof.
  intros Hv Hk. pose proof (decimal_value v ltac:(lia)) as Hval. pose proof (decimal_digits v) as Hd.
  destruct (decimal_head v ltac:(lia)) as (d & rest & Hd9 & E & Hz). rewrite E in *. cbn [length].
  apply Forall_cons in Hd as [_ Hd]. rewrite digits_value_cons, digits_value_shift in Hval by lia.
  pose proof (digits_value_bound rest Hd). destruct (decide (d = 0)) as [Hd0|Hd0]; [rewrite (Hz Hd0); simpl; lia|].
  assert (Z.of_nat (length rest) < Z.of_nat k); [|lia]. apply (Z.pow_lt_mono_r_iff 10); [lia|lia|].
  assert (0 < 10 ^ Z.of_nat (length rest)) by (apply Z.pow_pos_nonneg; lia). nia.
Qed.

Lemma decimal_nonempty v : 0 <= v -> decimal v <> [].
Proof. intros (d & rest & _ & -> & _)%decimal_head. done. Qed.

(** ** Fixed widths and fractions *)

Lemma length_pad n : forall v, length (pad n v) = n.
Proof. induction n as [|n IH]; intros v; [done|]. cbn [pad]. rewrite length_app, IH. simpl. lia. Qed.

Lemma pad_digits n : forall v, digits (pad n v).
Proof.
  induction n as [|n IH]; intros v; [constructor|]. cbn [pad]. apply Forall_app. split; [apply IH|].
  constructor; [|constructor]. apply digit_is_digit, Z.mod_pos_bound. lia.
Qed.

Lemma pad_value n : forall v, 0 <= v < 10 ^ Z.of_nat n -> digits_value 0 (pad n v) = v.
Proof.
  induction n as [|n IH]; intros v Hv; cbn [pad]; [simpl in *; lia|].
  rewrite Nat2Z.inj_succ, Z.pow_succ_r in Hv by lia. pose proof (Z.mod_pos_bound v 10).
  rewrite digits_value_app, IH, digits_value_cons by (lia || (split; [apply Z.div_pos|apply Z.div_lt_upper_bound]; lia)).
  simpl. pose proof (Z.div_mod v 10). lia.
Qed.

Lemma frac_loop_app n : forall print v fd buf,
  frac_loop n print v (fd ++ buf) =
    match frac_loop n print v fd with (print', v', fd') => (print', v', fd' ++ buf) end.
Proof.
  induction n as [|n IH]; intros print v fd buf; [done|]. cbn [frac_loop]. destruct (print || _); [|apply IH].
  apply (IH true (v / 10) (digit (v mod 10) :: fd)).
Qed.

(** One more digit of a number split at a power of ten. *)
Lemma mod_pow10_succ v n : 0 <= v -> v mod 10 ^ Z.of_nat (S n) = v / 10 mod 10 ^ Z.of_nat n * 10 + v mod 10.
Proof.
  intros Hv. rewrite Nat2Z.inj_succ, Z.pow_succ_r by lia.
  rewrite Z.rem_mul_r by (try apply Z.pow_nonzero; lia). lia.
Qed.

Lemma div_pow10_succ v n : v / 10 ^ Z.of_nat (S n) = v / 10 / 10 ^ Z.of_nat n.
Proof. rewrite Nat2Z.inj_succ, Z.pow_succ_r, Z.div_div by lia. done. Qed.

Lemma frac_loop_printing n : forall v fd, 0 <= v -> digits fd ->
  exists fd', frac_loop n true v fd = (true, v / 10 ^ Z.of_nat n, fd') /\ digits fd' /\
    length fd' = (n + length fd)%nat /\
    digits_value 0 fd' = v mod 10 ^ Z.of_nat n * 10 ^ Z.of_nat (length fd) + digits_value 0 fd.
Proof.
  induction n as [|n IH]; intros v fd Hv Hfd.
  { exists fd. rewrite Z.div_1_r, Z.mod_1_r. done. }
  cbn [frac_loop orb]. pose proof (Z.mod_pos_bound v 10).
  destruct (IH (v / 10) (digit (v mod 10) :: fd)) as (fd' & -> & Hd & Hl & Hval).
  { apply Z.div_pos; lia. }
  { constructor; [|done]. apply digit_is_digit. lia. }
  exists fd'. rewrite div_pow10_succ, mod_pow10_succ by done. split_and!; [done|done|simpl in *; lia|].
  rewrite Hval, digits_value_cons, (digits_value_shift fd (0 * 10 + _)) by lia. cbn [length].
  rewrite Nat2Z.inj_succ, Z.pow_succ_r by lia. ring.
Qed.

Lemma frac_loop_spec n : forall v, 0 <= v ->
  (v mod 10 ^ Z.of_nat n = 0 /\ frac_loop n false v [] = (false, v / 10 ^ Z.of_nat n, [])) \/
  exists fd k, frac_loop n false v [] = (true, v / 10 ^ Z.of_nat n, fd) /\ digits fd /\ fd <> [] /\
    (length fd + k = n)%nat /\ digits_value 0 fd * 10 ^ Z.of_nat k = v mod 10 ^ Z.of_nat n.
Proof.
  induction n as [|n IH]; intros v Hv.
  { left. by rewrite Z.mod_1_r, Z.div_1_r. }
  cbn [frac_loop]. rewrite mod_pow10_succ, div_pow10_succ by done. pose proof (Z.mod_pos_bound v 10).
  destruct (Z.eqb_spec (v mod 10) 0) as [E|E]; cbn [orb negb].
  - destruct (IH (v / 10)) as [[Hm ->]|(fd & k & -> & Hd & Hne & Hl & Hval)]; [apply Z.div_pos; lia| |].
    + left. split; [lia|done].
    + right. exists fd, (S k). split_and!; [done|done|done|lia|]. rewrite Nat2Z.inj_succ, Z.pow_succ_r by lia. lia.
  - destruct (frac_loop_printing n (v / 10) [digit (v mod 10)]) as (fd & -> & Hd & Hl & Hval).
    { apply Z.div_pos; lia. }
    { constructor; [|constructor]. apply digit_is_digit. lia. }
    right. exists fd, 0%nat. split_and!; [done|done|intros ->; simpl in Hl; lia|simpl in *; lia|].
    rewrite Hval, digits_value_cons by lia. simpl. lia.
Qed.

(** The printed fraction denotes the digits after the point. *)
Lemma fmtFrac_spec buf v prec : 0 <= v ->
  (v mod 10 ^ Z.of_nat prec = 0 /\ fmtFrac buf v prec = (buf, v / 10 ^ Z.of_nat prec)) \/
  exists fd k, fmtFrac buf v prec = (x2e :: fd ++ buf, v / 10 ^ Z.of_nat prec) /\ digits fd /\ fd <> [] /\
    (length fd + k = prec)%nat /\ digits_value 0 fd * 10 ^ Z.of_nat k = v mod 10 ^ Z.of_nat prec.
Proof.
  intros Hv. unfold fmtFrac. pose proof (frac_loop_app prec false v [] buf) as Ha. simpl in Ha. rewrite Ha.
  destruct (frac_loop_spec prec v Hv) as [[Hm ->]|(fd & k & -> & H)]; [by left|right; by exists fd, k].
Qed.

(** ** Reading *)

Lemma span_digits_app s t :
  digits s -> (forall c, head t = Some c -> is_digit c = false) -> span_digits (s ++ t) = (s, t).
Proof.
  intros Hs Ht. induction Hs as [|c s Hc _ IH].
  - destruct t as [|c t]; [done|]. cbn [app span_digits]. by rewrite (Ht c eq_refl).
  - cbn [app span_digits]. rewrite Hc, IH. done.
Qed.

(** A number that fits is read back by [parseBlockNumber]. *)
Lemma parseBlockNumber_decimal v : is_u64 v -> parseBlockNumber (decimal v) = Ok v.
Proof.
  intros Hv. rewrite parseBlockNumber_eq, bool_decide_true.
  - rewrite decimal_value by int_lia. destruct (Z.ltb_spec v two64); [done|int_lia].
  - split; [apply decimal_nonempty; int_lia|apply decimal_digits].
Qed.
