(* ===== verification/Json.v ===== *)
(** * JSON text: [encoding/json]

    The encoder as [json.NewEncoder(writer).Encode] runs it on the response structs
    (strings with HTML escaping and replacement of invalid UTF-8, integers, arrays,
    objects, [null]), a reader of the compact JSON it writes, and the proof that the reader
    recovers every value. *)
From S2P Require Import Prelude Errors Domain Validate Store Fixtures Cursor Text.
From stdpp Require Import prelude gmap list strings.
From Stdlib Require Import ZArith Lia Strings.Byte.

Local Open Scope Z_scope.

Inductive json :=
| JNull
| JNumber (n : Z)
| JString (s : go_string)
| JArray (l : list json)
| JObject (fields : list (go_string * json)).

(** ** UTF-8 *)

Definition in_range (lo hi : Z) (c : byte) : bool := (lo <=? byte_Z c) && (byte_Z c <=? hi).
Definition continuation : byte -> bool := in_range 128 191.

(** The range of the second byte, by the first byte ([utf8.acceptRanges]). *)
Definition second_ok (c0 c1 : byte) : bool :=
  let v := byte_Z c0 in
  if v =? 224 then in_range 160 191 c1
  else if v =? 237 then in_range 128 159 c1
  else if v =? 240 then in_range 144 191 c1
  else if v =? 244 then in_range 128 143 c1
  else continuation c1.

(** The characters of a string as [utf8.DecodeRuneInString] finds them: the bytes of a
    valid character, or [None] for a byte that starts none. *)
Fixpoint characters (s : go_string) : list (option go_string) :=
  match s with
  | [] => []
  | c0 :: r0 =>
      if byte_Z c0 <? 128 then Some [c0] :: characters r0
      else
        match r0 with
        | c1 :: r1 =>
            if in_range 194 223 c0 && second_ok c0 c1 then Some [c0; c1] :: characters r1
            else
              match r1 with
              | c2 :: r2 =>
                  if in_range 224 239 c0 && second_ok c0 c1 && continuation c2
                  then Some [c0; c1; c2] :: characters r2
                  else
                    match r2 with
                    | c3 :: r3 =>
                        if in_range 240 244 c0 && second_ok c0 c1 && continuation c2 && continuation c3
                        then Some [c0; c1; c2; c3] :: characters r3
                        else None :: characters r0
                    | [] => None :: characters r0
                    end
              | [] => None :: characters r0
              end
        | [] => None :: characters r0
        end
  end.

(** [utf8.RuneError], U+FFFD *)
Definition replacement : go_string := [xef; xbf; xbd].

(** What a reader of UTF-8 text sees: an invalid byte becomes U+FFFD. *)
Definition sanitized (s : go_string) : go_string := characters s ≫= default replacement.

(** ** Encoding *)

Definition hex_digit (v : Z) : byte := default x00 (str "0123456789abcdef" !! Z.to_nat v).

(** Bytes below 0x80: [htmlSafeSet] and the escapes of [appendString]. *)
Definition html_safe (c : byte) : bool :=
  (32 <=? byte_Z c) && negb (bool_decide (c ∈ [x22; x26; x3c; x3e; x5c])).

Definition escape_ascii (c : byte) : go_string :=
  if html_safe c then [c]
  else if bool_decide (c = x5c \/ c = x22) then [x5c; c]
  else if bool_decide (c = x08) then str "\b"
  else if bool_decide (c = x0c) then str "\f"
  else if bool_decide (c = x0a) then str "\n"
  else if bool_decide (c = x0d) then str "\r"
  else if bool_decide (c = x09) then str "\t"
  else str "\u00" ++ [hex_digit (byte_Z c / 16); hex_digit (byte_Z c mod 16)].

Definition escape_character (ch : option go_string) : go_string :=
  match ch with
  | None => str "\ufffd"
  | Some [c] => escape_ascii c
  | Some l =>
      if bool_decide (l = [xe2; x80; xa8]) then str "\u2028"
      else if bool_decide (l = [xe2; x80; xa9]) then str "\u2029"
      else l
  end.

(** [appendString(dst, src, true)] *)
Definition appendString (s : go_string) : go_string := [x22] ++ (characters s ≫= escape_character) ++ [x22].

Fixpoint separated (l : list go_string) : go_string :=
  match l with
  | [] => []
  | [t] => t
  | t :: rest => t ++ [x2c] ++ separated rest
  end.

(** A value as the encoder writes it, without spaces. *)
Fixpoint encode_value (v : json) : go_string :=
  match v with
  | JNull => str "null"
  | JNumber n => signed_decimal n
  | JString s => appendString s
  | JArray l => [x5b] ++ separated (encode_value <$> l) ++ [x5d]
  | JObject fields =>
      [x7b] ++ separated ((fun p => match p with (k, x) => appendString k ++ [x3a] ++ encode_value x end) <$> fields) ++ [x7d]
  end.

(** [json.Encoder.Encode] ends the value with a newline. *)
Definition Encode (v : json) : go_string := encode_value v ++ [x0a].

(** ** A reader *)

Definition unhex (c : byte) : option Z :=
  let v := byte_Z c in
  if in_range 48 57 c then Some (v - 48)
  else if in_range 97 102 c then Some (v - 87)
  else if in_range 65 70 c then Some (v - 55)
  else None.

(** The UTF-8 form of a code point below 2^16 that is no surrogate. *)
Definition utf8 (v : Z) : option go_string :=
  if v <? 128 then Some [Z_byte v]
  else if v <? 2048 then Some [Z_byte (192 + v / 64); Z_byte (128 + v mod 64)]
  else if (55296 <=? v) && (v <=? 57343) then None
  else Some [Z_byte (224 + v / 4096); Z_byte (128 + v / 64 mod 64); Z_byte (128 + v mod 64)].

Definition simple_escape (c : byte) : option byte :=
  if bool_decide (c ∈ [x22; x5c; x2f]) then Some c
  else if bool_decide (c = x62) then Some x08
  else if bool_decide (c = x66) then Some x0c
  else if bool_decide (c = x6e) then Some x0a
  else if bool_decide (c = x72) then Some x0d
  else if bool_decide (c = x74) then Some x09
  else None.

(** The rest of a string literal after the opening quote, and what follows it. *)
Fixpoint read_chars (s : go_string) : option (go_string * go_string) :=
  match s with
  | [] => None
  | c :: rest =>
      if bool_decide (c = x22) then Some ([], rest)
      else if bool_decide (c = x5c) then
        match rest with
        | [] => None
        | e :: r =>
            if bool_decide (e = x75) then
              match r with
              | h1 :: h2 :: h3 :: h4 :: r' =>
                  a ← unhex h1; b ← unhex h2; d ← unhex h3; f ← unhex h4;
                  l ← utf8 (((a * 16 + b) * 16 + d) * 16 + f);
                  p ← read_chars r'; Some (l ++ p.1, p.2)
              | _ => None
              end
            else b ← simple_escape e; p ← read_chars r; Some (b :: p.1, p.2)
        end
      else if byte_Z c <? 32 then None
      else p ← read_chars rest; Some (c :: p.1, p.2)
  end.

(** A literal that starts with a quote. *)
Definition read_string (s : go_string) : option (go_string * go_string) :=
  match s with c :: rest => if bool_decide (c = x22) then read_chars rest else None | [] => None end.

(** A run of digits without a superfluous zero. *)
Definition read_natural (s : go_string) : option (Z * go_string) :=
  match span_digits s with
  | ([], _) => None
  | (c :: more, rest) =>
      if bool_decide (c = digit 0 /\ more <> []) then None else Some (digits_value 0 (c :: more), rest)
  end.

Definition read_number (s : go_string) : option (json * go_string) :=
  match s with
  | c :: rest =>
      if bool_decide (c = x2d) then p ← read_natural rest; Some (JNumber (- p.1), p.2)
      else p ← read_natural s; Some (JNumber p.1, p.2)
  | [] => None
  end.

(** After an item: a comma and more items, or the closing byte. *)
Definition after_item {A} (closing : byte) (more : go_string -> option (list A * go_string)) (x : A) (s : go_string)
    : option (list A * go_string) :=
  match s with
  | c :: rest =>
      if bool_decide (c = closing) then Some ([x], rest)
      else if bool_decide (c = x2c) then p ← more rest; Some (x :: p.1, p.2)
      else None
  | [] => None
  end.

Fixpoint read_value (fuel : nat) (s : go_string) : option (json * go_string) :=
  match fuel with
  | O => None
  | S fuel' =>
      match s with
      | [] => None
      | c :: rest =>
          if bool_decide (c = x22) then p ← read_chars rest; Some (JString p.1, p.2)
          else if bool_decide (c = x5b) then
            match rest with
            | d :: rest' =>
                if bool_decide (d = x5d) then Some (JArray [], rest')
                else p ← read_items fuel' rest; Some (JArray p.1, p.2)
            | [] => None
            end
          else if bool_decide (c = x7b) then
            match rest with
            | d :: rest' =>
                if bool_decide (d = x7d) then Some (JObject [], rest')
                else p ← read_fields fuel' rest; Some (JObject p.1, p.2)
            | [] => None
            end
          else if bool_decide (take 4 s = str "null") then Some (JNull, drop 4 s)
          else read_number s
      end
  end
with read_items (fuel : nat) (s : go_string) : option (list json * go_string) :=
  match fuel with
  | O => None
  | S fuel' => p ← read_value fuel' s; after_item x5d (read_items fuel') p.1 p.2
  end
with read_fields (fuel : nat) (s : go_string) : option (list (go_string * json) * go_string) :=
  match fuel with
  | O => None
  | S fuel' =>
      k ← read_string s;
      match k.2 with
      | c :: rest =>
          if bool_decide (c = x3a)
          then p ← read_value fuel' rest; after_item x7d (read_fields fuel') (k.1, p.1) p.2
          else None
      | [] => None
      end
  end.

(** One value and its newline.  Every call consumes a byte, so the length is enough
    fuel. *)
Definition read_json (text : go_string) : option json :=
  match read_value (length text) text with
  | Some (v, rest) => if bool_decide (rest = [x0a]) then Some v else None
  | None => None
  end.

(** ** Strings are read back *)

Definition character_ok (ch : option go_string) : Prop :=
  match ch with
  | None => True
  | Some [c] => byte_Z c < 128
  | Some l => Forall (fun c => 128 <= byte_Z c) l
  end.

Lemma in_range_ge lo hi c : in_range lo hi c = true -> lo <= byte_Z c.
Proof. unfold in_range. intros [?%Z.leb_le _]%andb_true_iff. done. Qed.

Lemma second_ok_ge c0 c1 : second_ok c0 c1 = true -> 128 <= byte_Z c1.
Proof. unfold second_ok. repeat case_match; intros Hc%in_range_ge; lia. Qed.

(** [character_bytes] shows that the bytes of a longer character are above ASCII. *)
Ltac character_bytes :=
  repeat match goal with
  | H : _ && _ = true |- _ => apply andb_true_iff in H as [? ?]
  | H : in_range _ _ _ = true |- _ => apply in_range_ge in H
  | H : continuation _ = true |- _ => apply in_range_ge in H
  | H : second_ok _ _ = true |- _ => apply second_ok_ge in H
  end; repeat constructor; lia.

(** Induction over the characters of a string. *)
Lemma characters_ind (P : go_string -> list (option go_string) -> Prop) :
  P [] [] ->
  (forall ch s, character_ok (Some ch) -> P s (characters s) -> P (ch ++ s) (Some ch :: characters s)) ->
  (forall c s, P s (characters s) -> P (c :: s) (None :: characters s)) ->
  forall s, P s (characters s).
Proof.
  intros Hnil Hch Hbad s. remember (length s) as n eqn:Hn. revert s Hn.
  induction n as [n IH] using lt_wf_ind. intros s ->.
  assert (IHs : forall t, (length t < length s)%nat -> P t (characters t)) by (intros t Ht; by eapply IH).
  destruct s as [|c0 r0]; [done|]. cbn [characters]. simpl in IHs.
  destruct (Z.ltb_spec (byte_Z c0) 128) as [Hlt|Hge].
  { apply (Hch [c0] r0); [done|]. apply IHs. lia. }
  destruct r0 as [|c1 r1]; [by apply Hbad|]. simpl in IHs.
  destruct (in_range 194 223 c0 && second_ok c0 c1) eqn:E1.
  { apply (Hch [c0; c1] r1); [character_bytes|]. apply IHs. lia. }
  destruct r1 as [|c2 r2]; [apply Hbad, IHs; simpl; lia|]. simpl in IHs.
  destruct (in_range 224 239 c0 && _ && _) eqn:E2.
  { apply (Hch [c0; c1; c2] r2); [character_bytes|]. apply IHs. lia. }
  destruct r2 as [|c3 r3]; [apply Hbad, IHs; simpl; lia|]. simpl in IHs.
  destruct (in_range 240 244 c0 && _ && _ && _) eqn:E3.
  { apply (Hch [c0; c1; c2; c3] r3); [character_bytes|]. apply IHs. lia. }
  apply Hbad, IHs. simpl. lia.
Qed.

Lemma characters_ok s : Forall character_ok (characters s).
Proof. apply (characters_ind (fun _ l => Forall character_ok l)); by constructor. Qed.

(** Text that is valid UTF-8, and its reading. *)
Definition valid_utf8 (s : go_string) : Prop := None ∉ characters s.

Lemma sanitized_valid s : valid_utf8 s -> sanitized s = s.
Proof.
  unfold valid_utf8, sanitized. apply (characters_ind (fun s l => None ∉ l -> l ≫= default replacement = s)); [done| |].
  - intros ch t _ IH Hn. rewrite bind_cons, IH; [done|]. intros H. apply Hn. by right.
  - intros c t _ Hn. destruct Hn. by left.
Qed.

Lemma ascii_valid s : ascii_text s -> characters s = (fun c => Some [c]) <$> s.
Proof.
  induction 1 as [|c s Hc _ IH]; [done|]. cbn [characters fmap list_fmap]. apply Z.ltb_lt in Hc. rewrite Hc. f_equal. apply IH.
Qed.

Lemma ascii_sanitized s : ascii_text s -> sanitized s = s.
Proof.
  intros Hs. apply sanitized_valid. unfold valid_utf8. rewrite ascii_valid by done.
  intros (c & Hc & _)%list_elem_of_fmap. done.
Qed.

Lemma escape_ascii_read c t : byte_Z c < 128 ->
  read_chars (escape_ascii c ++ t) = p ← read_chars t; Some (c :: p.1, p.2).
Proof. intros Hc. destruct c; first [by vm_compute in Hc | reflexivity]. Qed.

Lemma raw_chars_read l t : Forall (fun c => 128 <= byte_Z c) l ->
  read_chars (l ++ t) = p ← read_chars t; Some (l ++ p.1, p.2).
Proof.
  induction 1 as [|c l Hc _ IH]; cbn [app read_chars].
  { destruct (read_chars t) as [[a b]|]; done. }
  rewrite !bool_decide_false by (intros ->; by vm_compute in Hc). rewrite IH.
  destruct (Z.ltb_spec (byte_Z c) 32); [lia|]. destruct (read_chars t) as [[a b]|]; done.
Qed.

Lemma escape_character_read ch t : character_ok ch ->
  read_chars (escape_character ch ++ t) = p ← read_chars t; Some (default replacement ch ++ p.1, p.2).
Proof.
  destruct ch as [[|c [|c' l]]|]; intros Hch.
  - apply (raw_chars_read []). constructor.
  - by apply escape_ascii_read.
  - cbn [escape_character default from_option]. case_bool_decide as E1; [by rewrite E1|].
    case_bool_decide as E2; [by rewrite E2|]. by apply raw_chars_read.
  - done.
Qed.

Lemma read_chars_escaped l t : Forall character_ok l ->
  read_chars ((l ≫= escape_character) ++ [x22] ++ t) = Some (l ≫= default replacement, t).
Proof.
  induction 1 as [|ch l Hch _ IH]; [done|].
  rewrite !bind_cons, <- (assoc app), escape_character_read by done. by rewrite IH.
Qed.

Lemma read_string_append s t : read_string (appendString s ++ t) = Some (sanitized s, t).
Proof.
  unfold appendString. rewrite <- !(assoc app). cbn [app read_string]. rewrite bool_decide_true by done.
  apply read_chars_escaped, characters_ok.
Qed.

(** ** Numbers are read back *)

(** What may follow a number. *)
Definition no_digit (t : go_string) : Prop := forall c, head t = Some c -> is_digit c = false.

Lemma read_natural_decimal v t : 0 <= v -> no_digit t -> read_natural (decimal v ++ t) = Some (v, t).
Proof.
  intros Hv Ht. unfold read_natural. rewrite span_digits_app by (done || apply decimal_digits).
  destruct (decimal_head v Hv) as (d & rest & Hd & E & Hz). rewrite E. rewrite bool_decide_false.
  - rewrite <- E. by rewrite decimal_value.
  - intros [Hd0 Hr]. apply Hr, Hz. apply digit_inj; [lia|lia|done].
Qed.

Lemma digit_not d c : 0 <= d <= 9 -> is_digit c = false -> digit d <> c.
Proof. intros Hd Hc <-. rewrite digit_is_digit in Hc by lia. done. Qed.

Lemma read_number_decimal n t : no_digit t -> read_number (signed_decimal n ++ t) = Some (JNumber n, t).
Proof.
  intros Ht. unfold signed_decimal. destruct (Z.ltb_spec n 0) as [Hn|Hn].
  - change (str "-") with [x2d]. rewrite <- (assoc app). cbn [app read_number].
    rewrite bool_decide_true, read_natural_decimal by (done || lia). simpl. do 3 f_equal. lia.
  - pose proof (read_natural_decimal n t Hn Ht) as Hr. destruct (decimal_head n Hn) as (d & rest & Hd & E & _).
    rewrite E in *. unfold read_number. cbn [app] in *. rewrite bool_decide_false by by apply digit_not.
    by rewrite Hr.
Qed.

(** ** Values are read back *)

Fixpoint sanitized_json (v : json) : json :=
  match v with
  | JNull => JNull
  | JNumber n => JNumber n
  | JString s => JString (sanitized s)
  | JArray l => JArray (sanitized_json <$> l)
  | JObject fields => JObject ((fun p => match p with (k, x) => (sanitized k, sanitized_json x) end) <$> fields)
  end.

(** The calls the reader makes on a value. *)
Fixpoint json_size (v : json) : nat :=
  match v with
  | JArray l => S (sum_list_with (fun x => S (json_size x)) l)
  | JObject fields => S (sum_list_with (fun p => match p with (_, x) => S (json_size x) end) fields)
  | _ => 1
  end.

Lemma json_nested_ind (P : json -> Prop) :
  P JNull -> (forall n, P (JNumber n)) -> (forall s, P (JString s)) ->
  (forall l, Forall P l -> P (JArray l)) -> (forall fs, Forall (fun p => P p.2) fs -> P (JObject fs)) ->
  forall v, P v.
Proof.
  intros Hnull Hnum Hstr Harr Hobj. fix IH 1. intros [|n|s|l|fs]; [done|done|done| |].
  - apply Harr. induction l; constructor; [apply IH|done].
  - apply Hobj. induction fs as [|[k x] fs]; constructor; [apply IH|done].
Qed.

Definition reads_back (v : json) : Prop := forall fuel t, (json_size v <= fuel)%nat -> no_digit t ->
  read_value fuel (encode_value v ++ t) = Some (sanitized_json v, t).

(** The first byte of a value is not a closing bracket. *)
Lemma encode_value_head v : exists c rest, encode_value v = c :: rest /\ c <> x5d.
Proof.
  destruct v as [|n|s|l|fs]; cbn [encode_value]; [by eexists _, _| |by eexists _, _..].
  unfold signed_decimal. destruct (Z.ltb_spec n 0) as [Hn|Hn]; [by eexists _, _|].
  destruct (decimal_head n Hn) as (d & rest & Hd & -> & _). exists (digit d), rest.
  split; [done|]. by apply digit_not.
Qed.

Lemma separated_cons a b l : separated (a :: b :: l) = a ++ [x2c] ++ separated (b :: l).
Proof. done. Qed.

Lemma no_digit_cons c t : is_digit c = false -> no_digit (c :: t).
Proof. by intros Hc c' [= <-]. Qed.

Lemma after_item_more {A} closing more (x : A) t l rest :
  closing <> x2c -> more t = Some (l, rest) -> after_item closing more x (x2c :: t) = Some (x :: l, rest).
Proof. intros Hc Hm. cbn [after_item]. rewrite bool_decide_false, bool_decide_true, Hm by done. done. Qed.

Lemma read_items_back l : l <> [] -> Forall reads_back l -> forall fuel t,
  (sum_list_with (fun x => S (json_size x)) l <= fuel)%nat ->
  read_items fuel (separated (encode_value <$> l) ++ [x5d] ++ t) = Some (sanitized_json <$> l, t).
Proof.
  intros Hne Hl. induction Hl as [|v l Hv Hl IH]; [done|]. intros fuel t Hf.
  destruct fuel as [|fuel]; [simpl in Hf; lia|]. cbn [read_items sum_list_with] in *. destruct l as [|v' l].
  - cbn [fmap list_fmap separated]. rewrite Hv; [done|lia|by apply no_digit_cons].
  - cbn [fmap list_fmap] in *. rewrite separated_cons, <- !(assoc app). rewrite Hv; [|lia|by apply no_digit_cons].
    apply after_item_more; [done|]. apply (IH ltac:(done)). simpl in *. lia.
Qed.

Definition field_text (p : go_string * json) : go_string :=
  match p with (k, x) => appendString k ++ [x3a] ++ encode_value x end.
Definition sanitized_field (p : go_string * json) : go_string * json :=
  match p with (k, x) => (sanitized k, sanitized_json x) end.
Definition field_size (p : go_string * json) : nat := match p with (_, x) => S (json_size x) end.

Lemma read_fields_back fs : fs <> [] -> Forall (fun p => reads_back p.2) fs -> forall fuel t,
  (sum_list_with field_size fs <= fuel)%nat ->
  read_fields fuel (separated (field_text <$> fs) ++ [x7d] ++ t) = Some (sanitized_field <$> fs, t).
Proof.
  intros Hne Hl. induction Hl as [|[k v] l Hv Hl IH]; [done|]. intros fuel t Hf. simpl in Hv.
  destruct fuel as [|fuel]; [simpl in Hf; lia|]. cbn [read_fields].
  cbn [sum_list_with field_size] in Hf. destruct l as [|p l].
  - cbn [fmap list_fmap separated field_text]. rewrite <- !(assoc app), read_string_append.
    cbn [mbind option_bind snd app]. rewrite bool_decide_true by done.
    rewrite Hv; [done|lia|by apply no_digit_cons].
  - cbn [fmap list_fmap] in *. rewrite separated_cons. unfold field_text at 1. rewrite <- !(assoc app), read_string_append.
    cbn [mbind option_bind snd app]. rewrite bool_decide_true by done.
    rewrite Hv; [|lia|by apply no_digit_cons].
    apply after_item_more; [done|]. apply (IH ltac:(done)). simpl in *. lia.
Qed.

Lemma value_reads_back v : reads_back v.
Proof.
  induction v as [|n|s|l IH|fs IH] using json_nested_ind; intros [|fuel] t Hf Ht;
    try (simpl in Hf; lia); cbn [encode_value sanitized_json].
  - done.
  - pose proof (read_number_decimal n t Ht) as Hr. destruct (encode_value_head (JNumber n)) as (c & rest & E & _).
    cbn [encode_value] in E. unfold signed_decimal in *. destruct (Z.ltb_spec n 0) as [Hn|Hn]; [exact Hr|].
    destruct (decimal_head n Hn) as (d & more & Hd & E' & _). rewrite E' in *. cbn [app read_value].
    rewrite !bool_decide_false by (first [by apply digit_not | intros [= H _]; by apply (digit_not d x6e) in H]). exact Hr.
  - pose proof (read_chars_escaped (characters s) t (characters_ok s)) as Hr.
    unfold appendString. rewrite <- !(assoc app). cbn [app read_value] in *. rewrite bool_decide_true by done. by rewrite Hr.
  - rewrite <- !(assoc app). cbn [app read_value]. rewrite bool_decide_false, bool_decide_true by done.
    destruct l as [|v l]; [done|].
    pose proof (read_items_back (v :: l) ltac:(done) IH fuel t ltac:(simpl in *; lia)) as Hr.
    destruct (encode_value_head v) as (c & rest & E & Hc).
    assert (exists more, separated (encode_value <$> v :: l) = c :: more) as [more E'].
    { cbn [fmap list_fmap]. destruct (encode_value <$> l); cbn [separated]; rewrite E; by eexists. }
    rewrite E' in *. cbn [app] in *. rewrite bool_decide_false by done. by rewrite Hr.
  - change (fun p => match p with (k, x) => appendString k ++ [x3a] ++ encode_value x end) with field_text.
    change (fun p => match p with (k, x) => (sanitized k, sanitized_json x) end) with sanitized_field.
    rewrite <- !(assoc app). cbn [app read_value]. rewrite !bool_decide_false, bool_decide_true by done.
    change (S (sum_list_with field_size fs) <= S fuel)%nat in Hf. destruct fs as [|[k v] fs]; [done|].
    pose proof (read_fields_back ((k, v) :: fs) ltac:(done) IH fuel t ltac:(lia)) as Hr.
    assert (exists more, separated (field_text <$> (k, v) :: fs) = x22 :: more) as [more E'].
    { cbn [fmap list_fmap]. destruct (field_text <$> fs); cbn [separated field_text]; unfold appendString; by eexists. }
    unfold go_string in *. rewrite E' in *. cbn [app] in *. rewrite bool_decide_false by done. by rewrite Hr.
Qed.

(** ** The length of the text is enough fuel *)

Lemma length_separated (l : list go_string) : (sum_list_with (fun t => S (length t)) l <= S (length (separated l)))%nat.
Proof.
  induction l as [|a [|b l] IH]; [simpl; lia|simpl; lia|].
  rewrite separated_cons, !length_app. cbn [sum_list_with length] in *. lia.
Qed.

Lemma sum_list_with_le {A B} (f : A -> nat) (g : B -> nat) (h : A -> B) l :
  Forall (fun x => f x <= g (h x))%nat l -> (sum_list_with f l <= sum_list_with g (h <$> l))%nat.
Proof. induction 1; cbn [fmap list_fmap sum_list_with]; lia. Qed.

Lemma json_size_length v : (json_size v <= length (encode_value v))%nat.
Proof.
  induction v as [|n|s|l IH|fs IH] using json_nested_ind; cbn [json_size encode_value].
  - simpl. lia.
  - destruct (encode_value_head (JNumber n)) as (c & rest & E & _). cbn [encode_value] in E. rewrite E. simpl. lia.
  - simpl. lia.
  - rewrite !length_app. cbn [length]. pose proof (length_separated (encode_value <$> l)).
    assert (sum_list_with (fun x => S (json_size x)) l <= sum_list_with (fun t : go_string => S (length t)) (encode_value <$> l))%nat; [|unfold go_string in *; lia].
    apply sum_list_with_le. eapply Forall_impl; [exact IH|]. simpl. lia.
  - change (fun p => match p with (k, x) => appendString k ++ [x3a] ++ encode_value x end) with field_text.
    change (fun p => match p with (_, x) => S (json_size x) end) with field_size.
    rewrite !length_app. cbn [length]. pose proof (length_separated (field_text <$> fs)).
    assert (sum_list_with field_size fs <= sum_list_with (fun t : go_string => S (length t)) (field_text <$> fs))%nat; [|unfold go_string in *; lia].
    apply sum_list_with_le. eapply Forall_impl; [exact IH|]. intros [k x] Hx. simpl in *. rewrite !length_app. simpl. lia.
Qed.

(** The reader recovers every encoded value; only invalid UTF-8 is replaced. *)
Lemma read_json_Encode v : read_json (Encode v) = Some (sanitized_json v).
Proof.
  unfold read_json, Encode. rewrite value_reads_back; [by rewrite bool_decide_true| |by apply no_digit_cons].
  rewrite length_app. pose proof (json_size_length v). lia.
Qed.
