(* ===== verification/Clock.v ===== *)
(** * Instants as text: [time.Time.MarshalJSON]

    The Gregorian calendar, the RFC 3339 form of an instant in UTC with its fraction of a
    second, and the proof that the text denotes the instant. *)
From S2P Require Import Prelude Errors Domain Validate Store Fixtures Cursor Text Json.
From stdpp Require Import prelude gmap list strings.
From Stdlib Require Import ZArith Lia Strings.Byte.

Local Open Scope Z_scope.

(** ** The calendar *)

Definition is_leap (y : Z) : bool := (y mod 4 =? 0) && (negb (y mod 100 =? 0) || (y mod 400 =? 0)).

(** Days from 0001-01-01 to the first of January of a year. *)
Definition days_before_year (y : Z) : Z := 365 * (y - 1) + (y - 1) / 4 - (y - 1) / 100 + (y - 1) / 400.

(** Days of the year before a month. *)
Definition days_before_month (leap : bool) (m : Z) : Z :=
  default 0 ([0; 31; 59; 90; 120; 151; 181; 212; 243; 273; 304; 334] !! Z.to_nat (m - 1)) +
  (if leap && (2 <? m) then 1 else 0).

Definition days_of_date (y m d : Z) : Z := days_before_year y + days_before_month (is_leap y) m + (d - 1).

(** The year of a day and the day of that year: cycles of 400, 100, 4 and 1 years, the
    last cycle of a group being the longer one. *)
Definition year_of_days (n : Z) : Z * Z :=
  let c := n / 146097 in
  let r := n mod 146097 in
  let h := Z.min (r / 36524) 3 in
  let r := r - 36524 * h in
  let q := r / 1461 in
  let r := r - 1461 * q in
  let a := Z.min (r / 365) 3 in
  (400 * c + 100 * h + 4 * q + a + 1, r - 365 * a).

(** The last month that starts on or before the day. *)
Definition month_of_yday (leap : bool) (yday : Z) : Z :=
  default 1 (snd <$> list_find (fun m => days_before_month leap m <= yday) [12; 11; 10; 9; 8; 7; 6; 5; 4; 3; 2; 1]).

(** [time.Time.Date], for UTC *)
Definition date_of_days (n : Z) : Z * Z * Z :=
  match year_of_days n with
  | (y, yday) =>
      let m := month_of_yday (is_leap y) yday in
      (y, m, yday - days_before_month (is_leap y) m + 1)
  end.

(** ** Text *)

Definition nanos_per_second : Z := 1000000000.
Definition Time_days (t : Time) : Z := Time_nanos t / nanos_per_second / 86400.
Definition Time_year (t : Time) : Z := (date_of_days (Time_days t)).1.1.

(** Date, time of day and what follows the seconds. *)
Definition clock_text (y m d second : Z) (tail : go_string) : go_string :=
  pad 4 y ++ str "-" ++ pad 2 m ++ str "-" ++ pad 2 d ++ str "T" ++
  pad 2 (second / 3600) ++ str ":" ++ pad 2 (second / 60 mod 60) ++ str ":" ++ pad 2 (second mod 60) ++ tail.

(** [appendStrictRFC3339] for UTC: an error when the year needs more than four digits. *)
Definition RFC3339 (t : Time) : option go_string :=
  match date_of_days (Time_days t) with
  | (y, m, d) =>
      let second := Time_nanos t / nanos_per_second mod 86400 in
      if (0 <=? y) && (y <=? 9999) then
        Some (clock_text y m d second (fmtFrac (str "Z") (Time_nanos t mod nanos_per_second) 9).1)
      else None
  end.

(** The instant a text of this form denotes. *)
Definition field (i n : nat) (text : go_string) : Z := digits_value 0 (take n (drop i text)).
Definition fraction_nanos (text : go_string) : Z :=
  match text with
  | x2e :: rest => let fd := (span_digits rest).1 in digits_value 0 fd * 10 ^ Z.of_nat (9 - length fd)
  | _ => 0
  end.
Definition instant (text : go_string) : Z :=
  (((days_of_date (field 0 4 text) (field 5 2 text) (field 8 2 text) * 24 + field 11 2 text) * 60 + field 14 2 text) * 60
   + field 17 2 text) * nanos_per_second + fraction_nanos (drop 19 text).

(** ** The calendar is inverted *)

(** [lia] with division by constants. *)
Ltac div_lia := Z.to_euclidean_division_equations; lia.

Lemma year_of_days_spec n y yday : year_of_days n = (y, yday) ->
  days_before_year y + yday = n /\ 0 <= yday < 365 + (if is_leap y then 1 else 0).
Proof.
  unfold year_of_days. intros [= <- <-].
  set (c := n / 146097). set (r := n mod 146097). assert (Hn : n = 146097 * c + r) by (apply Z.div_mod; lia).
  assert (Hr : 0 <= r < 146097) by (apply Z.mod_pos_bound; lia). clearbody c r.
  set (h := Z.min (r / 36524) 3). assert (0 <= h <= 3 /\ 0 <= r - 36524 * h /\ (h < 3 -> r - 36524 * h < 36524) /\
    (h = 3 -> r - 36524 * h < 36525)) as (Hh & Hr1 & Hr2 & Hr3) by (subst h; div_lia).
  set (r1 := r - 36524 * h) in *. assert (Hr' : r = 36524 * h + r1) by lia. clearbody h r1.
  set (q := r1 / 1461). assert (0 <= q <= 24 /\ 0 <= r1 - 1461 * q < 1461 /\ (h < 3 -> q = 24 -> r1 - 1461 * q < 1460)) as (Hq & Hq1 & Hq2) by (subst q; div_lia).
  set (r2 := r1 - 1461 * q) in *. assert (Hr1' : r1 = 1461 * q + r2) by lia. clearbody q r2.
  set (a := Z.min (r2 / 365) 3). assert (0 <= a <= 3 /\ 0 <= r2 - 365 * a /\ (a < 3 -> r2 - 365 * a < 365) /\
    (a = 3 -> r2 - 365 * a < 366)) as (Ha & Ha1 & Ha2 & Ha3) by (subst a; div_lia).
  set (yd := r2 - 365 * a) in *. assert (Hr2' : r2 = 365 * a + yd) by lia. clearbody a yd.
  unfold days_before_year. replace (400 * c + 100 * h + 4 * q + a + 1 - 1) with (400 * c + 100 * h + 4 * q + a) by lia.
  assert (E4 : (400 * c + 100 * h + 4 * q + a) / 4 = 100 * c + 25 * h + q) by (clear -Hh Hq Ha; div_lia).
  assert (E100 : (400 * c + 100 * h + 4 * q + a) / 100 = 4 * c + h) by (clear -Hh Hq Ha; div_lia).
  assert (E400 : (400 * c + 100 * h + 4 * q + a) / 400 = c) by (clear -Hh Hq Ha; div_lia).
  split; [lia|]. split; [done|]. unfold is_leap.
  destruct (Z.eqb_spec ((400 * c + 100 * h + 4 * q + a + 1) mod 4) 0) as [E|E]; [|assert (a < 3) by (clear -Ha E; div_lia); simpl; lia].
  assert (a = 3) as -> by (clear -Hh Hq Ha E; div_lia).
  destruct (Z.eqb_spec ((400 * c + 100 * h + 4 * q + 3 + 1) mod 100) 0) as [E'|E']; [|simpl; lia].
  assert (q = 24) as -> by (clear -Hh Hq E'; div_lia).
  destruct (Z.eqb_spec ((400 * c + 100 * h + 4 * 24 + 3 + 1) mod 400) 0); [simpl; lia|].
  assert (h < 3) by (clear -Hh n0; div_lia). simpl. lia.
Qed.

Definition month_ok (leap : bool) (yday : Z) : bool :=
  let m := month_of_yday leap yday in
  let d := yday - days_before_month leap m + 1 in
  (1 <=? m) && (m <=? 12) && (1 <=? d) && (d <=? 31).

Lemma months_table :
  forallb (month_ok false) (seqZ 0 365) && forallb (month_ok true) (seqZ 0 366) = true.
Proof. vm_compute. reflexivity. Qed.

Lemma month_of_yday_spec (leap : bool) yday : 0 <= yday < 365 + (if leap then 1 else 0) -> month_ok leap yday = true.
Proof.
  intros Hy. pose proof months_table as Ht. rewrite andb_true_iff, !forallb_forall in Ht. destruct Ht as [Hf Hl].
  destruct leap; [apply Hl|apply Hf]; apply list_elem_of_In, elem_of_seqZ; lia.
Qed.

(** The date of a day is a date, and the date of that day. *)
Lemma date_of_days_spec n y m d : date_of_days n = (y, m, d) ->
  days_of_date y m d = n /\ 1 <= m <= 12 /\ 1 <= d <= 31.
Proof.
  unfold date_of_days, days_of_date. destruct (year_of_days n) as [y' yday] eqn:E. apply year_of_days_spec in E as [Hn Hy].
  intros [= <- <- <-]. apply month_of_yday_spec in Hy. unfold month_ok in Hy. bool_iff in Hy. lia.
Qed.

(** ** The text denotes the instant *)

Lemma RFC3339_Some t : is_Some (RFC3339 t) <-> 0 <= Time_year t <= 9999.
Proof.
  unfold RFC3339, Time_year. destruct (date_of_days _) as [[y m] d]. simpl.
  destruct ((0 <=? y) && (y <=? 9999)) eqn:E; bool_iff in E; [by split|].
  apply andb_false_iff in E. bool_iff in E. split; [intros [? [=]]|lia].
Qed.

Lemma fraction_printed v : 0 <= v < nanos_per_second -> fraction_nanos (fmtFrac (str "Z") v 9).1 = v.
Proof.
  unfold nanos_per_second. intros Hv. destruct (fmtFrac_spec (str "Z") v 9 ltac:(lia)) as [[Hm ->]|(fd & k & -> & Hd & _ & Hl & Hval)].
  - rewrite Z.mod_small in Hm by lia. by rewrite Hm.
  - cbn [fst fraction_nanos]. rewrite span_digits_app by (done || by intros c [= <-]).
    rewrite Z.mod_small in Hval by (simpl; lia). cbn [fst]. rewrite <- Hval. do 3 f_equal. lia.
Qed.

Lemma fmtFrac_ascii v : 0 <= v -> ascii_text (fmtFrac (str "Z") v 9).1.
Proof.
  intros Hv. destruct (fmtFrac_spec (str "Z") v 9 Hv) as [[_ ->]|(fd & k & -> & Hd & _)].
  - by apply (bool_decide_unpack _).
  - constructor; [done|]. apply ascii_app; [by apply digits_ascii|by apply (bool_decide_unpack _)].
Qed.

Lemma RFC3339_ascii t text : RFC3339 t = Some text -> ascii_text text.
Proof.
  unfold RFC3339. destruct (date_of_days _) as [[y m] d]. destruct (_ && _); [|done]. intros [= <-].
  unfold clock_text. do 5 (apply ascii_app; [by apply digits_ascii, pad_digits|];
    apply ascii_app; [by apply (bool_decide_unpack _)|]).
  apply ascii_app; [by apply digits_ascii, pad_digits|].
  apply fmtFrac_ascii, Z.mod_pos_bound. done.
Qed.

(** The text of an instant denotes it to the nanosecond. *)
Lemma instant_RFC3339 t text : RFC3339 t = Some text -> instant text = Time_nanos t.
Proof.
  unfold RFC3339. destruct (date_of_days _) as [[y m] d] eqn:E. apply date_of_days_spec in E as (Hday & Hm & Hd).
  destruct ((0 <=? y) && (y <=? 9999)) eqn:Hy; [|done]. bool_iff in Hy. intros [= <-].
  set (second := Time_nanos t / nanos_per_second mod 86400) in *.
  assert (Hs : 0 <= second < 86400) by (apply Z.mod_pos_bound; lia).
  set (frac := (fmtFrac _ _ _).1). set (text := clock_text _ _ _ _ _).
  assert (field 0 4 text = y) as Ey by (apply (pad_value 4 y); simpl; lia).
  assert (field 5 2 text = m) as Em by (apply (pad_value 2 m); simpl; lia).
  assert (field 8 2 text = d) as Ed by (apply (pad_value 2 d); simpl; lia).
  assert (field 11 2 text = second / 3600) as Eh by (apply (pad_value 2 (second / 3600)); simpl; div_lia).
  assert (field 14 2 text = second / 60 mod 60) as Emin by (apply (pad_value 2 (second / 60 mod 60)); simpl; div_lia).
  assert (field 17 2 text = second mod 60) as Es by (apply (pad_value 2 (second mod 60)); simpl; div_lia).
  unfold instant. rewrite Ey, Em, Ed, Eh, Emin, Es, Hday. change (drop 19 text) with frac.
  subst frac. rewrite fraction_printed by (apply Z.mod_pos_bound; done).
  assert (Time_nanos t = nanos_per_second * (Time_nanos t / nanos_per_second) + Time_nanos t mod nanos_per_second) as Ht
    by (apply Z.div_mod; done).
  assert (Time_nanos t / nanos_per_second = 86400 * Time_days t + second) as Hsec by (apply Z.div_mod; done).
  assert (second = (second / 3600 * 60 + second / 60 mod 60) * 60 + second mod 60) as Hhms by div_lia.
  transitivity (nanos_per_second * (86400 * Time_days t + ((second / 3600 * 60 + second / 60 mod 60) * 60 + second mod 60))
    + Time_nanos t mod nanos_per_second); [ring|]. by rewrite <- Hhms, <- Hsec.
Qed.
