(* ===== verification/Query.v ===== *)
(** * Query strings: [request.URL.Query()]

    [url.ParseQuery] on the text after the question mark: parameters separated by
    ampersands, percent-escapes and plus signs decoded, malformed parameters skipped (the
    error is ignored by [Query]). *)
From S2P Require Import Prelude Errors Domain Validate Store Fixtures Cursor Text Json.
From stdpp Require Import prelude gmap list strings.
From Stdlib Require Import ZArith Lia Strings.Byte.

Local Open Scope Z_scope.

(** [strings.Cut(s, sep)] for a separator of one byte: what is before and after it. *)
Fixpoint cut (sep : byte) (s : go_string) : go_string * go_string :=
  match s with
  | [] => ([], [])
  | c :: rest => if bool_decide (c = sep) then ([], rest) else (c :: (cut sep rest).1, (cut sep rest).2)
  end.

(** The pieces between separators. *)
Fixpoint split_on (sep : byte) (s : go_string) : list go_string :=
  match s with
  | [] => [[]]
  | c :: rest =>
      if bool_decide (c = sep) then [] :: split_on sep rest
      else match split_on sep rest with p :: ps => (c :: p) :: ps | [] => [[c]] end
  end.

(** [url.QueryUnescape] *)
Fixpoint QueryUnescape (s : go_string) : option go_string :=
  match s with
  | [] => Some []
  | c :: rest =>
      if bool_decide (c = x25) then
        match rest with
        | h :: l :: r => a ← unhex h; b ← unhex l; t ← QueryUnescape r; Some (Z_byte (a * 16 + b) :: t)
        | _ => None
        end
      else t ← QueryUnescape rest; Some ((if bool_decide (c = x2b) then x20 else c) :: t)
  end.

(** One round of the loop of [parseQuery]. *)
Definition parse_parameter (values : Values) (piece : go_string) : Values :=
  if bool_decide (x3b ∈ piece \/ piece = []) then values
  else
    match QueryUnescape (cut x3d piece).1, QueryUnescape (cut x3d piece).2 with
    | Some key, Some value =>
        let key := String.string_of_list_byte key in
        <[ key := default [] (values !! key) ++ [value] ]> values
    | _, _ => values
    end.

Definition ParseQuery (query : go_string) : Values := foldl parse_parameter ∅ (split_on x26 query).

(** ** Plain text *)

(** Bytes that mean themselves in a query. *)
Definition plain (s : go_string) : Prop := Forall (fun c => c ∉ [x25; x2b; x26; x3b; x3d]) s.
#[global] Instance plain_dec s : Decision (plain s).
Proof. unfold plain. apply _. Defined.

Lemma QueryUnescape_plain s : plain s -> QueryUnescape s = Some s.
Proof.
  induction 1 as [|c s Hc _ IH]; [done|]. cbn [QueryUnescape].
  rewrite !bool_decide_false by (intros ->; apply Hc; set_solver). by rewrite IH.
Qed.

Lemma cut_plain s t : plain s -> cut x3d (s ++ x3d :: t) = (s, t).
Proof.
  induction 1 as [|c s Hc _ IH]; cbn [app cut]; [by rewrite bool_decide_true|].
  rewrite bool_decide_false by (intros ->; apply Hc; set_solver). by rewrite IH.
Qed.

Lemma split_here sep p t : sep ∉ p -> split_on sep (p ++ sep :: t) = p :: split_on sep t.
Proof.
  induction p as [|c p IH]; intros Hp; cbn [app split_on]; [by rewrite bool_decide_true|].
  rewrite bool_decide_false by (intros ->; apply Hp; by left).
  rewrite IH; [done|]. intros H. apply Hp. by right.
Qed.

Lemma split_last sep p : sep ∉ p -> split_on sep p = [p].
Proof.
  induction p as [|c p IH]; intros Hp; cbn [split_on]; [done|].
  rewrite bool_decide_false by (intros ->; apply Hp; by left).
  rewrite IH; [done|]. intros H. apply Hp. by right.
Qed.

Lemma plain_without c s : plain s -> c ∈ [x25; x2b; x26; x3b; x3d] -> c ∉ s.
Proof. intros Hs Hc Hin. unfold plain in Hs. rewrite list.Forall_forall in Hs. by apply (Hs c). Qed.

Lemma parse_parameter_plain values k v : plain k -> plain v -> k <> [] ->
  parse_parameter values (k ++ x3d :: v) =
    <[ String.string_of_list_byte k := default [] (values !! String.string_of_list_byte k) ++ [v] ]> values.
Proof.
  intros Hk Hv Hne. unfold parse_parameter. rewrite bool_decide_false.
  - rewrite cut_plain by done. cbn [fst snd]. by rewrite !QueryUnescape_plain.
  - intros [[Hin|[Hin|Hin]%elem_of_cons]%elem_of_app|Hn]; [|done| |by destruct k].
    + by apply (plain_without x3b k Hk) in Hin; [|set_solver].
    + by apply (plain_without x3b v Hv) in Hin; [|set_solver].
Qed.

Lemma parameter_no_ampersand k v : plain k -> plain v -> x26 ∉ k ++ x3d :: v.
Proof.
  intros Hk Hv [Hin|[Hin|Hin]%elem_of_cons]%elem_of_app; [|done|].
  - by apply (plain_without x26 k Hk) in Hin; [|set_solver].
  - by apply (plain_without x26 v Hv) in Hin; [|set_solver].
Qed.

Lemma digits_plain s : digits s -> plain s.
Proof.
  intros Hs. eapply Forall_impl; [exact Hs|]. intros c Hc Hin. simpl in Hc.
  rewrite !elem_of_cons, elem_of_nil in Hin. by destruct_or? Hin; subst.
Qed.

(** ** The texts of cursors *)

Lemma b64_table : forallb (fun i => bool_decide (plain [b64_char i] /\ ascii_text [b64_char i])) (seqZ 0 64) = true.
Proof. vm_compute. reflexivity. Qed.

Lemma sextet_plain v k : plain [sextet v k] /\ ascii_text [sextet v k].
Proof.
  pose proof b64_table as Ht. rewrite forallb_forall in Ht. specialize (Ht (v / 64 ^ k mod 64)).
  rewrite bool_decide_eq_true in Ht. apply Ht, list_elem_of_In, elem_of_seqZ.
  pose proof (Z.mod_pos_bound (v / 64 ^ k) 64). lia.
Qed.

(** Every byte of a base64 text is one of the alphabet. *)
Lemma EncodeToString_Forall (P : byte -> Prop) l : (forall v k, P (sextet v k)) -> Forall P (EncodeToString l).
Proof. intros HP. induction l using triple_ind; cbn [EncodeToString]; repeat constructor; auto. Qed.

Lemma cursor_text_plain c : plain (encodeEventCursor c) /\ ascii_text (encodeEventCursor c).
Proof.
  split; apply EncodeToString_Forall; intros v k; destruct (sextet_plain v k) as [H1 H2]; [inversion H1|inversion H2]; done.
Qed.
