(* ===== verification/Service.v ===== *)
(** * The service layer: [internal/service]

    Queries pass through to the store with its errors translated; readiness asks the
    store for its tip. *)
From S2P Require Import Prelude Errors Domain Validate Store Memory MemoryStore MemoryQueries.
From stdpp Require Import prelude gmap list strings.
From Stdlib Require Import ZArith Lia.

Local Open Scope Z_scope.

(** [store.QueryStore]: the answers a store gives to one request, with the request's
    context. *)
Class QueryStore (Q : Type) := {
  BlockByNumber : Q -> Z -> result BlockResult;
  TransactionByHash : Q -> Hash -> result TransactionResult;
  EventsByAddress : Q -> EventQuery -> result EventPage
}.

(** [readinessStore] of [internal/service/health.go] *)
Class ReadinessStore (Q : Type) := {
  Ping : Q -> result unit;
  ReadTip : Q -> result (option ChainTip)
}.

Definition translateStoreError (err : error) : error :=
  if errors_Is err (StoreSentinel StoreErrNotFound)
  then Errorf "%w: %w" [service_err ServiceErrNotFound; err]
  else if errors_Is err (StoreSentinel StoreErrInvalidQuery)
  then Errorf "%w: %w" [service_err ServiceErrInvalidQuery; err]
  else if errors_Is err (StoreSentinel StoreErrStaleCursor)
  then Errorf "%w: %w" [service_err ServiceErrStaleCursor; err]
  else err.

Section Queries.
Context {Q : Type} `{QueryStore Q, ReadinessStore Q}.

Definition QueryService_Block (q : Q) (number : Z) : result BlockResult :=
map_err translateStoreError (BlockByNumber q number).
Definition QueryService_Transaction (q : Q) (hash : Hash) : result TransactionResult :=
map_err translateStoreError (TransactionByHash q hash).
Definition QueryService_Events (q : Q) (query : EventQuery) : result EventPage :=
map_err translateStoreError (EventsByAddress q query).

Definition HealthService_Ready (q : Q) : result ChainTip :=
_ ← map_err (wrapf "check PostgreSQL connection: %w") (Ping q);
tip ← map_err (wrapf "read canonical tip: %w") (ReadTip q);
match tip with
| None => Err (service_err ServiceErrNotReady)
| Some t => Ok t
end.
End Queries.

(** An error of a store carries no sentinel of the service. *)
Definition store_error (e : error) : Prop :=
  forall s, errors_Is e (ServiceSentinel s) = false.

(** The class of an error as a caller sees it. *)
Inductive error_class := ClassNotFound | ClassInvalidQuery | ClassStaleCursor | ClassOther.
#[global] Instance error_class_eq_dec : EqDecision error_class.
Proof. solve_decision. Defined.

Definition store_class (e : error) : error_class :=
  if errors_Is e (StoreSentinel StoreErrNotFound) then ClassNotFound
  else if errors_Is e (StoreSentinel StoreErrInvalidQuery) then ClassInvalidQuery
  else if errors_Is e (StoreSentinel StoreErrStaleCursor) then ClassStaleCursor
  else ClassOther.

Definition service_class (e : error) : error_class :=
  if errors_Is e (ServiceSentinel ServiceErrNotFound) then ClassNotFound
  else if errors_Is e (ServiceSentinel ServiceErrInvalidQuery) then ClassInvalidQuery
  else if errors_Is e (ServiceSentinel ServiceErrStaleCursor) then ClassStaleCursor
  else ClassOther.

(** The translation keeps what a store error means: exactly one service sentinel is
    added, the one that corresponds to the store's, the original error stays wrapped (so
    every [errors.Is] that held still holds), and an error the service does not know is
    passed on unchanged. *)
Theorem translate_store_error_faithful e :
  store_error e ->
  service_class (translateStoreError e) = store_class e /\
  (forall s, errors_Is e s = true -> errors_Is (translateStoreError e) s = true) /\
  (store_class e = ClassOther -> translateStoreError e = e).
Proof.
  intros He. unfold translateStoreError, store_class, service_class.
  destruct (errors_Is e (StoreSentinel StoreErrNotFound)) eqn:E1;
    [|destruct (errors_Is e (StoreSentinel StoreErrInvalidQuery)) eqn:E2;
      [|destruct (errors_Is e (StoreSentinel StoreErrStaleCursor)) eqn:E3]];
    rewrite ?errors_Is_Errorf2, ?He; cbn -[errors_Is]; split_and!; try done;
    intros s Hs; rewrite errors_Is_Errorf2, Hs; apply orb_true_r.
Qed.

Lemma translate_store_error_faithful_witness :
  service_class (translateStoreError (store_err StoreErrStaleCursor)) = ClassStaleCursor.
Proof. apply (translate_store_error_faithful (store_err StoreErrStaleCursor)). by intros s. Defined.

(** ** The in-memory store behind the service *)

(** One request: the store with the state of the request's context. *)
Record MemoryRequest := mkMemoryRequest { mr_ctx : ctx_state; mr_store : Memory }.

#[global] Instance memory_query_store `{GoRuntime} : QueryStore MemoryRequest := {|
  BlockByNumber q n := Memory_BlockByNumber (mr_ctx q) n (mr_store q);
  TransactionByHash q h := Memory_TransactionByHash (mr_ctx q) h (mr_store q);
  EventsByAddress q query := Memory_EventsByAddress (mr_ctx q) query (mr_store q)
|}.

#[global] Instance memory_readiness_store `{GoRuntime} : ReadinessStore MemoryRequest := {|
  Ping q := Memory_Ping (mr_ctx q);
  ReadTip q := Memory_CanonicalTip (mr_ctx q) (mr_store q)
|}.
