(* ===== verification/Server.v ===== *)
(** * HTTP handlers: [internal/server]

    A handler is a function from the request's parameters and the store to a status
    and the value that is encoded as the JSON body ([Response] writes the bytes, [Router]
    dispatches requests).  A panic would be turned into a bare 500 by the recovery
    middleware.  go-ethereum's hexadecimal functions are parameters. *)
From S2P Require Import Prelude Errors Domain Validate Store Fixtures Memory MemoryStore MemoryQueries Cursor Text Service.
From stdpp Require Import prelude gmap list strings.
From Stdlib Require Import ZArith Lia Strings.Byte.

Local Open Scope Z_scope.

(** ** Response bodies *)

Record eventResponse := mkEventResponse {
  evr_BlockNumber : Z; evr_BlockHash : go_string; evr_TransactionHash : go_string; evr_TransactionIndex : Z;
  evr_LogIndex : Z; evr_Address : go_string; evr_Topics : list go_string; evr_Data : go_string
}.
Record eventPageResponse := mkEventPageResponse {
  epr_Events : list eventResponse; epr_NextCursor : option go_string
}.
Record blockResponse := mkBlockResponse {
  blr_Number : Z; blr_Hash : go_string; blr_ParentHash : go_string; blr_Timestamp : Z; blr_GasLimit : Z;
  blr_GasUsed : Z; blr_BaseFeePerGasWei : option go_string; blr_TransactionCount : Z;
  blr_TransactionHashes : list go_string; blr_IndexedAt : Time
}.
Record transactionResponse := mkTransactionResponse {
  txr_Hash : go_string; txr_BlockNumber : Z; txr_BlockHash : go_string; txr_Index : Z; txr_Type : Z;
  txr_Nonce : Z; txr_Sender : go_string; txr_Recipient : option go_string; txr_ValueWei : go_string;
  txr_GasLimit : Z; txr_GasPriceWei : option go_string; txr_MaxFeePerGasWei : option go_string;
  txr_MaxPriorityFeePerGasWei : option go_string; txr_Input : go_string; txr_Events : list eventResponse
}.

Inductive response_body :=
| ErrorBody (code message requestID : String.string)
| BlockBody (r : blockResponse)
| TransactionBody (r : transactionResponse)
| EventsBody (r : eventPageResponse)
| HealthBody (status : String.string)
| ReadinessBody (status : String.string) (lastIndexedBlock : Z)
| NoBody.

Record Response := mkResponse { Response_status : Z; Response_body : response_body }.

Definition StatusOK : Z := 200.
Definition StatusBadRequest : Z := 400.
Definition StatusNotFound : Z := 404.
Definition StatusConflict : Z := 409.
Definition StatusInternalServerError : Z := 500.
Definition StatusServiceUnavailable : Z := 503.

(** [middleware.GetReqID(request.Context())], the identifier the middleware gave the
    request ([GetReqID] is empty when there is none, and the field is then omitted). *)
Class HTTPRequest := GetReqID : String.string.

Definition writeError `{HTTPRequest} (status : Z) (code message : String.string) : Response :=
  mkResponse status (ErrorBody code message GetReqID).
Definition internal_error `{HTTPRequest} : Response :=
  writeError StatusInternalServerError "internal_error" "internal server error".
Definition recovered : Response := mkResponse StatusInternalServerError NoBody.

(** [big.Int.String()], decimal. *)
Definition big_String (v : Z) : go_string := signed_decimal v.
Definition optionalBigIntString (value : option Z) : option go_string :=
  match value with None => None | Some v => Some (big_String v) end.

Section Server.
(** go-ethereum: [Hash.Hex], [Address.Hex], [hexutil.Encode], [common.IsHexAddress],
  [common.HexToAddress], [common.IsHexHash], [common.HexToHash]. *)
Variables (hash_Hex : Hash -> go_string) (address_Hex : Address -> go_string)
(hexutil_Encode : byte_slice -> go_string)
(IsHexAddress : go_string -> bool) (HexToAddress : go_string -> Address)
(IsHexHash : go_string -> bool) (HexToHash : go_string -> Hash).

Definition optionalAddressString (address : option Address) : option go_string :=
match address with None => None | Some a => Some (address_Hex a) end.

Definition newEventResponse (event : Event) : eventResponse :=
mkEventResponse (Event_BlockNumber event) (hash_Hex (Event_BlockHash event))
  (hash_Hex (Event_TransactionHash event)) (Event_TransactionIndex event) (Event_LogIndex event)
  (address_Hex (Event_Address event)) (hash_Hex <$> Event_Topics event) (hexutil_Encode (Event_Data event)).

Definition newEventPageResponse (page : EventPage) : eventPageResponse :=
mkEventPageResponse (newEventResponse <$> Page_Events page)
  (match Page_NextCursor page with None => None | Some c => Some (encodeEventCursor c) end).

Definition newBlockResponse (r : BlockResult) : blockResponse :=
let b := BlockResult_Block r in
mkBlockResponse (Block_Number b) (hash_Hex (Block_Hash b)) (hash_Hex (Block_ParentHash b)) (Block_Timestamp b)
  (Block_GasLimit b) (Block_GasUsed b) (optionalBigIntString (Block_BaseFeePerGas b))
  (Block_TransactionCount b) (hash_Hex <$> BlockResult_TransactionHashes r) (Time_UTC (Block_IndexedAt b)).

Definition newTransactionResponse (r : TransactionResult) : result transactionResponse :=
let t := TransactionResult_Transaction r in
match Transaction_Value t with
| None => Err (server_err errMissingTransactionValue)
| Some value =>
    Ok (mkTransactionResponse (hash_Hex (Transaction_Hash t)) (Transaction_BlockNumber t)
          (hash_Hex (Transaction_BlockHash t)) (Transaction_Index t) (Transaction_Type t) (Transaction_Nonce t)
          (address_Hex (Transaction_Sender t)) (optionalAddressString (Transaction_Recipient t))
          (big_String value) (Transaction_GasLimit t) (optionalBigIntString (Transaction_GasPrice t))
          (optionalBigIntString (Transaction_MaxFeePerGas t))
          (optionalBigIntString (Transaction_MaxPriorityFeePerGas t)) (hexutil_Encode (Transaction_Input t))
          (newEventResponse <$> TransactionResult_Events r))
end.

(** [strings.HasPrefix(value, "0x")] *)
Definition has_0x (value : go_string) : bool := bool_decide (take 2 value = str "0x").

Definition parseEventAddress (value : go_string) : result Address :=
if negb (length value =? 2 + 2 * AddressLength)%nat || negb (has_0x value) || negb (IsHexAddress value)
then Err (server_err errInvalidEventAddress) else Ok (HexToAddress value).

Definition parseTransactionHash (value : go_string) : result Hash :=
if negb (length value =? 2 + 2 * HashLength)%nat || negb (has_0x value) || negb (IsHexHash value)
then Err (server_err errInvalidTransactionHash) else Ok (HexToHash value).

(** ** Handlers *)
Context {Q : Type} `{HR : HTTPRequest} `{QS : QueryStore Q} `{RS : ReadinessStore Q}.

Definition health : Response := mkResponse StatusOK (HealthBody "ok").

Definition readiness (q : Q) : Response :=
match HealthService_Ready q with
| Ok tip => mkResponse StatusOK (ReadinessBody "ready" (Tip_Number tip))
| Err _ => mkResponse StatusServiceUnavailable (HealthBody "not_ready")
| _ => recovered
end.

Definition blockByNumber (q : Q) (rawNumber : go_string) : Response :=
match parseBlockNumber rawNumber with
| Ok number =>
    match QueryService_Block q number with
    | Ok r => mkResponse StatusOK (BlockBody (newBlockResponse r))
    | Err e =>
        if errors_Is e (ServiceSentinel ServiceErrNotFound)
        then writeError StatusNotFound "block_not_found" "block was not found" else internal_error
    | _ => recovered
    end
| Err _ => writeError StatusBadRequest "invalid_block_number" "block number must be an unsigned decimal integer"
| _ => recovered
end.

Definition transactionByHash (q : Q) (rawHash : go_string) : Response :=
match parseTransactionHash rawHash with
| Ok hash =>
    match QueryService_Transaction q hash with
    | Ok r =>
        match newTransactionResponse r with
        | Ok response => mkResponse StatusOK (TransactionBody response)
        | Err _ => internal_error
        | _ => recovered
        end
    | Err e =>
        if errors_Is e (ServiceSentinel ServiceErrNotFound)
        then writeError StatusNotFound "transaction_not_found" "transaction was not found" else internal_error
    | _ => recovered
    end
| Err _ => writeError StatusBadRequest "invalid_transaction_hash"
    "transaction hash must be a 0x-prefixed 32-byte hexadecimal value"
| _ => recovered
end.

Definition eventsByAddress (q : Q) (rawAddress : go_string) (parameters : Values) : Response :=
match parseEventAddress rawAddress with
| Ok address =>
    match parseEventLimit parameters with
    | Ok limit =>
        match parseEventCursor parameters with
        | Ok cursor =>
            match QueryService_Events q (mkQuery address limit cursor) with
            | Ok page => mkResponse StatusOK (EventsBody (newEventPageResponse page))
            | Err e =>
                if errors_Is e (ServiceSentinel ServiceErrInvalidQuery)
                then writeError StatusBadRequest "invalid_event_query" "event query is invalid"
                else if errors_Is e (ServiceSentinel ServiceErrStaleCursor)
                then writeError StatusConflict "stale_cursor" "cursor is no longer canonical; restart pagination"
                else internal_error
            | _ => recovered
            end
        | Err _ => writeError StatusBadRequest "invalid_cursor" "cursor is invalid"
        | _ => recovered
        end
    | Err _ => writeError StatusBadRequest "invalid_limit" "limit must be an integer from 1 to 1000"
    | _ => recovered
    end
| Err _ => writeError StatusBadRequest "invalid_address" "address must be a 0x-prefixed 20-byte hexadecimal value"
| _ => recovered
end.
End Server.

(** ** Statuses for an arbitrary store *)

(** A store that returns, and whose errors carry no sentinel of the service. *)
Class QueryStoreLaws (Q : Type) `{QueryStore Q} := {
  block_errs q n : errs_in store_error (BlockByNumber q n);
  transaction_errs q h : errs_in store_error (TransactionByHash q h);
  events_errs q query : 0 <= Query_Limit query -> (forall c, Query_Before query = Some c -> Cursor_typed c) ->
    errs_in store_error (EventsByAddress q query)
}.

Lemma translated_class e s c :
  store_error e ->
  match s with
  | ServiceErrNotFound => c = ClassNotFound
  | ServiceErrInvalidQuery => c = ClassInvalidQuery
  | ServiceErrStaleCursor => c = ClassStaleCursor
  | ServiceErrNotReady => False
  end ->
  errors_Is (translateStoreError e) (ServiceSentinel s) = bool_decide (store_class e = c).
Proof.
  intros He Hs. unfold translateStoreError, store_class.
  destruct (errors_Is e (StoreSentinel StoreErrNotFound)) eqn:E1;
    [|destruct (errors_Is e (StoreSentinel StoreErrInvalidQuery)) eqn:E2;
      [|destruct (errors_Is e (StoreSentinel StoreErrStaleCursor)) eqn:E3]];
    rewrite ?errors_Is_Errorf2, He; destruct s; subst; done.
Qed.

Section Statuses.
Context (hash_Hex : Hash -> go_string) (address_Hex : Address -> go_string)
(hexutil_Encode : byte_slice -> go_string)
(IsHexAddress : go_string -> bool) (HexToAddress : go_string -> Address)
(IsHexHash : go_string -> bool) (HexToHash : go_string -> Hash).
Context {Q : Type} `{HR : HTTPRequest} `{QS : QueryStore Q} `{QL : !QueryStoreLaws Q}.

(** The statuses of the queries that reach the store. *)
Definition lookup_status {A} (r : result A) : Z :=
match r with
| Ok _ => StatusOK
| Err e => if bool_decide (store_class e = ClassNotFound) then StatusNotFound else StatusInternalServerError
| _ => StatusInternalServerError
end.
Definition page_status (r : result EventPage) : Z :=
match r with
| Ok _ => StatusOK
| Err e =>
    match store_class e with
    | ClassInvalidQuery => StatusBadRequest
    | ClassStaleCursor => StatusConflict
    | _ => StatusInternalServerError
    end
| _ => StatusInternalServerError
end.

Lemma parseBlockNumber_returns raw : returns (parseBlockNumber raw).
Proof. rewrite parseBlockNumber_eq. by repeat case_match. Qed.

Lemma block_status q raw :
Response_status (blockByNumber hash_Hex q raw) =
  match parseBlockNumber raw with Ok n => lookup_status (BlockByNumber q n) | _ => StatusBadRequest end.
Proof.
unfold blockByNumber, QueryService_Block. pose proof (parseBlockNumber_returns raw) as Hp.
destruct (parseBlockNumber raw) as [n| | |]; try done. pose proof (block_errs q n) as He.
destruct (BlockByNumber q n) as [r|e| |]; try done. simpl.
rewrite (translated_class e _ ClassNotFound) by done. by case_bool_decide.
Qed.

Lemma transaction_status q raw :
Response_status (transactionByHash hash_Hex address_Hex hexutil_Encode IsHexHash HexToHash q raw) =
  match parseTransactionHash IsHexHash HexToHash raw with
  | Ok h =>
      match TransactionByHash q h with
      | Ok r => match Transaction_Value (TransactionResult_Transaction r) with
                | Some _ => StatusOK | None => StatusInternalServerError end
      | r => lookup_status r
      end
  | _ => StatusBadRequest
  end.
Proof.
unfold transactionByHash, QueryService_Transaction, parseTransactionHash. destruct (negb _ || negb _ || negb _); [done|].
pose proof (transaction_errs q (HexToHash raw)) as He.
destruct (TransactionByHash q (HexToHash raw)) as [r|e| |]; try done; simpl.
- unfold newTransactionResponse. by destruct (Transaction_Value _).
- rewrite (translated_class e _ ClassNotFound) by done. by case_bool_decide.
Qed.

Lemma events_status q raw parameters :
Response_status (eventsByAddress hash_Hex address_Hex hexutil_Encode IsHexAddress HexToAddress q raw parameters) =
  match parseEventAddress IsHexAddress HexToAddress raw, parseEventLimit parameters, parseEventCursor parameters with
  | Ok address, Ok limit, Ok cursor => page_status (EventsByAddress q (mkQuery address limit cursor))
  | _, _, _ => StatusBadRequest
  end.
Proof.
unfold eventsByAddress, QueryService_Events, parseEventAddress. destruct (negb _ || negb _ || negb _); [done|].
destruct (parseEventLimit_iff parameters) as [Hlim Hl], (parseEventCursor_iff parameters) as (Hcur & _ & Hc).
destruct (parseEventLimit parameters) as [limit| | |]; try done.
assert (0 <= limit) by (destruct (proj1 (Hlim limit) eq_refl) as [[_ ->]|(? & _ & _ & ?)]; [done|lia]).
destruct (parseEventCursor parameters) as [cursor| | |]; try done.
assert (Hty : forall c, cursor = Some c -> Cursor_typed c) by (intros c ->; exact (proj1 (proj1 (Hcur c) eq_refl))).
pose proof (events_errs q (mkQuery (HexToAddress raw) limit cursor) ltac:(done) Hty) as He.
destruct (EventsByAddress q _) as [page|e| |]; try done. simpl.
rewrite (translated_class e _ ClassInvalidQuery), (translated_class e _ ClassStaleCursor) by done.
by destruct (store_class e).
Qed.

(** C40: The statuses clients see are those of the API contract, for every store whose
  calls return: a malformed number, hash, address, limit or cursor is 400 and does not
  reach the store; a missing block or transaction is 404; an invalid event query is
  400 and a stale cursor 409; data is 200; any other store error is 500, and so is
  a stored transaction without a value. *)
Theorem http_statuses q raw parameters :
Response_status (blockByNumber hash_Hex q raw) =
  match parseBlockNumber raw with Ok n => lookup_status (BlockByNumber q n) | _ => StatusBadRequest end /\
Response_status (transactionByHash hash_Hex address_Hex hexutil_Encode IsHexHash HexToHash q raw) =
  match parseTransactionHash IsHexHash HexToHash raw with
  | Ok h =>
      match TransactionByHash q h with
      | Ok r => match Transaction_Value (TransactionResult_Transaction r) with
                | Some _ => StatusOK | None => StatusInternalServerError end
      | r => lookup_status r
      end
  | _ => StatusBadRequest
  end /\
Response_status (eventsByAddress hash_Hex address_Hex hexutil_Encode IsHexAddress HexToAddress q raw parameters) =
  match parseEventAddress IsHexAddress HexToAddress raw, parseEventLimit parameters, parseEventCursor parameters with
  | Ok address, Ok limit, Ok cursor => page_status (EventsByAddress q (mkQuery address limit cursor))
  | _, _, _ => StatusBadRequest
  end.
Proof. split_and!; [apply block_status|apply transaction_status|apply events_status]. Qed.
End Statuses.

(** ** The in-memory store over HTTP *)

Lemma check_ctx_errs c : errs_in store_error (check_ctx c).
Proof. by destruct c. Qed.

Lemma cut_page_errs limit events : 0 <= limit -> errs_in store_error (cut_page limit events).
Proof.
  intros Hl. unfold cut_page. destruct (Z.eqb_spec limit 0); [done|]. simpl.
  destruct (Z.of_nat (length events) =? 0); [done|].
  destruct (Z.leb_spec (Z.of_nat (length events)) limit); [done|].
  destruct (_ !! _) eqn:E; [done|]. apply lookup_ge_None in E. rewrite length_take in E. lia.
Qed.

#[global] Instance memory_query_laws `{GoRuntime} : QueryStoreLaws MemoryRequest.
Proof.
  split.
  - intros q n. simpl. unfold Memory_BlockByNumber. apply errs_in_bind; [apply check_ctx_errs|intros _ _].
    by case_match.
  - intros q h. simpl. unfold Memory_TransactionByHash. apply errs_in_bind; [apply check_ctx_errs|intros _ _].
    by case_match.
  - intros q query Hl _. simpl. unfold Memory_EventsByAddress.
    apply errs_in_bind; [apply check_ctx_errs|intros _ _].
    apply errs_in_bind; [by apply errs_in_reject_if|intros _ _].
    apply errs_in_bind; [destruct (Query_Before query); [by apply errs_in_reject_if|done]|intros _ _].
    by apply cut_page_errs.
Qed.

Section MemoryHTTP.
Context `{RT : GoRuntime} `{HR : HTTPRequest}.
Context (hash_Hex : Hash -> go_string) (address_Hex : Address -> go_string)
(hexutil_Encode : byte_slice -> go_string)
(IsHexAddress : go_string -> bool) (HexToAddress : go_string -> Address).
Abbreviation events_handler := (eventsByAddress hash_Hex address_Hex hexutil_Encode IsHexAddress HexToAddress).
Abbreviation event_json := (newEventResponse hash_Hex address_Hex hexutil_Encode).

(** A client that asks for pages of [rawLimit] events and sends back the [next_cursor]
  text of each page until there is none. *)
Definition page_request (rawLimit : go_string) (cursor : option go_string) : Values :=
match cursor with
| None => {[ "limit"%string := [rawLimit] ]}
| Some text => <[ "cursor"%string := [text] ]> {[ "limit"%string := [rawLimit] ]}
end.

Lemma page_request_limit rawLimit cursor : page_request rawLimit cursor !! "limit"%string = Some [rawLimit].
Proof. destruct cursor; unfold page_request; [rewrite lookup_insert_ne by done|]; apply lookup_singleton_eq. Qed.

Lemma page_request_cursor rawLimit cursor :
page_request rawLimit cursor !! "cursor"%string = (fun text => [text]) <$> cursor.
Proof.
destruct cursor; unfold page_request; [apply lookup_insert_eq|by apply lookup_singleton_ne].
Qed.

Fixpoint http_pages (fuel : nat) (m : Memory) (rawAddress rawLimit : go_string) (cursor : option go_string)
  : option (list eventResponse) :=
match fuel with
| O => None
| S fuel' =>
    match events_handler (mkMemoryRequest CtxOpen m) rawAddress (page_request rawLimit cursor) with
    | mkResponse 200 (EventsBody page) =>
        match epr_NextCursor page with
        | None => Some (epr_Events page)
        | Some next => app (epr_Events page) <$> http_pages fuel' m rawAddress rawLimit (Some next)
        end
    | _ => None
    end
end.

(** The next cursor of a page names a stored event. *)
Lemma next_cursor_typed m q page c :
mem_ok m -> Memory_EventsByAddress CtxOpen q m = Ok page -> Page_NextCursor page = Some c -> Cursor_typed c.
Proof.
intros Hok Hp Hc. unfold Memory_EventsByAddress in Hp. simpl in Hp.
apply bind_reject_iff in Hp as [_ Hp]. apply bind_Ok_iff in Hp as ([] & _ & Hp). unfold cut_page in Hp.
destruct (_ || _); [injection Hp as <-; done|]. destruct (_ <=? _); [injection Hp as <-; done|].
destruct (_ !! _) as [x|] eqn:Hx; [|done]. injection Hp as <-. injection Hc as <-.
apply list_elem_of_lookup_2, elem_of_take in Hx as (i & Hi & _).
apply list_elem_of_lookup_2 in Hi. rewrite elem_of_go_sort in Hi.
unfold collect_events in Hi. apply list_elem_of_bind in Hi as ([n b] & Hi & Hb%elem_of_go_range).
apply list_elem_of_bind in Hi as (e & Hi & He). destruct (_ || _); [by apply elem_of_nil in Hi|].
apply list_elem_of_singleton in Hi as ->.
destruct (mem_typed _ Hok n b Hb) as (_ & _ & Hev). rewrite list.Forall_forall in Hev.
destruct (Hev e He) as (? & _ & ?). done.
Qed.

Lemma http_pages_paginate m rawAddress rawLimit address limit :
mem_ok m -> parseEventAddress IsHexAddress HexToAddress rawAddress = Ok address ->
parseBlockNumber rawLimit = Ok limit -> 1 <= limit <= MaxEventPageSize ->
forall fuel cursor l, (forall c, cursor = Some c -> Cursor_typed c) ->
  paginate m fuel address limit cursor = Ok l ->
  http_pages fuel m rawAddress rawLimit (encodeEventCursor <$> cursor) = Some (event_json <$> l).
Proof.
intros Hok Ha Hl Hlim. induction fuel as [|fuel IH]; intros cursor l Hct Hpag; [done|].
cbn [paginate http_pages] in *. apply bind_Ok_iff in Hpag as (page & Hpage & Hrest).
assert (Hlimit : parseEventLimit (page_request rawLimit (encodeEventCursor <$> cursor)) = Ok limit).
{ apply parseEventLimit_iff. right. exists rawLimit. split_and!; try done; try lia.
  apply page_request_limit. }
assert (Hcursor : parseEventCursor (page_request rawLimit (encodeEventCursor <$> cursor)) = Ok cursor).
{ destruct cursor as [c|]; apply parseEventCursor_iff; [split; [by auto|]|]; apply page_request_cursor. }
unfold eventsByAddress at 1. rewrite Ha, Hlimit, Hcursor. unfold QueryService_Events. simpl.
rewrite Hpage. simpl. destruct (Page_NextCursor page) as [next|] eqn:Hnext.
- apply bind_Ok_iff in Hrest as (rest & Hrest & [= <-]).
  change (Some (encodeEventCursor next)) with (encodeEventCursor <$> Some next).
  rewrite (IH (Some next) rest); [simpl; by rewrite fmap_app| |done].
  intros c [= <-]. by eapply next_cursor_typed.
- by injection Hrest as <-.
Qed.

(** Pagination over HTTP is complete: a client that requests pages of any size from 1
  to 1000 and sends each [next_cursor] text back until there is none receives every
  stored event of the address exactly once, newest first, and stops. *)
Theorem http_pagination_complete m rawAddress rawLimit address limit l fuel :
mem_ok m -> parseEventAddress IsHexAddress HexToAddress rawAddress = Ok address ->
parseBlockNumber rawLimit = Ok limit -> 1 <= limit <= MaxEventPageSize ->
newest_events (mem_bundles m) address l -> (length l < fuel)%nat ->
http_pages fuel m rawAddress rawLimit None = Some (event_json <$> l).
Proof.
intros Hok Ha Hl Hlim Hnew Hfuel.
apply (http_pages_paginate m rawAddress rawLimit address limit Hok Ha Hl Hlim fuel None); [done|].
assert (Hall : filter (before None) l = l) by by apply filter_all.
rewrite (paginate_rest m Hok address l limit); [by rewrite Hall|done|lia|done|by rewrite Hall].
Qed.

(** A block request over the in-memory store: 400 for a malformed number, 200 with the
  stored block and the hashes of its transactions in order when the number is in the
  stored segment, and 404 otherwise. *)
Theorem http_block_correct m raw :
blockByNumber hash_Hex (mkMemoryRequest CtxOpen m) raw =
  match parseBlockNumber raw with
  | Ok n =>
      match mem_bundles m !! n with
      | Some b =>
          mkResponse StatusOK (BlockBody (newBlockResponse hash_Hex
            (mkBlockResult (Bundle_Block b) (Transaction_Hash <$> Bundle_Transactions b))))
      | None => writeError StatusNotFound "block_not_found" "block was not found"
      end
  | _ => writeError StatusBadRequest "invalid_block_number" "block number must be an unsigned decimal integer"
  end.
Proof.
unfold blockByNumber, QueryService_Block. pose proof (parseBlockNumber_returns raw) as Hp.
destruct (parseBlockNumber raw) as [n| | |]; try done. simpl. unfold Memory_BlockByNumber. simpl.
destruct (mem_bundles m !! n) as [b|]; [|done]. simpl. by rewrite cloneBlock_id.
Qed.

(** Readiness: the service reports ready exactly when its store holds a block, and
  then with the number of the highest one; otherwise, and when the request's context
  is done, it answers 503. *)
Theorem http_readiness_correct c m :
readiness (mkMemoryRequest c m) =
  match c, highestNumber (mem_bundles m) with
  | CtxOpen, Some n => mkResponse StatusOK (ReadinessBody "ready" n)
  | _, _ => mkResponse StatusServiceUnavailable (HealthBody "not_ready")
  end /\
match highestNumber (mem_bundles m) with
| Some n => is_Some (mem_bundles m !! n) /\ forall k, is_Some (mem_bundles m !! k) -> k <= n
| None => mem_bundles m = ∅
end.
Proof.
split; [|apply highestNumber_spec]. unfold readiness, HealthService_Ready. simpl.
unfold Memory_Ping, Memory_CanonicalTip, highestBundle.
destruct c; simpl; [|done|done]. by destruct (highestNumber (mem_bundles m)).
Qed.
End MemoryHTTP.

(** ** Evaluation *)

Definition seven_hex : go_string := str "0x0000000000000000000000000000000000000007".
Definition fixture_request : HTTPRequest := "request-1"%string.

Lemma http_pagination_complete_witness :
  http_pages (RT := reference_runtime) (HR := fixture_request) (fun _ => []) (fun _ => []) (fun _ => [])
    (fun _ => true) (fun _ => address_of 7) 7 fixture_memory seven_hex (str "2") None
  = Some (newEventResponse (fun _ => []) (fun _ => []) (fun _ => []) <$> fixture_events).
Proof.
  apply (http_pagination_complete (RT := reference_runtime) (HR := fixture_request)
           _ _ _ _ _ _ _ _ (address_of 7) 2).
  - apply fixture_memory_ok.
  - reflexivity.
  - reflexivity.
  - done.
  - apply fixture_events_newest.
  - vm_compute. lia.
Defined.

(** Over the in-memory store: a block number that is not stored is 404. *)
Lemma http_statuses_witness :
  Response_status (blockByNumber (fun _ => []) (HR := fixture_request)
    (QS := @memory_query_store reference_runtime) (mkMemoryRequest CtxOpen NewMemory) (str "5")) = 404.
Proof.
  rewrite (proj1 (http_statuses (fun _ => []) (fun _ => []) (fun _ => []) (fun _ => true) (fun _ => address_of 7)
    (fun _ => true) (fun _ => hash_of 7) (HR := fixture_request)
    (QS := @memory_query_store reference_runtime)
    (QL := @memory_query_laws reference_runtime) (mkMemoryRequest CtxOpen NewMemory) (str "5") ∅)).
  reflexivity.
Defined.
