(* ===== verification/Response.v ===== *)
(** * Response bodies: [internal/server/response.go]

    The response structs as JSON objects, with the field names and the order of their
    declarations, and [writeJSON]: the bytes, the content type and the log entry of one
    response. *)
From S2P Require Import Prelude Errors Domain Validate Store Fixtures Memory MemoryStore MemoryQueries Cursor Text Json Clock Service Server.
From stdpp Require Import prelude gmap list strings.
From Stdlib Require Import ZArith Lia Strings.Byte.

Local Open Scope Z_scope.

(** A pointer to a string: [null] when nil. *)
Definition optional_json (s : option go_string) : json := match s with None => JNull | Some t => JString t end.
Definition strings_json (l : list go_string) : json := JArray (JString <$> l).
Definition object (fields : list (String.string * json)) : json := JObject ((fun p => (str p.1, p.2)) <$> fields).

Definition event_json (r : eventResponse) : json :=
  object [("block_number", JNumber (evr_BlockNumber r)); ("block_hash", JString (evr_BlockHash r));
          ("transaction_hash", JString (evr_TransactionHash r)); ("transaction_index", JNumber (evr_TransactionIndex r));
          ("log_index", JNumber (evr_LogIndex r)); ("address", JString (evr_Address r));
          ("topics", strings_json (evr_Topics r)); ("data", JString (evr_Data r))]%string.

Definition event_page_json (r : eventPageResponse) : json :=
  object [("events", JArray (event_json <$> epr_Events r)); ("next_cursor", optional_json (epr_NextCursor r))]%string.

(** Encoding fails when the time has no RFC 3339 form. *)
Definition block_json (r : blockResponse) : option json :=
  indexed_at ← RFC3339 (blr_IndexedAt r);
  Some (object [("number", JNumber (blr_Number r)); ("hash", JString (blr_Hash r)); ("parent_hash", JString (blr_ParentHash r));
          ("timestamp", JNumber (blr_Timestamp r)); ("gas_limit", JNumber (blr_GasLimit r));
          ("gas_used", JNumber (blr_GasUsed r)); ("base_fee_per_gas_wei", optional_json (blr_BaseFeePerGasWei r));
          ("transaction_count", JNumber (blr_TransactionCount r));
          ("transaction_hashes", strings_json (blr_TransactionHashes r)); ("indexed_at", JString indexed_at)]%string).

Definition transaction_json (r : transactionResponse) : json :=
  object [("hash", JString (txr_Hash r)); ("block_number", JNumber (txr_BlockNumber r));
          ("block_hash", JString (txr_BlockHash r)); ("index", JNumber (txr_Index r)); ("type", JNumber (txr_Type r));
          ("nonce", JNumber (txr_Nonce r)); ("sender", JString (txr_Sender r));
          ("recipient", optional_json (txr_Recipient r)); ("value_wei", JString (txr_ValueWei r));
          ("gas_limit", JNumber (txr_GasLimit r)); ("gas_price_wei", optional_json (txr_GasPriceWei r));
          ("max_fee_per_gas_wei", optional_json (txr_MaxFeePerGasWei r));
          ("max_priority_fee_per_gas_wei", optional_json (txr_MaxPriorityFeePerGasWei r));
          ("input", JString (txr_Input r)); ("events", JArray (event_json <$> txr_Events r))]%string.

(** [request_id] is left out when it is empty. *)
Definition error_json (code message requestID : String.string) : json :=
  object [("error", object ([("code", JString (str code)); ("message", JString (str message))] ++
            (if bool_decide (requestID = "") then [] else [("request_id", JString (str requestID))])))]%string.

Definition health_json (status : String.string) : json := object [("status", JString (str status))]%string.
Definition readiness_json (status : String.string) (lastIndexedBlock : Z) : json :=
  object [("status", JString (str status)); ("last_indexed_block", JNumber lastIndexedBlock)]%string.

(** The value a body is encoded as; the recovery middleware writes none. *)
Definition body_json (body : response_body) : option json :=
  match body with
  | ErrorBody code message requestID => Some (error_json code message requestID)
  | BlockBody r => block_json r
  | TransactionBody r => Some (transaction_json r)
  | EventsBody r => Some (event_page_json r)
  | HealthBody status => Some (health_json status)
  | ReadinessBody status last => Some (readiness_json status last)
  | NoBody => None
  end.

(** What a client receives, and the identifier under which a failed encoding is logged. *)
Record Reply := mkReply {
  Reply_status : Z;
  Reply_contentType : option String.string;
  Reply_body : go_string;
  Reply_log : option String.string
}.

Definition writeJSON `{HTTPRequest} (status : Z) (body : response_body) : Reply :=
  match body_json body with
  | Some v => mkReply status (Some "application/json"%string) (Encode v) None
  | None => mkReply status (Some "application/json"%string) [] (Some GetReqID)
  end.

(** The bytes of a handler's response. *)
Definition written `{HTTPRequest} (r : Response) : Reply :=
  match Response_body r with
  | NoBody => mkReply (Response_status r) None [] None
  | body => writeJSON (Response_status r) body
  end.

(** ** Bodies are read back *)

(** JSON whose strings are ASCII. *)
Fixpoint ascii_json (v : json) : Prop :=
  match v with
  | JNull | JNumber _ => True
  | JString s => ascii_text s
  | JArray l => foldr (fun x P => ascii_json x /\ P) True l
  | JObject fields => foldr (fun p P => match p with (k, x) => ascii_text k /\ ascii_json x /\ P end) True fields
  end.

Lemma sanitized_ascii v : ascii_json v -> sanitized_json v = v.
Proof.
  induction v as [|n|s|l IH|fs IH] using json_nested_ind; cbn [ascii_json sanitized_json]; intros Hv; try done.
  - by rewrite ascii_sanitized.
  - f_equal. induction IH as [|x l Hx _ IHl]; [done|]. destruct Hv as [H1 H2]. cbn [fmap list_fmap].
    rewrite Hx by done. f_equal. by apply IHl.
  - f_equal. induction IH as [|[k x] l Hx _ IHl]; [done|]. destruct Hv as (H1 & H2 & H3). cbn [fmap list_fmap].
    simpl in Hx. rewrite Hx, ascii_sanitized by done. f_equal. by apply IHl.
Qed.

(** Every encoded body is one JSON value, read as it was meant when its texts are ASCII. *)
Lemma written_read `{HTTPRequest} r v :
  body_json (Response_body r) = Some v ->
  read_json (Reply_body (written r)) = Some (sanitized_json v) /\ Reply_status (written r) = Response_status r /\
  Reply_contentType (written r) = Some "application/json"%string /\ Reply_log (written r) = None.
Proof.
  intros Hv. unfold written, writeJSON. destruct (Response_body r) eqn:E; [rewrite Hv; simpl; by rewrite read_json_Encode..|done].
Qed.
