(* ===== verification/Router.v ===== *)
(** * Routing: [internal/server/router.go]

    [NewServer] registers five routes on a chi router.  The router is a parameter: the
    class [Chi] with the laws [ChiLaws], its documented behaviour (a request is served by
    the route whose method and pattern it matches, with the values of the pattern's
    parameters; 404 and 405 otherwise). *)
From S2P Require Import Prelude Errors Domain Validate Store Fixtures Memory MemoryStore MemoryQueries Cursor Text Json Clock Query Service Server Response.
From stdpp Require Import prelude gmap list strings.
From Stdlib Require Import ZArith Lia Strings.Byte.

Local Open Scope Z_scope.

(** ** go-ethereum's texts *)

Class EthText := {
  hash_Hex : Hash -> go_string;
  address_Hex : Address -> go_string;
  hexutil_Encode : byte_slice -> go_string;
  IsHexAddress : go_string -> bool;
  HexToAddress : go_string -> Address;
  IsHexHash : go_string -> bool;
  HexToHash : go_string -> Hash
}.

(** ["0x"] and [2 * n] hexadecimal digits *)
Definition hex_text (n : nat) (s : go_string) : Prop :=
  exists t, s = str "0x" ++ t /\ length t = (2 * n)%nat /\ Forall (fun c => is_Some (unhex c)) t.

Class EthTextLaws `{EthText} := {
  hash_Hex_form h : hex_text HashLength (hash_Hex h);
  hash_Hex_parsed h : IsHexHash (hash_Hex h) = true /\ HexToHash (hash_Hex h) = h;
  address_Hex_form a : hex_text AddressLength (address_Hex a);
  address_Hex_parsed a : IsHexAddress (address_Hex a) = true /\ HexToAddress (address_Hex a) = a;
  hexutil_Encode_form b : hex_text (length (slice_bytes b)) (hexutil_Encode b)
}.

(** ** The router *)

Record Request := mkRequest { req_Method : String.string; req_Path : go_string; req_RawQuery : go_string }.

(** A handler reads the path parameters ([chi.URLParam]) and the query. *)
Definition Handler := (String.string -> go_string) -> go_string -> Response.
Record Route := mkRoute { route_Method : String.string; route_Pattern : String.string; route_Handler : Handler }.

Inductive middleware := RequestID | Recoverer | Timeout (d : Z).
Record Mux := mkMux { mux_middlewares : list middleware; mux_routes : list Route }.

(** [router.Get(pattern, handler)] *)
Definition Get (pattern : String.string) (handler : Handler) : Route := mkRoute "GET" pattern handler.

Section NewServer.
Context `{ET : EthText} {Q : Type} `{HR : HTTPRequest} `{QS : QueryStore Q} `{RS : ReadinessStore Q}.

Definition NewServer (requestTimeout : Z) (q : Q) : Mux :=
mkMux [RequestID; Recoverer; Timeout requestTimeout]
  [Get "/healthz" (fun _ _ => health);
   Get "/readyz" (fun _ _ => readiness q);
   Get "/v1/blocks/{number}" (fun URLParam _ => blockByNumber hash_Hex q (URLParam "number"%string));
   Get "/v1/transactions/{hash}" (fun URLParam _ =>
     transactionByHash hash_Hex address_Hex hexutil_Encode IsHexHash HexToHash q (URLParam "hash"%string));
   Get "/v1/addresses/{address}/events" (fun URLParam query =>
     eventsByAddress hash_Hex address_Hex hexutil_Encode IsHexAddress HexToAddress q (URLParam "address"%string)
       (ParseQuery query))].
End NewServer.

(** ** Patterns *)

Definition segments (path : go_string) : list go_string := split_on x2f path.

(** The name in a pattern segment [{name}]. *)
Definition parameter (p : go_string) : option go_string :=
  match p with
  | x7b :: rest => if bool_decide (last rest = Some x7d) then Some (removelast rest) else None
  | _ => None
  end.

(** A parameter takes one segment; [loose] says whether it may be empty. *)
Fixpoint match_segments (loose : bool) (ps ss : list go_string) : option (list (go_string * go_string)) :=
  match ps, ss with
  | [], [] => Some []
  | p :: ps', s :: ss' =>
      match parameter p with
      | Some name =>
          if negb loose && bool_decide (s = []) then None
          else l ← match_segments loose ps' ss'; Some ((name, s) :: l)
      | None => if bool_decide (p = s) then match_segments loose ps' ss' else None
      end
  | _, _ => None
  end.

Definition match_path (loose : bool) (pattern : String.string) (path : go_string) : option (list (go_string * go_string)) :=
  match_segments loose (segments (str pattern)) (segments path).
Definition may_match (r : Route) (path : go_string) : Prop := is_Some (match_path true (route_Pattern r) path).

(** [chi.URLParam]: empty for an unknown name. *)
Definition URLParam (params : list (go_string * go_string)) (name : String.string) : go_string :=
  default [] (snd <$> (snd <$> list_find (fun p => p.1 = str name) params)).

(** A plain pattern: it starts with a slash, and every segment is fixed text or one named
    parameter, without chi's regular expressions [{name:regexp}] and wildcards. *)
Definition plain_byte (c : byte) : bool := bool_decide (c ∉ [x7b; x7d; x2a; x3a]).
Definition plain_segment (p : go_string) : bool :=
  match parameter p with
  | Some name => bool_decide (name <> []) && forallb plain_byte name
  | None => forallb plain_byte p
  end.
Definition plain_pattern (pattern : String.string) : bool :=
  bool_decide (head (str pattern) = Some x2f) && forallb plain_segment (segments (str pattern)).
Definition plain_mux (mux : Mux) : Prop := Forall (fun r => plain_pattern (route_Pattern r) = true) (mux_routes mux).

(** ** chi *)

Inductive Served := Handled (r : Response) | PageNotFound | MethodNotAllowed.

Class Chi := ServeHTTP : Mux -> Request -> Served.

Definition methods : list String.string :=
  ["CONNECT"; "DELETE"; "GET"; "HEAD"; "OPTIONS"; "PATCH"; "POST"; "PUT"; "TRACE"]%string.

(** Of muxes with plain patterns only; what an empty parameter segment does is left open. *)
Class ChiLaws `{Chi} := {
  chi_found mux req r params :
    plain_mux mux -> r ∈ mux_routes mux -> route_Method r = req_Method req ->
    match_path false (route_Pattern r) (req_Path req) = Some params ->
    (forall r', r' ∈ mux_routes mux -> may_match r' (req_Path req) -> r' = r) ->
    ServeHTTP mux req = Handled (route_Handler r (URLParam params) (req_RawQuery req));
  chi_not_found mux req :
    plain_mux mux -> req_Method req ∈ methods -> (forall r, r ∈ mux_routes mux -> ~ may_match r (req_Path req)) ->
    ServeHTTP mux req = PageNotFound;
  chi_not_allowed mux req r :
    plain_mux mux -> r ∈ mux_routes mux -> is_Some (match_path false (route_Pattern r) (req_Path req)) ->
    (forall r', r' ∈ mux_routes mux -> may_match r' (req_Path req) -> route_Method r' <> req_Method req) ->
    ServeHTTP mux req = MethodNotAllowed
}.

(** ** Paths *)

Lemma segments_cons p path : x2f ∉ p -> segments (p ++ x2f :: path) = p :: segments path.
Proof. apply split_here. Qed.
Lemma segments_one p : x2f ∉ p -> segments p = [p].
Proof. apply split_last. Qed.

Definition block_path (n : go_string) : go_string := str "/v1/blocks/" ++ n.
Definition transaction_path (h : go_string) : go_string := str "/v1/transactions/" ++ h.
Definition events_path (a : go_string) : go_string := str "/v1/addresses/" ++ a ++ str "/events".

Lemma block_segments n : x2f ∉ n -> segments (block_path n) = [[]; str "v1"; str "blocks"; n].
Proof.
  intros Hn. change (block_path n) with ([] ++ x2f :: str "v1" ++ x2f :: str "blocks" ++ x2f :: n).
  rewrite !segments_cons, segments_one; [done|done|..]; by apply (bool_decide_unpack _).
Qed.

Lemma transaction_segments h : x2f ∉ h -> segments (transaction_path h) = [[]; str "v1"; str "transactions"; h].
Proof.
  intros Hh. change (transaction_path h) with ([] ++ x2f :: str "v1" ++ x2f :: str "transactions" ++ x2f :: h).
  rewrite !segments_cons, segments_one; [done|done|..]; by apply (bool_decide_unpack _).
Qed.

Lemma events_segments a : x2f ∉ a -> segments (events_path a) = [[]; str "v1"; str "addresses"; a; str "events"].
Proof.
  intros Ha. change (events_path a) with ([] ++ x2f :: str "v1" ++ x2f :: str "addresses" ++ x2f :: a ++ x2f :: str "events").
  rewrite !segments_cons, segments_one; [done|..]; by first [done|apply (bool_decide_unpack _)].
Qed.

(** ** Dispatch *)

(** [other_routes] goes through the registered routes; a pattern with other fixed
    segments does not match. *)
Ltac other_routes :=
  let r := fresh "r" in let Hr := fresh "Hr" in let Hm := fresh "Hm" in
  intros r Hr Hm; cbn [NewServer mux_routes] in Hr; rewrite !elem_of_cons, elem_of_nil in Hr;
  unfold may_match, match_path in Hm; cbn [req_Path] in Hm;
  destruct_or! Hr; subst r; cbn [Get route_Pattern route_Method] in Hm |- *.

(** [no_match H] closes a case where the segments differ. *)
Ltac no_match H := exfalso; vm_compute in H; destruct H as [? H]; discriminate H.

Section Dispatch.
Context `{ET : EthText} {Q : Type} `{HR : HTTPRequest} `{QS : QueryStore Q} `{RS : ReadinessStore Q} `{CL : ChiLaws}.
Context (requestTimeout : Z) (q : Q).
Abbreviation server := (NewServer requestTimeout q).

Lemma NewServer_plain : plain_mux server.
Proof. unfold plain_mux, NewServer, Get. simpl. repeat constructor. Qed.

Lemma serve_healthz query : ServeHTTP server (mkRequest "GET" (str "/healthz") query) = Handled health.
Proof.
apply (chi_found _ _ (Get "/healthz" (fun _ _ => health)) []); [apply NewServer_plain|by left|done|done|].
other_routes; first [done | no_match Hm].
Qed.

Lemma serve_readyz query : ServeHTTP server (mkRequest "GET" (str "/readyz") query) = Handled (readiness q).
Proof.
apply (chi_found _ _ (Get "/readyz" (fun _ _ => readiness q)) []); [apply NewServer_plain|by right; left|done|done|].
other_routes; first [done | no_match Hm].
Qed.

Lemma serve_block n query : x2f ∉ n -> n <> [] ->
ServeHTTP server (mkRequest "GET" (block_path n) query) = Handled (blockByNumber hash_Hex q n).
Proof.
intros Hs Hn. apply (chi_found _ _ (Get "/v1/blocks/{number}"
  (fun URLParam _ => blockByNumber hash_Hex q (URLParam "number"%string))) [(str "number", n)]); [apply NewServer_plain|do 2 right; by left|done| |].
- unfold match_path. cbn [req_Path]. rewrite block_segments by done. by destruct n.
- other_routes; try done; rewrite block_segments in Hm by done; no_match Hm.
Qed.

Lemma serve_transaction h query : x2f ∉ h -> h <> [] ->
ServeHTTP server (mkRequest "GET" (transaction_path h) query) =
  Handled (transactionByHash hash_Hex address_Hex hexutil_Encode IsHexHash HexToHash q h).
Proof.
intros Hs Hn. apply (chi_found _ _ (Get "/v1/transactions/{hash}" (fun URLParam _ =>
  transactionByHash hash_Hex address_Hex hexutil_Encode IsHexHash HexToHash q (URLParam "hash"%string))) [(str "hash", h)]); [apply NewServer_plain|do 3 right; by left|done| |].
- unfold match_path. cbn [req_Path]. rewrite transaction_segments by done. by destruct h.
- other_routes; try done; rewrite transaction_segments in Hm by done; no_match Hm.
Qed.

Lemma serve_events a query : x2f ∉ a -> a <> [] ->
ServeHTTP server (mkRequest "GET" (events_path a) query) =
  Handled (eventsByAddress hash_Hex address_Hex hexutil_Encode IsHexAddress HexToAddress q a (ParseQuery query)).
Proof.
intros Hs Hn. apply (chi_found server (mkRequest "GET" (events_path a) query) (Get "/v1/addresses/{address}/events" (fun URLParam query =>
  eventsByAddress hash_Hex address_Hex hexutil_Encode IsHexAddress HexToAddress q (URLParam "address"%string) (ParseQuery query))) [(str "address", a)]); [apply NewServer_plain|do 4 right; by left|done| |].
- unfold match_path. cbn [req_Path]. rewrite events_segments by done. by destruct a.
- other_routes; try done; rewrite events_segments in Hm by done; no_match Hm.
Qed.

(** Only [GET] is registered, and nothing else is served. *)
Lemma serve_other path query :
(forall r, r ∈ mux_routes server -> ~ may_match r path) ->
ServeHTTP server (mkRequest "GET" path query) = PageNotFound.
Proof. intros Hn. apply chi_not_found; [apply NewServer_plain|set_solver|done]. Qed.

Lemma serve_method method path query r :
method <> "GET"%string -> r ∈ mux_routes server -> is_Some (match_path false (route_Pattern r) path) ->
ServeHTTP server (mkRequest method path query) = MethodNotAllowed.
Proof.
intros Hm Hr Hp. apply (chi_not_allowed server (mkRequest method path query) r NewServer_plain Hr Hp). other_routes; by intros E.
Qed.

(** Requests reach their handlers: over every router with chi's documented behaviour
  the five routes do not shadow each other, each path parameter arrives unchanged, the
  query string reaches only the events handler, another method on a served path is refused
  with 405, and a path of no route is 404. *)
Theorem routes_dispatch query raw :
x2f ∉ raw -> raw <> [] ->
ServeHTTP server (mkRequest "GET" (str "/healthz") query) = Handled health /\
ServeHTTP server (mkRequest "GET" (str "/readyz") query) = Handled (readiness q) /\
ServeHTTP server (mkRequest "GET" (block_path raw) query) = Handled (blockByNumber hash_Hex q raw) /\
ServeHTTP server (mkRequest "GET" (transaction_path raw) query) =
  Handled (transactionByHash hash_Hex address_Hex hexutil_Encode IsHexHash HexToHash q raw) /\
ServeHTTP server (mkRequest "GET" (events_path raw) query) =
  Handled (eventsByAddress hash_Hex address_Hex hexutil_Encode IsHexAddress HexToAddress q raw (ParseQuery query)) /\
(forall method path r, method <> "GET"%string -> r ∈ mux_routes server ->
   is_Some (match_path false (route_Pattern r) path) ->
   ServeHTTP server (mkRequest method path query) = MethodNotAllowed) /\
(forall path, (forall r, r ∈ mux_routes server -> ~ may_match r path) ->
   ServeHTTP server (mkRequest "GET" path query) = PageNotFound).
Proof.
intros Hs Hn. split_and!; [apply serve_healthz|apply serve_readyz|by apply serve_block|by apply serve_transaction
  |by apply serve_events|intros; by eapply serve_method|intros; by apply serve_other].
Qed.
End Dispatch.

(** ** A router with these laws *)

(** The first route with the method and the pattern. *)
Definition reference_chi : Chi := fun mux req =>
  let here := filter (fun r => is_Some (match_path false (route_Pattern r) (req_Path req))) (mux_routes mux) in
  match filter (fun r => route_Method r = req_Method req) here, here with
  | r :: _, _ => Handled (route_Handler r (URLParam (default [] (match_path false (route_Pattern r) (req_Path req)))) (req_RawQuery req))
  | [], [] => PageNotFound
  | [], _ => MethodNotAllowed
  end.

Lemma match_segments_loose ps : forall ss l, match_segments false ps ss = Some l -> match_segments true ps ss = Some l.
Proof.
  induction ps as [|p ps IH]; intros [|s ss] l; try done. cbn [match_segments negb andb].
  destruct (parameter p) as [name|].
  - case_bool_decide; [done|]. intros (l' & Hl & [= <-])%bind_Some. by rewrite (IH ss l').
  - case_bool_decide; [by apply IH|done].
Qed.

Lemma match_path_loose r path : is_Some (match_path false (route_Pattern r) path) -> may_match r path.
Proof. intros [l Hl]. exists l. by apply match_segments_loose. Qed.

Lemma reference_chi_laws : ChiLaws (H := reference_chi).
Proof.
  split.
  - intros mux req r params _ Hr Hm Hp Huniq. unfold ServeHTTP, reference_chi.
    set (here := filter _ (mux_routes mux)).
    destruct (filter (fun r => route_Method r = req_Method req) here) as [|r' l] eqn:E.
    + assert (Hin : r ∈ filter (fun r => route_Method r = req_Method req) here).
      { apply list_elem_of_filter. split; [done|]. apply list_elem_of_filter. split; [by rewrite Hp|done]. }
      rewrite E in Hin. by apply elem_of_nil in Hin.
    + assert (Hin : r' ∈ filter (fun r => route_Method r = req_Method req) here) by (rewrite E; left).
      apply list_elem_of_filter in Hin as [_ [Hs Hin]%list_elem_of_filter].
      rewrite (Huniq r' Hin (match_path_loose r' _ Hs)), Hp. by destruct here.
  - intros mux req _ _ Hn. unfold ServeHTTP, reference_chi.
    assert (filter (fun r => is_Some (match_path false (route_Pattern r) (req_Path req))) (mux_routes mux) = []) as ->; [|done].
    apply filter_none. intros r Hr Hs. by apply (Hn r Hr), match_path_loose.
  - intros mux req r _ Hr Hp Hm. unfold ServeHTTP, reference_chi. set (here := filter _ (mux_routes mux)).
    assert (filter (fun r => route_Method r = req_Method req) here = []) as ->.
    { apply filter_none. intros r' [Hs Hr']%list_elem_of_filter. by apply Hm, match_path_loose. }
    assert (r ∈ here) as Hin by by apply list_elem_of_filter. by destruct here; [apply elem_of_nil in Hin|].
Qed.

(** ** Texts with these laws *)

Definition hex_encode (l : list byte) : go_string :=
  l ≫= fun b => [hex_digit (byte_Z b / 16); hex_digit (byte_Z b mod 16)].

Fixpoint hex_decode (s : go_string) : option (list byte) :=
  match s with
  | [] => Some []
  | h :: l :: rest => a ← unhex h; b ← unhex l; t ← hex_decode rest; Some (Z_byte (a * 16 + b) :: t)
  | [_] => None
  end.

Definition decode_array (n : nat) (s : go_string) : option (byte_array n) := hex_decode (drop 2 s) ≫= array_of_bytes n.

Definition reference_text : EthText := {|
  hash_Hex h := str "0x" ++ hex_encode (array_bytes h);
  address_Hex a := str "0x" ++ hex_encode (array_bytes a);
  hexutil_Encode b := str "0x" ++ hex_encode (slice_bytes b);
  IsHexAddress s := bool_decide (is_Some (decode_array AddressLength s));
  HexToAddress s := default (zero_array AddressLength) (decode_array AddressLength s);
  IsHexHash s := bool_decide (is_Some (decode_array HashLength s));
  HexToHash s := default (zero_array HashLength) (decode_array HashLength s)
|}.

Lemma hex_table : forallb (fun v => bool_decide (unhex (hex_digit v) = Some v)) (seqZ 0 16) = true.
Proof. vm_compute. reflexivity. Qed.

Lemma unhex_digit v : 0 <= v < 16 -> unhex (hex_digit v) = Some v.
Proof.
  intros Hv. pose proof hex_table as Ht. rewrite forallb_forall in Ht. specialize (Ht v).
  rewrite bool_decide_eq_true in Ht. apply Ht, list_elem_of_In, elem_of_seqZ. lia.
Qed.

Lemma byte_nibbles b : 0 <= byte_Z b / 16 < 16 /\ 0 <= byte_Z b mod 16 < 16 /\ byte_Z b / 16 * 16 + byte_Z b mod 16 = byte_Z b.
Proof. pose proof (byte_Z_range b). Z.to_euclidean_division_equations. lia. Qed.

Lemma hex_decode_encode l : hex_decode (hex_encode l) = Some l.
Proof.
  induction l as [|b l IH]; [done|]. unfold hex_encode in *. rewrite bind_cons. cbn [app hex_decode].
  destruct (byte_nibbles b) as (H1 & H2 & E). rewrite !unhex_digit by done. cbn [mbind option_bind]. rewrite IH.
  cbn [mbind option_bind]. by rewrite E, Z_byte_Z.
Qed.

Lemma hex_encode_form l : hex_text (length l) (str "0x" ++ hex_encode l).
Proof.
  exists (hex_encode l). split; [done|]. unfold hex_encode. induction l as [|b l [IHl IHf]]; [done|].
  rewrite bind_cons. destruct (byte_nibbles b) as (H1 & H2 & _). split; [simpl; simpl in IHl; lia|].
  repeat apply Forall_cons_2; [by rewrite unhex_digit|by rewrite unhex_digit|done].
Qed.

Lemma decode_array_encode n (a : byte_array n) : decode_array n (str "0x" ++ hex_encode (array_bytes a)) = Some a.
Proof.
  unfold decode_array. change (drop 2 (str "0x" ++ hex_encode (array_bytes a))) with (hex_encode (array_bytes a)).
  rewrite hex_decode_encode. apply array_of_bytes_eq.
Qed.

Lemma reference_text_laws : EthTextLaws (H := reference_text).
Proof.
  split; cbn [hash_Hex address_Hex hexutil_Encode IsHexAddress HexToAddress IsHexHash HexToHash reference_text].
  - intros h. pose proof (hex_encode_form (array_bytes h)) as Hf. by rewrite array_bytes_length in Hf.
  - intros h. by rewrite decode_array_encode, bool_decide_true.
  - intros a. pose proof (hex_encode_form (array_bytes a)) as Hf. by rewrite array_bytes_length in Hf.
  - intros a. by rewrite decode_array_encode, bool_decide_true.
  - intros b. apply hex_encode_form.
Qed.

(** ** Evaluation *)

#[local] Existing Instances reference_runtime reference_text reference_chi reference_chi_laws.

Lemma routes_dispatch_witness :
  ServeHTTP (NewServer (HR := fixture_request) 5 (mkMemoryRequest CtxOpen NewMemory))
    (mkRequest "GET" (block_path (str "17")) []) =
  Handled (blockByNumber (HR := fixture_request) hash_Hex (mkMemoryRequest CtxOpen NewMemory) (str "17")).
Proof.
  apply (routes_dispatch (HR := fixture_request) 5 (mkMemoryRequest CtxOpen NewMemory) [] (str "17")).
  - by apply (bool_decide_unpack _).
  - done.
Defined.
