(* ===== verification/Wire.v ===== *)
(** * The API on the wire

    Requests as path and query text, responses as bytes: [Router], the handlers and
    [Response] composed, with a client that reads the JSON of the replies. *)
From S2P Require Import Prelude Errors Domain Validate Store Fixtures Memory MemoryStore MemoryQueries Cursor Text Json Clock Query Service Server Response Router.
From stdpp Require Import prelude gmap list strings.
From Stdlib Require Import ZArith Lia Strings.Byte.

Local Open Scope Z_scope.

(** [http.NotFound] and an empty 405 are written by the router. *)
Definition reply_of `{HTTPRequest} (s : Served) : Reply :=
  match s with
  | Handled r => written r
  | PageNotFound => mkReply StatusNotFound (Some "text/plain; charset=utf-8"%string) (str "404 page not found" ++ [x0a]) None
  | MethodNotAllowed => mkReply 405 None [] None
  end.

(** ** A client *)

Definition json_field (name : String.string) (v : json) : option json :=
  match v with
  | JObject fields => snd <$> (snd <$> list_find (fun p => p.1 = str name) fields)
  | _ => None
  end.
Definition json_items (v : json) : option (list json) := match v with JArray l => Some l | _ => None end.

(** [?limit=...] and [&cursor=...] *)
Definition page_query (rawLimit : go_string) (cursor : option go_string) : go_string :=
  str "limit=" ++ rawLimit ++ match cursor with None => [] | Some text => str "&cursor=" ++ text end.

Lemma ParseQuery_page rawLimit cursor : plain rawLimit -> (forall t, cursor = Some t -> plain t) ->
  ParseQuery (page_query rawLimit cursor) = page_request rawLimit cursor.
Proof.
  intros Hl Hc. unfold ParseQuery, page_query.
  assert (Hlk : plain (str "limit")) by by apply (bool_decide_unpack _).
  assert (Hck : plain (str "cursor")) by by apply (bool_decide_unpack _).
  destruct cursor as [t|].
  - specialize (Hc t eq_refl).
    change (str "limit=" ++ rawLimit ++ str "&cursor=" ++ t) with (str "limit" ++ x3d :: rawLimit ++ x26 :: str "cursor" ++ x3d :: t).
    replace (str "limit" ++ x3d :: rawLimit ++ x26 :: str "cursor" ++ x3d :: t)
      with ((str "limit" ++ x3d :: rawLimit) ++ x26 :: str "cursor" ++ x3d :: t) by by rewrite <- (assoc app).
    rewrite split_here, split_last by by apply parameter_no_ampersand. cbn [foldl].
    rewrite !parse_parameter_plain by done. done.
  - rewrite (right_id_L [] app). change (str "limit=" ++ rawLimit) with (str "limit" ++ x3d :: rawLimit).
    rewrite split_last by by apply parameter_no_ampersand. cbn [foldl]. rewrite parse_parameter_plain by done. done.
Qed.

(** ** Texts of the responses *)

Section Texts.
Context `{EL : EthTextLaws}.

Lemma hex_digit_ok c : is_Some (unhex c) -> byte_Z c < 128 /\ c <> x2f.
Proof. destruct c; intros [v Hv]; first [by vm_compute in Hv | split; [done|done]]. Qed.

Lemma hex_text_ascii n s : hex_text n s -> ascii_text s.
Proof.
intros (t & -> & _ & Ht). apply ascii_app; [by apply (bool_decide_unpack _)|].
eapply Forall_impl; [exact Ht|]. intros c Hc%hex_digit_ok. apply Hc.
Qed.

Lemma hex_text_no_slash n s : hex_text n s -> (x2f ∉ s) /\ s <> [].
Proof.
intros (t & -> & _ & Ht). split; [|done]. intros [Hin|Hin]%elem_of_app.
{ revert Hin. by apply (bool_decide_unpack (x2f ∉ str "0x")). }
rewrite list.Forall_forall in Ht. by destruct (hex_digit_ok x2f (Ht x2f Hin)).
Qed.

Lemma hash_ascii h : ascii_text (hash_Hex h).
Proof. eapply hex_text_ascii, hash_Hex_form. Qed.
Lemma address_ascii a : ascii_text (address_Hex a).
Proof. eapply hex_text_ascii, address_Hex_form. Qed.
Lemma data_ascii b : ascii_text (hexutil_Encode b).
Proof. eapply hex_text_ascii, hexutil_Encode_form. Qed.

Lemma items_ascii {A} (f : A -> json) l : (forall x, ascii_json (f x)) -> ascii_json (JArray (f <$> l)).
Proof. intros Hf. induction l; simpl; auto. Qed.

Lemma strings_ascii {A} (f : A -> go_string) l : (forall x, ascii_text (f x)) -> ascii_json (strings_json (f <$> l)).
Proof. intros Hf. unfold strings_json. rewrite <- list_fmap_compose. by apply items_ascii. Qed.

Lemma optional_ascii s : (forall t, s = Some t -> ascii_text t) -> ascii_json (optional_json s).
Proof. intros Hs. destruct s; simpl; auto. Qed.

Lemma big_ascii v : ascii_text (big_String v).
Proof. apply signed_decimal_ascii. Qed.

Lemma keyed_ascii k x fields : ascii_text (str k) -> ascii_json x -> ascii_json (object fields) ->
ascii_json (object ((k, x) :: fields)).
Proof. intros Hk Hx Hf. simpl. auto. Qed.

(** [object_ascii] goes through the fields of an object. *)
Ltac object_ascii :=
  repeat (apply keyed_ascii; [by apply (bool_decide_unpack _)| |]); [..|done];
  try first [done | apply hash_ascii | apply address_ascii | apply data_ascii | apply big_ascii
            | apply strings_ascii, hash_ascii
            | let E := fresh in apply optional_ascii; intros ? E; simpl in E;
              unfold optionalBigIntString, optionalAddressString in E; case_match; simplify_eq; first [apply big_ascii | apply address_ascii]].

Lemma event_ascii e : ascii_json (event_json (newEventResponse hash_Hex address_Hex hexutil_Encode e)).
Proof. unfold event_json. object_ascii. Qed.

Lemma event_page_ascii page :
ascii_json (event_page_json (newEventPageResponse hash_Hex address_Hex hexutil_Encode page)).
Proof.
unfold event_page_json. object_ascii.
- simpl. rewrite <- list_fmap_compose. apply items_ascii, event_ascii.
- apply optional_ascii. simpl. intros t Ht. case_match; simplify_eq. apply cursor_text_plain.
Qed.

Lemma transaction_ascii r response :
newTransactionResponse hash_Hex address_Hex hexutil_Encode r = Ok response -> ascii_json (transaction_json response).
Proof.
unfold newTransactionResponse. destruct (Transaction_Value _) as [v|]; [|done]. intros [= <-].
unfold transaction_json. cbn -[object optional_json strings_json]. object_ascii.
rewrite <- list_fmap_compose. apply items_ascii, event_ascii.
Qed.

Lemma block_ascii r v : block_json (newBlockResponse hash_Hex r) = Some v -> ascii_json v.
Proof.
unfold block_json. intros (text & Ht & Hv)%bind_Some. apply (inj Some) in Hv as <-. object_ascii.
by eapply RFC3339_ascii.
Qed.
End Texts.

(** ** Parsers accept the texts of responses *)

Section Parsed.
Context `{EL : EthTextLaws}.

Lemma hex_text_length n s : hex_text n s -> length s = (2 + 2 * n)%nat /\ has_0x s = true.
Proof. intros (t & -> & Hl & _). rewrite length_app, Hl. split; [done|]. by apply bool_decide_eq_true. Qed.

Lemma parseEventAddress_Hex a : parseEventAddress IsHexAddress HexToAddress (address_Hex a) = Ok a.
Proof.
unfold parseEventAddress. destruct (hex_text_length _ _ (address_Hex_form a)) as [-> ->].
destruct (address_Hex_parsed a) as [-> ->]. done.
Qed.

Lemma parseTransactionHash_Hex h : parseTransactionHash IsHexHash HexToHash (hash_Hex h) = Ok h.
Proof.
unfold parseTransactionHash. destruct (hex_text_length _ _ (hash_Hex_form h)) as [-> ->].
destruct (hash_Hex_parsed h) as [-> ->]. done.
Qed.
End Parsed.

Lemma decimal_path v : 0 <= v -> (x2f ∉ decimal v) /\ decimal v <> [].
Proof.
  intros Hv. split; [|by apply decimal_nonempty]. intros Hin. pose proof (decimal_digits v) as Hd.
  unfold digits in Hd. rewrite list.Forall_forall in Hd. by specialize (Hd x2f Hin).
Qed.

(** ** A client that follows cursors *)

(** One page as the client reads it: the events and the next cursor. *)
Definition wire_page (ask : go_string -> go_string -> Reply) (rawAddress rawLimit : go_string) (cursor : option go_string)
    : option (list json * option go_string) :=
  let reply := ask (events_path rawAddress) (page_query rawLimit cursor) in
  if Reply_status reply =? StatusOK then
    body ← read_json (Reply_body reply);
    events ← json_field "events" body ≫= json_items;
    next ← json_field "next_cursor" body;
    match next with
    | JNull => Some (events, None)
    | JString text => Some (events, Some text)
    | _ => None
    end
  else None.

(** It asks until there is no cursor; [ask i] answers its [i]-th request. *)
Fixpoint wire_pages (ask : nat -> go_string -> go_string -> Reply) (i fuel : nat) (rawAddress rawLimit : go_string)
    (cursor : option go_string) : option (list json) :=
  match fuel with
  | O => None
  | S fuel' =>
      page ← wire_page (ask i) rawAddress rawLimit cursor;
      match page.2 with
      | None => Some page.1
      | Some next => app page.1 <$> wire_pages ask (S i) fuel' rawAddress rawLimit (Some next)
      end
  end.

(** Servers that give the same replies to such requests look the same. *)
Lemma wire_pages_ext ask ask' rawAddress rawLimit :
  (forall i query, ask i (events_path rawAddress) query = ask' i (events_path rawAddress) query) ->
  forall fuel i cursor, wire_pages ask i fuel rawAddress rawLimit cursor = wire_pages ask' i fuel rawAddress rawLimit cursor.
Proof.
  intros Ha. induction fuel as [|fuel IH]; intros i cursor; [done|]. cbn [wire_pages]. unfold wire_page. rewrite Ha.
  destruct (_ =? _); [|done]. apply option_bind_ext; [|done]. intros [l [t|]]; [|done]. simpl. by rewrite IH.
Qed.

(** ** The service over the in-memory store *)

Section WireMemory.
Context `{RT : GoRuntime} `{HR : HTTPRequest} `{EL : EthTextLaws} `{CL : ChiLaws} (requestTimeout : Z).

Definition get (m : Memory) (path query : go_string) : Reply :=
reply_of (ServeHTTP (NewServer requestTimeout (mkMemoryRequest CtxOpen m)) (mkRequest "GET" path query)).

Abbreviation events_of m := (eventsByAddress hash_Hex address_Hex hexutil_Encode IsHexAddress HexToAddress (mkMemoryRequest CtxOpen m)).
Abbreviation event_value e := (event_json (newEventResponse hash_Hex address_Hex hexutil_Encode e)).

Lemma events_handler_page q raw parameters page :
eventsByAddress hash_Hex address_Hex hexutil_Encode IsHexAddress HexToAddress (q : MemoryRequest) raw parameters
  = mkResponse 200 (EventsBody page) ->
exists p, page = newEventPageResponse hash_Hex address_Hex hexutil_Encode p.
Proof.
unfold eventsByAddress, writeError, internal_error, recovered, writeError. intros Hr.
repeat case_match; simplify_eq; by eexists.
Qed.

Lemma wire_page_handled m a rawLimit cursor p : plain rawLimit -> (forall t, cursor = Some t -> plain t) ->
events_of m (address_Hex a) (page_request rawLimit cursor)
  = mkResponse 200 (EventsBody (newEventPageResponse hash_Hex address_Hex hexutil_Encode p)) ->
wire_page (get m) (address_Hex a) rawLimit cursor =
  Some ((fun e => event_value e) <$> Page_Events p, encodeEventCursor <$> Page_NextCursor p).
Proof.
intros Hl Hc Hr. unfold wire_page, get. destruct (hex_text_no_slash _ _ (address_Hex_form a)) as [Hs Hn].
rewrite (serve_events requestTimeout _ _ _ Hs Hn), ParseQuery_page, Hr by done. cbn [reply_of].
destruct (written_read (mkResponse 200 (EventsBody (newEventPageResponse hash_Hex address_Hex hexutil_Encode p))) _ eq_refl)
  as (Hread & Hst & _). rewrite Hst, Hread, sanitized_ascii by apply event_page_ascii. cbn -[event_json].
rewrite <- list_fmap_compose. by destruct (Page_NextCursor p).
Qed.

Lemma wire_pages_http m a rawLimit : plain rawLimit -> forall fuel i cursor l,
(forall t, cursor = Some t -> plain t) ->
http_pages hash_Hex address_Hex hexutil_Encode IsHexAddress HexToAddress fuel m (address_Hex a) rawLimit cursor = Some l ->
wire_pages (fun _ => get m) i fuel (address_Hex a) rawLimit cursor = Some (event_json <$> l).
Proof.
intros Hl. induction fuel as [|fuel IH]; intros i cursor l Hc Hp; [done|]. cbn [http_pages wire_pages] in *.
destruct (events_of m _ _) as [status body] eqn:Hr.
assert (exists p, status = 200 /\ body = EventsBody (newEventPageResponse hash_Hex address_Hex hexutil_Encode p)) as (p & -> & ->).
{ destruct body as [| | |page| | |]; repeat case_match; simplify_eq;
    destruct (events_handler_page _ _ _ _ Hr) as [p ->]; by exists p. }
rewrite (wire_page_handled m a rawLimit cursor p Hl Hc Hr). cbn -[event_json http_pages wire_pages encodeEventCursor] in *.
destruct (Page_NextCursor p) as [c|]; cbn -[event_json http_pages wire_pages encodeEventCursor] in *.
- apply fmap_Some in Hp as (rest & Hrest & ->). rewrite (IH (S i) (Some (encodeEventCursor c)) rest); [|by intros t [= <-]; apply cursor_text_plain|done].
  cbn -[event_json]. rewrite fmap_app, <- list_fmap_compose. done.
- injection Hp as <-. by rewrite <- list_fmap_compose.
Qed.

(** Pagination on the wire is complete: a client that requests
  [/v1/addresses/{address}/events] with any limit from 1 to 1000, reads the JSON of each
  reply and sends its [next_cursor] back in the query string until it is [null] receives
  every stored event of the address exactly once, newest first, each with all its fields,
  and stops.  This holds for every router with chi's documented behaviour and every
  choice of the Go runtime. *)
Theorem wire_pagination_complete m a limit l fuel :
mem_ok m -> 1 <= limit <= MaxEventPageSize -> newest_events (mem_bundles m) a l -> (length l < fuel)%nat ->
wire_pages (fun _ => get m) 0 fuel (address_Hex a) (decimal limit) None = Some ((fun e => event_value e) <$> l).
Proof.
intros Hok Hlim Hnew Hfuel. assert (is_u64 limit) by (unfold MaxEventPageSize in Hlim; int_lia).
rewrite (wire_pages_http m a (decimal limit) (digits_plain _ (decimal_digits limit)) fuel 0 None
  (newEventResponse hash_Hex address_Hex hexutil_Encode <$> l)); [by rewrite <- list_fmap_compose|done|].
apply (http_pagination_complete _ _ _ _ _ m (address_Hex a) (decimal limit) a limit l fuel); try done.
- apply parseEventAddress_Hex.
- by apply parseBlockNumber_decimal.
Qed.

(** The reply to a block request, as the client reads it. *)
Lemma get_block m n b query :
mem_ok m -> mem_bundles m !! n = Some b -> 0 <= Time_year (Block_IndexedAt (Bundle_Block b)) <= 9999 ->
exists text body,
  RFC3339 (Time_UTC (Block_IndexedAt (Bundle_Block b))) = Some text /\
  block_json (newBlockResponse hash_Hex (mkBlockResult (Bundle_Block b) (Transaction_Hash <$> Bundle_Transactions b))) = Some body /\
  Reply_status (get m (block_path (decimal n)) query) = StatusOK /\
  read_json (Reply_body (get m (block_path (decimal n)) query)) = Some body.
Proof.
intros Hok Hb Hy. assert (Hn : is_u64 n) by (apply (mem_keys _ Hok); by exists b).
destruct (decimal_path n) as [Hs Hne]; [int_lia|]. unfold get. rewrite (serve_block requestTimeout _ _ _ Hs Hne).
rewrite http_block_correct, parseBlockNumber_decimal, Hb by done. cbn [reply_of].
destruct (proj2 (RFC3339_Some (Time_UTC (Block_IndexedAt (Bundle_Block b)))) Hy) as [text Ht].
set (r := newBlockResponse _ _). assert (exists body, block_json r = Some body) as [body Hbody].
{ unfold block_json. change (blr_IndexedAt r) with (Time_UTC (Block_IndexedAt (Bundle_Block b))). rewrite Ht. by eexists. }
exists text, body. destruct (written_read (mkResponse StatusOK (BlockBody r)) body Hbody) as (Hread & Hst & _).
rewrite Hst, Hread, sanitized_ascii by by eapply block_ascii. done.
Qed.

(** The reply to the request for a stored transaction. *)
Lemma get_transaction m n b t query :
mem_ok m -> mem_bundles m !! n = Some b -> t ∈ Bundle_Transactions b -> is_Some (Transaction_Value t) ->
exists response,
  newTransactionResponse hash_Hex address_Hex hexutil_Encode (transaction_result (Transaction_Hash t) b t) = Ok response /\
  Reply_status (get m (transaction_path (hash_Hex (Transaction_Hash t))) query) = StatusOK /\
  read_json (Reply_body (get m (transaction_path (hash_Hex (Transaction_Hash t))) query)) = Some (transaction_json response).
Proof.
intros Hok Hb Ht [v Hv]. destruct (hex_text_no_slash _ _ (hash_Hex_form (Transaction_Hash t))) as [Hs Hne].
unfold get. rewrite (serve_transaction requestTimeout _ _ _ Hs Hne).
unfold transactionByHash. rewrite parseTransactionHash_Hex. unfold QueryService_Transaction. simpl.
unfold Memory_TransactionByHash. cbn [check_ctx ctx_Err mbind result_bind].
rewrite (find_stored m Hok n b t Hb Ht). cbn [map_err].
assert (exists response, newTransactionResponse hash_Hex address_Hex hexutil_Encode
  (transaction_result (Transaction_Hash t) b t) = Ok response) as [response Hr].
{ unfold newTransactionResponse. cbn [transaction_result TransactionResult_Transaction].
  rewrite (stored_transaction_cloned _ (mem_cloned _ Hok) n b t Hb Ht), Hv. by eexists. }
exists response. rewrite Hr. cbn [reply_of].
destruct (written_read (mkResponse StatusOK (TransactionBody response)) _ eq_refl) as (Hread & Hst & _).
rewrite Hst, Hread, sanitized_ascii by by eapply transaction_ascii. done.
Qed.

Lemma transaction_response_fields r response :
newTransactionResponse hash_Hex address_Hex hexutil_Encode r = Ok response ->
txr_Hash response = hash_Hex (Transaction_Hash (TransactionResult_Transaction r)) /\
txr_BlockNumber response = Transaction_BlockNumber (TransactionResult_Transaction r) /\
txr_BlockHash response = hash_Hex (Transaction_BlockHash (TransactionResult_Transaction r)).
Proof. unfold newTransactionResponse. destruct (Transaction_Value _); [|done]. by intros [= <-]. Qed.

(** C18: A block reply leads to its transactions: the reply to a request for a stored block
  lists the hashes of its transactions in order, its [indexed_at] text denotes the stored
  instant to the nanosecond, and the request for any of the listed hashes is answered with
  the transaction of that hash, in that block. *)
Theorem listed_transactions_resolve m n b query :
mem_ok m -> mem_bundles m !! n = Some b -> 0 <= Time_year (Block_IndexedAt (Bundle_Block b)) <= 9999 ->
Forall (fun t => is_Some (Transaction_Value t)) (Bundle_Transactions b) ->
exists body time,
  Reply_status (get m (block_path (decimal n)) query) = StatusOK /\
  read_json (Reply_body (get m (block_path (decimal n)) query)) = Some body /\
  json_field "number" body = Some (JNumber n) /\
  json_field "indexed_at" body = Some (JString time) /\ instant time = Time_nanos (Block_IndexedAt (Bundle_Block b)) /\
  json_field "transaction_hashes" body =
    Some (JArray ((fun t => JString (hash_Hex (Transaction_Hash t))) <$> Bundle_Transactions b)) /\
  forall t, t ∈ Bundle_Transactions b ->
    exists tx,
      Reply_status (get m (transaction_path (hash_Hex (Transaction_Hash t))) query) = StatusOK /\
      read_json (Reply_body (get m (transaction_path (hash_Hex (Transaction_Hash t))) query)) = Some tx /\
      json_field "hash" tx = Some (JString (hash_Hex (Transaction_Hash t))) /\
      json_field "block_number" tx = Some (JNumber n) /\ json_field "block_hash" tx = json_field "hash" body.
Proof.
intros Hok Hb Hy Hval. destruct (get_block m n b query Hok Hb Hy) as (time & body & Ht & Hbody & Hst & Hread).
exists body, time. pose proof (instant_RFC3339 _ _ Ht) as Hinst. pose proof (mem_canonical _ Hok) as Hcan.
pose proof (can_key _ Hcan n b Hb) as Hkey. unfold block_json in Hbody. cbn [newBlockResponse blr_IndexedAt BlockResult_Block] in Hbody.
rewrite Ht in Hbody. apply (inj Some) in Hbody as <-. split_and!; [done|done|by rewrite <- Hkey|done|done| |].
- transitivity (Some (strings_json (hash_Hex <$> (Transaction_Hash <$> Bundle_Transactions b)))); [done|].
  unfold strings_json. by rewrite <- !list_fmap_compose.
- intros t Hin. rewrite list.Forall_forall in Hval.
  destruct (get_transaction m n b t query Hok Hb Hin (Hval t Hin)) as (response & Hr & Hts & Htr).
  destruct (transaction_response_fields _ _ Hr) as (Hh & Hnum & Hbh). cbn in Hh, Hnum, Hbh.
  apply list_elem_of_lookup_1 in Hin as [i Hi]. destruct (bv_tx _ (can_valid _ Hcan n b Hb) i t Hi) as (E1 & E2 & _).
  exists (transaction_json response). split_and!; [done|done|..].
  + change (Some (JString (txr_Hash response)) = Some (JString (hash_Hex (Transaction_Hash t)))). by rewrite Hh.
  + change (Some (JNumber (txr_BlockNumber response)) = Some (JNumber n)). by rewrite Hnum, E1, Hkey.
  + change (Some (JString (txr_BlockHash response)) = Some (JString (hash_Hex (bundle_hash b)))). by rewrite Hbh, E2.
Qed.
End WireMemory.

(** ** Errors *)

Section Errors.
Context `{HR : HTTPRequest}.

Lemma error_reply_read status code message :
ascii_text (str code) -> ascii_text (str message) ->
exists body, read_json (Reply_body (written (writeError status code message))) = Some body /\
  json_field "error" body ≫= json_field "code" = Some (JString (str code)) /\
  json_field "error" body ≫= json_field "message" = Some (JString (str message)) /\
  json_field "error" body ≫= json_field "request_id" =
    (if bool_decide (GetReqID = ""%string) then None else Some (JString (sanitized (str GetReqID)))).
Proof.
intros Hc Hm. destruct (written_read (writeError status code message) _ eq_refl) as (Hread & _).
eexists. split; [exact Hread|]. unfold error_json.
case_bool_decide; cbn -[str sanitized]; rewrite !ascii_sanitized by first [done|by apply (bool_decide_unpack _)]; done.
Qed.

(** C26: An error reply is well formed whatever the client sent: for every request
  identifier (the middleware takes it from a request header, so its bytes are the
  client's) the body is one JSON object with exactly the code and the message of the
  handler, and the identifier as a string of its own in which only invalid UTF-8 is
  replaced; an empty identifier is left out. *)
Theorem error_reply_well_formed status code message :
ascii_text (str code) -> ascii_text (str message) ->
let reply := written (writeError status code message) in
Reply_status reply = status /\ Reply_contentType reply = Some "application/json"%string /\ Reply_log reply = None /\
exists body, read_json (Reply_body reply) = Some body /\
  json_field "error" body ≫= json_field "code" = Some (JString (str code)) /\
  json_field "error" body ≫= json_field "message" = Some (JString (str message)) /\
  json_field "error" body ≫= json_field "request_id" =
    (if bool_decide (GetReqID = ""%string) then None else Some (JString (sanitized (str GetReqID)))).
Proof.
intros Hc Hm reply. destruct (written_read (writeError status code message) _ eq_refl) as (_ & Hst & Hct & Hlog).
split_and!; [done|done|done|]. by apply error_reply_read.
Qed.
End Errors.

(** ** Evaluation *)

#[local] Existing Instances reference_runtime reference_text reference_text_laws reference_chi reference_chi_laws.

(** A client that gives its own identifier. *)
Definition hostile_request : HTTPRequest :=
  String.string_of_list_byte (str "x" ++ [x22; x2c; xff; x3c]).

Example not_found_text :
  Reply_body (get (HR := hostile_request) 5 NewMemory (block_path (str "5")) []) =
    str "{" ++ [x22] ++ str "error" ++ [x22] ++ str ":{" ++ [x22] ++ str "code" ++ [x22] ++ str ":" ++ [x22] ++
    str "block_not_found" ++ [x22] ++ str "," ++ [x22] ++ str "message" ++ [x22] ++ str ":" ++ [x22] ++
    str "block was not found" ++ [x22] ++ str "," ++ [x22] ++ str "request_id" ++ [x22] ++ str ":" ++ [x22] ++
    str "x\" ++ [x22] ++ str ",\ufffd\u003c" ++ [x22] ++ str "}}" ++ [x0a].
Proof. vm_compute. reflexivity. Qed.

Lemma error_reply_well_formed_witness :
  exists body,
    read_json (Reply_body (written (H := hostile_request)
      (writeError (H := hostile_request) 404 "block_not_found" "block was not found"))) = Some body /\
    json_field "error" body ≫= json_field "code" = Some (JString (str "block_not_found")).
Proof.
  destruct (error_reply_well_formed (HR := hostile_request) 404 "block_not_found" "block was not found"
    ltac:(by apply (bool_decide_unpack _)) ltac:(by apply (bool_decide_unpack _))) as (_ & _ & _ & body & H1 & H2 & _).
  exists body. exact (conj H1 H2).
Defined.

Lemma wire_pagination_complete_witness :
  wire_pages (fun _ => get (HR := fixture_request) 5 fixture_memory) 0 7 (address_Hex (address_of 7)) (decimal 2) None =
    Some ((fun e => event_json (newEventResponse hash_Hex address_Hex hexutil_Encode e)) <$> fixture_events).
Proof.
  apply (wire_pagination_complete (HR := fixture_request) 5).
  - apply fixture_memory_ok.
  - done.
  - apply fixture_events_newest.
  - vm_compute. lia.
Defined.

Lemma listed_transactions_resolve_witness :
  exists body time,
    read_json (Reply_body (get (HR := fixture_request) 5 fixture_memory (block_path (decimal 11)) [])) = Some body /\
    json_field "indexed_at" body = Some (JString time) /\ instant time = Time_nanos (time_of 5).
Proof.
  destruct (mem_bundles fixture_memory !! 11) as [b|] eqn:Hb; [|by vm_compute in Hb].
  assert (Htx : bool_decide (Forall (fun t => is_Some (Transaction_Value t)) (Bundle_Transactions b) /\
    0 <= Time_year (Block_IndexedAt (Bundle_Block b)) <= 9999 /\ Block_IndexedAt (Bundle_Block b) = time_of 5) = true).
  { vm_compute in Hb. injection Hb as <-. vm_compute. reflexivity. }
  apply bool_decide_eq_true in Htx as (Hv & Hy & Ht).
  destruct (listed_transactions_resolve (HR := fixture_request) 5 fixture_memory 11 b [] fixture_memory_ok Hb Hy Hv)
    as (body & time & _ & H1 & _ & H2 & H3 & _). exists body, time.
  rewrite Ht in H3. exact (conj H1 (conj H2 H3)).
Defined.
