(* ===== verification/ServerPostgres.v ===== *)
(** * The API over the PostgreSQL store

    The handlers of [internal/server] on a PostgreSQL session answer what they answer on
    the in-memory store that holds the committed blocks, or 500 when a call fails. *)
From S2P Require Import Prelude Errors Domain Validate Store Fixtures Memory MemoryStore MemoryQueries Codec Postgres PostgresTx PostgresRows PostgresStore PostgresView PostgresContract PostgresQueries PostgresEval Cursor Service Server.
From stdpp Require Import prelude gmap list strings.
From Stdlib Require Import ZArith Lia.

Local Open Scope Z_scope.

(** One request: a session on a database that only the service's indexers write. *)
Record PgRequest `{GoRuntime} `{PostgresEngine} := mkPgRequest {
  pr_world : PgWorld;
  pr_env : env_ok (pg_env pr_world);
  pr_others k db : pg_ok db -> pg_ok (env_others (pg_env pr_world) k db);
  pr_db : pg_ok (pg_db pr_world)
}.

Section Requests.
Context `{RT : GoRuntime} `{PE : PostgresEngine} `{HR : HTTPRequest}.

#[global] Instance postgres_query_store : QueryStore PgRequest := {|
  BlockByNumber q n := (Postgres_BlockByNumber n (pr_world q)).1;
  TransactionByHash q h := (Postgres_TransactionByHash h (pr_world q)).1;
  EventsByAddress q query := (Postgres_EventsByAddress query (pr_world q)).1
|}.

(** [HealthService.Ready] makes two calls on the pool. *)
#[global] Instance postgres_readiness_store : ReadinessStore PgRequest := {|
  Ping q := (Postgres_Ping (pr_world q)).1;
  ReadTip q := (Postgres_CanonicalTip (Postgres_Ping (pr_world q)).2).1
|}.

(** A call to the database that the action makes from [w] fails. *)
Definition makes_failing_call {A} (m : action PgWorld A) (w : PgWorld) : Prop :=
  exists n e, (pg_calls w <= n < pg_calls (m w).2)%nat /\ env_fault (pg_env w) n = Some e.

(** The result of a query is that of the in-memory store, or the error of a call it made. *)
Definition or_fault {A} (m : action PgWorld A) (w : PgWorld) (r : result A) : Prop :=
  (exists e, (m w).1 = Err e /\ makes_failing_call m w /\ from_fault (pg_env w) e) \/ (m w).1 = r.

Lemma answers_or_fault {A} (m : action PgWorld A) w r : answers m w r -> or_fault m w r.
Proof.
  unfold answers, or_fault, makes_failing_call. destruct (m w) as [r' w'].
  intros (_ & _ & _ & [(e & -> & Hf)| ->]); [|by right]. left. exists e.
  split_and!; [done| |by eapply call_failed_fault]. destruct Hf as (n & e0 & ? & ? & _). by exists n, e0.
Qed.

(** The in-memory stores a request's queries are answered from. *)
Definition now_memory (q : PgRequest) : MemoryRequest := mkMemoryRequest CtxOpen (memory_of (pg_now (pr_world q))).
Definition snapshot_memory (q : PgRequest) : MemoryRequest :=
  mkMemoryRequest CtxOpen (memory_of (snapshot_of (pr_world q))).
Definition page_memory (q : PgRequest) (cursor : option EventCursor) : MemoryRequest :=
  mkMemoryRequest (env_ctx (pg_env (pr_world q)) (pg_calls (pr_world q)))
    (memory_of (match cursor with None => pg_now (pr_world q) | Some _ => snapshot_of (pr_world q) end)).

(** The cursor of a request, if it has one. *)
Definition request_cursor (parameters : Values) : option EventCursor :=
  match parseEventCursor parameters with Ok c => c | _ => None end.

Lemma block_or_fault q n :
  or_fault (Postgres_BlockByNumber n) (pr_world q) (BlockByNumber (now_memory q) n).
Proof.
  apply answers_or_fault, block_answers; [apply pr_env|]. by destruct (pg_now_ok _ (pr_others q) (pr_db q)).
Qed.

Lemma transaction_or_fault q h :
  or_fault (Postgres_TransactionByHash h) (pr_world q) (TransactionByHash (snapshot_memory q) h).
Proof.
  apply answers_or_fault, transaction_answers; [apply pr_env|]. by destruct (pg_now_ok _ (pr_others q) (pr_db q)).
Qed.

Lemma page_or_fault q query :
  0 <= Query_Limit query -> (forall c, Query_Before query = Some c -> Cursor_typed c) ->
  or_fault (Postgres_EventsByAddress query) (pr_world q) (EventsByAddress (page_memory q (Query_Before query)) query).
Proof.
  intros Hl Hc. destruct (pg_now_ok _ (pr_others q) (pr_db q)) as [Hn Hs].
  apply answers_or_fault, address_answers; [apply pr_env| |done|done].
  unfold page_snapshot. by destruct (Query_Before query).
Qed.

Lemma fault_store_error env e : env_ok env -> from_fault env e -> store_error e /\ translateStoreError e = e.
Proof.
  intros Hw Hf. destruct (from_fault_driver env e Hw Hf) as (Hst & Hsv & _). split; [done|].
  unfold translateStoreError. by rewrite !Hst.
Qed.

#[global] Instance postgres_query_laws : QueryStoreLaws PgRequest.
Proof.
  assert (Hgen : forall q A (m : action PgWorld A) r, or_fault m (pr_world q) r -> errs_in store_error r ->
    errs_in store_error (m (pr_world q)).1).
  { intros q A m r [(e & -> & _ & Hf)| ->] Hr; [|done]. by destruct (fault_store_error _ _ (pr_env q) Hf). }
  split.
  - intros q n. eapply (Hgen q _ (Postgres_BlockByNumber n)); [apply block_or_fault|apply block_errs].
  - intros q h. eapply (Hgen q _ (Postgres_TransactionByHash h)); [apply transaction_or_fault|apply transaction_errs].
  - intros q query Hl Hc. eapply (Hgen q _ (Postgres_EventsByAddress query)); [by apply page_or_fault|by apply events_errs].
Qed.
End Requests.

Section Properties.
Context `{RT : GoRuntime} `{PE : PostgresEngine} `{HR : HTTPRequest}.
Context (hash_Hex : Hash -> go_string) (address_Hex : Address -> go_string)
  (hexutil_Encode : byte_slice -> go_string)
  (IsHexAddress : go_string -> bool) (HexToAddress : go_string -> Address)
  (IsHexHash : go_string -> bool) (HexToHash : go_string -> Hash).

(** The error of a failed call is an internal error at the API. *)
Lemma fault_internal q e s : from_fault (pg_env (pr_world q)) e -> errors_Is (translateStoreError e) (ServiceSentinel s) = false.
Proof. intros Hf. destruct (fault_store_error _ _ (pr_env q) Hf) as [He ->]. apply He. Qed.

(** The database calls of a request: those of the one query it is parsed to. *)
Definition block_call_fails q raw : Prop :=
  exists n, parseBlockNumber raw = Ok n /\ makes_failing_call (Postgres_BlockByNumber n) (pr_world q).
Definition transaction_call_fails q raw : Prop :=
  exists h, parseTransactionHash IsHexHash HexToHash raw = Ok h /\
    makes_failing_call (Postgres_TransactionByHash h) (pr_world q).
Definition events_call_fails q raw parameters : Prop :=
  exists a limit c, parseEventAddress IsHexAddress HexToAddress raw = Ok a /\
    parseEventLimit parameters = Ok limit /\ parseEventCursor parameters = Ok c /\
    makes_failing_call (Postgres_EventsByAddress (mkQuery a limit c)) (pr_world q).

(** The API over PostgreSQL answers as over the in-memory store: for each query
    endpoint the response is, byte for byte, the one the in-memory store with the blocks
    of one committed state gives, or a call to the database that the request made failed
    and the response is 500 [internal_error]; a failed call is never reported as missing
    data, as an invalid request or as a stale cursor. *)
Theorem http_postgres_as_memory q raw parameters :
  (block_call_fails q raw /\ blockByNumber hash_Hex q raw = internal_error \/
   blockByNumber hash_Hex q raw = blockByNumber hash_Hex (now_memory q) raw) /\
  (transaction_call_fails q raw /\
     transactionByHash hash_Hex address_Hex hexutil_Encode IsHexHash HexToHash q raw = internal_error \/
   transactionByHash hash_Hex address_Hex hexutil_Encode IsHexHash HexToHash q raw =
     transactionByHash hash_Hex address_Hex hexutil_Encode IsHexHash HexToHash (snapshot_memory q) raw) /\
  (events_call_fails q raw parameters /\
     eventsByAddress hash_Hex address_Hex hexutil_Encode IsHexAddress HexToAddress q raw parameters = internal_error \/
   eventsByAddress hash_Hex address_Hex hexutil_Encode IsHexAddress HexToAddress q raw parameters =
     eventsByAddress hash_Hex address_Hex hexutil_Encode IsHexAddress HexToAddress
       (page_memory q (request_cursor parameters)) raw parameters).
Proof.
  split_and!.
  - unfold blockByNumber, QueryService_Block, block_call_fails. destruct (parseBlockNumber raw) as [n| | |]; try by right.
    destruct (block_or_fault q n) as [(e & Hr & Hc & Hf)|Hr]; unfold BlockByNumber at 1; simpl; rewrite Hr; [|by right].
    left. split; [by exists n|]. cbn [map_err]. by rewrite (fault_internal q e _ Hf).
  - unfold transactionByHash, QueryService_Transaction, transaction_call_fails.
    destruct (parseTransactionHash _ _ raw) as [h| | |]; try by right.
    destruct (transaction_or_fault q h) as [(e & Hr & Hc & Hf)|Hr]; unfold TransactionByHash at 1; simpl; rewrite Hr; [|by right].
    left. split; [by exists h|]. cbn [map_err]. by rewrite (fault_internal q e _ Hf).
  - unfold eventsByAddress, QueryService_Events, request_cursor, events_call_fails.
    destruct (parseEventAddress _ _ raw) as [a| | |]; try by right.
    destruct (parseEventLimit_iff parameters) as [Hlim _], (parseEventCursor_iff parameters) as (Hty & _).
    destruct (parseEventLimit parameters) as [limit| | |]; try by right.
    assert (0 <= limit) by (destruct (proj1 (Hlim limit) eq_refl) as [[_ ->]|(? & _ & _ & ?)]; [done|lia]).
    destruct (parseEventCursor parameters) as [c| | |]; try by right.
    destruct (page_or_fault q (mkQuery a limit c)) as [(e & Hr & Hc & Hf)|Hr]; [done| | |].
    + simpl. intros c' ->. exact (proj1 (proj1 (Hty c') eq_refl)).
    + left. split; [by exists a, limit, c|]. unfold EventsByAddress at 1; simpl. rewrite Hr. cbn [map_err].
      by rewrite !(fault_internal q e _ Hf).
    + right. unfold EventsByAddress at 1; simpl. by rewrite Hr.
Qed.
End Properties.

(** ** Evaluation *)

#[local] Existing Instances reference_runtime reference_engine.

Lemma loaded_env_ok : env_ok (pg_env loaded.2).
Proof. rewrite loaded_env. apply quiet_env_ok. Qed.
Lemma loaded_others k db : pg_ok db -> pg_ok (env_others (pg_env loaded.2) k db).
Proof. by rewrite loaded_env. Qed.

Definition loaded_request : PgRequest := mkPgRequest _ _ loaded.2 loaded_env_ok loaded_others loaded_ok.

Example http_block_11 :
  Response_status (blockByNumber (HR := fixture_request) (fun _ => []) loaded_request (str "11")) = 200.
Proof. vm_compute. reflexivity. Qed.

Lemma loaded_no_failing_call {A} (m : action PgWorld A) : ~ makes_failing_call m (pr_world loaded_request).
Proof. intros (n & e & _ & He). cbn [loaded_request pr_world] in He. by rewrite loaded_env in He. Qed.

Lemma http_postgres_as_memory_witness :
  blockByNumber (HR := fixture_request) (fun _ => []) loaded_request (str "11") =
    blockByNumber (HR := fixture_request) (fun _ => []) (now_memory loaded_request) (str "11").
Proof.
  destruct (proj1 (http_postgres_as_memory (HR := fixture_request) (fun _ => []) (fun _ => []) (fun _ => [])
    (fun _ => true) (fun _ => address_of 7) (fun _ => true) (fun _ => hash_of 7) loaded_request (str "11") ∅))
    as [[(n & _ & []%loaded_no_failing_call) _]|Heq].
  exact Heq.
Defined.
