(* ===== verification/WirePostgres.v ===== *)
(** * The API over PostgreSQL on the wire

    The bytes a client receives from the service over a PostgreSQL session, compared with
    those of the service over the in-memory store. *)
From S2P Require Import Prelude Errors Domain Validate Store Fixtures Memory MemoryStore MemoryQueries Codec Postgres PostgresTx PostgresRows PostgresStore PostgresView PostgresContract PostgresQueries PostgresEval PostgresLive Cursor Text Json Clock Query Service Server Response Router Wire ServerPostgres.
From stdpp Require Import prelude gmap list strings.
From Stdlib Require Import ZArith Lia Strings.Byte.

Local Open Scope Z_scope.

Section Wire.
Context `{RT : GoRuntime} `{PE : PostgresEngine} `{HR : HTTPRequest} `{EL : EthTextLaws} `{CL : ChiLaws} (requestTimeout : Z).

(** The reply to a request over a store. *)
Definition reply {Q : Type} `{QueryStore Q, ReadinessStore Q} (q : Q) (path query : go_string) : Reply :=
reply_of (ServeHTTP (NewServer requestTimeout q) (mkRequest "GET" path query)).

(** The reply that tells the client nothing but that something failed. *)
Definition failure : Reply := written internal_error.

(** C17: On the wire the service over PostgreSQL is the service over the in-memory store: the
  reply to every block, transaction and event request is byte for byte the reply of the
  in-memory store with the blocks of one committed state, unless a call to the database that
  this request makes fails, and only then it may be the constant 500 reply, in which nothing
  of the failure is visible; a failed call is never reported as missing data, as an invalid
  request or as a stale cursor, and a malformed request is never answered with 500. *)
Theorem wire_postgres_as_memory (q : PgRequest) raw query :
x2f ∉ raw -> raw <> [] ->
(block_call_fails q raw /\ reply q (block_path raw) query = failure \/
 reply q (block_path raw) query = reply (now_memory q) (block_path raw) query) /\
(transaction_call_fails IsHexHash HexToHash q raw /\ reply q (transaction_path raw) query = failure \/
 reply q (transaction_path raw) query = reply (snapshot_memory q) (transaction_path raw) query) /\
(events_call_fails IsHexAddress HexToAddress q raw (ParseQuery query) /\ reply q (events_path raw) query = failure \/
 reply q (events_path raw) query =
   reply (page_memory q (request_cursor (ParseQuery query))) (events_path raw) query) /\
Reply_status failure = StatusInternalServerError /\
exists body, read_json (Reply_body failure) = Some body /\
  json_field "error" body ≫= json_field "code" = Some (JString (str "internal_error")).
Proof.
intros Hs Hn. unfold reply, failure.
rewrite !(serve_block requestTimeout _ _ _ Hs Hn), !(serve_transaction requestTimeout _ _ _ Hs Hn),
  !(serve_events requestTimeout _ _ _ Hs Hn).
destruct (http_postgres_as_memory hash_Hex address_Hex hexutil_Encode IsHexAddress HexToAddress IsHexHash HexToHash
  q raw (ParseQuery query)) as (Hb & Ht & He).
split_and!; [by destruct Hb as [[? ->]| ->]; auto|by destruct Ht as [[? ->]| ->]; auto|
  by destruct He as [[? ->]| ->]; auto|done|].
destruct (error_reply_read StatusInternalServerError "internal_error" "internal server error") as (body & Hr & Hc & _);
  [by apply (bool_decide_unpack _)..|by exists body].
Qed.

(** ** Pagination over PostgreSQL *)

(** A request while the database holds [db], nobody writes to it, no call fails and the
  request is not cancelled. *)
Record quiet (db : Tables) (q : PgRequest) : Prop := {
  quiet_db : pg_db (pr_world q) = db;
  quiet_others k d : env_others (pg_env (pr_world q)) k d = d;
  quiet_faults k : env_fault (pg_env (pr_world q)) k = None;
  quiet_ctx k : env_ctx (pg_env (pr_world q)) k = CtxOpen
}.

Lemma quiet_memory db q cursor : quiet db q -> page_memory q cursor = mkMemoryRequest CtxOpen (memory_of db).
Proof.
intros [Hdb Ho _ Hc]. unfold page_memory, snapshot_of, pg_now. rewrite Hc. f_equal. f_equal.
assert (pg_env (after_calls 1 (pr_world q)) = pg_env (pr_world q)) as He by done.
rewrite He, !Ho, after_calls_alone by done. by destruct cursor.
Qed.

Lemma quiet_events db q raw parameters : quiet db q ->
eventsByAddress hash_Hex address_Hex hexutil_Encode IsHexAddress HexToAddress q raw parameters =
  eventsByAddress hash_Hex address_Hex hexutil_Encode IsHexAddress HexToAddress
    (mkMemoryRequest CtxOpen (memory_of db)) raw parameters.
Proof.
intros Hq. unfold eventsByAddress, QueryService_Events. destruct (parseEventAddress _ _ raw) as [a| | |]; try done.
destruct (parseEventLimit_iff parameters) as [Hlim _], (parseEventCursor_iff parameters) as (Hty & _).
destruct (parseEventLimit parameters) as [limit| | |]; try done.
assert (0 <= limit) by (destruct (proj1 (Hlim limit) eq_refl) as [[_ ->]|(? & _ & _ & ?)]; [done|lia]).
destruct (parseEventCursor parameters) as [c| | |]; try done.
destruct (page_or_fault q (mkQuery a limit c)) as [(e & _ & _ & Hf)|Heq]; [done| | |].
- simpl. intros c' ->. exact (proj1 (proj1 (Hty c') eq_refl)).
- by apply no_fault in Hf; [|apply Hq].
- unfold EventsByAddress at 1; simpl. by rewrite Heq, (quiet_memory db q _ Hq).
Qed.

End Wire.

(** ** Evaluation *)

#[local] Existing Instances reference_runtime reference_engine reference_text reference_text_laws reference_chi reference_chi_laws.

Example wire_block_11 : Reply_status (reply (HR := fixture_request) 5 loaded_request (block_path (str "11")) []) = StatusOK.
Proof. vm_compute. reflexivity. Qed.

Lemma wire_postgres_as_memory_witness :
  reply (HR := fixture_request) 5 loaded_request (block_path (str "11")) [] =
    reply (HR := fixture_request) 5 (now_memory loaded_request) (block_path (str "11")) [].
Proof.
  destruct (proj1 (wire_postgres_as_memory (HR := fixture_request) 5 loaded_request (str "11") []
    ltac:(by apply (bool_decide_unpack _)) ltac:(done))) as [[(n & _ & []%loaded_no_failing_call) _]|Heq].
  exact Heq.
Defined.

Lemma loaded_quiet : quiet (pg_db loaded.2) loaded_request.
Proof. split; intros; cbn [loaded_request pr_world]; [done|by rewrite loaded_env..]. Qed.

