(* ===== verification/DurationText.v ===== *)
(** * Durations as text: [Duration] of [internal/config/config.go]

    [UnmarshalYAML] and [MarshalYAML], with [time.ParseDuration] and
    [time.Duration.String] of the standard library.  Fractions are computed with
    [float64] arithmetic, as in the library. *)
From S2P Require Import Prelude Float Errors Domain Validate Store Fixtures Cursor Text Json Config.
From stdpp Require Import prelude gmap list strings.
From Stdlib Require Import ZArith Lia Strings.Byte.
From Stdlib Require Import Floats.SpecFloat.

Local Open Scope Z_scope.

Definition Microsecond : Z := 1000.
Definition Millisecond : Z := 1000000.
Definition Minute : Z := 60 * Second.
Definition Hour : Z := 60 * Minute.

(** ** [time.Duration.String]

    The digits are written from the end of a buffer. *)
Definition micro_sign : go_string := [xc2; xb5].

Definition format_small (u : Z) : go_string :=
  if u =? 0 then str "0s"
  else
    let '(prec, suffix) :=
      if u <? Microsecond then (0%nat, str "ns")
      else if u <? Millisecond then (3%nat, micro_sign ++ str "s")
      else (6%nat, str "ms") in
    let '(buf, u') := fmtFrac suffix u prec in
    fmtInt u' buf.

Definition format_large (u : Z) : go_string :=
  let '(buf, seconds) := fmtFrac (str "s") u 9 in
  let buf := fmtInt (seconds mod 60) buf in
  let minutes := seconds / 60 in
  if 0 <? minutes then
    let buf := fmtInt (minutes mod 60) (str "m" ++ buf) in
    let hours := minutes / 60 in
    if 0 <? hours then fmtInt hours (str "h" ++ buf) else buf
  else buf.

Definition Duration_String (d : Duration) : go_string :=
  let neg := d <? 0 in
  let u := if neg then wrap64 (- wrap64 d) else wrap64 d in
  let text := if u <? Second then format_small u else format_large u in
  if neg then str "-" ++ text else text.

(** ** [time.ParseDuration] *)

(** [leadingInt]: the digits at the front, at most 2^63. *)
Fixpoint leadingInt (x : Z) (s : go_string) : option (Z * go_string) :=
  match s with
  | c :: rest =>
      if is_digit c then
        if 2 ^ 63 / 10 <? x then None
        else let x' := x * 10 + (byte_Z c - 48) in
             if 2 ^ 63 <? x' then None else leadingInt x' rest
      else Some (x, s)
  | [] => Some (x, [])
  end.

(** [leadingFraction]: the digits after the point and the power of ten they are divided by;
    digits that do not fit are skipped. *)
Fixpoint leadingFraction (x : Z) (scale : spec_float) (overflow : bool) (s : go_string) : Z * spec_float * go_string :=
  match s with
  | c :: rest =>
      if is_digit c then
        if overflow then leadingFraction x scale true rest
        else if (2 ^ 63 - 1) / 10 <? x then leadingFraction x scale true rest
        else let y := x * 10 + (byte_Z c - 48) in
             if 2 ^ 63 <? y then leadingFraction x scale true rest
             else leadingFraction y (float_mul scale (float64 10)) false rest
      else (x, scale, s)
  | [] => (x, scale, [])
  end.

(** The bytes up to the next digit or point. *)
Definition in_unit (c : byte) : bool := negb (is_digit c || bool_decide (c = x2e)).
Fixpoint span_unit (s : go_string) : go_string * go_string :=
  match s with
  | c :: rest => if in_unit c then (let p := span_unit rest in (c :: p.1, p.2)) else ([], s)
  | [] => ([], [])
  end.

Definition unitMap : list (go_string * Z) :=
  [(str "ns", 1); (str "us", Microsecond); (micro_sign ++ str "s", Microsecond); ([xce; xbc] ++ str "s", Microsecond);
   (str "ms", Millisecond); (str "s", Second); (str "m", Minute); (str "h", Hour)].

Definition unit_value (u : go_string) : option Z := snd <$> (snd <$> list_find (fun p => p.1 = u) unitMap).

(** One number with its unit, in nanoseconds, and the rest of the text. *)
Definition parse_group (s : go_string) : option (Z * go_string) :=
  match s with
  | [] => None
  | c :: _ =>
      if negb (is_digit c || bool_decide (c = x2e)) then None
      else
        p ← leadingInt 0 s;
        let '(v, s1) := p in
        let pre := negb (length s1 =? length s)%nat in
        let '(f, scale, s2, post) :=
          match s1 with
          | point :: s1' =>
              if bool_decide (point = x2e) then
                let '(f, scale, s2) := leadingFraction 0 (float64 1) false s1' in
                (f, scale, s2, negb (length s2 =? length s1')%nat)
              else (0, float64 1, s1, false)
          | [] => (0, float64 1, s1, false)
          end in
        if negb pre && negb post then None
        else
          let '(u, rest) := span_unit s2 in
          if bool_decide (u = []) then None
          else
            unit ← unit_value u;
            if 2 ^ 63 / unit <? v then None
            else
              let v := v * unit in
              if 0 <? f then
                let v := u64_add v (float_trunc (float_mul (float64 f) (float_div (float64 unit) scale))) in
                if 2 ^ 63 <? v then None else Some (v, rest)
              else Some (v, rest)
  end.

(** The loop [for s != ""]; every group takes at least one byte. *)
Fixpoint parse_groups (fuel : nat) (d : Z) (s : go_string) : option Z :=
  match s with
  | [] => Some d
  | _ =>
      match fuel with
      | O => None
      | S fuel' =>
          p ← parse_group s;
          let d := u64_add d p.1 in
          if 2 ^ 63 <? d then None else parse_groups fuel' d p.2
      end
  end.

(** The sign and what follows it. *)
Definition cut_sign (s : go_string) : bool * go_string :=
  match s with
  | c :: rest => if bool_decide (c = x2d \/ c = x2b) then (bool_decide (c = x2d), rest) else (false, s)
  | [] => (false, [])
  end.

Definition ParseDuration (orig : go_string) : option Duration :=
  let '(neg, s) := cut_sign orig in
  if bool_decide (s = str "0") then Some 0
  else if bool_decide (s = []) then None
  else
    d ← parse_groups (length s) 0 s;
    if neg then Some (to_int64 (- d))
    else if 2 ^ 63 - 1 <? d then None else Some (to_int64 d).

(** ** The YAML methods *)

Inductive NodeKind := DocumentNode | SequenceNode | MappingNode | ScalarNode | AliasNode.
Record Node := mkNode { Node_Kind : NodeKind; Node_Value : go_string }.

Definition Duration_UnmarshalYAML (node : Node) : result Duration :=
  match Node_Kind node with
  | ScalarNode =>
      match ParseDuration (Node_Value node) with
      | Some parsed => Ok parsed
      | None => Err (wrapf "parse duration %q: %w" (Errorf "time: invalid duration" []))
      end
  | _ => Err (Errorf "duration must be a string" [])
  end.

Definition Duration_MarshalYAML (d : Duration) : go_string := Duration_String d.

(** ** Reading one group *)

Lemma no_digit_app s t : s <> [] -> Forall (fun c => is_digit c = false) s -> no_digit (s ++ t).
Proof. intros Hne Hs c. destruct Hs as [|c' s Hc _]; [done|]. by intros [= <-]. Qed.

Lemma leadingInt_digits s t : digits s -> no_digit t -> forall x,
  0 <= x -> digits_value x s <= 2 ^ 63 -> leadingInt x (s ++ t) = Some (digits_value x s, t).
Proof.
  intros Hs Ht. induction Hs as [|c s Hc Hs IH]; intros x Hx Hv; cbn [app leadingInt].
  - destruct t as [|c t]; [done|]. cbn [leadingInt]. by rewrite (Ht c eq_refl).
  - rewrite Hc. pose proof (is_digit_range c Hc). cbn [digits_value foldl] in *.
    fold (digits_value (x * 10 + (byte_Z c - 48)) s) in *.
    pose proof (digits_value_ge s (x * 10 + (byte_Z c - 48)) ltac:(lia) Hs).
    destruct (Z.ltb_spec (2 ^ 63 / 10) x) as [Hlt|_]; [exfalso; Z.to_euclidean_division_equations; lia|].
    destruct (Z.ltb_spec (2 ^ 63) (x * 10 + (byte_Z c - 48))); [lia|]. apply IH; lia.
Qed.

Definition scale_up (scale : spec_float) : spec_float := float_mul scale (float64 10).

Lemma leadingFraction_digits s t : digits s -> no_digit t -> forall x scale,
  0 <= x -> digits_value x s <= 2 ^ 63 - 1 ->
  leadingFraction x scale false (s ++ t) = (digits_value x s, Nat.iter (length s) scale_up scale, t).
Proof.
  intros Hs Ht. induction Hs as [|c s Hc Hs IH]; intros x scale Hx Hv; cbn [app leadingFraction].
  - destruct t as [|c t]; [done|]. cbn [leadingFraction]. by rewrite (Ht c eq_refl).
  - rewrite Hc. pose proof (is_digit_range c Hc). cbn [digits_value foldl length] in *.
    fold (digits_value (x * 10 + (byte_Z c - 48)) s) in *.
    pose proof (digits_value_ge s (x * 10 + (byte_Z c - 48)) ltac:(lia) Hs).
    destruct (Z.ltb_spec ((2 ^ 63 - 1) / 10) x) as [Hlt|_]; [exfalso; Z.to_euclidean_division_equations; lia|].
    destruct (Z.ltb_spec (2 ^ 63) (x * 10 + (byte_Z c - 48))); [lia|]. rewrite Nat.iter_succ_r. apply IH; lia.
Qed.

(** What may follow a unit: the next number. *)
Definition group_end (t : go_string) : Prop := forall c, head t = Some c -> in_unit c = false.

Lemma span_unit_app u t : Forall (fun c => in_unit c = true) u -> group_end t -> span_unit (u ++ t) = (u, t).
Proof.
  intros Hu Ht. induction Hu as [|c u Hc _ IH]; cbn [app span_unit].
  - destruct t as [|c t]; [done|]. cbn [span_unit]. by rewrite (Ht c eq_refl).
  - rewrite Hc, IH. done.
Qed.

(** The unit texts the printer uses. *)
Record unit_text (u : go_string) (unit : Z) : Prop := {
  ut_value : unit_value u = Some unit;
  ut_bytes : Forall (fun c => in_unit c = true) u;
  ut_nonempty : u <> [];
  ut_pos : 0 < unit
}.

Lemma unit_not_digit u : Forall (fun c => in_unit c = true) u -> Forall (fun c => is_digit c = false) u.
Proof. intros Hu. eapply Forall_impl; [exact Hu|]. unfold in_unit. intros c. by destruct (is_digit c). Qed.

(** [shorter] shows that a consumed text has another length. *)
Ltac shorter := apply Nat.eqb_neq; repeat first [rewrite length_app | progress simpl]; lia.

Lemma parse_group_whole v u unit rest :
  unit_text u unit -> group_end rest -> 0 <= v -> v * unit <= 2 ^ 63 ->
  parse_group (decimal v ++ u ++ rest) = Some (v * unit, rest).
Proof.
  intros [Hval Hu Hne Hpos] Hend Hv Hle.
  assert (Hnd : no_digit (u ++ rest)) by (apply no_digit_app; [done|by apply unit_not_digit]).
  pose proof (leadingInt_digits (decimal v) (u ++ rest) (decimal_digits v) Hnd 0 ltac:(lia)) as Hint.
  rewrite decimal_value in Hint by done. specialize (Hint ltac:(nia)).
  destruct (decimal_head v Hv) as (d & more & Hd & E & _). rewrite E in *. unfold parse_group. cbn [app] in *.
  rewrite digit_is_digit by lia. cbn [orb negb]. rewrite Hint. cbn [mbind option_bind].
  destruct u as [|c u]; [done|]. pose proof Hu as [Hc _]%Forall_cons. cbn [app] in *.
  rewrite bool_decide_false by (intros ->; done).
  assert ((length (c :: u ++ rest) =? length (digit d :: more ++ c :: u ++ rest))%nat = false) as ->
    by shorter.
  cbn [negb andb]. change (c :: u ++ rest) with ((c :: u) ++ rest). rewrite span_unit_app by done.
  rewrite bool_decide_false by done. rewrite Hval. cbn [mbind option_bind].
  destruct (Z.ltb_spec (2 ^ 63 / unit) v) as [Hlt|_]; [|done].
  pose proof (Z.div_le_lower_bound (2 ^ 63) unit v Hpos ltac:(lia)). lia.
Qed.

(** ** Fractions *)

(** The units whose fractions are printed, with the number of digits after the point. *)
Definition fractional (prec : nat) : Prop := prec = 3%nat \/ prec = 6%nat \/ prec = 9%nat.

Definition float_eqb (x y : spec_float) : bool :=
  match x, y with
  | S754_finite s m e, S754_finite s' m' e' => Bool.eqb s s' && (m =? m')%positive && (e =? e')
  | _, _ => false
  end.

Lemma float_eqb_eq x y : float_eqb x y = true -> x = y.
Proof.
  destruct x as [| | |s m e], y as [| | |s' m' e']; try done. cbn [float_eqb]. rewrite !andb_true_iff.
  intros [[?%Bool.eqb_prop ?%Pos.eqb_eq] ?%Z.eqb_eq]. congruence.
Qed.

(** The quotient of the unit and the scale is a power of ten, exactly. *)
Definition quotient_ok (prec len : nat) : bool :=
  float_eqb (float_div (float64 (10 ^ Z.of_nat prec)) (Nat.iter len scale_up (float64 1)))
            (float64 (10 ^ Z.of_nat (prec - len))).

Lemma quotients : forallb (fun prec => forallb (quotient_ok prec) (seq 0 (S prec))) [3%nat; 6%nat; 9%nat] = true.
Proof. vm_compute. reflexivity. Qed.

Lemma quotient_exact prec len k : fractional prec -> (len + k = prec)%nat ->
  represents (float_div (float64 (10 ^ Z.of_nat prec)) (Nat.iter len scale_up (float64 1))) (10 ^ Z.of_nat k).
Proof.
  intros Hp Hl. pose proof quotients as Hq. rewrite forallb_forall in Hq.
  assert (Hin : In prec [3%nat; 6%nat; 9%nat]) by (destruct Hp as [->|[->| ->]]; simpl; auto).
  specialize (Hq prec Hin). rewrite forallb_forall in Hq. specialize (Hq len).
  rewrite (float_eqb_eq _ _ (Hq ltac:(apply in_seq; lia))). replace (prec - len)%nat with k by lia.
  apply float64_exact. split; [apply Z.pow_pos_nonneg; lia|].
  apply Z.le_lt_trans with (10 ^ 9); [|done]. apply Z.pow_le_mono_r; [lia|]. destruct Hp as [?|[?|?]]; lia.
Qed.

Lemma fraction_exact prec fd k : fractional prec -> (length fd + k = prec)%nat -> digits fd -> 0 < digits_value 0 fd ->
  float_trunc (float_mul (float64 (digits_value 0 fd))
    (float_div (float64 (10 ^ Z.of_nat prec)) (Nat.iter (length fd) scale_up (float64 1)))) = digits_value 0 fd * 10 ^ Z.of_nat k.
Proof.
  intros Hp Hl Hd Hpos. apply represents_trunc. pose proof (digits_value_bound fd Hd) as Hb.
  assert (Hk : 0 < 10 ^ Z.of_nat k) by (apply Z.pow_pos_nonneg; lia).
  assert (Hprod : digits_value 0 fd * 10 ^ Z.of_nat k < 2 ^ 53).
  { apply Z.lt_le_trans with (10 ^ Z.of_nat prec).
    - rewrite <- Hl, Nat2Z.inj_add, Z.pow_add_r by lia. nia.
    - by destruct Hp as [->|[->| ->]]. }
  apply float_mul_exact; [apply float64_exact; nia|by apply quotient_exact|done|done|done].
Qed.

Lemma parse_group_fraction v fd k prec u rest :
  unit_text u (10 ^ Z.of_nat prec) -> fractional prec -> group_end rest -> digits fd -> fd <> [] ->
  (length fd + k = prec)%nat -> 0 <= v ->
  v * 10 ^ Z.of_nat prec + digits_value 0 fd * 10 ^ Z.of_nat k <= 2 ^ 63 ->
  parse_group (decimal v ++ x2e :: fd ++ u ++ rest) = Some (v * 10 ^ Z.of_nat prec + digits_value 0 fd * 10 ^ Z.of_nat k, rest).
Proof.
  intros [Hval Hu Hne Hpos] Hp Hend Hfd Hfne Hl Hv Hle. set (unit := 10 ^ Z.of_nat prec) in *.
  assert (Hnd : no_digit (u ++ rest)) by (apply no_digit_app; [done|by apply unit_not_digit]).
  pose proof (digits_value_bound fd Hfd) as Hb. assert (Hk : 0 < 10 ^ Z.of_nat k) by (apply Z.pow_pos_nonneg; lia).
  pose proof (leadingInt_digits (decimal v) (x2e :: fd ++ u ++ rest) (decimal_digits v)
    ltac:(by apply no_digit_cons) 0 ltac:(lia)) as Hint.
  rewrite decimal_value in Hint by done. specialize (Hint ltac:(nia)).
  assert (Hf63 : digits_value 0 fd <= 2 ^ 63 - 1).
  { apply Z.le_trans with (10 ^ 9); [|done]. apply Z.le_trans with (10 ^ Z.of_nat (length fd)); [lia|].
    apply Z.pow_le_mono_r; [lia|]. destruct Hp as [?|[?|?]]; lia. }
  destruct (decimal_head v Hv) as (d & more & Hd & E & _). rewrite E in *. unfold parse_group. cbn [app] in *.
  rewrite digit_is_digit by lia. cbn [orb negb]. rewrite Hint. cbn [mbind option_bind]. rewrite bool_decide_true by done.
  rewrite (leadingFraction_digits fd (u ++ rest) Hfd Hnd 0 (float64 1) ltac:(lia) Hf63).
  assert ((length (u ++ rest) =? length (fd ++ u ++ rest))%nat = false) as ->
    by (destruct fd; [done|]; shorter).
  cbn [negb andb]. rewrite andb_false_r, span_unit_app by done. rewrite bool_decide_false by done. rewrite Hval.
  cbn [mbind option_bind].
  destruct (Z.ltb_spec (2 ^ 63 / unit) v) as [Hlt|_]; [pose proof (Z.div_le_lower_bound (2 ^ 63) unit v Hpos ltac:(nia)); lia|].
  destruct (Z.ltb_spec 0 (digits_value 0 fd)) as [Hf|Hf].
  - pose proof (fraction_exact prec fd k Hp Hl Hfd Hf) as Hfr. fold unit in Hfr. rewrite Hfr.
    rewrite u64_add_small by (assert (0 <= v * unit) by nia; assert (0 <= digits_value 0 fd * 10 ^ Z.of_nat k) by nia; int_lia).
    destruct (Z.ltb_spec (2 ^ 63) (v * unit + digits_value 0 fd * 10 ^ Z.of_nat k)); [lia|done].
  - assert (digits_value 0 fd = 0) as -> by lia. do 2 f_equal. lia.
Qed.

(** ** Printed durations are read back *)

Lemma tail_group w u prec suffix :
  unit_text suffix (10 ^ Z.of_nat prec) -> prec = 0%nat \/ fractional prec -> 0 <= w -> 0 <= u ->
  w * 10 ^ Z.of_nat prec + u mod 10 ^ Z.of_nat prec <= 2 ^ 63 ->
  parse_group (fmtInt w (fmtFrac suffix u prec).1) = Some (w * 10 ^ Z.of_nat prec + u mod 10 ^ Z.of_nat prec, []).
Proof.
  intros Hsuf Hp Hw Hu Hle. rewrite fmtInt_app.
  destruct (fmtFrac_spec suffix u prec Hu) as [[Hm ->]|(fd & k & -> & Hd & Hne & Hl & Hval)]; cbn [fst].
  - rewrite Hm, Z.add_0_r in *. rewrite <- (right_id_L [] app suffix). by apply parse_group_whole.
  - rewrite <- Hval in *. rewrite <- (right_id_L [] app suffix). apply parse_group_fraction; try done.
    destruct Hp as [->|]; [|done]. by destruct fd.
Qed.

Lemma fmtFrac_whole buf v prec : 0 <= v -> (fmtFrac buf v prec).2 = v / 10 ^ Z.of_nat prec.
Proof. intros Hv. by destruct (fmtFrac_spec buf v prec Hv) as [[_ ->]|(? & ? & -> & _)]. Qed.

Lemma fmtFrac_suffix buf v prec : 0 <= v -> buf <> [] -> (fmtFrac buf v prec).1 <> [].
Proof. intros Hv Hb. by destruct (fmtFrac_spec buf v prec Hv) as [[_ ->]|(? & ? & -> & _)]. Qed.

Lemma parse_groups_step fuel d s v rest :
  parse_group s = Some (v, rest) -> 0 <= d -> 0 <= v -> d + v <= 2 ^ 63 ->
  parse_groups (S fuel) d s = parse_groups fuel (d + v) rest.
Proof.
  intros Hg Hd Hv Hle. destruct s as [|c s]; [done|]. cbn [parse_groups]. rewrite Hg. cbn [mbind option_bind fst snd].
  rewrite u64_add_small by int_lia. destruct (Z.ltb_spec (2 ^ 63) (d + v)); [lia|done].
Qed.

Lemma parse_groups_nil fuel d : parse_groups fuel d [] = Some d.
Proof. by destruct fuel. Qed.

(** A decimal number before a unit, in front of another group. *)
Lemma decimal_group_end v t : 0 <= v -> group_end (decimal v ++ t).
Proof.
  intros Hv c. destruct (decimal_head v Hv) as (d & more & Hd & -> & _). intros [= <-].
  unfold in_unit. by rewrite digit_is_digit by lia.
Qed.

Ltac unit_ok := split; [reflexivity|by apply (bool_decide_unpack _)|done|reflexivity].

Lemma ns_unit : unit_text (str "ns") (10 ^ Z.of_nat 0).
Proof. unit_ok. Qed.
Lemma us_unit : unit_text (micro_sign ++ str "s") (10 ^ Z.of_nat 3).
Proof. unit_ok. Qed.
Lemma ms_unit : unit_text (str "ms") (10 ^ Z.of_nat 6).
Proof. unit_ok. Qed.
Lemma s_unit : unit_text (str "s") (10 ^ Z.of_nat 9).
Proof. unit_ok. Qed.
Lemma m_unit : unit_text (str "m") Minute.
Proof. unit_ok. Qed.
Lemma h_unit : unit_text (str "h") Hour.
Proof. unit_ok. Qed.

(** A text that starts with a number and goes on, and denotes [u]. *)
Definition denotes (text : go_string) (u : Z) : Prop :=
  (exists w buf, 0 <= w /\ text = decimal w ++ buf /\ buf <> []) /\
  forall fuel d, (length text <= fuel)%nat -> 0 <= d -> d + u <= 2 ^ 63 -> parse_groups fuel d text = Some (d + u).

Lemma denotes_last w u prec suffix :
  unit_text suffix (10 ^ Z.of_nat prec) -> prec = 0%nat \/ fractional prec -> 0 <= w -> 0 <= u ->
  w * 10 ^ Z.of_nat prec + u mod 10 ^ Z.of_nat prec <= 2 ^ 63 ->
  denotes (fmtInt w (fmtFrac suffix u prec).1) (w * 10 ^ Z.of_nat prec + u mod 10 ^ Z.of_nat prec).
Proof.
  intros Hsuf Hp Hw Hu Hle. pose proof (tail_group w u prec suffix Hsuf Hp Hw Hu Hle) as Hg.
  assert (Hpow : 0 < 10 ^ Z.of_nat prec) by (apply Z.pow_pos_nonneg; lia).
  assert (Hne : (fmtFrac suffix u prec).1 <> []) by (apply fmtFrac_suffix; [done|apply Hsuf]).
  split; [exists w, (fmtFrac suffix u prec).1; by rewrite fmtInt_app|].
  intros [|fuel] d Hf Hd Hle'.
  - rewrite fmtInt_app, length_app in Hf. by destruct ((fmtFrac suffix u prec).1); [|simpl in Hf; lia].
  - rewrite (parse_groups_step fuel d _ _ _ Hg); [apply parse_groups_nil|done| |done].
    pose proof (Z.mod_pos_bound u (10 ^ Z.of_nat prec) Hpow). nia.
Qed.

Lemma denotes_more w u unit text v :
  unit_text u unit -> 0 <= w -> 0 <= v -> denotes text v -> w * unit + v <= 2 ^ 63 ->
  denotes (fmtInt w (u ++ text)) (w * unit + v).
Proof.
  intros Hu Hw Hv [(w' & buf & Hw' & Htext & _) Ht] Hle. pose proof (ut_pos _ _ Hu) as Hpos.
  split; [exists w, (u ++ text); rewrite fmtInt_app; split_and!; [done|done|]; pose proof (ut_nonempty _ _ Hu); by destruct u|].
  assert (Hg : parse_group (fmtInt w (u ++ text)) = Some (w * unit, text)).
  { rewrite fmtInt_app. apply parse_group_whole; [done| |done|nia]. rewrite Htext. by apply decimal_group_end. }
  intros [|fuel] d Hf Hd Hle'.
  - rewrite fmtInt_app, !length_app in Hf. pose proof (ut_nonempty _ _ Hu). destruct u; [done|simpl in Hf; lia].
  - rewrite (parse_groups_step fuel d _ _ _ Hg) by nia. rewrite Ht; [f_equal; lia| |nia|lia].
    rewrite fmtInt_app, !length_app in Hf. pose proof (ut_nonempty _ _ Hu). destruct u; [done|simpl in Hf; lia].
Qed.

Lemma denotes_small_unit u prec suffix :
  unit_text suffix (10 ^ Z.of_nat prec) -> prec = 0%nat \/ fractional prec -> 0 <= u <= 2 ^ 63 ->
  denotes (let '(buf, u') := fmtFrac suffix u prec in fmtInt u' buf) u.
Proof.
  intros Hsuf Hp Hu. assert (Hpow : 0 < 10 ^ Z.of_nat prec) by (apply Z.pow_pos_nonneg; lia).
  pose proof (fmtFrac_whole suffix u prec ltac:(lia)) as Hw.
  pose proof (denotes_last (u / 10 ^ Z.of_nat prec) u prec suffix Hsuf Hp) as Hd.
  assert (E : u / 10 ^ Z.of_nat prec * 10 ^ Z.of_nat prec + u mod 10 ^ Z.of_nat prec = u)
    by (rewrite Z.mul_comm; symmetry; apply Z.div_mod; lia).
  rewrite E in Hd. destruct (fmtFrac suffix u prec) as [buf w]. cbn [fst snd] in *. subst w.
  apply Hd; [apply Z.div_pos; lia|lia|lia].
Qed.

Lemma format_small_denotes u : 0 <= u <= 2 ^ 63 -> denotes (format_small u) u.
Proof.
  intros Hu. unfold format_small. destruct (Z.eqb_spec u 0) as [->|Hz].
  { apply (denotes_last 0 0 9 (str "s") s_unit); [by right; right; right|done|done|done]. }
  destruct (u <? Microsecond); [|destruct (u <? Millisecond)].
  - by apply denotes_small_unit; [apply ns_unit|left|].
  - by apply denotes_small_unit; [apply us_unit|right; left|].
  - by apply denotes_small_unit; [apply ms_unit|right; right; left|].
Qed.

Lemma format_large_denotes u : 0 <= u <= 2 ^ 63 -> denotes (format_large u) u.
Proof.
  intros Hu. unfold format_large. pose proof (fmtFrac_whole (str "s") u 9 ltac:(lia)) as Hw.
  pose proof (denotes_last (u / 10 ^ 9 mod 60) u 9 (str "s") s_unit ltac:(by right; right; right)) as Hd.
  destruct (fmtFrac (str "s") u 9) as [buf seconds]. cbn [fst snd] in *.
  change (10 ^ Z.of_nat 9) with Second in *. change (10 ^ 9) with Second in *. subst seconds.
  set (seconds := u / Second) in *.
  assert (Hsec : u = Second * seconds + u mod Second) by (apply Z.div_mod; done).
  assert (Hmod : 0 <= u mod Second < Second) by (by apply Z.mod_pos_bound).
  assert (Hmin : seconds = 60 * (seconds / 60) + seconds mod 60) by (apply Z.div_mod; done).
  assert (Hs60 : 0 <= seconds mod 60 < 60) by (by apply Z.mod_pos_bound).
  assert (Hh : seconds / 60 = 60 * (seconds / 60 / 60) + seconds / 60 mod 60) by (apply Z.div_mod; done).
  assert (Hm60 : 0 <= seconds / 60 mod 60 < 60) by (by apply Z.mod_pos_bound).
  assert (H0 : 0 <= seconds) by (apply Z.div_pos; [lia|done]).
  set (r := u mod Second) in *. set (s60 := seconds mod 60) in *. set (minutes := seconds / 60) in *.
  set (m60 := minutes mod 60) in *. set (hours := minutes / 60) in *. clearbody r s60 minutes m60 hours seconds.
  unfold Minute, Hour, Second in *. specialize (Hd ltac:(lia) ltac:(lia) ltac:(lia)).
  destruct (Z.ltb_spec 0 minutes) as [Hmp|Hmz].
  2: { replace u with (s60 * 1000000000 + r) by lia. done. }
  pose proof (denotes_more m60 (str "m") Minute _ (s60 * 1000000000 + r) m_unit ltac:(lia) ltac:(lia) Hd) as Hd2.
  unfold Minute, Second in Hd2. specialize (Hd2 ltac:(lia)).
  destruct (Z.ltb_spec 0 hours) as [Hhp|Hhz].
  2: { replace u with (m60 * (60 * 1000000000) + (s60 * 1000000000 + r)) by lia. done. }
  pose proof (denotes_more hours (str "h") Hour _ (m60 * (60 * 1000000000) + (s60 * 1000000000 + r)) h_unit ltac:(lia) ltac:(lia) Hd2) as Hd3.
  unfold Hour, Minute, Second in Hd3. specialize (Hd3 ltac:(lia)).
  replace u with (hours * (60 * (60 * 1000000000)) + (m60 * (60 * 1000000000) + (s60 * 1000000000 + r))) by lia. done.
Qed.

Lemma ParseDuration_text (neg : bool) text u :
  denotes text u -> 0 <= u <= (if neg then 2 ^ 63 else 2 ^ 63 - 1) ->
  ParseDuration ((if neg then str "-" else []) ++ text) = Some (if neg then - u else u).
Proof.
  intros [(w & buf & Hw & Htext & Hbuf) Ht] Hu. specialize (Ht (length text) 0 ltac:(lia) ltac:(lia)).
  specialize (Ht ltac:(destruct neg; lia)). rewrite Z.add_0_l in Ht.
  destruct (decimal_head w Hw) as (d & more & Hd & E & Hz).
  assert (Hcut : cut_sign ((if neg then str "-" else []) ++ text) = (neg, text)).
  { destruct neg; [done|]. rewrite Htext, E. cbn [app cut_sign].
    rewrite bool_decide_false; [done|]. intros [H|H]; by apply (digit_not d) in H. }
  unfold ParseDuration. rewrite Hcut. rewrite bool_decide_false.
  2: { rewrite Htext, E. intros [= _ [_ ?]%app_nil]. done. }
  rewrite bool_decide_false by (rewrite Htext, E; done). rewrite Ht. cbn [mbind option_bind].
  destruct neg; [rewrite to_int64_small by int_lia; done|].
  destruct (Z.ltb_spec (2 ^ 63 - 1) u); [lia|]. by rewrite to_int64_small by int_lia.
Qed.

(** The unsigned magnitude, also of the smallest duration. *)
Lemma duration_magnitude d : - 2 ^ 63 <= d < 2 ^ 63 -> (if d <? 0 then wrap64 (- wrap64 d) else wrap64 d) = Z.abs d.
Proof.
  intros Hd. unfold wrap64, two64. destruct (Z.ltb_spec d 0) as [Hn|Hn].
  - rewrite <- (Z.mod_unique d (2 ^ 64) (-1) (d + 2 ^ 64)) by lia.
    rewrite <- (Z.mod_unique (- (d + 2 ^ 64)) (2 ^ 64) (-1) (- d)) by lia. lia.
  - rewrite Z.mod_small by lia. lia.
Qed.

Lemma ParseDuration_String d : - 2 ^ 63 <= d < 2 ^ 63 -> ParseDuration (Duration_String d) = Some d.
Proof.
  intros Hd. unfold Duration_String.
  rewrite duration_magnitude by done. set (text := if Z.abs d <? Second then _ else _).
  assert (Ht : denotes text (Z.abs d)).
  { unfold text. destruct (Z.abs d <? Second); [apply format_small_denotes|apply format_large_denotes]; lia. }
  pose proof (ParseDuration_text (d <? 0) text (Z.abs d) Ht) as Hp.
  destruct (Z.ltb_spec d 0); [rewrite Hp by lia; f_equal; lia|].
  specialize (Hp ltac:(lia)). simpl in Hp. rewrite Hp. f_equal. lia.
Qed.

(** ** The buffer *)

Lemma length_fmtInt v k buf : 0 <= v < 10 ^ Z.of_nat k -> (1 <= k)%nat -> (length (fmtInt v buf) <= k + length buf)%nat.
Proof. intros Hv Hk. rewrite fmtInt_app, length_app. pose proof (decimal_length v k Hv Hk). lia. Qed.

Lemma length_fmtFrac buf v prec : 0 <= v -> (length (fmtFrac buf v prec).1 <= S prec + length buf)%nat.
Proof.
  intros Hv. destruct (fmtFrac_spec buf v prec Hv) as [[_ ->]|(fd & k & -> & _ & _ & Hl & _)]; simpl; [lia|].
  rewrite length_app. lia.
Qed.

Lemma length_format_small u : 0 <= u < Second -> (length (format_small u) <= 13)%nat.
Proof.
  intros Hu. unfold format_small. destruct (u =? 0); [simpl; lia|].
  assert (Hgen : forall suffix prec, (length suffix <= 3)%nat -> 0 <= u / 10 ^ Z.of_nat prec < 10 ^ Z.of_nat 3 -> (prec <= 6)%nat ->
    (length (let '(buf, u') := fmtFrac suffix u prec in fmtInt u' buf) <= 13)%nat).
  { intros suffix prec Hs Hw Hp. pose proof (length_fmtFrac suffix u prec ltac:(lia)) as Hl.
    pose proof (fmtFrac_whole suffix u prec ltac:(lia)) as E. destruct (fmtFrac suffix u prec) as [buf w].
    cbn [fst snd] in *. subst w. pose proof (length_fmtInt _ 3 buf Hw ltac:(lia)). lia. }
  unfold Second in Hu. destruct (Z.ltb_spec u Microsecond) as [H|H]; unfold Microsecond in H;
    [|destruct (Z.ltb_spec u Millisecond) as [H'|H']; unfold Millisecond in H'].
  all: apply Hgen; [simpl; lia| |lia]; change (10 ^ Z.of_nat 3) with 1000; simpl; Z.to_euclidean_division_equations; lia.
Qed.

Lemma length_format_large u : 0 <= u <= 2 ^ 63 -> (length (format_large u) <= 25)%nat.
Proof.
  intros Hu. unfold format_large. pose proof (length_fmtFrac (str "s") u 9 ltac:(lia)) as Hl.
  pose proof (fmtFrac_whole (str "s") u 9 ltac:(lia)) as E. destruct (fmtFrac (str "s") u 9) as [buf seconds].
  cbn [fst snd] in *. change (10 ^ Z.of_nat 9) with 1000000000 in E.
  assert (Hs : 0 <= seconds <= 2 ^ 63 / 1000000000) by (subst seconds; split; [apply Z.div_pos; lia|apply Z.div_le_mono; lia]).
  assert (two : forall x, 0 <= x mod 60 < 10 ^ Z.of_nat 2) by (intros x; pose proof (Z.mod_pos_bound x 60); simpl; lia).
  pose proof (length_fmtInt (seconds mod 60) 2 buf (two _) ltac:(lia)) as H1. cbn [length str] in Hl.
  destruct (0 <? seconds / 60); [|simpl in *; lia].
  pose proof (length_fmtInt (seconds / 60 mod 60) 2 (str "m" ++ fmtInt (seconds mod 60) buf) (two _) ltac:(lia)) as H2.
  rewrite length_app in H2. change (length (str "m")) with 1%nat in H2. change (length (str "s")) with 1%nat in Hl.
  destruct (0 <? seconds / 60 / 60); [|lia].
  assert (Hh : 0 <= seconds / 60 / 60 < 10 ^ Z.of_nat 7).
  { change (10 ^ Z.of_nat 7) with 10000000. rewrite Z.div_div by lia. change (2 ^ 63 / 1000000000) with 9223372036 in Hs.
    Z.to_euclidean_division_equations. lia. }
  pose proof (length_fmtInt (seconds / 60 / 60) 7 (str "h" ++ fmtInt (seconds / 60 mod 60) (str "m" ++ fmtInt (seconds mod 60) buf)) Hh ltac:(lia)) as H3.
  rewrite length_app in H3. change (length (str "h")) with 1%nat in H3. lia.
Qed.

Lemma length_Duration_String d : - 2 ^ 63 <= d < 2 ^ 63 -> (length (Duration_String d) <= 32)%nat.
Proof.
  intros Hd. unfold Duration_String. rewrite duration_magnitude by done.
  set (text := if Z.abs d <? Second then _ else _). assert (length text <= 25)%nat.
  { subst text. destruct (Z.ltb_spec (Z.abs d) Second); [pose proof (length_format_small (Z.abs d)); lia|apply length_format_large; lia]. }
  destruct (d <? 0); [rewrite length_app; simpl (length (str "-"))|]; lia.
Qed.

(** C32: A duration written to YAML is read back: for every [time.Duration] the text of
  [MarshalYAML] is parsed by [UnmarshalYAML] to the same number of nanoseconds, the smallest
  one included, although fractions go through [float64]; and the text fits the 32-byte
  buffer it is formatted in. *)
Theorem duration_roundtrip d :
  - 2 ^ 63 <= d < 2 ^ 63 ->
  Duration_UnmarshalYAML (mkNode ScalarNode (Duration_MarshalYAML d)) = Ok d /\ (length (Duration_MarshalYAML d) <= 32)%nat.
Proof.
  intros Hd. split; [|by apply length_Duration_String].
  unfold Duration_UnmarshalYAML, Duration_MarshalYAML. simpl. by rewrite ParseDuration_String.
Qed.

(** ** Evaluation *)

Lemma duration_roundtrip_witness :
  Duration_UnmarshalYAML (mkNode ScalarNode (Duration_MarshalYAML (- 2 ^ 63))) = Ok (- 2 ^ 63) /\
  (length (Duration_MarshalYAML (- 2 ^ 63)) <= 32)%nat.
Proof. apply (duration_roundtrip (- 2 ^ 63)). lia. Defined.

(** The largest duration in microseconds, a fraction longer than an integer, an overflow, a
    number without a unit, and the values of the example configuration. *)
Example parse_boundaries :
  ParseDuration <$> [str "9223372036854775.807us"; str "0.3333333333333333333h"; str "9223372036854775808ns"; str "5"; str ".s"]
    = [Some (2 ^ 63 - 1); Some (20 * Minute); None; None; None].
Proof. vm_compute. reflexivity. Qed.
Example parse_defaults :
  ParseDuration <$> [str "5s"; str "1m"; str "1.5h"; str "-1h2m.3s"; str "+0"]
    = [Some (5 * Second); Some Minute; Some (90 * Minute); Some (- (62 * Minute + 300 * Millisecond)); Some 0].
Proof. vm_compute. reflexivity. Qed.
