(* ===== verification/Client.v ===== *)
(** * The JSON-RPC client: [internal/ethereum/client.go] and [geth.go]

    [Client] wraps a go-ethereum client, the class [rpcClient], and gives every call its
    own deadline.  A context is its state and its deadline. *)
From S2P Require Import Prelude Errors Domain Validate Store Fixtures Memory Fetcher Syncer Cursor Config.
From stdpp Require Import prelude list strings.
From Stdlib Require Import ZArith Lia.

Local Open Scope Z_scope.

(** ** Contexts with deadlines *)

Record Context := mkContext { Ctx_state : ctx_state; Ctx_deadline : option Z }.

(** [context.WithTimeout] at time [now]: an earlier deadline of the parent stays, and a
    timeout that is not positive has expired at once. *)
Definition WithTimeout (now : Z) (ctx : Context) (timeout : Duration) : Context :=
  let deadline := now + timeout in
  match Ctx_deadline ctx with
  | Some d =>
      if d <? deadline then ctx
      else mkContext (match Ctx_state ctx with CtxOpen => if timeout <=? 0 then CtxDeadline else CtxOpen | c => c end)
             (Some deadline)
  | None =>
      mkContext (match Ctx_state ctx with CtxOpen => if timeout <=? 0 then CtxDeadline else CtxOpen | c => c end)
        (Some deadline)
  end.

(** ** The wrapped client *)

(** [geth.FilterQuery] *)
Record FilterQuery := mkFilterQuery {
  FQ_BlockHash : option Hash;
  FQ_FromBlock : option Z;
  FQ_ToBlock : option Z;
  FQ_Addresses : list Address;
  FQ_Topics : list (list Hash)
}.

Class rpcClient (W : Type) := {
  rpc_ChainID : Context -> action W (option Z);
  rpc_BlockNumber : Context -> action W Z;
  rpc_BlockByNumber : Context -> option Z -> action W (option EthBlock);
  rpc_HeaderByNumber : Context -> option Z -> action W (option Header);
  rpc_FilterLogs : Context -> FilterQuery -> action W (list EthLog);
  rpc_now : W -> Z
}.

Section Client.
Context {W : Type} `{rpcClient W}.
(** The client's [timeout]. *)
Variable timeout : Duration.
Local Open Scope action_scope.

Definition callContext (ctx : Context) (w : W) : Context := WithTimeout (rpc_now w) ctx timeout.

Definition Client_ChainID (ctx : Context) : action W (option Z) := fun w => rpc_ChainID (callContext ctx w) w.
Definition Client_BlockNumber (ctx : Context) : action W Z := fun w => rpc_BlockNumber (callContext ctx w) w.
Definition Client_BlockByNumber (ctx : Context) (number : option Z) : action W (option EthBlock) :=
  fun w => rpc_BlockByNumber (callContext ctx w) number w.
Definition Client_HeaderByNumber (ctx : Context) (number : option Z) : action W (option Header) :=
  fun w => rpc_HeaderByNumber (callContext ctx w) number w.
Definition Client_LogsByBlockHash (ctx : Context) (hash : Hash) : action W (list EthLog) :=
  fun w => rpc_FilterLogs (callContext ctx w) (mkFilterQuery (Some hash) None None [] []) w.

Definition ValidateChainID (ctx : Context) (expected : Z) : action W unit :=
  actual <-- act_map_err (wrapf "read chain ID: %w") (Client_ChainID ctx);;
  act_lift (reject_if (match actual with
                       | None => true
                       | Some id => negb ((0 <=? id) && (id <=? max_uint64)) || negb (id =? expected)
                       end)
              (wrapf "%w: expected %d, got %s" (Sentinel ErrUnexpectedChainID))).
End Client.

(** [ethereum.Dial]; [DialContext] is [ethclient]'s. *)
Definition Dial (DialContext : Context -> go_string -> reply unit) (now : Z) (ctx : Context) (rpcURL : go_string)
    (rpcTimeout : Duration) : result unit :=
  _ ← reject_if (blank rpcURL) (Errorf "ethereum: RPC URL is required" []);
  _ ← reject_if (rpcTimeout <=? 0) (Errorf "ethereum: RPC timeout must be greater than zero" []);
  map_err (wrapf "dial ethereum RPC: %w") (of_reply (DialContext (WithTimeout now ctx rpcTimeout) rpcURL)).

Section ClientLemmas.
Context {W : Type} `{rpcClient W} (timeout : Duration).

(** Every call has a deadline, at most [timeout] away and not after the caller's. *)
Lemma callContext_deadline ctx w :
  exists d, Ctx_deadline (callContext timeout ctx w) = Some d /\ d <= rpc_now w + timeout /\
    forall p, Ctx_deadline ctx = Some p -> d <= p.
Proof.
  unfold callContext, WithTimeout. destruct (Ctx_deadline ctx) as [p|] eqn:Hp; [|simpl; eexists; split_and!; [done|lia|done]].
  destruct (Z.ltb_spec p (rpc_now w + timeout)); [rewrite Hp|simpl]; eexists; (split_and!; [done|lia|]);
    intros p' [= <-]; lia.
Qed.

Lemma ValidateChainID_Ok ctx expected w w' :
  is_u64 expected ->
  ValidateChainID timeout ctx expected w = (Ok tt, w') <-> Client_ChainID timeout ctx w = (Ok (Some expected), w').
Proof.
  intros He. unfold ValidateChainID, act_bind, act_map_err, act_lift.
  destruct (Client_ChainID timeout ctx w) as [[[id|]|e|m|] w1]; simpl; try done. split.
  - intros [= Hr <-]. apply reject_if_Ok in Hr. bool_iff in Hr. by destruct Hr as [_ ->].
  - intros [= -> <-]. f_equal. apply reject_if_Ok. bool_iff. int_lia.
Qed.

Lemma ValidateChainID_errs ctx expected w :
  returns (Client_ChainID timeout ctx w).1 ->
  errs_in (fun e => errors_Is e ErrUnexpectedChainID = true \/
             exists e0, (Client_ChainID timeout ctx w).1 = Err e0 /\ e = wrapf "read chain ID: %w" e0)
    (ValidateChainID timeout ctx expected w).1.
Proof.
  unfold ValidateChainID, act_bind, act_map_err, act_lift.
  destruct (Client_ChainID timeout ctx w) as [[id|e|m|] w1]; simpl; try done; intros _; [|by eauto].
  apply errs_in_reject_if. by left.
Qed.
End ClientLemmas.
