(* ===== verification/Runtime.v ===== *)
(** * The life cycle of the services: [cmd/indexer/runtime.go]

    [runServices] runs the indexer, the HTTP server and a goroutine that shuts the server
    down in one [errgroup].  The three goroutines, the group's context and the first
    error are the state of a step relation; the indexer and the server are known through
    the interfaces [indexerRunner] and [httpRuntime]. *)
From S2P Require Import Prelude Errors Domain Validate Store Memory.
From stdpp Require Import prelude list strings relations.
From Stdlib Require Import ZArith Lia.

(** ** The interfaces *)

(** What [Run(ctx)] may return while its context is in a given state. *)
Class indexerRunner := Run_returns : ctx_state -> option error -> Prop.

(** What [ListenAndServe()] may return before and after [Shutdown] was called, and what
    [Shutdown] may return. *)
Class httpRuntime := {
  ListenAndServe_returns : bool -> option error -> Prop;
  Shutdown_returns : option error -> Prop
}.

(** ** What the goroutines make of these returns *)

Definition is_err (err : option error) (target : sentinel) : bool :=
  match err with Some e => errors_Is e target | None => false end.

(** [errors.Is(err, ctx.Err())] for a context that is done. *)
Definition is_ctx_err (err : option error) (ctx : ctx_state) : bool :=
  match ctx with
  | CtxOpen => false
  | CtxCanceled => is_err err (ForeignSentinel ContextCanceled)
  | CtxDeadline => is_err err (ForeignSentinel ContextDeadlineExceeded)
  end.

Definition ctx_done (ctx : ctx_state) : bool := match ctx with CtxOpen => false | _ => true end.
Definition is_nil (err : option error) : bool := match err with None => true | Some _ => false end.

Definition indexer_result (groupCtx : ctx_state) (err : option error) : option error :=
  if ctx_done groupCtx && (is_nil err || is_ctx_err err groupCtx) then None
  else match err with
       | None => Some (Errorf "indexer stopped unexpectedly" [])
       | Some e => Some (wrapf "run indexer: %w" e)
       end.

Definition http_result (groupCtx : ctx_state) (err : option error) : option error :=
  let closed := is_err err (ForeignSentinel HttpErrServerClosed) in
  if ctx_done groupCtx && closed then None
  else match err with
       | Some e => if closed then Some (Errorf "HTTP server stopped unexpectedly" [])
                   else Some (wrapf "serve HTTP: %w" e)
       | None => Some (Errorf "HTTP server stopped unexpectedly" [])
       end.

Definition shutdown_result (err : option error) : option error :=
  match err with
  | Some e => if errors_Is e (ForeignSentinel HttpErrServerClosed) then None
              else Some (wrapf "shut down HTTP server: %w" e)
  | None => None
  end.

(** ** The group *)

(** A goroutine of the group: in the service's call; back from it with [ret]; at the end
    of its function with [result]; or recorded by the group.  [Blocked] is the wait for
    [groupCtx.Done()]. *)
Inductive goroutine :=
| Blocked
| Running
| Returned (ret : option error)
| Resulted (ret result : option error)
| Finished (ret result : option error).

Record group := mkGroup {
  g_parent : ctx_state;
  g_ctx : ctx_state;
  g_err : option error;
  g_indexer : goroutine;
  g_http : goroutine;
  g_stopper : goroutine;
  g_shutdown : bool
}.

Definition initial_group : group := mkGroup CtxOpen CtxOpen None Running Running Blocked false.

(** The group's wrapper: [g.errOnce.Do(func() { g.err = err; g.cancel(g.err) })]. *)
Definition record_result (result : option error) (g : group) : option error * ctx_state :=
  match result, g_err g with
  | Some e, None => (Some e, match g_ctx g with CtxOpen => CtxCanceled | c => c end)
  | _, err => (err, g_ctx g)
  end.

Section Group.
Context `{indexerRunner} `{httpRuntime}.

Inductive gstep : group -> group -> Prop :=
(** The parent context is cancelled or times out; the group's context follows. *)
| parent_done c ctx err ix ht st sd :
    c <> CtxOpen ->
    gstep (mkGroup CtxOpen ctx err ix ht st sd) (mkGroup c ctx err ix ht st sd)
| parent_propagates c err ix ht st sd :
    c <> CtxOpen ->
    gstep (mkGroup c CtxOpen err ix ht st sd) (mkGroup c c err ix ht st sd)
(** [err := indexer.Run(groupCtx)], the tests of [groupCtx.Err()], the group's record. *)
| indexer_returns p ctx err ret ht st sd :
    Run_returns ctx ret ->
    gstep (mkGroup p ctx err Running ht st sd) (mkGroup p ctx err (Returned ret) ht st sd)
| indexer_tests p ctx err ret ht st sd :
    gstep (mkGroup p ctx err (Returned ret) ht st sd)
          (mkGroup p ctx err (Resulted ret (indexer_result ctx ret)) ht st sd)
| indexer_recorded p ctx err ret result ht st sd err' ctx' :
    record_result result (mkGroup p ctx err (Resulted ret result) ht st sd) = (err', ctx') ->
    gstep (mkGroup p ctx err (Resulted ret result) ht st sd)
          (mkGroup p ctx' err' (Finished ret result) ht st sd)
(** [err := httpServer.ListenAndServe()] *)
| http_returns p ctx err ix ret st sd :
    ListenAndServe_returns sd ret ->
    gstep (mkGroup p ctx err ix Running st sd) (mkGroup p ctx err ix (Returned ret) st sd)
| http_tests p ctx err ix ret st sd :
    gstep (mkGroup p ctx err ix (Returned ret) st sd)
          (mkGroup p ctx err ix (Resulted ret (http_result ctx ret)) st sd)
| http_recorded p ctx err ix ret result st sd err' ctx' :
    record_result result (mkGroup p ctx err ix (Resulted ret result) st sd) = (err', ctx') ->
    gstep (mkGroup p ctx err ix (Resulted ret result) st sd)
          (mkGroup p ctx' err' ix (Finished ret result) st sd)
(** [<-groupCtx.Done()] and the call of [httpServer.Shutdown]. *)
| stopper_wakes p ctx err ix ht sd :
    ctx <> CtxOpen ->
    gstep (mkGroup p ctx err ix ht Blocked sd) (mkGroup p ctx err ix ht Running true)
| shutdown_returns p ctx err ix ht ret sd :
    Shutdown_returns ret ->
    gstep (mkGroup p ctx err ix ht Running sd)
          (mkGroup p ctx err ix ht (Resulted ret (shutdown_result ret)) sd)
| stopper_recorded p ctx err ix ht ret result sd err' ctx' :
    record_result result (mkGroup p ctx err ix ht (Resulted ret result) sd) = (err', ctx') ->
    gstep (mkGroup p ctx err ix ht (Resulted ret result) sd)
          (mkGroup p ctx' err' ix ht (Finished ret result) sd).

Definition finished (t : goroutine) : bool := match t with Finished _ _ => true | _ => false end.
Definition all_finished (g : group) : bool := finished (g_indexer g) && finished (g_http g) && finished (g_stopper g).

(** [group.Wait()] returns the first error once every goroutine is done. *)
Definition runServices_returns (err : option error) : Prop :=
  exists g, rtc gstep initial_group g /\ all_finished g = true /\ g_err g = err.
End Group.

(** ** Invariants *)

(** A context only changes once, from open to done. *)
Definition before (c c' : ctx_state) : Prop := c = CtxOpen \/ c = c'.
#[global] Instance before_preorder : PreOrder before.
Proof. split; [by right|]. intros a b c [->| ->]; [by left|done]. Qed.

Section Invariants.
Context `{indexerRunner} `{httpRuntime}.

(** A service's goroutine: [may] tells what its call may return while the group's context is
    in a given state, [result] what the goroutine makes of it. *)
Definition service_inv (may : ctx_state -> option error -> Prop) (result : ctx_state -> option error -> option error)
    (ctx : ctx_state) (t : goroutine) : Prop :=
  match t with
  | Blocked => False
  | Running => True
  | Returned ret => exists c, before c ctx /\ may c ret
  | Resulted ret r | Finished ret r =>
      exists c1 c2, before c1 c2 /\ before c2 ctx /\ may c1 ret /\ r = result c2 ret
  end.

(** [ListenAndServe] after [Shutdown] was called returns in a group that is done. *)
Definition http_may (ctx : ctx_state) (ret : option error) : Prop :=
  exists sd, (sd = true -> ctx <> CtxOpen) /\ ListenAndServe_returns sd ret.

Definition stopper_inv (ctx : ctx_state) (sd : bool) (t : goroutine) : Prop :=
  match t with
  | Blocked => sd = false
  | Running => sd = true /\ ctx <> CtxOpen
  | Returned _ => False
  | Resulted ret r | Finished ret r =>
      sd = true /\ ctx <> CtxOpen /\ Shutdown_returns ret /\ r = shutdown_result ret
  end.

(** The error a finished goroutine reported. *)
Definition reported (t : goroutine) : option error := match t with Finished _ r => r | _ => None end.

Definition error_inv (g : group) : Prop :=
  match g_err g with
  | None => reported (g_indexer g) = None /\ reported (g_http g) = None /\ reported (g_stopper g) = None /\
            (g_ctx g <> CtxOpen -> g_parent g = g_ctx g)
  | Some e => g_ctx g <> CtxOpen /\
              (reported (g_indexer g) = Some e \/ reported (g_http g) = Some e \/ reported (g_stopper g) = Some e)
  end.

Record group_inv (g : group) : Prop := {
  gi_indexer : service_inv Run_returns indexer_result (g_ctx g) (g_indexer g);
  gi_http : service_inv http_may http_result (g_ctx g) (g_http g);
  gi_stopper : stopper_inv (g_ctx g) (g_shutdown g) (g_stopper g);
  gi_error : error_inv g
}.

Lemma before_done c c' : before c c' -> c <> CtxOpen -> c' <> CtxOpen.
Proof. by intros [->| ->]. Qed.

Lemma service_inv_mono may result c c' t : before c c' -> service_inv may result c t -> service_inv may result c' t.
Proof.
  intros Hc. destruct t; simpl; try done.
  - intros (c0 & Hb & ?). exists c0. split; [by etrans|done].
  - intros (c1 & c2 & ? & Hb & ? & ?). exists c1, c2. split_and!; (done || by etrans).
  - intros (c1 & c2 & ? & Hb & ? & ?). exists c1, c2. split_and!; (done || by etrans).
Qed.

Lemma stopper_inv_mono c c' sd t : before c c' -> stopper_inv c sd t -> stopper_inv c' sd t.
Proof. intros Hc. destruct t; simpl; try done; intros Hd; decompose [and] Hd; split_and!; eauto using before_done. Qed.

Lemma record_before result g err ctx : record_result result g = (err, ctx) -> before (g_ctx g) ctx.
Proof. unfold record_result. destruct result, (g_err g), (g_ctx g); intros [= <- <-]; by (left + right). Qed.

(** What the group knows after a result was recorded. *)
Lemma record_error result p ctx err ix ht st sd ix' ht' st' err' ctx' :
  error_inv (mkGroup p ctx err ix ht st sd) ->
  record_result result (mkGroup p ctx err ix ht st sd) = (err', ctx') ->
  (forall e, reported ix = Some e -> reported ix' = Some e) ->
  (forall e, reported ht = Some e -> reported ht' = Some e) ->
  (forall e, reported st = Some e -> reported st' = Some e) ->
  (forall e, result = Some e -> reported ix' = Some e \/ reported ht' = Some e \/ reported st' = Some e) ->
  (result = None -> reported ix = None -> reported ht = None -> reported st = None ->
     reported ix' = None /\ reported ht' = None /\ reported st' = None) ->
  error_inv (mkGroup p ctx' err' ix' ht' st' sd).
Proof.
  unfold error_inv, record_result. simpl. intros He Hr Hi Hh Hs Hres Hnone.
  destruct result as [e|], err as [e0|]; injection Hr as <- <-.
  - intuition eauto.
  - split; [by destruct ctx|]. by apply Hres.
  - intuition eauto.
  - destruct He as (? & ? & ? & ?). destruct Hnone as (? & ? & ?); done.
Qed.

(** [recorded] closes the case of a goroutine whose result the group records. *)
Ltac recorded :=
  match goal with Hr : record_result _ _ = _ |- _ => pose proof (record_before _ _ _ _ Hr) end;
  simpl in *; split; eauto using service_inv_mono, stopper_inv_mono;
  eapply record_error; [eassumption|eassumption|naive_solver..].

Lemma gstep_inv g g' : gstep g g' -> group_inv g -> group_inv g'.
Proof.
  intros Hs [Hix Hht Hst He]. destruct Hs; simpl in *.
  - split; try done. unfold error_inv in *; simpl in *. destruct err; [done|].
    destruct He as (? & ? & ? & Hp). split_and!; [done..|]. intros Hc. by rewrite <- Hp in Hc by done.
  - assert (before CtxOpen c) by (by left).
    split; simpl; eauto using service_inv_mono, stopper_inv_mono.
    unfold error_inv in *; simpl in *. destruct err; intuition.
  - split; try done. exists ctx. split; [by right|done].
  - split; try done. destruct Hix as (c & ? & ?). exists c, ctx. split_and!; [done|by right|done..].
  - recorded.
  - split; try done. exists ctx. split; [by right|]. exists sd. split; [|done]. intros ->.
    destruct st; simpl in Hst; (done || naive_solver).
  - split; try done. destruct Hht as (c & ? & ?). exists c, ctx. split_and!; [done|by right|done..].
  - recorded.
  - by split.
  - split; try done. naive_solver.
  - recorded.
Qed.

Lemma reachable_inv g : rtc gstep initial_group g -> group_inv g.
Proof.
  intros Hr. assert (group_inv initial_group) as Hi by (split; simpl; by (repeat split)).
  revert Hi. induction Hr; [done|]. eauto using gstep_inv.
Qed.
End Invariants.

(** ** What [runServices] returns *)

Definition server_closed : sentinel := ForeignSentinel HttpErrServerClosed.

(** The service's own return. *)
Definition ret_of (t : goroutine) : option error :=
  match t with Returned ret | Resulted ret _ | Finished ret _ => ret | _ => None end.

(** The indexer stopped because the context is done, the server because it was shut down. *)
Record stopped_gracefully (g : group) : Prop := {
  sg_parent : g_parent g <> CtxOpen;
  sg_indexer : ret_of (g_indexer g) = None \/ is_ctx_err (ret_of (g_indexer g)) (g_parent g) = true;
  sg_http : is_err (ret_of (g_http g)) server_closed = true;
  sg_shutdown : ret_of (g_stopper g) = None \/ is_err (ret_of (g_stopper g)) server_closed = true
}.

(** Why the group reports [e]: the indexer, or the server.  An indexer that stopped
    because the context is done is no failure: a reported error was returned while the
    context was open, or is not the context's.  Nor is a server that was shut down:
    a reported [http.ErrServerClosed] was returned although nobody called [Shutdown]. *)
Section Failures.
Context `{indexerRunner} `{httpRuntime}.

Inductive indexer_failure (g : group) : error -> Prop :=
| indexer_stopped : ret_of (g_indexer g) = None -> Run_returns CtxOpen None ->
    indexer_failure g (Errorf "indexer stopped unexpectedly" [])
| indexer_failed e : ret_of (g_indexer g) = Some e ->
    Run_returns CtxOpen (Some e) \/ is_ctx_err (Some e) (g_ctx g) = false ->
    indexer_failure g (wrapf "run indexer: %w" e).

Inductive server_failure (g : group) : error -> Prop :=
| http_stopped : ret_of (g_http g) = None \/
      is_err (ret_of (g_http g)) server_closed = true /\ ListenAndServe_returns false (ret_of (g_http g)) ->
    server_failure g (Errorf "HTTP server stopped unexpectedly" [])
| http_failed e : ret_of (g_http g) = Some e -> errors_Is e server_closed = false ->
    server_failure g (wrapf "serve HTTP: %w" e)
| shutdown_failed e : ret_of (g_stopper g) = Some e -> errors_Is e server_closed = false ->
    server_failure g (wrapf "shut down HTTP server: %w" e).
End Failures.

Lemma indexer_result_None c ret :
  indexer_result c ret = None -> c <> CtxOpen /\ (ret = None \/ is_ctx_err ret c = true).
Proof. unfold indexer_result. destruct c, ret; simpl; try done; try case_match; naive_solver. Qed.

Lemma http_result_None c ret : http_result c ret = None -> c <> CtxOpen /\ is_err ret server_closed = true.
Proof. unfold http_result. destruct c, ret; simpl; try done; case_match; naive_solver. Qed.

Lemma shutdown_result_None ret : shutdown_result ret = None -> ret = None \/ is_err ret server_closed = true.
Proof. unfold shutdown_result. destruct ret; simpl; [case_match|]; naive_solver. Qed.

Lemma indexer_result_Some c ret e :
  indexer_result c ret = Some e ->
  (ret = None /\ c = CtxOpen /\ e = Errorf "indexer stopped unexpectedly" []) \/
  exists e0, ret = Some e0 /\ (c = CtxOpen \/ is_ctx_err ret c = false) /\ e = wrapf "run indexer: %w" e0.
Proof.
  unfold indexer_result. case_match eqn:Hg; [done|]. intros Hr.
  destruct ret as [e0|]; [right|left]; injection Hr as <-; [|by destruct c].
  exists e0. split_and!; [done| |done]. destruct c; [by left|by right..].
Qed.

Lemma http_result_Some c ret e :
  http_result c ret = Some e ->
  ((ret = None \/ is_err ret server_closed = true /\ c = CtxOpen) /\ e = Errorf "HTTP server stopped unexpectedly" []) \/
  exists e0, ret = Some e0 /\ errors_Is e0 server_closed = false /\ e = wrapf "serve HTTP: %w" e0.
Proof.
  unfold http_result. destruct ret as [e0|]; simpl; [|destruct c; naive_solver].
  unfold server_closed. destruct (errors_Is e0 _) eqn:?, c; naive_solver.
Qed.

Lemma shutdown_result_Some ret e :
  shutdown_result ret = Some e ->
  exists e0, ret = Some e0 /\ errors_Is e0 server_closed = false /\ e = wrapf "shut down HTTP server: %w" e0.
Proof. unfold shutdown_result. destruct ret as [e0|]; [|done]. destruct (errors_Is e0 _) eqn:?; naive_solver. Qed.

Section Results.
Context `{indexerRunner} `{httpRuntime}.

(** A group whose goroutines are all done. *)
Lemma all_finished_inv g :
  all_finished g = true -> group_inv g -> exists ix ixr ht htr st str,
    g_indexer g = Finished ix ixr /\ g_http g = Finished ht htr /\ g_stopper g = Finished st str /\
    (exists c1 c2, before c1 c2 /\ before c2 (g_ctx g) /\ Run_returns c1 ix /\ ixr = indexer_result c2 ix) /\
    (exists c1 c2, before c1 c2 /\ before c2 (g_ctx g) /\ http_may c1 ht /\ htr = http_result c2 ht) /\
    g_ctx g <> CtxOpen /\ g_shutdown g = true /\ Shutdown_returns st /\ str = shutdown_result st.
Proof.
  unfold all_finished. intros Hf [Hix Hht Hst _].
  destruct (g_indexer g) as [| | | |ix ixr], (g_http g) as [| | | |ht htr], (g_stopper g) as [| | | |st str]; try done.
  exists ix, ixr, ht, htr, st, str. simpl in *. tauto.
Qed.

Lemma before_open c : before c CtxOpen -> c = CtxOpen.
Proof. by intros [->| ->]. Qed.

Lemma http_may_open ret c : c = CtxOpen -> http_may c ret -> ListenAndServe_returns false ret.
Proof. intros -> ([|] & Hsd & Hret); [by destruct Hsd|done]. Qed.

(** The outcome, with the indexer's own return and the context it was tested with. *)
Lemma group_outcome g :
  rtc gstep initial_group g -> all_finished g = true ->
  g_shutdown g = true /\
  match g_err g with
  | None => stopped_gracefully g
  | Some e => server_failure g e \/
      exists c1 c2 ix, before c1 c2 /\ before c2 (g_ctx g) /\ g_indexer g = Finished ix (indexer_result c2 ix) /\
        Run_returns c1 ix /\ indexer_result c2 ix = Some e
  end.
Proof.
  intros Hr Hf. pose proof (reachable_inv g Hr) as Hinv. pose proof (gi_error _ Hinv) as He.
  destruct (all_finished_inv g Hf Hinv) as (ix & ixr & ht & htr & st & str & Eix & Eht & Est &
    (c1 & c2 & Hb1 & Hb & Hrun & Hix) & (d1 & d2 & Hd1 & Hd & Hmay & Hht) & Hc & Hsd & _ & Hst).
  split; [done|]. unfold error_inv in He. rewrite Eix, Eht, Est in He. simpl in He. destruct (g_err g) as [e|].
  - destruct He as [_ [-> |[-> | ->]]].
    + right. exists c1, c2, ix. by rewrite <- Hix.
    + left. symmetry in Hht.
      apply http_result_Some in Hht as [[Hcl ->]|(e0 & ? & ? & ->)]; constructor; rewrite ?Eht; try done.
      destruct Hcl as [?|[? ->]]; [by left|right]. split; [done|]. apply (http_may_open ht d1); [by apply before_open|done].
    + left. symmetry in Hst. apply shutdown_result_Some in Hst as (e0 & ? & ? & ->). constructor; by rewrite ?Est.
  - destruct He as (-> & -> & -> & Hp). specialize (Hp Hc). symmetry in Hix, Hht, Hst.
    apply indexer_result_None in Hix as [Hc2 Hix]. apply http_result_None in Hht as [_ Hht].
    apply shutdown_result_None in Hst. destruct Hb as [->| ->]; [done|].
    split; rewrite ?Eix, ?Eht, ?Est, ?Hp; done.
Qed.

(** C27: What [runServices] returns, for every interleaving of the three goroutines and
    whatever the services do.  It returns only after the server's [Shutdown] was called.
    It returns nil only when the process's context is done, the indexer stopped because
    of it, and the server was closed by the shutdown; a failure of a service is never
    swallowed.  Any error it returns is that of one of the three goroutines and wraps
    what the service itself returned, and a graceful stop is never reported as an error:
    an indexer's error was returned while the context was open or is not the context's,
    and a closed server is reported only when it was closed without [Shutdown]. *)
Theorem run_services_result g :
  rtc gstep initial_group g -> all_finished g = true ->
  g_shutdown g = true /\
  match g_err g with None => stopped_gracefully g | Some e => indexer_failure g e \/ server_failure g e end.
Proof.
  intros Hr Hf. destruct (group_outcome g Hr Hf) as [Hsd Hout]. split; [done|]. destruct (g_err g) as [e|]; [|done].
  destruct Hout as [?|(c1 & c2 & ix & Hb1 & Hb & Eix & Hrun & He)]; [by right|]. left.
  apply indexer_result_Some in He as [(-> & -> & ->)|(e0 & -> & Hc & ->)]; constructor; rewrite ?Eix; try done.
  - by rewrite (before_open _ Hb1) in Hrun.
  - destruct Hc as [->|Hc]; [left; by rewrite (before_open _ Hb1) in Hrun|].
    destruct Hb as [->|<-]; [left; by rewrite (before_open _ Hb1) in Hrun|by right].
Qed.

(** Services that keep to the documented way of stopping. *)
Class graceful_services : Prop := {
  run_until_done c ret : Run_returns c ret -> c <> CtxOpen /\ (ret = None \/ is_ctx_err ret c = true);
  serve_until_closed sd ret : ListenAndServe_returns sd ret -> sd = true /\ is_err ret server_closed = true;
  shutdown_succeeds ret : Shutdown_returns ret -> ret = None
}.

(** C39: A graceful stop is clean: if the indexer returns only when its context is done, with
    that context's error or nil, the server only when it was shut down, with
    [http.ErrServerClosed], and the shutdown succeeds within its timeout, then
    [runServices] returns nil, for every interleaving. *)
Theorem run_services_graceful err : graceful_services -> runServices_returns err -> err = None.
Proof.
  intros Hgr (g & Hr & Hf & <-). pose proof (reachable_inv g Hr) as Hinv. pose proof (gi_error _ Hinv) as He.
  destruct (all_finished_inv g Hf Hinv) as (ix & ixr & ht & htr & st & str & Eix & Eht & Est &
    (c1 & c2 & Hb1 & Hb & Hrun & Hix) & (d1 & d2 & Hd1 & Hd & (sd & Hsd & Hserve) & Hht) & _ & _ & Hsh & Hst).
  apply run_until_done in Hrun as [Hc1 Hret]. apply serve_until_closed in Hserve as [-> Hclosed].
  apply shutdown_succeeds in Hsh as ->. specialize (Hsd eq_refl).
  unfold error_inv in He. rewrite Eix, Eht, Est in He. simpl in He. destruct (g_err g) as [e|]; [exfalso|done].
  destruct Hb1 as [->| ->], Hd1 as [->| ->]; try done.
  assert (ctx_done c2 = true) as Hc2 by (by destruct c2). assert (ctx_done d2 = true) as Hd2 by (by destruct d2).
  unfold indexer_result in Hix. unfold http_result in Hht. unfold server_closed in *.
  rewrite Hc2 in Hix. rewrite Hd2, Hclosed in Hht. simpl in Hix, Hht.
  destruct Hret as [->|Hret]; [|rewrite Hret, orb_true_r in Hix]; simpl in *; naive_solver.
Qed.
End Results.

(** ** It stops *)

Definition rank (t : goroutine) : nat :=
  match t with Blocked => 4 | Running => 3 | Returned _ => 2 | Resulted _ _ => 1 | Finished _ _ => 0 end.
Definition open_rank (c : ctx_state) : nat := if ctx_done c then 0 else 1.
(** The steps that can still be made. *)
Definition steps_left (g : group) : nat :=
  open_rank (g_parent g) + open_rank (g_ctx g) + rank (g_indexer g) + rank (g_http g) + rank (g_stopper g).

Section Liveness.
Context `{indexerRunner} `{httpRuntime}.

Lemma record_open_rank result g err ctx : record_result result g = (err, ctx) -> open_rank ctx <= open_rank (g_ctx g).
Proof. intros [-> | ->]%record_before; [destruct ctx; unfold open_rank; simpl; lia|done]. Qed.

Lemma gstep_decreases g g' : gstep g g' -> steps_left g' < steps_left g.
Proof.
  intros Hs. destruct Hs; unfold steps_left; simpl;
    try (match goal with Hr : record_result _ _ = _ |- _ => apply record_open_rank in Hr; simpl in Hr end);
    try (destruct c; [done|simpl..]); unfold open_rank in *; simpl in *; lia.
Qed.

Lemma nsteps_bounded n g g' : nsteps gstep n g g' -> n + steps_left g' <= steps_left g.
Proof. induction 1 as [|n x y z Hs _ IH]; [lia|]. apply gstep_decreases in Hs. lia. Qed.

(** What the services promise: the indexer returns once its context is done, the server
    once it is shut down, and the shutdown within its timeout. *)
Hypothesis Run_stops : forall c, c <> CtxOpen -> exists ret, Run_returns c ret.
Hypothesis ListenAndServe_stops : exists ret, ListenAndServe_returns true ret.
Hypothesis Shutdown_ends : exists ret, Shutdown_returns ret.

Definition progress (g : group) : Prop := exists g', gstep g g' /\ g_parent g' = g_parent g.

Lemma progress_to g g' : gstep g g' -> g_parent g' = g_parent g -> progress g.
Proof. by exists g'. Qed.

(** A goroutine that is back from its call goes on by itself. *)
Lemma indexer_waits g :
  progress g \/ g_indexer g = Blocked \/ g_indexer g = Running \/ finished (g_indexer g) = true.
Proof.
  destruct g as [p ctx err ix ht st sd]. destruct ix as [| |ret|ret r|ret r]; simpl; auto; left.
  - by eapply progress_to; [apply indexer_tests|].
  - destruct (record_result r (mkGroup p ctx err (Resulted ret r) ht st sd)) eqn:?.
    by eapply progress_to; [eapply indexer_recorded|].
Qed.

Lemma http_waits g : progress g \/ g_http g = Blocked \/ g_http g = Running \/ finished (g_http g) = true.
Proof.
  destruct g as [p ctx err ix ht st sd]. destruct ht as [| |ret|ret r|ret r]; simpl; auto; left.
  - by eapply progress_to; [apply http_tests|].
  - destruct (record_result r (mkGroup p ctx err ix (Resulted ret r) st sd)) eqn:?.
    by eapply progress_to; [eapply http_recorded|].
Qed.

Lemma stopper_waits g :
  group_inv g -> progress g \/ (g_stopper g = Blocked /\ g_ctx g = CtxOpen /\ g_shutdown g = false) \/
  (finished (g_stopper g) = true /\ g_shutdown g = true /\ g_ctx g <> CtxOpen).
Proof.
  intros [_ _ Hst _]. destruct g as [p ctx err ix ht st sd]. destruct st as [| |ret|ret r|ret r]; simpl in *; try done.
  - destruct (ctx_done ctx) eqn:Hc; [left|right; left; by destruct ctx].
    eapply progress_to; [apply stopper_wakes|done]. by intros ->.
  - left. destruct Shutdown_ends. by eapply progress_to; [apply shutdown_returns|].
  - left. destruct (record_result r (mkGroup p ctx err ix ht (Resulted ret r) sd)) eqn:?.
    by eapply progress_to; [eapply stopper_recorded|].
  - naive_solver.
Qed.

(** A goroutine that ended while the context was open reported an error. *)
Lemma finished_open may result t :
  (forall c ret, result c ret = None -> c <> CtxOpen) -> service_inv may result CtxOpen t -> reported t = None ->
  finished t = false.
Proof.
  intros Hres Hi Hr. destruct t as [| | | |ret r]; try done. simpl in *.
  destruct Hi as (c1 & c2 & _ & Hb & _ & Heq). rewrite Hr in Heq. symmetry in Heq. apply Hres in Heq.
  by destruct Hb.
Qed.

Lemma finished_needs_done g :
  group_inv g -> g_ctx g = CtxOpen -> finished (g_indexer g) = false /\ finished (g_http g) = false.
Proof.
  intros [Hix Hht _ He] Hc. unfold error_inv in He. rewrite Hc in *.
  destruct (g_err g) as [e|]; [by destruct He|]. destruct He as (Hi & Hh & _).
  split; [eapply (finished_open _ indexer_result)|eapply (finished_open _ http_result)]; try done.
  - by intros c ret [? _]%indexer_result_None.
  - by intros c ret [? _]%http_result_None.
Qed.

Lemma services_progress g :
  group_inv g -> all_finished g = true \/ progress g \/
  g_parent g = CtxOpen /\ g_ctx g = CtxOpen /\ g_indexer g = Running /\ g_http g = Running /\ g_shutdown g = false.
Proof.
  intros Hinv. pose proof (finished_needs_done g Hinv) as Hopen.
  pose proof (gi_indexer _ Hinv) as Ii. pose proof (gi_http _ Hinv) as Ih.
  destruct (indexer_waits g) as [?|[Ei|[Ei|Ei]]]; [by auto|by rewrite Ei in Ii| |];
  (destruct (http_waits g) as [?|[Eh|[Eh|Eh]]]; [by auto|by rewrite Eh in Ih| |]);
  (destruct (stopper_waits g Hinv) as [?|[(Es & Ec & Esd)|(Es & Esd & Ec)]]; [by auto| |]).
  all: try (destruct (Hopen Ec); congruence).
  - destruct g as [p ctx err ix ht st sd]; simpl in *; subst. right. destruct p; [right; by split_and!|left..];
      by eapply progress_to; [apply parent_propagates|].
  - destruct g as [p ctx err ix ht st sd]; simpl in *; subst. destruct (Run_stops ctx Ec).
    right; left. by eapply progress_to; [apply indexer_returns|].
  - destruct g as [p ctx err ix ht st sd]; simpl in *; subst. destruct (Run_stops ctx Ec).
    right; left. by eapply progress_to; [apply indexer_returns|].
  - destruct g as [p ctx err ix ht st sd]; simpl in *; subst. destruct ListenAndServe_stops.
    right; left. by eapply progress_to; [apply http_returns|].
  - left. unfold all_finished. by rewrite Ei, Eh, Es.
Qed.

(** C29: [runServices] stops.  Every execution has at most twelve steps, and as long as
    [Wait] has not returned there is a next one, except when nothing asks for a stop: the
    process's context is open and the indexer and the server are both still running.  So
    a cancelled context, and any return of one service, takes all of them down. *)
Theorem run_services_stops g :
  rtc gstep initial_group g ->
  (forall n g', nsteps gstep n initial_group g' -> (n <= 12)%nat) /\
  (all_finished g = true \/ progress g \/
   g_parent g = CtxOpen /\ g_ctx g = CtxOpen /\ g_indexer g = Running /\ g_http g = Running /\ g_shutdown g = false).
Proof.
  intros Hr. split.
  { intros n g' Hn%nsteps_bounded. unfold steps_left in Hn. simpl in Hn. lia. }
  apply services_progress, reachable_inv, Hr.
Qed.
End Liveness.

(** ** Evaluation *)
Section Evaluation.
(** Services that stop as documented. *)
#[local] Instance polite_indexer : indexerRunner := fun c ret => c <> CtxOpen /\ ret = ctx_Err c.
#[local] Instance polite_server : httpRuntime := {|
  ListenAndServe_returns sd ret := sd = true /\ ret = Some (foreign_err HttpErrServerClosed);
  Shutdown_returns ret := ret = None
|}.

Definition cancelled : option error := Some (foreign_err ContextCanceled).
Definition closed : option error := Some (foreign_err HttpErrServerClosed).
Definition stopped_group : group :=
  mkGroup CtxCanceled CtxCanceled None (Finished cancelled None) (Finished closed None) (Finished None None) true.

(** The process is cancelled: the server is shut down, then the indexer returns. *)
Lemma stopped_group_reachable (run : indexerRunner) (server : httpRuntime) :
  Run_returns CtxCanceled cancelled -> ListenAndServe_returns true closed -> Shutdown_returns None ->
  rtc gstep initial_group stopped_group.
Proof.
  intros Hrun Hserve Hshut.
  eapply rtc_l; [by apply (parent_done CtxCanceled)|]. eapply rtc_l; [by apply parent_propagates|].
  eapply rtc_l; [by apply stopper_wakes|]. eapply rtc_l; [by apply http_returns|].
  eapply rtc_l; [by apply http_tests|]. eapply rtc_l; [by eapply http_recorded|].
  eapply rtc_l; [by apply shutdown_returns|]. eapply rtc_l; [by eapply stopper_recorded|].
  eapply rtc_l; [by apply indexer_returns|]. eapply rtc_l; [by apply indexer_tests|].
  eapply rtc_l; [by eapply indexer_recorded|]. apply rtc_refl.
Qed.

Lemma polite_stop : rtc gstep initial_group stopped_group.
Proof. by apply stopped_group_reachable. Qed.

#[local] Instance polite_graceful : graceful_services.
Proof.
  split.
  - intros c ret [Hc ->]. split; [done|]. right. by destruct c.
  - by intros sd ret [-> ->].
  - done.
Qed.

Lemma run_services_result_witness : g_err stopped_group = None /\ stopped_gracefully stopped_group.
Proof. split; [reflexivity|]. exact (proj2 (run_services_result stopped_group polite_stop eq_refl)). Defined.

Lemma run_services_graceful_witness : runServices_returns None /\ ~ runServices_returns closed.
Proof.
  split; [exists stopped_group; split; [apply polite_stop|done]|].
  intros Hr. apply (run_services_graceful closed polite_graceful) in Hr. discriminate Hr.
Defined.

Lemma polite_run_stops c : c <> CtxOpen -> exists ret, Run_returns c ret.
Proof. intros Hc. by exists (ctx_Err c). Qed.
Lemma polite_serve_stops : exists ret, ListenAndServe_returns true ret.
Proof. by exists closed. Qed.
Lemma polite_shutdown_ends : exists ret, Shutdown_returns ret.
Proof. by exists None. Qed.

(** The state after the context was cancelled: the group goes on. *)
Lemma run_services_stops_witness :
  progress (mkGroup CtxCanceled CtxOpen None Running Running Blocked false).
Proof.
  destruct (run_services_stops polite_run_stops polite_serve_stops polite_shutdown_ends
    (mkGroup CtxCanceled CtxOpen None Running Running Blocked false)) as [_ [Hf|[Hp|[Hopen _]]]].
  - apply rtc_once. by apply parent_done.
  - discriminate Hf.
  - exact Hp.
  - discriminate Hopen.
Defined.

(** A server that cannot listen ends the group with its error, and stops the indexer. *)
Example failing_server_result :
  http_result CtxOpen (Some (Errorf "address already in use" [])) =
    Some (wrapf "serve HTTP: %w" (Errorf "address already in use" [])) /\
  record_result (Some (Errorf "x" [])) (mkGroup CtxOpen CtxOpen None Running Running Blocked false) =
    (Some (Errorf "x" []), CtxCanceled).
Proof. split; reflexivity. Qed.
End Evaluation.
