(* ===== verification/Main.v ===== *)
(** * The process: [cmd/indexer/main.go], with [store.OpenPostgres]

    [run] parses the arguments, loads the configuration, opens the database pool and the
    RPC client, checks the network and runs the services.  It is an action on a trace of
    the resources it opens and closes; [defer] appends its call on every exit.  The
    command line follows the standard library's [flag] package. *)
From S2P Require Import Prelude Errors Domain Validate Store Fixtures Memory Fetcher Ranger Syncer SyncerProofs Endpoint Runner Cursor Config Client Runtime.
From stdpp Require Import prelude list strings relations.
From Stdlib Require Import ZArith Lia Strings.Byte.

Local Open Scope Z_scope.

(** ** Arguments *)

Definition configPathFromEnvironment (getenv : Environment) : go_string :=
  let path := getenv "CONFIG_FILE" in
  if bool_decide (path = []) then str "configs/config.example.yaml" else path.

(** The name and the value of [name=value]; the equals sign cannot be first. *)
Fixpoint split_equals (name : go_string) : go_string * option go_string :=
  match name with
  | [] => ([], None)
  | c :: rest =>
      if Byte.eqb c "=" then ([], Some rest)
      else let '(n, v) := split_equals rest in (c :: n, v)
  end.

Definition flag_failure (message : string) : error := Errorf message [].

(** [FlagSet.Parse] for a set with the one string flag [config]: the value of the flag and
    the arguments that are left. *)
Fixpoint flags_Parse (value : go_string) (args : list go_string) : result (go_string * list go_string) :=
  match args with
  | [] => Ok (value, [])
  | s :: rest =>
      match s with
      | "-"%byte :: c :: _ =>
          if bool_decide (s = str "--") then Ok (value, rest)
          else
            let name := if Byte.eqb c "-" then drop 2 s else drop 1 s in
            match name with
            | [] => Err (flag_failure "bad flag syntax: %s")
            | first :: others =>
                if Byte.eqb first "-" || Byte.eqb first "=" then Err (flag_failure "bad flag syntax: %s")
                else
                  let '(tail, given) := split_equals others in
                  let name := first :: tail in
                  if bool_decide (name = str "config") then
                    match given, rest with
                    | Some v, _ => flags_Parse v rest
                    | None, v :: rest' => flags_Parse v rest'
                    | None, [] => Err (flag_failure "flag needs an argument: -%s")
                    end
                  else if bool_decide (name = str "help") || bool_decide (name = str "h")
                       then Err (foreign_err FlagErrHelp)
                       else Err (flag_failure "flag provided but not defined: -%s")
            end
      | _ => Ok (value, args)
      end
  end.

(** ** Resources *)

(** [store.PostgresOptions] *)
Record PostgresOptions := mkPostgresOptions {
  Options_URL : go_string;
  Options_MaxConnections : Z;
  Options_MinConnections : Z;
  Options_ConnectTimeout : Duration
}.

(** [*pgxpool.Config] as the code changes it. *)
Record PoolConfig (Base : Type) := mkPoolConfig {
  pool_base : Base;
  pool_MaxConns : Z;
  pool_MinConns : Z;
  pool_ConnectTimeout : Duration
}.
Arguments mkPoolConfig {Base}.
Arguments pool_base {Base}.

(** The [http.Server] and the request timeout of its handler. *)
Record HTTPServer := mkHTTPServer {
  Server_Addr : go_string;
  Server_RequestTimeout : Duration;
  Server_ReadHeaderTimeout : Duration;
  Server_IdleTimeout : Duration
}.

Inductive resource_event :=
| PoolCreated | PoolClosed | RPCDialed | RPCClosed
| ServicesRun (syncer : Syncer) (server : HTTPServer) (shutdownTimeout : Duration).

(** What the process meets outside: the environment, the file, the drivers, the clock, and
    what [runServices] returns. *)
Class ProcessEnv := {
  pe_Getenv : Environment;
  pe_ParseRequestURI : go_string -> reply URL;
  pe_Decoder : Type;
  pe_Open : go_string -> reply pe_Decoder;
  pe_Decode : pe_Decoder -> ServiceConfig -> reply ServiceConfig * pe_Decoder;
  pe_DecodeExtra : pe_Decoder -> option error;
  (** [zerolog.ParseLevel] of [strings.ToLower]. *)
  pe_ToLower : go_string -> go_string;
  pe_ParseLevel : go_string -> reply Z;
  pe_Base : Type;
  pe_ParseConfig : go_string -> reply (PoolConfig pe_Base);
  pe_NewWithConfig : PoolConfig pe_Base -> reply unit;
  pe_Ping : Context -> reply unit;
  pe_DialContext : Context -> go_string -> reply unit;
  (** The dialled client and the world when the network is checked. *)
  pe_World : Type;
  pe_rpc : rpcClient pe_World;
  pe_world : pe_World;
  (** The time of the ping and of the dial. *)
  pe_ping_time : Z;
  pe_dial_time : Z;
  pe_runServices : Syncer -> HTTPServer -> Duration -> option error
}.

(** [zerolog.Logger] as far as [NewLogger] sets it up. *)
Record Logger := mkLogger { Logger_console : bool; Logger_level : Z }.

#[export] Existing Instance pe_rpc.

Section Process.
Context `{ProcessEnv}.
Local Open Scope action_scope.

Abbreviation Trace := (list resource_event).
Definition emit (e : resource_event) : action Trace unit := fun t => (Ok tt, t ++ [e]).
(** [defer close()] around the rest of the function. *)
Definition deferred {A} (close : resource_event) (body : action Trace A) : action Trace A :=
  fun t => let '(r, t') := body t in (r, t' ++ [close]).

Definition NewLogger (environment level : go_string) : result Logger :=
  parsedLevel ← map_err (wrapf "parse log level: %w") (of_reply (pe_ParseLevel (pe_ToLower level)));
  Ok (mkLogger (bool_decide (environment = str "development")) parsedLevel).

Definition OpenPostgres (ctx : Context) (options : PostgresOptions) : action Trace unit :=
  poolConfig <-- act_lift (map_err (wrapf "parse postgres config: %w") (of_reply (pe_ParseConfig (Options_URL options))));;
  let poolConfig := mkPoolConfig (pool_base poolConfig) (Options_MaxConnections options)
                      (Options_MinConnections options) (Options_ConnectTimeout options) in
  do! act_lift (map_err (wrapf "create postgres pool: %w") (of_reply (pe_NewWithConfig poolConfig)));;
  do! emit PoolCreated;;
  let pingCtx := WithTimeout (pe_ping_time) ctx (Options_ConnectTimeout options) in
  match pe_Ping pingCtx with
  | inr err => do! emit PoolClosed;; act_err (wrapf "ping postgres: %w" err)
  | inl _ => act_ret tt
  end.

Definition syncer_of (cfg : ServiceConfig) : Syncer :=
  let chainID := Ethereum_ChainID (Config_Ethereum cfg) in
  mkSyncer (Some (Some chainID)) true true
    (mkConfig chainID (Indexer_PollInterval (Config_Indexer cfg)) (Indexer_BlockWindow (Config_Indexer cfg))
       (Indexer_HeadMode (Config_Indexer cfg)) (Ethereum_RPCTimeout (Config_Ethereum cfg))
       (Ethereum_RPCConcurrency (Config_Ethereum cfg)) (Indexer_RetryAttempts (Config_Indexer cfg))
       (Indexer_RetryMinBackoff (Config_Indexer cfg)) (Indexer_RetryMaxBackoff (Config_Indexer cfg))).

Definition server_of (cfg : ServiceConfig) : HTTPServer :=
  mkHTTPServer (HTTP_Address (Config_HTTP cfg)) (HTTP_RequestTimeout (Config_HTTP cfg))
    (HTTP_ReadHeaderTimeout (Config_HTTP cfg)) (HTTP_IdleTimeout (Config_HTTP cfg)).

(** From the check of the network to the end of the services. *)
Definition run_connected (ctx : Context) (cfg : ServiceConfig) : action Trace unit :=
  do! act_map_err (wrapf "validate Ethereum network: %w")
        (act_lift (ValidateChainID (Ethereum_RPCTimeout (Config_Ethereum cfg)) ctx
                     (Ethereum_ChainID (Config_Ethereum cfg)) pe_world).1);;
  let syncer := syncer_of cfg in
  let server := server_of cfg in
  let shutdownTimeout := HTTP_ShutdownTimeout (Config_HTTP cfg) in
  do! emit (ServicesRun syncer server shutdownTimeout);;
  act_lift (match pe_runServices syncer server shutdownTimeout with Some err => Err err | None => Ok tt end).

Definition loadConfig (path : go_string) : result ServiceConfig :=
  Load pe_ParseRequestURI pe_Open pe_Decode pe_DecodeExtra pe_Getenv path.

Definition run (ctx : Context) (args : list go_string) : action Trace unit :=
  match flags_Parse (configPathFromEnvironment pe_Getenv) args with
  | Err err =>
      if errors_Is err (ForeignSentinel FlagErrHelp) then act_ret tt
      else act_err (wrapf "parse arguments: %w" err)
  | Ok (configPath, remaining) =>
      if bool_decide (length remaining <> 0%nat) then act_err (Errorf "unexpected arguments: %s" [])
      else
        cfg <-- act_lift (map_err (wrapf "load configuration: %w") (loadConfig configPath));;
        logger <-- act_lift (map_err (wrapf "configure logger: %w")
                     (NewLogger (App_Environment (Config_App cfg)) (App_LogLevel (Config_App cfg))));;
        do! act_map_err (wrapf "connect to PostgreSQL: %w")
              (OpenPostgres ctx (mkPostgresOptions (Database_URL (Config_Database cfg))
                 (Database_MaxConnections (Config_Database cfg)) (Database_MinConnections (Config_Database cfg))
                 (Database_ConnectTimeout (Config_Database cfg))));;
        deferred PoolClosed
          (do! act_map_err (wrapf "connect to Ethereum RPC: %w")
                 (act_lift (Dial pe_DialContext pe_dial_time ctx (Ethereum_RPCURL (Config_Ethereum cfg))
                    (Ethereum_RPCTimeout (Config_Ethereum cfg))));;
           do! emit RPCDialed;;
           deferred RPCClosed (run_connected ctx cfg))
  | Panic msg => act_lift (Panic msg)
  | OutOfFuel => act_lift OutOfFuel
  end.

(** [main]: the exit status. *)
Definition main_status (ctx : Context) (args : list go_string) : Z :=
  match (run ctx args []).1 with Ok _ => 0 | _ => 1 end.
End Process.

(** ** A loaded configuration is one the services accept *)

Lemma syncer_of_accepted ParseRequestURI cfg :
  valid_config ParseRequestURI cfg -> validateRunConfig (syncer_of cfg) = Ok tt.
Proof.
  intros Hv. unfold validateRunConfig, validateSyncOnceConfig. simpl.
  rewrite (vc_chain_id _ _ Hv). apply bind_Ok_iff. exists tt. rewrite !bind_reject_iff, !reject_if_Ok.
  pose proof (vc_poll_interval _ _ Hv). pose proof (vc_rpc_concurrency _ _ Hv). pose proof (vc_block_window _ _ Hv).
  pose proof (vc_retry_attempts _ _ Hv). pose proof (vc_backoff _ _ Hv).
  rewrite (proj2 (head_mode_bad _) (vc_head_mode _ _ Hv)). bool_iff. unfold chain_id_mismatch. bool_iff. simpl.
  split_and!; (done || lia).
Qed.

Section Lifecycle.
Context `{ProcessEnv}.

(** Dialling can only fail in the driver. *)
Lemma Dial_valid cfg ctx :
  valid_config pe_ParseRequestURI cfg ->
  Dial pe_DialContext pe_dial_time ctx (Ethereum_RPCURL (Config_Ethereum cfg)) (Ethereum_RPCTimeout (Config_Ethereum cfg)) =
  map_err (wrapf "dial ethereum RPC: %w")
    (of_reply (pe_DialContext (WithTimeout pe_dial_time ctx (Ethereum_RPCTimeout (Config_Ethereum cfg)))
                 (Ethereum_RPCURL (Config_Ethereum cfg)))).
Proof.
  intros Hv. unfold Dial. rewrite (url_present _ _ _ (vc_rpc_url _ _ Hv)).
  pose proof (vc_rpc_timeout _ _ Hv). rewrite (proj2 (Z.leb_gt _ _)) by lia. done.
Qed.

(** The pool is left open exactly when the call succeeds. *)
Lemma OpenPostgres_trace ctx options t :
  let '(r, t') := OpenPostgres ctx options t in
  (r = Ok tt /\ t' = t ++ [PoolCreated]) \/ (exists e, r = Err e /\ (t' = t \/ t' = t ++ [PoolCreated; PoolClosed])).
Proof.
  unfold OpenPostgres, act_bind, act_lift, emit, act_err, act_ret.
  destruct (pe_ParseConfig _); simpl; [|eauto]. destruct (pe_NewWithConfig _); simpl; [|eauto].
  destruct (pe_Ping _); [by auto|]. right. eexists. split; [done|]. right. by rewrite <- app_assoc.
Qed.

(** The services ran on configuration [cfg]. *)
Record served (ctx : Context) (args : list go_string) (cfg : ServiceConfig) : Prop := {
  sv_path : exists path, flags_Parse (configPathFromEnvironment pe_Getenv) args = Ok (path, []) /\ loadConfig path = Ok cfg;
  sv_valid : valid_config pe_ParseRequestURI cfg;
  sv_network : (Client_ChainID (Ethereum_RPCTimeout (Config_Ethereum cfg)) ctx pe_world).1 = Ok (Some 1);
  sv_accepted : validateRunConfig (syncer_of cfg) = Ok tt
}.

Definition services_event (cfg : ServiceConfig) : resource_event :=
  ServicesRun (syncer_of cfg) (server_of cfg) (HTTP_ShutdownTimeout (Config_HTTP cfg)).
Definition services_outcome (cfg : ServiceConfig) : result unit :=
  match pe_runServices (syncer_of cfg) (server_of cfg) (HTTP_ShutdownTimeout (Config_HTTP cfg)) with
  | Some err => Err err
  | None => Ok tt
  end.

Hypothesis ChainID_returns : forall timeout ctx, returns (Client_ChainID timeout ctx pe_world).1.

Lemma run_connected_trace ctx cfg t :
  valid_config pe_ParseRequestURI cfg ->
  let '(r, t') := run_connected ctx cfg t in
  (exists e, r = Err e /\ t' = t) \/
  (r = services_outcome cfg /\ t' = t ++ [services_event cfg] /\
   (Client_ChainID (Ethereum_RPCTimeout (Config_Ethereum cfg)) ctx pe_world).1 = Ok (Some 1)).
Proof.
  intros Hv. unfold run_connected, act_bind, act_map_err, act_lift, emit.
  rewrite (vc_chain_id _ _ Hv). set (d := Ethereum_RPCTimeout _).
  pose proof (ValidateChainID_errs d ctx 1 pe_world (ChainID_returns d ctx)) as He.
  destruct (ValidateChainID d ctx 1 pe_world) as [r w'] eqn:Hc. destruct r as [[]|e|m|]; simpl in *; try done; [|eauto].
  right. apply ValidateChainID_Ok in Hc; [|done]. by rewrite Hc.
Qed.

(** The arguments name a file that loads. *)
Definition configured (args : list go_string) : Prop :=
  exists path cfg, flags_Parse (configPathFromEnvironment pe_Getenv) args = Ok (path, []) /\ loadConfig path = Ok cfg.

(** How a run of the process can go. *)
Inductive run_outcome (ctx : Context) (args : list go_string) : result unit -> list resource_event -> Prop :=
| run_help e :
    flags_Parse (configPathFromEnvironment pe_Getenv) args = Err e -> errors_Is e (ForeignSentinel FlagErrHelp) = true ->
    run_outcome ctx args (Ok tt) []
| run_refused e t :
    t = [] \/ configured args /\
      (t = [PoolCreated; PoolClosed] \/ t = [PoolCreated; RPCDialed; RPCClosed; PoolClosed]) ->
    run_outcome ctx args (Err e) t
| run_served cfg :
    served ctx args cfg ->
    run_outcome ctx args (services_outcome cfg) [PoolCreated; RPCDialed; services_event cfg; RPCClosed; PoolClosed].

Lemma flags_Parse_returns n : forall value args, (length args <= n)%nat -> returns (flags_Parse value args).
Proof.
  induction n as [|n IH]; intros value [|s rest] Hn; simpl in Hn; try done; try lia.
  cbn [flags_Parse]. destruct s as [|[] [|c ?]]; try done. case_bool_decide; [done|]. cbv zeta.
  destruct (if Byte.eqb c _ then _ else _) as [|first others]; [done|]. destruct (_ || _); [done|].
  destruct (split_equals others) as [tail given]. case_bool_decide; [|by destruct (_ || _)].
  destruct given; [apply IH; lia|]. destruct rest; [done|]. apply IH. simpl in Hn. lia.
Qed.

Lemma loadConfig_valid path cfg : loadConfig path = Ok cfg -> valid_config pe_ParseRequestURI cfg.
Proof. unfold loadConfig. rewrite Load_Ok. naive_solver. Qed.

Lemma loadConfig_returns path : returns (loadConfig path).
Proof.
  unfold loadConfig, Load. destruct (pe_Open path) as [d|]; [simpl|done].
  destruct (pe_Decode d Default) as [[] d']; [simpl|done].
  destruct (pe_DecodeExtra d'); [|done]. destruct (errors_Is _ _); [|done]. by destruct (ServiceConfig_Validate _ _).
Qed.

(** After the pool was opened. *)
Definition run_with_pool (ctx : Context) (cfg : ServiceConfig) : action (list resource_event) unit :=
  deferred PoolClosed
    (act_bind (act_map_err (wrapf "connect to Ethereum RPC: %w")
       (act_lift (Dial pe_DialContext pe_dial_time ctx (Ethereum_RPCURL (Config_Ethereum cfg))
          (Ethereum_RPCTimeout (Config_Ethereum cfg)))))
       (fun _ => act_bind (emit RPCDialed) (fun _ => deferred RPCClosed (run_connected ctx cfg)))).

Lemma run_with_pool_outcome ctx args path cfg :
  flags_Parse (configPathFromEnvironment pe_Getenv) args = Ok (path, []) -> loadConfig path = Ok cfg ->
  let '(r, t) := run_with_pool ctx cfg [PoolCreated] in run_outcome ctx args r t.
Proof.
  intros Hf Hl. pose proof (loadConfig_valid _ _ Hl) as Hv. assert (configured args) by by exists path, cfg.
  unfold run_with_pool, deferred, act_bind, act_map_err, act_lift, emit. rewrite Dial_valid by done.
  destruct (pe_DialContext _ _); simpl; [|apply run_refused; by auto].
  pose proof (run_connected_trace ctx cfg [PoolCreated; RPCDialed] Hv) as Hc.
  destruct (run_connected ctx cfg _) as [r t]. destruct Hc as [(e & -> & ->)|(-> & -> & Hid)]; simpl.
  - apply run_refused. by auto.
  - apply run_served. split; eauto using syncer_of_accepted.
Qed.

(** Everything the process depends on works. *)
Record dependencies_up (ctx : Context) (cfg : ServiceConfig) : Prop := {
  du_level : exists l, pe_ParseLevel (pe_ToLower (App_LogLevel (Config_App cfg))) = inl l;
  du_pool : exists base, pe_ParseConfig (Database_URL (Config_Database cfg)) = inl base /\
    pe_NewWithConfig (mkPoolConfig (pool_base base) (Database_MaxConnections (Config_Database cfg))
      (Database_MinConnections (Config_Database cfg)) (Database_ConnectTimeout (Config_Database cfg))) = inl tt;
  du_ping : pe_Ping (WithTimeout pe_ping_time ctx (Database_ConnectTimeout (Config_Database cfg))) = inl tt;
  du_dial : pe_DialContext (WithTimeout pe_dial_time ctx (Ethereum_RPCTimeout (Config_Ethereum cfg)))
              (Ethereum_RPCURL (Config_Ethereum cfg)) = inl tt;
  du_network : (Client_ChainID (Ethereum_RPCTimeout (Config_Ethereum cfg)) ctx pe_world).1 = Ok (Some 1)
}.

Lemma run_starts ctx args path cfg :
  flags_Parse (configPathFromEnvironment pe_Getenv) args = Ok (path, []) -> loadConfig path = Ok cfg ->
  dependencies_up ctx cfg -> (run ctx args []).1 = services_outcome cfg.
Proof.
  intros Hf Hl [[l Hlv] [base [Hb Hn]] Hp Hd Hc]. pose proof (loadConfig_valid _ _ Hl) as Hv.
  unfold run. rewrite Hf. cbn [length]. rewrite bool_decide_false by (by intros []).
  unfold NewLogger, OpenPostgres, run_connected, deferred, act_bind, act_map_err, act_lift, emit, act_ret.
  rewrite Hl. simpl. rewrite Hlv. simpl. rewrite Hb. simpl. rewrite Hn. simpl. rewrite Hp. simpl.
  rewrite Dial_valid, Hd by done. simpl. rewrite (vc_chain_id _ _ Hv).
  destruct (Client_ChainID _ ctx pe_world) as [rc wc] eqn:Hcid. simpl in Hc. subst rc.
  rewrite (proj2 (ValidateChainID_Ok _ ctx 1 pe_world wc ltac:(done)) Hcid). done.
Qed.

(** C30: The life of the process.  For any arguments, environment, file and behaviour of the
    drivers, [run] ends in one of three ways: it was asked for help and touches nothing;
    it refuses to start, with an error; or it runs the services and returns what they
    return.  In every case what was opened is closed once, the RPC client before the
    pool, and nothing is opened before the configuration was accepted.  The services run
    only on a valid configuration, which the indexer's own checks accept, and on an
    endpoint that reported chain ID 1; and they do run when the arguments are fine, the
    configuration loads and every dependency works. *)
Theorem run_lifecycle ctx args :
  (let '(r, t) := run ctx args [] in run_outcome ctx args r t) /\
  forall path cfg,
    flags_Parse (configPathFromEnvironment pe_Getenv) args = Ok (path, []) -> loadConfig path = Ok cfg ->
    dependencies_up ctx cfg -> (run ctx args []).1 = services_outcome cfg.
Proof.
  split; [|apply run_starts].
  unfold run. pose proof (flags_Parse_returns (length args) (configPathFromEnvironment pe_Getenv) args (le_n _)) as Hret.
  destruct (flags_Parse _ args) as [[path remaining]|e|m|] eqn:Hf; try done.
  2: { destruct (errors_Is e _) eqn:He; [by eapply run_help|apply run_refused; by auto]. }
  case_bool_decide as Hn; [apply run_refused; by auto|]. destruct remaining; [|done].
  pose proof (loadConfig_returns path) as Hlr. destruct (loadConfig path) as [cfg|e|m|] eqn:Hl; try done;
    [|apply run_refused; by auto].
  unfold act_bind at 1, act_lift at 1. simpl. unfold NewLogger, act_bind at 1, act_lift at 1.
  destruct (pe_ParseLevel _); simpl; [|apply run_refused; by auto]. unfold act_bind at 1, act_map_err at 1.
  match goal with |- context [OpenPostgres ctx ?o []] => pose proof (OpenPostgres_trace ctx o []) as Hp end.
  destruct (OpenPostgres _ _ _) as [r t]. destruct Hp as [[-> ->]|(e & -> & Ht)]; simpl.
  - by apply (run_with_pool_outcome ctx args path cfg).
  - apply run_refused. assert (configured args) by by exists path, cfg. naive_solver.
Qed.
End Lifecycle.

(** ** The synchronizer as the group's indexer *)
Section Composition.
Context {W : Type} (sy : Syncer) (sync : action W SyncResult) (ctx : W -> ctx_state)
  (elapse : Z -> W -> W) (timer_chosen : W -> bool) (w0 : W) `{httpRuntime}.
Abbreviation wait := (waitFor ctx elapse timer_chosen).

(** [Syncer.Run]: it returns an error, with its context in the state it has then. *)
Definition syncer_runner : indexerRunner := fun c ret =>
  exists n e w, Syncer_run sy sync wait ctx n w0 = (Exited e, w) /\ ctx w = c /\ ret = Some e.

Hypothesis sync_returns : forall w, returns (sync w).1.
Hypothesis config_accepted : validateRunConfig sy = Ok tt.
Hypothesis attempts_nonneg : 0 <= Config_RetryAttempts (sy_config sy).

(** The error of a failed start. *)
Definition initial_failure (e : error) : Prop :=
  exists err, e = wrapf "initial synchronization: %w" err /\ (syncWithRetry sy sync wait ctx w0).1 = Err err.

Lemma syncer_exits n : forall e w,
  Syncer_run sy sync wait ctx n w0 = (Exited e, w) -> ctx_Err (ctx w) = Some e \/ initial_failure e.
Proof.
  induction n as [|n IH]; intros e w; [done|]. cbn [Syncer_run].
  destruct (Syncer_run sy sync wait ctx n w0) as [p w1] eqn:Hn.
  assert (p <> Crashed) as Hp.
  { clear IH. revert p w1 Hn. induction n as [|n IH]; intros p w1 Hn; [by injection Hn as <- <-|].
    cbn [Syncer_run] in Hn. destruct (Syncer_run sy sync wait ctx n w0) as [p0 w2]. specialize (IH p0 w2 eq_refl).
    pose proof (step_exits sy sync wait ctx sync_returns (waitFor_returns ctx elapse timer_chosen)
      (waitFor_ctx ctx elapse timer_chosen) attempts_nonneg p0 w2 IH) as Hs. rewrite Hn in Hs. apply Hs. }
  pose proof (step_exits sy sync wait ctx sync_returns (waitFor_returns ctx elapse timer_chosen)
    (waitFor_ctx ctx elapse timer_chosen) attempts_nonneg p w1 Hp) as Hs.
  intros He. rewrite He in Hs. destruct Hs as [_ Hs]. specialize (Hs e eq_refl). destruct p as [| |e0|]; simpl in Hs.
  - destruct Hs as [[Hv _]|[Hc|(err & Hr & ->)]]; [congruence|by left|]. right. exists err. split; [done|].
    replace w1 with w0 in Hr; [by rewrite Hr|]. destruct n as [|n]; [by injection Hn|].
    cbn [Syncer_run] in Hn. exfalso. destruct (Syncer_run sy sync wait ctx n w0) as [p0 w2].
    unfold run_step, exit_with in Hn. destruct p0; repeat case_match; simplify_eq/=.
  - by left.
  - injection Hs as ->. injection He as <-. by eapply IH.
  - done.
Qed.

#[local] Existing Instance syncer_runner.

(** C28: The indexer and the HTTP server as one process.  Run on a configuration its checks
    accept, the process ends cleanly only after its context is done, with the server shut
    down; it ends with an error only when the initial synchronization failed, or the
    server failed or could not be shut down in time.  A synchronization cycle that fails
    later never ends it, and the indexer never stops silently. *)
Theorem process_result g :
  rtc gstep initial_group g -> all_finished g = true ->
  match g_err g with
  | None => stopped_gracefully g
  | Some e => server_failure g e \/ exists e0, e = wrapf "run indexer: %w" e0 /\ initial_failure e0
  end.
Proof.
  intros Hr Hf. destruct (group_outcome g Hr Hf) as [_ Hout]. destruct (g_err g) as [e|]; [|done].
  destruct Hout as [?|(c1 & c2 & ix & Hb & _ & _ & (n & e0 & w & Hrun & <- & ->) & He)]; [by left|]. right.
  exists e0. apply syncer_exits in Hrun as [Hc|Hi].
  - exfalso. unfold indexer_result, ctx_Err in *. destruct Hb as [Hb|<-]; [by rewrite Hb in Hc|].
    destruct (ctx w); [done|injection Hc as <-; done..].
  - split; [|done]. by apply indexer_result_Some in He as [[? _]|(e1 & [= <-] & _ & ->)].
Qed.
End Composition.

(** ** Evaluation *)
Section Evaluation.
#[local] Instance example_rpc (id : Z) : rpcClient unit := {|
  rpc_ChainID _ := act_ret (Some id);
  rpc_BlockNumber _ := act_ret 0;
  rpc_BlockByNumber _ _ := act_ret None;
  rpc_HeaderByNumber _ _ := act_ret None;
  rpc_FilterLogs _ _ := act_ret [];
  rpc_now _ := 0
|}.

(** A machine where everything works and the endpoint reports chain [id]. *)
Definition example_env (id : Z) : ProcessEnv := {|
  pe_Getenv _ := [];
  pe_ParseRequestURI := simple_url;
  pe_Decoder := unit;
  pe_Open path := if bool_decide (path = str "indexer.yaml") then inl tt else inr (Errorf "no such file" []);
  pe_Decode _ _ := (inl example_config, tt);
  pe_DecodeExtra _ := Some (foreign_err IoEOF);
  pe_ToLower level := level;
  pe_ParseLevel level := if bool_decide (level = str "info") then inl 1 else inr (Errorf "unknown level" []);
  pe_Base := unit;
  pe_ParseConfig _ := inl (mkPoolConfig tt 4 0 0);
  pe_NewWithConfig _ := inl tt;
  pe_Ping _ := inl tt;
  pe_DialContext _ _ := inl tt;
  pe_World := unit;
  pe_rpc := example_rpc id;
  pe_world := tt;
  pe_ping_time := 0;
  pe_dial_time := 0;
  pe_runServices _ _ _ := None
|}.

Definition background : Context := mkContext CtxOpen None.
Definition ran (id : Z) (args : list go_string) := run (H := example_env id) background args [].

Example runs_the_services :
  ran 1 [str "--config=indexer.yaml"] =
    (Ok tt, [PoolCreated; RPCDialed; services_event example_config; RPCClosed; PoolClosed]) /\
  ran 1 [str "-config"; str "indexer.yaml"] = ran 1 [str "--config=indexer.yaml"].
Proof. split; reflexivity. Qed.

(** Another network: the connections are closed again. *)
Example refuses_other_network :
  (ran 11155111 [str "-config"; str "indexer.yaml"]).2 = [PoolCreated; RPCDialed; RPCClosed; PoolClosed] /\
  is_ok (ran 11155111 [str "-config"; str "indexer.yaml"]).1 = false.
Proof. split; reflexivity. Qed.

Example command_lines :
  ran 1 [str "-h"] = (Ok tt, []) /\ is_ok (ran 1 []).1 = false /\ is_ok (ran 1 [str "extra"]).1 = false /\
  is_ok (ran 1 [str "-config"]).1 = false.
Proof. repeat split; reflexivity. Qed.

Lemma run_lifecycle_witness :
  run_outcome (H := example_env 1) background [str "-config"; str "indexer.yaml"] (Ok tt)
    [PoolCreated; RPCDialed; services_event example_config; RPCClosed; PoolClosed].
Proof.
  exact (proj1 (run_lifecycle (H := example_env 1) (fun _ _ => I) background [str "-config"; str "indexer.yaml"])).
Defined.

(** The synchronizer whose third attempt succeeds and whose context is cancelled while it
    waits for the next poll. *)
Definition log_wait (d : Z) (l : list call) : list call := l ++ [CallWait d].
#[local] Instance scripted_runner : indexerRunner :=
  syncer_runner (test_syncer 3) script_sync script_ctx log_wait (fun _ => false) [].
#[local] Instance scripted_server : httpRuntime := {|
  ListenAndServe_returns sd ret := sd = true /\ ret = closed;
  Shutdown_returns ret := ret = None
|}.

Lemma scripted_stop : rtc gstep initial_group stopped_group.
Proof.
  apply stopped_group_reachable; [|done|done].
  exists 2%nat, (foreign_err ContextCanceled), (Syncer_run (test_syncer 3) script_sync
    (waitFor script_ctx log_wait (fun _ => false)) script_ctx 2 []).2. by vm_compute.
Qed.

Lemma process_result_witness : g_err stopped_group = None /\ stopped_gracefully stopped_group.
Proof.
  split; [reflexivity|].
  exact (process_result (test_syncer 3) script_sync script_ctx log_wait (fun _ => false) []
    script_sync_returns eq_refl ltac:(done) stopped_group scripted_stop eq_refl).
Defined.
End Evaluation.
